(* ===== verification/_CoqProject ===== *)
-Q . S2P
Prelude.v
Crc.v
Codec.v
Scan.v
OrdIndex.v
SkipList.v
SkipListFacts.v
Store.v
StoreFacts.v
StoreExpiry.v
Float.v
Recovery.v
RecoveryFacts.v
Snapshot.v
SnapshotFacts.v
Wal.v
WalFacts.v
DtIndex.v
Query.v
ValueReader.v
Compaction.v
CompactionFacts.v
Utf8.v
Postings.v
PostingsFacts.v
IndexManager.v
IndexManagerFacts.v
CompoundIndex.v
CompoundIndexFacts.v
TextIndex.v
TextIndexFacts.v
MiniDb.v
MiniDbRead.v
MiniDbFacts.v
WriteFacts.v
ReadFacts.v
UpdateFacts.v
BatchFacts.v
FacadeFacts.v
FacadeExamples.v
Lockfile.v
LockfileFacts.v
Router.v
Cluster.v
KeyFacts.v
ClusterFacts.v
ClusterScan.v
ClusterExamples.v
Server.v
ServerFacts.v
ServerExamples.v
LockPool.v
LockPoolFacts.v
LockPoolExamples.v
Open.v
OpenFacts.v
BackupFacts.v
OpenExamples.v
Shard.v
RenameReplace.v
