(* ===== verification/Prelude.v ===== *)
(** * Verification of the embedded database engine [crates/minidb]

    [crates/minidb] is a key-value and document database in one process: every write
    is a frame of a log, the records are in memory (their values in memory or on
    disk), and recovery replays a snapshot and the log.  Secondary, compound,
    datetime and text indexes are derived from the records.  Several databases make a
    cluster behind a router, and a server gives a database a network protocol.  This
    development models the crate, and proves what each part promises to the next, from
    the bytes of a frame up to the operations of the database, of the cluster and of a
    connection; the end says what it leaves out.

    ** Parts, bottom up, and how they correspond to the code

    A file holds the model of one source file of [crates/minidb/src], in a Module of
    its name; [XFacts] holds the theorems on [X] where they are not in [X] itself.
    Definitions have the names of the functions they model.

    - [Prelude]: results, bytes, machine integers, lists, sums over maps, tactics.
    - [Crc] ([crc32.rs]): the checksum is a third-party crate, the class
      [Crc32fast] with the laws [Crc32fastOk]; a bitwise CRC-32 satisfies them.
    - [Codec], [Scan] ([codec.rs]): frames, batches and the three scanners.  [Scan]:
      what is parsed from a log that is torn or corrupt; the scanners agree.
    - [OrdIndex], [SkipList] ([skiplist.rs]): the interface [OrderedIndex] with the
      laws [OrderedIndexLaws] that the store and the indexes are written against,
      and the arena-allocated skip list, which satisfies them.
    - [Store] ([store.rs]): the records.  [StoreFacts]: each operation; [StoreExpiry]:
      reading only ever takes expired records out.
    - [Recovery] ([recovery.rs]), [Snapshot] ([snapshot.rs]), [ValueReader]
      ([value_reader.rs]): replaying the files, writing a snapshot, reading values.
    - [Wal] ([wal.rs]): the log with its flush task, as a step relation over appends,
      batches, failures and rollbacks.
    - [Compaction] ([compaction.rs]): a compaction cut at its await points, among
      writers, expiry and crashes.
    - [Query] ([query.rs]), [DtIndex] ([dt_index.rs]), [Float], [IndexManager]
      ([index_manager.rs]), [CompoundIndex] ([compound_index.rs]), [Utf8],
      [Postings] ([text_postings.rs]), [TextIndex] ([text_index.rs]): documents and
      the indexes over them.
    - [MiniDb], [MiniDbRead] ([minidb.rs]): the database.  A state monad with errors
      and panics over the store, the derived state and the statistics; [MiniDb] has
      the write path, [MiniDbRead] reads, queries, index definitions and following
      the log of another process.  [MiniDbFacts]: what the derived state stands for;
      [WriteFacts]: one operation applied, undone and published; [ReadFacts]: what
      may happen while a write waits; [UpdateFacts], [BatchFacts]: whole writes;
      [FacadeFacts]: the claims; [FacadeExamples]: runs of an example.
    - [Open] ([minidb.rs]): opening a directory, also one that does not open, closing,
      backup and restore, over the files of the directory and the calls of the operating
      system that may fail.  [OpenFacts]: what opening gives; [BackupFacts]: a backup;
      [OpenExamples].
    - [RenameReplace] ([rename_replace.rs]): the retries of a rename, which end.
    - [Lockfile] ([lockfile.rs]): processes that exclude each other, as interleaved
      steps.
    - [Router] ([cluster/utils.rs], [router.rs], [coordinator.rs], [topology.rs]), [Cluster]
      ([cluster/index.rs]): keys hashed to shards, and the calls of a cluster in a state
      monad over the databases of its shards.  [KeyFacts]: which keys an operation of a
      database may add; [ClusterFacts]: so keys stay in their shard; [ClusterScan]: a scan
      of a cluster is a scan of one database; [ClusterExamples].
    - [LockPool] ([cluster/lock_pool.rs]): the handles of shards that are open, with
      calls of several tasks interleaved.  [LockPoolFacts]: the invariant of its runs;
      [LockPoolExamples].  [Shard] ([cluster/shard.rs]): one of these handles, a database
      opened with the options of the cluster.
    - [Server] ([server.rs]): parser, commands, replies and the loop of a connection.
      [ServerFacts]: a stream of commands however it is cut; [ServerExamples].

    ** What the theorems show

    - The files: what is written is read back ([frame_roundtrip], [batch_ops_roundtrip],
      [snapshot_roundtrip], [rebuild_then_read]); a torn or corrupt log loses only the
      frames that are damaged, whoever scans it ([parse_torn_tail],
      [parse_resync_recovers], [parse_buffer_spec], [scan_frame_refs_parse],
      [feed_any_chunking]); decoding fails exactly on what is not a record.
    - Durability: an acknowledged append is in the file ([acknowledged_appends_are_stored],
      [log_is_the_acknowledged_appends], [flush_answers_every_append]); recovery refines
      the replay of the logs ([recover_replays_the_logs]), also after a crash in an append
      ([recovery_after_a_torn_append]) and at every point of a compaction
      ([compaction_is_crash_safe], [compaction_keeps_reads]).
    - The memory: the skip list refines sorted lists ([insert_refines], [delete_refines],
      [range_refines]); the store and each index are a function of what they were told
      ([index_manager_tracks_documents] and the like), with searches equal to a
      reference ([search_is_reference]).
    - The database: the derived state stands for the store in every history, a failed
      write is undone, an acknowledged one read back, the memory limit holds, and a
      lookup returns what matches ([FacadeFacts]).
    - Opening: whichever calls of the operating system fail, [open] does not panic, and
      the database it returns holds the replay of the files with indexes that stand for
      it, so that the theorems on the database apply from then on
      ([open_gives_a_sound_database]); a backup is restored to files that open to the same
      ([restored_backup_opens_the_same]).
    - The lock: at most one process holds it, and a dead owner is replaced.
    - The cluster: batches are split by shard without loss ([operations_are_split_by_shard]), no
      key is ever in two shards ([keys_stay_in_their_shard]), and a merged scan is that of
      one database ([cluster_scan_is_one_scan]).  A handle the pool gives out is open and
      has seen what was written before ([handles_are_fresh]); one that writes holds the
      lock ([writers_hold_the_lock]), one that reads leaves every file as it is
      ([readers_change_no_file]).
    - The server: a connection executes the commands sent, in order
      ([connection_executes_the_commands]).

    ** How the code is modelled

    Integers are [Z] with their width written out where it matters; bytes are
    Corelib's [byte], a string of the program is its bytes or a [string]; a map or set
    is [gmap] or [gset]; [None] of a function that returns an [option] of a result is a
    panic, and that none happens is part of the theorems.  The clock, the answers
    of the file system, the length of a write that fails and what other tasks do
    while one waits are arguments.  A file is its contents.

    Fuel: the scanners carry one unit per byte and the skip list one per node, which
    their theorems show to be enough; the eviction loop carries one per record and one
    more, and [sets_respect_the_memory_limit] shows that it returns.  The database
    theorems count room: a state with room for [n] has at most [2^32 - n] records,
    documents in each index and document numbers given out by a text index, a write
    takes up at most what [FacadeFacts.cost] says, and below [2^32] no counter of 64 bits
    overflows when a document has at most [2^31] indexed numbers
    ([MiniDbFacts.small]).

    ** Assumptions

    - [serde_json] (numbers, texts, the text of datetime metadata), [regex], [str]'s
      lower case and [f64::ln] are the class [MiniDb.Platform] or parameters; nothing is
      assumed of them but where a theorem says so (the matches of the tokenizer's CJK
      expression are at most a character long when an index is built).  A value of
      the database decodes from what it encodes to ([UpdateFacts.storable]).
    - The numeric indexes hold numbers and are asked for numbers, not NaN.
    - When a write to a file succeeds its bytes are in the file; a rename replaces a
      file at once; a missing file counts as an empty one where the code says so.
    - Memory is unbounded but for what the code checks; locks are not poisoned.
    - While a write waits for the log other tasks read and expire ([ReadFacts.other_step]);
      other writes wait for the write lock, and index definitions do not change.
    - The reader of disk values is a function: a location once published keeps
      its value ([CompactionFacts.read_after_remap_before_reopen] says where the code
      does not keep this).
    - While a database is opened the clock passes no expiry time, and the directory
      is changed by nobody else.
    - Process identifiers are not used again while files name them.

    ** What is not modelled, and why

    Of [minidb.rs] the loops of the tasks that run in the background (they call [compact],
    [reap_expired] and the renewal of the lock, which are modelled), and the counters of
    [stats] that describe files.  The handles that the calls of [Cluster] get are arguments
    there, with the database of a shard read as it is; [LockPool] models how they are
    found, over databases it knows only by the changes they have seen.  Of the server the
    accept loop is left out.

    The other crates of the repository are the agent, its protocol types, transcripts,
    authentication, and the web and desktop front ends: services around language models,
    networks and user interfaces, not algorithms with a contract of their own. *)

From Stdlib Require Export ZArith Lia Sorted.
From Stdlib Require Strings.Byte.
From coqutil Require Byte Word.LittleEndianList.
From stdpp Require Export base tactics numbers list gmap strings.

#[global] Set Default Goal Selector "!".
#[global] Open Scope Z_scope.

(** ** Results: Rust's [Result<A, E>] with stdpp's monadic notation. *)

Inductive result (E A : Type) : Type :=
| Ok (a : A)
| Err (e : E).
Arguments Ok {E A} a.
Arguments Err {E A} e.

#[export] Instance result_ret E : MRet (result E) := fun A a => Ok a.
#[export] Instance result_bind E : MBind (result E) := fun A B f m =>
  match m with Ok a => f a | Err e => Err e end.
#[export] Instance result_fmap E : FMap (result E) := fun A B f m =>
  match m with Ok a => Ok (f a) | Err e => Err e end.

#[export] Instance Ok_inj {E A} : Inj (=) (=) (@Ok E A).
Proof. intros a b H. injection H. done. Qed.

(** [Option::ok_or]. *)
Definition ok_or {E A} (e : E) (o : option A) : result E A :=
  match o with Some a => Ok a | None => Err e end.

(** ** Bytes *)

Abbreviation byte := Corelib.Init.Byte.byte.
Abbreviation bytes := (list Corelib.Init.Byte.byte).

#[export] Instance byte_eq_dec : EqDecision byte := Strings.Byte.byte_eq_dec.
#[export] Program Instance byte_countable : Countable byte :=
  inj_countable Strings.Byte.to_N Strings.Byte.of_N _.
Next Obligation. intros b. apply Strings.Byte.of_to_N. Qed.

(** [x as u8] of an integer, and the integer a byte stands for. *)
Definition byte_of (z : Z) : byte := Byte.byte.of_Z z.
Definition byte_val (b : byte) : Z := Byte.byte.unsigned b.

Lemma byte_val_of z : byte_val (byte_of z) = z `mod` 256.
Proof. apply (Byte.byte.unsigned_of_Z z). Qed.

Lemma byte_val_range b : 0 <= byte_val b < 256.
Proof. apply Byte.byte.unsigned_range. Qed.

Lemma byte_of_val b : byte_of (byte_val b) = b.
Proof. apply Byte.byte.of_Z_unsigned. Qed.

(** ** Machine integers

    [usize], [u64], [u32], [u16] and [i64] are [Z] with their range written
    out; [usize] is 64 bits wide. *)

Definition U16_MAX : Z := 2 ^ 16 - 1.
Definition U32_MAX : Z := 2 ^ 32 - 1.
Definition U64_MAX : Z := 2 ^ 64 - 1.
Definition is_i64 (z : Z) : Prop := - 2 ^ 63 <= z < 2 ^ 63.

(** [checked_add] on [usize] and [u64]. *)
Definition checked_add (a b : Z) : option Z :=
  if a + b <=? U64_MAX then Some (a + b) else None.

Lemma checked_add_Some a b : a + b <= U64_MAX -> checked_add a b = Some (a + b).
Proof. intros. unfold checked_add. destruct (Z.leb_spec (a + b) U64_MAX); [done | lia]. Qed.

Lemma checked_add_inv a b c : checked_add a b = Some c -> c = a + b /\ c <= U64_MAX.
Proof. unfold checked_add. destruct (Z.leb_spec (a + b) U64_MAX); naive_solver. Qed.

(** [a - b] on [usize], which panics below zero. *)
Definition checked_sub (a b : Z) : option Z :=
  if b <=? a then Some (a - b) else None.

Lemma checked_sub_Some a b : b <= a -> checked_sub a b = Some (a - b).
Proof. intros. unfold checked_sub. destruct (Z.leb_spec b a); [done | lia]. Qed.

(** [saturating_sub] on unsigned integers. *)
Definition saturating_sub (a b : Z) : Z := Z.max 0 (a - b).
(** [saturating_add] on [u64]. *)
Definition saturating_add (a b : Z) : Z := Z.min U64_MAX (a + b).

(** [x.to_le_bytes()] of an [n]-byte integer and the [from_le_bytes] readings
    of an unsigned integer and of an [i64]. *)
Definition to_le_bytes (n : nat) (z : Z) : bytes := LittleEndianList.le_split n z.
Definition from_le_bytes (bs : bytes) : Z := LittleEndianList.le_combine bs.
Definition i64_from_le_bytes (bs : bytes) : Z :=
  let u := from_le_bytes bs in if u <? 2 ^ 63 then u else u - 2 ^ 64.

Lemma length_to_le_bytes n z : length (to_le_bytes n z) = n.
Proof. apply LittleEndianList.length_le_split. Qed.

Lemma from_to_le_bytes n z :
  0 <= z < 2 ^ (Z.of_nat n * 8) -> from_le_bytes (to_le_bytes n z) = z.
Proof.
  intros. unfold from_le_bytes, to_le_bytes.
  rewrite LittleEndianList.le_combine_split. by apply Z.mod_small.
Qed.

Lemma i64_from_to_le_bytes z :
  is_i64 z -> i64_from_le_bytes (to_le_bytes 8 z) = z.
Proof.
  unfold is_i64, i64_from_le_bytes, from_le_bytes, to_le_bytes. intros Hz.
  rewrite LittleEndianList.le_combine_split. change (Z.of_nat 8 * 8) with 64.
  destruct (Z.leb_spec 0 z).
  - rewrite Z.mod_small by lia. destruct (Z.ltb_spec z (2 ^ 63)); lia.
  - replace (z `mod` 2 ^ 64) with (z + 2 ^ 64)
      by (rewrite <- (Z.mod_add z 1) by lia; rewrite Z.mod_small; lia).
    destruct (Z.ltb_spec (z + 2 ^ 64) (2 ^ 63)); lia.
Qed.

Lemma from_le_bytes_range bs :
  0 <= from_le_bytes bs < 2 ^ (8 * Z.of_nat (length bs)).
Proof. apply LittleEndianList.le_combine_bound. Qed.

(** ** Lengths and slices

    Indices into byte vectors are [Z] (they are [usize] or [u64] in the code,
    and lengths read from a corrupt header can be far larger than any vector);
    [slice l a b] is [&l[a..b]] when the range is in bounds and [slice_get] is
    [l.get(a..b)]. *)

Definition zlen {A} (l : list A) : Z := Z.of_nat (length l).

Definition slice {A} (l : list A) (a b : Z) : list A :=
  take (Z.to_nat (b - a)) (drop (Z.to_nat a) l).

Definition slice_get {A} (l : list A) (a b : Z) : option (list A) :=
  if (0 <=? a) && (a <=? b) && (b <=? zlen l) then Some (slice l a b) else None.

(** [&l[a..]]. *)
Definition slice_from {A} (l : list A) (a : Z) : list A := drop (Z.to_nat a) l.

Section slices.
Context {A : Type}.
Implicit Types l x y : list A.

Lemma zlen_nonneg l : 0 <= zlen l.
Proof. unfold zlen. lia. Qed.

Lemma zlen_app x y : zlen (x ++ y) = zlen x + zlen y.
Proof. unfold zlen. rewrite length_app. lia. Qed.

Lemma zlen_cons a l : zlen (a :: l) = 1 + zlen l.
Proof. unfold zlen. simpl. lia. Qed.

Lemma zlen_nil : zlen (@nil A) = 0.
Proof. done. Qed.

Lemma zlen_0 l : zlen l = 0 <-> l = [].
Proof. unfold zlen. destruct l; simpl; split; intros; try done; lia. Qed.

Lemma slice_get_Some l a b s :
  slice_get l a b = Some s <-> 0 <= a <= b /\ b <= zlen l /\ s = slice l a b.
Proof.
  unfold slice_get.
  destruct (Z.leb_spec 0 a), (Z.leb_spec a b), (Z.leb_spec b (zlen l));
    simpl; (split; [intros [= <-]; repeat split; done || lia | intros (?&?&->)]); done || lia.
Qed.

Lemma slice_get_in l a b :
  0 <= a <= b -> b <= zlen l -> slice_get l a b = Some (slice l a b).
Proof. intros. apply slice_get_Some. auto. Qed.

Lemma slice_get_None l a b :
  0 <= a <= b -> slice_get l a b = None <-> zlen l < b.
Proof.
  intros. destruct (slice_get l a b) eqn:E.
  - apply slice_get_Some in E. split; [done | lia].
  - split; [|done]. intros _. destruct (Z.leb_spec b (zlen l)); [|done].
    rewrite slice_get_in in E; done || lia.
Qed.

Lemma zlen_slice l a b :
  0 <= a <= b -> b <= zlen l -> zlen (slice l a b) = b - a.
Proof.
  unfold zlen, slice. intros. rewrite length_take, length_drop. lia.
Qed.

Lemma slice_app_l x y a b :
  0 <= a <= b -> b <= zlen x -> slice (x ++ y) a b = slice x a b.
Proof.
  unfold slice, zlen. intros. rewrite drop_app_le by lia.
  rewrite take_app_le; [done|]. rewrite length_drop. lia.
Qed.

Lemma slice_app_r x y a b :
  zlen x <= a -> slice (x ++ y) a b = slice y (a - zlen x) (b - zlen x).
Proof.
  unfold slice, zlen. intros. rewrite drop_app_ge by lia.
  f_equal; [lia|]. f_equal. lia.
Qed.

Lemma slice_all x : slice x 0 (zlen x) = x.
Proof. unfold slice, zlen. rewrite drop_0. apply take_ge. lia. Qed.

Lemma slice_app_mid x y z : slice (x ++ y ++ z) (zlen x) (zlen x + zlen y) = y.
Proof.
  rewrite slice_app_r by lia. rewrite Z.sub_diag, Z.add_simpl_l.
  rewrite slice_app_l by (pose proof (zlen_nonneg y); lia). apply slice_all.
Qed.

Lemma slice_mid x y z a b :
  a = zlen x -> b = a + zlen y -> slice (x ++ y ++ z) a b = y.
Proof. intros -> ->. apply slice_app_mid. Qed.

Lemma slice_get_mid x y z a b :
  a = zlen x -> b = a + zlen y -> slice_get (x ++ y ++ z) a b = Some y.
Proof.
  intros -> ->. pose proof (zlen_nonneg x). pose proof (zlen_nonneg y).
  pose proof (zlen_nonneg z).
  rewrite slice_get_in by (rewrite ?zlen_app; lia). by rewrite slice_app_mid.
Qed.

Lemma slice_slice l a b c d :
  0 <= a -> 0 <= c <= d -> d <= b - a ->
  slice (slice l a b) c d = slice l (a + c) (a + d).
Proof.
  unfold slice. intros. rewrite List.skipn_firstn_comm, take_take, drop_drop.
  f_equal; [lia|]. f_equal. lia.
Qed.

Lemma slice_split l a b c :
  0 <= a <= b -> b <= c -> slice l a c = slice l a b ++ slice l b c.
Proof.
  unfold slice. intros.
  replace (Z.to_nat (c - a)) with (Z.to_nat (b - a) + Z.to_nat (c - b))%nat by lia.
  rewrite <- take_take_drop, drop_drop. do 3 f_equal. lia.
Qed.

Lemma slice_empty l a : slice l a a = [].
Proof. unfold slice. by rewrite Z.sub_diag. Qed.

Lemma slice_from_app_r x y a :
  zlen x <= a -> slice_from (x ++ y) a = slice_from y (a - zlen x).
Proof.
  unfold slice_from, zlen. intros. rewrite drop_app_ge by lia. f_equal. lia.
Qed.

Lemma zlen_slice_from l a : 0 <= a <= zlen l -> zlen (slice_from l a) = zlen l - a.
Proof. unfold slice_from, zlen. intros. rewrite length_drop. lia. Qed.

Lemma slice_slice_from l a c d :
  0 <= a -> 0 <= c <= d -> slice (slice_from l a) c d = slice l (a + c) (a + d).
Proof.
  unfold slice, slice_from. intros. rewrite drop_drop. f_equal; [lia|]. f_equal. lia.
Qed.

Lemma slice_get_slice_from l a c d :
  0 <= a <= zlen l -> 0 <= c -> c <= d ->
  slice_get (slice_from l a) c d = slice_get l (a + c) (a + d).
Proof.
  intros. destruct (slice_get l (a + c) (a + d)) as [s|] eqn:E.
  - apply slice_get_Some in E as (?&?&->). rewrite <- slice_slice_from by lia.
    apply slice_get_in; [lia|]. rewrite zlen_slice_from; lia.
  - apply slice_get_None in E; [|lia]. apply slice_get_None; [lia|].
    rewrite zlen_slice_from; lia.
Qed.

Lemma slice_get_app l y a b s : slice_get l a b = Some s -> slice_get (l ++ y) a b = Some s.
Proof.
  intros (?&?&->)%slice_get_Some. pose proof (zlen_nonneg y).
  rewrite slice_get_in by (rewrite ?zlen_app; lia). by rewrite slice_app_l.
Qed.

Lemma slice_from_slice_from l a b :
  0 <= a -> 0 <= b -> slice_from (slice_from l a) b = slice_from l (a + b).
Proof. unfold slice_from. intros. rewrite drop_drop. f_equal. lia. Qed.

Lemma slice_from_slice l a : 0 <= a <= zlen l -> slice_from l a = slice l a (zlen l).
Proof.
  unfold slice_from, slice, zlen. intros. rewrite take_ge; [done|].
  rewrite length_drop. lia.
Qed.

(** Two decompositions of a list: the longer first part extends the shorter. *)
Lemma app_prefix_split x y p w :
  x ++ y = p ++ w -> zlen p <= zlen x -> exists t, x = p ++ t.
Proof.
  revert p. induction x as [|a x IH]; intros p Heq Hle.
  - destruct p; [by exists []|]. rewrite zlen_cons, zlen_nil in Hle.
    pose proof (zlen_nonneg p). lia.
  - destruct p as [|b p]; [by exists (a :: x)|]. simplify_eq/=. rewrite !zlen_cons in Hle.
    destruct (IH p) as [t ->]; [done|lia|]. by exists t.
Qed.

Lemma slice_from_zlen x y : slice_from (x ++ y) (zlen x) = y.
Proof. rewrite slice_from_app_r by lia. by rewrite Z.sub_diag. Qed.
End slices.

Lemma zlen_to_le_bytes n z : zlen (to_le_bytes n z) = Z.of_nat n.
Proof. unfold zlen. by rewrite length_to_le_bytes. Qed.

(** Ranges of the values decoded from fixed-width fields. *)
Lemma from_le_bytes_slice_range l a b :
  0 <= a <= b ->
  0 <= from_le_bytes (slice l a b) < 2 ^ (8 * (b - a)).
Proof.
  intros Hab. pose proof (from_le_bytes_range (slice l a b)) as [H1 H2].
  split; [done|]. eapply Z.lt_le_trans; [exact H2|].
  apply Z.pow_le_mono_r; [lia|]. unfold slice. rewrite length_take. lia.
Qed.

(** A loop over a list in the option monad, [None] being a panic. *)
Fixpoint foldM {S A} (f : S -> A -> option S) (s : S) (l : list A) : option S :=
  match l with
  | [] => Some s
  | a :: l => s ← f s a; foldM f s l
  end.

Lemma foldM_app {S A} (f : S -> A -> option S) s l1 l2 :
  foldM f s (l1 ++ l2) = s' ← foldM f s l1; foldM f s' l2.
Proof.
  revert s. induction l1 as [|a l1 IH]; intros s; simpl; [done|].
  destruct (f s a) as [s'|]; simpl; [apply IH | done].
Qed.

(** A filter that keeps everything. *)
Lemma filter_true {A} (P : A -> Prop) `{!forall x, Decision (P x)} (l : list A) :
  (forall x, x ∈ l -> P x) -> filter P l = l.
Proof.
  induction l as [|x l IH]; intros HP; [done|].
  rewrite filter_cons_True, IH; [done|set_solver..].
Qed.

(** The sum of a function over the entries of a map. *)
Section msum.
Context {K A : Type} `{Countable K} (f : K -> A -> Z).

Definition msum (m : gmap K A) : Z := map_fold (fun k a acc => f k a + acc) 0 m.

Lemma msum_empty : msum ∅ = 0.
Proof. apply map_fold_empty. Qed.

Lemma msum_insert m k a : m !! k = None -> msum (<[k := a]> m) = f k a + msum m.
Proof. intros. unfold msum. rewrite map_fold_insert_L; [done|intros; lia|done]. Qed.

Lemma msum_delete m k a : m !! k = Some a -> msum m = f k a + msum (delete k m).
Proof. intros. unfold msum. rewrite (map_fold_delete_L _ _ k a m); [done|intros; lia|done]. Qed.

Lemma msum_nonneg m : (forall k a, 0 <= f k a) -> 0 <= msum m.
Proof.
  intros Hf. induction m as [|k a m Hk IH] using map_ind.
  - by rewrite msum_empty.
  - rewrite msum_insert by done. specialize (Hf k a). lia.
Qed.
Lemma msum_subseteq m1 m2 : (forall k a, 0 <= f k a) -> m1 ⊆ m2 -> msum m1 <= msum m2.
Proof.
  intros Hf. revert m1. induction m2 as [|k a m2 Hk IH] using map_ind; intros m1 Hs.
  - assert (m1 = ∅) as ->; [|done]. apply map_empty. intros i. destruct (m1 !! i) eqn:E; [|done].
    by pose proof (lookup_weaken _ _ _ _ E Hs).
  - rewrite (msum_insert m2) by done. assert (msum (delete k m1) <= msum m2) as Hd.
    { apply IH. rewrite <- (delete_insert_id m2 k a) by done. by apply delete_mono. }
    specialize (Hf k). destruct (m1 !! k) as [b|] eqn:E.
    + rewrite (msum_delete m1 k b E). pose proof (lookup_weaken _ _ _ _ E Hs) as E'. rewrite lookup_insert_eq in E'.
      injection E' as ->. lia.
    + rewrite delete_id in Hd by done. specialize (Hf a). lia.
Qed.
End msum.

(** A list cut in two ways. *)
Lemma app_cut {A} (x y pre rest : list A) a :
  x ++ y = pre ++ a :: rest ->
  (exists r, x = pre ++ a :: r /\ rest = r ++ y) \/
  (exists p, pre = x ++ p /\ y = p ++ a :: rest).
Proof.
  revert pre. induction x as [|b x IH]; intros pre Heq; simpl in Heq.
  - right. by exists pre.
  - destruct pre as [|c pre]; injection Heq as -> Heq.
    + left. subst. by exists x.
    + destruct (IH pre Heq) as [(r & -> & ->)|(p & -> & ->)]; [left|right]; eauto.
Qed.

(** In a list without duplicates an element determines the parts around it. *)
Lemma NoDup_app_cons_inj {A} (x y x' y' : list A) a :
  NoDup (x ++ a :: y) -> x ++ a :: y = x' ++ a :: y' -> x = x' /\ y = y'.
Proof.
  intros Hnd Heq. apply app_cut in Heq as Hc.
  destruct Hc as [(r & -> & ->)|([|b p] & -> & Hp)].
  - exfalso. rewrite <- app_assoc in Hnd. apply NoDup_app in Hnd as (_ & _ & Hnd). simpl in Hnd.
    apply NoDup_cons in Hnd as [Hnd _]. set_solver.
  - rewrite app_nil_r. by injection Hp as ->.
  - injection Hp as <- ->. exfalso. apply NoDup_app in Hnd as (_ & _ & Hnd).
    apply NoDup_cons in Hnd as [Hnd _]. set_solver.
Qed.

(** A key of an association list has one value. *)
Lemma NoDup_fst_inj {A B} (l : list (A * B)) k x y :
  NoDup l.*1 -> (k, x) ∈ l -> (k, y) ∈ l -> x = y.
Proof.
  induction l as [|[k' z] l IH]; intros Hnd; [by intros ?%elem_of_nil|].
  apply NoDup_cons in Hnd as [Hk Hnd]. simpl in Hk.
  assert (forall w, (k', w) ∉ l) as Hk'.
  { intros w Hw. apply Hk. apply list_elem_of_fmap. by exists (k', w). }
  intros [[= -> ->]|Hx]%elem_of_cons [[= -> ]|Hy]%elem_of_cons; [done|by apply Hk' in Hy| |by apply IH].
  subst. by apply Hk' in Hx.
Qed.

(** ** A loop over the values of a map

    [for value in map.values_mut()], when the body may panic. *)

Section each_value.
Context {A : Type} (f : A -> option A).

Definition each_value (m : gmap string A) : option (gmap string A) :=
  foldM (fun acc kv => a ← f kv.2; Some (<[kv.1 := a]> acc)) m (map_to_list m).

Lemma each_value_loop (l : list (string * A)) (acc : gmap string A) :
  NoDup l.*1 -> Forall (fun kv => is_Some (f kv.2)) l ->
  exists m, foldM (fun acc kv => a ← f kv.2; Some (<[kv.1 := a]> acc)) acc l = Some m /\
    forall k, m !! k = match (list_to_map l : gmap string A) !! k with Some a => f a | None => acc !! k end.
Proof.
  revert acc. induction l as [|[k i] l IH]; intros acc Hnd Hf; [by exists acc|].
  apply NoDup_cons in Hnd as [Hk Hnd]. apply Forall_cons in Hf as [[i' Hi'] Hf]. cbn [fst snd] in *.
  destruct (IH (<[k := i']> acc) Hnd Hf) as (m & Hm & Hl).
  exists m. split; [cbn [foldM fst snd]; rewrite Hi'; exact Hm|].
  intros k'. rewrite Hl. cbn [list_to_map foldr uncurry fst snd]. destruct (decide (k' = k)) as [->|Hne].
  - rewrite lookup_insert_eq. rewrite (not_elem_of_list_to_map_1 l k) by done.
    by rewrite lookup_insert_eq, Hi'.
  - by rewrite !lookup_insert_ne.
Qed.

Lemma each_value_spec m :
  (forall k a, m !! k = Some a -> is_Some (f a)) ->
  exists m', each_value m = Some m' /\ forall k, m' !! k = m !! k ≫= f.
Proof.
  intros Hf. destruct (each_value_loop (map_to_list m) m) as (m' & Hm & Hl).
  - apply NoDup_fst_map_to_list.
  - apply Forall_forall. intros [k i] Hin. apply elem_of_map_to_list in Hin. by eapply Hf.
  - exists m'. split; [exact Hm|]. intros k.
    rewrite Hl, list_to_map_to_list. by destruct (m !! k) as [i|] eqn:E; rewrite ?E.
Qed.
End each_value.

(** ** Automation *)


(** The bind of [option] and [result], reduced one step. *)
Ltac simpl_bind := cbn [mbind option_bind result_bind mret fmap option_fmap option_map result_fmap].

Create Rewrite HintDb zlen.
#[export] Hint Rewrite @zlen_app @zlen_cons @zlen_nil zlen_to_le_bytes : zlen.

Ltac zlen_pos :=
  repeat match goal with
  | |- context [zlen ?l] =>
      lazymatch goal with
      | _ : 0 <= zlen l |- _ => fail
      | _ => pose proof (zlen_nonneg l)
      end
  | _ : context [zlen ?l] |- _ =>
      lazymatch goal with
      | _ : 0 <= zlen l |- _ => fail
      | _ => pose proof (zlen_nonneg l)
      end
  end.

(** [lia] over byte-vector lengths. *)
Ltac zlia := autorewrite with zlen in *; zlen_pos; lia.

(** Case analysis on the outermost boolean integer comparison. *)
Ltac case_cmp :=
  match goal with
  | |- context [?a <? ?b] => destruct (Z.ltb_spec a b)
  | |- context [?a <=? ?b] => destruct (Z.leb_spec a b)
  | |- context [?a =? ?b] => destruct (Z.eqb_spec a b)
  end.
