(* ===== verification/Crc.v ===== *)
(** * CRC-32 ([crates/minidb/src/crc32.rs])

    The checksum itself is the third-party crate [crc32fast], so it is an
    interface here: the class [Crc32fast] is its [Hasher], and [Crc32fastOk]
    states what the crate documents and the engine relies on, namely that a
    checksum is a [u32] and that feeding a hasher chunk by chunk gives the
    checksum of the concatenation.  [Bitwise] is a concrete CRC-32 (the
    reflected polynomial [0xEDB88320], without tables) that satisfies the
    interface; it instantiates the properties that depend on it. *)

From S2P Require Import Prelude.

Class Crc32fast := {
  (** [Hasher::new_with_initial(previous)], [update(bytes)], [finalize()]. *)
  hasher : Z -> bytes -> Z;
}.

Class Crc32fastOk `{Crc32fast} : Prop := {
  hasher_range previous bs :
    0 <= previous <= U32_MAX -> 0 <= hasher previous bs <= U32_MAX;
  hasher_app previous xs ys :
    0 <= previous <= U32_MAX ->
    hasher previous (xs ++ ys) = hasher (hasher previous xs) ys;
  hasher_nil previous : 0 <= previous <= U32_MAX -> hasher previous [] = previous;
}.

(** [crc32.rs], [crc32()]. *)
Definition crc32 `{Crc32fast} (bs : bytes) (previous : Z) : Z := hasher previous bs.

Section crc32.
Context `{Crc32fastOk}.

Lemma crc32_range bs : 0 <= crc32 bs 0 < 2 ^ 32.
Proof. unfold crc32. pose proof (hasher_range 0 bs). unfold U32_MAX in *. lia. Qed.

Lemma hasher_chunks previous chunks :
  0 <= previous <= U32_MAX ->
  foldl (fun p chunk => crc32 chunk p) previous chunks = crc32 (concat chunks) previous.
Proof.
  unfold crc32. revert previous. induction chunks as [|c cs IH]; intros p Hp; simpl.
  - by rewrite hasher_nil.
  - rewrite hasher_app by done. by apply IH, hasher_range.
Qed.

(** A checksum computed over the pieces of a buffer, each starting from the
    result so far, is the checksum of the buffer. *)
Lemma crc32_chunks chunks :
  foldl (fun previous chunk => crc32 chunk previous) 0 chunks = crc32 (concat chunks) 0.
Proof. apply hasher_chunks. unfold U32_MAX. lia. Qed.
End crc32.

(** ** A concrete CRC-32 *)

Module Bitwise.
Definition POLY : Z := 0xEDB88320.

Definition step_bit (c : Z) : Z :=
  if Z.testbit c 0 then Z.lxor POLY (Z.shiftr c 1) else Z.shiftr c 1.

Definition step_byte (c : Z) (b : byte) : Z :=
  Nat.iter 8 step_bit (Z.lxor c (byte_val b)).

Definition checksum (previous : Z) (bs : bytes) : Z :=
  Z.lxor (foldl step_byte (Z.lxor previous U32_MAX) bs) U32_MAX.

#[export] Instance bitwise_crc : Crc32fast := {| hasher := checksum |}.

Lemma lxor_u32 a b :
  0 <= a <= U32_MAX -> 0 <= b <= U32_MAX -> 0 <= Z.lxor a b <= U32_MAX.
Proof.
  unfold U32_MAX. intros Ha Hb.
  assert (0 <= Z.lxor a b) by (apply Z.lxor_nonneg; lia).
  destruct (Z.eq_dec (Z.lxor a b) 0); [lia|].
  assert (Z.log2 (Z.lxor a b) < 32); [|pose proof (Z.log2_lt_pow2 (Z.lxor a b) 32); lia].
  eapply Z.le_lt_trans; [by apply Z.log2_lxor; lia|].
  assert (forall x, 0 <= x <= 2 ^ 32 - 1 -> Z.log2 x < 32) as Hlog.
  { intros x Hx. destruct (Z.eq_dec x 0) as [->|]; [done|].
    apply Z.log2_lt_pow2; lia. }
  pose proof (Hlog a Ha). pose proof (Hlog b Hb). lia.
Qed.

Lemma shiftr_u32 a : 0 <= a <= U32_MAX -> 0 <= Z.shiftr a 1 <= U32_MAX.
Proof.
  rewrite Z.shiftr_div_pow2 by lia. change (2 ^ 1) with 2. intros Ha.
  split; [apply Z.div_pos; lia|].
  etransitivity; [apply Z.div_le_upper_bound with (q := a); lia | lia].
Qed.

Lemma step_bit_u32 c : 0 <= c <= U32_MAX -> 0 <= step_bit c <= U32_MAX.
Proof.
  intros Hc. unfold step_bit. pose proof (shiftr_u32 c Hc).
  destruct (Z.testbit c 0); [|done]. apply lxor_u32; [|done]. by vm_compute.
Qed.

Lemma step_byte_u32 c b : 0 <= c <= U32_MAX -> 0 <= step_byte c b <= U32_MAX.
Proof.
  intros Hc. unfold step_byte.
  assert (H : 0 <= Z.lxor c (byte_val b) <= U32_MAX).
  { apply lxor_u32; [done|]. pose proof (byte_val_range b). unfold U32_MAX. lia. }
  revert H. generalize (Z.lxor c (byte_val b)). generalize 8%nat.
  intros n. induction n as [|n IH]; intros x Hx; [done|].
  simpl. apply step_bit_u32, IH, Hx.
Qed.

#[export] Instance bitwise_crc_ok : Crc32fastOk.
Proof.
  assert (HM : 0 <= U32_MAX <= U32_MAX) by (unfold U32_MAX; lia).
  split; simpl; unfold checksum.
  - intros p bs Hp. apply lxor_u32; [|done].
    assert (H : 0 <= Z.lxor p U32_MAX <= U32_MAX) by by apply lxor_u32.
    revert H. generalize (Z.lxor p U32_MAX).
    induction bs as [|b bs IH]; intros x Hx; simpl; [done|].
    apply IH. by apply step_byte_u32.
  - intros p xs ys Hp. rewrite foldl_app, Z.lxor_assoc, Z.lxor_nilpotent, Z.lxor_0_r.
    done.
  - intros p Hp. simpl. by rewrite Z.lxor_assoc, Z.lxor_nilpotent, Z.lxor_0_r.
Qed.

(** The canonical test vector of the source's own test. *)
Example checksum_vector :
  crc32 (map byte_of [49; 50; 51; 52; 53; 54; 55; 56; 57]) 0 = 0xcbf43926.
Proof. by vm_compute. Qed.
End Bitwise.

(** ** A cheap checksum

    The sum of the bytes satisfies the interface as well; long examples use it. *)

Module Additive.
Definition checksum (previous : Z) (bs : bytes) : Z :=
  foldl (fun sum b => (sum + byte_val b) `mod` 2 ^ 32) previous bs.

#[export] Instance additive_crc : Crc32fast := {| hasher := checksum |}.

#[export] Instance additive_crc_ok : Crc32fastOk.
Proof.
  split; simpl; unfold checksum, U32_MAX.
  - intros p bs. revert p. induction bs as [|b bs IH]; intros p Hp; simpl; [done|].
    apply IH. pose proof (Z.mod_pos_bound (p + byte_val b) (2 ^ 32)). lia.
  - intros p xs ys _. apply foldl_app.
  - done.
Qed.
End Additive.
