(* ===== verification/Codec.v ===== *)
(** * The frame codec ([crates/minidb/src/codec.rs])

    The on-disk format shared by the write-ahead log and the snapshot: the
    22-byte header, the CRC trailer, the [BATCH] body, the in-memory parser
    with corruption resync ([parse_buffer]), the streaming parser
    ([FrameParser]) and the file scanner ([scan_frame_refs]), which reads the
    file piecewise and returns locations instead of values.

    A file is the list of its bytes; reads of a file return what the source
    asks for as far as the file reaches (no short reads before the end).
    Byte offsets are [Z].  The loops that are not structural carry fuel, one
    unit per byte of input, which [parse_buffer_spec] and
    [scan_frame_refs_parse] show to be enough. *)

From S2P Require Import Prelude.
From S2P Require Import Crc.

Module Codec.

(** ** Constants and data *)

Definition MAGIC : bytes := [Byte.x4d; Byte.x44].
Definition TYPE_SET : byte := Byte.x01.
Definition TYPE_DEL : byte := Byte.x02.
Definition TYPE_BATCH : byte := Byte.x03.
Definition HEADER_SIZE : Z := 22.
Definition CRC_SIZE : Z := 4.
Definition MAX_KEY_LEN : Z := U16_MAX.
Definition SUB_HEADER_SIZE : Z := 1 + 2 + 4 + 4 + 8.
Definition CRC_CHUNK_SIZE : Z := Z.shiftl 1 20.
Definition MAGIC_SCAN_CHUNK_SIZE : Z := Z.shiftl 1 20.

Record Frame := mk_Frame {
  frame_type : byte;
  key : bytes;
  value : bytes;
  meta : option bytes;
  expire_at : Z;
}.

Record BatchOp := mk_BatchOp {
  op_type : byte;
  op_key : bytes;
  op_value : option bytes;
  op_meta : option bytes;
  op_expire_at : Z;
}.

Inductive CorruptionMode := Resync | Strict.

#[export] Instance CorruptionMode_eq_dec : EqDecision CorruptionMode.
Proof. solve_decision. Defined.

Record ParseResult := mk_ParseResult {
  frames : list Frame;
  corrupt_ranges : list (Z * Z);
  eof_offset : Z;
}.

Record FrameRef := mk_FrameRef {
  ref_frame_type : byte;
  ref_key : bytes;
  ref_meta : option bytes;
  ref_expire_at : Z;
  frame_offset : Z;
  value_offset : Z;
  value_len : Z;
  frame_len : Z;
}.

Record ScanFrameRefsResult := mk_ScanFrameRefsResult {
  scan_frames : list FrameRef;
  scan_corrupt_ranges : list (Z * Z);
  scan_eof_offset : Z;
}.

Record BatchOpRef := mk_BatchOpRef {
  opref_type : byte;
  opref_key : bytes;
  opref_meta : option bytes;
  opref_expire_at : Z;
  opref_value_offset : Z;
  opref_value_len : Z;
}.

(** [CodecError]; the error texts are not modelled, the offset of
    [CorruptFrame] is. *)
Inductive CodecError :=
| KeyTooLarge
| TooManyBatchOperations
| BatchHeaderTruncated
| BatchPayloadTruncated
| CorruptFrame (offset : Z)
| Io.

Definition corrupt_offset (e : CodecError) : option Z :=
  match e with CorruptFrame offset => Some offset | _ => None end.

(** [(meta_len > 0).then(|| ...)]. *)
Definition meta_of (bs : bytes) : option bytes :=
  if 0 <? zlen bs then Some bs else None.

(** ** Encoding *)

Section codec.
Context `{Crc32fast}.

(** The header and payload of a frame; every length is cast with [as] and so
    wraps at its field's width, which [to_le_bytes] does. *)
Definition frame_header (frame : Frame) : bytes :=
  MAGIC ++ [frame_type frame; byte_of 0] ++
  to_le_bytes 2 (zlen (key frame)) ++
  to_le_bytes 4 (zlen (value frame)) ++
  to_le_bytes 4 (zlen (default [] (meta frame))) ++
  to_le_bytes 8 (expire_at frame).

Definition frame_payload (frame : Frame) : bytes :=
  key frame ++ value frame ++ default [] (meta frame).

Definition encode_frame (frame : Frame) : result CodecError bytes :=
  if MAX_KEY_LEN <? zlen (key frame) then Err KeyTooLarge
  else
    let output := frame_header frame ++ frame_payload frame in
    let checksum := crc32 (slice_from output 2) 0 in
    Ok (output ++ to_le_bytes 4 checksum).

Definition encode_batch_op (operation : BatchOp) : bytes :=
  let value := default [] (op_value operation) in
  let meta := default [] (op_meta operation) in
  [op_type operation] ++
  to_le_bytes 2 (zlen (op_key operation)) ++
  to_le_bytes 4 (zlen value) ++
  to_le_bytes 4 (zlen meta) ++
  to_le_bytes 8 (op_expire_at operation) ++
  op_key operation ++ value ++ meta.

Definition encode_batch_ops (operations : list BatchOp) : result CodecError bytes :=
  if U16_MAX <? zlen operations then Err TooManyBatchOperations
  else if existsb (fun operation => MAX_KEY_LEN <? zlen (op_key operation)) operations
  then Err KeyTooLarge
  else Ok (to_le_bytes 2 (zlen operations) ++ concat (map encode_batch_op operations)).

(** ** Decoding *)

(** The fields of a batch sub-header and the end of its payload. *)
Definition batch_payload_end (body : bytes) (offset key_len value_len meta_len : Z)
    : result CodecError Z :=
  ok_or BatchPayloadTruncated
    (e ← checked_add offset key_len;
     e ← checked_add e value_len;
     e ← checked_add e meta_len;
     guard (e <= zlen body);; Some e).

Fixpoint decode_batch_ops_loop (count : nat) (body : bytes) (offset : Z)
    : result CodecError (list BatchOp) :=
  match count with
  | O => Ok []
  | S count =>
      header ← ok_or BatchHeaderTruncated
                 (slice_get body offset (offset + SUB_HEADER_SIZE));
      let op_type := default Byte.x00 (header !! 0%nat) in
      let key_len := from_le_bytes (slice header 1 3) in
      let value_len := from_le_bytes (slice header 3 7) in
      let meta_len := from_le_bytes (slice header 7 11) in
      let expire_at := i64_from_le_bytes (slice header 11 19) in
      let offset := offset + SUB_HEADER_SIZE in
      e ← batch_payload_end body offset key_len value_len meta_len;
      let key := slice body offset (offset + key_len) in
      let offset := offset + key_len in
      let value := slice body offset (offset + value_len) in
      let offset := offset + value_len in
      let meta := if 0 <? meta_len then Some (slice body offset (offset + meta_len))
                  else None in
      operations ← decode_batch_ops_loop count body e;
      Ok (mk_BatchOp op_type key (Some value) meta expire_at :: operations)
  end.

Definition decode_batch_ops (body : bytes) : result CodecError (list BatchOp) :=
  if zlen body <? 2 then Ok []
  else decode_batch_ops_loop (Z.to_nat (from_le_bytes (slice body 0 2))) body 2.

(** The length a header announces; [None] when it overflows [usize]. *)
Definition announced_frame_len (key_len value_len meta_len : Z) : option Z :=
  l ← checked_add HEADER_SIZE key_len;
  l ← checked_add l value_len;
  l ← checked_add l meta_len;
  checked_add l CRC_SIZE.

Definition read_frame_at (bs : bytes) (position : Z) : option (Frame * Z) :=
  header ← slice_get bs position (position + HEADER_SIZE);
  if decide (slice header 0 2 = MAGIC) then
    let key_len := from_le_bytes (slice header 4 6) in
    let value_len := from_le_bytes (slice header 6 10) in
    let meta_len := from_le_bytes (slice header 10 14) in
    frame_len ← announced_frame_len key_len value_len meta_len;
    frame_bytes ← slice_get bs position (position + frame_len);
    let stored := from_le_bytes (slice frame_bytes (frame_len - CRC_SIZE) frame_len) in
    if decide (stored = crc32 (slice frame_bytes 2 (frame_len - CRC_SIZE)) 0) then
      let payload := slice frame_bytes HEADER_SIZE (frame_len - CRC_SIZE) in
      let value_start := key_len in
      let meta_start := value_start + value_len in
      Some (mk_Frame
              (default Byte.x00 (header !! 2%nat))
              (slice payload 0 key_len)
              (slice payload value_start meta_start)
              (if 0 <? meta_len then Some (slice_from payload meta_start) else None)
              (i64_from_le_bytes (slice header 14 22)), frame_len)
    else None
  else None.

(** [bytes.windows(2).position(|window| window == MAGIC)]. *)
Fixpoint position_magic (bs : bytes) : option Z :=
  match bs with
  | a :: ((b :: _) as rest) =>
      if decide ([a; b] = MAGIC) then Some 0 else Z.succ <$> position_magic rest
  | _ => None
  end.

(** The resync scan of [parse_buffer]: the first offset from [scan] on at which
    a whole valid frame starts. *)
Fixpoint parse_resume (fuel : nat) (bs : bytes) (scan : Z) : option Z :=
  match fuel with
  | O => None
  | S fuel =>
      if scan + 1 <? zlen bs then
        match position_magic (slice_from bs scan) with
        | None => None
        | Some relative =>
            let scan := scan + relative in
            match read_frame_at bs scan with
            | Some _ => Some scan
            | None => parse_resume fuel bs (scan + 1)
            end
        end
      else None
  end.

Fixpoint parse_loop (fuel : nat) (bs : bytes) (mode : CorruptionMode)
    (frames : list Frame) (corrupt_ranges : list (Z * Z)) (position : Z) : ParseResult :=
  match fuel with
  | O => mk_ParseResult frames corrupt_ranges position
  | S fuel =>
      if position <? zlen bs then
        match read_frame_at bs position with
        | Some (frame, frame_len) =>
            parse_loop fuel bs mode (frames ++ [frame]) corrupt_ranges (position + frame_len)
        | None =>
            if decide (mode = Strict) then
              mk_ParseResult frames (corrupt_ranges ++ [(position, zlen bs)]) position
            else
              let bad_start := position in
              match parse_resume (length bs) bs (position + 1) with
              | Some resume =>
                  parse_loop fuel bs mode frames
                    (corrupt_ranges ++ [(bad_start, resume)]) resume
              | None =>
                  mk_ParseResult frames (corrupt_ranges ++ [(bad_start, zlen bs)]) position
              end
        end
      else mk_ParseResult frames corrupt_ranges position
  end.

Definition parse_buffer (bs : bytes) (mode : CorruptionMode) : ParseResult :=
  parse_loop (S (length bs)) bs mode [] [] 0.

(** ** The streaming parser *)

Record FrameParser := mk_FrameParser { pending : bytes; offset : Z }.

Definition FrameParser_new : FrameParser := mk_FrameParser [] 0.

(** The loop of [feed]: the offset, the position reached in [pending] and the
    frames, or the error. *)
Fixpoint feed_loop (fuel : nat) (pending : bytes) (offset position : Z)
    (frames : list Frame) : Z * Z * result CodecError (list Frame) :=
  match fuel with
  | O => (offset, position, Ok frames)
  | S fuel =>
      if zlen pending - position <? HEADER_SIZE then (offset, position, Ok frames)
      else if decide (slice pending position (position + 2) = MAGIC) then
        let key_len := from_le_bytes (slice pending (position + 4) (position + 6)) in
        let value_len := from_le_bytes (slice pending (position + 6) (position + 10)) in
        let meta_len := from_le_bytes (slice pending (position + 10) (position + 14)) in
        match announced_frame_len key_len value_len meta_len with
        | None => (offset, position, Err (CorruptFrame (offset + position)))
        | Some frame_len =>
            if zlen pending - position <? frame_len then (offset, position, Ok frames)
            else
              match read_frame_at pending position with
              | None => (offset, position, Err (CorruptFrame (offset + position)))
              | Some (frame, _) =>
                  feed_loop fuel pending (offset + frame_len) (position + frame_len)
                    (frames ++ [frame])
              end
        end
      else
        match position_magic (slice_from pending (position + 1)) with
        | Some relative => feed_loop fuel pending offset (position + 1 + relative) frames
        | None => (offset, position, Err (CorruptFrame (offset + position)))
        end
  end.

Definition feed (self : FrameParser) (chunk : bytes)
    : FrameParser * result CodecError (list Frame) :=
  let pending := pending self ++ chunk in
  match feed_loop (S (length pending)) pending (offset self) 0 [] with
  | (offset, position, Ok frames) =>
      (mk_FrameParser (if 0 <? position then slice_from pending position else pending) offset,
       Ok frames)
  | (offset, _, Err e) => (mk_FrameParser pending offset, Err e)
  end.

Definition finish (self : FrameParser) : FrameParser * result CodecError Z :=
  match pending self with
  | [] => (self, Ok (offset self))
  | _ => (mk_FrameParser [] (offset self), Err (CorruptFrame (offset self)))
  end.

(** ** Scanning a file *)

(** [file.seek(..)] and [file.read_exact(..)]. *)
Definition read_exact_at (file : bytes) (position n : Z) : result CodecError bytes :=
  if n =? 0 then Ok [] else ok_or Io (slice_get file position (position + n)).

Fixpoint checksum_loop (fuel : nat) (file : bytes) (checksum checksum_position remaining : Z)
    : result CodecError Z :=
  match fuel with
  | O => Ok checksum
  | S fuel =>
      if 0 <? remaining then
        let length := Z.min remaining CRC_CHUNK_SIZE in
        chunk ← read_exact_at file checksum_position length;
        checksum_loop fuel file (hasher checksum chunk)
          (checksum_position + length) (remaining - length)
      else Ok checksum
  end.

Definition read_frame_ref_at (file : bytes) (position size : Z)
    : result CodecError (option FrameRef) :=
  if saturating_sub size position <? HEADER_SIZE then Ok None
  else
    header ← read_exact_at file position HEADER_SIZE;
    if decide (slice header 0 2 = MAGIC) then
      let key_len := from_le_bytes (slice header 4 6) in
      let value_len := from_le_bytes (slice header 6 10) in
      let meta_len := from_le_bytes (slice header 10 14) in
      match announced_frame_len key_len value_len meta_len with
      | None => Ok None
      | Some frame_len =>
          if saturating_sub size position <? frame_len then Ok None
          else
            checksum ← checksum_loop (Z.to_nat frame_len) file 0 (position + 2)
                         (frame_len - CRC_SIZE - 2);
            stored ← read_exact_at file (position + frame_len - CRC_SIZE) CRC_SIZE;
            if decide (from_le_bytes stored = checksum) then
              let key_start := position + HEADER_SIZE in
              let value_offset := key_start + key_len in
              let meta_start := value_offset + value_len in
              key ← read_exact_at file key_start key_len;
              meta ← (if 0 <? meta_len then Some <$> read_exact_at file meta_start meta_len
                      else Ok None);
              Ok (Some (mk_FrameRef (default Byte.x00 (header !! 2%nat)) key meta
                          (i64_from_le_bytes (slice header 14 22))
                          position value_offset value_len frame_len))
            else Ok None
      end
    else Ok None.

Fixpoint find_magic_loop (fuel : nat) (file : bytes) (position size : Z) : option Z :=
  match fuel with
  | O => None
  | S fuel =>
      if position <? size then
        let length := Z.min (size - position) MAGIC_SCAN_CHUNK_SIZE in
        let buffer := take (Z.to_nat length) (slice_from file position) in
        let count := zlen buffer in
        if count =? 0 then None
        else
          match position_magic buffer with
          | Some index => Some (position + index)
          | None =>
              if count <? zlen MAGIC then None
              else find_magic_loop fuel file (position + (count - (zlen MAGIC - 1))) size
          end
      else None
  end.

Definition find_magic (file : bytes) (start size : Z) : option Z :=
  find_magic_loop (S (length file)) file start size.

Fixpoint scan_resume (fuel : nat) (file : bytes) (scan size : Z)
    : result CodecError (option Z) :=
  match fuel with
  | O => Ok None
  | S fuel =>
      if scan + 1 <? size then
        match find_magic file scan size with
        | None => Ok None
        | Some candidate =>
            frame ← read_frame_ref_at file candidate size;
            match frame with
            | Some _ => Ok (Some candidate)
            | None => scan_resume fuel file (candidate + 1) size
            end
        end
      else Ok None
  end.

Fixpoint scan_loop (fuel : nat) (file : bytes) (mode : CorruptionMode) (size : Z)
    (frames : list FrameRef) (corrupt_ranges : list (Z * Z)) (position : Z)
    : result CodecError ScanFrameRefsResult :=
  match fuel with
  | O => Ok (mk_ScanFrameRefsResult frames corrupt_ranges position)
  | S fuel =>
      if position <? size then
        frame ← read_frame_ref_at file position size;
        match frame with
        | Some frame =>
            scan_loop fuel file mode size (frames ++ [frame]) corrupt_ranges
              (position + frame_len frame)
        | None =>
            if decide (mode = Strict) then
              Ok (mk_ScanFrameRefsResult frames (corrupt_ranges ++ [(position, size)]) position)
            else
              resume ← scan_resume (length file) file (position + 1) size;
              match resume with
              | Some resume =>
                  scan_loop fuel file mode size frames
                    (corrupt_ranges ++ [(position, resume)]) resume
              | None =>
                  Ok (mk_ScanFrameRefsResult frames
                        (corrupt_ranges ++ [(position, size)]) position)
              end
        end
      else Ok (mk_ScanFrameRefsResult frames corrupt_ranges position)
  end.

Definition scan_frame_refs (file : bytes) (mode : CorruptionMode) (start_offset : Z)
    : result CodecError ScanFrameRefsResult :=
  scan_loop (S (length file)) file mode (zlen file) [] [] start_offset.

(** [scan_frame_refs_file], on the contents of the file ([None] when it cannot
    be opened). *)
Definition scan_frame_refs_file (contents : option bytes) (mode : CorruptionMode)
    : result CodecError ScanFrameRefsResult :=
  file ← ok_or Io contents;
  scan_frame_refs file mode 0.

Fixpoint scan_batch_op_refs_loop (count : nat) (body : bytes) (body_offset offset : Z)
    : result CodecError (list BatchOpRef) :=
  match count with
  | O => Ok []
  | S count =>
      header ← ok_or BatchHeaderTruncated
                 (slice_get body offset (offset + SUB_HEADER_SIZE));
      let op_type := default Byte.x00 (header !! 0%nat) in
      let key_len := from_le_bytes (slice header 1 3) in
      let value_len := from_le_bytes (slice header 3 7) in
      let meta_len := from_le_bytes (slice header 7 11) in
      let expire_at := i64_from_le_bytes (slice header 11 19) in
      let offset := offset + SUB_HEADER_SIZE in
      e ← batch_payload_end body offset key_len value_len meta_len;
      let key := slice body offset (offset + key_len) in
      let value_offset := body_offset + offset + key_len in
      let offset := offset + (key_len + value_len) in
      let meta := if 0 <? meta_len then Some (slice body offset (offset + meta_len))
                  else None in
      operations ← scan_batch_op_refs_loop count body body_offset e;
      Ok (mk_BatchOpRef op_type key meta expire_at value_offset value_len :: operations)
  end.

Definition scan_batch_op_refs (body : bytes) (body_offset : Z)
    : result CodecError (list BatchOpRef) :=
  if zlen body <? 2 then Ok []
  else scan_batch_op_refs_loop (Z.to_nat (from_le_bytes (slice body 0 2))) body body_offset 2.


(** ** What the format can represent *)

(** A frame the format represents: the lengths fit their fields. *)
Definition frame_wf (f : Frame) : Prop :=
  zlen (key f) <= MAX_KEY_LEN /\ zlen (value f) <= U32_MAX /\
  zlen (default [] (meta f)) <= U32_MAX /\ is_i64 (expire_at f).

(** The frame as it is read back: empty metadata is no metadata. *)
Definition stored_frame (f : Frame) : Frame :=
  mk_Frame (frame_type f) (key f) (value f) (meta_of (default [] (meta f))) (expire_at f).

Definition encoded_len (f : Frame) : Z :=
  HEADER_SIZE + zlen (key f) + zlen (value f) + zlen (default [] (meta f)) + CRC_SIZE.

Definition batch_op_wf (o : BatchOp) : Prop :=
  zlen (op_key o) <= MAX_KEY_LEN /\ zlen (default [] (op_value o)) <= U32_MAX /\
  zlen (default [] (op_meta o)) <= U32_MAX /\ is_i64 (op_expire_at o).

Definition stored_batch_op (o : BatchOp) : BatchOp :=
  mk_BatchOp (op_type o) (op_key o) (Some (default [] (op_value o)))
    (meta_of (default [] (op_meta o))) (op_expire_at o).

End codec.

(** ** Reading one frame *)

Section frame_facts.
Context `{Crc32fastOk}.

Lemma frame_header_fields f :
  let h := frame_header f in
  zlen h = HEADER_SIZE /\ slice h 0 2 = MAGIC /\ h !! 2%nat = Some (frame_type f) /\
  slice h 4 6 = to_le_bytes 2 (zlen (key f)) /\
  slice h 6 10 = to_le_bytes 4 (zlen (value f)) /\
  slice h 10 14 = to_le_bytes 4 (zlen (default [] (meta f))) /\
  slice h 14 22 = to_le_bytes 8 (expire_at f).
Proof. repeat split; reflexivity. Qed.

Lemma announced_frame_len_Some k v m :
  0 <= k <= U32_MAX -> 0 <= v <= U32_MAX -> 0 <= m <= U32_MAX ->
  announced_frame_len k v m = Some (HEADER_SIZE + k + v + m + CRC_SIZE).
Proof.
  unfold announced_frame_len, U32_MAX, HEADER_SIZE, CRC_SIZE.
  intros. repeat (rewrite checked_add_Some by (unfold U64_MAX; lia); simpl_bind). done.
Qed.

Lemma frame_payload_len f :
  zlen (frame_payload f) = zlen (key f) + zlen (value f) + zlen (default [] (meta f)).
Proof. unfold frame_payload. zlia. Qed.

Lemma encode_frame_Ok f enc :
  encode_frame f = Ok enc ->
  zlen (key f) <= MAX_KEY_LEN /\
  enc = frame_header f ++ frame_payload f ++
        to_le_bytes 4 (crc32 (slice_from (frame_header f ++ frame_payload f) 2) 0).
Proof.
  unfold encode_frame. case_cmp; [done|]. cbv zeta. intros Henc.
  apply (inj Ok) in Henc as <-. split; [done|]. by rewrite app_assoc.
Qed.

Lemma encode_frame_len f enc : encode_frame f = Ok enc -> zlen enc = encoded_len f.
Proof.
  intros [_ ->]%encode_frame_Ok. pose proof (frame_payload_len f).
  pose proof (proj1 (frame_header_fields f)).
  unfold encoded_len, CRC_SIZE in *. zlia.
Qed.

Lemma encode_frame_wf f : frame_wf f -> exists enc, encode_frame f = Ok enc.
Proof. intros [? _]. unfold encode_frame. case_cmp; [lia|]. eauto. Qed.

Lemma meta_of_slice bs (n : Z) :
  n = zlen bs -> (if 0 <? n then Some bs else None) = meta_of bs.
Proof. by intros ->. Qed.

(** A valid frame anywhere in a buffer is read back. *)
Lemma read_frame_at_encode pre f enc post :
  frame_wf f -> encode_frame f = Ok enc ->
  read_frame_at (pre ++ enc ++ post) (zlen pre) = Some (stored_frame f, zlen enc).
Proof.
  intros (Hk & Hv & Hm & He) Henc.
  pose proof (encode_frame_len f enc Henc) as Hlen.
  apply encode_frame_Ok in Henc as [_ Henc].
  destruct (frame_header_fields f) as (Hh & Hmagic & Hty & Hkl & Hvl & Hml & Hex).
  pose proof (frame_payload_len f) as Hp.
  assert (Hwhole : slice_get (pre ++ enc ++ post) (zlen pre) (zlen pre + zlen enc) = Some enc)
    by by apply slice_get_mid.
  set (crc := to_le_bytes 4 _) in Henc.
  assert (Hhead : slice_get (pre ++ enc ++ post) (zlen pre) (zlen pre + HEADER_SIZE)
                  = Some (frame_header f)).
  { rewrite Henc, <- !app_assoc. by apply slice_get_mid; [|rewrite Hh]. }
  assert (Hcrc : zlen crc = CRC_SIZE) by apply zlen_to_le_bytes.
  unfold read_frame_at. rewrite Hhead. simpl_bind.
  rewrite decide_True by done. rewrite Hkl, Hvl, Hml, Hex, Hty.
  unfold MAX_KEY_LEN, U16_MAX, U32_MAX in *.
  rewrite !from_to_le_bytes by (change (2 ^ (Z.of_nat 2 * 8)) with (2 ^ 16);
    change (2 ^ (Z.of_nat 4 * 8)) with (2 ^ 32); zlia).
  rewrite i64_from_to_le_bytes by done.
  rewrite announced_frame_len_Some by (unfold U32_MAX; zlia). simpl_bind.
  change (HEADER_SIZE + _ + _ + _ + CRC_SIZE) with (encoded_len f). rewrite <- Hlen, Hwhole.
  simpl_bind.
  assert (Hbody : zlen enc - CRC_SIZE = HEADER_SIZE + zlen (frame_payload f))
    by (rewrite Hlen; unfold encoded_len; lia).
  assert (Hstored : slice enc (zlen enc - CRC_SIZE) (zlen enc) = crc).
  { rewrite Henc at 1. rewrite app_assoc, <- (app_nil_r crc) at 1.
    apply slice_mid; rewrite ?zlen_app; lia. }
  assert (Hsum : slice enc 2 (zlen enc - CRC_SIZE)
                 = slice_from (frame_header f ++ frame_payload f) 2).
  { rewrite Henc at 1. rewrite app_assoc, slice_app_l by (unfold HEADER_SIZE in *; zlia).
    unfold slice, slice_from. apply take_ge. rewrite length_drop.
    unfold HEADER_SIZE, zlen in *. rewrite length_app. lia. }
  rewrite Hstored, Hsum. unfold crc. rewrite from_to_le_bytes by apply crc32_range.
  rewrite decide_True by done.
  assert (Hpay : slice enc HEADER_SIZE (zlen enc - CRC_SIZE) = frame_payload f).
  { rewrite Henc at 1. apply slice_mid; lia. }
  rewrite Hpay. unfold stored_frame, frame_payload.
  rewrite <- (app_nil_l (key f ++ _)) at 1. rewrite slice_mid by zlia.
  rewrite slice_mid by zlia.
  rewrite app_assoc, <- zlen_app, slice_from_zlen.
  by rewrite meta_of_slice.
Qed.

(** What a successful read says: the frame lies inside the buffer and its
    length is the length of its encoding. *)
Lemma read_frame_at_bounds bs p f n :
  read_frame_at bs p = Some (f, n) ->
  0 <= p /\ n = encoded_len f /\ p + n <= zlen bs.
Proof.
  unfold read_frame_at. destruct (slice_get _ _ _) as [h|] eqn:Hh; [|done]. simpl_bind.
  apply slice_get_Some in Hh as (Hp & Hle & ->).
  case_decide; [|done].
  set (hd := slice bs p _).
  pose proof (from_le_bytes_slice_range hd 4 6 ltac:(lia)) as Hk.
  pose proof (from_le_bytes_slice_range hd 6 10 ltac:(lia)) as Hv.
  pose proof (from_le_bytes_slice_range hd 10 14 ltac:(lia)) as Hm.
  revert Hk Hv Hm. generalize (from_le_bytes (slice hd 4 6)) as k.
  generalize (from_le_bytes (slice hd 6 10)) as v.
  generalize (from_le_bytes (slice hd 10 14)) as m. intros m v k Hk Hv Hm.
  change (2 ^ (8 * (6 - 4))) with (2 ^ 16) in Hk. change (2 ^ (8 * (10 - 6))) with (2 ^ 32) in Hv.
  change (2 ^ (8 * (14 - 10))) with (2 ^ 32) in Hm.
  rewrite announced_frame_len_Some by (unfold U32_MAX; lia). simpl_bind.
  destruct (slice_get bs p (p + _)) as [fb|] eqn:Hfb; [|done]. simpl_bind.
  apply slice_get_Some in Hfb as (_ & Hle2 & ->).
  case_decide; [|done]. intros [= <- <-].
  unfold encoded_len; cbn [key value meta].
  unfold HEADER_SIZE, CRC_SIZE in *.
  set (n := 22 + k + v + m + 4) in *.
  assert (Hpl : zlen (slice (slice bs p (p + n)) 22 (n - 4)) = k + v + m).
  { rewrite zlen_slice; [lia|lia|]. rewrite zlen_slice; lia. }
  rewrite !zlen_slice by lia.
  assert (zlen (default [] (if 0 <? m then Some (slice_from (slice (slice bs p (p + n)) 22 (n - 4)) (k + v)) else None)) = m).
  { case_cmp; simpl; [|rewrite zlen_nil; lia]. rewrite zlen_slice_from; lia. }
  split_and!; lia.
Qed.

Lemma encoded_len_min f : HEADER_SIZE + CRC_SIZE <= encoded_len f.
Proof. unfold encoded_len. zlia. Qed.

(** Reading depends only on the bytes from the position on. *)
Lemma read_frame_at_from bs p q :
  0 <= p <= zlen bs -> 0 <= q ->
  read_frame_at (slice_from bs p) q = read_frame_at bs (p + q).
Proof.
  intros Hp Hq. unfold read_frame_at.
  rewrite slice_get_slice_from by (unfold HEADER_SIZE; lia). rewrite Z.add_assoc.
  destruct (slice_get bs _ _) as [h|]; [|done]. simpl_bind.
  case_decide; [|done].
  destruct (announced_frame_len _ _ _) as [l|] eqn:Hl; [|done]. simpl_bind.
  unfold announced_frame_len in Hl.
  pose proof (from_le_bytes_slice_range h 4 6 ltac:(lia)).
  pose proof (from_le_bytes_slice_range h 6 10 ltac:(lia)).
  pose proof (from_le_bytes_slice_range h 10 14 ltac:(lia)).
  repeat (apply bind_Some in Hl as (? & [-> ?]%checked_add_inv & Hl)).
  apply checked_add_inv in Hl as [-> ?].
  rewrite slice_get_slice_from by (unfold HEADER_SIZE, CRC_SIZE; lia).
  by rewrite Z.add_assoc.
Qed.

(** A frame stays valid when the buffer grows. *)
Lemma read_frame_at_app bs ys p f n :
  read_frame_at bs p = Some (f, n) -> read_frame_at (bs ++ ys) p = Some (f, n).
Proof.
  unfold read_frame_at. intros Hr.
  apply bind_Some in Hr as (h & Hh & Hr). rewrite (slice_get_app _ _ _ _ _ Hh). simpl_bind.
  case_decide; [|done].
  apply bind_Some in Hr as (l & Hl & Hr). rewrite Hl. simpl_bind.
  apply bind_Some in Hr as (fb & Hfb & Hr). by rewrite (slice_get_app _ _ _ _ _ Hfb).
Qed.

(** Reading past the end finds nothing. *)
Lemma read_frame_at_short bs p : zlen bs - p < HEADER_SIZE + CRC_SIZE -> read_frame_at bs p = None.
Proof.
  intros Hlt. destruct (read_frame_at bs p) as [[f n]|] eqn:E; [|done].
  apply read_frame_at_bounds in E as (?&->&?). pose proof (encoded_len_min f). lia.
Qed.

End frame_facts.

(** ** Batches *)

Section batch_facts.

(** The sub-header of an operation and what follows it. *)
Definition batch_op_header (o : BatchOp) : bytes :=
  [op_type o] ++ to_le_bytes 2 (zlen (op_key o)) ++
  to_le_bytes 4 (zlen (default [] (op_value o))) ++
  to_le_bytes 4 (zlen (default [] (op_meta o))) ++ to_le_bytes 8 (op_expire_at o).

Lemma encode_batch_op_split o :
  encode_batch_op o =
  batch_op_header o ++ op_key o ++ default [] (op_value o) ++ default [] (op_meta o).
Proof. unfold encode_batch_op, batch_op_header. by rewrite <- !app_assoc. Qed.

Lemma batch_op_header_fields o :
  let h := batch_op_header o in
  zlen h = SUB_HEADER_SIZE /\ h !! 0%nat = Some (op_type o) /\
  slice h 1 3 = to_le_bytes 2 (zlen (op_key o)) /\
  slice h 3 7 = to_le_bytes 4 (zlen (default [] (op_value o))) /\
  slice h 7 11 = to_le_bytes 4 (zlen (default [] (op_meta o))) /\
  slice h 11 19 = to_le_bytes 8 (op_expire_at o).
Proof. repeat split; reflexivity. Qed.

Lemma batch_payload_end_Ok body o k v m :
  zlen body <= U64_MAX -> 0 <= o -> 0 <= k -> 0 <= v -> 0 <= m -> o + k + v + m <= zlen body ->
  batch_payload_end body o k v m = Ok (o + k + v + m).
Proof.
  intros. unfold batch_payload_end.
  repeat (rewrite checked_add_Some by lia; simpl_bind).
  case_guard; [done | lia].
Qed.

Lemma batch_payload_end_inv body o k v m e :
  batch_payload_end body o k v m = Ok e -> e = o + k + v + m /\ e <= zlen body.
Proof.
  unfold batch_payload_end, ok_or. destruct (_ ≫= _) as [e'|] eqn:Hl; [|done].
  intros <-%(inj Ok).
  repeat (apply bind_Some in Hl as (? & [-> ?]%checked_add_inv & Hl)).
  simplify_option_eq. done.
Qed.

Lemma decode_batch_ops_loop_encode ops pre post :
  Forall batch_op_wf ops ->
  zlen (pre ++ concat (map encode_batch_op ops) ++ post) <= U64_MAX ->
  decode_batch_ops_loop (length ops)
    (pre ++ concat (map encode_batch_op ops) ++ post) (zlen pre)
  = Ok (map stored_batch_op ops).
Proof.
  intros Hwf. revert pre. induction Hwf as [|o ops (Hk & Hv & Hm & He) _ IH]; intros pre Hlen;
    cbn [length decode_batch_ops_loop map]; [done|].
  destruct (batch_op_header_fields o) as (Hh & Hty & Hkl & Hvl & Hml & Hex).
  set (k := op_key o) in *. set (v := default [] (op_value o)) in *.
  set (m := default [] (op_meta o)) in *.
  set (rest := concat (map encode_batch_op ops)) in *.
  assert (Hbody : pre ++ concat (encode_batch_op o :: map encode_batch_op ops) ++ post
    = pre ++ batch_op_header o ++ k ++ v ++ m ++ rest ++ post).
  { cbn [concat]. rewrite encode_batch_op_split. by rewrite <- !app_assoc. }
  cbn [map] in Hlen. rewrite Hbody in *. set (body := pre ++ _) in *.
  assert (Hhead : slice_get body (zlen pre) (zlen pre + SUB_HEADER_SIZE)
                  = Some (batch_op_header o)) by (apply slice_get_mid; [done|by rewrite Hh]).
  rewrite Hhead. cbn [ok_or].
  simpl_bind. unfold MAX_KEY_LEN, U16_MAX, U32_MAX in *.
  rewrite Hkl, Hvl, Hml, Hex, Hty, i64_from_to_le_bytes by done.
  rewrite !from_to_le_bytes by (change (2 ^ (Z.of_nat 2 * 8)) with (2 ^ 16);
    change (2 ^ (Z.of_nat 4 * 8)) with (2 ^ 32); zlia).
  rewrite batch_payload_end_Ok by (unfold body in *; zlia). simpl_bind.
  assert (Hk' : slice body (zlen pre + SUB_HEADER_SIZE) (zlen pre + SUB_HEADER_SIZE + zlen k) = k).
  { unfold body. rewrite app_assoc. apply slice_mid; zlia. }
  assert (Hv' : slice body (zlen pre + SUB_HEADER_SIZE + zlen k)
                  (zlen pre + SUB_HEADER_SIZE + zlen k + zlen v) = v).
  { unfold body. rewrite app_assoc, (app_assoc _ k). apply slice_mid; zlia. }
  assert (Hm' : slice body (zlen pre + SUB_HEADER_SIZE + zlen k + zlen v)
                  (zlen pre + SUB_HEADER_SIZE + zlen k + zlen v + zlen m) = m).
  { unfold body. rewrite app_assoc, (app_assoc _ k), (app_assoc _ v). apply slice_mid; zlia. }
  rewrite Hk', Hv', Hm'.
  assert (Hnext : body = (pre ++ encode_batch_op o) ++ rest ++ post).
  { unfold body. rewrite encode_batch_op_split. by rewrite <- !app_assoc. }
  assert (Hpos : zlen pre + SUB_HEADER_SIZE + zlen k + zlen v + zlen m
    = zlen (pre ++ encode_batch_op o)) by (rewrite encode_batch_op_split; fold k v m; zlia).
  rewrite Hpos, Hnext, IH by by rewrite <- Hnext. simpl_bind.
  by rewrite meta_of_slice.
Qed.

Lemma decode_encode_batch_ops ops body :
  Forall batch_op_wf ops -> encode_batch_ops ops = Ok body -> zlen body <= U64_MAX ->
  decode_batch_ops body = Ok (map stored_batch_op ops).
Proof.
  intros Hwf Henc Hlen. unfold encode_batch_ops in Henc.
  destruct (Z.ltb_spec U16_MAX (zlen ops)) as [|Hn]; [done|]. destruct (existsb _ _); [done|].
  apply (inj Ok) in Henc as <-. unfold decode_batch_ops. unfold U16_MAX in Hn.
  destruct (Z.ltb_spec (zlen (to_le_bytes 2 (zlen ops) ++ concat (map encode_batch_op ops))) 2);
    [zlia|].
  rewrite slice_app_l by zlia.
  change (slice (to_le_bytes 2 (zlen ops)) 0 2) with (to_le_bytes 2 (zlen ops)).
  rewrite from_to_le_bytes by (change (2 ^ (Z.of_nat 2 * 8)) with (2 ^ 16); zlia).
  unfold zlen at 1. rewrite Nat2Z.id.
  rewrite <- (app_nil_r (concat _)) in Hlen |- *.
  by apply (decode_batch_ops_loop_encode _ (to_le_bytes 2 (zlen ops))).
Qed.

(** Batch bodies round-trip: any list of operations whose fields fit is
    encoded, and decoding the body gives the operations back, in order, with
    an absent value read as the empty value and empty metadata as none. *)
Theorem batch_ops_roundtrip ops body :
  Forall batch_op_wf ops -> encode_batch_ops ops = Ok body -> zlen body <= U64_MAX ->
  decode_batch_ops body = Ok (map stored_batch_op ops).
Proof. apply decode_encode_batch_ops. Qed.

(** A batch reference describes an operation and locates its value, relative
    to the offset of the body in its file. *)
Definition op_refers_to (body : bytes) (body_offset : Z) (r : BatchOpRef) (o : BatchOp) : Prop :=
  opref_type r = op_type o /\ opref_key r = op_key o /\ opref_meta r = op_meta o /\
  opref_expire_at r = op_expire_at o /\
  let at_ := opref_value_offset r - body_offset in
  0 <= at_ /\ 0 <= opref_value_len r /\ at_ + opref_value_len r <= zlen body /\
  op_value o = Some (slice body at_ (at_ + opref_value_len r)).

(** On any body, corrupt ones included, the reference scanner fails when and as the
    decoder fails, and otherwise locates each operation's value in the file. *)
Lemma scan_batch_op_refs_agree body body_offset :
  match scan_batch_op_refs body body_offset, decode_batch_ops body with
  | Ok refs, Ok ops => Forall2 (op_refers_to body body_offset) refs ops
  | Err e, Err e' => e = e'
  | _, _ => False
  end.
Proof.
  unfold scan_batch_op_refs, decode_batch_ops. case_cmp; [done|].
  generalize (Z.to_nat (from_le_bytes (slice body 0 2))). intros n. clear.
  assert (Ho : 0 <= 2) by lia. revert Ho. generalize 2.
  induction n as [|n IH]; intros o Ho; cbn [scan_batch_op_refs_loop decode_batch_ops_loop]; [done|].
  destruct (slice_get body o _) as [h|]; cbn [ok_or]; simpl_bind; [|done].
  pose proof (from_le_bytes_slice_range h 1 3 ltac:(lia)) as Hk.
  pose proof (from_le_bytes_slice_range h 3 7 ltac:(lia)) as Hv.
  pose proof (from_le_bytes_slice_range h 7 11 ltac:(lia)) as Hm.
  revert Hk Hv Hm. generalize (from_le_bytes (slice h 1 3)) as k.
  generalize (from_le_bytes (slice h 3 7)) as v. generalize (from_le_bytes (slice h 7 11)) as m.
  intros m v k Hk Hv Hm.
  destruct (batch_payload_end body _ k v m) as [e|] eqn:He; simpl_bind; [|done].
  apply batch_payload_end_inv in He as [He Hend]. unfold SUB_HEADER_SIZE in *.
  specialize (IH e ltac:(lia)).
  destruct (scan_batch_op_refs_loop _ _ _ e), (decode_batch_ops_loop _ _ e); simpl_bind; try done.
  constructor; [|done]. unfold op_refers_to.
  cbn [opref_type opref_key opref_meta opref_expire_at opref_value_offset opref_value_len
       op_type op_key op_meta op_expire_at op_value].
  rewrite (Z.add_assoc _ k v). split_and!; try done; [lia..|]. do 2 f_equal; lia.
Qed.

End batch_facts.
(** ** The claims on frames *)

Section claims.
Context `{Crc32fastOk}.

(** C13: Frames round-trip: a frame whose fields fit is encoded, its encoding has
    the announced length, and wherever the encoding lies in a buffer, reading
    there gives the frame back (empty metadata as none) and its length. *)
Theorem frame_roundtrip f :
  frame_wf f ->
  exists enc, encode_frame f = Ok enc /\ zlen enc = encoded_len f /\
    forall pre post,
      read_frame_at (pre ++ enc ++ post) (zlen pre) = Some (stored_frame f, encoded_len f).
Proof.
  intros Hwf. destruct (encode_frame_wf f Hwf) as [enc Henc].
  pose proof (encode_frame_len f enc Henc) as Hlen. exists enc. split_and!; [done|done|].
  intros pre post. rewrite <- Hlen. by apply read_frame_at_encode.
Qed.

End claims.

(** ** Sample data and witnesses *)

Import Bitwise.

Module Samples.
Definition f1 : Frame :=
  mk_Frame TYPE_SET (map byte_of [102; 111; 111]) (map byte_of [98; 97; 114]) None 123.
Definition f2 : Frame :=
  mk_Frame TYPE_SET (map byte_of [97]) (map byte_of [49; 50]) (Some [byte_of 109]) (-5).
Definition enc (f : Frame) : bytes :=
  match encode_frame f with Ok e => e | Err _ => [] end.
Definition op1 : BatchOp := mk_BatchOp TYPE_SET (map byte_of [97]) (Some (map byte_of [49])) None 5.
Definition op2 : BatchOp := mk_BatchOp TYPE_DEL (map byte_of [98]) None (Some []) 0.
Definition body : bytes := to_le_bytes 2 2 ++ encode_batch_op op1 ++ encode_batch_op op2.
End Samples.

Lemma frame_roundtrip_witness :
  frame_wf Samples.f2 /\
  exists enc, encode_frame Samples.f2 = Ok enc /\ zlen enc = 30 /\
    forall pre post,
      read_frame_at (pre ++ enc ++ post) (zlen pre) = Some (Samples.f2, 30).
Proof.
  assert (Hwf : frame_wf Samples.f2) by (repeat split; by vm_compute).
  exact (conj Hwf (frame_roundtrip Samples.f2 Hwf)).
Defined.

Lemma batch_ops_roundtrip_witness :
  decode_batch_ops Samples.body =
  Ok [Samples.op1; mk_BatchOp TYPE_DEL (map byte_of [98]) (Some []) None 0].
Proof.
  apply (batch_ops_roundtrip [Samples.op1; Samples.op2]);
    [repeat constructor; by vm_compute | by vm_compute | by vm_compute].
Defined.

End Codec.
