(* ===== verification/Scan.v ===== *)
(** * Scanning a log: corruption, resync and torn tails

    Theorems on the scanners of [Codec]: [parse_buffer] computes exactly the
    parse its specification [parsed] describes, accounts for every byte of the
    buffer, recovers every frame before a torn tail and after a corrupt gap;
    [scan_frame_refs], which reads the file in chunks, finds the same frames
    and the same gaps. *)

From S2P Require Import Prelude.
From S2P Require Import Crc.
From S2P Require Import Codec.
Import Codec.

Module Scan.

(** ** Searching for the magic *)

Section magic.

Definition magic_at (l : bytes) (j : Z) : Prop := slice l j (j + 2) = MAGIC.

Lemma magic_at_cons a l j : 0 < j -> magic_at (a :: l) j <-> magic_at l (j - 1).
Proof.
  intros Hj. unfold magic_at.
  change (a :: l) with ([a] ++ l). rewrite slice_app_r by zlia.
  change (zlen [a]) with 1. replace (j + 2 - 1) with (j - 1 + 2) by lia. done.
Qed.

Lemma magic_at_zlen l j : 0 <= j -> magic_at l j -> j + 2 <= zlen l.
Proof.
  unfold magic_at, slice. intros Hj Hm%(f_equal length). revert Hm.
  rewrite length_take, length_drop. unfold zlen. simpl. lia.
Qed.

Lemma position_magic_cons a b l :
  position_magic (a :: b :: l) =
  if decide ([a; b] = MAGIC) then Some 0 else Z.succ <$> position_magic (b :: l).
Proof. done. Qed.

(** [position] returns the first occurrence, or there is none. *)
Lemma position_magic_spec l :
  match position_magic l with
  | Some i => 0 <= i /\ magic_at l i /\ forall j, 0 <= j < i -> ~ magic_at l j
  | None => forall j, 0 <= j -> ~ magic_at l j
  end.
Proof.
  induction l as [|a [|b l] IH].
  - intros j Hj Hm%magic_at_zlen; [|done]. zlia.
  - intros j Hj Hm%magic_at_zlen; [|done]. zlia.
  - rewrite position_magic_cons. case_decide as Hab.
    { split_and!; [done | exact Hab | lia]. }
    assert (H0 : ~ magic_at (a :: b :: l) 0) by exact Hab.
    destruct (position_magic (b :: l)) as [i|].
    + destruct IH as (Hi & Hm & Hfirst). simpl_bind. split_and!; [lia| |].
      * apply magic_at_cons; [lia|]. by replace (Z.succ i - 1) with i by lia.
      * intros j Hj Hmj. destruct (decide (j = 0)) as [->|]; [done|].
        apply magic_at_cons in Hmj; [|lia]. apply (Hfirst (j - 1)); [lia|done].
    + simpl_bind. intros j Hj Hmj. destruct (decide (j = 0)) as [->|]; [done|].
      apply magic_at_cons in Hmj; [|lia]. apply (IH (j - 1)); [lia|done].
Qed.

Lemma magic_at_from l p j : 0 <= p -> 0 <= j -> magic_at (slice_from l p) j <-> magic_at l (p + j).
Proof.
  intros. unfold magic_at. rewrite slice_slice_from by lia.
  by rewrite Z.add_assoc.
Qed.

(** The same, from an offset of a larger buffer. *)
Lemma position_magic_from l p :
  0 <= p ->
  match position_magic (slice_from l p) with
  | Some i => 0 <= i /\ magic_at l (p + i) /\ forall j, p <= j < p + i -> ~ magic_at l j
  | None => forall j, p <= j -> ~ magic_at l j
  end.
Proof.
  intros Hp. pose proof (position_magic_spec (slice_from l p)) as Hs.
  destruct (position_magic _) as [i|].
  - destruct Hs as (Hi & Hm & Hf). split_and!; [done|by apply magic_at_from|].
    intros j Hj Hmj. apply (Hf (j - p)); [lia|]. apply magic_at_from; [lia..|].
    by replace (p + (j - p)) with j by lia.
  - intros j Hj Hmj. apply (Hs (j - p)); [lia|]. apply magic_at_from; [lia..|].
    by replace (p + (j - p)) with j by lia.
Qed.

End magic.

(** ** [parse_buffer] against its specification *)

Section parse_facts.
Context `{Crc32fastOk}.
Implicit Types bs : bytes.

Lemma read_frame_at_magic bs p x : read_frame_at bs p = Some x -> magic_at bs p.
Proof.
  unfold read_frame_at. intros Hr. apply bind_Some in Hr as (h & Hh & Hr).
  apply slice_get_Some in Hh as (Hp & Hle & ->). unfold HEADER_SIZE in *.
  case_decide as Hm; [|done]. unfold magic_at. rewrite <- Hm, slice_slice by lia.
  f_equal; lia.
Qed.

(** No valid frame starts in the interval. *)
Definition no_frame bs (p q : Z) : Prop := forall r, p <= r < q -> read_frame_at bs r = None.

(** The specification of the parser: from a position, either the buffer ends,
    or a frame starts there and is taken, or nothing valid starts there; then
    [Strict] gives up, and [Resync] skips to the first offset at which a valid
    frame starts, recording the gap, or loses the rest when there is none. *)
Inductive parsed bs (mode : CorruptionMode) : Z -> list Frame -> list (Z * Z) -> Z -> Prop :=
| parsed_end p :
    zlen bs <= p -> parsed bs mode p [] [] p
| parsed_frame p f n fs rs e :
    read_frame_at bs p = Some (f, n) ->
    parsed bs mode (p + n) fs rs e -> parsed bs mode p (f :: fs) rs e
| parsed_strict p :
    mode = Strict -> p < zlen bs -> read_frame_at bs p = None ->
    parsed bs mode p [] [(p, zlen bs)] p
| parsed_gap p q fs rs e :
    mode = Resync -> p < q < zlen bs -> no_frame bs p q -> read_frame_at bs q <> None ->
    parsed bs mode q fs rs e -> parsed bs mode p fs ((p, q) :: rs) e
| parsed_lost p :
    mode = Resync -> p < zlen bs -> no_frame bs p (zlen bs) ->
    parsed bs mode p [] [(p, zlen bs)] p.

Lemma parse_resume_spec fuel bs scan :
  0 <= scan -> zlen bs - scan <= Z.of_nat fuel ->
  match parse_resume fuel bs scan with
  | Some q => scan <= q < zlen bs /\ no_frame bs scan q /\ read_frame_at bs q <> None
  | None => no_frame bs scan (zlen bs)
  end.
Proof.
  revert scan. induction fuel as [|fuel IH]; intros scan Hscan Hfuel; cbn [parse_resume].
  { intros r Hr. lia. }
  case_cmp; cycle 1.
  { intros r Hr. apply read_frame_at_short. unfold HEADER_SIZE, CRC_SIZE. lia. }
  pose proof (position_magic_from bs scan Hscan) as Hm.
  destruct (position_magic _) as [i|]; cycle 1.
  { intros r Hr. destruct (read_frame_at bs r) eqn:E; [|done].
    apply read_frame_at_magic in E. exfalso. apply (Hm r); [lia|done]. }
  destruct Hm as (Hi & Hmi & Hfirst).
  assert (Hskip : no_frame bs scan (scan + i)).
  { intros r Hr. destruct (read_frame_at bs r) eqn:E; [|done].
    apply read_frame_at_magic in E. exfalso. by apply (Hfirst r). }
  pose proof (magic_at_zlen bs (scan + i) ltac:(lia) Hmi).
  destruct (read_frame_at bs (scan + i)) eqn:E.
  - split_and!; [lia|lia|done|congruence].
  - specialize (IH (scan + i + 1) ltac:(lia) ltac:(lia)).
    assert (Hskip1 : no_frame bs scan (scan + i + 1)).
    { intros r Hr. destruct (decide (r = scan + i)) as [->|]; [done|]. apply Hskip. lia. }
    destruct (parse_resume _ _ _) as [q|].
    + destruct IH as (Hq & Hno & Hval). split_and!; [lia|lia| |done].
      intros r Hr. destruct (decide (r < scan + i + 1)); [apply Hskip1|apply Hno]; lia.
    + intros r Hr. destruct (decide (r < scan + i + 1)); [apply Hskip1|apply IH]; lia.
Qed.

Lemma parse_loop_spec fuel bs mode fs0 rs0 p :
  0 <= p -> zlen bs - p < Z.of_nat fuel ->
  exists fs rs e,
    parse_loop fuel bs mode fs0 rs0 p = mk_ParseResult (fs0 ++ fs) (rs0 ++ rs) e /\
    parsed bs mode p fs rs e.
Proof.
  revert fs0 rs0 p. induction fuel as [|fuel IH]; intros fs0 rs0 p Hp Hfuel; cbn [parse_loop].
  { eexists [], [], p. rewrite !app_nil_r. split; [done|]. constructor. lia. }
  case_cmp; cycle 1.
  { eexists [], [], p. rewrite !app_nil_r. split; [done|]. by constructor. }
  destruct (read_frame_at bs p) as [[f n]|] eqn:E.
  - pose proof (read_frame_at_bounds _ _ _ _ E) as (_ & Hn & Hle).
    pose proof (encoded_len_min f). unfold HEADER_SIZE, CRC_SIZE in *.
    destruct (IH (fs0 ++ [f]) rs0 (p + n)) as (fs & rs & e & -> & Hparsed); [lia..|].
    exists (f :: fs), rs, e. rewrite <- app_assoc. split; [done|]. by econstructor.
  - case_decide as Hmode.
    { eexists [], [_], p. rewrite app_nil_r. split; [done|]. by apply parsed_strict. }
    assert (mode = Resync) by by destruct mode.
    pose proof (parse_resume_spec (length bs) bs (p + 1) ltac:(lia) ltac:(unfold zlen in *; lia))
      as Hr.
    assert (Hhere : forall q, no_frame bs (p + 1) q -> no_frame bs p q).
    { intros q Hq r Hr'. destruct (decide (r = p)) as [->|]; [done|]. apply Hq. lia. }
    destruct (parse_resume _ _ _) as [q|].
    + destruct Hr as (Hq & Hno & Hval).
      destruct (IH fs0 (rs0 ++ [(p, q)]) q) as (fs & rs & e & -> & Hparsed); [lia..|].
      exists fs, ((p, q) :: rs), e. rewrite <- app_assoc. split; [done|].
      apply parsed_gap; auto with lia.
    + eexists [], [_], p. rewrite app_nil_r. split; [done|]. apply parsed_lost; auto.
Qed.

(** [parse_buffer] is the parser of the specification, whatever the bytes. *)
Lemma parse_buffer_parsed bs mode :
  let r := parse_buffer bs mode in
  parsed bs mode 0 (frames r) (corrupt_ranges r) (eof_offset r).
Proof.
  destruct (parse_loop_spec (S (length bs)) bs mode [] [] 0) as (fs & rs & e & Hr & Hp);
    [lia|unfold zlen; lia|].
  unfold parse_buffer. cbv zeta. by rewrite Hr.
Qed.

(** The specification leaves no choice. *)
Lemma parsed_det bs mode p fs1 rs1 e1 fs2 rs2 e2 :
  parsed bs mode p fs1 rs1 e1 -> parsed bs mode p fs2 rs2 e2 ->
  fs1 = fs2 /\ rs1 = rs2 /\ e1 = e2.
Proof.
  intros H1. revert fs2 rs2 e2.
  assert (Hbound : forall q f n, read_frame_at bs q = Some (f, n) -> q < zlen bs).
  { intros q f n (?&->&?)%read_frame_at_bounds. pose proof (encoded_len_min f).
    unfold HEADER_SIZE, CRC_SIZE in *. lia. }
  induction H1; intros fs2 rs2 e2 Hother; inversion Hother; simplify_eq;
    try match goal with
        | Hr : read_frame_at bs _ = Some _ |- _ => pose proof (Hbound _ _ _ Hr)
        end; try lia; try done;
    try match goal with
        | Hno : no_frame bs ?p ?q, Hr : read_frame_at bs ?p = Some _ |- _ =>
            rewrite (Hno p) in Hr by lia; done
        | Hno : no_frame bs ?p (zlen bs), Hv : read_frame_at bs ?q <> None |- _ =>
            exfalso; apply Hv, Hno; lia
        end.
  - naive_solver.
  - match goal with
    | Hq : ?p < ?q < _, Hq' : ?p < ?q' < _, Hno : no_frame bs ?p ?q,
      Hno' : no_frame bs ?p ?q', Hv : read_frame_at bs ?q <> None,
      Hv' : read_frame_at bs ?q' <> None |- _ =>
        assert (q = q') as -> by
          (destruct (Z.lt_trichotomy q q') as [|[|]]; [|done|]; exfalso;
           [apply Hv, Hno'; lia | apply Hv', Hno; lia])
    end.
    naive_solver.
Qed.

(** ** Well-formed logs *)

(** [es] are the encodings of the frames [fs]. *)
Definition encodings (fs : list Frame) (es : list bytes) : Prop :=
  Forall2 (fun f e => frame_wf f /\ encode_frame f = Ok e) fs es.

Lemma encodings_app_inv fs1 fs2 es :
  encodings (fs1 ++ fs2) es ->
  exists es1 es2, es = es1 ++ es2 /\ encodings fs1 es1 /\ encodings fs2 es2.
Proof. intros H'. apply Forall2_app_inv_l in H' as (es1 & es2 & ? & ? & ->). eauto. Qed.

(** A run of encoded frames is parsed frame by frame. *)
Lemma parsed_encodings mode fs es :
  encodings fs es -> forall pre rest fs' rs e,
  parsed (pre ++ concat es ++ rest) mode (zlen pre + zlen (concat es)) fs' rs e ->
  parsed (pre ++ concat es ++ rest) mode (zlen pre) (map stored_frame fs ++ fs') rs e.
Proof.
  induction 1 as [|f enc fs es [Hwf Henc] _ IH]; intros pre rest fs' rs e; simpl.
  { by rewrite zlen_nil, Z.add_0_r. }
  intros Hp. rewrite <- app_assoc. econstructor.
  { by apply read_frame_at_encode. }
  rewrite <- app_assoc in Hp. rewrite (app_assoc pre), <- zlen_app.
  rewrite (app_assoc pre) in Hp. apply IH.
  by rewrite zlen_app, <- Z.add_assoc, <- zlen_app.
Qed.

Lemma parsed_encodings_end mode fs es pre :
  encodings fs es ->
  parsed (pre ++ concat es) mode (zlen pre) (map stored_frame fs) [] (zlen (pre ++ concat es)).
Proof.
  intros Hes. pose proof (parsed_encodings mode fs es Hes pre [] [] []) as Hp.
  rewrite !app_nil_r in Hp. rewrite zlen_app. apply Hp.
  constructor. rewrite zlen_app. lia.
Qed.

(** A proper prefix of an encoded frame is not a frame. *)
Lemma torn_not_frame f enc torn rest pre :
  frame_wf f -> encode_frame f = Ok enc -> enc = torn ++ rest -> rest <> [] ->
  read_frame_at (pre ++ torn) (zlen pre) = None.
Proof.
  intros Hwf Henc -> Hrest.
  destruct (read_frame_at (pre ++ torn) (zlen pre)) as [[f' n]|] eqn:E; [|done].
  pose proof (read_frame_at_bounds _ _ _ _ E) as (_ & _ & Hle).
  apply (read_frame_at_app _ rest) in E.
  pose proof (read_frame_at_encode pre f _ [] Hwf Henc) as Hr.
  rewrite app_nil_r, app_assoc, E in Hr. simplify_eq.
  rewrite <- zlen_0 in Hrest. zlia.
Qed.

(** The ranges and the encoded frames of a parse tile the buffer. *)
Definition range_bytes (rs : list (Z * Z)) : Z := foldr (fun r acc => snd r - fst r + acc) 0 rs.
Definition frames_bytes (fs : list Frame) : Z := foldr (fun f acc => encoded_len f + acc) 0 fs.

Lemma parsed_tiles bs mode p fs rs e :
  parsed bs mode p fs rs e -> p <= zlen bs ->
  p + frames_bytes fs + range_bytes rs = zlen bs.
Proof.
  induction 1 as [p Hp|p f n fs rs e Hr H1 IH|p Hm Hp Hr|p q fs rs e Hm Hq Hno Hv H1 IH
                 |p Hm Hp Hno]; intros Hle; cbn [foldr frames_bytes range_bytes fst snd];
    try (unfold frames_bytes, range_bytes; cbn [foldr fst snd]; lia).
  - apply read_frame_at_bounds in Hr as (_ & -> & ?). cbn [foldr].
    unfold frames_bytes, range_bytes in *. cbn [foldr]. lia.
  - unfold frames_bytes, range_bytes in *. cbn [foldr fst snd]. lia.
Qed.

Lemma parsed_buffer bs mode fs rs e :
  parsed bs mode 0 fs rs e -> parse_buffer bs mode = mk_ParseResult fs rs e.
Proof.
  intros Hp. pose proof (parse_buffer_parsed bs mode) as Hq. cbv zeta in Hq.
  destruct (parse_buffer bs mode) as [fs' rs' e']. cbn in Hq.
  by destruct (parsed_det _ _ _ _ _ _ _ _ _ Hp Hq) as (-> & -> & ->).
Qed.

(** A log of whole frames, then a tail at which nothing valid starts, then
    nothing or, after the gap, more whole frames. *)
Lemma parse_with_gap fs1 es1 gap fs2 es2 :
  encodings fs1 es1 -> encodings fs2 es2 -> gap <> [] -> fs2 <> [] ->
  no_frame (concat es1 ++ gap ++ concat es2)
    (zlen (concat es1)) (zlen (concat es1) + zlen gap) ->
  parsed (concat es1 ++ gap ++ concat es2) Resync 0
    (map stored_frame (fs1 ++ fs2))
    [(zlen (concat es1), zlen (concat es1) + zlen gap)]
    (zlen (concat es1 ++ gap ++ concat es2)).
Proof.
  intros H1 H2 Hgap Hfs2 Hno. rewrite map_app.
  assert (zlen gap <> 0) by by rewrite zlen_0.
  apply (parsed_encodings Resync fs1 es1 H1 []). simpl.
  destruct H2 as [|f enc fs2 es2 [Hwf Henc] H2]; [done|].
  assert (Hrd : read_frame_at (concat es1 ++ gap ++ concat (enc :: es2))
            (zlen (concat es1) + zlen gap) = Some (stored_frame f, zlen enc)).
  { rewrite app_assoc, <- zlen_app. by apply read_frame_at_encode. }
  pose proof (read_frame_at_bounds _ _ _ _ Hrd) as (_ & Hn & Hle).
  pose proof (encoded_len_min (stored_frame f)). unfold HEADER_SIZE, CRC_SIZE in *.
  apply parsed_gap; [done|zlia|done|congruence|].
  assert (Hall : encodings (f :: fs2) (enc :: es2)) by by constructor.
  rewrite app_assoc, <- zlen_app. by apply parsed_encodings_end.
Qed.


(** ** The claims on [parse_buffer] *)

(** C16: [parse_buffer] terminates within its fuel and computes exactly the
    parse of the specification [parsed]: a valid frame is always taken at the
    offset where it starts, [Strict] stops at the first offset with none, and
    [Resync] resumes at the first later offset at which a whole valid frame
    (magic, lengths within the buffer, matching checksum) starts. *)
Theorem parse_buffer_spec bs mode fs rs e :
  parsed bs mode 0 fs rs e <-> parse_buffer bs mode = mk_ParseResult fs rs e.
Proof.
  split; [apply parsed_buffer|]. intros Hq.
  pose proof (parse_buffer_parsed bs mode) as Hp. by rewrite Hq in Hp.
Qed.

(** No byte is lost silently: the encoded lengths of the parsed frames and
    the lengths of the reported corrupt ranges add up to the buffer. *)
Lemma parse_buffer_accounts_for_every_byte bs mode :
  let r := parse_buffer bs mode in
  frames_bytes (frames r) + range_bytes (corrupt_ranges r) = zlen bs.
Proof.
  intros r. pose proof (parsed_tiles _ _ _ _ _ _ (parse_buffer_parsed bs mode)).
  pose proof (zlen_nonneg bs). unfold r. lia.
Qed.

Lemma parse_torn_buffer mode fs es f enc torn rest :
  encodings fs es -> frame_wf f -> encode_frame f = Ok enc ->
  enc = torn ++ rest -> torn <> [] -> rest <> [] ->
  (mode = Resync -> forall p, 0 < p -> read_frame_at torn p = None) ->
  parse_buffer (concat es ++ torn) mode =
    mk_ParseResult (map stored_frame fs)
      [(zlen (concat es), zlen (concat es ++ torn))] (zlen (concat es)).
Proof.
  intros Hes Hwf Henc Hsplit Htorn Hrest Hinside. apply parsed_buffer.
  assert (zlen torn <> 0) by by rewrite zlen_0.
  pose proof (torn_not_frame f enc torn rest (concat es) Hwf Henc Hsplit Hrest) as Hnone.
  rewrite <- (app_nil_r (map _ _)).
  apply (parsed_encodings mode fs es Hes []). change (zlen [] + zlen (concat es)) with (zlen (concat es)). destruct mode.
  - apply parsed_lost; [done|zlia|]. intros r Hr.
    destruct (decide (r = zlen (concat es))) as [->|]; [done|].
    rewrite <- (Hinside eq_refl (r - zlen (concat es))) by lia.
    rewrite <- (slice_from_zlen (concat es) torn) at 2.
    rewrite read_frame_at_from by zlia. f_equal. lia.
  - apply parsed_strict; [done|zlia|done].
Qed.

(** C14: Torn tail.  A log that ends in a proper, non-empty prefix of a frame
    is parsed to exactly the whole frames before it, and the corrupt range
    reported is the tail: in [Strict] mode always, in [Resync] mode when no valid
    frame starts inside the tail (as one does when the value being written holds a
    whole frame; that frame is then found). *)
Theorem parse_torn_tail mode fs es f enc torn rest :
  encodings fs es -> frame_wf f -> encode_frame f = Ok enc ->
  enc = torn ++ rest -> torn <> [] -> rest <> [] ->
  (mode = Resync -> forall p, 0 < p -> read_frame_at torn p = None) ->
  parse_buffer (concat es ++ torn) mode =
    mk_ParseResult (map stored_frame fs)
      [(zlen (concat es), zlen (concat es ++ torn))] (zlen (concat es)).
Proof. apply parse_torn_buffer. Qed.

(** C15: Corruption in the middle.  When a stretch of the log in which no valid
    frame starts lies between whole frames, [Resync] recovers every frame on
    both sides and reports exactly that stretch. *)
Theorem parse_resync_recovers fs1 es1 gap fs2 es2 :
  encodings fs1 es1 -> encodings fs2 es2 -> gap <> [] -> fs2 <> [] ->
  no_frame (concat es1 ++ gap ++ concat es2)
    (zlen (concat es1)) (zlen (concat es1) + zlen gap) ->
  parse_buffer (concat es1 ++ gap ++ concat es2) Resync =
    mk_ParseResult (map stored_frame (fs1 ++ fs2))
      [(zlen (concat es1), zlen (concat es1) + zlen gap)]
      (zlen (concat es1 ++ gap ++ concat es2)).
Proof. intros. apply parsed_buffer. by apply parse_with_gap. Qed.

End parse_facts.

(** ** [scan_frame_refs] against [parse_buffer] *)

Section scan_facts.
Context `{Crc32fastOk}.
Implicit Types file : bytes.

Lemma read_exact_at_in file p n :
  0 <= p -> 0 <= n -> p + n <= zlen file ->
  read_exact_at file p n = Ok (slice file p (p + n)).
Proof.
  intros. unfold read_exact_at. case_cmp.
  - subst. by rewrite Z.add_0_r, slice_empty.
  - by rewrite slice_get_in by lia.
Qed.

(** Feeding the hasher in chunks gives the checksum of the whole stretch. *)
Lemma checksum_loop_spec fuel file c p n :
  0 <= c <= U32_MAX -> 0 <= p -> 0 <= n <= Z.of_nat fuel -> p + n <= zlen file ->
  checksum_loop fuel file c p n = Ok (hasher c (slice file p (p + n))).
Proof.
  revert c p n. induction fuel as [|fuel IH]; intros c p n Hc Hp Hn Hle; cbn [checksum_loop].
  { assert (n = 0) as -> by lia. by rewrite Z.add_0_r, slice_empty, hasher_nil. }
  case_cmp; cycle 1.
  { assert (n = 0) as -> by lia. by rewrite Z.add_0_r, slice_empty, hasher_nil. }
  assert (HM : 0 < CRC_CHUNK_SIZE) by done.
  set (len := Z.min n CRC_CHUNK_SIZE).
  assert (0 < len <= n) by lia. clearbody len.
  rewrite read_exact_at_in by lia. simpl_bind. rewrite IH; [|by apply hasher_range|lia..].
  rewrite <- hasher_app by done. rewrite (slice_split file p (p + len) (p + n)) by lia.
  do 3 f_equal. f_equal; lia.
Qed.

(** The reference to a frame found at offset [p]. *)
Definition ref_at (p : Z) (f : Frame) (n : Z) : FrameRef :=
  mk_FrameRef (frame_type f) (key f) (meta f) (expire_at f) p
    (p + HEADER_SIZE + zlen (key f)) (zlen (value f)) n.

Lemma read_frame_ref_at_spec file p :
  0 <= p ->
  read_frame_ref_at file p (zlen file) =
  Ok ((fun x => ref_at p x.1 x.2) <$> read_frame_at file p).
Proof.
  intros Hp. unfold read_frame_ref_at, saturating_sub.
  case_cmp; [rewrite read_frame_at_short by (unfold CRC_SIZE; lia); done|].
  unfold read_frame_at, HEADER_SIZE in *.
  rewrite read_exact_at_in, slice_get_in by lia. simpl_bind.
  case_decide; [|done]. set (hd := slice file p _).
  pose proof (from_le_bytes_slice_range hd 4 6 ltac:(lia)) as Hk.
  pose proof (from_le_bytes_slice_range hd 6 10 ltac:(lia)) as Hv.
  pose proof (from_le_bytes_slice_range hd 10 14 ltac:(lia)) as Hm.
  revert Hk Hv Hm. generalize (from_le_bytes (slice hd 4 6)) as k.
  generalize (from_le_bytes (slice hd 6 10)) as v.
  generalize (from_le_bytes (slice hd 10 14)) as m. intros m v k Hk Hv Hm.
  change (2 ^ (8 * (6 - 4))) with (2 ^ 16) in Hk. change (2 ^ (8 * (10 - 6))) with (2 ^ 32) in Hv.
  change (2 ^ (8 * (14 - 10))) with (2 ^ 32) in Hm.
  rewrite announced_frame_len_Some by (unfold U32_MAX; lia). simpl_bind.
  unfold HEADER_SIZE, CRC_SIZE in *. set (n := 22 + k + v + m + 4).
  case_cmp; [by rewrite (proj2 (slice_get_None file p (p + n) ltac:(lia))) by lia|].
  rewrite slice_get_in by lia. simpl_bind.
  rewrite checksum_loop_spec by (unfold U32_MAX; lia). simpl_bind.
  rewrite (read_exact_at_in file (p + n - 4)) by lia. simpl_bind.
  rewrite !slice_slice by lia. unfold crc32.
  replace (p + 2 + (n - 4 - 2)) with (p + (n - 4)) by lia.
  replace (p + n - 4 + 4) with (p + n) by lia. replace (p + n - 4) with (p + (n - 4)) by lia.
  case_decide; [|done].
  rewrite (read_exact_at_in file (p + 22)) by lia. simpl_bind.
  assert (Hmeta : (if 0 <? m then Some <$> read_exact_at file (p + 22 + k + v) m else Ok None)
    = Ok (if 0 <? m then
            Some (slice_from (slice file (p + 22) (p + (n - 4))) (k + v)) else None)).
  { case_cmp; [|done]. rewrite read_exact_at_in by lia. simpl_bind. do 2 f_equal.
    rewrite slice_from_slice by (rewrite zlen_slice; lia).
    rewrite zlen_slice, slice_slice by lia. f_equal; lia. }
  rewrite Hmeta. simpl_bind. unfold ref_at, HEADER_SIZE.
  cbn [key value meta expire_at frame_type fst snd].
  cbn [option_map fst snd key value meta expire_at frame_type].
  rewrite !zlen_slice by lia. do 3 f_equal; [f_equal; lia | lia..].
Qed.

(** The chunked search for the magic finds the first occurrence. *)
Lemma find_magic_loop_spec fuel file p :
  0 <= p -> zlen file - p < Z.of_nat fuel ->
  match find_magic_loop fuel file p (zlen file) with
  | Some i => p <= i /\ magic_at file i /\ forall j, p <= j < i -> ~ magic_at file j
  | None => forall j, p <= j -> ~ magic_at file j
  end.
Proof.
  assert (HM : 2 < MAGIC_SCAN_CHUNK_SIZE) by done.
  revert p. induction fuel as [|fuel IH]; intros p Hp Hfuel; cbn [find_magic_loop].
  { intros j Hj Hm%magic_at_zlen; lia. }
  case_cmp; [|intros j Hj Hm%magic_at_zlen; lia].
  set (n := Z.min (zlen file - p) MAGIC_SCAN_CHUNK_SIZE).
  assert (Hn : 0 < n <= zlen file - p /\ (n = zlen file - p \/ 2 < n)) by lia. clearbody n.
  assert (Hbuf : take (Z.to_nat n) (slice_from file p) = slice file p (p + n)).
  { unfold slice, slice_from. do 2 f_equal. lia. }
  rewrite Hbuf. set (buf := slice file p (p + n)).
  assert (Hlen : zlen buf = n) by (unfold buf; rewrite zlen_slice; lia).
  assert (Hin : forall j, 0 <= j -> j + 2 <= n -> magic_at buf j <-> magic_at file (p + j)).
  { intros j Hj Hjn. unfold magic_at, buf. rewrite slice_slice by lia.
    by rewrite Z.add_assoc. }
  destruct (Z.eqb_spec (zlen buf) 0); [lia|].
  pose proof (position_magic_spec buf) as Hs.
  destruct (position_magic buf) as [i|].
  - destruct Hs as (Hi & Hm & Hf). pose proof (magic_at_zlen _ _ Hi Hm).
    split_and!; [lia|by apply Hin; [lia..|]|].
    intros j Hj Hmj. apply (Hf (j - p)); [lia|]. apply Hin; [lia..|].
    by replace (p + (j - p)) with j by lia.
  - assert (Hno : forall j, p <= j -> j + 2 <= p + n -> ~ magic_at file j).
    { intros j Hj Hjn Hmj. apply (Hs (j - p)); [lia|]. apply Hin; [lia..|].
      by replace (p + (j - p)) with j by lia. }
    change (zlen MAGIC) with 2. case_cmp.
    + intros j Hj Hmj. pose proof (magic_at_zlen _ j ltac:(lia) Hmj). lia.
    + specialize (IH (p + (zlen buf - (2 - 1))) ltac:(lia) ltac:(lia)).
      destruct (find_magic_loop _ _ _ _) as [i|].
      * destruct IH as (Hi & Hm & Hf). split_and!; [lia|done|].
        intros j Hj. destruct (decide (j + 2 <= p + n)); [apply Hno|apply Hf]; lia.
      * intros j Hj. destruct (decide (j + 2 <= p + n)); [apply Hno|apply IH]; lia.
Qed.

Lemma find_magic_position file p :
  0 <= p -> find_magic file p (zlen file) = Z.add p <$> position_magic (slice_from file p).
Proof.
  intros Hp. pose proof (find_magic_loop_spec (S (length file)) file p Hp
    ltac:(unfold zlen; lia)) as Hf. pose proof (position_magic_from file p Hp) as Hs.
  unfold find_magic.
  destruct (find_magic_loop _ _ _ _) as [i|], (position_magic _) as [j|]; simpl_bind.
  - destruct Hf as (Hi & Hmi & Hfi), Hs as (Hj & Hmj & Hfj). f_equal.
    destruct (Z.lt_trichotomy i (p + j)) as [|[|]]; [|done|]; exfalso.
    + by apply (Hfj i).
    + by apply (Hfi (p + j)); [lia|].
  - destruct Hf as (Hi & Hmi & _). exfalso. by apply (Hs i).
  - destruct Hs as (Hj & Hmj & _). exfalso. by apply (Hf (p + j)); [lia|].
  - done.
Qed.

Lemma scan_resume_parse fuel file p :
  0 <= p -> scan_resume fuel file p (zlen file) = Ok (parse_resume fuel file p).
Proof.
  revert p. induction fuel as [|fuel IH]; intros p Hp; [done|].
  cbn [scan_resume parse_resume]. case_cmp; [|done].
  rewrite find_magic_position by done. pose proof (position_magic_from file p Hp) as Hs.
  destruct (position_magic _) as [i|]; simpl_bind; [|done]. destruct Hs as [Hi _].
  rewrite read_frame_ref_at_spec by lia.
  destruct (read_frame_at file (p + i)); simpl_bind; [done|]. by rewrite IH by lia.
Qed.

(** A reference describes the frame the parser reads at its offset, and the
    value it locates is that frame's value. *)
Definition refers_to (file : bytes) (r : FrameRef) (f : Frame) : Prop :=
  read_frame_at file (frame_offset r) = Some (f, frame_len r) /\
  r = ref_at (frame_offset r) f (frame_len r) /\
  slice file (value_offset r) (value_offset r + value_len r) = value f.

Lemma read_frame_at_value file p f n :
  read_frame_at file p = Some (f, n) ->
  let v := p + HEADER_SIZE + zlen (key f) in slice file v (v + zlen (value f)) = value f.
Proof.
  unfold read_frame_at, announced_frame_len. intros Hr.
  apply bind_Some in Hr as (h & Hh & Hr).
  apply slice_get_Some in Hh as (Hp & _ & _).
  case_decide; [|done]. apply bind_Some in Hr as (l & Hl & Hr).
  apply bind_Some in Hr as (fb & Hfb & Hr). apply slice_get_Some in Hfb as (_ & Hle & ->).
  case_decide; [|done].
  pose proof (from_le_bytes_slice_range h 4 6 ltac:(lia)).
  pose proof (from_le_bytes_slice_range h 6 10 ltac:(lia)).
  pose proof (from_le_bytes_slice_range h 10 14 ltac:(lia)).
  revert Hl Hr. generalize dependent (from_le_bytes (slice h 4 6)). intros k Hk.
  generalize dependent (from_le_bytes (slice h 6 10)). intros v Hv.
  generalize dependent (from_le_bytes (slice h 10 14)). intros m Hm Hl Hr.
  repeat (apply bind_Some in Hl as (? & [-> ?]%checked_add_inv & Hl)).
  apply checked_add_inv in Hl as [-> ?]. unfold HEADER_SIZE, CRC_SIZE in *.
  injection Hr as <- <-. cbn [key value].
  rewrite !slice_slice by lia. rewrite !zlen_slice by lia. f_equal; lia.
Qed.

Lemma scan_loop_parse fuel file mode refs0 fs0 rs0 p :
  0 <= p -> Forall2 (refers_to file) refs0 fs0 ->
  exists refs fs rs e,
    scan_loop fuel file mode (zlen file) refs0 rs0 p = Ok (mk_ScanFrameRefsResult refs rs e) /\
    parse_loop fuel file mode fs0 rs0 p = mk_ParseResult fs rs e /\
    Forall2 (refers_to file) refs fs.
Proof.
  revert refs0 fs0 rs0 p. induction fuel as [|fuel IH]; intros refs0 fs0 rs0 p Hp Href;
    cbn [scan_loop parse_loop]; [eauto 10|].
  case_cmp; [|eauto 10].
  rewrite read_frame_ref_at_spec by done.
  destruct (read_frame_at file p) as [[f n]|] eqn:E; simpl_bind.
  - pose proof (read_frame_at_bounds _ _ _ _ E) as (_ & Hn & _).
    pose proof (encoded_len_min f). unfold HEADER_SIZE, CRC_SIZE in *.
    apply IH; [cbn; lia|]. apply Forall2_app; [done|]. constructor; [|done].
    split_and!; [done|done|]. by apply (read_frame_at_value file p f n).
  - case_decide; [eauto 10|].
    rewrite scan_resume_parse by lia. simpl_bind.
    pose proof (parse_resume_spec (length file) file (p + 1) ltac:(lia)
      ltac:(unfold zlen; lia)).
    destruct (parse_resume _ _ _); [|eauto 10]. apply IH; [lia|done].
Qed.

Lemma scan_frame_refs_buffer file mode :
  exists refs,
    scan_frame_refs file mode 0 =
      Ok (mk_ScanFrameRefsResult refs (corrupt_ranges (parse_buffer file mode))
            (eof_offset (parse_buffer file mode))) /\
    Forall2 (refers_to file) refs (frames (parse_buffer file mode)).
Proof.
  destruct (scan_loop_parse (S (length file)) file mode [] [] [] 0)
    as (refs & fs & rs & e & Hs & Hp & Href); [lia|done|].
  exists refs. unfold scan_frame_refs, parse_buffer. rewrite Hs, Hp. done.
Qed.

(** C17: The file scanner, which reads headers, checksums the file in 1 MiB
    chunks, searches the magic in overlapping 1 MiB chunks and never keeps a
    value in memory, never fails on a readable file and finds exactly the
    frames, corrupt ranges and end offset that [parse_buffer] finds in the
    whole contents; each reference locates the value of its frame. *)
Theorem scan_frame_refs_parse file mode :
  exists refs,
    scan_frame_refs file mode 0 =
      Ok (mk_ScanFrameRefsResult refs (corrupt_ranges (parse_buffer file mode))
            (eof_offset (parse_buffer file mode))) /\
    Forall2 (refers_to file) refs (frames (parse_buffer file mode)).
Proof. apply scan_frame_refs_buffer. Qed.

End scan_facts.

(** ** The streaming parser *)

Section stream_facts.
Context `{Crc32fastOk}.

(** The fields of a header, read at its place in a buffer. *)
Lemma slice_header pre f enc post a b :
  encode_frame f = Ok enc -> 0 <= a <= b -> b <= HEADER_SIZE ->
  slice (pre ++ enc ++ post) (zlen pre + a) (zlen pre + b) = slice (frame_header f) a b.
Proof.
  intros Henc Hab Hb. apply encode_frame_Ok in Henc as [_ ->].
  pose proof (proj1 (frame_header_fields f)).
  rewrite slice_app_r, <- app_assoc, slice_app_l by zlia. f_equal; lia.
Qed.

(** What the loop of [feed] sees at the start of an announced frame. *)
Lemma feed_loop_at_frame fuel buf future off pre f enc rest fs :
  frame_wf f -> encode_frame f = Ok enc -> buf ++ future = pre ++ enc ++ rest ->
  HEADER_SIZE <= zlen buf - zlen pre ->
  feed_loop (S fuel) buf off (zlen pre) fs =
  if zlen buf - zlen pre <? zlen enc then (off, zlen pre, Ok fs)
  else feed_loop fuel buf (off + zlen enc) (zlen pre + zlen enc) (fs ++ [stored_frame f]).
Proof.
  intros Hwf Henc Hbuf Hlong. cbn [feed_loop].
  destruct (frame_header_fields f) as (Hh & Hmagic & _ & Hkl & Hvl & Hml & _).
  unfold HEADER_SIZE in *.
  assert (Hf : forall a b, 0 <= a <= b -> b <= 22 ->
    slice buf (zlen pre + a) (zlen pre + b) = slice (frame_header f) a b).
  { intros a b Hab Hb22. rewrite <- (slice_header pre f enc rest), <- Hbuf by done.
    symmetry. apply slice_app_l; zlia. }
  destruct (Z.ltb_spec (zlen buf - zlen pre) 22); [lia|].
  pose proof (Hf 0 2 ltac:(lia) ltac:(lia)) as Hm. rewrite Z.add_0_r in Hm.
  rewrite Hm, decide_True by done.
  rewrite !Hf, Hkl, Hvl, Hml by lia. pose proof Hwf as (Hk & Hv & Hmt & He).
  unfold MAX_KEY_LEN, U16_MAX, U32_MAX in *.
  rewrite !from_to_le_bytes by (change (2 ^ (Z.of_nat 2 * 8)) with (2 ^ 16);
    change (2 ^ (Z.of_nat 4 * 8)) with (2 ^ 32); zlia).
  rewrite announced_frame_len_Some by (unfold U32_MAX; zlia).
  change (HEADER_SIZE + _ + _ + _ + CRC_SIZE) with (encoded_len f).
  rewrite <- (encode_frame_len f enc Henc). case_cmp; [done|].
  assert (Hrd : read_frame_at buf (zlen pre) = Some (stored_frame f, zlen enc)).
  { assert (exists rest', buf = pre ++ enc ++ rest') as [rest' ->].
    { rewrite app_assoc in Hbuf. apply app_prefix_split in Hbuf as [t ->]; [|zlia].
      exists t. by rewrite app_assoc. }
    by apply read_frame_at_encode. }
  by rewrite Hrd.
Qed.

(** One call of the loop on a buffer that holds a prefix of a valid stream:
    the frames it contains are returned, the rest stays. *)
Lemma feed_loop_stream fs es :
  encodings fs es -> forall fuel buf future off pre part acc,
  buf = pre ++ part -> part ++ future = concat es -> zlen part < Z.of_nat fuel ->
  exists fs1 fs2 es1 es2 part',
    fs = fs1 ++ fs2 /\ encodings fs2 es2 /\ es = es1 ++ es2 /\
    feed_loop fuel buf off (zlen pre) acc =
      (off + zlen (concat es1), zlen pre + zlen (concat es1), Ok (acc ++ map stored_frame fs1)) /\
    part = concat es1 ++ part' /\ part' ++ future = concat es2 /\
    (future = [] -> fs2 = []).
Proof.
  induction 1 as [|f enc fs es [Hwf Henc] Hes IH];
    intros fuel buf future off pre part acc -> Hpart Hfuel.
  - apply app_nil in Hpart as [-> ->]. exists [], [], [], [], [].
    split_and!; try done; [constructor|].
    change (zlen (concat [])) with 0. rewrite !Z.add_0_r, !app_nil_r. destruct fuel; [done|]. cbn [feed_loop].
    rewrite Z.sub_diag. done.
  - pose proof (encode_frame_len f enc Henc) as Hlen. pose proof (encoded_len_min f).
    unfold HEADER_SIZE, CRC_SIZE in *.
    assert (Hkeep : zlen part < zlen enc ->
      exists fs1 fs2 es1 es2 part',
        f :: fs = fs1 ++ fs2 /\ encodings fs2 es2 /\ enc :: es = es1 ++ es2 /\
        (off, zlen pre, Ok acc) =
          ((off + zlen (concat es1), zlen pre + zlen (concat es1),
            Ok (acc ++ map stored_frame fs1)) : Z * Z * result CodecError (list Frame)) /\
        part = concat es1 ++ part' /\ part' ++ future = concat es2 /\
        (future = [] -> fs2 = [])).
    { intros Hshort. exists [], (f :: fs), [], (enc :: es), part.
      split_and!; try done; [by constructor|by change (zlen (concat [])) with 0; rewrite !Z.add_0_r, app_nil_r|].
      intros ->. rewrite app_nil_r in Hpart. subst part. exfalso. simpl in Hshort. zlia. }
    destruct fuel as [|fuel]; [pose proof (zlen_nonneg part); lia|].
    destruct (Z.ltb_spec (zlen part) 22) as [Hs|Hs].
    { cbn [feed_loop]. rewrite zlen_app, Z.add_simpl_l. unfold HEADER_SIZE.
      rewrite (proj2 (Z.ltb_lt _ _)) by lia. apply Hkeep. lia. }
    rewrite (feed_loop_at_frame fuel _ future off pre f enc (concat es)); try done.
    2: { by rewrite <- app_assoc, Hpart. }
    2: { unfold HEADER_SIZE. zlia. }
    rewrite zlen_app, Z.add_simpl_l.
    destruct (Z.ltb_spec (zlen part) (zlen enc)) as [|Hc]; [by apply Hkeep|].
    assert (exists part1, part = enc ++ part1) as [part1 ->].
    { cbn [concat] in Hpart. by eapply app_prefix_split. }
    cbn [concat] in Hpart. rewrite <- app_assoc in Hpart. apply app_inv_head in Hpart.
    destruct (IH fuel ((pre ++ enc) ++ part1) future (off + zlen enc) (pre ++ enc) part1
      (acc ++ [stored_frame f])) as (fs1 & fs2 & es1 & es2 & part' & -> & Hfs2 & -> & Hl & -> &
      Hrest & Hend); [done|done|zlia|].
    rewrite <- app_assoc in Hl. rewrite <- zlen_app. exists (f :: fs1), fs2, (enc :: es1), es2, part'.
    split_and!; try done.
    + rewrite Hl. cbn [concat map]. by rewrite <- app_assoc, !zlen_app, !Z.add_assoc.
    + cbn [concat]. by rewrite app_assoc.
Qed.

(** A reader that feeds chunk after chunk and stops at the first error. *)
Fixpoint feed_all (self : FrameParser) (chunks : list bytes)
    : FrameParser * result CodecError (list Frame) :=
  match chunks with
  | [] => (self, Ok [])
  | chunk :: chunks =>
      match feed self chunk with
      | (self, Ok fs) =>
          match feed_all self chunks with
          | (self, Ok fs') => (self, Ok (fs ++ fs'))
          | r => r
          end
      | r => r
      end
  end.

Lemma feed_stream fs es part off chunk future :
  encodings fs es -> part ++ chunk ++ future = concat es ->
  exists fs1 fs2 es1 es2 part',
    fs = fs1 ++ fs2 /\ encodings fs2 es2 /\ es = es1 ++ es2 /\
    feed (mk_FrameParser part off) chunk =
      (mk_FrameParser part' (off + zlen (concat es1)), Ok (map stored_frame fs1)) /\
    part' ++ future = concat es2 /\ (future = [] -> fs2 = []).
Proof.
  intros Hes Hs. unfold feed. cbn [pending offset].
  destruct (feed_loop_stream fs es Hes (S (length (part ++ chunk))) (part ++ chunk) future
    off [] (part ++ chunk) []) as (fs1 & fs2 & es1 & es2 & part' & -> & Hfs2 & -> & Hl & Hp &
    Hrest & Hend); [done|by rewrite <- app_assoc|unfold zlen; lia|].
  change (zlen []) with 0 in Hl. rewrite Z.add_0_l in Hl. rewrite Hl, Hp.
  exists fs1, fs2, es1, es2, part'. split_and!; try done.
  pose proof (zlen_nonneg (concat es1)). do 2 f_equal. case_cmp.
  - by rewrite slice_from_zlen.
  - by rewrite (proj1 (zlen_0 (concat es1))) by lia.
Qed.

Lemma feed_all_stream chunks : forall fs es part off,
  encodings fs es -> part ++ concat chunks = concat es -> (chunks = [] -> part = []) ->
  feed_all (mk_FrameParser part off) chunks =
    (mk_FrameParser [] (off + zlen (concat es)), Ok (map stored_frame fs)).
Proof.
  induction chunks as [|chunk chunks IH]; intros fs es part off Hes Hs Hpart; cbn [feed_all].
  - rewrite (Hpart eq_refl) in Hs |- *. cbn [concat app] in Hs. rewrite <- Hs.
    destruct Hes as [|f enc ?? [_ Henc] _]; [by change (zlen []) with 0; rewrite Z.add_0_r|].
    exfalso. apply encode_frame_len in Henc. pose proof (encoded_len_min f).
    unfold HEADER_SIZE, CRC_SIZE in *. apply (f_equal zlen) in Hs. cbn [concat] in Hs. zlia.
  - cbn [concat] in Hs.
    destruct (feed_stream fs es part off chunk (concat chunks) Hes Hs)
      as (fs1 & fs2 & es1 & es2 & part' & -> & Hfs2 & -> & Hf & Hrest & Hend).
    assert (Hlast : chunks = [] -> part' = []).
    { intros ->. rewrite (Hend eq_refl) in Hfs2. apply Forall2_nil_inv_l in Hfs2 as ->.
      by apply app_nil in Hrest as [-> _]. }
    rewrite Hf, (IH fs2 es2) by done.
    rewrite map_app, concat_app, zlen_app. f_equal. f_equal. lia.
Qed.

(** C18: Streaming.  However a valid log is cut into chunks, a parser fed the
    chunks in order returns its frames in order, each once, never errors, and
    [finish] reports the log's length. *)
Theorem feed_any_chunking fs es chunks :
  encodings fs es -> concat chunks = concat es ->
  let (parser, r) := feed_all FrameParser_new chunks in
  r = Ok (map stored_frame fs) /\ (finish parser).2 = Ok (zlen (concat es)).
Proof.
  intros Hes Hs. unfold FrameParser_new.
  by rewrite (feed_all_stream chunks fs es [] 0).
Qed.

End stream_facts.

(** ** Witnesses *)

Import Bitwise Samples.

Lemma encodings_f1 : encodings [f1] [enc f1].
Proof. repeat constructor; by vm_compute. Qed.

Lemma encodings_f2 : encodings [f2] [enc f2].
Proof. repeat constructor; by vm_compute. Qed.

Lemma parse_torn_tail_witness :
  parse_buffer (concat [enc f1] ++ take 7 (enc f2)) Resync =
  mk_ParseResult [f1] [(32, 39)] 32.
Proof.
  apply (parse_torn_tail Resync [f1] [enc f1] f2 (enc f2) (take 7 (enc f2)) (drop 7 (enc f2))).
  - exact encodings_f1.
  - repeat split; by vm_compute.
  - by vm_compute.
  - by vm_compute.
  - by vm_compute.
  - by vm_compute.
  - intros _ p Hp. apply read_frame_at_short. change (zlen (take 7 (enc f2))) with 7.
    unfold HEADER_SIZE, CRC_SIZE. lia.
Defined.

Lemma parse_resync_recovers_witness :
  parse_buffer (concat [enc f1] ++ map byte_of [98; 114; 111] ++ concat [enc f2]) Resync =
  mk_ParseResult [f1; f2] [(32, 35)] 65.
Proof.
  apply (parse_resync_recovers [f1] [enc f1] (map byte_of [98; 114; 111]) [f2] [enc f2]).
  - exact encodings_f1.
  - exact encodings_f2.
  - done.
  - done.
  - intros r Hr. change (zlen (concat [enc f1])) with 32 in Hr.
    change (zlen (map byte_of [98; 114; 111])) with 3 in Hr.
    assert (r = 32 \/ r = 33 \/ r = 34) as [->|[->| ->]] by lia; by vm_compute.
Defined.

Lemma scan_frame_refs_parse_witness :
  exists refs,
    scan_frame_refs (enc f1 ++ enc f2) Strict 0 = Ok (mk_ScanFrameRefsResult refs [] 62) /\
    Forall2 (refers_to (enc f1 ++ enc f2)) refs [f1; f2].
Proof. exact (scan_frame_refs_parse (enc f1 ++ enc f2) Strict). Defined.

Lemma feed_any_chunking_witness :
  let (parser, r) :=
    feed_all FrameParser_new [take 7 (enc f1); drop 7 (enc f1) ++ take 3 (enc f2); drop 3 (enc f2)] in
  r = Ok [f1; f2] /\ (finish parser).2 = Ok 62.
Proof.
  apply (feed_any_chunking [f1; f2] [enc f1; enc f2]); [|by vm_compute].
  exact (Forall2_app encodings_f1 encodings_f2).
Defined.

End Scan.
