(* ===== verification/OrdIndex.v ===== *)
(** * Ordered multi-indexes

    What the record store and the datetime index ask of the ordered index they
    keep ([SkipList] in the code): an interface [OrderedIndex] whose states
    represent sorted lists of entries, with its laws, and the list functions
    that specify insertion, deletion and range queries. *)

From S2P Require Import Prelude.

Module OrdIndex.

(** [skiplist.rs], [struct RangeOptions]. *)
Record RangeOptions (K : Type) := mk_RangeOptions {
  gte : option K;
  gt : option K;
  lte : option K;
  lt : option K;
  offset : Z;
  count : option Z;
  reverse : bool;
}.
Arguments mk_RangeOptions {K}.
Arguments gte {K}. Arguments gt {K}. Arguments lte {K}. Arguments lt {K}.
Arguments offset {K}. Arguments count {K}. Arguments reverse {K}.

(** [RangeOptions::default()]. *)
Definition RangeOptions_default {K} : RangeOptions K :=
  mk_RangeOptions None None None None 0 None false.

(** ** Comparators *)

(** A total preorder given by a three-way comparison, as [Ord::cmp] is. *)
Class TotalCompare {A} (cmp : A -> A -> comparison) : Prop := {
  cmp_flip x y : cmp y x = CompOpp (cmp x y);
  cmp_trans x y z : cmp x y <> Gt -> cmp y z <> Gt -> cmp x z <> Gt;
}.

Section compare.
Context {A} (cmp : A -> A -> comparison) `{!TotalCompare cmp}.

Lemma cmp_refl x : cmp x x = Eq.
Proof. pose proof (cmp_flip x x). by destruct (cmp x x). Qed.

Lemma cmp_lt_le_trans x y z : cmp x y = Lt -> cmp y z <> Gt -> cmp x z = Lt.
Proof.
  intros Hxy Hyz. pose proof (cmp_flip x z) as Hzx.
  destruct (cmp x z) eqn:E; [|done|]; exfalso.
  - apply (cmp_trans y z x) in Hyz; [|by rewrite Hzx].
    by rewrite (cmp_flip x y), Hxy in Hyz.
  - apply (cmp_trans x y z) in Hyz; [done|by rewrite Hxy].
Qed.

Lemma cmp_le_lt_trans x y z : cmp x y <> Gt -> cmp y z = Lt -> cmp x z = Lt.
Proof.
  intros Hxy Hyz. pose proof (cmp_flip x z) as Hzx.
  destruct (cmp x z) eqn:E; [|done|]; exfalso.
  - apply (cmp_trans z x y) in Hxy; [|by rewrite Hzx].
    by rewrite (cmp_flip y z), Hyz in Hxy.
  - eapply (cmp_trans x y z); [done| |done]. by rewrite Hyz.
Qed.
End compare.

#[export] Instance Z_compare_total : TotalCompare Z.compare.
Proof.
  split.
  - intros x y. apply Z.compare_antisym.
  - intros x y z. rewrite !Z.compare_gt_iff. lia.
Qed.

(** [Vec<u8>::cmp]: bytes in lexicographic order. *)
Fixpoint bytes_cmp (x y : bytes) : comparison :=
  match x, y with
  | [], [] => Eq
  | [], _ :: _ => Lt
  | _ :: _, [] => Gt
  | a :: x, b :: y =>
      match byte_val a ?= byte_val b with Eq => bytes_cmp x y | c => c end
  end.

Lemma bytes_cmp_eq x y : bytes_cmp x y = Eq <-> x = y.
Proof.
  revert y. induction x as [|a x IH]; intros [|b y]; simpl; try done.
  destruct (byte_val a ?= byte_val b) eqn:E.
  - apply Z.compare_eq in E. rewrite IH.
    assert (a = b) as -> by (by rewrite <- (byte_of_val a), E, byte_of_val).
    split; [congruence|by intros [= ->]].
  - split; [done|]. intros [= -> ->]. by rewrite Z.compare_refl in E.
  - split; [done|]. intros [= -> ->]. by rewrite Z.compare_refl in E.
Qed.

#[export] Instance bytes_cmp_total : TotalCompare bytes_cmp.
Proof.
  split.
  - induction x as [|a x IH]; intros [|b y]; simpl; try done.
    rewrite (Z.compare_antisym (byte_val a)). destruct (byte_val a ?= byte_val b); simpl; auto.
  - induction x as [|a x IH]; intros [|b y] [|c z]; simpl; try done.
    destruct (Z.compare_spec (byte_val a) (byte_val b)),
      (Z.compare_spec (byte_val b) (byte_val c)),
      (Z.compare_spec (byte_val a) (byte_val c)); try lia; try done. apply IH.
Qed.

(** Lexicographic comparison of entries: the key, then the value. *)
Definition cmp_entry {K V} (ck : K -> K -> comparison) (cv : V -> V -> comparison)
    (x y : K * V) : comparison :=
  match ck x.1 y.1 with Eq => cv x.2 y.2 | c => c end.

#[export] Instance cmp_entry_total {K V} (ck : K -> K -> comparison)
    (cv : V -> V -> comparison) `{!TotalCompare ck} `{!TotalCompare cv} :
  TotalCompare (cmp_entry ck cv).
Proof.
  split; unfold cmp_entry.
  - intros x y. rewrite (cmp_flip x.1 y.1). destruct (ck x.1 y.1); simpl; try done.
    apply cmp_flip.
  - intros x y z. destruct (ck x.1 y.1) eqn:Exy; try done; intros Hxy.
    + destruct (ck y.1 z.1) eqn:Eyz; try done; intros Hyz.
      * pose proof (cmp_trans x.1 y.1 z.1 ltac:(by rewrite Exy) ltac:(by rewrite Eyz)).
        pose proof (cmp_trans z.1 y.1 x.1
          ltac:(by rewrite (cmp_flip y.1), Eyz) ltac:(by rewrite (cmp_flip x.1), Exy)) as Hzx.
        rewrite (cmp_flip x.1) in Hzx.
        destruct (ck x.1 z.1); try done. by eapply cmp_trans.
      * by rewrite (cmp_le_lt_trans ck x.1 y.1 z.1) by (by rewrite ?Exy).
    + destruct (ck y.1 z.1) eqn:Eyz; try done; intros Hyz;
        by rewrite (cmp_lt_le_trans ck x.1 y.1 z.1) by (by rewrite ?Eyz).
Qed.

(** ** Sorted lists *)

Section sorted.
Context {A} (cmp : A -> A -> comparison).

Definition sorted (l : list A) : Prop := StronglySorted (fun x y => cmp x y <> Gt) l.

Lemma sorted_app l1 l2 :
  sorted (l1 ++ l2) <->
  sorted l1 /\ sorted l2 /\ (forall x y, x ∈ l1 -> y ∈ l2 -> cmp x y <> Gt).
Proof.
  unfold sorted. induction l1 as [|x l1 IH]; simpl.
  - split; [intros; split_and!; [constructor|done|set_solver] | tauto].
  - split.
    + intros [Hs Hx]%StronglySorted_inv. apply IH in Hs as (?&?&?).
      apply Forall_app in Hx as [? Hx]. rewrite Forall_forall in Hx.
      split_and!; [by constructor|done|]. intros a b [->|?]%elem_of_cons ?; auto.
    + intros ([Hs Hx]%StronglySorted_inv & Hs2 & Hc). constructor.
      * apply IH. split_and!; [done..|]. intros; apply Hc; set_solver.
      * apply Forall_app. split; [done|]. apply Forall_forall. intros; apply Hc; set_solver.
Qed.

(** The reverse of a sorted list is sorted for the flipped comparison. *)
Lemma sorted_rev l : sorted l -> StronglySorted (fun x y => cmp y x <> Gt) (rev l).
Proof.
  unfold sorted. induction 1 as [|x l Hs IH Hx]; simpl; [constructor|].
  rewrite Forall_forall in Hx.
  assert (forall y, y ∈ rev l -> cmp x y <> Gt) as Hr.
  { intros y Hy. apply Hx. apply list_elem_of_In, in_rev, list_elem_of_In. done. }
  clear Hx Hs. induction IH as [|y r Hr' IH Hy]; simpl; [repeat constructor|].
  constructor; [apply IH; set_solver|]. apply Forall_app. split; [done|].
  repeat constructor. apply Hr. set_solver.
Qed.

(** The prefix on which a test holds, and the rest. *)
Fixpoint take_while (p : A -> bool) (l : list A) : list A :=
  match l with
  | [] => []
  | x :: l => if p x then x :: take_while p l else []
  end.

Fixpoint drop_while (p : A -> bool) (l : list A) : list A :=
  match l with
  | [] => []
  | x :: l' => if p x then drop_while p l' else l
  end.

(** Insertion before the first entry not smaller. *)
Fixpoint sorted_insert (x : A) (l : list A) : list A :=
  match l with
  | [] => [x]
  | y :: l' => match cmp y x with Lt => y :: sorted_insert x l' | _ => x :: l end
  end.

(** Deletion of the first entry that compares equal. *)
Fixpoint sorted_delete (x : A) (l : list A) : list A :=
  match l with
  | [] => []
  | y :: l' => match cmp y x with Lt => y :: sorted_delete x l' | Eq => l' | Gt => l end
  end.

(** A test that, once false along the order, stays false. *)
Definition downward (p : A -> bool) : Prop :=
  forall x y, cmp x y <> Gt -> p y = true -> p x = true.

Lemma take_drop_while p l : take_while p l ++ drop_while p l = l.
Proof. induction l as [|x l IH]; simpl; [done|]. destruct (p x); simpl; congruence. Qed.

Lemma take_while_Forall p l : Forall (fun x => p x = true) (take_while p l).
Proof. induction l as [|x l IH]; simpl; [done|]. destruct (p x) eqn:E; by constructor. Qed.

Lemma drop_while_Forall p l :
  sorted l -> downward p -> Forall (fun x => p x = false) (drop_while p l).
Proof.
  intros Hs Hp. induction Hs as [|x l Hs IH Hx]; simpl; [done|].
  destruct (p x) eqn:E; [done|]. constructor; [done|].
  eapply Forall_impl; [exact Hx|]. intros y Hy. destruct (p y) eqn:Ey; [|done].
  by rewrite (Hp x y) in E.
Qed.

(** On a sorted list the prefix of a downward test is all that satisfies it. *)
Lemma filter_take_while p l :
  sorted l -> downward p -> filter (fun x => p x = true) l = take_while p l.
Proof.
  intros Hs Hp. rewrite <- (take_drop_while p l) at 1. rewrite filter_app.
  pose proof (take_while_Forall p l) as Ht. pose proof (drop_while_Forall p l Hs Hp) as Hd.
  assert (filter (fun x => p x = true) (take_while p l) = take_while p l) as ->.
  { induction Ht; [done|]. rewrite filter_cons_True by done. congruence. }
  assert (filter (fun x => p x = true) (drop_while p l) = []) as ->.
  { induction Hd; [done|]. rewrite filter_cons_False by (by rewrite H). done. }
  by rewrite app_nil_r.
Qed.

Lemma filter_drop_while p l :
  sorted l -> downward p -> filter (fun x => p x = false) l = drop_while p l.
Proof.
  intros Hs Hp. rewrite <- (take_drop_while p l) at 1. rewrite filter_app.
  pose proof (take_while_Forall p l) as Ht. pose proof (drop_while_Forall p l Hs Hp) as Hd.
  assert (filter (fun x => p x = false) (take_while p l) = []) as ->.
  { induction Ht; [done|]. rewrite filter_cons_False by (by rewrite H). done. }
  assert (filter (fun x => p x = false) (drop_while p l) = drop_while p l) as ->; [|done].
  induction Hd; [done|]. rewrite filter_cons_True by done. congruence.
Qed.

Definition is_lt (c : comparison) : bool := match c with Lt => true | _ => false end.

Lemma sorted_insert_while x l :
  sorted_insert x l =
  take_while (fun y => is_lt (cmp y x)) l ++ x :: drop_while (fun y => is_lt (cmp y x)) l.
Proof.
  induction l as [|y l IH]; simpl; [done|].
  destruct (cmp y x); simpl; try done. by rewrite IH.
Qed.

Lemma sorted_insert_perm x l : sorted_insert x l ≡ₚ x :: l.
Proof.
  rewrite sorted_insert_while, <- Permutation_middle. by rewrite take_drop_while.
Qed.

Context `{!TotalCompare cmp}.

Lemma downward_lt x : downward (fun y => is_lt (cmp y x)).
Proof.
  intros y z Hyz. destruct (cmp z x) eqn:E; simpl; try done. intros _.
  by rewrite (cmp_le_lt_trans cmp y z x).
Qed.

Lemma sorted_insert_sorted x l : sorted l -> sorted (sorted_insert x l).
Proof.
  unfold sorted. induction 1 as [|y l Hs IH Hy]; simpl.
  { by repeat constructor. }
  destruct (cmp y x) eqn:E.
  - constructor; [by constructor|]. constructor.
    + by rewrite (cmp_flip y x), E.
    + eapply Forall_impl; [exact Hy|]. intros z Hz.
      eapply cmp_trans; [|exact Hz]. by rewrite (cmp_flip y x), E.
  - constructor; [done|]. rewrite sorted_insert_perm. constructor; [by rewrite E|done].
  - constructor; [by constructor|]. constructor.
    + by rewrite (cmp_flip y x), E.
    + eapply Forall_impl; [exact Hy|]. intros z Hz.
      eapply cmp_trans; [|exact Hz]. by rewrite (cmp_flip y x), E.
Qed.

Lemma sorted_delete_incl x l : sorted_delete x l ⊆ l.
Proof.
  induction l as [|y l IH]; simpl; [done|].
  destruct (cmp y x); [set_solver|set_solver|done].
Qed.

Lemma sorted_delete_sorted x l : sorted l -> sorted (sorted_delete x l).
Proof.
  unfold sorted. induction 1 as [|y l Hs IH Hy]; simpl; [constructor|].
  destruct (cmp y x) eqn:E; [done| |by constructor].
  constructor; [done|]. rewrite Forall_forall in Hy |- *.
  intros z Hz. apply Hy. by apply (sorted_delete_incl x l).
Qed.

Lemma sorted_delete_while x l :
  sorted_delete x l =
  take_while (fun y => is_lt (cmp y x)) l ++
  match drop_while (fun y => is_lt (cmp y x)) l with
  | [] => []
  | y :: rest => match cmp y x with Eq => rest | _ => y :: rest end
  end.
Proof.
  induction l as [|y l IH]; simpl; [done|].
  destruct (cmp y x) eqn:E; simpl; rewrite ?E; try done. by rewrite IH.
Qed.

(** Whether [sorted_delete] removes an entry. *)
Definition sorted_mem (x : A) (l : list A) : bool :=
  existsb (fun y => match cmp y x with Eq => true | _ => false end) l.

(** Nothing equal to [x] stands after an entry greater than [x]. *)
Lemma sorted_mem_gt x y l : sorted (y :: l) -> cmp y x = Gt -> sorted_mem x (y :: l) = false.
Proof.
  intros [_ Hy]%StronglySorted_inv E. simpl. rewrite E. simpl.
  induction Hy as [|z l Hz _ IH]; [done|]. simpl. rewrite IH.
  destruct (cmp z x) eqn:Ez; try done. destruct (cmp_trans y z x); [done| |done].
  by rewrite Ez.
Qed.

Lemma sorted_mem_drop_while x l :
  sorted l ->
  sorted_mem x l =
  match drop_while (fun y => is_lt (cmp y x)) l with
  | y :: _ => match cmp y x with Eq => true | _ => false end
  | [] => false
  end.
Proof.
  induction l as [|y l IH]; intros Hs; [done|]. simpl. destruct (cmp y x) eqn:E; simpl.
  - by rewrite E.
  - apply IH. by apply StronglySorted_inv in Hs as [? _].
  - rewrite E. pose proof (sorted_mem_gt x y l Hs E) as Hm. simpl in Hm. by rewrite E in Hm.
Qed.

(** The prefix of a downward test is exhausted by the rest; both are taken when
    cutting a sorted list. *)
Lemma cut_while p (l : list A) :
  sorted l -> downward p ->
  exists l1 l2, l = l1 ++ l2 /\ take_while p l = l1 /\ drop_while p l = l2 /\
    Forall (fun x => p x = true) l1 /\ Forall (fun x => p x = false) l2.
Proof.
  intros Hs Hp. exists (take_while p l), (drop_while p l).
  rewrite take_drop_while.
  split_and!; auto using take_while_Forall, drop_while_Forall.
Qed.
End sorted.

(** Comparing equal is having the same normal form: what a deletion takes away. *)
Section norm.
Context {A B} (cmp : A -> A -> comparison) `{!TotalCompare cmp} (norm : A -> B).
Context (cmp_norm : forall x y, cmp x y = Eq <-> norm x = norm y).

Lemma sorted_delete_norm x l :
  sorted cmp l -> norm x ∈ map norm l -> norm x :: map norm (sorted_delete cmp x l) ≡ₚ map norm l.
Proof.
  induction 1 as [|y l Hs IH Hy]; intros Hin; [by apply elem_of_nil in Hin|]. cbn [sorted_delete].
  destruct (cmp y x) eqn:E.
  - apply cmp_norm in E. cbn [map]. by rewrite E.
  - cbn [map] in *. apply elem_of_cons in Hin as [Hx|Hin].
    { symmetry in Hx. apply cmp_norm in Hx. congruence. }
    rewrite <- (IH Hin). apply Permutation_swap.
  - exfalso. cbn [map] in Hin. apply elem_of_cons in Hin as [Hx|Hin].
    { symmetry in Hx. apply cmp_norm in Hx. congruence. }
    apply list_elem_of_fmap in Hin as (z & Hz & Hin). rewrite Forall_forall in Hy. specialize (Hy z Hin).
    symmetry in Hz. apply cmp_norm in Hz. apply Hy.
    rewrite (cmp_flip z y). assert (cmp z y = Lt) as ->; [|done].
    apply (cmp_le_lt_trans cmp z x y); [by rewrite Hz|]. by rewrite (cmp_flip y x), E.
Qed.
End norm.

(** ** Range queries *)

Section range.
Context {K V : Type} (ck : K -> K -> comparison).

Definition is_le (c : comparison) : bool := match c with Gt => false | _ => true end.
Definition is_gt (c : comparison) : bool := match c with Gt => true | _ => false end.
Definition is_ge (c : comparison) : bool := match c with Lt => false | _ => true end.

(** A bound that is absent holds ([is_none_or]). *)
Definition bounded (test : comparison -> bool) (b : option K) (k : K) : bool :=
  match b with Some b => test (ck k b) | None => true end.

(** Where a forward query starts: [gte], or else [gt]. *)
Definition from_start (o : RangeOptions K) (k : K) : bool :=
  match gte o with
  | Some b => is_ge (ck k b)
  | None => bounded is_gt (gt o) k
  end.

(** Where a reverse query starts: [lte], or else [lt]. *)
Definition from_end (o : RangeOptions K) (k : K) : bool :=
  match lte o with
  | Some b => is_le (ck k b)
  | None => bounded is_lt (lt o) k
  end.

Definition in_upper (o : RangeOptions K) (k : K) : bool :=
  bounded is_le (lte o) k && bounded is_lt (lt o) k.
Definition in_lower (o : RangeOptions K) (k : K) : bool :=
  bounded is_ge (gte o) k && bounded is_gt (gt o) k.

(** The keys a query selects. *)
Definition in_bounds (o : RangeOptions K) (k : K) : bool :=
  if reverse o then from_end o k && in_lower o k else from_start o k && in_upper o k.

(** [offset] and [count], an absent count being [usize::MAX]. *)
Definition page {A} (o : RangeOptions K) (l : list A) : list A :=
  take (Z.to_nat (default U64_MAX (count o))) (drop (Z.to_nat (offset o)) l).

(** The specification of a range query on the sorted entries. *)
Definition range_spec (o : RangeOptions K) (l : list (K * V)) : list (K * V) :=
  let hits := filter (fun e => in_bounds o e.1 = true) l in
  page o (if reverse o then rev hits else hits).
End range.

(** ** The interface *)

Class OrderedIndex (T K V : Type) := {
  oi_empty : T;
  oi_insert : K -> V -> T -> option T;
  oi_delete : K -> V -> T -> option (T * bool);
  oi_range : RangeOptions K -> T -> option (list (K * V));
  oi_is_empty : T -> bool;
}.

(** The laws: a state represents a sorted list, the operations never panic and
    act on it as the list functions do.  An insertion asks that the number of
    entries stay below [usize::MAX]. *)
Class OrderedIndexLaws {T K V} (ck : K -> K -> comparison) (cv : V -> V -> comparison)
    `{!OrderedIndex T K V} (repr : T -> list (K * V) -> Prop) : Prop := {
  oi_repr_sorted t l : repr t l -> sorted (cmp_entry ck cv) l;
  oi_empty_spec : repr oi_empty [];
  oi_insert_spec k v t l : repr t l -> zlen l + 1 < U64_MAX ->
    exists t', oi_insert k v t = Some t' /\ repr t' (sorted_insert (cmp_entry ck cv) (k, v) l);
  oi_delete_spec k v t l : repr t l ->
    exists t', oi_delete k v t = Some (t', sorted_mem (cmp_entry ck cv) (k, v) l) /\
      repr t' (sorted_delete (cmp_entry ck cv) (k, v) l);
  oi_range_spec o t l : repr t l -> oi_range o t = Some (range_spec ck o l);
  oi_is_empty_spec t l : repr t l -> oi_is_empty t = bool_decide (l = []);
}.

End OrdIndex.
