(* ===== verification/SkipList.v ===== *)
(** * The skip list ([crates/minidb/src/skiplist.rs])

    The arena-allocated skip list with spans, as the code has it: a vector of
    nodes (the header at index 0, deleted nodes never reclaimed), each with a
    tower of forward indices and spans and a backward index; levels are drawn
    by a xorshift generator.  Every vector access that could panic, and every
    [usize] subtraction that could underflow, is a bind in the option monad;
    the [while] loops carry the length of the arena as fuel.  That no call
    panics or runs out of fuel is part of the theorems of [SkipListFacts]. *)

From S2P Require Import Prelude.
From S2P Require Import OrdIndex.
Import OrdIndex.

Module SkipList.

Definition MAX_LEVEL : nat := 32.

Record Level := mk_Level { forward : option nat; span : Z }.

Record Node (K V : Type) := mk_Node {
  key : option K;
  value : option V;
  backward : option nat;
  levels : list Level;
}.
Arguments mk_Node {K V}.
Arguments key {K V}. Arguments value {K V}. Arguments backward {K V}. Arguments levels {K V}.

Record SkipList (K V : Type) := mk_SkipList {
  nodes : list (Node K V);
  tail : option nat;
  len : Z;
  level : nat;
  random_state : Z;
}.
Arguments mk_SkipList {K V}.
Arguments nodes {K V}. Arguments tail {K V}. Arguments len {K V}.
Arguments level {K V}. Arguments random_state {K V}.

Section skiplist.
Context {K V : Type} (compare_key : K -> K -> comparison) (compare_value : V -> V -> comparison).
Implicit Types nodes : list (Node K V).

Definition Node_header : Node K V :=
  mk_Node None None None (replicate MAX_LEVEL (mk_Level None 0)).

Definition Node_new (key : K) (value : V) (level : nat) : Node K V :=
  mk_Node (Some key) (Some value) None (replicate level (mk_Level None 0)).

Definition with_comparators : SkipList K V :=
  mk_SkipList [Node_header] None 0 1 0x6a09e667f3bcc909.

Definition is_empty (self : SkipList K V) : bool := len self =? 0.

(** ** Levels *)

Definition wrap_u64 (z : Z) : Z := z `mod` 2 ^ 64.

(** One round of the generator; [<<] drops the bits shifted out. *)
Definition xorshift (state : Z) : Z :=
  let state := Z.lxor state (wrap_u64 (Z.shiftl state 13)) in
  let state := Z.lxor state (Z.shiftr state 7) in
  Z.lxor state (wrap_u64 (Z.shiftl state 17)).

Fixpoint random_level_loop (fuel : nat) (random_state : Z) (level : nat) : nat * Z :=
  match fuel with
  | O => (level, random_state)
  | S fuel =>
      let random_state := xorshift random_state in
      if negb (Z.land random_state 3 =? 0) || (level =? MAX_LEVEL)%nat
      then (level, random_state)
      else random_level_loop fuel random_state (level + 1)
  end.

Definition random_level (random_state : Z) : nat * Z :=
  random_level_loop MAX_LEVEL random_state 1.

(** [self.nodes[n].levels[index]] and its update. *)
Definition level_at nodes (n index : nat) : option Level :=
  node ← nodes !! n; levels node !! index.

Definition set_level nodes (n index : nat) (l : Level) : option (list (Node K V)) :=
  node ← nodes !! n;
  _ ← levels node !! index;
  Some (<[n := mk_Node (key node) (value node) (backward node)
                 (<[index := l]> (levels node))]> nodes).

Definition set_backward nodes (n : nat) (b : option nat) : option (list (Node K V)) :=
  node ← nodes !! n;
  Some (<[n := mk_Node (key node) (value node) b (levels node)]> nodes).

(** The data of a node ([expect("data node")]). *)
Definition data nodes (n : nat) : option (K * V) :=
  node ← nodes !! n; k ← key node; v ← value node; Some (k, v).

Definition node_less nodes (node : nat) (key : K) (value : V) : option bool :=
  '(k, v) ← data nodes node;
  Some (match compare_key k key with
        | Lt => true
        | Eq => is_lt (compare_value v value)
        | Gt => false
        end).

(** The inner loop of every descent: follow the forward links of one level
    while [advance] says so of the next node and of the distance covered with
    it; returns the node reached and the distance.  Callers that do not track
    the distance ignore it. *)
Fixpoint walk (fuel : nat) nodes (advance : nat -> Z -> option bool) (index current : nat)
    (distance : Z) : option (nat * Z) :=
  match fuel with
  | O => None
  | S fuel =>
      l ← level_at nodes current index;
      match forward l with
      | None => Some (current, distance)
      | Some next =>
          continue ← advance next (distance + span l);
          if continue : bool then walk fuel nodes advance index next (distance + span l)
          else Some (current, distance)
      end
  end.

(** ** Insertion *)

Fixpoint insert_descend (index : nat) (self : SkipList K V) (k : K) (v : V)
    (current : nat) (update : list nat) (rank : list Z) : option (nat * list nat * list Z) :=
  match index with
  | O => Some (current, update, rank)
  | S index =>
      start ← (if (index =? level self - 1)%nat then Some 0 else rank !! (index + 1)%nat);
      '(current, distance) ←
        walk (length (nodes self)) (nodes self) (fun next _ => node_less (nodes self) next k v)
          index current start;
      insert_descend index self k v current (<[index := current]> update)
        (<[index := distance]> rank)
  end.

(** The new levels of the header when the list grows. *)
Definition raise_level (self_len : Z) (state : list (Node K V) * list nat * list Z) (index : nat)
    : option (list (Node K V) * list nat * list Z) :=
  let '(nodes, update, rank) := state in
  l ← level_at nodes 0 index;
  nodes ← set_level nodes 0 index (mk_Level (forward l) self_len);
  Some (nodes, <[index := 0%nat]> update, <[index := 0]> rank).

(** Splicing the new node in at one level. *)
Definition splice_level (update : list nat) (rank : list Z) (node_index : nat) nodes (index : nat)
    : option (list (Node K V)) :=
  previous ← update !! index;
  previous_level ← level_at nodes previous index;
  rank0 ← rank !! 0%nat;
  ranki ← rank !! index;
  distance ← checked_sub rank0 ranki;
  nodes ← set_level nodes node_index index
            (mk_Level (forward previous_level) (saturating_sub (span previous_level) distance));
  set_level nodes previous index (mk_Level (Some node_index) (distance + 1)).

(** A level the new node does not reach. *)
Definition widen_level (update : list nat) nodes (index : nat) : option (list (Node K V)) :=
  previous ← update !! index;
  l ← level_at nodes previous index;
  set_level nodes previous index (mk_Level (forward l) (span l + 1)).

(** The backward link of the new node and of its successor, or the new tail. *)
Definition link_backward (update : list nat) (node_index : nat) nodes (tail : option nat)
    : option (list (Node K V) * option nat) :=
  previous ← update !! 0%nat;
  nodes ← set_backward nodes node_index (if (previous =? 0)%nat then None else Some previous);
  l ← level_at nodes node_index 0;
  match forward l with
  | Some next =>
      nodes ← set_backward nodes next (Some node_index);
      Some (nodes, tail)
  | None => Some (nodes, Some node_index)
  end.

Definition insert (k : K) (v : V) (self : SkipList K V) : option (SkipList K V) :=
  '(_, update, rank) ←
    insert_descend (level self) self k v 0 (replicate MAX_LEVEL 0%nat) (replicate MAX_LEVEL 0);
  let '(node_level, random_state) := random_level (random_state self) in
  '(nodes, update, rank) ←
    foldM (raise_level (len self)) (nodes self, update, rank)
      (seq (level self) (node_level - level self));
  let level := Nat.max (level self) node_level in
  let node_index := length nodes in
  let nodes := nodes ++ [Node_new k v node_level] in
  nodes ← foldM (splice_level update rank node_index) nodes (seq 0 node_level);
  nodes ← foldM (widen_level update) nodes (seq node_level (level - node_level));
  '(nodes, tail) ← link_backward update node_index nodes (tail self);
  Some (mk_SkipList nodes tail (len self + 1) level random_state).

(** ** Deletion *)

Fixpoint delete_descend (index : nat) (self : SkipList K V) (k : K) (v : V)
    (current : nat) (update : list nat) : option (nat * list nat) :=
  match index with
  | O => Some (current, update)
  | S index =>
      '(current, _) ←
        walk (length (nodes self)) (nodes self) (fun next _ => node_less (nodes self) next k v)
          index current 0;
      delete_descend index self k v current (<[index := current]> update)
  end.

Definition unlink_level (update : list nat) (target : nat) nodes (index : nat)
    : option (list (Node K V)) :=
  previous ← update !! index;
  l ← level_at nodes previous index;
  if decide (forward l = Some target) then
    let target_level := level_at nodes target index in
    let target_span := from_option span 0 target_level in
    set_level nodes previous index
      (mk_Level (target_level ≫= forward)
         (saturating_sub (saturating_add (span l) target_span) 1))
  else set_level nodes previous index (mk_Level (forward l) (saturating_sub (span l) 1)).

(** The backward link of the successor of the target, or the new tail. *)
Definition relink_backward nodes (tail : option nat) (target : nat)
    : option (list (Node K V) * option nat) :=
  target_node ← nodes !! target;
  target_level ← levels target_node !! 0%nat;
  match forward target_level with
  | Some next =>
      nodes ← set_backward nodes next (backward target_node);
      Some (nodes, tail)
  | None => Some (nodes, backward target_node)
  end.

Fixpoint lower_level (fuel : nat) nodes (level : nat) : option nat :=
  match fuel with
  | O => None
  | S fuel =>
      if (1 <? level)%nat then
        l ← level_at nodes 0 (level - 1);
        match forward l with
        | None => lower_level fuel nodes (level - 1)
        | Some _ => Some level
        end
      else Some level
  end.

Definition delete (k : K) (v : V) (self : SkipList K V) : option (SkipList K V * bool) :=
  '(current, update) ← delete_descend (level self) self k v 0 (replicate MAX_LEVEL 0%nat);
  l ← level_at (nodes self) current 0;
  match forward l with
  | None => Some (self, false)
  | Some target =>
      '(tk, tv) ← data (nodes self) target;
      match compare_key tk k, compare_value tv v with
      | Eq, Eq =>
          nodes ← foldM (unlink_level update target) (nodes self) (seq 0 (level self));
          '(nodes, tail) ← relink_backward nodes (tail self) target;
          level ← lower_level MAX_LEVEL nodes (level self);
          len ← checked_sub (len self) 1;
          Some (mk_SkipList nodes tail len level (random_state self), true)
      | _, _ => Some (self, false)
      end
  end.

(** ** Queries *)

Fixpoint descend (index : nat) nodes (advance : nat -> Z -> option bool)
    (current : nat) (distance : Z) : option (nat * Z) :=
  match index with
  | O => Some (current, distance)
  | S index =>
      '(current, distance) ← walk (length nodes) nodes advance index current distance;
      descend index nodes advance current distance
  end.

Definition lower_bound_index (self : SkipList K V) (bound : K) (strict : bool)
    : option (option nat) :=
  '(current, _) ←
    descend (level self) (nodes self)
      (fun next _ =>
         '(k, _) ← data (nodes self) next;
         Some (if strict then is_le (compare_key k bound) else is_lt (compare_key k bound)))
      0 0;
  l ← level_at (nodes self) current 0;
  Some (forward l).

Definition lower_bound (self : SkipList K V) (bound : K) (strict : bool)
    : option (option (K * V)) :=
  index ← lower_bound_index self bound strict;
  match index with
  | Some index => e ← data (nodes self) index; Some (Some e)
  | None => Some None
  end.

Definition same (k : K) (v : V) (e : K * V) : bool :=
  match compare_key e.1 k, compare_value e.2 v with Eq, Eq => true | _, _ => false end.

Definition rank (self : SkipList K V) (k : K) (v : V) : option (option Z) :=
  '(current, rank) ←
    descend (level self) (nodes self)
      (fun next _ =>
         e ← data (nodes self) next;
         less ← node_less (nodes self) next k v;
         Some (less || same k v e))
      0 0;
  if (current =? 0)%nat then Some None
  else
    e ← data (nodes self) current;
    if same k v e then r ← checked_sub rank 1; Some (Some r) else Some None.

Fixpoint rank_descend (index : nat) nodes (target : Z) (current : nat) (traversed : Z)
    : option (option (K * V)) :=
  match index with
  | O => Some None
  | S index =>
      '(current, traversed) ←
        walk (length nodes) nodes (fun _ distance => Some (negb (target <? distance)))
          index current traversed;
      if traversed =? target then e ← data nodes current; Some (Some e)
      else rank_descend index nodes target current traversed
  end.

Definition get_by_rank (self : SkipList K V) (rank : Z) : option (option (K * V)) :=
  if len self <=? rank then Some None
  else rank_descend (level self) (nodes self) (rank + 1) 0 0.

(** The start of a range query. *)
Definition range_start (self : SkipList K V) (o : RangeOptions K) : option (option nat) :=
  let backward_of bound strict :=
    index ← lower_bound_index self bound strict;
    match index with
    | Some index =>
        node ← nodes self !! index;
        match backward node with
        | Some b => Some (Some b)
        | None => Some None
        end
    | None => Some (tail self)
    end in
  if reverse o then
    match lte o, lt o with
    | Some bound, _ => backward_of bound true
    | None, Some bound => backward_of bound false
    | None, None => Some (tail self)
    end
  else
    match gte o, gt o with
    | Some bound, _ => lower_bound_index self bound false
    | None, Some bound => lower_bound_index self bound true
    | None, None => l ← level_at (nodes self) 0 0; Some (forward l)
    end.

Fixpoint range_loop (fuel : nat) (self : SkipList K V) (o : RangeOptions K)
    (offset remaining : Z) (current : option nat) (output : list (K * V))
    : option (list (K * V)) :=
  match current with
  | None => Some output
  | Some index =>
      match fuel with
      | O => None
      | S fuel =>
          e ← data (nodes self) index;
          let in_bounds := if reverse o then in_lower compare_key o e.1
                           else in_upper compare_key o e.1 in
          if negb in_bounds then Some output
          else
            next ← (if reverse o then node ← nodes self !! index; Some (backward node)
                    else l ← level_at (nodes self) index 0; Some (forward l));
            if 0 <? offset then range_loop fuel self o (offset - 1) remaining next output
            else if 0 <? remaining then
              range_loop fuel self o offset (remaining - 1) next (output ++ [e])
            else Some output
      end
  end.

Definition range (o : RangeOptions K) (self : SkipList K V) : option (list (K * V)) :=
  current ← range_start self o;
  range_loop (length (nodes self)) self o (OrdIndex.offset o) (default U64_MAX (count o))
    current [].

Definition to_vec (self : SkipList K V) : option (list (K * V)) :=
  range RangeOptions_default self.

End skiplist.
End SkipList.
