(* ===== verification/SkipListFacts.v ===== *)
(** * Correctness of the skip list

    The nodes of a list are read through three views: their [shape] (keys,
    values and heights of the towers), their backward links and, for each
    level, the [column] of its links.  A step of insertion or deletion rewrites
    one column or one backward link, so the invariant [inv] is kept column by
    column; all queries descend with one lemma, [walk_spec]. *)

From S2P Require Import Prelude.
From S2P Require Import OrdIndex.
From S2P Require Import SkipList.
Import OrdIndex SkipList.

Module SkipListFacts.

(** ** Random levels *)

Lemma random_level_loop_range fuel state lvl :
  (1 <= lvl <= MAX_LEVEL)%nat -> (1 <= (random_level_loop fuel state lvl).1 <= MAX_LEVEL)%nat.
Proof.
  revert state lvl. induction fuel as [|fuel IH]; intros state lvl Hl; simpl; [done|].
  destruct (Nat.eqb_spec lvl MAX_LEVEL); [by rewrite orb_true_r|].
  destruct (negb _); simpl; [done|]. apply IH. lia.
Qed.

Lemma random_level_range state : (1 <= (random_level state).1 <= MAX_LEVEL)%nat.
Proof. apply random_level_loop_range. unfold MAX_LEVEL. lia. Qed.

(** ** The links of a level *)

Section links.
Context (hs : nat -> nat).

(** What a level must hold at a node followed by [rest]: the next node tall
    enough and its distance, or no link and the number of nodes left. *)
Fixpoint next_level (i : nat) (rest : list nat) : Level :=
  match rest with
  | [] => mk_Level None 0
  | n :: rest =>
      if decide (i < hs n)%nat then mk_Level (Some n) 1
      else let l := next_level i rest in mk_Level (forward l) (span l + 1)
  end.

Definition short (i n : nat) : Prop := (hs n <= i)%nat.

#[export] Instance short_dec i n : Decision (short i n).
Proof. unfold short. apply _. Defined.

Lemma next_level_app i r s :
  Forall (short i) r ->
  next_level i (r ++ s) =
  mk_Level (forward (next_level i s)) (span (next_level i s) + zlen r).
Proof.
  unfold short. induction 1 as [|n r Hn _ IH]; simpl.
  - destruct (next_level i s) as [f d]; simpl. f_equal. zlia.
  - rewrite decide_False by lia. rewrite IH. simpl. f_equal. zlia.
Qed.

Lemma next_level_tall i n s : (i < hs n)%nat -> next_level i (n :: s) = mk_Level (Some n) 1.
Proof. intros. simpl. by rewrite decide_True. Qed.

Lemma next_level_short i n s :
  short i n ->
  next_level i (n :: s) = mk_Level (forward (next_level i s)) (span (next_level i s) + 1).
Proof. unfold short. intros. simpl. by rewrite decide_False by lia. Qed.

Lemma next_level_span i s : 0 <= span (next_level i s) <= zlen s.
Proof.
  induction s as [|n s IH]; simpl; [done|].
  case_decide; simpl; zlia.
Qed.

Lemma next_level_forward i s n :
  forward (next_level i s) = Some n -> (i < hs n)%nat /\ n ∈ s.
Proof.
  induction s as [|m s IH]; simpl; [done|].
  destruct (decide (i < hs m)%nat); simpl; [intros [= <-]; split; [done|set_solver]|].
  intros [??]%IH. split; [done|set_solver].
Qed.

Lemma next_level_None i s : forward (next_level i s) = None <-> Forall (short i) s.
Proof.
  induction s as [|m s IH]; simpl; [done|].
  rewrite Forall_cons. unfold short at 1. destruct (decide (i < hs m)%nat); simpl.
  - split; [done|]. lia.
  - rewrite IH. split; [intros; split; [lia|done]|tauto].
Qed.

(** A list of nodes up to its first node tall enough. *)
Lemma short_split i s :
  Forall (short i) s \/
  exists r n t, s = r ++ n :: t /\ Forall (short i) r /\ (i < hs n)%nat.
Proof.
  induction s as [|m s IH]; [by left|].
  destruct (decide (short i m)) as [Hm|Hm]; unfold short in Hm.
  - destruct IH as [IH|(r & n & t & -> & Hr & Hn)]; [left; by constructor|].
    right. exists (m :: r), n, t. split_and!; [done|by constructor|done].
  - right. exists [], m, s. split_and!; [done|constructor|lia].
Qed.

(** The last node of [c] tall enough for level [i], and its position. *)
Definition is_pred (i : nat) (c : list nat) (p : nat) (pos : Z) : Prop :=
  exists pre r, c = pre ++ p :: r /\ (i < hs p)%nat /\ Forall (short i) r /\ pos = zlen pre.

(** A column of links is right for the chain of nodes starting at the header. *)
Definition col_ok (chain : list nat) (i : nat) (c : list (option Level)) : Prop :=
  forall pre a rest, 0%nat :: chain = pre ++ a :: rest -> (i < hs a)%nat ->
    c !! a = Some (Some (next_level i rest)).
End links.

Lemma next_level_all_short hs i s :
  Forall (short hs i) s -> next_level hs i s = mk_Level None (zlen s).
Proof. intros Hs. rewrite <- (app_nil_r s) at 1. by rewrite next_level_app. Qed.

(** What follows a tall enough node does not matter. *)
Lemma next_level_past hs i r n t s s' :
  (i < hs n)%nat -> next_level hs i ((r ++ n :: t) ++ s) = next_level hs i ((r ++ n :: t) ++ s').
Proof.
  intros Hn. rewrite <- !app_assoc. simpl. induction r as [|m r IH]; simpl.
  - by rewrite !decide_True by done.
  - by rewrite IH.
Qed.

(** Replacing what follows a cut, in one column: only the link of the last
    tall enough node before the cut changes, and the new nodes come with theirs. *)
Lemma col_ok_replace hs c1 c2 c2' j col col' pre p r :
  col_ok hs (c1 ++ c2) j col -> NoDup (0%nat :: c1) ->
  0%nat :: c1 = pre ++ p :: r -> (j < hs p)%nat -> Forall (short hs j) r ->
  col' !! p = Some (Some (next_level hs j (r ++ c2'))) ->
  (forall a, a ∈ 0%nat :: c1 -> a <> p -> col' !! a = col !! a) ->
  (forall q a rest, c2' = q ++ a :: rest -> (j < hs a)%nat ->
     col' !! a = Some (Some (next_level hs j rest))) ->
  col_ok hs (c1 ++ c2') j col'.
Proof.
  intros Hcol Hnd Hc Hp Hr Hnew Hsame Hrest pre2 a rest Heq Ha.
  change (0%nat :: c1 ++ c2') with ((0%nat :: c1) ++ c2') in Heq.
  apply app_cut in Heq as [(r2 & Hc2 & ->)|(q & -> & Heq)]; [|by eapply Hrest].
  destruct (decide (a = p)) as [->|Hne].
  - assert (r2 = r) as ->; [|done]. rewrite Hc2 in Hc. apply NoDup_app_cons_inj in Hc as [_ ?]; [done|].
    by rewrite <- Hc2.
  - rewrite Hsame; [|rewrite Hc2; set_solver|done].
    rewrite (Hcol pre2 a (r2 ++ c2)); [|change (0%nat :: c1 ++ c2) with ((0%nat :: c1) ++ c2);
      by rewrite Hc2, <- app_assoc|done].
    do 2 f_equal. rewrite Hc in Hc2. symmetry in Hc2.
    change (a :: r2) with ([a] ++ r2) in Hc2. rewrite app_assoc in Hc2.
    apply app_cut in Hc2 as [(r3 & Hpre & ->)|(q & _ & ->)].
    + exfalso. apply Forall_app in Hr as [Hr _]. induction r3 as [|x r3 _] using rev_ind.
      * by apply app_inj_tail in Hpre as [_ ?].
      * rewrite app_comm_cons, app_assoc in Hpre. apply app_inj_tail in Hpre as [_ ->].
        apply Forall_app in Hr as [_ Hr]. apply Forall_cons in Hr as [Hr _]. unfold short in Hr. lia.
    + apply (next_level_past hs j q p r c2 c2' Hp).
Qed.

Lemma next_level_ext hs hs' i s :
  Forall (fun n => hs n = hs' n) s -> next_level hs i s = next_level hs' i s.
Proof. induction 1 as [|n s Hn _ IH]; simpl; [done|]. by rewrite Hn, IH. Qed.

(** ** Views of the nodes *)

Section skiplist.
Context {K V : Type} (ck : K -> K -> comparison) (cv : V -> V -> comparison).
Context `{!TotalCompare ck} `{!TotalCompare cv}.
Implicit Types ns : list (Node K V).

Definition shape ns : list (option K * option V * nat) :=
  (fun nd => (key nd, value nd, length (levels nd))) <$> ns.
Definition backs ns : list (option nat) := backward <$> ns.
Definition column ns (i : nat) : list (option Level) := (fun nd => levels nd !! i) <$> ns.

(** The height of a node in a shape; 0 out of range. *)
Definition height (sh : list (option K * option V * nat)) (n : nat) : nat :=
  match sh !! n with Some (_, h) => h | None => 0%nat end.

Lemma level_at_column ns n i l :
  level_at ns n i = Some l <-> column ns i !! n = Some (Some l).
Proof.
  unfold level_at, column. rewrite list_lookup_fmap.
  destruct (ns !! n) as [nd|]; simpl; [|done].
  split; [by intros ->|by intros [= ->]].
Qed.

Lemma column_height ns n i l :
  column ns i !! n = Some (Some l) -> (i < height (shape ns) n)%nat.
Proof.
  unfold column, height, shape. rewrite !list_lookup_fmap.
  destruct (ns !! n) as [nd|]; simpl; [|done]. intros [= Hl].
  by apply lookup_lt_Some in Hl.
Qed.

Lemma column_tall ns n i :
  (i < height (shape ns) n)%nat -> exists l, column ns i !! n = Some (Some l).
Proof.
  unfold column, height, shape. rewrite !list_lookup_fmap.
  destruct (ns !! n) as [nd|]; simpl; [|lia]. intros [l ->]%lookup_lt_is_Some. by exists l.
Qed.

Lemma set_level_spec ns n i l :
  (i < height (shape ns) n)%nat ->
  exists ns', set_level ns n i l = Some ns' /\
    shape ns' = shape ns /\ backs ns' = backs ns /\
    column ns' i = <[n := Some l]> (column ns i) /\
    (forall j, j <> i -> column ns' j = column ns j).
Proof.
  intros Hh. unfold set_level, height, shape, column, backs in *.
  rewrite list_lookup_fmap in Hh. destruct (ns !! n) as [nd|] eqn:En; simpl in *; [|lia].
  destruct (lookup_lt_is_Some_2 (levels nd) i Hh) as [l0 El]. rewrite El. simpl.
  eexists; split; [done|]. rewrite !list_fmap_insert. simpl. split_and!.
  - apply list_insert_id. rewrite list_lookup_fmap, En. simpl. by rewrite length_insert.
  - apply list_insert_id. by rewrite list_lookup_fmap, En.
  - by rewrite list_lookup_insert_eq by done.
  - intros j Hj. rewrite list_fmap_insert. simpl.
    apply list_insert_id. rewrite list_lookup_fmap, En. simpl.
    by rewrite list_lookup_insert_ne by done.
Qed.

Lemma set_backward_spec ns n b :
  (n < length (shape ns))%nat ->
  exists ns', set_backward ns n b = Some ns' /\
    shape ns' = shape ns /\ backs ns' = <[n := b]> (backs ns) /\
    (forall j, column ns' j = column ns j).
Proof.
  intros Hn. unfold set_backward, shape, column, backs in *. rewrite length_fmap in Hn.
  destruct (lookup_lt_is_Some_2 ns n Hn) as [nd En]. rewrite En. simpl.
  eexists; split; [done|]. rewrite !list_fmap_insert. simpl. split_and!; [|done|].
  - apply list_insert_id. by rewrite list_lookup_fmap, En.
  - intros j. rewrite list_fmap_insert. simpl. apply list_insert_id. by rewrite list_lookup_fmap, En.
Qed.

(** A loop over levels that rewrites the column of each level it visits. *)
Lemma foldM_columns (f : list (Node K V) -> nat -> option (list (Node K V)))
    (P Q : nat -> list (option Level) -> Prop) sh bk (l : list nat) :
  NoDup l ->
  (forall ns j, j ∈ l -> shape ns = sh -> backs ns = bk -> P j (column ns j) ->
    exists ns', f ns j = Some ns' /\ shape ns' = sh /\ backs ns' = bk /\
      Q j (column ns' j) /\ (forall i, i <> j -> column ns' i = column ns i)) ->
  forall ns, shape ns = sh -> backs ns = bk -> (forall j, j ∈ l -> P j (column ns j)) ->
    exists ns', foldM f ns l = Some ns' /\ shape ns' = sh /\ backs ns' = bk /\
      (forall j, j ∈ l -> Q j (column ns' j)) /\
      (forall i, i ∉ l -> column ns' i = column ns i).
Proof.
  induction 1 as [|j l Hj _ IH]; intros Hstep ns Hsh Hbk HP; simpl.
  - exists ns. split_and!; [done..|set_solver|done].
  - destruct (Hstep ns j) as (ns1 & -> & Hsh1 & Hbk1 & HQ1 & Hother1); [set_solver|done..|set_solver|].
    simpl. destruct (IH) with (ns := ns1) as (ns2 & -> & Hsh2 & Hbk2 & HQ2 & Hother2); try done.
    { intros. apply Hstep; [set_solver|done..]. }
    { intros i Hi. rewrite Hother1 by set_solver. set_solver. }
    exists ns2. split_and!; [done..| |].
    + intros i [->|Hi]%elem_of_cons; [|by apply HQ2]. by rewrite Hother2.
    + intros i Hi. rewrite Hother2, Hother1 by set_solver. done.
Qed.

(** ** The invariant *)

(** A live node holds its entry and has a tower within the list's level. *)
Definition node_ok (sh : list (option K * option V * nat)) (lvl n : nat) (e : K * V) : Prop :=
  exists h, sh !! n = Some (Some e.1, Some e.2, h) /\ (1 <= h <= lvl)%nat.

(** The backward link of a node is the node before it, none for the first. *)
Definition backs_ok (bk : list (option nat)) (chain : list nat) : Prop :=
  forall pre n rest, chain = pre ++ n :: rest -> bk !! n = Some (last pre).

(** [chain] lists the live nodes in order and [es] their entries. *)
Record inv (self : SkipList K V) (chain : list nat) (es : list (K * V)) : Prop := {
  inv_nodup : NoDup (0%nat :: chain);
  inv_level : (1 <= level self <= MAX_LEVEL)%nat;
  inv_header : shape (nodes self) !! 0%nat = Some (None, None, MAX_LEVEL);
  inv_data : Forall2 (node_ok (shape (nodes self)) (level self)) chain es;
  inv_cols : forall i, (i < level self)%nat ->
    col_ok (height (shape (nodes self))) chain i (column (nodes self) i);
  inv_top : forall i, (level self <= i < MAX_LEVEL)%nat ->
    exists d, column (nodes self) i !! 0%nat = Some (Some (mk_Level None d));
  inv_backs : backs_ok (backs (nodes self)) chain;
  inv_tail : tail self = last chain;
  inv_len : len self = zlen es;
  inv_sorted : sorted (cmp_entry ck cv) es;
  inv_bound : zlen es < U64_MAX;
}.

(** The represented entries. *)
Definition repr (self : SkipList K V) (es : list (K * V)) : Prop :=
  exists chain, inv self chain es.

Lemma height_header self chain es : inv self chain es -> height (shape (nodes self)) 0 = MAX_LEVEL.
Proof. intros H. unfold height. by rewrite (inv_header _ _ _ H). Qed.

Lemma node_ok_height sh lvl n e : node_ok sh lvl n e -> (1 <= height sh n <= lvl)%nat.
Proof. intros (h & E & ?). unfold height. by rewrite E. Qed.

Lemma node_ok_length sh lvl n e : node_ok sh lvl n e -> (n < length sh)%nat.
Proof. intros (h & E & ?). by eapply lookup_lt_Some. Qed.

Lemma inv_heights self chain es :
  inv self chain es -> Forall (fun n => 1 <= height (shape (nodes self)) n <= level self)%nat chain.
Proof.
  intros H. eapply Forall2_Forall_l; [apply (inv_data _ _ _ H)|].
  apply Forall_true. intros e n. apply node_ok_height.
Qed.

Lemma length_shape ns : length (shape ns) = length ns.
Proof. apply length_fmap. Qed.

Lemma inv_in_range self chain es :
  inv self chain es -> Forall (fun n => n < length (nodes self))%nat (0%nat :: chain).
Proof.
  intros H. rewrite <- length_shape. constructor.
  - eapply lookup_lt_Some. apply (inv_header _ _ _ H).
  - eapply Forall2_Forall_l; [apply (inv_data _ _ _ H)|].
    apply Forall_true. intros e n. apply node_ok_length.
Qed.

(** The arena is large enough for the loops' fuel. *)
Lemma NoDup_bounded (l : list nat) (b : nat) :
  NoDup l -> Forall (fun n => n < b)%nat l -> (length l <= b)%nat.
Proof.
  intros Hl Hb. rewrite <- (length_seq b 0). apply submseteq_length, NoDup_submseteq; [done|].
  intros x Hx. rewrite Forall_forall in Hb. apply elem_of_seq. specialize (Hb x Hx). lia.
Qed.

Lemma inv_fuel self chain es : inv self chain es -> (length chain < length (nodes self))%nat.
Proof.
  intros H. pose proof (NoDup_bounded _ _ (inv_nodup _ _ _ H) (inv_in_range _ _ _ H)) as Hl.
  simpl in Hl. lia.
Qed.

Lemma data_shape ns n lvl e : node_ok (shape ns) lvl n e -> data ns n = Some e.
Proof.
  intros (h & E & _). unfold shape in E. rewrite list_lookup_fmap in E. unfold data.
  destruct (ns !! n) as [nd|]; simpl in *; [|done]. injection E as -> -> ?. simpl. by destruct e.
Qed.

Lemma backs_backward ns n b :
  backs ns !! n = Some b -> exists nd, ns !! n = Some nd /\ backward nd = b.
Proof. unfold backs. rewrite list_lookup_fmap. destruct (ns !! n); naive_solver. Qed.

(** ** Descents *)

(** The test a descent applies to the next node and to its position: it holds
    of the nodes of [c1] and fails on those of [c2]. *)
Definition cuts (advance : nat -> Z -> option bool) (c1 c2 : list nat) (delta : Z) : Prop :=
  forall a n b, c1 ++ c2 = a ++ n :: b ->
    advance n (zlen a + 1 + delta) = Some (zlen a <? zlen c1).

(** One level: from any tall enough node of the part where the test holds, the
    loop stops at its last tall enough node, having counted the nodes passed. *)
Lemma walk_spec ns advance i c1 c2 delta fuel pre cur r :
  col_ok (height (shape ns)) (c1 ++ c2) i (column ns i) ->
  cuts advance c1 c2 delta ->
  0%nat :: c1 = pre ++ cur :: r -> (i < height (shape ns) cur)%nat ->
  (length r < fuel)%nat ->
  exists p pos, walk fuel ns advance i cur (zlen pre + delta) = Some (p, pos + delta) /\
    is_pred (height (shape ns)) i (0%nat :: c1) p pos.
Proof.
  intros Hcol Hcut. revert pre cur r. induction fuel as [|fuel IH]; [lia|].
  intros pre cur r Hc1 Hcur Hfuel. simpl.
  assert (level_at ns cur i = Some (next_level (height (shape ns)) i (r ++ c2))) as ->.
  { apply level_at_column, (Hcol pre); [|done].
    change (0%nat :: c1 ++ c2) with ((0%nat :: c1) ++ c2). by rewrite Hc1, <- app_assoc. }
  destruct (short_split (height (shape ns)) i r) as [Hr|(s & n & t & -> & Hs & Hn)].
  - rewrite next_level_app by done. simpl.
    destruct (forward (next_level _ i c2)) as [n|] eqn:En; simpl.
    + destruct (short_split (height (shape ns)) i c2) as [Hs|(s & m & t & -> & Hs & Hm)].
      { by rewrite (proj2 (next_level_None _ i c2)) in En. }
      rewrite next_level_app, next_level_tall in * by done. simpl in *. injection En as ->.
      specialize (Hcut (c1 ++ s) n t ltac:(by rewrite <- app_assoc)).
      assert (zlen c1 = zlen pre + zlen r) as Hlen.
      { apply (f_equal zlen) in Hc1. zlia. }
      replace (zlen pre + delta + (1 + zlen s + zlen r)) with (zlen (c1 ++ s) + 1 + delta) by zlia.
      rewrite Hcut. simpl. destruct (Z.ltb_spec (zlen (c1 ++ s)) (zlen c1)); [zlia|].
      exists cur, (zlen pre). split; [done|]. by exists pre, r.
    + exists cur, (zlen pre). split; [done|]. by exists pre, r.
  - rewrite <- app_assoc, next_level_app by done. simpl (_ :: _). cbn [app].
    rewrite next_level_tall by done. simpl.
    assert (exists a, pre ++ cur :: s = 0%nat :: a) as [a Ha].
    { destruct pre; injection Hc1 as <- ?; by eexists. }
    assert (c1 = a ++ n :: t) as Hc1'.
    { change (pre ++ cur :: s ++ n :: t) with (pre ++ (cur :: s) ++ n :: t) in Hc1.
      rewrite app_assoc, Ha in Hc1. by injection Hc1. }
    assert (zlen pre + 1 + zlen s = zlen (0%nat :: a)) as Hlen by (rewrite <- Ha; zlia).
    specialize (Hcut a n (t ++ c2) ltac:(by rewrite Hc1', <- app_assoc)).
    replace (zlen pre + delta + (1 + zlen s)) with (zlen a + 1 + delta) by zlia.
    rewrite Hcut. simpl. destruct (Z.ltb_spec (zlen a) (zlen c1)); [|subst c1; zlia].
    replace (zlen a + 1 + delta) with (zlen (0%nat :: a) + delta) by zlia.
    apply (IH (0%nat :: a) n t); [by rewrite Hc1'|done|].
    rewrite length_app in Hfuel. simpl in Hfuel. lia.
Qed.

Section cut.
Context (self : SkipList K V) (c1 c2 : list nat) (es : list (K * V)).
Context (H : inv self (c1 ++ c2) es).
Let ns := nodes self.
Let hs := height (shape ns).

Lemma cut_fuel pre cur r : 0%nat :: c1 = pre ++ cur :: r -> (length r < length ns)%nat.
Proof.
  intros Hc. apply (f_equal length) in Hc. pose proof (inv_fuel _ _ _ H) as Hf.
  rewrite length_app in Hc, Hf. simpl in Hc. subst ns. lia.
Qed.

Lemma walk_cut advance i delta pre cur r :
  (i < level self)%nat -> cuts advance c1 c2 delta ->
  0%nat :: c1 = pre ++ cur :: r -> (i < hs cur)%nat ->
  exists p pos, walk (length ns) ns advance i cur (zlen pre + delta) = Some (p, pos + delta) /\
    is_pred hs i (0%nat :: c1) p pos.
Proof.
  intros. eapply walk_spec; [by apply (inv_cols _ _ _ H)|done..|by eapply cut_fuel].
Qed.

Lemma level_lt_header i : (i < level self)%nat -> (i < hs 0)%nat.
Proof.
  intros. subst hs ns. rewrite (height_header _ _ _ H).
  pose proof (inv_level _ _ _ H). lia.
Qed.

Lemma level_at_pred i p pos :
  (i < level self)%nat -> is_pred hs i (0%nat :: c1) p pos ->
  exists r, zlen r = zlen c1 - pos /\ Forall (short hs i) r /\
    level_at ns p i = Some (next_level hs i (r ++ c2)).
Proof.
  intros Hi (pre & r & Hc & Hp & Hr & ->). exists r. split; [|split; [done|]].
  - apply (f_equal zlen) in Hc. zlia.
  - apply level_at_column, (inv_cols _ _ _ H i Hi pre); [|done].
    change (0%nat :: c1 ++ c2) with ((0%nat :: c1) ++ c2). by rewrite Hc, <- app_assoc.
Qed.

(** At level 0 the descent ends just before [c2]. *)
Lemma pred_0 p pos :
  is_pred hs 0 (0%nat :: c1) p pos ->
  pos = zlen c1 /\ p = default 0%nat (last c1) /\
  level_at ns p 0 = Some (mk_Level (head c2) (Z.min 1 (zlen c2))).
Proof.
  intros Hp. pose proof (level_at_pred 0 p pos) as (r & Hlen & Hshort & Hl); [|done|].
  { pose proof (inv_level _ _ _ H). lia. }
  pose proof (inv_heights _ _ _ H) as Hh. apply Forall_app in Hh as [Hh1 Hh2].
  assert (forall l, Forall (fun n => 1 <= height (shape (nodes self)) n <= level self)%nat l ->
    Forall (short hs 0) l -> l = []) as Hnil.
  { intros [|n l] Hx Hy; [done|]. apply Forall_cons in Hx as [Hx _]. apply Forall_cons in Hy as [Hy _].
    unfold short in Hy. subst hs ns. lia. }
  destruct Hp as (pre & r' & Hc & _ & Hr' & ->).
  assert (r' = []) as ->.
  { apply Hnil; [|done]. destruct pre; injection Hc as ? Hc; subst c1; [done|].
    apply Forall_app in Hh1 as [_ Hh1]. by apply Forall_cons in Hh1 as [_ ?]. }
  assert (r = []) as ->.
  { apply zlen_0. apply (f_equal zlen) in Hc. zlia. }
  split; [|split].
  - apply (f_equal zlen) in Hc. zlia.
  - apply (f_equal last) in Hc. rewrite last_snoc in Hc. destruct c1 as [|n l]; simpl in *.
    + by injection Hc.
    + change (last (0%nat :: n :: l)) with (last (n :: l)) in Hc.
      change (last (n :: l) = Some p) in Hc. by rewrite Hc.
  - rewrite Hl. simpl. f_equal. destruct c2 as [|n l]; [done|]. simpl.
    apply Forall_cons in Hh2 as [Hn _]. rewrite decide_True by (subst hs ns; lia).
    f_equal. zlia.
Qed.

Lemma descend_spec advance delta index pre cur r :
  cuts advance c1 c2 delta -> (1 <= index <= level self)%nat ->
  0%nat :: c1 = pre ++ cur :: r -> (index <= hs cur)%nat ->
  exists p, descend index ns advance cur (zlen pre + delta) = Some (p, zlen c1 + delta) /\
    is_pred hs 0 (0%nat :: c1) p (zlen c1).
Proof.
  intros Hcut. revert pre cur r. induction index as [|index IH]; [lia|].
  intros pre cur r Hi Hc Hcur. simpl.
  destruct (walk_cut advance index delta pre cur r) as (p & pos & -> & Hp); [lia|done..|lia|].
  simpl. destruct index as [|index].
  - simpl. destruct (pred_0 p pos Hp) as (-> & _ & _). by exists p.
  - destruct Hp as (pre' & r' & Hc' & Hp & _ & ->). apply (IH pre' p r'); [lia|done|lia].
Qed.

Lemma descend_cut advance :
  cuts advance c1 c2 0 ->
  exists p, descend (level self) ns advance 0 0 = Some (p, zlen c1) /\
    p = default 0%nat (last c1) /\
    level_at ns p 0 = Some (mk_Level (head c2) (Z.min 1 (zlen c2))).
Proof.
  intros Hcut. pose proof (inv_level _ _ _ H).
  destruct (descend_spec advance 0 (level self) [] 0 c1) as (p & Hd & Hp); [done|lia|done| |].
  { pose proof (level_lt_header (level self - 1)). lia. }
  exists p. rewrite !Z.add_0_r in Hd. destruct (pred_0 p _ Hp) as (_ & ? & ?). by split_and!.
Qed.
End cut.

(** ** Tests on entries *)

(** A test on the entries that is true on [e1] and false on [e2] cuts the chain
    where it cuts the entries. *)
Lemma cuts_entries ns lvl c1 c2 e1 e2 (test : K * V -> bool) advance delta :
  Forall2 (node_ok (shape ns) lvl) c1 e1 -> Forall2 (node_ok (shape ns) lvl) c2 e2 ->
  Forall (fun e => test e = true) e1 -> Forall (fun e => test e = false) e2 ->
  (forall n d e, data ns n = Some e -> advance n d = Some (test e)) ->
  cuts advance c1 c2 delta.
Proof.
  intros H1 H2 Ht Hf Hadv a n b Heq.
  apply app_cut in Heq as [(r & -> & _)|(p & -> & ->)].
  - apply Forall2_app_inv_l in H1 as (e1a & e1b & _ & Hb & ->).
    apply Forall2_cons_inv_l in Hb as (e & e1' & Hn & _ & ->).
    rewrite (Hadv n _ e) by (by eapply data_shape).
    apply Forall_app in Ht as [_ Ht]. apply Forall_cons in Ht as [-> _].
    destruct (Z.ltb_spec (zlen a) (zlen (a ++ n :: r))); [done|zlia].
  - apply Forall2_app_inv_l in H2 as (e2a & e2b & _ & Hb & ->).
    apply Forall2_cons_inv_l in Hb as (e & e2' & Hn & _ & ->).
    rewrite (Hadv n _ e) by (by eapply data_shape).
    apply Forall_app in Hf as [_ Hf]. apply Forall_cons in Hf as [-> _].
    destruct (Z.ltb_spec (zlen (c1 ++ p)) (zlen c1)); [zlia|done].
Qed.

Lemma inv_cut self chain es (test : K * V -> bool) :
  inv self chain es -> downward (cmp_entry ck cv) test ->
  exists c1 c2, chain = c1 ++ c2 /\
    Forall2 (node_ok (shape (nodes self)) (level self)) c1 (take_while test es) /\
    Forall2 (node_ok (shape (nodes self)) (level self)) c2 (drop_while test es) /\
    forall advance delta,
      (forall n d e, data (nodes self) n = Some e -> advance n d = Some (test e)) ->
      cuts advance c1 c2 delta.
Proof.
  intros H Hd. pose proof (inv_data _ _ _ H) as Hda.
  destruct (cut_while _ test es (inv_sorted _ _ _ H) Hd) as (e1 & e2 & -> & -> & -> & Ht & Hf).
  apply Forall2_app_inv_r in Hda as (c1 & c2 & H1 & H2 & ->).
  exists c1, c2. split_and!; [done..|]. intros advance delta Hadv.
  by eapply cuts_entries.
Qed.

Lemma downward_key bound strict :
  downward (cmp_entry ck cv)
    (fun e => if strict : bool then is_le (ck e.1 bound) else is_lt (ck e.1 bound)).
Proof.
  intros x y Hxy Hy. assert (ck x.1 y.1 <> Gt) as Hk.
  { intros E. apply Hxy. unfold cmp_entry. by rewrite E. }
  destruct strict.
  - pose proof (cmp_trans x.1 y.1 bound Hk) as Ht. destruct (ck y.1 bound), (ck x.1 bound); try done; by destruct Ht.
  - destruct (ck y.1 bound) eqn:E; simplify_eq/=. by rewrite (cmp_le_lt_trans ck x.1 y.1 bound).
Qed.

(** ** Queries *)

(** The test of [lower_bound]. *)
Definition before (bound : K) (strict : bool) (e : K * V) : bool :=
  if strict then is_le (ck e.1 bound) else is_lt (ck e.1 bound).

Lemma lower_bound_index_spec self chain es bound strict :
  inv self chain es ->
  exists c1 c2, chain = c1 ++ c2 /\
    Forall2 (node_ok (shape (nodes self)) (level self)) c1 (take_while (before bound strict) es) /\
    Forall2 (node_ok (shape (nodes self)) (level self)) c2 (drop_while (before bound strict) es) /\
    lower_bound_index ck self bound strict = Some (head c2).
Proof.
  intros H. destruct (inv_cut self chain es (before bound strict) H) as (c1 & c2 & -> & H1 & H2 & Hcut).
  { apply downward_key. }
  exists c1, c2. split_and!; [done..|]. unfold lower_bound_index.
  destruct (descend_cut self c1 c2 es H
    (fun next _ => '(k, _) ← data (nodes self) next;
       Some (if strict then is_le (ck k bound) else is_lt (ck k bound)))) as (p & -> & _ & Hl).
  { apply Hcut. by intros n d [k v] ->. }
  simpl. by rewrite Hl.
Qed.

Lemma lower_bound_drop_while self es bound strict :
  repr self es ->
  lower_bound ck self bound strict = Some (head (drop_while (before bound strict) es)).
Proof.
  intros [chain H]. unfold lower_bound.
  destruct (lower_bound_index_spec self chain es bound strict H) as (c1 & c2 & _ & _ & H2 & ->).
  simpl. destruct H2 as [|n e c2 e2 Hn _]; [done|]. simpl. by erewrite data_shape.
Qed.

Lemma node_less_data ns n k v e :
  data ns n = Some e -> node_less ck cv ns n k v = Some (is_lt (cmp_entry ck cv e (k, v))).
Proof.
  intros E. unfold node_less. rewrite E. destruct e as [k' v']. unfold cmp_entry. simpl.
  by destruct (ck k' k).
Qed.

Lemma same_cmp k v e :
  same ck cv k v e = match cmp_entry ck cv e (k, v) with Eq => true | _ => false end.
Proof. unfold same, cmp_entry. destruct e as [k' v']; simpl. destruct (ck k' k), (cv v' v); done. Qed.

Lemma less_or_same k v e :
  is_lt (cmp_entry ck cv e (k, v)) || same ck cv k v e = is_le (cmp_entry ck cv e (k, v)).
Proof. unfold same, cmp_entry. destruct e as [k' v']; simpl. destruct (ck k' k), (cv v' v); done. Qed.

Lemma downward_le x : downward (cmp_entry ck cv) (fun y => is_le (cmp_entry ck cv y x)).
Proof.
  intros y z Hyz Hz. pose proof (cmp_trans y z x Hyz) as Ht.
  destruct (cmp_entry ck cv z x), (cmp_entry ck cv y x); try done; by destruct Ht.
Qed.

(** An equal entry, if there is one, is the last of those not greater. *)
Lemma sorted_mem_last x es :
  sorted (cmp_entry ck cv) es ->
  sorted_mem (cmp_entry ck cv) x es =
  match last (take_while (fun y => is_le (cmp_entry ck cv y x)) es) with
  | Some y => match cmp_entry ck cv y x with Eq => true | _ => false end
  | None => false
  end.
Proof.
  intros Hs. destruct (cut_while _ _ es Hs (downward_le x)) as (e1 & e2 & -> & -> & _ & H1 & H2).
  unfold sorted_mem. rewrite existsb_app.
  assert (existsb (fun y => match cmp_entry ck cv y x with Eq => true | _ => false end) e2 = false) as ->.
  { clear Hs. induction H2 as [|y e2 Hy _ IH]; [done|]. simpl. rewrite IH.
    by destruct (cmp_entry ck cv y x). }
  rewrite orb_false_r. induction e1 as [|y e1 _] using rev_ind; [done|].
  rewrite last_snoc, existsb_app. simpl. rewrite orb_false_r.
  destruct (cmp_entry ck cv y x) eqn:E; simpl; [by rewrite orb_true_r| |].
  - rewrite orb_false_r. apply not_true_is_false. intros (z & Hz & Ez)%existsb_exists.
    apply list_elem_of_In in Hz.
    rewrite <- app_assoc in Hs. apply sorted_app in Hs as (_ & _ & Ha).
    specialize (Ha z y Hz ltac:(set_solver)).
    destruct (cmp_entry ck cv z x) eqn:Ezx; try done.
    apply (cmp_trans x z y) in Ha; [|by rewrite (cmp_flip z x), Ezx].
    by rewrite (cmp_flip y x), E in Ha.
  - apply Forall_app in H1 as [_ H1]. apply Forall_cons in H1 as [H1 _]. by rewrite E in H1.
Qed.

(** The last node before the cut holds the last entry before the cut. *)
Lemma last_data ns lvl c1 e1 :
  Forall2 (node_ok (shape ns) lvl) c1 e1 ->
  match last c1, last e1 with
  | Some n, Some e => node_ok (shape ns) lvl n e
  | None, None => True
  | _, _ => False
  end.
Proof.
  intros H. induction c1 as [|n c1 _] using rev_ind.
  - apply Forall2_nil_inv_l in H. by subst.
  - apply Forall2_app_inv_l in H as (ea & eb & _ & Hb & ->).
    apply Forall2_cons_inv_l in Hb as (e & e' & Hn & ->%Forall2_nil_inv_l & ->).
    by rewrite !last_snoc.
Qed.

Lemma rank_take_while self es k v :
  repr self es ->
  let le := take_while (fun e => is_le (cmp_entry ck cv e (k, v))) es in
  rank ck cv self k v =
    Some (if sorted_mem (cmp_entry ck cv) (k, v) es then Some (zlen le - 1) else None).
Proof.
  intros [chain H]. simpl.
  destruct (inv_cut self chain es _ H (downward_le (k, v))) as (c1 & c2 & -> & H1 & H2 & Hcut).
  rewrite (sorted_mem_last _ _ (inv_sorted _ _ _ H)).
  unfold rank.
  destruct (descend_cut self c1 c2 es H
    (fun next _ => e ← data (nodes self) next;
       less ← node_less ck cv (nodes self) next k v;
       Some (less || same ck cv k v e))) as (p & -> & -> & _).
  { apply Hcut. intros n _ e E. rewrite E. simpl. rewrite (node_less_data _ _ _ _ e E). simpl.
    by rewrite less_or_same. }
  simpl. apply last_data in H1 as Hlast. pose proof (inv_nodup _ _ _ H) as Hnd.
  assert (length c1 = length (take_while (fun e => is_le (cmp_entry ck cv e (k, v))) es)) as Hlen
    by by eapply Forall2_length.
  destruct (last c1) as [n|] eqn:En, (last (take_while _ es)) as [e|] eqn:Ee; simpl; try done.
  destruct (Nat.eqb_spec n 0) as [->|Hn].
  { apply NoDup_cons in Hnd as [Hnd _]. destruct Hnd. apply elem_of_app. left.
    apply last_Some_elem_of in En. done. }
  erewrite data_shape by done. simpl. rewrite <- same_cmp.
  rewrite checked_sub_Some.
  2: { destruct c1; [done|]. zlia. }
  unfold zlen. rewrite Hlen. by destruct (same _ _ _ _ _).
Qed.

Lemma rank_descend_spec self c1 c2 es index pre cur r :
  inv self (c1 ++ c2) es -> c1 <> [] -> (1 <= index <= level self)%nat ->
  0%nat :: c1 = pre ++ cur :: r -> (index <= height (shape (nodes self)) cur)%nat ->
  rank_descend index (nodes self) (zlen c1) cur (zlen pre) =
    Some (es !! (length c1 - 1)%nat).
Proof.
  intros H Hne. revert pre cur r. induction index as [|index IH]; [lia|].
  intros pre cur r Hi Hc Hcur. simpl.
  destruct (walk_cut self c1 c2 es H (fun _ d => Some (negb (zlen c1 <? d))) index 0 pre cur r)
    as (p & pos & Hw & Hp); [lia| |done|lia|].
  { intros a n b _. f_equal. destruct (Z.ltb_spec (zlen c1) (zlen a + 1 + 0)), (Z.ltb_spec (zlen a) (zlen c1)); simpl; lia. }
  rewrite !Z.add_0_r in Hw. rewrite Hw. simpl.
  destruct (Z.eqb_spec pos (zlen c1)) as [->|Hpos].
  - destruct Hp as (pre' & r' & Hc' & _ & _ & Hlen).
    assert (r' = []) as ->. { apply zlen_0. apply (f_equal zlen) in Hc'. zlia. }
    destruct pre' as [|z pre']; injection Hc' as <- Hc'; [done|].
    pose proof (inv_data _ _ _ H) as Hd. subst c1. rewrite <- app_assoc in Hd.
    apply Forall2_app_inv_l in Hd as (ea & eb & Ha & Hb & ->).
    apply Forall2_cons_inv_l in Hb as (e & eb' & Hn & _ & ->).
    erewrite data_shape by done. simpl.
    apply Forall2_length in Ha. rewrite length_app. simpl.
    by rewrite list_lookup_middle by lia.
  - destruct Hp as (pre' & r' & Hc' & Hp & Hr & ->). destruct index as [|index].
    + destruct (pred_0 self c1 c2 es H p (zlen pre')) as (? & _ & _); [by exists pre', r'|done].
    + apply (IH pre' p r'); [lia|done|lia].
Qed.

Lemma get_by_rank_lookup self es r :
  repr self es -> 0 <= r -> get_by_rank self r = Some (es !! Z.to_nat r).
Proof.
  intros [chain H] Hr. unfold get_by_rank. rewrite (inv_len _ _ _ H).
  destruct (Z.leb_spec (zlen es) r) as [Hle|Hlt].
  { rewrite lookup_ge_None_2; [done|]. unfold zlen in Hle. lia. }
  assert (length chain = length es) as Hlen by (eapply Forall2_length, (inv_data _ _ _ H)).
  set (m := S (Z.to_nat r)).
  rewrite <- (take_drop m chain) in H.
  assert (length (take m chain) = m) as Hm.
  { rewrite length_take. unfold zlen in Hlt. lia. }
  replace (r + 1) with (zlen (take m chain)) by (unfold zlen; lia).
  pose proof (inv_level _ _ _ H). change 0 with (zlen (@nil nat)) at 1.
  rewrite (rank_descend_spec self (take m chain) (drop m chain) es (level self) [] 0 (take m chain) H);
    [|by destruct (take m chain)|lia|done|].
  - rewrite Hm. do 2 f_equal. lia.
  - rewrite (height_header _ _ _ H). lia.
Qed.

(** *** Range queries *)

Definition in_range (o : RangeOptions K) (e : K * V) : bool :=
  if reverse o then in_lower ck o e.1 else in_upper ck o e.1.

(** The loop of a range query, along a list of nodes that the links it follows
    run through. *)
Lemma range_loop_spec self o l es fuel off rem out :
  (forall a n b, l = a ++ n :: b ->
    (if reverse o then node ← nodes self !! n; Some (backward node)
     else x ← level_at (nodes self) n 0; Some (forward x)) = Some (head b)) ->
  Forall2 (fun n e => data (nodes self) n = Some e) l es ->
  (length l <= fuel)%nat ->
  range_loop ck fuel self o off rem (head l) out =
    Some (out ++ take (Z.to_nat rem) (drop (Z.to_nat off) (take_while (in_range o) es))).
Proof.
  intros Hnext Hd. revert fuel off rem out Hnext.
  induction Hd as [|n e l es Hn _ IH]; intros fuel off rem out Hnext Hf; simpl.
  { rewrite drop_nil, take_nil, app_nil_r. by destruct fuel. }
  destruct fuel as [|fuel]; simpl in *; [lia|]. rewrite Hn. simpl.
  rewrite (Hnext [] n l) by done. change (if reverse o then _ else _) with (in_range o e).
  destruct (in_range o e); simpl; [|by rewrite drop_nil, take_nil, app_nil_r].
  assert (forall a m b, l = a ++ m :: b ->
    (if reverse o then node ← nodes self !! m; Some (backward node)
     else x ← level_at (nodes self) m 0; Some (forward x)) = Some (head b)) as Hnext'.
  { intros a m b ->. by apply (Hnext (n :: a)). }
  destruct (Z.ltb_spec 0 off).
  - rewrite IH by (done || lia). by replace (Z.to_nat off) with (S (Z.to_nat (off - 1))) by lia.
  - replace (Z.to_nat off) with 0%nat in * by lia. destruct (Z.ltb_spec 0 rem).
    + rewrite IH by (done || lia). replace (Z.to_nat rem) with (S (Z.to_nat (rem - 1))) by lia.
      replace (Z.to_nat off) with 0%nat by lia. rewrite !drop_0. simpl. by rewrite <- app_assoc.
    + replace (Z.to_nat rem) with 0%nat by lia. by rewrite app_nil_r.
Qed.

(** The two ways through the chain. *)
Lemma forward_links self c1 c2 es a n b :
  inv self (c1 ++ c2) es -> c2 = a ++ n :: b ->
  (x ← level_at (nodes self) n 0; Some (forward x)) = Some (head b).
Proof.
  intros H ->. pose proof (inv_level _ _ _ H). pose proof (inv_heights _ _ _ H) as Hh.
  apply Forall_app in Hh as [_ Hh]. apply Forall_app in Hh as [_ Hh].
  apply Forall_cons in Hh as [Hn Hb].
  assert (level_at (nodes self) n 0 = Some (next_level (height (shape (nodes self))) 0 b)) as ->.
  { apply level_at_column, (inv_cols _ _ _ H 0%nat ltac:(lia) (0%nat :: c1 ++ a)); [|lia].
    simpl. by rewrite app_assoc. }
  destruct b as [|m b]; [done|]. apply Forall_cons in Hb as [Hm _].
  by rewrite next_level_tall by lia.
Qed.

Lemma backward_links self chain es c1 c2 a n b :
  inv self chain es -> chain = c1 ++ c2 -> rev c1 = a ++ n :: b ->
  (node ← nodes self !! n; Some (backward node)) = Some (head b).
Proof.
  intros H -> Hc. apply (f_equal (@rev _)) in Hc. rewrite rev_involutive, rev_app_distr in Hc.
  simpl in Hc. subst c1. destruct (backs_backward (nodes self) n (last (rev b))) as (nd & -> & Hnd).
  - apply (inv_backs _ _ _ H (rev b) n (rev a ++ c2)). by rewrite <- !app_assoc.
  - simpl. rewrite Hnd. f_equal. destruct b as [|m b]; [done|]. simpl. by rewrite last_snoc.
Qed.

Lemma node_data ns lvl c e :
  Forall2 (node_ok (shape ns) lvl) c e -> Forall2 (fun n e => data ns n = Some e) c e.
Proof. intros H. eapply Forall2_impl; [done|]. intros n x. apply data_shape. Qed.

Lemma downward_in_upper o : downward (cmp_entry ck cv) (fun e => in_upper ck o e.1).
Proof.
  intros x y Hxy. unfold in_upper, bounded. rewrite !andb_true_iff.
  intros [H1 H2]. split.
  - destruct (lte o) as [b|]; [|done]. by apply (downward_key b true x y).
  - destruct (lt o) as [b|]; [|done]. by apply (downward_key b false x y).
Qed.

Lemma upward_in_lower o x y :
  cmp_entry ck cv x y <> Gt -> in_lower ck o x.1 = true -> in_lower ck o y.1 = true.
Proof.
  intros Hxy. unfold in_lower, bounded. rewrite !andb_true_iff. intros [H1 H2]. split.
  - destruct (gte o) as [b|]; [|done]. pose proof (downward_key b false x y Hxy) as Hd. simpl in Hd.
    destruct (ck y.1 b), (ck x.1 b); try done; by specialize (Hd eq_refl).
  - destruct (gt o) as [b|]; [|done]. pose proof (downward_key b true x y Hxy) as Hd. simpl in Hd.
    destruct (ck y.1 b), (ck x.1 b); try done; by specialize (Hd eq_refl).
Qed.

(** The first entry of a forward query, the last before a reverse one. *)
Lemma from_start_before o e :
  from_start ck o e.1 =
  match gte o, gt o with
  | Some b, _ => negb (before b false e)
  | None, Some b => negb (before b true e)
  | None, None => true
  end.
Proof.
  unfold from_start, before, bounded. destruct (gte o) as [b|], (gt o) as [b'|]; try done;
    by destruct (ck e.1 _).
Qed.

Lemma from_end_before o e :
  from_end ck o e.1 =
  match lte o, lt o with
  | Some b, _ => before b true e
  | None, Some b => before b false e
  | None, None => true
  end.
Proof. unfold from_end, before, bounded. by destruct (lte o) as [b|], (lt o) as [b'|]. Qed.

(** Where a query starts: at the head of a list of nodes that it follows and
    that holds the entries on its side of the bound, in the order visited. *)
Lemma range_start_forward self chain es o :
  inv self chain es -> reverse o = false ->
  exists c1 c2, chain = c1 ++ c2 /\ range_start ck self o = Some (head c2) /\
    Forall2 (node_ok (shape (nodes self)) (level self)) c2
      (filter (fun e => from_start ck o e.1 = true) es).
Proof.
  intros H Hrev. unfold range_start. rewrite Hrev.
  assert (forall b strict, (forall e, from_start ck o e.1 = negb (before b strict e)) ->
    exists c1 c2, chain = c1 ++ c2 /\ lower_bound_index ck self b strict = Some (head c2) /\
      Forall2 (node_ok (shape (nodes self)) (level self)) c2
        (filter (fun e => from_start ck o e.1 = true) es)) as Hb.
  { intros b strict Hb. destruct (lower_bound_index_spec self chain es b strict H) as (c1&c2&Hc&_&H2&El).
    exists c1, c2. split_and!; [done..|].
    rewrite <- (filter_drop_while (cmp_entry ck cv)) in H2
      by (apply (inv_sorted _ _ _ H) || apply downward_key).
    erewrite list_filter_iff; [exact H2|]. intros e. rewrite Hb. apply negb_true_iff. }
  pose proof (from_start_before o) as Hfs.
  destruct (gte o) as [b|]; [by apply Hb|]. destruct (gt o) as [b|]; [by apply Hb|].
  exists [], chain. split; [done|]. split.
  - destruct (descend_cut self [] chain es H (fun _ _ => Some false)) as (p & _ & -> & Hl).
    { intros a n b _. f_equal. destruct (Z.ltb_spec (zlen a) (zlen (@nil nat))); [zlia|done]. }
    simpl in Hl. by rewrite Hl.
  - rewrite filter_true; [apply (inv_data _ _ _ H)|]. intros e _. by rewrite Hfs.
Qed.

Lemma range_start_reverse self chain es o :
  inv self chain es -> reverse o = true ->
  exists c1 c2, chain = c1 ++ c2 /\ range_start ck self o = Some (last c1) /\
    Forall2 (node_ok (shape (nodes self)) (level self)) c1
      (filter (fun e => from_end ck o e.1 = true) es).
Proof.
  intros H Hrev. unfold range_start. rewrite Hrev.
  assert (forall b strict, (forall e, from_end ck o e.1 = before b strict e) ->
    exists c1 c2, chain = c1 ++ c2 /\
      (index ← lower_bound_index ck self b strict;
       match index with
       | Some index =>
           node ← nodes self !! index;
           match backward node with Some b => Some (Some b) | None => Some None end
       | None => Some (tail self)
       end) = Some (last c1) /\
      Forall2 (node_ok (shape (nodes self)) (level self)) c1
        (filter (fun e => from_end ck o e.1 = true) es)) as Hb.
  { intros b strict Hb. destruct (lower_bound_index_spec self chain es b strict H) as (c1&c2&->&H1&_&->).
    exists c1, c2. split; [done|]. split.
    - destruct c2 as [|n c2]; simpl; [by rewrite (inv_tail _ _ _ H), app_nil_r|].
      destruct (backs_backward (nodes self) n (last c1)) as (nd & -> & Hnd).
      { by apply (inv_backs _ _ _ H c1 n c2). }
      simpl. rewrite Hnd. by destruct (last c1).
    - rewrite <- (filter_take_while (cmp_entry ck cv)) in H1
        by (apply (inv_sorted _ _ _ H) || apply downward_key).
      erewrite list_filter_iff; [exact H1|]. intros e. by rewrite Hb. }
  pose proof (from_end_before o) as Hfe.
  destruct (lte o) as [b|]; [by apply Hb|]. destruct (lt o) as [b|]; [by apply Hb|].
  exists chain, []. rewrite app_nil_r. split_and!; [done|by rewrite (inv_tail _ _ _ H)|].
  rewrite filter_true; [apply (inv_data _ _ _ H)|]. intros e _. by rewrite Hfe.
Qed.

Lemma head_rev {A} (l : list A) : head (rev l) = last l.
Proof.
  induction l as [|x l _] using rev_ind; [done|]. by rewrite rev_app_distr, last_snoc.
Qed.

Lemma Forall2_rev {A B} (P : A -> B -> Prop) l k : Forall2 P l k -> Forall2 P (rev l) (rev k).
Proof. induction 1; simpl; [done|]. by apply Forall2_app; [|constructor]. Qed.

Lemma filter_rev {A} (P : A -> Prop) `{!forall x, Decision (P x)} (l : list A) :
  filter P (rev l) = rev (filter P l).
Proof. rewrite !rev_alt. apply (filter_reverse P l). Qed.

Lemma sorted_filter (P : K * V -> Prop) `{!forall x, Decision (P x)} (es : list (K * V)) :
  sorted (cmp_entry ck cv) es -> sorted (cmp_entry ck cv) (filter P es).
Proof.
  unfold sorted. induction 1 as [|e es Hs IH He]; [constructor|].
  rewrite filter_cons. case_decide; [|done]. constructor; [done|].
  rewrite Forall_forall in He |- *. intros x [_ Hx]%list_elem_of_filter. by apply He.
Qed.

Lemma filter_andb (p q : K * V -> bool) (es : list (K * V)) :
  filter (fun e => q e = true) (filter (fun e => p e = true) es) =
  filter (fun e => p e && q e = true) es.
Proof.
  rewrite list_filter_filter. apply list_filter_iff. intros e. rewrite andb_true_iff. tauto.
Qed.

Lemma range_entries self es o :
  repr self es -> range ck o self = Some (range_spec ck o es).
Proof.
  intros [chain H]. unfold range, range_spec, page.
  pose proof (inv_fuel _ _ _ H) as Hfuel.
  destruct (reverse o) eqn:Hrev.
  - destruct (range_start_reverse self chain es o H Hrev) as (c1 & c2 & Hc & -> & H1).
    simpl. rewrite <- head_rev, (range_loop_spec self o (rev c1) (rev (filter (fun e => from_end ck o e.1 = true) es))).
    + simpl. do 3 f_equal. unfold in_range, in_bounds. rewrite Hrev.
      rewrite <- (filter_take_while (fun x y => cmp_entry ck cv y x)).
      * rewrite filter_rev. f_equal. apply filter_andb.
      * apply sorted_rev, sorted_filter. apply (inv_sorted _ _ _ H).
      * intros x y. apply upward_in_lower.
    + intros a n b. rewrite Hrev. by eapply backward_links.
    + apply Forall2_rev. by eapply node_data.
    + rewrite length_rev. subst chain. rewrite length_app in Hfuel. lia.
  - destruct (range_start_forward self chain es o H Hrev) as (c1 & c2 & -> & -> & H2).
    simpl. rewrite (range_loop_spec self o c2 (filter (fun e => from_start ck o e.1 = true) es)).
    + simpl. do 3 f_equal. unfold in_range, in_bounds. rewrite Hrev.
      rewrite <- (filter_take_while (cmp_entry ck cv)); [apply filter_andb| |apply downward_in_upper].
      apply sorted_filter. apply (inv_sorted _ _ _ H).
    + intros a n b. rewrite Hrev. by eapply forward_links.
    + by eapply node_data.
    + rewrite length_app in Hfuel. lia.
Qed.

(** ** Insertion *)

(** For each level from [lo] to [hi] the recorded node is the last tall enough
    one of [c], with its position. *)
Definition preds (hs : nat -> nat) (c : list nat) (lo hi : nat) (update : list nat)
    (rank : list Z) : Prop :=
  length update = MAX_LEVEL /\ length rank = MAX_LEVEL /\
  forall i, (lo <= i < hi)%nat -> exists p pos,
    update !! i = Some p /\ rank !! i = Some pos /\ is_pred hs i c p pos.

Lemma preds_insert hs c lo hi update rank p pos :
  preds hs c (S lo) hi update rank -> (lo < MAX_LEVEL)%nat -> is_pred hs lo c p pos ->
  preds hs c lo hi (<[lo := p]> update) (<[lo := pos]> rank).
Proof.
  intros (Hu & Hr & Hp) Hlo Hpred. split_and!; [by rewrite length_insert..|].
  intros i Hi. destruct (decide (i = lo)) as [->|Hne].
  - exists p, pos. rewrite !list_lookup_insert_eq by lia. done.
  - rewrite !list_lookup_insert_ne by done. apply Hp. lia.
Qed.

Lemma preds_insert_top hs c lo hi update rank p pos :
  preds hs c lo hi update rank -> (hi < MAX_LEVEL)%nat -> is_pred hs hi c p pos ->
  preds hs c lo (S hi) (<[hi := p]> update) (<[hi := pos]> rank).
Proof.
  intros (Hu & Hr & Hp) Hlo Hpred. split_and!; [by rewrite length_insert..|].
  intros i Hi. destruct (decide (i = hi)) as [->|Hne].
  - exists p, pos. rewrite !list_lookup_insert_eq by lia. done.
  - rewrite !list_lookup_insert_ne by done. apply Hp. lia.
Qed.

Lemma insert_descend_spec self c1 c2 es k v index pre cur r update rank :
  inv self (c1 ++ c2) es ->
  cuts (fun next _ => node_less ck cv (nodes self) next k v) c1 c2 0 ->
  (index <= level self)%nat ->
  0%nat :: c1 = pre ++ cur :: r -> (index <= height (shape (nodes self)) cur)%nat ->
  (if decide (index = level self) then zlen pre = 0 else rank !! index = Some (zlen pre)) ->
  preds (height (shape (nodes self))) (0%nat :: c1) index (level self) update rank ->
  exists p update' rank',
    insert_descend ck cv index self k v cur update rank = Some (p, update', rank') /\
    preds (height (shape (nodes self))) (0%nat :: c1) 0 (level self) update' rank'.
Proof.
  intros H Hcut. revert pre cur r update rank.
  induction index as [|index IH]; intros pre cur r update rank Hi Hc Hcur Hstart Hpreds; simpl.
  { by exists cur, update, rank. }
  pose proof (inv_level _ _ _ H).
  assert ((if (index =? level self - 1)%nat then Some 0 else rank !! (index + 1)%nat) = Some (zlen pre)) as ->.
  { replace (index + 1)%nat with (S index) by lia.
    destruct (Nat.eqb_spec index (level self - 1)); case_decide; try lia; [by rewrite Hstart|done]. }
  simpl.
  destruct (walk_cut self c1 c2 es H _ index 0 pre cur r ltac:(lia) Hcut Hc ltac:(lia))
    as (p & pos & Hw & Hp).
  rewrite !Z.add_0_r in Hw. rewrite Hw. simpl.
  destruct (Hp) as (pre' & r' & Hc' & Hp' & _ & ->).
  apply (IH pre' p r'); [lia|done|lia| |].
  - rewrite decide_False by lia. apply list_lookup_insert_eq.
    destruct Hpreds as (_ & -> & _). lia.
  - apply preds_insert; [done|lia|done].
Qed.

(** Raising the level of the list. *)
Definition with_level (self : SkipList K V) (ns : list (Node K V)) (lvl : nat) : SkipList K V :=
  mk_SkipList ns (tail self) (len self) lvl (random_state self).

Lemma raise_level_inv self chain c1 es update rank :
  inv self chain es -> (level self < MAX_LEVEL)%nat ->
  preds (height (shape (nodes self))) (0%nat :: c1) 0 (level self) update rank ->
  (forall n, n ∈ c1 -> n ∈ chain) ->
  exists ns update' rank',
    raise_level (len self) (nodes self, update, rank) (level self) = Some (ns, update', rank') /\
    shape ns = shape (nodes self) /\
    inv (with_level self ns (S (level self))) chain es /\
    preds (height (shape ns)) (0%nat :: c1) 0 (S (level self)) update' rank'.
Proof.
  intros H Hlvl Hpreds Hin. set (i := level self). pose proof (height_header _ _ _ H) as H0.
  destruct (inv_top _ _ _ H i) as [d Hd]; [lia|].
  destruct (set_level_spec (nodes self) 0 i (mk_Level None (len self))) as (ns & Hset & Hsh & Hbk & Hcol & Hother);
    [lia|].
  assert (forall n, n ∈ chain -> short (height (shape (nodes self))) i n) as Hshort.
  { intros n Hn. pose proof (inv_heights _ _ _ H) as Hh. rewrite Forall_forall in Hh.
    unfold short. specialize (Hh n Hn). lia. }
  assert (length chain = length es) as Hlen by (eapply Forall2_length, (inv_data _ _ _ H)).
  exists ns, (<[i := 0%nat]> update), (<[i := 0]> rank).
  split_and!; [|done| |].
  - unfold raise_level. apply level_at_column in Hd. rewrite Hd. simpl. by rewrite Hset.
  - destruct H as [Hnd Hl Hh Hdata Hcols Htop Hbacks Htail Hlen' Hs Hb].
    split; simpl; rewrite ?Hsh, ?Hbk; try done; [lia| | |].
    + eapply Forall2_impl; [exact Hdata|]. intros n e (h & ? & ?). exists h. split; [done|lia].
    + intros j Hj. destruct (decide (j = i)) as [->|Hne]; [|rewrite Hother by done; apply Hcols; lia].
      rewrite Hcol. intros pre a rest Heq Ha.
      destruct pre as [|z pre]; injection Heq as Hz Heq; subst.
      * rewrite list_lookup_insert_eq by (by eapply lookup_lt_Some).
        rewrite next_level_all_short; [|by apply Forall_forall]. do 3 f_equal. unfold zlen in *. lia.
      * specialize (Hshort a ltac:(set_solver)). unfold short in Hshort. lia.
    + intros j Hj. rewrite Hother by lia. apply Htop. lia.
  - rewrite Hsh. apply preds_insert_top; [done|lia|]. exists [], c1.
    split_and!; [done|lia| |done]. apply Forall_forall. auto.
Qed.

Lemma raise_spec m self chain c1 es update rank :
  inv self chain es -> (level self + m <= MAX_LEVEL)%nat ->
  preds (height (shape (nodes self))) (0%nat :: c1) 0 (level self) update rank ->
  (forall n, n ∈ c1 -> n ∈ chain) ->
  exists ns update' rank',
    foldM (raise_level (len self)) (nodes self, update, rank) (seq (level self) m) =
      Some (ns, update', rank') /\
    shape ns = shape (nodes self) /\
    inv (with_level self ns (level self + m)) chain es /\
    preds (height (shape ns)) (0%nat :: c1) 0 (level self + m) update' rank'.
Proof.
  revert self update rank. induction m as [|m IH]; intros self update rank H Hm Hp Hin.
  - exists (nodes self), update, rank. rewrite Nat.add_0_r. split_and!; try done.
    by destruct self.
  - destruct (raise_level_inv self chain c1 es update rank H) as (ns & u1 & r1 & Hr & Hsh & H1 & Hp1);
      [lia|done..|].
    cbn [seq foldM]. rewrite Hr. simpl_bind.
    destruct (IH (with_level self ns (S (level self))) u1 r1 H1) as (ns2 & u2 & r2 & Hr2 & Hsh2 & H2 & Hp2);
      [simpl; lia|done..|].
    exists ns2, u2, r2. simpl in *. rewrite Hr2. rewrite Nat.add_succ_r.
    split_and!; [done|congruence|done|done].
Qed.

Section splice.
Context (sh : list (option K * option V * nat)) (c1 c2 : list nat) (idx : nat).
Context (update : list nat) (rank : list Z) (lvl : nat).
Context (Hnd : NoDup (0%nat :: c1 ++ idx :: c2)).
Context (Hpreds : preds (height sh) (0%nat :: c1) 0 lvl update rank).
Context (Hrank0 : rank !! 0%nat = Some (zlen c1)).

Lemma col_at_pred ns j p pos :
  shape ns = sh -> is_pred (height sh) j (0%nat :: c1) p pos ->
  col_ok (height sh) (c1 ++ c2) j (column ns j) ->
  exists pre r, 0%nat :: c1 = pre ++ p :: r /\ (j < height sh p)%nat /\
    Forall (short (height sh) j) r /\ zlen c1 = pos + zlen r /\
    level_at ns p j = Some (next_level (height sh) j (r ++ c2)) /\ p <> idx /\ (p ∉ c2).
Proof.
  intros Hsh (pre & r & Hc & Hp & Hr & ->) Hcol. exists pre, r.
  split_and!; [done..| | | |].
  - apply (f_equal zlen) in Hc. zlia.
  - apply level_at_column, (Hcol pre); [|done].
    change (0%nat :: c1 ++ c2) with ((0%nat :: c1) ++ c2). by rewrite Hc, <- app_assoc.
  - intros ->. rewrite app_comm_cons, Hc in Hnd. rewrite <- app_assoc in Hnd.
    apply NoDup_app in Hnd as (_ & _ & Hn). simpl in Hn. apply NoDup_cons in Hn as [Hn _]. set_solver.
  - intros Hin. rewrite app_comm_cons, Hc in Hnd. rewrite <- app_assoc in Hnd.
    apply NoDup_app in Hnd as (_ & _ & Hn). simpl in Hn. apply NoDup_cons in Hn as [Hn _]. set_solver.
Qed.

Lemma idx_fresh : (idx ∉ (0%nat :: c1)) /\ (idx ∉ c2) /\ NoDup (0%nat :: c1).
Proof.
  rewrite app_comm_cons in Hnd. apply NoDup_app in Hnd as (H1 & H2 & H3).
  apply NoDup_cons in H3 as [H3 _]. split_and!; [|done..]. intros Hin. apply (H2 idx Hin). set_solver.
Qed.

Lemma splice_level_spec ns j :
  (j < lvl)%nat -> (j < height sh idx)%nat -> shape ns = sh ->
  col_ok (height sh) (c1 ++ c2) j (column ns j) ->
  exists ns', splice_level update rank idx ns j = Some ns' /\
    shape ns' = sh /\ backs ns' = backs ns /\
    col_ok (height sh) (c1 ++ idx :: c2) j (column ns' j) /\
    (forall i, i <> j -> column ns' i = column ns i).
Proof.
  intros Hj Hidx Hsh Hcol. destruct Hpreds as (_ & _ & Hp).
  destruct (Hp j) as (p & pos & Hu & Hr & Hpred); [lia|].
  destruct (col_at_pred ns j p pos Hsh Hpred Hcol) as (pre & r & Hc & Hpj & Hshort & Hlen & Hl & Hne & Hpc2).
  destruct idx_fresh as (Hi1 & Hi2 & Hnd1).
  unfold splice_level. rewrite Hu, Hr, Hrank0. simpl. rewrite Hl. simpl.
  rewrite checked_sub_Some by zlia. simpl.
  replace (zlen c1 - pos) with (zlen r) by lia.
  rewrite next_level_app by done. simpl.
  pose proof (next_level_span (height sh) j c2).
  replace (saturating_sub _ _) with (span (next_level (height sh) j c2)) by (unfold saturating_sub; lia).
  destruct (set_level_spec ns idx j (mk_Level (forward (next_level (height sh) j c2))
    (span (next_level (height sh) j c2)))) as (ns1 & -> & Hsh1 & Hbk1 & Hcol1 & Ho1); [by rewrite Hsh|].
  simpl. destruct (set_level_spec ns1 p j (mk_Level (Some idx) (zlen r + 1)))
    as (ns2 & -> & Hsh2 & Hbk2 & Hcol2 & Ho2); [by rewrite Hsh1, Hsh|].
  exists ns2. split_and!; [done|congruence..| |].
  2: { intros i Hi. by rewrite Ho2, Ho1. }
  rewrite Hcol2, Hcol1.
  destruct (column_tall ns p j) as [lp Hlp]; [by rewrite Hsh|].
  destruct (column_tall ns idx j) as [li Hli]; [by rewrite Hsh|].
  apply lookup_lt_Some in Hlp, Hli.
  eapply col_ok_replace; [exact Hcol|done|exact Hc|done|done| | |].
  - rewrite list_lookup_insert_eq by (by rewrite length_insert).
    rewrite next_level_app, next_level_tall by done. simpl. do 3 f_equal. lia.
  - intros a Ha Hap. rewrite !list_lookup_insert_ne; [done|by intros ->|done].
  - intros [|z q] a rest Heq Ha; injection Heq as Hz Heq; subst.
    + rewrite list_lookup_insert_ne, list_lookup_insert_eq by done.
      by destruct (next_level (height (shape ns)) j rest).
    + rewrite !list_lookup_insert_ne; [|set_solver..].
      apply (Hcol (0%nat :: c1 ++ q)); [|done]. simpl. by rewrite <- app_assoc.
Qed.

Lemma widen_level_spec ns j :
  (j < lvl)%nat -> short (height sh) j idx -> shape ns = sh ->
  col_ok (height sh) (c1 ++ c2) j (column ns j) ->
  exists ns', widen_level update ns j = Some ns' /\
    shape ns' = sh /\ backs ns' = backs ns /\
    col_ok (height sh) (c1 ++ idx :: c2) j (column ns' j) /\
    (forall i, i <> j -> column ns' i = column ns i).
Proof.
  intros Hj Hidx Hsh Hcol. destruct Hpreds as (_ & _ & Hp).
  destruct (Hp j) as (p & pos & Hu & Hr & Hpred); [lia|].
  destruct (col_at_pred ns j p pos Hsh Hpred Hcol) as (pre & r & Hc & Hpj & Hshort & Hlen & Hl & Hne & Hpc2).
  destruct idx_fresh as (Hi1 & Hi2 & Hnd1).
  unfold widen_level. rewrite Hu. simpl. rewrite Hl. simpl.
  rewrite next_level_app by done. simpl.
  destruct (set_level_spec ns p j (mk_Level (forward (next_level (height sh) j c2))
    (span (next_level (height sh) j c2) + zlen r + 1))) as (ns1 & -> & Hsh1 & Hbk1 & Hcol1 & Ho1); [by rewrite Hsh|].
  exists ns1. split_and!; [done|congruence..| |done].
  rewrite Hcol1. destruct (column_tall ns p j) as [lp Hlp]; [by rewrite Hsh|].
  apply lookup_lt_Some in Hlp.
  eapply col_ok_replace; [exact Hcol|done|exact Hc|done|done| | |].
  - rewrite list_lookup_insert_eq by done.
    rewrite next_level_app, next_level_short by done. simpl. do 3 f_equal. lia.
  - intros a Ha Hap. by rewrite list_lookup_insert_ne.
  - intros [|z q] a rest Heq Ha; injection Heq as Hz Heq; subst.
    + unfold short in Hidx. lia.
    + rewrite list_lookup_insert_ne by set_solver.
      apply (Hcol (0%nat :: c1 ++ q)); [|done]. simpl. by rewrite <- app_assoc.
Qed.
End splice.

(** Backward links when a node is put between two parts of the chain. *)
Lemma backs_ok_insert bk c1 c2 idx bk' :
  backs_ok bk (c1 ++ c2) ->
  bk' !! idx = Some (last c1) ->
  (forall n, n ∈ c1 -> bk' !! n = bk !! n) ->
  (forall n r, c2 = n :: r -> bk' !! n = Some (Some idx) /\ forall m, m ∈ r -> bk' !! m = bk !! m) ->
  backs_ok bk' (c1 ++ idx :: c2).
Proof.
  intros Hbk Hidx H1 H2 pre n rest Heq.
  apply app_cut in Heq as [(r & -> & ->)|(q & -> & Heq)].
  - rewrite H1 by set_solver. apply (Hbk pre n (r ++ c2)). by rewrite <- app_assoc.
  - destruct q as [|z q]; injection Heq as <- Heq; [by rewrite app_nil_r|].
    destruct q as [|y q]; simpl in Heq.
    + destruct (H2 n rest Heq) as [-> _]. by rewrite last_snoc.
    + subst c2. destruct (H2 y (q ++ n :: rest) eq_refl) as [_ ->]; [|set_solver].
      rewrite (Hbk (c1 ++ y :: q) n rest) by (by rewrite <- app_assoc).
      f_equal. rewrite !last_app. done.
Qed.

(** The new node in the arena, not linked yet. *)
Lemma push_views ns k v h :
  shape (ns ++ [Node_new k v h]) = shape ns ++ [(Some k, Some v, h)] /\
  backs (ns ++ [Node_new k v h]) = backs ns ++ [None] /\
  forall j, column (ns ++ [Node_new k v h]) j = column ns j ++ [replicate h (mk_Level None 0) !! j].
Proof.
  unfold shape, backs, column, Node_new.
  rewrite !fmap_app. simpl. rewrite length_replicate. split_and!; [done..|].
  intros j. by rewrite fmap_app.
Qed.

Lemma height_push sh x n : (n < length sh)%nat -> height (sh ++ [x]) n = height sh n.
Proof. intros. unfold height. by rewrite lookup_app_l. Qed.

Lemma col_ok_push hs hs' chain j c x :
  Forall (fun n => n < length c /\ hs' n = hs n)%nat (0%nat :: chain) ->
  col_ok hs chain j c -> col_ok hs' chain j (c ++ [x]).
Proof.
  intros Hb Hcol pre a rest Heq Ha. rewrite Heq in Hb. apply Forall_app in Hb as [_ Hb].
  apply Forall_cons in Hb as [[Hlt Hh] Hb]. rewrite lookup_app_l by done.
  rewrite Hh in Ha. rewrite (Hcol pre a rest Heq Ha). do 2 f_equal.
  apply next_level_ext. eapply Forall_impl; [exact Hb|]. by intros n [_ ->].
Qed.

Lemma is_pred_ext hs hs' i c p pos :
  Forall (fun n => hs' n = hs n) c -> is_pred hs i c p pos -> is_pred hs' i c p pos.
Proof.
  intros Hb (pre & r & -> & Hp & Hr & ->). apply Forall_app in Hb as [_ Hb].
  apply Forall_cons in Hb as [Hp' Hb]. exists pre, r.
  split_and!; [done|by rewrite Hp'| |done].
  apply Forall_forall. intros n Hn. rewrite Forall_forall in Hb, Hr.
  unfold short. rewrite (Hb n Hn). by apply Hr.
Qed.

(** What insertion knows once the new node is in the arena. *)
Lemma push_context self c1 c2 es update rank k v h :
  inv self (c1 ++ c2) es -> (1 <= level self)%nat ->
  preds (height (shape (nodes self))) (0%nat :: c1) 0 (level self) update rank ->
  let idx := length (nodes self) in
  let sh' := shape (nodes self) ++ [(Some k, Some v, h)] in
  height sh' idx = h /\
  preds (height sh') (0%nat :: c1) 0 (level self) update rank /\
  rank !! 0%nat = Some (zlen c1) /\
  NoDup (0%nat :: c1 ++ idx :: c2) /\
  (forall j, (j < level self)%nat ->
    col_ok (height sh') (c1 ++ c2) j (column (nodes self ++ [Node_new k v h]) j)).
Proof.
  intros H Hlvl (Hlu & Hlr & Hp) idx sh'.
  pose proof (inv_in_range _ _ _ H) as Hrange. pose proof (inv_nodup _ _ _ H) as Hnd0.
  assert (Forall (fun n => height sh' n = height (shape (nodes self)) n) (0%nat :: c1 ++ c2)) as Hext.
  { eapply Forall_impl; [exact Hrange|]. intros n Hn. apply height_push. by rewrite length_shape. }
  split; [|split; [|split; [|split]]].
  - unfold height, sh', idx. by rewrite <- length_shape, list_lookup_middle by done.
  - split; [done|]. split; [done|]. intros i Hi. destruct (Hp i Hi) as (p & pos & ? & ? & Hpred).
    exists p, pos. split_and!; [done..|]. eapply is_pred_ext; [|done].
    rewrite app_comm_cons in Hext. by apply Forall_app in Hext as [? _].
  - destruct (Hp 0%nat) as (p & pos & _ & Hr & Hpred); [lia|].
    by destruct (pred_0 self c1 c2 es H p pos Hpred) as [-> _].
  - apply NoDup_cons in Hnd0 as [Hn0 Hnd0]. rewrite Forall_forall in Hrange.
    rewrite <- Permutation_middle. rewrite !NoDup_cons, not_elem_of_cons. split_and!; [|done| |done].
    + specialize (Hrange 0%nat ltac:(set_solver)). unfold idx. lia.
    + intros Hin. specialize (Hrange idx ltac:(set_solver)). unfold idx in *. lia.
  - intros j Hj. destruct (push_views (nodes self) k v h) as (_ & _ & ->).
    eapply col_ok_push; [|by apply (inv_cols _ _ _ H)].
    unfold column. rewrite length_fmap. apply Forall_and. by split.
Qed.

Lemma insert_link self c1 c2 es update rank k v h :
  inv self (c1 ++ c2) es -> (1 <= h <= level self)%nat ->
  preds (height (shape (nodes self))) (0%nat :: c1) 0 (level self) update rank ->
  let idx := length (nodes self) in
  let ns := nodes self ++ [Node_new k v h] in
  exists ns1 ns2,
    foldM (splice_level update rank idx) ns (seq 0 h) = Some ns1 /\
    foldM (widen_level update) ns1 (seq h (level self - h)) = Some ns2 /\
    shape ns2 = shape (nodes self) ++ [(Some k, Some v, h)] /\
    backs ns2 = backs (nodes self) ++ [None] /\
    (forall j, (j < level self)%nat ->
      col_ok (height (shape ns2)) (c1 ++ idx :: c2) j (column ns2 j)) /\
    (forall j, (level self <= j)%nat -> column ns2 j = column ns j).
Proof.
  intros H Hh Hp idx ns. set (sh' := shape (nodes self) ++ [(Some k, Some v, h)]).
  destruct (push_context self c1 c2 es update rank k v h H) as (Hidx & Hpreds & Hrank0 & Hnd & Hcols);
    [lia|done|]. fold idx sh' ns in Hidx, Hpreds, Hrank0, Hnd, Hcols.
  destruct (push_views (nodes self) k v h) as (Hsh & Hbk & _). fold ns in Hsh, Hbk.
  destruct (foldM_columns (splice_level update rank idx)
    (col_ok (height sh') (c1 ++ c2)) (col_ok (height sh') (c1 ++ idx :: c2))
    sh' (backs ns) (seq 0 h)) with (ns := ns)
    as (ns1 & Hf1 & Hsh1 & Hbk1 & Hq1 & Ho1); [apply NoDup_seq| |done..| |].
  { intros ns' j [_ Hj]%elem_of_seq Hs <- Hc. simpl in Hj.
    destruct (splice_level_spec sh' c1 c2 idx update rank (level self) Hnd Hpreds Hrank0 ns' j)
      as (ns3 & ?); [lia|lia|done|done|]. by exists ns3. }
  { intros j Hj%elem_of_seq. apply Hcols. lia. }
  destruct (foldM_columns (widen_level update)
    (col_ok (height sh') (c1 ++ c2)) (col_ok (height sh') (c1 ++ idx :: c2))
    sh' (backs ns) (seq h (level self - h))) with (ns := ns1)
    as (ns2 & Hf2 & Hsh2 & Hbk2 & Hq2 & Ho2); [apply NoDup_seq| |done..| |].
  { intros ns' j Hj%elem_of_seq Hs <- Hc.
    destruct (widen_level_spec sh' c1 c2 idx update rank (level self) Hnd Hpreds Hrank0 ns' j)
      as (ns3 & ?); [lia|unfold short; lia|done|done|]. by exists ns3. }
  { intros j Hj%elem_of_seq. rewrite Ho1 by (rewrite elem_of_seq; lia). apply Hcols. lia. }
  exists ns1, ns2. rewrite Hsh2, Hbk2. split_and!; [done..| |].
  - intros j Hj. destruct (decide (j < h)%nat).
    + rewrite Ho2 by (rewrite elem_of_seq; lia). apply Hq1, elem_of_seq. lia.
    + apply Hq2, elem_of_seq. lia.
  - intros j Hj. by rewrite Ho2, Ho1 by (rewrite elem_of_seq; lia).
Qed.

(** The backward links of the new node and of its successor. *)
Lemma insert_backs self c1 c2 es ns2 (update : list nat) k v h :
  inv self (c1 ++ c2) es -> (1 <= h)%nat ->
  let idx := length (nodes self) in
  shape ns2 = shape (nodes self) ++ [(Some k, Some v, h)] ->
  backs ns2 = backs (nodes self) ++ [None] ->
  col_ok (height (shape ns2)) (c1 ++ idx :: c2) 0 (column ns2 0) ->
  update !! 0%nat = Some (default 0%nat (last c1)) ->
  exists ns3,
    link_backward update idx ns2 (tail self) = Some (ns3, last (c1 ++ idx :: c2)) /\
    shape ns3 = shape ns2 /\ backs_ok (backs ns3) (c1 ++ idx :: c2) /\
    (forall j, column ns3 j = column ns2 j).
Proof.
  intros H Hh idx Hsh Hbk Hcol Hu. unfold link_backward. rewrite Hu. simpl.
  pose proof (inv_nodup _ _ _ H) as Hnd. pose proof (inv_in_range _ _ _ H) as Hrange.
  apply Forall_cons in Hrange as [_ Hrange]. rewrite Forall_forall in Hrange. fold idx in Hrange.
  assert (length (shape ns2) = S idx) as Hlen by (rewrite Hsh, length_app, length_shape; simpl; lia).
  assert (length (backs ns2) = S idx) as Hlenb.
  { rewrite <- Hlen, length_shape. unfold backs. apply length_fmap. }
  assert (height (shape ns2) idx = h) as Hidx.
  { unfold height, idx. rewrite Hsh. by rewrite <- length_shape, list_lookup_middle by done. }
  replace (if (_ =? 0)%nat then None else Some _) with (last c1).
  2: { apply NoDup_cons in Hnd as [Hnd _]. destruct (last c1) as [p|] eqn:E; [|done]. simpl.
    destruct (Nat.eqb_spec p 0) as [->|]; [|done]. destruct Hnd.
    apply elem_of_app. left. by apply last_Some_elem_of in E. }
  destruct (set_backward_spec ns2 idx (last c1)) as (ns3 & -> & Hsh3 & Hbk3 & Hcol3); [lia|].
  simpl. assert (level_at ns3 idx 0 = Some (next_level (height (shape ns2)) 0 c2)) as ->.
  { apply level_at_column. rewrite Hcol3. apply (Hcol (0%nat :: c1)); [done|lia]. }
  simpl. apply NoDup_cons in Hnd as [_ Hnd]. apply NoDup_app in Hnd as (Hnd1 & Hnd12 & Hnd2).
  pose proof (inv_backs _ _ _ H) as Hb. destruct c2 as [|n c2]; simpl.
  - exists ns3. rewrite last_snoc. split_and!; [done|done| |done].
    apply (backs_ok_insert (backs (nodes self)) c1 [] idx); [done| | |done].
    + rewrite Hbk3. by rewrite list_lookup_insert_eq by lia.
    + intros n Hn. specialize (Hrange n ltac:(set_solver)). rewrite Hbk3, Hbk.
      rewrite list_lookup_insert_ne by lia. apply lookup_app_l. unfold backs. by rewrite length_fmap.
  - assert (n < idx)%nat as Hn by (apply Hrange; set_solver).
    pose proof (inv_heights _ _ _ H) as Hhs. apply Forall_app in Hhs as [_ Hhs].
    apply Forall_cons in Hhs as [Hhn _].
    rewrite decide_True by (rewrite Hsh, height_push; [lia|by rewrite length_shape]). simpl.
    destruct (set_backward_spec ns3 n (Some idx)) as (ns4 & -> & Hsh4 & Hbk4 & Hcol4); [rewrite Hsh3; lia|].
    exists ns4. simpl. split_and!; [|congruence| |intros; by rewrite Hcol4].
    { rewrite last_app. simpl. rewrite (inv_tail _ _ _ H), last_app. done. }
    apply NoDup_cons in Hnd2 as [Hn2 _].
    assert (forall m, m ∈ c1 ++ c2 -> m <> n -> backs ns4 !! m = backs (nodes self) !! m) as Hsame.
    { intros m Hm Hmn. specialize (Hrange m ltac:(set_solver)). rewrite Hbk4, Hbk3, Hbk.
      rewrite !list_lookup_insert_ne by lia. apply lookup_app_l. unfold backs. by rewrite length_fmap. }
    apply (backs_ok_insert (backs (nodes self)) c1 (n :: c2) idx); [done| | |].
    + rewrite Hbk4, Hbk3, list_lookup_insert_ne by lia. by rewrite list_lookup_insert_eq by lia.
    + intros m Hm. apply Hsame; [set_solver|]. intros ->. apply (Hnd12 n Hm). set_solver.
    + intros m r [= <- <-]. split.
      * rewrite Hbk4. apply list_lookup_insert_eq. rewrite Hbk3, length_insert. lia.
      * intros m Hm. apply Hsame; [set_solver|]. by intros ->.
Qed.

Lemma node_ok_level sh lvl lvl' c e :
  Forall2 (node_ok sh lvl) c e -> (lvl <= lvl')%nat -> Forall2 (node_ok sh lvl') c e.
Proof.
  intros Hc Hl. eapply Forall2_impl; [exact Hc|]. intros n x (h & ? & ?). exists h.
  split; [done|lia].
Qed.

(** Assembling the invariant of the new list. *)
Lemma insert_inv_build self c1 c2 es k v h lvl rs ns1 ns4 :
  let x := (k, v) in
  let e1 := take_while (fun y => is_lt (cmp_entry ck cv y x)) es in
  let e2 := drop_while (fun y => is_lt (cmp_entry ck cv y x)) es in
  let idx := length ns1 in
  inv (with_level self ns1 lvl) (c1 ++ c2) es ->
  Forall2 (node_ok (shape ns1) lvl) c1 e1 -> Forall2 (node_ok (shape ns1) lvl) c2 e2 ->
  zlen es + 1 < U64_MAX ->
  shape ns4 = shape ns1 ++ [(Some k, Some v, h)] -> (1 <= h <= lvl)%nat ->
  (forall j, (j < lvl)%nat -> col_ok (height (shape ns4)) (c1 ++ idx :: c2) j (column ns4 j)) ->
  (forall j, (lvl <= j)%nat -> column ns4 j = column (ns1 ++ [Node_new k v h]) j) ->
  backs_ok (backs ns4) (c1 ++ idx :: c2) ->
  inv (mk_SkipList ns4 (last (c1 ++ idx :: c2)) (len self + 1) lvl rs) (c1 ++ idx :: c2)
    (e1 ++ x :: e2).
Proof.
  intros x e1 e2 idx H H1 H2 Hbound Hsh Hh Hcols Htop Hbacks.
  assert (zlen (e1 ++ x :: e2) = zlen es + 1) as Hlen.
  { rewrite <- (take_drop_while (fun y => is_lt (cmp_entry ck cv y x)) es). fold e1 e2. zlia. }
  assert (forall c e, Forall2 (node_ok (shape ns1) lvl) c e -> Forall2 (node_ok (shape ns4) lvl) c e) as Hext.
  { intros c e Hc. eapply Forall2_impl; [exact Hc|]. intros n en (hn & ? & ?). exists hn.
    rewrite Hsh. split; [|done]. by apply lookup_app_l_Some. }
  split; simpl; try done.
  - pose proof (inv_nodup _ _ _ H) as Hnd. pose proof (inv_in_range _ _ _ H) as Hr.
    rewrite app_comm_cons. rewrite <- Permutation_middle. apply NoDup_cons. split; [|done].
    intros Hin. rewrite Forall_forall in Hr. specialize (Hr idx Hin). simpl in Hr. unfold idx in Hr. lia.
  - pose proof (inv_level _ _ _ H). done.
  - rewrite Hsh. apply lookup_app_l_Some. apply (inv_header _ _ _ H).
  - apply Forall2_app; [by apply Hext|]. constructor; [|by apply Hext].
    exists h. split; [|done]. rewrite Hsh. unfold idx. by rewrite <- length_shape, list_lookup_middle.
  - intros j Hj. rewrite Htop by lia. destruct (push_views ns1 k v h) as (_ & _ & ->).
    destruct (inv_top _ _ _ H j Hj) as [d Hd]. exists d. by apply lookup_app_l_Some.
  - rewrite Hlen. f_equal. apply (inv_len _ _ _ H).
  - pose proof (sorted_insert_sorted _ x es (inv_sorted _ _ _ H)) as Hs.
    by rewrite sorted_insert_while in Hs.
  - lia.
Qed.

Lemma insert_inv self chain es k v :
  inv self chain es -> zlen es + 1 < U64_MAX ->
  exists self' chain', insert ck cv k v self = Some self' /\
    inv self' chain' (sorted_insert (cmp_entry ck cv) (k, v) es).
Proof.
  intros H Hbound. pose proof (inv_level _ _ _ H) as Hlvl.
  rewrite sorted_insert_while.
  destruct (inv_cut self chain es _ H (downward_lt _ (k, v))) as (c1 & c2 & -> & H1 & H2 & Hcut).
  destruct (insert_descend_spec self c1 c2 es k v (level self) [] 0 c1
    (replicate MAX_LEVEL 0%nat) (replicate MAX_LEVEL 0)) as (p & u1 & r1 & Hdesc & Hp1);
    [done|by apply Hcut; intros; apply node_less_data|done|done| |by rewrite decide_True| |].
  { rewrite (height_header _ _ _ H). lia. }
  { split; [apply length_replicate|]. split; [apply length_replicate|]. lia. }
  unfold insert. rewrite Hdesc. simpl.
  pose proof (random_level_range (random_state self)) as Hh.
  destruct (random_level (random_state self)) as [h rs] eqn:Erl. simpl in Hh |- *.
  destruct (raise_spec (h - level self) self (c1 ++ c2) c1 es u1 r1 H) as (ns1 & u2 & r2 & -> & Hsh1 & Hi1 & Hp2);
    [lia|done|set_solver|].
  simpl. replace (level self + (h - level self))%nat with (Nat.max (level self) h) in * by lia.
  set (lvl := Nat.max (level self) h) in *.
  destruct (insert_link _ c1 c2 es u2 r2 k v h Hi1) as (ns2 & ns3 & Hsplice & Hwiden & Hsh3 & Hbk3 & Hcol3 & Htop3);
    [simpl; lia|done|]. simpl in *. rewrite Hsplice. simpl. rewrite Hwiden. simpl.
  destruct (insert_backs _ c1 c2 es ns3 u2 k v h Hi1) as (ns4 & Hlink & Hsh4 & Hbk4 & Hcol4);
    [lia|done|done|apply Hcol3; lia| |].
  { destruct Hp2 as (_ & _ & Hp2). destruct (Hp2 0%nat) as (q & pos & -> & _ & Hq); [lia|].
    f_equal. by destruct (pred_0 _ c1 c2 es Hi1 q pos Hq) as (_ & ? & _). }
  simpl in Hlink. rewrite Hlink. simpl. eexists _, _. split; [done|].
  apply (insert_inv_build self c1 c2 es k v h lvl rs ns1 ns4).
  - done.
  - rewrite Hsh1. eapply node_ok_level; [exact H1|lia].
  - rewrite Hsh1. eapply node_ok_level; [exact H2|lia].
  - done.
  - by rewrite Hsh4.
  - lia.
  - intros j Hj. rewrite Hsh4, Hcol4. by apply Hcol3.
  - intros j Hj. by rewrite Hcol4, Htop3.
  - done.
Qed.

(** ** Deletion *)

Lemma delete_descend_spec self c1 c2 es k v index pre cur r update :
  inv self (c1 ++ c2) es ->
  (forall delta, cuts (fun next _ => node_less ck cv (nodes self) next k v) c1 c2 delta) ->
  (index <= level self)%nat ->
  0%nat :: c1 = pre ++ cur :: r -> (index <= height (shape (nodes self)) cur)%nat ->
  length update = MAX_LEVEL ->
  (forall i, (index <= i < level self)%nat -> exists p pos,
    update !! i = Some p /\ is_pred (height (shape (nodes self))) i (0%nat :: c1) p pos) ->
  (index = 0%nat -> is_pred (height (shape (nodes self))) 0 (0%nat :: c1) cur (zlen pre)) ->
  exists p pos update',
    delete_descend ck cv index self k v cur update = Some (p, update') /\
    is_pred (height (shape (nodes self))) 0 (0%nat :: c1) p pos /\
    (forall i, (i < level self)%nat -> exists p pos,
      update' !! i = Some p /\ is_pred (height (shape (nodes self))) i (0%nat :: c1) p pos).
Proof.
  intros H Hcut. revert pre cur r update.
  induction index as [|index IH]; intros pre cur r update Hi Hc Hcur Hlen Hp Hcur0; simpl.
  { exists cur, (zlen pre), update. split_and!; [done|by apply Hcur0|]. intros i ?. apply Hp. lia. }
  pose proof (inv_level _ _ _ H).
  destruct (walk_cut self c1 c2 es H _ index (- zlen pre) pre cur r ltac:(lia) (Hcut _) Hc ltac:(lia))
    as (p & pos & Hw & Hpred).
  rewrite Z.add_opp_diag_r in Hw. rewrite Hw. simpl.
  destruct (Hpred) as (pre' & r' & Hc' & Hp' & _ & ->).
  apply (IH pre' p r'); [lia|done|lia|by rewrite length_insert| |by intros ->].
  intros i Hi'. destruct (decide (i = index)) as [->|Hne].
  - exists p, (zlen pre'). by rewrite list_lookup_insert_eq by lia.
  - rewrite list_lookup_insert_ne by done. apply Hp. lia.
Qed.

Lemma unlink_level_spec ns sh c1 c2 t update j p pos :
  shape ns = sh -> NoDup (0%nat :: c1 ++ t :: c2) -> zlen (c1 ++ t :: c2) < U64_MAX ->
  update !! j = Some p -> is_pred (height sh) j (0%nat :: c1) p pos ->
  col_ok (height sh) (c1 ++ t :: c2) j (column ns j) ->
  exists ns', unlink_level update t ns j = Some ns' /\
    shape ns' = sh /\ backs ns' = backs ns /\
    (col_ok (height sh) (c1 ++ c2) j (column ns' j) /\
     ((j < height sh t)%nat -> column ns' j !! t = Some (Some (next_level (height sh) j c2)))) /\
    (forall i, i <> j -> column ns' i = column ns i).
Proof.
  intros Hsh Hnd Hbound Hu (pre & r & Hc & Hp & Hr & ->) Hcol.
  assert (level_at ns p j = Some (next_level (height sh) j (r ++ t :: c2))) as Hl.
  { apply level_at_column, (Hcol pre); [|done].
    change (0%nat :: c1 ++ t :: c2) with ((0%nat :: c1) ++ t :: c2). by rewrite Hc, <- app_assoc. }
  assert (p <> t) as Hpt.
  { intros ->. rewrite app_comm_cons, Hc, <- app_assoc in Hnd.
    apply NoDup_app in Hnd as (_ & _ & Hn). simpl in Hn. apply NoDup_cons in Hn as [Hn _]. set_solver. }
  assert (zlen r <= zlen c1) as Hrlen by (apply (f_equal zlen) in Hc; zlia).
  pose proof (next_level_span (height sh) j c2) as Hspan. rewrite zlen_app, zlen_cons in Hbound.
  destruct (column_tall ns p j) as [lp Hlp]; [by rewrite Hsh|]. apply lookup_lt_Some in Hlp.
  assert (forall l, l = next_level (height sh) j (r ++ c2) ->
    exists ns', set_level ns p j l = Some ns' /\ shape ns' = sh /\ backs ns' = backs ns /\
      col_ok (height sh) (c1 ++ c2) j (column ns' j) /\
      (forall a, a <> p -> column ns' j !! a = column ns j !! a) /\
      (forall i, i <> j -> column ns' i = column ns i)) as Hset.
  { intros l ->. destruct (set_level_spec ns p j (next_level (height sh) j (r ++ c2)))
      as (ns' & -> & Hsh' & Hbk' & Hcol' & Ho'); [by rewrite Hsh|].
    exists ns'. rewrite Hcol'. split_and!; [done|congruence|done| | |done].
    2: { intros a Ha. by apply list_lookup_insert_ne. }
    rewrite app_comm_cons in Hnd. apply NoDup_app in Hnd as (Hnd1 & Hdis & _).
    eapply col_ok_replace; [exact Hcol|done|exact Hc|done|done| | |].
    - by rewrite list_lookup_insert_eq.
    - intros a _ Ha. by apply list_lookup_insert_ne.
    - intros q a rest -> Ha. rewrite list_lookup_insert_ne.
      + apply (Hcol (0%nat :: c1 ++ t :: q)); [|done]. simpl. by rewrite <- app_assoc.
      + intros ->. apply (Hdis a); [rewrite Hc; set_solver|set_solver]. }
  unfold unlink_level. rewrite Hu. simpl. rewrite Hl, next_level_app by done. simpl.
  destruct (decide (j < height sh t)%nat) as [Ht|Ht]; simpl.
  - rewrite decide_True by done.
    assert (column ns j !! t = Some (Some (next_level (height sh) j c2))) as Htc.
    { apply (Hcol (0%nat :: c1)); done. }
    apply level_at_column in Htc as Htl. rewrite Htl. simpl.
    destruct (Hset (mk_Level (forward (next_level (height sh) j c2))
      (saturating_sub (saturating_add (1 + zlen r) (span (next_level (height sh) j c2))) 1)))
      as (ns' & Hs & ? & ? & ? & Hoth & ?).
    { rewrite next_level_app by done. f_equal. unfold saturating_sub, saturating_add. zlia. }
    exists ns'. split_and!; try done. intros _. by rewrite Hoth.
  - rewrite decide_False.
    2: { intros E. by apply next_level_forward in E as [? _]. }
    destruct (Hset (mk_Level (forward (next_level (height sh) j c2))
      (saturating_sub (span (next_level (height sh) j c2) + 1 + zlen r) 1)))
      as (ns' & Hs & ? & ? & ? & Hoth & ?).
    { rewrite next_level_app by done. f_equal. unfold saturating_sub. zlia. }
    exists ns'. split_and!; done.
Qed.

Lemma lower_level_spec fuel ns chain lvl :
  (1 <= lvl <= fuel)%nat -> (fuel <= MAX_LEVEL)%nat -> height (shape ns) 0 = MAX_LEVEL ->
  (forall j, (j < lvl)%nat -> col_ok (height (shape ns)) chain j (column ns j)) ->
  Forall (fun n => height (shape ns) n <= lvl)%nat chain ->
  exists lvl', lower_level fuel ns lvl = Some lvl' /\ (1 <= lvl' <= lvl)%nat /\
    Forall (fun n => height (shape ns) n <= lvl')%nat chain /\
    (forall j, (lvl' <= j < lvl)%nat ->
      exists d, column ns j !! 0%nat = Some (Some (mk_Level None d))).
Proof.
  revert lvl. induction fuel as [|fuel IH]; intros lvl Hl Hf Hh Hcols Hall; [lia|]. simpl.
  destruct (Nat.ltb_spec 1 lvl); [|exists lvl; split_and!; [done|lia|lia|done|lia]].
  assert (column ns (lvl - 1) !! 0%nat =
    Some (Some (next_level (height (shape ns)) (lvl - 1) chain))) as Hc.
  { apply (Hcols (lvl - 1)%nat ltac:(lia) []); [done|lia]. }
  apply level_at_column in Hc as Hl0. rewrite Hl0. simpl.
  destruct (forward (next_level (height (shape ns)) (lvl - 1) chain)) as [n|] eqn:E.
  { exists lvl. split_and!; [done|lia|lia|done|lia]. }
  apply next_level_None in E as Hshort.
  destruct (IH (lvl - 1)%nat) as (lvl' & -> & Hl' & Hall' & Htop); [lia|lia|done| |done|].
  { intros j Hj. apply Hcols. lia. }
  exists lvl'. split_and!; [done|lia|lia|done|]. intros j Hj.
  destruct (decide (j = lvl - 1)%nat) as [->|]; [|apply Htop; lia].
  exists (span (next_level (height (shape ns)) (lvl - 1) chain)). rewrite Hc.
  destruct (next_level _ _ _); simpl in *. by subst.
Qed.

#[local] Arguments lower_level : simpl never.

(** The backward link of the successor, or the tail. *)
Lemma backs_ok_delete bk c1 t c2 bk' :
  NoDup (c1 ++ t :: c2) -> backs_ok bk (c1 ++ t :: c2) ->
  (forall n r, c2 = n :: r -> bk' !! n = Some (last c1)) ->
  (forall n, head c2 <> Some n -> bk' !! n = bk !! n) ->
  backs_ok bk' (c1 ++ c2).
Proof.
  intros Hnd Hbk Hhead Hsame pre n rest Heq. apply app_cut in Heq as [(r & -> & ->)|(q & -> & Heq)].
  - rewrite Hsame.
    + apply (Hbk pre n (r ++ t :: c2)). by rewrite <- app_assoc.
    + intros Hh. rewrite <- app_assoc in Hnd. apply NoDup_app in Hnd as (_ & _ & Hn).
      simpl in Hn. apply NoDup_cons in Hn as [Hn _]. apply Hn. apply elem_of_app. right.
      destruct c2; [done|]. injection Hh as ->. set_solver.
  - destruct q as [|m q]; simpl in Heq.
    + rewrite app_nil_r. by apply (Hhead n rest).
    + rewrite Hsame.
      * rewrite (Hbk (c1 ++ t :: m :: q) n rest); [|by rewrite Heq, <- app_assoc].
        f_equal. rewrite !last_app. done.
      * rewrite Heq. simpl. intros [= ->]. rewrite Heq in Hnd.
        apply NoDup_app in Hnd as (_ & _ & Hn). apply NoDup_cons in Hn as [_ Hn].
        apply NoDup_cons in Hn as [Hn _]. set_solver.
Qed.

Lemma delete_backs self c1 t c2 es ns :
  inv self (c1 ++ t :: c2) es ->
  shape ns = shape (nodes self) -> backs ns = backs (nodes self) ->
  column ns 0 !! t = Some (Some (next_level (height (shape ns)) 0 c2)) ->
  exists ns', relink_backward ns (tail self) t = Some (ns', last (c1 ++ c2)) /\
    shape ns' = shape ns /\ backs_ok (backs ns') (c1 ++ c2) /\
    (forall j, column ns' j = column ns j).
Proof.
  intros H Hsh Hbk Hcol. apply level_at_column in Hcol. unfold relink_backward.
  pose proof (inv_nodup _ _ _ H) as Hnd. apply NoDup_cons in Hnd as [_ Hnd].
  pose proof (inv_backs _ _ _ H) as Hb.
  destruct (backs_backward ns t (last c1)) as (nd & Ent & Hnd').
  { rewrite Hbk. by apply (Hb c1 t c2). }
  unfold level_at in Hcol. rewrite Ent in Hcol |- *. simpl in Hcol |- *.
  rewrite Hcol. simpl. rewrite Hnd'. destruct c2 as [|n c2]; simpl.
  - exists ns. rewrite app_nil_r. split_and!; [done..| |done].
    rewrite <- (app_nil_r c1). eapply backs_ok_delete; [exact Hnd|exact Hb|done|].
    intros n _. by rewrite Hbk.
  - pose proof (inv_heights _ _ _ H) as Hhs. apply Forall_app in Hhs as [_ Hhs].
    apply Forall_cons in Hhs as [_ Hhs]. apply Forall_cons in Hhs as [Hn _].
    rewrite decide_True by (rewrite Hsh; lia). simpl.
    pose proof (inv_in_range _ _ _ H) as Hr. rewrite Forall_forall in Hr.
    specialize (Hr n ltac:(set_solver)).
    destruct (set_backward_spec ns n (last c1)) as (ns' & -> & Hsh' & Hbk' & Hcol').
    { by rewrite Hsh, length_shape. }
    exists ns'. simpl. split_and!; [|done| |done].
    { rewrite (inv_tail _ _ _ H), !last_app. done. }
    eapply backs_ok_delete; [exact Hnd|exact Hb| |].
    + intros m r [= <- <-]. rewrite Hbk'. apply list_lookup_insert_eq.
      unfold backs. by rewrite length_fmap, <- length_shape, Hsh, length_shape.
    + intros m Hm. rewrite Hbk', Hbk. apply list_lookup_insert_ne. simpl in Hm. congruence.
Qed.

Lemma delete_inv_build self c1 t c2 e1 e e2 ns lvl :
  inv self (c1 ++ t :: c2) (e1 ++ e :: e2) ->
  Forall2 (node_ok (shape (nodes self)) (level self)) c1 e1 ->
  Forall2 (node_ok (shape (nodes self)) (level self)) c2 e2 ->
  shape ns = shape (nodes self) -> (1 <= lvl <= level self)%nat ->
  Forall (fun n => height (shape ns) n <= lvl)%nat (c1 ++ c2) ->
  (forall j, (j < level self)%nat -> col_ok (height (shape ns)) (c1 ++ c2) j (column ns j)) ->
  (forall j, (lvl <= j < MAX_LEVEL)%nat -> exists d, column ns j !! 0%nat = Some (Some (mk_Level None d))) ->
  backs_ok (backs ns) (c1 ++ c2) ->
  inv (mk_SkipList ns (last (c1 ++ c2)) (len self - 1) lvl (random_state self)) (c1 ++ c2) (e1 ++ e2).
Proof.
  intros H H1 H2 Hsh Hl Hall Hcols Htop Hbacks.
  pose proof (inv_bound _ _ _ H) as Hb. pose proof (inv_len _ _ _ H) as Hlen.
  split; simpl; try done; try zlia.
  - pose proof (inv_nodup _ _ _ H) as Hnd. rewrite app_comm_cons in *.
    apply NoDup_app in Hnd as (? & Hd & [_ ?]%NoDup_cons). apply NoDup_app.
    split_and!; [done| |done]. intros x Hx Hin. apply (Hd x Hx). set_solver.
  - pose proof (inv_level _ _ _ H). lia.
  - rewrite Hsh. apply (inv_header _ _ _ H).
  - assert (Forall2 (node_ok (shape (nodes self)) (level self)) (c1 ++ c2) (e1 ++ e2)) as Hf.
    { by apply Forall2_app. }
    rewrite Hsh in *. revert Hf Hall. generalize (c1 ++ c2), (e1 ++ e2). intros c es.
    induction 1 as [|n x c es (h & E & Hh) _ IH]; intros Hall; constructor;
      apply Forall_cons in Hall as [Hn Hall]; [|by apply IH].
    exists h. split; [done|]. unfold height in Hn. rewrite E in Hn. lia.
  - intros j Hj. apply Hcols. lia.
  - pose proof (inv_sorted _ _ _ H) as Hs. apply sorted_app in Hs as (? & Hs2 & Hs).
    apply StronglySorted_inv in Hs2 as [? _]. apply sorted_app. split_and!; [done..|].
    intros x y Hx Hy. apply Hs; [done|set_solver].
Qed.

(** Removing a node from the chain. *)
Lemma delete_unlink self c1 t c2 e1 e e2 update :
  inv self (c1 ++ t :: c2) (e1 ++ e :: e2) ->
  Forall2 (node_ok (shape (nodes self)) (level self)) c1 e1 ->
  Forall2 (node_ok (shape (nodes self)) (level self)) c2 e2 ->
  (forall i, (i < level self)%nat -> exists p pos, update !! i = Some p /\
    is_pred (height (shape (nodes self))) i (0%nat :: c1) p pos) ->
  exists self',
    (nodes ← foldM (unlink_level update t) (nodes self) (seq 0 (level self));
     '(nodes, tail) ← relink_backward nodes (tail self) t;
     level ← lower_level MAX_LEVEL nodes (level self);
     len ← checked_sub (len self) 1;
     Some (mk_SkipList nodes tail len level (random_state self), true)) = Some (self', true) /\
    inv self' (c1 ++ c2) (e1 ++ e2).
Proof.
  intros H H1 H2 Hupd. pose proof (inv_level _ _ _ H) as Hlvl.
  set (hs := height (shape (nodes self))).
  assert (zlen (c1 ++ t :: c2) = zlen (e1 ++ e :: e2)) as Hzl.
  { unfold zlen. f_equal. eapply Forall2_length, (inv_data _ _ _ H). }
  pose proof (inv_bound _ _ _ H) as Hbound.
  destruct (foldM_columns (unlink_level update t) (col_ok hs (c1 ++ t :: c2))
    (fun j c => col_ok hs (c1 ++ c2) j c /\ ((j < hs t)%nat -> c !! t = Some (Some (next_level hs j c2))))
    (shape (nodes self)) (backs (nodes self)) (seq 0 (level self)))
    with (ns := nodes self) as (ns1 & -> & Hsh1 & Hbk1 & Hq1 & Ho1); [apply NoDup_seq| |done..| |].
  { intros ns j [_ Hj]%elem_of_seq Hs <- Hc. simpl in Hj.
    destruct (Hupd j Hj) as (p & pos & Hu & Hp).
    eapply unlink_level_spec; [done|apply (inv_nodup _ _ _ H)|lia|done..]. }
  { intros j [_ Hj]%elem_of_seq. by apply (inv_cols _ _ _ H). }
  pose proof (inv_heights _ _ _ H) as Hhs. simpl_bind.
  destruct (delete_backs self c1 t c2 _ ns1 H) as (ns2 & -> & Hsh2 & Hbk2 & Hcol2); [done..| |].
  { rewrite Hsh1. apply Hq1; [apply elem_of_seq; lia|].
    apply Forall_app in Hhs as [_ Hhs]. apply Forall_cons in Hhs as [? _]. unfold hs. lia. }
  simpl_bind.
  assert (forall j, (j < level self)%nat -> col_ok (height (shape ns2)) (c1 ++ c2) j (column ns2 j)) as Hc2.
  { intros j Hj. rewrite Hsh2, Hsh1, Hcol2. apply Hq1, elem_of_seq. lia. }
  destruct (lower_level_spec MAX_LEVEL ns2 (c1 ++ c2) (level self)) as (lvl & -> & Hl & Hall & Htop);
    [lia|done| |done| |].
  { rewrite Hsh2, Hsh1. apply (height_header _ _ _ H). }
  { rewrite Hsh2, Hsh1. apply Forall_app in Hhs as [Ha Hhs]. apply Forall_cons in Hhs as [_ Hb].
    apply Forall_app; split; eapply Forall_impl; try done; simpl; lia. }
  simpl_bind. rewrite checked_sub_Some by (rewrite (inv_len _ _ _ H); zlia). simpl_bind.
  eexists. split; [reflexivity|].
  apply (delete_inv_build self c1 t c2 e1 e e2 ns2 lvl H H1 H2); [congruence|done|done|done| |done].
  intros j Hj. destruct (decide (j < level self)%nat); [apply Htop; lia|].
  rewrite Hcol2, Ho1 by (rewrite elem_of_seq; lia). apply (inv_top _ _ _ H). lia.
Qed.

Lemma delete_inv self chain es k v :
  inv self chain es ->
  exists self' chain',
    delete ck cv k v self = Some (self', sorted_mem (cmp_entry ck cv) (k, v) es) /\
    inv self' chain' (sorted_delete (cmp_entry ck cv) (k, v) es).
Proof.
  intros H. pose proof (inv_level _ _ _ H) as Hlvl.
  rewrite sorted_delete_while, (sorted_mem_drop_while _ _ _ (inv_sorted _ _ _ H)).
  destruct (inv_cut self chain es _ H (downward_lt _ (k, v))) as (c1 & c2 & -> & H1 & H2 & Hcut).
  destruct (delete_descend_spec self c1 c2 es k v (level self) [] 0 c1 (replicate MAX_LEVEL 0%nat))
    as (p & pos & update & Hdesc & Hp & Hupd);
    [done|intros; apply Hcut; intros; by apply node_less_data|done|done| |done|lia|lia|].
  { rewrite (height_header _ _ _ H). lia. }
  destruct (pred_0 self c1 c2 es H p pos Hp) as (_ & _ & Hl).
  unfold delete. rewrite Hdesc. simpl. rewrite Hl. simpl.
  rewrite <- (take_drop_while (fun y => is_lt (cmp_entry ck cv y (k, v))) es) in H.
  destruct (drop_while _ es) as [|e e2] eqn:Edrop.
  { apply Forall2_nil_inv_r in H2. subst c2. exists self, (c1 ++ []). done. }
  apply Forall2_cons_inv_r in H2 as (t & c2' & Hn & H2 & ->). simpl.
  erewrite data_shape by done. simpl.
  rewrite <- same_cmp. unfold same.
  pose proof (same_cmp k v e) as Hsame. unfold same in Hsame.
  destruct e as [ek ev]. cbn [fst snd] in *.
  assert (cmp_entry ck cv (ek, ev) (k, v) <> Eq -> exists self' chain',
    Some (self, match cmp_entry ck cv (ek, ev) (k, v) with Eq => true | _ => false end) =
      Some (self', match cmp_entry ck cv (ek, ev) (k, v) with Eq => true | _ => false end) /\
    inv self' chain' (take_while (fun y => is_lt (cmp_entry ck cv y (k, v))) es ++
      match cmp_entry ck cv (ek, ev) (k, v) with Eq => e2 | _ => (ek, ev) :: e2 end)) as Hno.
  { intros Hne. exists self, (c1 ++ t :: c2'). split; [done|].
    by destruct (cmp_entry ck cv (ek, ev) (k, v)). }
  destruct (cmp_entry ck cv (ek, ev) (k, v)) eqn:E.
  2-3: destruct (ck ek k), (cv ev v); try done; by apply Hno.
  destruct (ck ek k), (cv ev v); try done.
  destruct (delete_unlink self c1 t c2' _ _ e2 update H H1 H2 Hupd) as (self' & Hdel & Hinv).
  exists self', (c1 ++ c2'). by split.
Qed.

(** ** The operations on the represented entries *)

Lemma empty_repr : repr with_comparators [].
Proof.
  exists []. split; simpl; try done.
  - repeat constructor. set_solver.
  - unfold MAX_LEVEL. lia.
  - intros i Hi pre a rest Heq Ha. destruct i; [|lia].
    by destruct pre as [|? [|]]; simplify_eq/=.
  - intros i Hi. exists 0.
    change (Some (replicate MAX_LEVEL (mk_Level None 0) !! i) = Some (Some (mk_Level None 0))).
    by rewrite lookup_replicate_2 by lia.
  - intros pre n rest Heq. by destruct pre.
  - constructor.
Qed.

(** C19: inserting into a skip list never panics, whatever level is drawn, and
    puts the entry at its place in the sorted sequence of entries, before any
    equal to it; the representation (links, spans, backward links, tail,
    length) is kept at every level. *)
Theorem insert_refines self es k v :
  repr self es -> zlen es + 1 < U64_MAX ->
  exists self', insert ck cv k v self = Some self' /\
    repr self' (sorted_insert (cmp_entry ck cv) (k, v) es).
Proof.
  intros [chain H] Hb. destruct (insert_inv self chain es k v H Hb) as (self' & chain' & ? & ?).
  exists self'. split; [done|]. by exists chain'.
Qed.

(** deleting from a skip list never panics, removes exactly the first entry
    equal to the given one, says whether there was one, and keeps the
    representation. *)
Theorem delete_refines self es k v :
  repr self es ->
  exists self', delete ck cv k v self = Some (self', sorted_mem (cmp_entry ck cv) (k, v) es) /\
    repr self' (sorted_delete (cmp_entry ck cv) (k, v) es).
Proof.
  intros [chain H]. destruct (delete_inv self chain es k v H) as (self' & chain' & ? & ?).
  exists self'. split; [done|]. by exists chain'.
Qed.

(** C20: a range query never panics or loops and returns the entries of the
    sorted sequence within its bounds, in order or in reverse, after skipping
    [offset] of them and up to [count]. *)
Theorem range_refines self es o :
  repr self es -> range ck o self = Some (range_spec ck o es).
Proof. apply range_entries. Qed.

(** The spans are right: [get_by_rank] is the lookup by position, and
    [rank] of an entry that is present is the position of the last equal entry. *)
Theorem ranks_refine self es k v r :
  repr self es -> 0 <= r ->
  get_by_rank self r = Some (es !! Z.to_nat r) /\
  rank ck cv self k v =
    Some (if sorted_mem (cmp_entry ck cv) (k, v) es
          then Some (zlen (filter (fun e => is_le (cmp_entry ck cv e (k, v)) = true) es) - 1)
          else None).
Proof.
  intros H Hr. split; [by apply get_by_rank_lookup|].
  rewrite (rank_take_while self es k v H). destruct H as [chain H].
  by rewrite (filter_take_while (cmp_entry ck cv) _ es (inv_sorted _ _ _ H) (downward_le (k, v))).
Qed.

(** [lower_bound] is the first entry whose key is at least (or, strictly,
    above) the bound. *)
Lemma lower_bound_refines self es bound strict :
  repr self es ->
  lower_bound ck self bound strict =
    Some (head (filter (fun e => (if strict : bool then is_gt else is_ge) (ck e.1 bound) = true) es)).
Proof.
  intros H. rewrite (lower_bound_drop_while self es bound strict H). destruct H as [chain H].
  unfold before. rewrite <- (filter_drop_while (cmp_entry ck cv) _ es (inv_sorted _ _ _ H) (downward_key bound strict)).
  do 2 f_equal. apply list_filter_iff. intros e.
  by destruct strict, (ck e.1 bound).
Qed.

(** Inserting many entries. *)
Lemma insert_all_repr (l : list (K * V)) self es :
  repr self es -> zlen es + zlen l < U64_MAX ->
  exists self', foldM (fun s e => insert ck cv e.1 e.2 s) self l = Some self' /\
    repr self' (fold_left (fun es e => sorted_insert (cmp_entry ck cv) e es) l es).
Proof.
  revert self es. induction l as [|[k v] l IH]; intros self es [chain H] Hb; simpl.
  { exists self. split; [done|by exists chain]. }
  rewrite zlen_cons in Hb.
  destruct (insert_inv self chain es k v H) as (s1 & chain1 & -> & H1); [zlia|]. simpl.
  apply IH; [by exists chain1|]. unfold zlen in *.
  rewrite (Permutation_length (sorted_insert_perm (cmp_entry ck cv) (k, v) es)). simpl. lia.
Qed.

(** ** The skip list is an ordered index *)

#[local] Instance skiplist_index : OrderedIndex (SkipList K V) K V := {
  oi_empty := with_comparators;
  oi_insert := insert ck cv;
  oi_delete := delete ck cv;
  oi_range := range ck;
  oi_is_empty := is_empty;
}.

#[local] Instance skiplist_index_laws : OrderedIndexLaws ck cv repr.
Proof.
  split.
  - intros t l [chain H]. apply (inv_sorted _ _ _ H).
  - apply empty_repr.
  - intros k v t l [chain H] Hb. destruct (insert_inv t chain l k v H Hb) as (t' & c & ? & ?).
    exists t'. split; [done|by exists c].
  - intros k v t l [chain H]. destruct (delete_inv t chain l k v H) as (t' & c & ? & ?).
    exists t'. split; [done|by exists c].
  - intros o t l. apply range_entries.
  - intros t l [chain H]. simpl. unfold is_empty. rewrite (inv_len _ _ _ H).
    apply Bool.eq_iff_eq_true. rewrite Z.eqb_eq, bool_decide_eq_true. apply zlen_0.
Qed.

End skiplist.

(** ** Examples *)

Section examples.
Let entries : list (Z * Z) := [(5, 1); (3, 1); (9, 2); (5, 0); (7, 7)].
Let sorted_entries : list (Z * Z) := [(3, 1); (5, 0); (5, 1); (7, 7); (9, 2)].
Let build := foldM (fun s e => insert Z.compare Z.compare e.1 e.2 s) with_comparators entries.

Lemma build_repr : exists s, build = Some s /\ repr Z.compare Z.compare s sorted_entries.
Proof.
  destruct (insert_all_repr Z.compare Z.compare entries with_comparators [])
    as (s & Hs & Hr).
  { apply (empty_repr Z.compare Z.compare). }
  { done. }
  exists s. split; [exact Hs|exact Hr].
Qed.

Lemma insert_refines_witness :
  exists s s', build = Some s /\ insert Z.compare Z.compare 5 1 s = Some s' /\
    repr Z.compare Z.compare s' [(3, 1); (5, 0); (5, 1); (5, 1); (7, 7); (9, 2)].
Proof.
  destruct build_repr as (s & Hs & Hr).
  destruct (insert_refines Z.compare Z.compare s sorted_entries 5 1 Hr) as (s' & Hi & Hr'); [done|].
  exists s, s'. split; [exact Hs|]. split; [exact Hi|exact Hr'].
Defined.

Lemma delete_refines_witness :
  exists s s', build = Some s /\ delete Z.compare Z.compare 5 0 s = Some (s', true) /\
    repr Z.compare Z.compare s' [(3, 1); (5, 1); (7, 7); (9, 2)].
Proof.
  destruct build_repr as (s & Hs & Hr).
  destruct (delete_refines Z.compare Z.compare s sorted_entries 5 0 Hr) as (s' & Hi & Hr').
  exists s, s'. split; [exact Hs|]. split; [exact Hi|exact Hr'].
Defined.

Lemma range_refines_witness :
  exists s, build = Some s /\
    range Z.compare (mk_RangeOptions (Some 4) None None (Some 9) 1 (Some 2) true) s =
      Some [(5, 1); (5, 0)].
Proof.
  destruct build_repr as (s & Hs & Hr). exists s. split; [exact Hs|].
  rewrite (range_refines Z.compare Z.compare s sorted_entries _ Hr). reflexivity.
Defined.

Lemma ranks_refine_witness :
  exists s, build = Some s /\
    get_by_rank s 3 = Some (Some (7, 7)) /\ rank Z.compare Z.compare s 7 7 = Some (Some 3).
Proof.
  destruct build_repr as (s & Hs & Hr). exists s. split; [exact Hs|].
  destruct (ranks_refine Z.compare Z.compare s sorted_entries 7 7 3 Hr) as [-> ->]; [lia|].
  split; reflexivity.
Defined.

Lemma lower_bound_refines_witness :
  exists s, build = Some s /\ lower_bound Z.compare s 5 true = Some (Some (7, 7)).
Proof.
  destruct build_repr as (s & Hs & Hr). exists s. split; [exact Hs|].
  rewrite (lower_bound_refines Z.compare Z.compare s sorted_entries 5 true Hr). reflexivity.
Defined.
End examples.

End SkipListFacts.
