(* ===== verification/Store.v ===== *)
(** * The record store ([crates/minidb/src/store.rs])

    The in-memory index of a database: a map from keys to records whose values
    are in memory or located on disk, the ordered index of its keys, the
    byte and expiry counters and the heap of expiry times.  The ordered index is
    used through the interface [OrderedIndex]; [None] is a panic of its
    operations.  The clock is an argument: one reading for an operation that
    reads it once, and the sequence of readings for a scan, which reads it at
    every key.  The JSON text of the datetime metadata, of which the store counts
    the length, and the reader of disk values are parameters. *)

From S2P Require Import Prelude.
From S2P Require Import OrdIndex.
Import OrdIndex.

Module Store.

Definition DISK_REF_BYTES : Z := 64.

Inductive ValueFile := Snapshot | Wal.

Record ValueLoc := mk_ValueLoc { loc_file : ValueFile; loc_offset : Z; loc_len : Z }.

Inductive ValueRef :=
| Memory (value : bytes)
| Disk (location : ValueLoc).

(** [BTreeMap<String, i64>]. *)
Abbreviation Datetimes := (gmap string Z).

Record StoreRecord := mk_StoreRecord {
  value_ref : ValueRef;
  expire_at : Z;
  rec_sequence : Z;
  datetimes : option Datetimes;
}.

Record StoreEntry := mk_StoreEntry {
  entry_key : bytes;
  entry_value : bytes;
  entry_expire_at : Z;
  entry_datetimes : option Datetimes;
}.

Inductive StoreError :=
| MissingValueReader
| Read (message : string).

#[export] Instance ValueFile_eq_dec : EqDecision ValueFile.
Proof. solve_decision. Defined.
#[export] Instance ValueLoc_eq_dec : EqDecision ValueLoc.
Proof. solve_decision. Defined.

(** ** The heap of expiry times

    A [BinaryHeap<Reverse<(i64, u64, Vec<u8>)>>] is kept as the ascending list of
    its elements: [peek] is the head, [pop] drops it, [push] inserts in order. *)

Definition Expiry : Type := Z * Z * bytes.

Definition expiry_cmp : Expiry -> Expiry -> comparison :=
  cmp_entry (cmp_entry Z.compare Z.compare) bytes_cmp.

Definition heap_push (x : Expiry) (heap : list Expiry) : list Expiry :=
  sorted_insert expiry_cmp x heap.

Record Store (T : Type) := mk_Store {
  records : gmap bytes StoreRecord;
  order : T;
  expirations : list Expiry;
  expired : list (bytes * StoreRecord);
  sequence : Z;
  bytes_used : Z;
  expiring : Z;
}.
Arguments mk_Store {T}. Arguments records {T}. Arguments order {T}.
Arguments expirations {T}. Arguments expired {T}. Arguments sequence {T}.
Arguments bytes_used {T}. Arguments expiring {T}.

Section store.
Context {T : Type} `{!OrderedIndex T bytes bytes}.
(** [serde_json::to_vec(&json!({"dt": datetimes}))]. *)
Context (dt_json : Datetimes -> option bytes).
(** [StoreOptions::read_value]. *)
Context (read_value : option (ValueLoc -> result StoreError bytes)).
Implicit Types self : Store T.

Definition new : Store T := mk_Store ∅ oi_empty [] [] 0 0 0.

(** The filter of every reading: not expired at [now]. *)
Definition is_live (now : Z) (record : StoreRecord) : bool :=
  (expire_at record =? 0) || (now <? expire_at record).

Definition len (now : Z) self : Z :=
  if expiring self =? 0 then Z.of_nat (size (records self))
  else Z.of_nat (size (filter (fun kr => is_live now kr.2 = true) (records self))).

Definition is_empty (now : Z) self : bool := len now self =? 0.

(** ** Sizes *)

Definition metadata_bytes (datetimes : option Datetimes) : Z :=
  match datetimes with
  | Some datetimes => match dt_json datetimes with Some bytes => zlen bytes | None => 0 end
  | None => 0
  end.

Definition value_ref_bytes (value_ref : ValueRef) : Z :=
  match value_ref with Memory value => zlen value | Disk _ => DISK_REF_BYTES end.

Definition record_size (key : bytes) (record : StoreRecord) : Z :=
  zlen key + value_ref_bytes (value_ref record) + metadata_bytes (datetimes record).

Definition record_bytes (key : bytes) self : Z :=
  match records self !! key with Some record => record_size key record | None => 0 end.

Definition estimate_set_bytes (key value : bytes) (datetimes : option Datetimes)
    (count_value : bool) : Z :=
  zlen key + (if count_value then zlen value else DISK_REF_BYTES) + metadata_bytes datetimes.

(** ** Writing *)

Definition wrapping_add_u64 (a b : Z) : Z := (a + b) `mod` 2 ^ 64.

Definition rebuild_expirations (records : gmap bytes StoreRecord) : list Expiry :=
  map_fold (fun key record heap =>
    if negb (expire_at record =? 0) then heap_push (expire_at record, rec_sequence record, key) heap
    else heap) [] records.

(** The counters once a record is taken out. *)
Definition bytes_without (key : bytes) (previous : option StoreRecord) self : Z :=
  match previous with
  | Some previous => saturating_sub (bytes_used self) (record_size key previous)
  | None => bytes_used self
  end.

Definition expiring_without (previous : option StoreRecord) self : Z :=
  match previous with
  | Some previous =>
      if negb (expire_at previous =? 0) then saturating_sub (expiring self) 1 else expiring self
  | None => expiring self
  end.

Definition set_ref (key : bytes) (value_ref : ValueRef) (expire_at' : Z)
    (datetimes : option Datetimes) self : option (Store T) :=
  let previous := records self !! key in
  let remaining := delete key (records self) in
  let bytes := bytes_without key previous self in
  let expiring := expiring_without previous self in
  let sequence := wrapping_add_u64 (sequence self) 1 in
  let record := mk_StoreRecord value_ref expire_at' sequence datetimes in
  let bytes := bytes + record_size key record in
  order ← match previous with None => oi_insert key key (order self) | Some _ => Some (order self) end;
  let '(expiring, expirations) :=
    if negb (expire_at' =? 0) then
      let expirations := heap_push (expire_at', sequence, key) (expirations self) in
      (expiring + 1,
       if Z.of_nat (size remaining) * 2 + 64 <? zlen expirations
       then rebuild_expirations remaining else expirations)
    else (expiring, expirations self) in
  Some (mk_Store (<[key := record]> remaining) order expirations (expired self) sequence bytes expiring).

Definition set (key value : bytes) (expire_at : Z) (datetimes : option Datetimes) self :=
  set_ref key (Memory value) expire_at datetimes self.

Definition remove (key : bytes) (is_expired : bool) self : option (option StoreRecord * Store T) :=
  match records self !! key with
  | None => Some (None, self)
  | Some record =>
      let bytes := bytes_without key (Some record) self in
      let expiring := expiring_without (Some record) self in
      '(order, _) ← oi_delete key key (order self);
      let expired := if is_expired then expired self ++ [(key, record)] else expired self in
      Some (Some record,
            mk_Store (delete key (records self)) order (expirations self) expired
              (sequence self) bytes expiring)
  end.

Definition del (key : bytes) self : option (bool * Store T) :=
  '(removed, self) ← remove key false self;
  Some (bool_decide (is_Some removed), self).

(** ** Expiry *)

Definition is_due (now : Z) (record : StoreRecord) : bool :=
  negb (expire_at record =? 0) && (expire_at record <=? now).

Definition expire_if_needed (key : bytes) (now : Z) self : option (bool * Store T) :=
  let expired := match records self !! key with Some record => is_due now record | None => false end in
  if expired then '(_, self) ← remove key true self; Some (true, self)
  else Some (false, self).

Fixpoint reap_loop (fuel : nat) (max : option Z) (now : Z) (reaped : Z) self
    : option (Z * Store T) :=
  match fuel with
  | O => None
  | S fuel =>
      if match max with Some max => reaped <? max | None => true end then
        match expirations self with
        | [] => Some (reaped, self)
        | (expires, sequence, key) :: heap =>
            if now <? expires then Some (reaped, self)
            else
              let self := mk_Store (records self) (order self) heap (expired self)
                            (Store.sequence self) (bytes_used self) (expiring self) in
              let current := match records self !! key with
                             | Some record => (rec_sequence record =? sequence) && is_due now record
                             | None => false
                             end in
              if current then
                '(removed, self) ← remove key true self;
                reap_loop fuel max now (if decide (is_Some removed) then reaped + 1 else reaped) self
              else reap_loop fuel max now reaped self
        end
      else Some (reaped, self)
  end.

Definition reap_expired (max : option Z) (now : Z) self : option (Z * Store T) :=
  reap_loop (S (length (expirations self))) max now 0 self.

Definition take_expired self : list (bytes * StoreRecord) * Store T :=
  (expired self,
   mk_Store (records self) (order self) (expirations self) [] (sequence self)
     (bytes_used self) (expiring self)).

(** ** Reading *)

Definition materialize (value_ref : ValueRef) : result StoreError bytes :=
  match value_ref with
  | Memory value => Ok value
  | Disk location => read ← ok_or MissingValueReader read_value; read location
  end.

Definition get (key : bytes) (now : Z) self : option (result StoreError (option bytes) * Store T) :=
  '(expired, self) ← expire_if_needed key now self;
  if expired : bool then Some (Ok None, self)
  else match records self !! key with
       | Some record => Some (Some <$> materialize (value_ref record), self)
       | None => Some (Ok None, self)
       end.

Definition get_record (key : bytes) (now : Z) self : option (option StoreRecord * Store T) :=
  '(expired, self) ← expire_if_needed key now self;
  Some (if expired : bool then None else records self !! key, self).

Definition has (key : bytes) (now : Z) self : option (bool * Store T) :=
  '(expired, self) ← expire_if_needed key now self;
  Some (negb expired && bool_decide (is_Some (records self !! key)), self).

Definition entry_of (key : bytes) (record : StoreRecord) : result StoreError StoreEntry :=
  value ← materialize (value_ref record);
  Ok (mk_StoreEntry key value (expire_at record) (datetimes record)).

Fixpoint collect (l : list (bytes * StoreRecord)) : result StoreError (list StoreEntry) :=
  match l with
  | [] => Ok []
  | (key, record) :: l => e ← entry_of key record; es ← collect l; Ok (e :: es)
  end.

(** In the iteration order of the hash map, which the code leaves open. *)
Definition entries (now : Z) self : result StoreError (list StoreEntry) :=
  collect (map_to_list (filter (fun kr => is_live now kr.2 = true) (records self))).

Fixpoint scan_loop (clock : nat -> Z) (i : nat) (keys : list bytes) (output : list StoreEntry) self
    : option (result StoreError (list StoreEntry) * Store T) :=
  match keys with
  | [] => Some (Ok output, self)
  | key :: keys =>
      '(expired, self) ← expire_if_needed key (clock i) self;
      if expired : bool then scan_loop clock (S i) keys output self
      else match records self !! key with
           | Some record =>
               match entry_of key record with
               | Ok e => scan_loop clock (S i) keys (output ++ [e]) self
               | Err error => Some (Err error, self)
               end
           | None => scan_loop clock (S i) keys output self
           end
  end.

Definition scan (clock : nat -> Z) (options : RangeOptions bytes) self
    : option (result StoreError (list StoreEntry) * Store T) :=
  entries ← oi_range options (order self);
  scan_loop clock 0 (entries.*1) [] self.

(** The UTF-8 encoding of U+FFFF. *)
Definition UFFFF : bytes := [byte_of 0xef; byte_of 0xbf; byte_of 0xbf].

Definition prefix (clock : nat -> Z) (prefix : bytes) (limit : Z) self
    : option (result StoreError (list StoreEntry) * Store T) :=
  scan clock (mk_RangeOptions (Some prefix) None None (Some (prefix ++ UFFFF)) 0 (Some limit) false)
    self.

Fixpoint raw_keys_loop (clock : nat -> Z) (i : nat) (keys : list bytes) (output : list bytes) self
    : option (list bytes * Store T) :=
  match keys with
  | [] => Some (output, self)
  | key :: keys =>
      '(expired, self) ← expire_if_needed key (clock i) self;
      raw_keys_loop clock (S i) keys (if expired : bool then output else output ++ [key]) self
  end.

Definition raw_keys (clock : nat -> Z) (options : RangeOptions bytes) self
    : option (list bytes * Store T) :=
  entries ← oi_range options (order self);
  raw_keys_loop clock 0 (entries.*1) [] self.

(** ** Relocation *)

Definition remap_record (remap : bytes -> ValueLoc -> StoreRecord -> option ValueLoc)
    (key : bytes) (record : StoreRecord) : StoreRecord :=
  match value_ref record with
  | Memory _ => record
  | Disk location =>
      match remap key location record with
      | Some location =>
          mk_StoreRecord (Disk location) (expire_at record) (rec_sequence record) (datetimes record)
      | None => record
      end
  end.

Definition remap_locations (remap : bytes -> ValueLoc -> StoreRecord -> option ValueLoc) self
    : Store T :=
  mk_Store (map_imap (fun key record => Some (remap_record remap key record)) (records self))
    (order self) (expirations self) (expired self) (sequence self) (bytes_used self) (expiring self).

End store.
End Store.
