(* ===== verification/StoreFacts.v ===== *)
(** * Correctness of the record store *)

From S2P Require Import Prelude.
From S2P Require Import OrdIndex.
From S2P Require Import SkipList.
From S2P Require Import SkipListFacts.
From S2P Require Import Store.
Import OrdIndex SkipListFacts Store.

Module StoreFacts.

(** ** Keys in order *)

(** The ordered index holds each key as its own value. *)
Definition dup (k : bytes) : bytes * bytes := (k, k).

Lemma cmp_entry_dup x y : cmp_entry bytes_cmp bytes_cmp (dup x) (dup y) = bytes_cmp x y.
Proof. unfold cmp_entry, dup. simpl. by destruct (bytes_cmp x y). Qed.

Lemma sorted_insert_dup k ks :
  sorted_insert (cmp_entry bytes_cmp bytes_cmp) (dup k) (dup <$> ks) =
  dup <$> sorted_insert bytes_cmp k ks.
Proof.
  induction ks as [|x ks IH]; [done|]. rewrite fmap_cons. cbn [sorted_insert].
  rewrite cmp_entry_dup, IH. by destruct (bytes_cmp x k).
Qed.

Lemma sorted_delete_dup k ks :
  sorted_delete (cmp_entry bytes_cmp bytes_cmp) (dup k) (dup <$> ks) =
  dup <$> sorted_delete bytes_cmp k ks.
Proof.
  induction ks as [|x ks IH]; [done|]. rewrite fmap_cons. cbn [sorted_delete].
  rewrite cmp_entry_dup, IH. by destruct (bytes_cmp x k).
Qed.

(** The keys of a map, in order. *)
Record keys_of {A} (m : gmap bytes A) (ks : list bytes) : Prop := {
  keys_sorted : sorted bytes_cmp ks;
  keys_nodup : NoDup ks;
  keys_dom : forall k, k ∈ ks <-> is_Some (m !! k);
}.

Lemma keys_of_insert {A} (m : gmap bytes A) ks k a :
  keys_of m ks -> m !! k = None -> keys_of (<[k := a]> m) (sorted_insert bytes_cmp k ks).
Proof.
  intros [Hs Hn Hd] Hk. split.
  - by apply (sorted_insert_sorted bytes_cmp).
  - rewrite sorted_insert_perm. constructor; [|done]. rewrite Hd, Hk. by intros [].
  - intros x. rewrite sorted_insert_perm, elem_of_cons, Hd. destruct (decide (x = k)) as [->|].
    + rewrite lookup_insert_eq. split; [done|by left].
    + rewrite lookup_insert_ne by done. naive_solver.
Qed.

Lemma keys_of_update {A} (m : gmap bytes A) ks k a b :
  keys_of m ks -> m !! k = Some a -> keys_of (<[k := b]> m) ks.
Proof.
  intros [Hs Hn Hd] Hk. split; [done..|]. intros x. rewrite Hd.
  destruct (decide (x = k)) as [->|]; [|by rewrite lookup_insert_ne].
  rewrite lookup_insert_eq, Hk. done.
Qed.

Lemma sorted_delete_in k ks x :
  sorted bytes_cmp ks -> NoDup ks -> x ∈ sorted_delete bytes_cmp k ks <-> x ∈ ks /\ x <> k.
Proof.
  unfold sorted. induction 1 as [|y ks Hs IH Hy]; intros Hn; simpl; [set_solver|].
  apply NoDup_cons in Hn as [Hny Hn]. destruct (bytes_cmp y k) eqn:E.
  - apply bytes_cmp_eq in E as ->. set_solver.
  - assert (y <> k) by (intros ->; by rewrite cmp_refl in E by apply _).
    rewrite !elem_of_cons, IH by done. naive_solver.
  - assert (k ∉ y :: ks); [|set_solver].
    rewrite Forall_forall in Hy. intros [->|Hin]%elem_of_cons.
    + by rewrite cmp_refl in E by apply _.
    + by apply (Hy k Hin).
Qed.

Lemma sorted_delete_NoDup k ks : NoDup ks -> NoDup (sorted_delete bytes_cmp k ks).
Proof.
  induction 1 as [|y ks Hy Hn IH]; simpl; [constructor|].
  destruct (bytes_cmp y k); [done| |by constructor]. constructor; [|done].
  intros Hin. apply Hy. by apply (sorted_delete_incl bytes_cmp k ks).
Qed.

Lemma keys_of_delete {A} (m : gmap bytes A) ks k :
  keys_of m ks -> keys_of (delete k m) (sorted_delete bytes_cmp k ks).
Proof.
  intros [Hs Hn Hd]. split.
  - by apply (sorted_delete_sorted bytes_cmp).
  - by apply sorted_delete_NoDup.
  - intros x. rewrite sorted_delete_in, Hd by done.
    destruct (decide (x = k)) as [->|]; [|rewrite lookup_delete_ne by done; naive_solver].
    rewrite lookup_delete_eq. split; [by intros [_ ?]|by intros []].
Qed.

Lemma keys_of_length {A} (m : gmap bytes A) ks : keys_of m ks -> length ks = size m.
Proof.
  intros [_ Hn Hd]. rewrite <- (length_map_to_list m), <- (length_fmap fst).
  apply Permutation_length, NoDup_Permutation; [done|apply NoDup_fst_map_to_list|].
  intros k. rewrite Hd, list_elem_of_fmap. split.
  - intros [a Ha]. exists (k, a). split; [done|by apply elem_of_map_to_list].
  - intros ([k' a] & -> & Ha%elem_of_map_to_list). by exists a.
Qed.

#[export] Instance expiry_cmp_total : TotalCompare expiry_cmp.
Proof. unfold expiry_cmp. apply _. Qed.

(** ** The invariant *)

Section store.
Context {T : Type} (repr : T -> list (bytes * bytes) -> Prop).
Context `{!OrderedIndex T bytes bytes} `{!OrderedIndexLaws bytes_cmp bytes_cmp repr}.
Context (dt_json : Datetimes -> option bytes).
Context (read_value : option (ValueLoc -> result StoreError bytes)).
Implicit Types self : Store T.

Definition expiring_one (_ : bytes) (r : StoreRecord) : Z := if expire_at r =? 0 then 0 else 1.

(** The index holds the keys of the records, the counters are the sums they
    stand for and the heap is ordered. *)
Record store_ok self (ks : list bytes) : Prop := {
  ok_order : repr (order self) (dup <$> ks);
  ok_keys : keys_of (records self) ks;
  ok_bytes : bytes_used self = msum (record_size dt_json) (records self);
  ok_expiring : expiring self = msum expiring_one (records self);
  ok_heap : sorted expiry_cmp (expirations self);
}.

(** Every record with an expiry time is in the heap. *)
Definition tracked self : Prop :=
  forall k r, records self !! k = Some r -> expire_at r <> 0 ->
    (expire_at r, rec_sequence r, k) ∈ expirations self.

Lemma record_size_nonneg k r : 0 <= record_size dt_json k r.
Proof.
  unfold record_size, value_ref_bytes, metadata_bytes, DISK_REF_BYTES.
  destruct (value_ref r), (datetimes r) as [d|]; try destruct (dt_json d); zlen_pos; lia.
Qed.

Lemma expiring_one_nonneg k r : 0 <= expiring_one k r.
Proof. unfold expiring_one. by case_cmp. Qed.

Lemma new_ok : store_ok new [].
Proof.
  split; simpl.
  - apply oi_empty_spec.
  - split; [constructor..|]. intros k. rewrite lookup_empty. split; [set_solver|by intros []].
  - by rewrite msum_empty.
  - by rewrite msum_empty.
  - constructor.
Qed.

(** The counters without a key's record. *)
Lemma counters_without self ks key :
  store_ok self ks ->
  bytes_without dt_json key (records self !! key) self =
    msum (record_size dt_json) (delete key (records self)) /\
  expiring_without (records self !! key) self = msum expiring_one (delete key (records self)) /\
  bytes_without dt_json key (records self !! key) self =
    bytes_used self - record_bytes dt_json key self.
Proof.
  intros Hok. pose proof (ok_bytes _ _ Hok) as Hby. pose proof (ok_expiring _ _ Hok) as Hex.
  pose proof (msum_nonneg (record_size dt_json) (delete key (records self)) record_size_nonneg).
  pose proof (msum_nonneg expiring_one (delete key (records self)) expiring_one_nonneg).
  unfold bytes_without, expiring_without, record_bytes.
  destruct (records self !! key) as [p|] eqn:E; [|rewrite delete_id by done; lia].
  rewrite (msum_delete (record_size dt_json) _ _ _ E) in Hby.
  rewrite (msum_delete expiring_one _ _ _ E) in Hex.
  assert (expiring_one key p = if expire_at p =? 0 then 0 else 1) as Hp by done.
  unfold saturating_sub. destruct (expire_at p =? 0); simpl; lia.
Qed.

(** *** Removal *)

Lemma remove_spec self ks key is_expired :
  store_ok self ks ->
  match records self !! key with
  | None => remove dt_json key is_expired self = Some (None, self)
  | Some r =>
      exists self', remove dt_json key is_expired self = Some (Some r, self') /\
        store_ok self' (sorted_delete bytes_cmp key ks) /\
        records self' = delete key (records self) /\
        expired self' = expired self ++ (if is_expired : bool then [(key, r)] else []) /\
        expirations self' = expirations self /\ sequence self' = sequence self
  end.
Proof.
  intros Hok. unfold remove. destruct (records self !! key) as [r|] eqn:E; [|done].
  destruct (oi_delete_spec key key (order self) (dup <$> ks)) as (order' & -> & Ho').
  { apply (ok_order _ _ Hok). }
  simpl. eexists. split; [done|]. change (key, key) with (dup key) in Ho'.
  rewrite sorted_delete_dup in Ho'.
  destruct (counters_without self ks key Hok) as (Hb & He & _). rewrite E in Hb, He.
  split_and!; simpl; [|done|by destruct is_expired; rewrite ?app_nil_r|done|done].
  split; simpl; [done|by apply keys_of_delete, (ok_keys _ _ Hok)|done|done|apply (ok_heap _ _ Hok)].
Qed.

Lemma is_due_live now r : is_due now r = negb (is_live now r).
Proof. unfold is_due, is_live. rewrite negb_orb. by rewrite <- Z.leb_antisym. Qed.

Lemma expire_if_needed_spec self ks key now :
  store_ok self ks ->
  match records self !! key with
  | Some r =>
      if is_live now r then expire_if_needed dt_json key now self = Some (false, self)
      else exists self', expire_if_needed dt_json key now self = Some (true, self') /\
        store_ok self' (sorted_delete bytes_cmp key ks) /\
        records self' = delete key (records self) /\
        expired self' = expired self ++ [(key, r)] /\
        expirations self' = expirations self
  | None => expire_if_needed dt_json key now self = Some (false, self)
  end.
Proof.
  intros Hok. unfold expire_if_needed. pose proof (remove_spec self ks key true Hok) as Hr.
  destruct (records self !! key) as [r|] eqn:E; [|done].
  rewrite is_due_live. destruct (is_live now r); simpl; [done|].
  destruct Hr as (self' & -> & ? & ? & ? & ? & ?). by exists self'.
Qed.

(** *** Writing *)

(** The record that [set_ref] stores. *)
Definition written self (value_ref : ValueRef) (expire_at : Z) (datetimes : option Datetimes)
    : StoreRecord :=
  mk_StoreRecord value_ref expire_at (wrapping_add_u64 (sequence self) 1) datetimes.

Definition overflows self (key : bytes) : bool :=
  Z.of_nat (size (delete key (records self))) * 2 + 64 <? zlen (expirations self) + 1.

Lemma rebuild_expirations_in m x :
  x ∈ rebuild_expirations m <->
  exists k r, m !! k = Some r /\ expire_at r <> 0 /\ x = (expire_at r, rec_sequence r, k).
Proof.
  unfold rebuild_expirations.
  apply (map_fold_weak_ind (fun heap m => x ∈ heap <->
    exists k r, m !! k = Some r /\ expire_at r <> 0 /\ x = (expire_at r, rec_sequence r, k))).
  - split; [set_solver|]. intros (k & r & E & _). by rewrite lookup_empty in E.
  - intros k r m' heap Hk IH.
    assert ((exists k' r', <[k := r]> m' !! k' = Some r' /\ expire_at r' <> 0 /\
               x = (expire_at r', rec_sequence r', k')) <->
            (expire_at r <> 0 /\ x = (expire_at r, rec_sequence r, k)) \/ x ∈ heap) as ->.
    { rewrite IH. split.
      - intros (k' & r' & E & ?). destruct (decide (k' = k)) as [->|].
        + rewrite lookup_insert_eq in E. injection E as ->. by left.
        + rewrite lookup_insert_ne in E by done. right. by exists k', r'.
      - intros [?|(k' & r' & E & ?)].
        + exists k, r. by rewrite lookup_insert_eq.
        + exists k', r'. rewrite lookup_insert_ne; [done|]. intros ->. congruence. }
    destruct (Z.eqb_spec (expire_at r) 0); simpl; [naive_solver|].
    unfold heap_push. rewrite sorted_insert_perm, elem_of_cons. naive_solver.
Qed.

Lemma rebuild_expirations_sorted m : sorted expiry_cmp (rebuild_expirations m).
Proof.
  unfold rebuild_expirations. apply (map_fold_weak_ind (fun heap _ => sorted expiry_cmp heap)).
  - constructor.
  - intros k r m' heap _ IH. destruct (negb _); [|done]. by apply (sorted_insert_sorted expiry_cmp).
Qed.

Lemma length_heap_push x heap : zlen (heap_push x heap) = zlen heap + 1.
Proof.
  unfold zlen, heap_push. rewrite (Permutation_length (sorted_insert_perm _ _ _)). simpl. lia.
Qed.

(** The heap after [set_ref]. *)
Definition heap_after self (key : bytes) (expire_at : Z) : list Expiry :=
  if expire_at =? 0 then expirations self
  else if overflows self key then rebuild_expirations (delete key (records self))
  else heap_push (expire_at, wrapping_add_u64 (sequence self) 1, key) (expirations self).

Lemma set_ref_spec self ks key v e d :
  store_ok self ks -> Z.of_nat (size (records self)) + 1 < U64_MAX ->
  exists self', set_ref dt_json key v e d self = Some self' /\
    store_ok self' (match records self !! key with
                    | Some _ => ks | None => sorted_insert bytes_cmp key ks end) /\
    records self' = <[key := written self v e d]> (records self) /\
    bytes_used self' = bytes_used self - record_bytes dt_json key self +
                       record_size dt_json key (written self v e d) /\
    expirations self' = heap_after self key e /\ expired self' = expired self /\
    sequence self' = wrapping_add_u64 (sequence self) 1.
Proof.
  intros Hok Hbound. unfold set_ref. fold (written self v e d).
  pose proof (msum_insert (record_size dt_json) (delete key (records self)) key (written self v e d)
    (lookup_delete_eq _ _)) as Hb.
  pose proof (msum_insert expiring_one (delete key (records self)) key (written self v e d)
    (lookup_delete_eq _ _)) as He.
  rewrite insert_delete_eq in Hb, He. rewrite insert_delete_eq.
  assert (expiring_one key (written self v e d) = if e =? 0 then 0 else 1) as Hone by done.
  destruct (counters_without self ks key Hok) as (Hb0 & He0 & Hb1).
  set (bytes0 := bytes_without _ _ _ _) in *. set (expiring0 := expiring_without _ _) in *.
  assert (exists order', match records self !! key with None => oi_insert key key (order self) | Some _ => Some (order self) end = Some order' /\
    repr order' (dup <$> match records self !! key with Some _ => ks | None => sorted_insert bytes_cmp key ks end))
    as (order' & -> & Horder).
  { destruct (records self !! key) as [p|]; [by eexists; split; [|apply (ok_order _ _ Hok)]|].
    rewrite <- sorted_insert_dup. apply oi_insert_spec; [apply (ok_order _ _ Hok)|].
    unfold zlen. rewrite length_fmap, (keys_of_length _ _ (ok_keys _ _ Hok)). lia. }
  simpl. assert ((if negb (e =? 0) then _ else (expiring0, expirations self)) =
    (expiring0 + expiring_one key (written self v e d), heap_after self key e)) as ->.
  { unfold heap_after, overflows. rewrite Hone. destruct (e =? 0); simpl; [f_equal; lia|].
    by rewrite length_heap_push. }
  eexists. split; [done|]. simpl. split_and!; [|done|lia|done..].
  split; simpl; [done| |lia|lia|].
  - pose proof (ok_keys _ _ Hok). destruct (records self !! key) eqn:E;
      [by eapply keys_of_update|by apply keys_of_insert].
  - unfold heap_after. destruct (e =? 0); [apply (ok_heap _ _ Hok)|].
    destruct (overflows self key); [apply rebuild_expirations_sorted|].
    apply (sorted_insert_sorted expiry_cmp), (ok_heap _ _ Hok).
Qed.

(** C21: a write never panics; it replaces the key's record and no other, keeps
    the index of the keys, the heap order and the expiry counter right, and
    changes the byte counter by the size of the new record less that of the old
    one, which is what [estimate_set_bytes] and [record_bytes] announce. *)
Theorem set_correct self ks key value e d :
  store_ok self ks -> Z.of_nat (size (records self)) + 1 < U64_MAX ->
  exists self' ks', set dt_json key value e d self = Some self' /\ store_ok self' ks' /\
    records self' =
      <[key := mk_StoreRecord (Memory value) e (wrapping_add_u64 (sequence self) 1) d]> (records self) /\
    bytes_used self' =
      bytes_used self - record_bytes dt_json key self + estimate_set_bytes dt_json key value d true.
Proof.
  intros Hok Hb. destruct (set_ref_spec self ks key (Memory value) e d Hok Hb)
    as (self' & Hs & Hok' & Hr & Hby & _). by eexists _, _.
Qed.

(** A read returns the value of the record when there is one that has not
    expired, and nothing otherwise; an expired record is removed and queued for
    [take_expired], and nothing else changes. *)
Theorem get_correct self ks key now :
  store_ok self ks ->
  exists self' ks', get dt_json read_value key now self =
      Some (match records self !! key with
            | Some r => if is_live now r then Some <$> materialize read_value (value_ref r) else Ok None
            | None => Ok None
            end, self') /\
    store_ok self' ks' /\
    match records self !! key with
    | Some r => if is_live now r then self' = self
                else records self' = delete key (records self) /\
                     expired self' = expired self ++ [(key, r)]
    | None => self' = self
    end.
Proof.
  intros Hok. unfold get. pose proof (expire_if_needed_spec self ks key now Hok) as He.
  destruct (records self !! key) as [r|] eqn:E; [destruct (is_live now r)|].
  - rewrite He. simpl. rewrite E. by exists self, ks.
  - destruct He as (self' & -> & ? & ? & ? & ?). simpl. by eexists self', _.
  - rewrite He. simpl. rewrite E. by exists self, ks.
Qed.

(** *** Reaping *)

Lemma set_ref_tracked self ks key v e d self' :
  store_ok self ks -> Z.of_nat (size (records self)) + 1 < U64_MAX -> tracked self ->
  overflows self key = false -> set_ref dt_json key v e d self = Some self' -> tracked self'.
Proof.
  intros Hok Hb Ht Hov Hset.
  destruct (set_ref_spec self ks key v e d Hok Hb) as (s2 & Hs & _ & Hr & _ & Hh & _).
  rewrite Hset in Hs. injection Hs as <-. intros k r Hk Hne. rewrite Hr in Hk. rewrite Hh.
  unfold heap_after. rewrite Hov. destruct (decide (k = key)) as [->|Hkne].
  - rewrite lookup_insert_eq in Hk. injection Hk as <-. simpl in *.
    destruct (Z.eqb_spec e 0); [done|]. unfold heap_push. rewrite sorted_insert_perm. set_solver.
  - rewrite lookup_insert_ne in Hk by done. specialize (Ht k r Hk Hne).
    destruct (e =? 0); [done|]. unfold heap_push. rewrite sorted_insert_perm. set_solver.
Qed.

(** What the loop of [reap_expired] does from [self] to [self']: it takes out
    [gone], all of them due. *)
Record reaps (now : Z) self self' (gone : list (bytes * StoreRecord)) : Prop := {
  reaps_expired : expired self' = expired self ++ gone;
  reaps_nodup : NoDup gone.*1;
  reaps_due : forall k r, (k, r) ∈ gone -> records self !! k = Some r /\ is_live now r = false;
  reaps_records : forall k, records self' !! k = if decide (k ∈ gone.*1) then None else records self !! k;
  reaps_heap : forall k, k ∈ gone.*1 -> k ∈ (expirations self).*2;
}.

Lemma reaps_refl now self self' :
  expired self' = expired self -> records self' = records self -> reaps now self self' [].
Proof.
  intros He Hr. split.
  - by rewrite app_nil_r.
  - constructor.
  - set_solver.
  - intros k. rewrite decide_False by set_solver. by rewrite Hr.
  - set_solver.
Qed.

Lemma reaps_step now self s1 self' k r gone :
  records self !! k = Some r -> is_live now r = false ->
  records s1 = delete k (records self) -> expired s1 = expired self ++ [(k, r)] ->
  (expirations self).*2 = k :: (expirations s1).*2 ->
  reaps now s1 self' gone -> reaps now self self' ((k, r) :: gone).
Proof.
  intros Hk Hl Hr He Hh [E N D R Hg].
  assert (k ∉ gone.*1) as Hfresh.
  { intros ([k' r'] & -> & Hin)%list_elem_of_fmap. apply D in Hin as [Hin _].
    rewrite Hr, lookup_delete_eq in Hin. done. }
  split; simpl.
  - by rewrite E, He, <- app_assoc.
  - by constructor.
  - intros k' r' [[= -> ->]|Hin]%elem_of_cons; [done|].
    destruct (D k' r' Hin) as [Hin' ?]. rewrite Hr in Hin'. split; [|done].
    by apply lookup_delete_Some in Hin' as [_ ?].
  - intros k'. rewrite R, Hr. destruct (decide (k' = k)) as [->|].
    + rewrite decide_False, decide_True by set_solver. apply lookup_delete_eq.
    + rewrite lookup_delete_ne by done.
      destruct (decide (k' ∈ gone.*1)); [rewrite decide_True|rewrite decide_False]; set_solver.
  - rewrite Hh. set_solver.
Qed.

Definition with_heap self (heap : list Expiry) : Store T :=
  mk_Store (records self) (order self) heap (expired self) (sequence self) (bytes_used self)
    (expiring self).

Lemma with_heap_ok self ks k e q heap :
  store_ok self ks -> expirations self = (e, q, k) :: heap -> store_ok (with_heap self heap) ks.
Proof.
  intros [Ho Hk Hb He Hh] E. split; simpl; try done. rewrite E in Hh.
  by apply StronglySorted_inv in Hh as [? _].
Qed.

(** When the head of the heap is not due, no record is. *)
Lemma none_due self ks now :
  store_ok self ks -> tracked self ->
  (forall x, head (expirations self) = Some x -> now < x.1.1) ->
  forall k r, records self !! k = Some r -> is_live now r = true.
Proof.
  intros Hok Ht Hnow k r Hk. unfold is_live. destruct (Z.eqb_spec (expire_at r) 0) as [|Hne]; [done|].
  specialize (Ht k r Hk Hne). pose proof (ok_heap _ _ Hok) as Hh. simpl. apply Z.ltb_lt.
  destruct (expirations self) as [|[[e q] k'] heap]; [set_solver|].
  specialize (Hnow _ eq_refl). simpl in Hnow.
  apply elem_of_cons in Ht as [[= <- <- <-]|Ht]; [done|].
  apply StronglySorted_inv in Hh as [_ Hh]. rewrite Forall_forall in Hh. specialize (Hh _ Ht).
  unfold expiry_cmp, cmp_entry in Hh. simpl in Hh.
  destruct (Z.compare_spec e (expire_at r)); [lia|lia|done].
Qed.

Lemma reap_loop_spec fuel max now n self ks :
  store_ok self ks -> (length (expirations self) < fuel)%nat ->
  exists gone self' ks', reap_loop dt_json fuel max now n self = Some (n + zlen gone, self') /\
    store_ok self' ks' /\ reaps now self self' gone /\
    (tracked self -> tracked self' /\
       (max = None -> forall k r, records self' !! k = Some r -> is_live now r = true)) /\
    (forall m, max = Some m -> n <= m -> n + zlen gone <= m).
Proof.
  revert n self ks. induction fuel as [|fuel IH]; intros n self ks Hok Hf; [lia|]. simpl.
  destruct (match max with Some m => n <? m | None => true end) eqn:Emax.
  2: { exists [], self, ks. rewrite zlen_nil, Z.add_0_r.
    split_and!; try done; [by apply reaps_refl|]. intros Ht. split; [done|].
    by intros E; rewrite E in Emax. }
  destruct (expirations self) as [|[[e q] k] heap] eqn:Eh.
  { exists [], self, ks. rewrite zlen_nil, Z.add_0_r. split_and!; try done; [by apply reaps_refl|].
    intros Ht. split; [done|]. intros _. apply (none_due self ks now Hok Ht). rewrite Eh. set_solver. }
  destruct (Z.ltb_spec now e) as [Hnow|Hnow].
  { exists [], self, ks. rewrite zlen_nil, Z.add_0_r. split_and!; try done; [by apply reaps_refl|].
    intros Ht. split; [done|]. intros _. apply (none_due self ks now Hok Ht). rewrite Eh. by intros x [= <-]. }
  pose proof (with_heap_ok self ks k e q heap Hok Eh) as Hok1. fold (with_heap self heap).
  destruct (match records self !! k with Some record => _ | None => false end) eqn:Ecur.
  - destruct (records self !! k) as [r|] eqn:Ek; [|done].
    apply andb_true_iff in Ecur as [_ Hdue]. rewrite is_due_live, negb_true_iff in Hdue.
    pose proof (remove_spec (with_heap self heap) ks k true Hok1) as Hrem. simpl in Hrem. rewrite Ek in Hrem.
    destruct Hrem as (s1 & -> & Hok2 & Hr & He & Hh & _). simpl in *.
    destruct (IH (n + 1) s1 _ Hok2) as (gone & s2 & ks2 & -> & Hok3 & Hreaps & Htr & Hmax).
    { rewrite Hh. simpl in Hf. lia. }
    exists ((k, r) :: gone), s2, ks2. rewrite zlen_cons. split_and!; try done.
    + do 2 f_equal. lia.
    + eapply reaps_step; try done. by rewrite Eh, Hh.
    + intros Ht. apply Htr. intros k' r' Hk' Hne. rewrite Hr in Hk'.
      apply lookup_delete_Some in Hk' as [Hkk Hk'].
      specialize (Ht k' r' Hk' Hne). rewrite Eh in Ht. rewrite Hh. set_solver.
    + intros m Hm Hle. rewrite Hm in Emax. apply Z.ltb_lt in Emax. specialize (Hmax m Hm). lia.
  - destruct (IH n (with_heap self heap) ks Hok1) as (gone & s2 & ks2 & -> & Hok3 & [E N D R Hg] & Htr & Hmax).
    { simpl in Hf |- *. lia. }
    exists gone, s2, ks2. split_and!; try done.
    + split; try done. rewrite Eh. simpl in Hg |- *. set_solver.
    + intros Ht. apply Htr. intros k' r' Hk' Hne. specialize (Ht k' r' Hk' Hne). rewrite Eh in Ht.
      apply elem_of_cons in Ht as [[= <- <- <-]|Ht]; [|done]. simpl in Hk'. rewrite Hk' in Ecur.
      rewrite Z.eqb_refl in Ecur. unfold is_due in Ecur. simpl in Ecur.
      destruct (Z.eqb_spec (expire_at r') 0), (Z.leb_spec (expire_at r') now); simpl in Ecur; done || lia.
Qed.

(** C22: the active expiry cycle terminates and, on a store all of whose
    expiring records are in the heap, with no limit it removes exactly the
    records that have expired, queues each for [take_expired] and returns their
    number; the store stays well formed. *)
Theorem reap_removes_exactly_the_expired self ks now :
  store_ok self ks -> tracked self ->
  exists n self' ks', reap_expired dt_json None now self = Some (n, self') /\
    store_ok self' ks' /\ tracked self' /\
    (forall k, records self' !! k =
      match records self !! k with Some r => if is_live now r then Some r else None | None => None end) /\
    exists gone, expired self' = expired self ++ gone /\ n = zlen gone /\ NoDup gone.*1 /\
      forall k r, (k, r) ∈ gone <-> records self !! k = Some r /\ is_live now r = false.
Proof.
  intros Hok Ht.
  destruct (reap_loop_spec (S (length (expirations self))) None now 0 self ks Hok)
    as (gone & self' & ks' & Hloop & Hok' & [E N D R _] & Htr & _); [lia|].
  destruct (Htr Ht) as [Ht' Hall].
  assert (forall k, records self' !! k =
    match records self !! k with Some r => if is_live now r then Some r else None | None => None end) as Hrec.
  { intros k. specialize (Hall eq_refl k). rewrite R in Hall |- *.
    destruct (decide (k ∈ gone.*1)) as [Hin|Hin].
    - apply list_elem_of_fmap in Hin as ([k' r] & -> & Hin). apply D in Hin as [Hk Hl].
      simpl. by rewrite Hk, Hl.
    - destruct (records self !! k) as [r|]; [|done]. by rewrite Hall. }
  exists (zlen gone), self', ks'. split_and!; try done. exists gone. split_and!; try done.
  intros k r. split; [apply D|]. intros [Hk Hl]. specialize (Hrec k). rewrite Hk, Hl, R in Hrec.
  destruct (decide (k ∈ gone.*1)) as [Hin|Hin]; [|congruence].
  apply list_elem_of_fmap in Hin as ([k' r'] & -> & Hin). apply D in Hin as Hin'. simpl in *.
  destruct Hin' as [Hk' _]. rewrite Hk in Hk'. by injection Hk' as ->.
Qed.

(** A write with an expiry time that makes the heap overflow rebuilds it
    from the records without the one being written: the key is stored with its
    expiry time but no cycle of [reap_expired] will ever remove it. *)
Theorem overflowing_write_is_never_reaped self ks key v e d :
  store_ok self ks -> Z.of_nat (size (records self)) + 1 < U64_MAX ->
  e <> 0 -> overflows self key = true ->
  exists self', set_ref dt_json key v e d self = Some self' /\
    records self' !! key = Some (written self v e d) /\
    forall max now, exists n self'', reap_expired dt_json max now self' = Some (n, self'') /\
      records self'' !! key = Some (written self v e d).
Proof.
  intros Hok Hb He Hov.
  destruct (set_ref_spec self ks key v e d Hok Hb) as (s1 & Hs & Hok1 & Hr & _ & Hh & _).
  assert (records s1 !! key = Some (written self v e d)) as Hk by by rewrite Hr, lookup_insert_eq.
  exists s1. split_and!; [done..|]. intros max now.
  destruct (reap_loop_spec (S (length (expirations s1))) max now 0 s1 _ Hok1)
    as (gone & s2 & ks2 & Hloop & _ & [_ _ _ R Hg] & _); [lia|].
  exists (0 + zlen gone), s2. split; [done|]. rewrite R, decide_False; [done|].
  intros Hin. apply Hg, list_elem_of_fmap in Hin as ([[e' q'] k'] & Heq & Hin). simpl in Heq. subst k'.
  rewrite Hh in Hin. unfold heap_after in Hin. rewrite Hov in Hin.
  destruct (Z.eqb_spec e 0); [done|]. apply rebuild_expirations_in in Hin as (k & r & Hl & _ & [= _ _ ->]).
  by rewrite lookup_delete_eq in Hl.
Qed.

(** *** Scans *)

(** The records a scan meets: those of [keys] that are live when reached. *)
Fixpoint scan_hits (clock : nat -> Z) (i : nat) (keys : list bytes) (m : gmap bytes StoreRecord)
    : list (bytes * StoreRecord) :=
  match keys with
  | [] => []
  | key :: keys =>
      match m !! key with
      | Some r => if is_live (clock i) r then (key, r) :: scan_hits clock (S i) keys m
                  else scan_hits clock (S i) keys m
      | None => scan_hits clock (S i) keys m
      end
  end.

Lemma scan_hits_delete clock i keys m k :
  k ∉ keys -> scan_hits clock i keys (delete k m) = scan_hits clock i keys m.
Proof.
  revert i. induction keys as [|key keys IH]; intros i Hk; simpl; [done|].
  apply not_elem_of_cons in Hk as [Hne Hk]. rewrite lookup_delete_ne by done. by rewrite IH.
Qed.

(** Only expired records leave the store. *)
Definition only_expired_leave (clock : nat -> Z) self self' : Prop :=
  (forall k r, records self' !! k = Some r -> records self !! k = Some r) /\
  (forall k r, records self !! k = Some r -> records self' !! k = None ->
     exists j, is_live (clock j) r = false).

Lemma only_expired_leave_refl clock self : only_expired_leave clock self self.
Proof. split; [done|]. intros k r E1 E2. congruence. Qed.

Lemma only_expired_leave_step clock i self s1 s2 k r :
  records self !! k = Some r -> is_live (clock i) r = false ->
  records s1 = delete k (records self) -> only_expired_leave clock s1 s2 ->
  only_expired_leave clock self s2.
Proof.
  intros Hk Hl Hr [H1 H2]. rewrite Hr in H1, H2. split.
  - intros k' r' Hk'. apply H1, lookup_delete_Some in Hk' as [_ ?]. done.
  - intros k' r' Hk' Hn. destruct (decide (k' = k)) as [->|Hne].
    + exists i. congruence.
    + apply (H2 k' r'); [by rewrite lookup_delete_ne|done].
Qed.

Lemma collect_app l1 l2 :
  collect read_value (l1 ++ l2) =
  (es1 ← collect read_value l1; es2 ← collect read_value l2; Ok (es1 ++ es2)).
Proof.
  induction l1 as [|[k r] l1 IH]; simpl.
  - by destruct (collect read_value l2).
  - destruct (entry_of read_value k r); simpl; [|done]. rewrite IH.
    destruct (collect read_value l1); simpl; [|done]. by destruct (collect read_value l2).
Qed.

Lemma scan_loop_spec clock i keys out self ks :
  store_ok self ks -> NoDup keys ->
  exists self' ks', scan_loop dt_json read_value clock i keys out self =
      Some (app out <$> collect read_value (scan_hits clock i keys (records self)), self') /\
    store_ok self' ks' /\ only_expired_leave clock self self'.
Proof.
  intros Hok Hn. revert i out self ks Hok.
  induction Hn as [|key keys Hkey Hn IH]; intros i out self ks Hok; simpl.
  { exists self, ks. rewrite app_nil_r. split_and!; [done..|apply only_expired_leave_refl]. }
  pose proof (expire_if_needed_spec self ks key (clock i) Hok) as He.
  destruct (records self !! key) as [r|] eqn:Er; [destruct (is_live (clock i) r) eqn:El|].
  - rewrite He. simpl. rewrite Er. destruct (entry_of read_value key r) as [e|err]; simpl.
    + destruct (IH (S i) (out ++ [e]) self ks Hok) as (self' & ks' & -> & ? & ?).
      exists self', ks'. split; [|done]. do 2 f_equal.
      destruct (collect read_value _); simpl; [|done]. by rewrite <- app_assoc.
    + exists self, ks. split_and!; [done..|apply only_expired_leave_refl].
  - destruct He as (s1 & -> & Hok1 & Hr & _). simpl.
    destruct (IH (S i) out s1 _ Hok1) as (self' & ks' & -> & ? & ?).
    exists self', ks'. rewrite Hr, scan_hits_delete by done. split_and!; [done..|].
    by eapply only_expired_leave_step.
  - rewrite He. simpl. rewrite Er. apply (IH (S i) out self ks Hok).
Qed.

(** The keys a range query selects. *)
Definition page_keys (o : RangeOptions bytes) (ks : list bytes) : list bytes :=
  let hits := filter (fun k => in_bounds bytes_cmp o k = true) ks in
  page o (if reverse o then rev hits else hits).

Lemma range_spec_dup o ks : (range_spec bytes_cmp o (dup <$> ks)).*1 = page_keys o ks.
Proof.
  unfold range_spec, page_keys, page.
  assert (filter (fun e => in_bounds bytes_cmp o e.1 = true) (dup <$> ks) =
    dup <$> filter (fun k => in_bounds bytes_cmp o k = true) ks) as ->.
  { induction ks as [|k ks IH]; [done|]. rewrite fmap_cons, !filter_cons. simpl.
    case_decide; simpl; [by rewrite IH|done]. }
  rewrite fmap_take, fmap_drop. f_equal. f_equal.
  assert (forall l : list bytes, (dup <$> l).*1 = l) as Hid.
  { induction l as [|k l IH]; [done|]. by rewrite !fmap_cons, IH. }
  destruct (reverse o); [|apply Hid].
  change (rev (dup <$> ?l)) with (rev (map dup l)). rewrite <- map_rev. apply Hid.
Qed.

Lemma page_keys_NoDup o ks : NoDup ks -> NoDup (page_keys o ks).
Proof.
  intros Hn. unfold page_keys, page.
  eapply sublist_NoDup; [|etrans; [apply sublist_take|apply sublist_drop]].
  destruct (reverse o); [|by apply NoDup_filter].
  rewrite <- Permutation_rev. by apply NoDup_filter.
Qed.

Lemma scan_spec self ks clock o :
  store_ok self ks ->
  exists self' ks', scan dt_json read_value clock o self =
      Some (collect read_value (scan_hits clock 0 (page_keys o ks) (records self)), self') /\
    store_ok self' ks' /\ only_expired_leave clock self self'.
Proof.
  intros Hok. unfold scan. rewrite (oi_range_spec o _ _ (ok_order _ _ Hok)). simpl.
  rewrite range_spec_dup.
  destruct (scan_loop_spec clock 0 (page_keys o ks) [] self ks Hok) as (self' & ks' & -> & ? & ?).
  { apply page_keys_NoDup, (ok_keys _ _ Hok). }
  exists self', ks'. split; [|done]. do 2 f_equal. by destruct (collect read_value _).
Qed.

(** A scan terminates without panic and answers with the records, live when
    the scan reaches them, of the page of keys its bounds, offset and count
    select, in key order or in reverse; it fails exactly when one of their
    values cannot be read.  Only expired records leave the store. *)
Theorem scan_correct self ks clock o :
  store_ok self ks ->
  exists self' ks', scan dt_json read_value clock o self =
      Some (collect read_value (scan_hits clock 0 (page_keys o ks) (records self)), self') /\
    store_ok self' ks' /\ only_expired_leave clock self self'.
Proof. apply scan_spec. Qed.

(** *** Prefixes *)

(** [k] extends [p] by a suffix smaller than U+FFFF. *)
Fixpoint extends_below (p k : bytes) : bool :=
  match p, k with
  | [], t => is_lt (bytes_cmp t UFFFF)
  | a :: p, b :: k => bool_decide (a = b) && extends_below p k
  | _ :: _, [] => false
  end.

Lemma extends_below_spec p k :
  extends_below p k = true <-> exists t, k = p ++ t /\ bytes_cmp t UFFFF = Lt.
Proof.
  revert k. induction p as [|a p IH]; intros k; cbn [extends_below].
  - split.
    + intros Hk. exists k. split; [done|]. by destruct (bytes_cmp k UFFFF).
    + intros (t & -> & Ht). simpl app. by rewrite Ht.
  - destruct k as [|b k]; [split; [done|]; by intros (t & ? & _)|].
    rewrite andb_true_iff, bool_decide_eq_true, IH. split.
    + intros (-> & t & -> & Ht). by exists t.
    + intros (t & [= -> ->] & Ht). split; [done|]. by exists t.
Qed.

Lemma prefix_bounds p k limit :
  in_bounds bytes_cmp (mk_RangeOptions (Some p) None None (Some (p ++ UFFFF)) 0 (Some limit) false) k =
  extends_below p k.
Proof.
  unfold in_bounds, from_start, in_upper, bounded. cbn [reverse gte lte lt andb].
  revert k. induction p as [|a p IH]; intros k; cbn [extends_below app].
  - by destruct k.
  - destruct k as [|b k]; [done|]. cbn [bytes_cmp].
    destruct (Z.compare_spec (byte_val b) (byte_val a)) as [E|E|E].
    + rewrite IH. rewrite bool_decide_eq_true_2; [done|]. by rewrite <- (byte_of_val a), <- E, byte_of_val.
    + rewrite bool_decide_eq_false_2; [done|]. intros ->. lia.
    + rewrite bool_decide_eq_false_2; [done|]. intros ->. lia.
Qed.

(** [prefix] answers with the live records among the first [limit] keys that
    extend the prefix by a suffix below the UTF-8 encoding of U+FFFF; a key
    that goes on with a character beyond the basic plane is not found. *)
Theorem prefix_correct self ks clock p limit :
  store_ok self ks ->
  (forall k, extends_below p k = true <-> exists t, k = p ++ t /\ bytes_cmp t UFFFF = Lt) /\
  exists self' ks', prefix dt_json read_value clock p limit self =
      Some (collect read_value (scan_hits clock 0
        (take (Z.to_nat limit) (filter (fun k => extends_below p k = true) ks)) (records self)), self') /\
    store_ok self' ks' /\ only_expired_leave clock self self'.
Proof.
  intros Hok. split; [apply extends_below_spec|].
  destruct (scan_spec self ks clock
    (mk_RangeOptions (Some p) None None (Some (p ++ UFFFF)) 0 (Some limit) false) Hok)
    as (self' & ks' & Hs & ? & ?).
  exists self', ks'. split; [|done]. unfold prefix. rewrite Hs. do 3 f_equal.
  unfold page_keys, page. cbn [reverse OrdIndex.offset count default]. change (Z.to_nat 0) with 0%nat.
  rewrite drop_0. do 2 f_equal. apply list_filter_iff. intros k. by rewrite prefix_bounds.
Qed.

(** *** Relocation *)

Lemma remap_record_keeps remap k r :
  expire_at (remap_record remap k r) = expire_at r /\
  rec_sequence (remap_record remap k r) = rec_sequence r /\
  datetimes (remap_record remap k r) = datetimes r /\
  record_size dt_json k (remap_record remap k r) = record_size dt_json k r.
Proof.
  unfold remap_record, record_size. destruct (value_ref r) eqn:E; [by rewrite E|].
  destruct (remap k location r); simpl; by rewrite ?E.
Qed.

Lemma msum_imap (f : bytes -> StoreRecord -> Z) g m :
  (forall k r, f k (g k r) = f k r) -> msum f (map_imap (fun k r => Some (g k r)) m) = msum f m.
Proof.
  intros Hf. induction m as [|k r m Hk IH] using map_ind; [by rewrite map_imap_empty|].
  rewrite map_imap_insert_Some with (y := g k r) by done.
  rewrite !msum_insert, IH, Hf; [done|done|]. by rewrite map_lookup_imap, Hk.
Qed.

(** Relocating the disk values keeps the store well formed and its expiring
    records in the heap. *)
Lemma remap_locations_ok remap self ks :
  store_ok self ks ->
  store_ok (remap_locations remap self) ks /\
  (tracked self -> tracked (remap_locations remap self)) /\
  forall k, records (remap_locations remap self) !! k = remap_record remap k <$> records self !! k.
Proof.
  intros [Ho [Hks Hkn Hkd] Hb He Hh].
  assert (forall k, records (remap_locations remap self) !! k = remap_record remap k <$> records self !! k)
    as Hl.
  { intros k. simpl. rewrite map_lookup_imap. by destruct (records self !! k). }
  split_and!; [|  |done].
  - split; [done| | | |done].
    + split; [done..|]. intros k. rewrite Hl, fmap_is_Some. apply Hkd.
    + simpl. rewrite Hb. symmetry. apply msum_imap. intros k r. apply (remap_record_keeps remap k r).
    + simpl. rewrite He. symmetry. apply msum_imap. intros k r. unfold expiring_one.
      by destruct (remap_record_keeps remap k r) as [-> _].
  - intros Ht k r Hk Hne. rewrite Hl in Hk. apply fmap_Some in Hk as (r0 & Hk & ->).
    destruct (remap_record_keeps remap k r0) as (E1 & E2 & _ & _). rewrite E1, E2 in *. by apply Ht.
Qed.

(** Writing many records. *)
Definition put_key (ks : list bytes) (k : bytes) : list bytes :=
  if decide (k ∈ ks) then ks else sorted_insert bytes_cmp k ks.

Lemma set_all_ok (l : list (bytes * bytes * Z)) self ks :
  store_ok self ks -> Z.of_nat (size (records self)) + zlen l < U64_MAX ->
  exists self', foldM (fun s x => set dt_json x.1.1 x.1.2 x.2 None s) self l = Some self' /\
    store_ok self' (fold_left put_key (l.*1.*1) ks).
Proof.
  revert self ks. induction l as [|[[k v] e] l IH]; intros self ks Hok Hb; simpl; [by eexists _|].
  rewrite zlen_cons in Hb.
  destruct (set_ref_spec self ks k (Memory v) e None Hok) as (s1 & Hs & Hok1 & Hr & _); [zlia|].
  unfold set. rewrite Hs. simpl. apply IH.
  - unfold put_key. pose proof (keys_dom _ _ (ok_keys _ _ Hok) k) as Hd.
    destruct (records self !! k) eqn:E.
    + rewrite decide_True; [done|]. by apply Hd.
    + rewrite decide_False; [done|]. intros [? ?]%Hd. congruence.
  - rewrite Hr, map_size_insert. destruct (records self !! k); simpl; zlia.
Qed.

End store.

(** ** Examples, on the skip list *)

(** The index the code builds: a skip list with [Vec::<u8>::cmp] on both sides. *)
Definition KeyIndex : Type := SkipList.SkipList bytes bytes.
Definition key_index_repr : KeyIndex -> list (bytes * bytes) -> Prop :=
  SkipListFacts.repr bytes_cmp bytes_cmp.
#[export] Instance key_index : OrderedIndex KeyIndex bytes bytes :=
  skiplist_index bytes_cmp bytes_cmp.
#[export] Instance key_index_laws : OrderedIndexLaws bytes_cmp bytes_cmp key_index_repr :=
  skiplist_index_laws bytes_cmp bytes_cmp.

Section examples.
Let json : Datetimes -> option bytes := fun _ => None.
Let key (z : Z) : bytes := [byte_of z].
Let put := foldM (fun (s : Store KeyIndex) x => set json x.1.1 x.1.2 x.2 None s) new.
Let writes : list (bytes * bytes * Z) :=
  [(key 98, key 1, 0); (key 97, key 2, 50); (key 97 ++ key 0xf0, key 3, 0); (key 98, key 4, 70)].
Let keys : list bytes := [key 97; key 97 ++ key 0xf0; key 98].
(** Sixty-four writes of one key with an expiry time; one more overflows. *)
Let rewrites : list (bytes * bytes * Z) := replicate 64 (key 97, key 1, 50).

Lemma put_ok l :
  zlen l < U64_MAX ->
  exists s, put l = Some s /\ store_ok key_index_repr json s (fold_left put_key (l.*1.*1) []).
Proof.
  intros Hl. apply (set_all_ok key_index_repr json l new []); [|done].
  apply new_ok. apply _.
Qed.

(** What is computed on the result of the writes holds of it. *)
Lemma computed {A} (f : Store KeyIndex -> A) (l : list (bytes * bytes * Z)) s (x : A) :
  put l = Some s -> f <$> put l = Some x -> f s = x.
Proof. intros ->. by intros [= ->]. Qed.

Lemma sample_ok : exists s, put writes = Some s /\ store_ok key_index_repr json s keys.
Proof.
  destruct (put_ok writes) as (s & Hs & Hok); [done|]. exists s. split; [exact Hs|].
  replace keys with (fold_left put_key (writes.*1.*1) []) by (vm_compute; reflexivity). exact Hok.
Qed.

Lemma sample_tracked s : put writes = Some s -> tracked s.
Proof.
  intros Hs.
  assert (bool_decide (map_Forall (fun k r =>
    expire_at r = 0 \/ (expire_at r, rec_sequence r, k) ∈ expirations s) (records s)) = true) as Ht.
  { apply (computed (fun s => bool_decide (map_Forall (fun k r =>
      expire_at r = 0 \/ (expire_at r, rec_sequence r, k) ∈ expirations s) (records s))) writes s true Hs).
    vm_compute. reflexivity. }
  apply bool_decide_eq_true in Ht. intros k r Hk Hne. destruct (Ht k r Hk) as [Hz|Hin]; [by clear Hs|exact Hin].
Qed.

Lemma set_correct_witness :
  exists s s', put writes = Some s /\ set json (key 99) (key 5) 0 None s = Some s' /\
    bytes_used s' = bytes_used s + 2.
Proof.
  destruct sample_ok as (s & Hs & Hok).
  destruct (set_correct key_index_repr json s keys (key 99) (key 5) 0 None Hok)
    as (s' & ks' & Hset & _ & _ & Hb).
  - rewrite (computed (fun s => size (records s)) writes s 3%nat Hs); [reflexivity|vm_compute; reflexivity].
  - exists s, s'. split; [exact Hs|]. split; [exact Hset|]. rewrite Hb.
    rewrite (computed (record_bytes json (key 99)) writes s 0 Hs); [|vm_compute; reflexivity].
    clear Hs. change (estimate_set_bytes json (key 99) (key 5) None true) with 2. lia.
Defined.

Lemma get_correct_witness :
  exists s s', put writes = Some s /\ get json None (key 98) 60 s = Some (Ok (Some (key 4)), s').
Proof.
  destruct sample_ok as (s & Hs & Hok).
  destruct (get_correct key_index_repr json None s keys (key 98) 60 Hok) as (s' & ks' & Hg & _).
  rewrite (computed (fun s => records s !! key 98) writes s
    (Some (mk_StoreRecord (Memory (key 4)) 70 4 None)) Hs) in Hg; [|vm_compute; reflexivity].
  exists s, s'. split; [exact Hs|exact Hg].
Defined.

Lemma reap_removes_exactly_the_expired_witness :
  exists s n s', put writes = Some s /\ reap_expired json None 60 s = Some (n, s') /\
    records s' !! key 97 = None /\ is_Some (records s' !! key 98).
Proof.
  destruct sample_ok as (s & Hs & Hok).
  destruct (reap_removes_exactly_the_expired key_index_repr json s keys 60 Hok (sample_tracked s Hs))
    as (n & s' & ks' & Hr & _ & _ & Hrec & _).
  exists s, n, s'. split; [exact Hs|]. split; [exact Hr|]. rewrite !Hrec.
  rewrite (computed (fun s => records s !! key 97) writes s
    (Some (mk_StoreRecord (Memory (key 2)) 50 2 None)) Hs); [|vm_compute; reflexivity].
  rewrite (computed (fun s => records s !! key 98) writes s
    (Some (mk_StoreRecord (Memory (key 4)) 70 4 None)) Hs); [|vm_compute; reflexivity].
  split; [reflexivity|]. eexists. reflexivity.
Defined.

Lemma overflowing_write_is_never_reaped_witness :
  exists s s', put rewrites = Some s /\
    set_ref json (key 97) (Memory (key 1)) 50 None s = Some s' /\
    exists n s'', reap_expired json None 60 s' = Some (n, s'') /\ is_Some (records s'' !! key 97).
Proof.
  destruct (put_ok rewrites) as (s & Hs & Hok); [done|].
  destruct (overflowing_write_is_never_reaped key_index_repr json s _ (key 97) (Memory (key 1)) 50 None Hok)
    as (s' & Hset & _ & Hreap).
  - rewrite (computed (fun s => size (records s)) rewrites s 1%nat Hs); [reflexivity|vm_compute; reflexivity].
  - clear Hs. done.
  - apply (computed (fun s => overflows s (key 97)) rewrites s true Hs). vm_compute. reflexivity.
  - exists s, s'. split; [exact Hs|]. split; [exact Hset|].
    destruct (Hreap None 60) as (n & s'' & Hr & Hk). exists n, s''. split; [exact Hr|].
    rewrite Hk. eexists. reflexivity.
Defined.

Lemma scan_correct_witness :
  exists s s', put writes = Some s /\
    scan json None (fun _ => 10) (mk_RangeOptions (Some (key 97)) None None None 0 (Some 1) false) s =
      Some (Ok [mk_StoreEntry (key 97) (key 2) 50 None], s').
Proof.
  destruct sample_ok as (s & Hs & Hok).
  destruct (scan_correct key_index_repr json None s keys (fun _ => 10)
    (mk_RangeOptions (Some (key 97)) None None None 0 (Some 1) false) Hok) as (s' & ks' & Hscan & _).
  exists s, s'. split; [exact Hs|]. rewrite Hscan.
  rewrite (computed (fun s => collect None (scan_hits (fun _ => 10) 0 (page_keys _ keys) (records s)))
    writes s (Ok [mk_StoreEntry (key 97) (key 2) 50 None]) Hs); [reflexivity|vm_compute; reflexivity].
Defined.

(** The key 97 f0 extends the prefix 97 and is not found. *)
Lemma prefix_correct_witness :
  exists s s', put writes = Some s /\
    prefix json None (fun _ => 10) (key 97) 10 s =
      Some (Ok [mk_StoreEntry (key 97) (key 2) 50 None], s') /\
    is_Some (records s !! (key 97 ++ key 0xf0)).
Proof.
  destruct sample_ok as (s & Hs & Hok).
  destruct (prefix_correct key_index_repr json None s keys (fun _ => 10) (key 97) 10 Hok)
    as (_ & s' & ks' & Hp & _).
  exists s, s'. split; [exact Hs|]. split.
  - rewrite Hp. rewrite (computed (fun s => collect None (scan_hits (fun _ => 10) 0
      (take (Z.to_nat 10) (filter (fun k => extends_below (key 97) k = true) keys)) (records s)))
      writes s (Ok [mk_StoreEntry (key 97) (key 2) 50 None]) Hs); [reflexivity|vm_compute; reflexivity].
  - rewrite (computed (fun s => records s !! (key 97 ++ key 0xf0)) writes s
      (Some (mk_StoreRecord (Memory (key 3)) 0 3 None)) Hs); [eexists; reflexivity|vm_compute; reflexivity].
Defined.
End examples.
End StoreFacts.
