(* ===== verification/StoreExpiry.v ===== *)
(** * What expiry takes from the store

    Reads and the expiry cycle only ever take expired records out of a store and
    queue each one for [take_expired].  The relation [leaves] says so; it composes,
    and every reading operation of [Store] satisfies it. *)

From S2P Require Import Prelude.
From S2P Require Import OrdIndex.
From S2P Require Import Store.
From S2P Require Import StoreFacts.
Import OrdIndex Store StoreFacts.

Module StoreExpiry.

Section store.
Context {T : Type} (repr : T -> list (bytes * bytes) -> Prop).
Context `{!OrderedIndex T bytes bytes} `{!OrderedIndexLaws bytes_cmp bytes_cmp repr}.
Context (dt_json : Datetimes -> option bytes).
Context (read_value : option (ValueLoc -> result StoreError bytes)).
Implicit Types self : Store T.

Definition well_formed self : Prop := exists ks, store_ok repr dt_json self ks.

(** Records only leave, and only when they have expired at some time. *)
Definition thins (m m' : gmap bytes StoreRecord) : Prop :=
  m' ⊆ m /\ forall k r, m !! k = Some r -> m' !! k = None -> exists now, is_live now r = false.

#[export] Instance thins_preorder : PreOrder thins.
Proof.
  split; [split; [done|]; congruence|]. intros m1 m2 m3 [S1 E1] [S2 E2]. split; [by etrans|].
  intros k r Hk Hn. destruct (m2 !! k) as [r'|] eqn:E; [|by eapply E1]. eapply E2; [|done].
  rewrite E. rewrite <- Hk. symmetry. by eapply lookup_weaken.
Qed.

(** What never expires stays. *)
Lemma thins_stays m m' k r : thins m m' -> m !! k = Some r -> expire_at r = 0 -> m' !! k = Some r.
Proof.
  intros [Hs He] Hk H0. destruct (m' !! k) as [r'|] eqn:E; [rewrite <- Hk; symmetry; by eapply lookup_weaken|].
  destruct (He k r Hk E) as (now & Hl). unfold is_live in Hl. by rewrite H0 in Hl.
Qed.

Lemma thins_delete m k r now : m !! k = Some r -> is_live now r = false -> thins m (delete k m).
Proof.
  intros Hk Hl. split; [apply delete_subseteq|]. intros k' r' Hk' Hn. destruct (decide (k' = k)) as [->|Hne].
  - exists now. congruence.
  - rewrite lookup_delete_ne in Hn by done. congruence.
Qed.

Record leaves self self' : Prop := {
  l_ok : well_formed self';
  l_thins : thins (records self) (records self');
  l_gone : exists gone, expired self' = expired self ++ gone /\
    forall k r, (k, r) ∈ gone <-> records self !! k = Some r /\ records self' !! k = None;
}.

Lemma leaves_refl self : well_formed self -> leaves self self.
Proof.
  intros Hok. split; [done|reflexivity|]. exists []. rewrite app_nil_r. split; [done|]. intros k r.
  split; [by intros ?%elem_of_nil|]. intros [? ?]. congruence.
Qed.

Lemma leaves_trans s1 s2 s3 : leaves s1 s2 -> leaves s2 s3 -> leaves s1 s3.
Proof.
  intros [_ T1 (g1 & E1 & G1)] [Hok T2 (g2 & E2 & G2)]. split; [done|by etrans|].
  exists (g1 ++ g2). rewrite E2, E1, <- app_assoc. split; [done|]. intros k r. rewrite elem_of_app, G1, G2.
  destruct T1 as [S1 _], T2 as [S2 _]. split.
  - intros [[Hk Hn]|[Hk Hn]]; (split; [|done||idtac]).
    + done.
    + destruct (records s3 !! k) as [r'|] eqn:E; [|done]. pose proof (lookup_weaken _ _ _ _ E S2). congruence.
    + by eapply lookup_weaken.
  - intros [Hk Hn]. destruct (records s2 !! k) as [r'|] eqn:E; [right|by left].
    pose proof (lookup_weaken _ _ _ _ E S1). split; [congruence|done].
Qed.

Lemma leaves_one self ks self' key r now :
  store_ok repr dt_json self' ks -> records self !! key = Some r -> is_live now r = false ->
  records self' = delete key (records self) -> expired self' = expired self ++ [(key, r)] -> leaves self self'.
Proof.
  intros Hok Hk Hl Hr He. split; [by exists ks|rewrite Hr; by eapply thins_delete|].
  exists [(key, r)]. split; [done|]. intros k r'. rewrite list_elem_of_singleton, Hr. split.
  - intros [= -> ->]. by rewrite lookup_delete_eq.
  - intros [Hk' Hn]. destruct (decide (k = key)) as [->|Hne]; [congruence|].
    rewrite lookup_delete_ne in Hn by done. congruence.
Qed.

(** ** The operations *)

Lemma expire_if_needed_leaves self key now : well_formed self ->
  exists gone self', expire_if_needed dt_json key now self = Some (gone, self') /\ leaves self self' /\
    records self' = (if (gone : bool) then delete key (records self) else records self) /\
    gone = match records self !! key with Some r => negb (is_live now r) | None => false end.
Proof.
  intros [ks Hok]. pose proof (expire_if_needed_spec repr dt_json self ks key now Hok) as He.
  assert (leaves self self) as Hrefl by (apply leaves_refl; by exists ks).
  destruct (records self !! key) as [r|] eqn:E; [destruct (is_live now r) eqn:El|].
  - exists false, self. by rewrite He.
  - destruct He as (self' & -> & Hok' & Hr & Hx & _). exists true, self'. split_and!; try done.
    by eapply leaves_one.
  - exists false, self. by rewrite He.
Qed.

(** What a record is at a reading of the clock. *)
Definition live_at (now : Z) (key : bytes) (m : gmap bytes StoreRecord) : option StoreRecord :=
  r ← m !! key; if is_live now r then Some r else None.
Definition cut (now : Z) (key : bytes) (m : gmap bytes StoreRecord) : gmap bytes StoreRecord :=
  match live_at now key m with Some _ => m | None => delete key m end.

Lemma cut_lookup now key m : cut now key m !! key = live_at now key m.
Proof.
  unfold cut. destruct (live_at now key m) eqn:E; [|by rewrite lookup_delete_eq].
  unfold live_at in E. destruct (m !! key) as [r|]; [|done]. simpl in E. destruct (is_live now r); congruence.
Qed.

Lemma expired_cut now key m :
  (if match m !! key with Some r => negb (is_live now r) | None => false end then delete key m else m) = cut now key m.
Proof.
  unfold cut, live_at. destruct (m !! key) as [r|] eqn:E; simpl; [by destruct (is_live now r)|].
  by rewrite delete_id.
Qed.

Lemma get_leaves self key now : well_formed self ->
  exists r self', get dt_json read_value key now self = Some (r, self') /\ leaves self self' /\
    records self' = cut now key (records self) /\
    r = match live_at now key (records self) with
        | Some r => Some <$> materialize read_value (value_ref r)
        | None => Ok None
        end.
Proof.
  intros Hok. unfold get. destruct (expire_if_needed_leaves self key now Hok) as (gone & self' & -> & Hl & Hr & Hg).
  simpl_bind. rewrite <- expired_cut, <- Hg, <- Hr. unfold live_at. destruct gone.
  - eexists _, self'. split; [reflexivity|]. split_and!; [done..|]. destruct (records self !! key) as [r|]; [|done].
    simpl. by destruct (is_live now r).
  - rewrite Hr. destruct (records self !! key) as [r|]; [|by eexists _, self'].
    simpl. destruct (is_live now r); [|done]. by eexists _, self'.
Qed.

Lemma has_leaves self key now : well_formed self ->
  exists self', has dt_json key now self = Some (bool_decide (is_Some (live_at now key (records self))), self') /\
    leaves self self' /\ records self' = cut now key (records self).
Proof.
  intros Hok. unfold has. destruct (expire_if_needed_leaves self key now Hok) as (gone & self' & -> & Hl & Hr & Hg).
  simpl_bind. rewrite <- expired_cut, <- Hg, <- Hr. exists self'. split; [|done]. f_equal. f_equal. unfold live_at. rewrite Hr. destruct gone.
  - simpl. destruct (records self !! key) as [r|]; [|done]. simpl. by destruct (is_live now r).
  - simpl. destruct (records self !! key) as [r|]; [|done]. simpl. by destruct (is_live now r).
Qed.

Lemma reap_leaves self max now : well_formed self ->
  exists n self', reap_expired dt_json max now self = Some (n, self') /\ leaves self self'.
Proof.
  intros [ks Hok]. unfold reap_expired.
  destruct (reap_loop_spec repr dt_json (S (length (expirations self))) max now 0 self ks Hok)
    as (gone & self' & ks' & -> & Hok' & [E _ D R _] & _); [lia|].
  eexists _, self'. split; [done|]. split; [by exists ks'| |].
  - split.
    + apply map_subseteq_spec. intros k r. rewrite R. by destruct (decide _).
    + intros k r Hk Hn. rewrite R in Hn. destruct (decide (k ∈ gone.*1)) as [Hin|]; [|congruence].
      apply list_elem_of_fmap in Hin as ([k' r'] & -> & Hin). destruct (D _ _ Hin) as [Hk' Hl]. exists now. simpl in *. congruence.
  - exists gone. split; [done|]. intros k r. split.
    + intros Hin. destruct (D _ _ Hin) as [Hk _]. split; [done|]. rewrite R, decide_True; [done|].
      apply list_elem_of_fmap. by exists (k, r).
    + intros [Hk Hn]. rewrite R in Hn. destruct (decide (k ∈ gone.*1)) as [Hin|]; [|congruence].
      apply list_elem_of_fmap in Hin as ([k' r'] & -> & Hin). destruct (D _ _ Hin) as [Hk' _]. simpl in *. congruence.
Qed.

Lemma scan_loop_leaves clock i keys out self : well_formed self ->
  exists r self', scan_loop dt_json read_value clock i keys out self = Some (r, self') /\ leaves self self'.
Proof.
  revert i out self. induction keys as [|key keys IH]; intros i out self Hok; cbn [scan_loop].
  { eexists _, self. split; [done|]. by apply leaves_refl. }
  destruct (expire_if_needed_leaves self key (clock i) Hok) as (gone & s1 & -> & Hl & _). simpl_bind.
  assert (forall i out, exists r self', scan_loop dt_json read_value clock i keys out s1 = Some (r, self') /\ leaves self self') as Hrest.
  { intros i' out'. destruct (IH i' out' s1 (l_ok _ _ Hl)) as (r & self' & -> & Hl'). exists r, self'. split; [done|].
    by eapply leaves_trans. }
  destruct gone; [apply Hrest|]. destruct (records s1 !! key) as [r|]; [|apply Hrest].
  destruct (entry_of read_value key r); [apply Hrest|by eexists _, s1].
Qed.

Lemma raw_keys_loop_leaves clock i keys out self : well_formed self ->
  exists r self', raw_keys_loop dt_json clock i keys out self = Some (r, self') /\ leaves self self'.
Proof.
  revert i out self. induction keys as [|key keys IH]; intros i out self Hok; cbn [raw_keys_loop].
  { eexists _, self. split; [done|]. by apply leaves_refl. }
  destruct (expire_if_needed_leaves self key (clock i) Hok) as (gone & s1 & -> & Hl & _). simpl_bind.
  destruct (IH (S i) (if gone then out else out ++ [key]) s1 (l_ok _ _ Hl)) as (r & self' & -> & Hl').
  exists r, self'. split; [done|]. by eapply leaves_trans.
Qed.

Lemma scan_leaves clock o self : well_formed self ->
  exists r self', scan dt_json read_value clock o self = Some (r, self') /\ leaves self self'.
Proof.
  intros [ks Hok]. unfold scan. rewrite (oi_range_spec o _ _ (ok_order _ _ _ _ Hok)). simpl_bind.
  apply scan_loop_leaves. by exists ks.
Qed.

Lemma raw_keys_leaves clock o self : well_formed self ->
  exists r self', raw_keys dt_json clock o self = Some (r, self') /\ leaves self self'.
Proof.
  intros [ks Hok]. unfold raw_keys. rewrite (oi_range_spec o _ _ (ok_order _ _ _ _ Hok)). simpl_bind.
  apply raw_keys_loop_leaves. by exists ks.
Qed.

(** ** Writing *)

Lemma set_ref_ok self key v e d : well_formed self -> Z.of_nat (size (records self)) + 1 < U64_MAX ->
  exists self', set_ref dt_json key v e d self = Some self' /\ well_formed self' /\
    records self' = <[key := written self v e d]> (records self) /\ expired self' = expired self.
Proof.
  intros [ks Hok] Hb. destruct (set_ref_spec repr dt_json self ks key v e d Hok Hb) as (self' & ? & ? & ? & _ & _ & ? & _).
  exists self'. split_and!; try done. by eexists.
Qed.

Lemma del_ok self key : well_formed self ->
  exists self', del dt_json key self = Some (bool_decide (is_Some (records self !! key)), self') /\ well_formed self' /\
    records self' = delete key (records self) /\ expired self' = expired self.
Proof.
  intros [ks Hok]. unfold del. pose proof (remove_spec repr dt_json self ks key false Hok) as Hr.
  destruct (records self !! key) as [r|] eqn:E.
  - destruct Hr as (self' & -> & ? & ? & Hx & _). simpl_bind. exists self'. rewrite app_nil_r in Hx. split_and!; try done. by eexists.
  - rewrite Hr. simpl_bind. exists self. split_and!; try done; [by exists ks|]. by rewrite delete_id.
Qed.
End store.
End StoreExpiry.
