(* ===== verification/Float.v ===== *)
(** * Floats without NaN

    The numeric indexes keep 64-bit floats that are never NaN: the values indexed
    are finite ([as_f64] and [is_finite]), and the bounds of a query are taken to be
    numbers.  [f64] is the part of Corelib's [spec_float] that stands for 64-bit
    floats, less NaN; the comparison of the indexes ([partial_cmp], which is total
    there) is a total preorder in which the two zeros are equal, and the bits of
    a number determine it.  Integers of at most 53 bits are floats. *)

From Corelib Require Import SpecFloat.
From S2P Require Import Prelude.
From S2P Require Import OrdIndex.
Import OrdIndex.

Module Float.

Definition is_nan (x : spec_float) : bool := match x with S754_nan => true | _ => false end.
Definition is_finite (x : spec_float) : bool :=
  match x with S754_zero _ | S754_finite _ _ _ => true | _ => false end.

Definition is_number (x : spec_float) : bool := negb (is_nan x) && valid_binary 53 1024 x.

Record f64 := mk_f64 { float : spec_float; float_number : is_number float = true }.

#[export] Instance spec_float_eq_dec : EqDecision spec_float.
Proof. solve_decision. Defined.

Lemma f64_eq (x y : f64) : float x = float y -> x = y.
Proof. destruct x as [x Hx], y as [y Hy]. simpl. intros ->. f_equal. apply (proof_irrel Hx Hy). Qed.

#[export] Instance f64_eq_dec : EqDecision f64.
Proof.
  refine (fun x y => cast_if (decide (float x = float y))).
  - by apply f64_eq.
  - by intros ->.
Defined.

(** [filter(|value| value.is_finite())]. *)
Definition finite (x : spec_float) : option f64 :=
  if is_finite x then
    match decide (is_number x = true) with left number => Some (mk_f64 x number) | right _ => None end
  else None.

(** [skiplist.rs], [compare_number()]. *)
Definition compare_number (x y : f64) : comparison := default Eq (SFcompare (float x) (float y)).

(** [f64::to_bits]. *)
Definition to_bits (x : f64) : Z :=
  let sign (s : bool) := if s then 2 ^ 63 else 0 in
  match float x with
  | S754_zero s => sign s
  | S754_infinity s => sign s + Z.shiftl 0x7FF 52
  | S754_nan => 0
  | S754_finite s m e =>
      sign s + (if Z.pos m <? 2 ^ 52 then Z.pos m else Z.shiftl (e + 1075) 52 + (Z.pos m - 2 ^ 52))
  end.

(** *** The order *)

(** Where a number stands: its sign, and then its exponent and mantissa. *)
Definition place (x : spec_float) : Z * (Z * Z) :=
  match x with
  | S754_infinity true => (-2, (0, 0))
  | S754_finite true m e => (-1, (- e, Z.neg m))
  | S754_zero _ | S754_nan => (0, (0, 0))
  | S754_finite false m e => (1, (e, Z.pos m))
  | S754_infinity false => (2, (0, 0))
  end.

Definition place_cmp : Z * (Z * Z) -> Z * (Z * Z) -> comparison := cmp_entry Z.compare (cmp_entry Z.compare Z.compare).

Lemma compare_place x y : compare_number x y = place_cmp (place (float x)) (place (float y)).
Proof.
  unfold compare_number. destruct x as [x Hx], y as [y Hy]. cbn [float].
  destruct x as [[]|[]| |[] m e], y as [[]|[]| |[] m' e']; try done; unfold place_cmp, cmp_entry; cbn.
  rewrite Z.compare_opp, (Z.compare_antisym e e').
  by destruct (e ?= e').
Qed.

#[export] Instance compare_number_total : TotalCompare compare_number.
Proof.
  split; intros *; rewrite !compare_place.
  - apply cmp_flip.
  - apply cmp_trans.
Qed.

(** The two zeros made one. *)
Definition norm (x : f64) : f64 :=
  match float x with S754_zero _ => mk_f64 (S754_zero false) eq_refl | _ => x end.

Lemma norm_place x y : place (float x) = place (float y) <-> norm x = norm y.
Proof.
  destruct x as [x Hx], y as [y Hy]. unfold norm. cbn [float]. split.
  - destruct x as [[]|[]| |[] m e], y as [[]|[]| |[] m' e']; simpl; intros [=]; try done;
      apply f64_eq; simpl; f_equal; congruence || lia.
  - destruct x as [[]|[]| |[] m e], y as [[]|[]| |[] m' e']; simpl; intros [=]; simplify_eq; done.
Qed.

Lemma compare_number_eq x y : compare_number x y = Eq <-> norm x = norm y.
Proof.
  rewrite compare_place, <- norm_place. unfold place_cmp, cmp_entry.
  destruct (place (float x)) as [a [b c]], (place (float y)) as [a' [b' c']]. simpl.
  destruct (Z.compare_spec a a'), (Z.compare_spec b b'), (Z.compare_spec c c'); split; try done; intros [=]; lia || congruence.
Qed.

(** *** The bits *)

Lemma digits2_pos_bounds m : 2 ^ (Z.pos (digits2_pos m) - 1) <= Z.pos m < 2 ^ Z.pos (digits2_pos m).
Proof.
  induction m as [m IH|m IH|]; cbn [digits2_pos]; [..|done];
    rewrite Pos2Z.inj_succ, ?(Pos2Z.inj_xI m), ?(Pos2Z.inj_xO m), Z.pow_succ_r by lia;
    replace (Z.succ (Z.pos (digits2_pos m)) - 1) with (Z.succ (Z.pos (digits2_pos m) - 1)) by lia;
    rewrite Z.pow_succ_r by lia; lia.
Qed.

(** A subnormal mantissa has the least exponent; the others have their leading bit. *)
Lemma bounded_cases m e :
  SpecFloat.bounded 53 1024 m e = true ->
  Z.pos m < 2 ^ 52 /\ e = -1074 \/ 2 ^ 52 <= Z.pos m < 2 ^ 53 /\ -1074 <= e <= 971.
Proof.
  unfold SpecFloat.bounded, canonical_mantissa, fexp, emin. intros [He%Z.eqb_eq Hmax%Z.leb_le]%andb_true_iff.
  pose proof (digits2_pos_bounds m) as Hm. set (d := Z.pos (digits2_pos m)) in *.
  assert (d = 53 \/ d < 53) as [E|E] by lia.
  - rewrite E in *. right. simpl in Hm. lia.
  - left. split; [|lia]. eapply Z.lt_le_trans; [apply Hm|]. apply Z.pow_le_mono_r; lia.
Qed.

Lemma to_bits_inj x y : to_bits x = to_bits y -> x = y.
Proof.
  intros E. apply f64_eq. destruct x as [x Hx], y as [y Hy]. cbn [float].
  unfold to_bits in E. cbn [float] in E. unfold is_number in Hx, Hy.
  assert (forall m e, SpecFloat.bounded 53 1024 m e = true ->
    exists k, (if Z.pos m <? 2 ^ 52 then Z.pos m else (e + 1075) * 2 ^ 52 + (Z.pos m - 2 ^ 52)) = k /\
      0 < k < 0x7FF * 2 ^ 52 /\
      (k < 2 ^ 52 /\ Z.pos m = k /\ e = -1074 \/
       2 ^ 52 <= k /\ Z.pos m = k mod 2 ^ 52 + 2 ^ 52 /\ e = k / 2 ^ 52 - 1075)) as Hbits.
  { intros m e Hb. eexists. split; [reflexivity|].
    destruct (bounded_cases m e Hb) as [[Hm ->]|[Hm He]].
    - destruct (Z.ltb_spec (Z.pos m) (2 ^ 52)); [|lia]. lia.
    - destruct (Z.ltb_spec (Z.pos m) (2 ^ 52)); [lia|].
      set (k := (e + 1075) * 2 ^ 52 + (Z.pos m - 2 ^ 52)).
      assert (k `mod` 2 ^ 52 = Z.pos m - 2 ^ 52) as Em.
      { unfold k. rewrite Z.add_comm, Z_mod_plus_full. apply Z.mod_small. lia. }
      assert (k `div` 2 ^ 52 = e + 1075) as Ed.
      { unfold k. rewrite Z.div_add_l, Z.div_small by lia. lia. }
      rewrite Em, Ed. unfold k. lia. }
  destruct x as [s|s| |s m e], y as [s'|s'| |s' m' e']; try done; cbn in Hx, Hy;
    rewrite ?Z.shiftl_mul_pow2 in E by lia;
    repeat match goal with H : SpecFloat.bounded _ _ ?m ?e = true |- _ =>
      let Ek := fresh in destruct (Hbits m e H) as (? & Ek & ? & ?); rewrite Ek in E; clear H Ek end;
    destruct s, s'; try (f_equal; lia); try lia.
  all: match goal with H : ?a + ?k = ?a + ?k2 |- _ => assert (k = k2) as -> by lia | H : ?k = ?k2 |- _ => rewrite H in * end.
  all: f_equal; [|lia]. all: assert (Z.pos m = Z.pos m') by lia; congruence.
Qed.
(** *** Integers as floats *)

(** [n as f64]: the nearest float, the even one of two. *)
Definition f64_of_i64 (n : Z) : spec_float := binary_normalize 53 1024 n 0 false.

(** [f64::trunc] of a finite float, as the integer that it is. *)
Definition trunc_f64 (x : spec_float) : Z :=
  match x with
  | S754_finite s m e => (if s then Z.opp else id) (if 0 <=? e then Z.pos m * 2 ^ e else Z.pos m / 2 ^ (- e))
  | _ => 0
  end.

Lemma digits2_pos_unique m d : 2 ^ (d - 1) <= Z.pos m < 2 ^ d -> Z.pos (digits2_pos m) = d.
Proof.
  intros Hd. pose proof (digits2_pos_bounds m) as Hm. set (k := Z.pos (digits2_pos m)) in *.
  destruct (Z.lt_trichotomy k d) as [Hlt|[?|Hlt]]; [exfalso|done|exfalso].
  - assert (2 ^ k <= 2 ^ (d - 1)) by (apply Z.pow_le_mono_r; lia). lia.
  - assert (2 ^ d <= 2 ^ (k - 1)) by (apply Z.pow_le_mono_r; lia). lia.
Qed.

Lemma iter_xO m p : Z.pos (Pos.iter xO m p) = Z.pos m * 2 ^ Z.pos p.
Proof.
  induction p as [|p IH] using Pos.peano_ind; [cbn; lia|].
  rewrite Pos.iter_succ, Pos2Z.inj_succ, Z.pow_succ_r by lia. rewrite Pos2Z.inj_xO, IH. lia.
Qed.

(** A mantissa of 53 digits is not rounded. *)
Lemma binary_round_aux_full s m e : -1074 <= e <= 971 -> Z.pos (digits2_pos m) = 53 ->
  binary_round_aux 53 1024 s (Z.pos m) e loc_Exact = S754_finite s m e.
Proof.
  intros He Hd. unfold binary_round_aux.
  assert (shr_fexp 53 1024 (Z.pos m) e loc_Exact = (Build_shr_record (Z.pos m) false false, e)) as Hs.
  { unfold shr_fexp. cbn [Zdigits2]. rewrite Hd. unfold fexp, emin. replace (Z.max _ _ - e) with 0 by lia. done. }
  rewrite Hs. cbn [shr_m loc_of_shr_record round_nearest_even]. rewrite Hs. cbn [shr_m].
  destruct (Z.leb_spec e (1024 - 53)); [done|lia].
Qed.

Lemma binary_round_small s m : Z.pos m < 2 ^ 53 ->
  exists m' e, binary_round 53 1024 s m 0 = S754_finite s m' e /\ e <= 0 /\ Z.pos m' = Z.pos m * 2 ^ (- e).
Proof.
  intros Hm. pose proof (digits2_pos_bounds m) as Hd. set (d := Z.pos (digits2_pos m)) in *.
  assert (0 < d) by (unfold d; lia).
  assert (d <= 53). { destruct (Z.le_gt_cases d 53); [done|]. assert (2 ^ 53 <= 2 ^ (d - 1)) by (apply Z.pow_le_mono_r; lia). lia. }
  unfold binary_round, shl_align. fold d.
  assert (fexp 53 1024 (d + 0) - 0 = d - 53) as -> by (unfold fexp, emin; lia).
  assert (fexp 53 1024 (d + 0) = d - 53) as -> by (unfold fexp, emin; lia).
  destruct (d - 53) as [|p|p] eqn:Ep; [|lia|].
  - exists m, 0. rewrite binary_round_aux_full by (unfold d in *; lia). split; [done|]. split; [done|]. simpl. lia.
  - set (m' := Pos.iter xO m p). assert (Z.pos m' = Z.pos m * 2 ^ Z.pos p) as Es.
    { apply iter_xO. }
    assert (2 ^ 53 = 2 ^ d * 2 ^ Z.pos p) as E1 by (rewrite <- Z.pow_add_r by lia; f_equal; lia).
    assert (2 ^ (53 - 1) = 2 ^ (d - 1) * 2 ^ Z.pos p) as E2 by (rewrite <- Z.pow_add_r by lia; f_equal; lia).
    assert (0 < 2 ^ Z.pos p) by (apply Z.pow_pos_nonneg; lia).
    rewrite binary_round_aux_full; [|lia|].
    + exists m', (Z.neg p). split; [done|]. split; [lia|]. exact Es.
    + apply digits2_pos_unique. rewrite Es, E1, E2. nia.
Qed.

Lemma f64_of_i64_exact n : - 2 ^ 53 <= n <= 2 ^ 53 -> is_finite (f64_of_i64 n) = true /\ trunc_f64 (f64_of_i64 n) = n.
Proof.
  intros Hn. destruct (decide (Z.abs n = 2 ^ 53)) as [Ha|Ha].
  { assert (n = 2 ^ 53 \/ n = - 2 ^ 53) as [-> | ->] by lia; split; vm_compute; reflexivity. }
  unfold f64_of_i64, binary_normalize. destruct n as [|m|m]; [done| |];
    (destruct (binary_round_small false m ltac:(lia)) as (m1 & e1 & E1 & He1 & Hm1) || idtac).
  - rewrite E1. split; [done|]. cbn [trunc_f64 id]. destruct (Z.leb_spec 0 e1).
    + assert (e1 = 0) as -> by lia. simpl in *. lia.
    + rewrite Hm1. apply Z.div_mul. apply Z.pow_nonzero; lia.
  - destruct (binary_round_small true m ltac:(lia)) as (m2 & e2 & E2 & He2 & Hm2). rewrite E2. split; [done|]. cbn [trunc_f64].
    destruct (Z.leb_spec 0 e2).
    + assert (e2 = 0) as -> by lia. simpl in *. lia.
    + rewrite Hm2, Z.div_mul by (apply Z.pow_nonzero; lia). done.
Qed.

End Float.
