(* ===== verification/Recovery.v ===== *)
(** * Recovery ([crates/minidb/src/recovery.rs])

    Scanning the snapshot and the log, turning frames into operations, applying
    them to the store, cutting the torn tail of the log, and following a log that
    another process appends to.  A file is its contents and its anchor (device
    and inode), [None] when it does not exist; reading past its end is the I/O
    error.  [now] gives the reading of the clock when the set whose value lies at
    an offset of a file is turned into an operation.  What [serde_json] reads in the
    JSON text of the metadata is a parameter. *)

From Corelib Require Import SpecFloat.
From S2P Require Import Prelude.
From S2P Require Import Crc.
From S2P Require Import Codec.
From S2P Require Import OrdIndex.
From S2P Require Import Store.
From S2P Require Import Float.
Import Codec.

Module Recovery.

Inductive ValueMode := InMemory | OnDisk.

Record WalAnchor := mk_WalAnchor { device : Z; inode : Z }.

#[export] Instance WalAnchor_eq_dec : EqDecision WalAnchor.
Proof. solve_decision. Defined.

Record RecoveryInfo := mk_RecoveryInfo {
  snapshot_frames : Z;
  wal_frames : Z;
  truncated_wal : bool;
  wal_corrupt_ranges : list (Z * Z);
  snapshot_corrupt_ranges : list (Z * Z);
  lost_bytes : Z;
  wal_scan_end : Z;
  wal_device : Z;
  wal_inode : Z;
}.

Record CatchUpResult := mk_CatchUpResult { catch_up_offset : Z; applied_frames : Z }.

Inductive RecoveredOp :=
| OpSet (key : bytes) (value_ref : Store.ValueRef) (expire_at : Z)
    (datetimes : option Store.Datetimes)
| OpDel (key : bytes).

Inductive RecoveryError :=
| IoError
| CodecFailure (e : CodecError)
| Metadata.

(** An open file: its contents and [metadata_anchor]. *)
Record File := mk_File { contents : bytes; anchor : WalAnchor }.

Record ScannedFile := mk_ScannedFile {
  operations : list RecoveredOp;
  scanned_frames : Z;
  scanned_corrupt_ranges : list (Z * Z);
  scan_end : Z;
  file_size : Z;
  scanned_anchor : WalAnchor;
}.

Definition codec_error {A} (r : result CodecError A) : result RecoveryError A :=
  match r with Ok a => Ok a | Err Io => Err IoError | Err e => Err (CodecFailure e) end.

(** ** Metadata *)

(** What [serde_json] hands to the deserializer of the field [dt]: nothing, [null], the
    entries of a map with the values that [as_f64] reads as a number, or a value of
    another type. *)
Inductive MetadataJson :=
| DtMissing
| DtNull
| DtMap (entries : list (string * option spec_float))
| DtOther.

(** [visit_map]: the value is truncated, and must be in the range of [i64]. *)
Fixpoint visit_map (entries : list (string * option spec_float)) (output : Store.Datetimes) : option Store.Datetimes :=
  match entries with
  | [] => Some output
  | (key, value) :: entries =>
      match value with
      | None => None
      | Some number =>
          if Float.is_finite number then
            let truncated := Float.trunc_f64 number in
            if (truncated <? - 2 ^ 63) || (2 ^ 63 <=? truncated) then None
            else visit_map entries (<[key := truncated]> output)
          else None
      end
  end.

Definition deserialize_datetimes (dt : MetadataJson) : option (option Store.Datetimes) :=
  match dt with
  | DtMissing | DtNull => Some None
  | DtMap entries => Some <$> visit_map entries ∅
  | DtOther => None
  end.

Section recovery.
Context `{Crc32fast}.
(** [serde_json::from_slice] up to the fields of [Metadata]; [None] when the text is not
    the JSON of an object. *)
Context (metadata_of_json : bytes -> option MetadataJson).
Context (now : Store.ValueFile -> Z -> Z).

Definition read_at (file : bytes) (offset len : Z) : result RecoveryError bytes :=
  if len =? 0 then Ok [] else ok_or IoError (slice_get file offset (offset + len)).

Definition parse_meta (meta : option bytes) : result RecoveryError (option Store.Datetimes) :=
  match meta with
  | Some bytes => ok_or Metadata (dt ← metadata_of_json bytes; deserialize_datetimes dt)
  | None => Ok None
  end.

Definition set_ref_to_ops (key : bytes) (value_offset value_len : Z) (meta : option bytes)
    (expire_at : Z) (file_kind : Store.ValueFile) (file : bytes) (value_mode : ValueMode)
    : result RecoveryError (list RecoveredOp) :=
  if negb (expire_at =? 0) && (expire_at <=? now file_kind value_offset) then Ok [OpDel key]
  else
    datetimes ← parse_meta meta;
    value_ref ← match value_mode with
                | InMemory => Store.Memory <$> read_at file value_offset value_len
                | OnDisk => Ok (Store.Disk (Store.mk_ValueLoc file_kind value_offset value_len))
                end;
    Ok [OpSet key value_ref expire_at datetimes].

Fixpoint batch_to_ops (refs : list BatchOpRef) (file_kind : Store.ValueFile) (file : bytes)
    (value_mode : ValueMode) : result RecoveryError (list RecoveredOp) :=
  match refs with
  | [] => Ok []
  | operation :: refs =>
      ops ← (if decide (opref_type operation = TYPE_SET) then
               set_ref_to_ops (opref_key operation) (opref_value_offset operation)
                 (opref_value_len operation) (opref_meta operation) (opref_expire_at operation)
                 file_kind file value_mode
             else if decide (opref_type operation = TYPE_DEL) then Ok [OpDel (opref_key operation)]
             else Ok []);
      output ← batch_to_ops refs file_kind file value_mode;
      Ok (ops ++ output)
  end.

Definition frame_to_ops (frame : FrameRef) (file_kind : Store.ValueFile) (file : bytes)
    (value_mode : ValueMode) : result RecoveryError (list RecoveredOp) :=
  if decide (ref_frame_type frame = TYPE_SET) then
    set_ref_to_ops (ref_key frame) (value_offset frame) (value_len frame) (ref_meta frame)
      (ref_expire_at frame) file_kind file value_mode
  else if decide (ref_frame_type frame = TYPE_DEL) then Ok [OpDel (ref_key frame)]
  else if decide (ref_frame_type frame = TYPE_BATCH) then
    body ← read_at file (value_offset frame) (value_len frame);
    match scan_batch_op_refs body (value_offset frame) with
    | Err _ => Ok []
    | Ok refs => batch_to_ops refs file_kind file value_mode
    end
  else Ok [].

Fixpoint frames_to_ops (frames : list FrameRef) (file_kind : Store.ValueFile) (file : bytes)
    (value_mode : ValueMode) : result RecoveryError (list RecoveredOp) :=
  match frames with
  | [] => Ok []
  | frame :: frames =>
      ops ← frame_to_ops frame file_kind file value_mode;
      operations ← frames_to_ops frames file_kind file value_mode;
      Ok (ops ++ operations)
  end.

Definition scan_file (file : option File) (file_kind : Store.ValueFile) (mode : CorruptionMode)
    (value_mode : ValueMode) : result RecoveryError (option ScannedFile) :=
  match file with
  | None => Ok None
  | Some file =>
      scan ← codec_error (scan_frame_refs (contents file) mode 0);
      operations ← frames_to_ops (scan_frames scan) file_kind (contents file) value_mode;
      Ok (Some (mk_ScannedFile operations (zlen (scan_frames scan)) (scan_corrupt_ranges scan)
                  (scan_eof_offset scan) (zlen (contents file)) (anchor file)))
  end.

(** ** Applying to the store *)

Section store.
Context {T : Type} `{!OrdIndex.OrderedIndex T bytes bytes} (dt_json : Store.Datetimes -> option bytes).

Definition apply_operation (store : Store.Store T) (operation : RecoveredOp) : option (Store.Store T) :=
  match operation with
  | OpSet key value_ref expire_at datetimes =>
      Store.set_ref dt_json key value_ref expire_at datetimes store
  | OpDel key => '(_, store) ← Store.del dt_json key store; Some store
  end.

Definition apply_operations (store : Store.Store T) (operations : list RecoveredOp)
    : option (Store.Store T) := foldM apply_operation store operations.

(** [range_sum] is [lost_bytes]'s sum. *)
Definition range_sum (ranges : list (Z * Z)) : Z :=
  foldr (fun range acc => range.2 - range.1 + acc) 0 ranges.

(** Whether the last corrupt range reaches the end of the log. *)
Definition torn_tail (wal : option ScannedFile) : option Z :=
  wal ← wal;
  range ← last (scanned_corrupt_ranges wal);
  if range.2 =? file_size wal then Some range.1 else None.

(** The result, the store and the log afterwards. *)
Definition recover (store : Store.Store T) (snapshot_file wal_file : option File)
    (mode : CorruptionMode) (truncate : bool) (value_mode : ValueMode)
    : option (result RecoveryError RecoveryInfo * Store.Store T * option File) :=
  match (snapshot ← scan_file snapshot_file Store.Snapshot mode value_mode;
         wal ← scan_file wal_file Store.Wal mode value_mode; Ok (snapshot, wal)) with
  | Err e => Some (Err e, store, wal_file)
  | Ok (snapshot, wal) =>
      store ← match snapshot with
              | Some snapshot => apply_operations store (operations snapshot)
              | None => Some store
              end;
      store ← match wal with
              | Some wal => apply_operations store (operations wal)
              | None => Some store
              end;
      let cut := if truncate : bool then torn_tail wal else None in
      let wal_file := match cut, wal_file with
                      | Some len, Some file =>
                          Some (mk_File (take (Z.to_nat len) (contents file)) (anchor file))
                      | _, _ => wal_file
                      end in
      let snapshot_ranges := from_option scanned_corrupt_ranges [] snapshot in
      let wal_ranges := from_option scanned_corrupt_ranges [] wal in
      Some (Ok (mk_RecoveryInfo (from_option scanned_frames 0 snapshot)
                  (from_option scanned_frames 0 wal) (bool_decide (is_Some cut)) wal_ranges
                  snapshot_ranges (range_sum (snapshot_ranges ++ wal_ranges))
                  (from_option scan_end 0 wal)
                  (from_option (fun s => device (scanned_anchor s)) 0 wal)
                  (from_option (fun s => inode (scanned_anchor s)) 0 wal)),
            store, wal_file)
  end.
End store.

(** ** Catching up with a growing log *)

(** The frames applied in order until one fails; the state of the callback is
    threaded. *)
Fixpoint apply_frames {S} (apply : FrameRef -> bytes -> S -> result RecoveryError () * S)
    (frames : list FrameRef) (file : bytes) (s : S) : result RecoveryError () * S :=
  match frames with
  | [] => (Ok (), s)
  | frame :: frames =>
      match apply frame file s with
      | (Ok _, s) => apply_frames apply frames file s
      | (Err e, s) => (Err e, s)
      end
  end.

Definition catch_up_wal {S} (wal : option File) (offset : Z) (expected : WalAnchor)
    (apply : FrameRef -> bytes -> S -> result RecoveryError () * S) (s : S)
    : result RecoveryError (option CatchUpResult) * S :=
  match wal with
  | None => (Ok None, s)
  | Some file =>
      let len := zlen (contents file) in
      if bool_decide (anchor file <> expected) || (len <? offset) then (Ok None, s)
      else
        match codec_error (scan_frame_refs (contents file) Strict offset) with
        | Err e => (Err e, s)
        | Ok scan =>
            if (zlen (scan_frames scan) =? 0) && (scan_eof_offset scan <? len) then
              let n := Z.min (len - offset) (zlen MAGIC) in
              match read_at (contents file) offset n with
              | Err e => (Err e, s)
              | Ok head =>
                  if bool_decide (head <> take (Z.to_nat n) MAGIC) then (Ok None, s)
                  else (Ok (Some (mk_CatchUpResult offset 0)), s)
              end
            else
              match apply_frames apply (scan_frames scan) (contents file) s with
              | (Err e, s) => (Err e, s)
              | (Ok _, s) =>
                  (Ok (Some (mk_CatchUpResult (scan_eof_offset scan) (zlen (scan_frames scan)))), s)
              end
        end
  end.
End recovery.
End Recovery.
