(* ===== verification/RecoveryFacts.v ===== *)
(** * Correctness of recovery

    The operations of a log are specified on its frames, as [LogOp]s that carry
    their values; recovering from files in either mode refines replaying them on
    a map.  The clock reads the same time [t] throughout a recovery. *)

From S2P Require Import Prelude.
From S2P Require Import Crc.
From S2P Require Import Codec.
From S2P Require Import Scan.
From S2P Require Import OrdIndex.
From S2P Require Import Store.
From S2P Require Import StoreFacts.
From S2P Require Import Recovery.
Import Codec Scan StoreFacts Recovery.

Module RecoveryFacts.

(** ** Logical operations *)

Inductive LogOp :=
| LSet (key value : bytes) (expire_at : Z) (datetimes : option Store.Datetimes)
| LDel (key : bytes).

Record LogRecord := mk_LogRecord {
  log_value : bytes;
  log_expire_at : Z;
  log_datetimes : option Store.Datetimes;
}.

Definition replay_op (m : gmap bytes LogRecord) (o : LogOp) : gmap bytes LogRecord :=
  match o with
  | LSet key value expire_at datetimes => <[key := mk_LogRecord value expire_at datetimes]> m
  | LDel key => delete key m
  end.

(** The state a sequence of operations leads to. *)
Definition replay (m : gmap bytes LogRecord) (ops : list LogOp) : gmap bytes LogRecord :=
  fold_left replay_op ops m.

(** The value a reference stands for in the files. *)
Definition resolves (files : Store.ValueFile -> bytes) (r : Store.ValueRef) (v : bytes) : Prop :=
  match r with
  | Store.Memory value => v = value
  | Store.Disk loc =>
      Store.loc_len loc = zlen v /\
      (v = [] \/ slice_get (files (Store.loc_file loc)) (Store.loc_offset loc)
                   (Store.loc_offset loc + Store.loc_len loc) = Some v)
  end.

Definition op_means (files : Store.ValueFile -> bytes) (o : RecoveredOp) (l : LogOp) : Prop :=
  match o, l with
  | OpSet k r e d, LSet k' v e' d' => k = k' /\ resolves files r v /\ e = e' /\ d = d'
  | OpDel k, LDel k' => k = k'
  | _, _ => False
  end.

Definition record_means (files : Store.ValueFile -> bytes) (r : Store.StoreRecord) (l : LogRecord) : Prop :=
  resolves files (Store.value_ref r) (log_value l) /\
  Store.expire_at r = log_expire_at l /\ Store.datetimes r = log_datetimes l.

(** The records of a store stand for a map. *)
Definition represents (files : Store.ValueFile -> bytes) (m : gmap bytes Store.StoreRecord)
    (lm : gmap bytes LogRecord) : Prop :=
  forall k, option_Forall2 (record_means files) (m !! k) (lm !! k).

Section logical.
Context (metadata_of_json : bytes -> option MetadataJson) (t : Z).

Definition set_log_ops (key value : bytes) (meta : option bytes) (expire_at : Z)
    : result RecoveryError (list LogOp) :=
  if negb (expire_at =? 0) && (expire_at <=? t) then Ok [LDel key]
  else datetimes ← parse_meta metadata_of_json meta; Ok [LSet key value expire_at datetimes].

Definition batch_op_log_ops (o : BatchOp) : result RecoveryError (list LogOp) :=
  if decide (op_type o = TYPE_SET) then
    set_log_ops (op_key o) (default [] (op_value o)) (op_meta o) (op_expire_at o)
  else if decide (op_type o = TYPE_DEL) then Ok [LDel (op_key o)]
  else Ok [].

(** The operations of a sequence, the first failure winning. *)
Fixpoint concat_results {A B E} (f : A -> result E (list B)) (l : list A) : result E (list B) :=
  match l with
  | [] => Ok []
  | a :: l => x ← f a; y ← concat_results f l; Ok (x ++ y)
  end.

Definition frame_log_ops (f : Frame) : result RecoveryError (list LogOp) :=
  if decide (frame_type f = TYPE_SET) then set_log_ops (key f) (value f) (meta f) (expire_at f)
  else if decide (frame_type f = TYPE_DEL) then Ok [LDel (key f)]
  else if decide (frame_type f = TYPE_BATCH) then
    match decode_batch_ops (value f) with
    | Err _ => Ok []
    | Ok ops => concat_results batch_op_log_ops ops
    end
  else Ok [].

Definition log_ops : list Frame -> result RecoveryError (list LogOp) := concat_results frame_log_ops.

Lemma concat_results_app {A B E} (f : A -> result E (list B)) l1 l2 :
  concat_results f (l1 ++ l2) =
  (x ← concat_results f l1; y ← concat_results f l2; Ok (x ++ y)).
Proof.
  induction l1 as [|a l1 IH]; simpl.
  - by destruct (concat_results f l2).
  - destruct (f a); simpl; [|done]. rewrite IH. destruct (concat_results f l1); simpl; [|done].
    destruct (concat_results f l2); simpl; [|done]. by rewrite app_assoc.
Qed.
End logical.

(** ** Operations of a file *)

(** Both fail in the same way, or both succeed with related results. *)
Definition results_agree {E A B} (R : A -> B -> Prop) (x : result E A) (y : result E B) : Prop :=
  match x, y with
  | Ok a, Ok b => R a b
  | Err e, Err e' => e = e'
  | _, _ => False
  end.

Lemma results_agree_bind {E A B A' B'} (R : A -> B -> Prop) (R' : A' -> B' -> Prop)
    (x : result E A) (y : result E B) f g :
  results_agree R x y -> (forall a b, R a b -> results_agree R' (f a) (g b)) ->
  results_agree R' (x ≫= f) (y ≫= g).
Proof. destruct x, y; simpl; naive_solver. Qed.

Section files.
Context `{Crc32fastOk}.
Context (metadata_of_json : bytes -> option MetadataJson) (t : Z).
Context (files : Store.ValueFile -> bytes).
Let now : Store.ValueFile -> Z -> Z := fun _ _ => t.

Lemma read_at_slice file off len v :
  slice file off (off + len) = v -> zlen v = len -> 0 <= off ->
  read_at file off len = Ok v /\ (v = [] \/ slice_get file off (off + len) = Some v).
Proof.
  intros Hs Hl Ho. unfold read_at. destruct (Z.eqb_spec len 0) as [->|Hne].
  - apply zlen_0 in Hl as ->. by auto.
  - assert (off + len <= zlen file).
    { revert Hs Hl Hne. unfold slice. intros <-. unfold zlen. rewrite length_take, length_drop. lia. }
    zlen_pos. rewrite slice_get_in by lia. rewrite Hs. by auto.
Qed.

Lemma set_ref_to_ops_spec kind mode k v off len m e :
  slice (files kind) off (off + len) = v -> zlen v = len -> 0 <= off ->
  results_agree (Forall2 (op_means files))
    (set_ref_to_ops metadata_of_json now k off len m e kind (files kind) mode)
    (set_log_ops metadata_of_json t k v m e).
Proof.
  intros Hs Hl Ho. unfold set_ref_to_ops, set_log_ops, now.
  destruct (negb (e =? 0) && (e <=? t)); [by repeat constructor|].
  destruct (parse_meta metadata_of_json m) as [d|err]; simpl; [|done].
  destruct (read_at_slice _ _ _ _ Hs Hl Ho) as [Hr Hv].
  destruct mode; simpl; [rewrite Hr|]; simpl; (apply Forall2_cons; split; [|constructor]); simpl;
    split_and!; done.
Qed.

Lemma batch_to_ops_spec kind mode base body refs ops :
  slice (files kind) base (base + zlen body) = body -> 0 <= base ->
  Forall2 (op_refers_to body base) refs ops ->
  results_agree (Forall2 (op_means files))
    (batch_to_ops metadata_of_json now refs kind (files kind) mode)
    (concat_results (batch_op_log_ops metadata_of_json t) ops).
Proof.
  intros Hb Hbase. induction 1 as [|r o refs ops Hr _ IH]; simpl; [constructor|].
  destruct Hr as (Ht & Hk & Hm & He & Hv1 & Hv2 & Hv3 & Hv).
  eapply (results_agree_bind (Forall2 (op_means files))).
  - unfold batch_op_log_ops. rewrite Ht, Hk, Hm, He, Hv.
    case_decide; [|case_decide; by repeat constructor].
    apply set_ref_to_ops_spec; [|simpl; rewrite zlen_slice by lia; lia|lia].
    simpl. rewrite <- Hb at 1. rewrite slice_slice by (rewrite ?zlen_slice; lia). f_equal; lia.
  - intros a b Hab. eapply results_agree_bind; [exact IH|]. intros x y Hxy. simpl. by apply Forall2_app.
Qed.

Lemma frame_to_ops_spec kind mode r f :
  refers_to (files kind) r f ->
  results_agree (Forall2 (op_means files))
    (frame_to_ops metadata_of_json now r kind (files kind) mode) (frame_log_ops metadata_of_json t f).
Proof.
  intros (Hread & Hr & Hval).
  assert (0 <= frame_offset r) as Hoff.
  { unfold read_frame_at in Hread. apply bind_Some in Hread as (h & Hh & _).
    apply slice_get_Some in Hh. lia. }
  assert (value_len r = zlen (value f)) as Hlen by by rewrite Hr.
  assert (0 <= value_offset r) as Hvo by (rewrite Hr; simpl; unfold HEADER_SIZE; zlen_pos; lia).
  unfold frame_to_ops, frame_log_ops.
  assert (ref_frame_type r = frame_type f /\ ref_key r = key f /\ ref_meta r = meta f /\
    ref_expire_at r = expire_at f) as (-> & -> & -> & ->) by by rewrite Hr.
  case_decide; [by apply set_ref_to_ops_spec|].
  case_decide; [by repeat constructor|]. case_decide; [|constructor].
  destruct (read_at_slice (files kind) (value_offset r) (value_len r) (value f)) as [-> _]; [done..|].
  simpl. pose proof (scan_batch_op_refs_agree (value f) (value_offset r)) as Hsc.
  destruct (scan_batch_op_refs _ _) as [refs|], (decode_batch_ops _) as [ops|]; try done; [|constructor].
  eapply batch_to_ops_spec; [by rewrite <- Hlen|done|exact Hsc].
Qed.

Lemma frames_to_ops_spec kind mode refs fs :
  Forall2 (refers_to (files kind)) refs fs ->
  results_agree (Forall2 (op_means files))
    (frames_to_ops metadata_of_json now refs kind (files kind) mode) (log_ops metadata_of_json t fs).
Proof.
  induction 1 as [|r f refs fs Hr _ IH]; simpl; [constructor|].
  eapply results_agree_bind; [by apply frame_to_ops_spec|]. intros a b Hab.
  eapply results_agree_bind; [exact IH|]. intros x y Hxy. by apply Forall2_app.
Qed.

(** What scanning a file of contents [files kind] gives. *)
Definition scanned (kind : Store.ValueFile) (mode : CorruptionMode) (a : WalAnchor)
    (ops : list RecoveredOp) : ScannedFile :=
  let p := parse_buffer (files kind) mode in
  mk_ScannedFile ops (zlen (frames p)) (corrupt_ranges p) (eof_offset p) (zlen (files kind)) a.

Lemma scan_file_spec file kind mode value_mode :
  contents file = files kind ->
  match scan_file metadata_of_json now (Some file) kind mode value_mode,
        log_ops metadata_of_json t (frames (parse_buffer (files kind) mode)) with
  | Ok (Some s), Ok lops =>
      exists ops, s = scanned kind mode (anchor file) ops /\ Forall2 (op_means files) ops lops
  | Err e, Err e' => e = e'
  | _, _ => False
  end.
Proof.
  intros Hfile. unfold scan_file. rewrite Hfile.
  destruct (scan_frame_refs_buffer (files kind) mode) as (refs & -> & Hrefs). simpl.
  pose proof (frames_to_ops_spec kind value_mode refs _ Hrefs) as Hops.
  destruct (frames_to_ops _ _ refs _ _ _) as [ops|], (log_ops _ _ _) as [lops|]; simpl in *; try done.
  exists ops. split; [|done]. unfold scanned. f_equal. unfold zlen. f_equal.
  by eapply Forall2_length.
Qed.
(** ** Applying *)

Context {T : Type} (repr : T -> list (bytes * bytes) -> Prop).
Context `{!OrdIndex.OrderedIndex T bytes bytes} `{!OrdIndex.OrderedIndexLaws OrdIndex.bytes_cmp OrdIndex.bytes_cmp repr}.
Context (dt_json : Store.Datetimes -> option bytes).
Implicit Types store : Store.Store T.

Lemma represents_insert m lm k r l :
  represents files m lm -> record_means files r l ->
  represents files (<[k := r]> m) (<[k := l]> lm).
Proof.
  intros Hm Hr k'. destruct (decide (k' = k)) as [->|].
  - rewrite !lookup_insert_eq. by constructor.
  - by rewrite !lookup_insert_ne.
Qed.

Lemma represents_delete m lm k :
  represents files m lm -> represents files (delete k m) (delete k lm).
Proof.
  intros Hm k'. destruct (decide (k' = k)) as [->|].
  - rewrite !lookup_delete_eq. constructor.
  - by rewrite !lookup_delete_ne.
Qed.

Lemma apply_operation_spec store ks o l lm :
  store_ok repr dt_json store ks -> represents files (Store.records store) lm ->
  op_means files o l -> Z.of_nat (size (Store.records store)) + 1 < U64_MAX ->
  exists store' ks', apply_operation dt_json store o = Some store' /\
    store_ok repr dt_json store' ks' /\ represents files (Store.records store') (replay_op lm l) /\
    (size (Store.records store') <= S (size (Store.records store)))%nat.
Proof.
  intros Hok Hrep Hop Hb. destruct o as [k r e d|k], l as [k' v e' d'|k']; simpl in Hop; try done.
  - destruct Hop as (<- & Hv & <- & <-).
    destruct (set_ref_spec repr dt_json store ks k r e d Hok Hb) as (s' & Hs & Hok' & Hr & _).
    exists s'. eexists. split_and!; [exact Hs|exact Hok'| |].
    + rewrite Hr. apply represents_insert; [done|]. by split_and!.
    + rewrite Hr, map_size_insert. by destruct (Store.records store !! k); simpl; lia.
  - subst k'. simpl. unfold Store.del. pose proof (remove_spec repr dt_json store ks k false Hok) as Hrem.
    destruct (Store.records store !! k) as [r|] eqn:E.
    + destruct Hrem as (s' & -> & Hok' & Hr & _). simpl. exists s'. eexists.
      split_and!; [done|exact Hok'| |]; rewrite Hr; [by apply represents_delete|].
      rewrite map_size_delete, E. simpl. lia.
    + rewrite Hrem. simpl. exists store, ks. split_and!; [done..| |lia].
      rewrite <- (delete_id (Store.records store) k) by done. by apply represents_delete.
Qed.

Lemma apply_operations_spec store ks ops lops lm :
  store_ok repr dt_json store ks -> represents files (Store.records store) lm ->
  Forall2 (op_means files) ops lops ->
  Z.of_nat (size (Store.records store)) + zlen lops < U64_MAX ->
  exists store' ks', apply_operations dt_json store ops = Some store' /\
    store_ok repr dt_json store' ks' /\ represents files (Store.records store') (replay lm lops) /\
    Z.of_nat (size (Store.records store')) <= Z.of_nat (size (Store.records store)) + zlen lops.
Proof.
  intros Hok Hrep Hops. revert store ks lm Hok Hrep.
  induction Hops as [|o l ops lops Ho _ IH]; intros store ks lm Hok Hrep Hb.
  { exists store, ks. split_and!; [done..|]. zlia. }
  rewrite zlen_cons in *.
  destruct (apply_operation_spec store ks o l lm Hok Hrep Ho) as (s1 & ks1 & Ha & Hok1 & Hrep1 & Hsz);
    [zlia|].
  destruct (IH s1 ks1 _ Hok1 Hrep1) as (s2 & ks2 & Ha2 & ? & ? & ?); [lia|].
  exists s2, ks2. unfold apply_operations in *. cbn [foldM]. rewrite Ha. simpl_bind.
  split_and!; [done..|lia].
Qed.

(** ** Recovery *)

(** The contents of the two files; a missing file counts as an empty one. *)
Definition holds (file : option File) (kind : Store.ValueFile) : Prop :=
  files kind = from_option contents [] file.

Lemma holds_none_ops kind mode :
  holds None kind -> log_ops metadata_of_json t (frames (parse_buffer (files kind) mode)) = Ok [].
Proof. intros Hh. rewrite Hh. reflexivity. Qed.

Definition file_log_ops (kind : Store.ValueFile) (mode : CorruptionMode) : result RecoveryError (list LogOp) :=
  log_ops metadata_of_json t (frames (parse_buffer (files kind) mode)).

Definition scanned_file (file : option File) (kind : Store.ValueFile) (mode : CorruptionMode)
    (ops : list RecoveredOp) : option ScannedFile :=
  (fun f => scanned kind mode (anchor f) ops) <$> file.

Lemma scan_file_opt_spec file kind mode value_mode :
  holds file kind ->
  match scan_file metadata_of_json now file kind mode value_mode, file_log_ops kind mode with
  | Ok s, Ok lops =>
      exists ops, s = scanned_file file kind mode ops /\ Forall2 (op_means files) ops lops
  | Err e, Err e' => e = e'
  | _, _ => False
  end.
Proof.
  intros Hh. destruct file as [file|].
  - pose proof (scan_file_spec file kind mode value_mode (eq_sym Hh)) as Hs.
    unfold file_log_ops.
    destruct (scan_file _ _ _ _ _ _) as [[s|]|], (log_ops _ _ _) as [lops|]; try done.
    destruct Hs as (ops & -> & Hops). by exists ops.
  - unfold file_log_ops. rewrite (holds_none_ops kind mode Hh). simpl. by exists [].
Qed.

(** The log when its torn tail is cut. *)
Definition cut_wal (truncate : bool) (mode : CorruptionMode) (wal_file : option File) : option Z :=
  if truncate then
    match wal_file, last (corrupt_ranges (parse_buffer (files Store.Wal) mode)) with
    | Some _, Some range => if range.2 =? zlen (files Store.Wal) then Some range.1 else None
    | _, _ => None
    end
  else None.

Lemma apply_scanned file kind mode store ks rops lops lm :
  holds file kind -> file_log_ops kind mode = Ok lops -> Forall2 (op_means files) rops lops ->
  store_ok repr dt_json store ks -> represents files (Store.records store) lm ->
  Z.of_nat (size (Store.records store)) + zlen lops < U64_MAX ->
  exists store' ks',
    match scanned_file file kind mode rops with
    | Some s => apply_operations dt_json store (operations s)
    | None => Some store
    end = Some store' /\
    store_ok repr dt_json store' ks' /\ represents files (Store.records store') (replay lm lops) /\
    Z.of_nat (size (Store.records store')) <= Z.of_nat (size (Store.records store)) + zlen lops.
Proof.
  intros Hh Hl Hops Hok Hrep Hb. destruct file as [file|]; simpl.
  - by eapply apply_operations_spec.
  - unfold file_log_ops in Hl. rewrite (holds_none_ops kind mode Hh) in Hl. injection Hl as <-.
    exists store, ks. split_and!; [done..|]. zlia.
Qed.

(** The fields of the report that come from a scanned file. *)
Lemma scanned_fields file kind mode ops :
  holds file kind ->
  let p := parse_buffer (files kind) mode in
  let s := scanned_file file kind mode ops in
  from_option scanned_frames 0 s = zlen (frames p) /\
  from_option scanned_corrupt_ranges [] s = corrupt_ranges p /\
  from_option scan_end 0 s = eof_offset p.
Proof.
  intros Hh p s. destruct file as [file|]; [done|]. subst p. rewrite Hh. done.
Qed.

Lemma torn_tail_spec wal_file mode ops truncate :
  holds wal_file Store.Wal ->
  (if truncate : bool then torn_tail (scanned_file wal_file Store.Wal mode ops) else None) =
  cut_wal truncate mode wal_file.
Proof.
  intros Hh. unfold cut_wal, torn_tail. destruct truncate; [|done]. destruct wal_file; simpl; [|done].
  by destruct (last _).
Qed.

(** The report, from what parsing the files finds. *)
Definition report (mode : CorruptionMode) (truncate : bool) (wal_file : option File) : RecoveryInfo :=
  let snapshot := parse_buffer (files Store.Snapshot) mode in
  let wal := parse_buffer (files Store.Wal) mode in
  mk_RecoveryInfo (zlen (frames snapshot)) (zlen (frames wal)) (bool_decide (is_Some (cut_wal truncate mode wal_file)))
    (corrupt_ranges wal) (corrupt_ranges snapshot) (range_sum (corrupt_ranges snapshot ++ corrupt_ranges wal)) (eof_offset wal)
    (from_option (fun file => device (anchor file)) 0 wal_file) (from_option (fun file => inode (anchor file)) 0 wal_file).

Lemma recover_spec store ks lm snapshot_file wal_file mode truncate value_mode :
  store_ok repr dt_json store ks -> represents files (Store.records store) lm ->
  holds snapshot_file Store.Snapshot -> holds wal_file Store.Wal ->
  match file_log_ops Store.Snapshot mode, file_log_ops Store.Wal mode with
  | Ok ops1, Ok ops2 =>
      Z.of_nat (size (Store.records store)) + zlen (ops1 ++ ops2) < U64_MAX ->
      exists store' ks',
        recover metadata_of_json now dt_json store snapshot_file wal_file mode truncate value_mode =
          Some (Ok (report mode truncate wal_file), store',
                match cut_wal truncate mode wal_file, wal_file with
                | Some len, Some file =>
                    Some (mk_File (take (Z.to_nat len) (contents file)) (anchor file))
                | _, _ => wal_file
                end) /\
        store_ok repr dt_json store' ks' /\
        represents files (Store.records store') (replay lm (ops1 ++ ops2))
  | Err e, _ | Ok _, Err e =>
      recover metadata_of_json now dt_json store snapshot_file wal_file mode truncate value_mode =
        Some (Err e, store, wal_file)
  end.
Proof.
  intros Hok Hrep Hs Hw. unfold recover.
  pose proof (scan_file_opt_spec snapshot_file Store.Snapshot mode value_mode Hs) as Hss.
  pose proof (scan_file_opt_spec wal_file Store.Wal mode value_mode Hw) as Hws.
  destruct (scan_file _ _ snapshot_file _ _ _) as [snap|e1], (file_log_ops Store.Snapshot mode) as [ops1|e1'] eqn:E1;
    simpl in *; try done; [|by subst].
  destruct (scan_file _ _ wal_file _ _ _) as [wal|e2], (file_log_ops Store.Wal mode) as [ops2|e2'] eqn:E2;
    simpl in *; try done; [|by subst].
  destruct Hss as (rops1 & -> & Hr1), Hws as (rops2 & -> & Hr2). intros Hb. rewrite zlen_app in Hb.
  destruct (apply_scanned snapshot_file Store.Snapshot mode store ks rops1 ops1 lm)
    as (s1 & ks1 & -> & Hok1 & Hrep1 & Hsz1); [done..|zlia|]. simpl.
  destruct (apply_scanned wal_file Store.Wal mode s1 ks1 rops2 ops2 (replay lm ops1))
    as (s2 & ks2 & -> & Hok2 & Hrep2 & Hsz2); [done..|zlia|]. simpl.
  destruct (scanned_fields snapshot_file Store.Snapshot mode rops1 Hs) as (-> & -> & _).
  destruct (scanned_fields wal_file Store.Wal mode rops2 Hw) as (-> & -> & ->).
  rewrite (torn_tail_spec wal_file mode rops2 truncate Hw).
  exists s2, ks2. split.
  - unfold report. do 4 f_equal; by destruct wal_file.
  - split; [done|]. unfold replay. by rewrite fold_left_app.
Qed.

End files.

(** ** The claims *)

(** The contents of the two files. *)
Definition files_of (snapshot wal : bytes) (kind : Store.ValueFile) : bytes :=
  match kind with Store.Snapshot => snapshot | Store.Wal => wal end.

Section claims.
Context `{Crc32fastOk}.
Context (metadata_of_json : bytes -> option MetadataJson) (t : Z).
Context {T : Type} (repr : T -> list (bytes * bytes) -> Prop).
Context `{!OrdIndex.OrderedIndex T bytes bytes} `{!OrdIndex.OrderedIndexLaws OrdIndex.bytes_cmp OrdIndex.bytes_cmp repr}.
Context (dt_json : Store.Datetimes -> option bytes).
Implicit Types store : Store.Store T.
Let now : Store.ValueFile -> Z -> Z := fun _ _ => t.

(** C25: Recovery from any two files, in either mode, terminates without panic.  When
    the metadata of every scanned frame decodes, the store ends up standing for the
    replay of the operations of the snapshot's frames, then of the log's, over what it
    stood for, a record that has expired being a deletion; every value is in memory or
    is located in its file.  The report holds exactly the numbers of frames, the corrupt
    ranges of each file and their sum, where the scan of the log ended and the anchor of
    the log; and the log is cut where its last corrupt range starts exactly when that
    range reaches its end.  When metadata does not decode, recovery fails and changes
    nothing.  The clock reads the same throughout.  In [Strict] mode the scan ends at
    the first corrupt frame, so that recovery succeeds with the frames before it and
    cuts off the rest. *)
Theorem recover_replays_the_logs store ks lm snapshot wal a b mode truncate value_mode :
  let files := files_of snapshot wal in
  let parsed_snapshot := parse_buffer snapshot mode in let parsed_wal := parse_buffer wal mode in
  let cut := cut_wal files truncate mode (Some (mk_File wal b)) in
  store_ok repr dt_json store ks -> represents files (Store.records store) lm ->
  match log_ops metadata_of_json t (frames parsed_snapshot), log_ops metadata_of_json t (frames parsed_wal) with
  | Ok ops1, Ok ops2 =>
      Z.of_nat (size (Store.records store)) + zlen (ops1 ++ ops2) < U64_MAX ->
      exists info store' ks',
        recover metadata_of_json now dt_json store (Some (mk_File snapshot a)) (Some (mk_File wal b))
          mode truncate value_mode =
          Some (Ok info, store', Some (mk_File (match cut with Some len => take (Z.to_nat len) wal | None => wal end) b)) /\
        store_ok repr dt_json store' ks' /\
        represents files (Store.records store') (replay lm (ops1 ++ ops2)) /\
        info = mk_RecoveryInfo (zlen (frames parsed_snapshot)) (zlen (frames parsed_wal)) (bool_decide (is_Some cut))
                 (corrupt_ranges parsed_wal) (corrupt_ranges parsed_snapshot)
                 (range_sum (corrupt_ranges parsed_snapshot ++ corrupt_ranges parsed_wal))
                 (eof_offset parsed_wal) (device b) (inode b)
  | Err e, _ | Ok _, Err e =>
      recover metadata_of_json now dt_json store (Some (mk_File snapshot a)) (Some (mk_File wal b))
        mode truncate value_mode = Some (Err e, store, Some (mk_File wal b))
  end.
Proof.
  intros files parsed_snapshot parsed_wal cut Hok Hrep. unfold now.
  pose proof (recover_spec metadata_of_json t files repr dt_json store ks lm (Some (mk_File snapshot a))
    (Some (mk_File wal b)) mode truncate value_mode Hok Hrep eq_refl eq_refl) as Hr.
  unfold file_log_ops in Hr. change (files Store.Snapshot) with snapshot in Hr.
  change (files Store.Wal) with wal in Hr. fold parsed_snapshot parsed_wal in Hr.
  destruct (log_ops _ _ (frames parsed_snapshot)) as [ops1|]; [|exact Hr].
  destruct (log_ops _ _ (frames parsed_wal)) as [ops2|]; [|exact Hr].
  intros Hb. destruct (Hr Hb) as (s' & ks' & -> & ? & ?).
  eexists _, s', ks'. split; [|split_and!; done]. do 2 f_equal. fold cut. by destruct cut.
Qed.

Lemma represents_empty files : represents files ∅ ∅.
Proof. intros k. rewrite !lookup_empty. constructor. Qed.

(** Recovery into a new store, when the metadata decodes. *)
Lemma recover_new files snapshot wal a b mode truncate value_mode :
  files = files_of snapshot wal ->
  match file_log_ops metadata_of_json t files Store.Snapshot mode, file_log_ops metadata_of_json t files Store.Wal mode with
  | Ok ops1, Ok ops2 =>
      zlen (ops1 ++ ops2) < U64_MAX ->
      exists info store' ks',
        recover metadata_of_json (fun _ _ => t) dt_json Store.new (Some (mk_File snapshot a)) (Some (mk_File wal b))
          mode truncate value_mode =
          Some (Ok info, store',
                match cut_wal files truncate mode (Some (mk_File wal b)) with
                | Some len => Some (mk_File (take (Z.to_nat len) wal) b)
                | None => Some (mk_File wal b)
                end) /\
        store_ok repr dt_json store' ks' /\
        represents files (Store.records store') (replay ∅ (ops1 ++ ops2)) /\
        truncated_wal info = bool_decide (is_Some (cut_wal files truncate mode (Some (mk_File wal b)))) /\
        lost_bytes info = range_sum (corrupt_ranges (parse_buffer snapshot mode) ++
                                     corrupt_ranges (parse_buffer wal mode))
  | _, _ => True
  end.
Proof.
  intros ->.
  pose proof (recover_spec metadata_of_json t (files_of snapshot wal) repr dt_json Store.new [] ∅
    (Some (mk_File snapshot a)) (Some (mk_File wal b)) mode truncate value_mode
    (new_ok repr dt_json) (represents_empty _) eq_refl eq_refl) as Hr.
  destruct (file_log_ops _ _ _ Store.Snapshot mode) as [ops1|]; [|done].
  destruct (file_log_ops _ _ _ Store.Wal mode) as [ops2|]; [|done].
  intros Hb. destruct (Hr Hb) as (s' & ks' & -> & ? & ?). by eexists _, s', ks'.
Qed.

(** A torn frame; in [Resync] mode no frame can be read inside it. *)
Definition torn_log (mode : CorruptionMode) (torn : bytes) : Prop :=
  exists f enc rest, frame_wf f /\ encode_frame f = Ok enc /\ enc = torn ++ rest /\
    torn <> [] /\ rest <> [] /\ (mode = Resync -> forall p, 0 < p -> read_frame_at torn p = None).

Lemma parse_whole fs es mode :
  encodings fs es -> parse_buffer (concat es) mode = mk_ParseResult (map stored_frame fs) [] (zlen (concat es)).
Proof. intros Hes. apply parsed_buffer. apply (parsed_encodings_end mode fs es [] Hes). Qed.

(** C26: After a crash in the middle of an append ([torn_log]: in [Resync] mode no whole
    frame lies in the part that was written, as one does when the value being written
    contains one, which is then applied), recovery keeps the operations of every whole frame of the log, reports exactly the
    torn bytes as lost and cuts them off; recovering again from the cut log loses
    nothing more and gives the same state.  The clock reads the same throughout. *)
Theorem recovery_after_a_torn_append fs0 es0 fs es torn ops0 ops a b mode value_mode :
  let snapshot := concat es0 in let wal := concat es ++ torn in
  encodings fs0 es0 -> encodings fs es -> torn_log mode torn ->
  log_ops metadata_of_json t (map stored_frame fs0) = Ok ops0 ->
  log_ops metadata_of_json t (map stored_frame fs) = Ok ops ->
  zlen (ops0 ++ ops) < U64_MAX ->
  (exists info store' ks',
    recover metadata_of_json now dt_json Store.new (Some (mk_File snapshot a)) (Some (mk_File wal b))
      mode true value_mode = Some (Ok info, store', Some (mk_File (concat es) b)) /\
    store_ok repr dt_json store' ks' /\
    represents (files_of snapshot wal) (Store.records store') (replay ∅ (ops0 ++ ops)) /\
    truncated_wal info = true /\ lost_bytes info = zlen torn) /\
  (exists info store' ks',
    recover metadata_of_json now dt_json Store.new (Some (mk_File snapshot a)) (Some (mk_File (concat es) b))
      mode true value_mode = Some (Ok info, store', Some (mk_File (concat es) b)) /\
    store_ok repr dt_json store' ks' /\
    represents (files_of snapshot (concat es)) (Store.records store') (replay ∅ (ops0 ++ ops)) /\
    truncated_wal info = false /\ lost_bytes info = 0).
Proof.
  intros snapshot wal Hes0 Hes (f & enc & rest & Hwf & Henc & Hcut & Htorn & Hrest & Hno) Hops0 Hops Hb.
  unfold now.
  assert (parse_buffer snapshot mode = mk_ParseResult (map stored_frame fs0) [] (zlen snapshot)) as Hp0
    by by apply parse_whole.
  assert (parse_buffer (concat es) mode = mk_ParseResult (map stored_frame fs) [] (zlen (concat es))) as Hp1
    by by apply parse_whole.
  assert (parse_buffer wal mode =
    mk_ParseResult (map stored_frame fs) [(zlen (concat es), zlen wal)] (zlen (concat es))) as Hp.
  { by apply (parse_torn_buffer mode fs es f enc torn rest). }
  split.
  - pose proof (recover_new (files_of snapshot wal) snapshot wal a b mode true value_mode eq_refl) as Hr.
    unfold file_log_ops, cut_wal in Hr. cbn [files_of] in Hr. rewrite Hp0, Hp in Hr. cbn [frames] in Hr.
    rewrite Hops0, Hops in Hr. destruct (Hr Hb) as (info & s' & ks' & -> & ? & ? & Ht & Hl).
    cbn [corrupt_ranges last snd fst] in *. rewrite Z.eqb_refl in *. exists info, s', ks'.
    split_and!; try done.
    + cbn [contents anchor]. unfold wal, zlen. by rewrite Nat2Z.id, take_app_length.
    + rewrite Hl. unfold wal. simpl. zlia.
  - pose proof (recover_new (files_of snapshot (concat es)) snapshot (concat es) a b mode true value_mode
      eq_refl) as Hr.
    unfold file_log_ops, cut_wal in Hr. cbn [files_of] in Hr. rewrite Hp0, Hp1 in Hr. cbn [frames] in Hr.
    rewrite Hops0, Hops in Hr. destruct (Hr Hb) as (info & s' & ks' & -> & ? & ? & Ht & Hl).
    by exists info, s', ks'.
Qed.
End claims.

(** ** Examples *)

Import Bitwise Samples.

Section examples.
Let a : WalAnchor := mk_WalAnchor 1 2.
Let json : Store.Datetimes -> option bytes := fun _ => None.
Let no_dt : bytes -> option MetadataJson := fun _ => Some DtMissing.
(** At time 100 the frame [f1] sets its key and the frame [f2] has expired. *)
Let ops1 : list LogOp := [LSet (key f1) (value f1) 123 None].
Let ops2 : list LogOp := [LDel (key f2)].
Let torn : bytes := take 7 (enc f2).

Lemma sample_ops :
  log_ops no_dt 100 (map stored_frame [f1]) = Ok ops1 /\
  log_ops no_dt 100 (map stored_frame [f2]) = Ok ops2.
Proof. split; vm_compute; reflexivity. Qed.

Lemma sample_torn mode : torn_log mode torn.
Proof.
  exists f2, (enc f2), (drop 7 (enc f2)).
  split; [by repeat split|]. do 4 (split; [by vm_compute|]).
  intros _ p Hp. destruct (read_frame_at torn p) as [[f n]|] eqn:E; [|done].
  apply read_frame_at_bounds in E as (_ & -> & Hle). pose proof (encoded_len_min f) as Hmin.
  unfold HEADER_SIZE, CRC_SIZE in *. change (zlen torn) with 7 in Hle. lia.
Qed.

Lemma recover_replays_the_logs_witness :
  exists info (store : Store.Store KeyIndex),
    recover no_dt (fun _ _ => 100) json Store.new (Some (mk_File (enc f1) a))
      (Some (mk_File (enc f2 ++ torn) a)) Strict true OnDisk =
      Some (Ok info, store, Some (mk_File (enc f2) a)) /\
    represents (files_of (enc f1) (enc f2 ++ torn)) (Store.records store) (replay ∅ (ops1 ++ ops2)) /\
    lost_bytes info = 7.
Proof.
  pose proof (recover_replays_the_logs no_dt 100 key_index_repr json Store.new [] ∅ (enc f1)
    (enc f2 ++ torn) a a Strict true OnDisk (new_ok key_index_repr json) (represents_empty _)) as Hr.
  assert (parse_buffer (enc f1) Strict = mk_ParseResult (map stored_frame [f1]) [] 32) as E1
    by (vm_compute; reflexivity).
  assert (parse_buffer (enc f2 ++ torn) Strict = mk_ParseResult (map stored_frame [f2]) [(30, 37)] 30) as E2
    by (vm_compute; reflexivity).
  cbv zeta in Hr. rewrite E1, E2 in Hr. cbn [frames corrupt_ranges] in Hr.
  rewrite (proj1 sample_ops), (proj2 sample_ops) in Hr.
  destruct (Hr ltac:(done)) as (info & store & ks & Hrec & _ & Hrep & Hinfo).
  exists info, store. split; [|split; [exact Hrep|by rewrite Hinfo]]. rewrite Hrec. reflexivity.
Defined.

Lemma recovery_after_a_torn_append_witness :
  exists info (store : Store.Store KeyIndex),
    recover no_dt (fun _ _ => 100) json Store.new (Some (mk_File (enc f2) a))
      (Some (mk_File (enc f1 ++ torn) a)) Resync true InMemory =
      Some (Ok info, store, Some (mk_File (enc f1) a)) /\
    represents (files_of (enc f2) (enc f1 ++ torn)) (Store.records store) (replay ∅ (ops2 ++ ops1)) /\
    lost_bytes info = 7.
Proof.
  destruct (recovery_after_a_torn_append no_dt 100 key_index_repr json [f2] [enc f2] [f1] [enc f1] torn
    ops2 ops1 a a Resync InMemory encodings_f2 encodings_f1 (sample_torn Resync) (proj2 sample_ops)
    (proj1 sample_ops)) as [(info & store & ks & Hrec & _ & Hrep & _ & Hlost) _]; [done|].
  exists info, store. split; [exact Hrec|]. split; [exact Hrep|exact Hlost].
Defined.
End examples.
End RecoveryFacts.
