(* ===== verification/Snapshot.v ===== *)
(** * Snapshots ([crates/minidb/src/snapshot.rs])

    Writing the live entries of the store as one frame each, through a buffer
    flushed at every mebibyte; the result also locates every value in the file.
    Yielding to the scheduler has no effect on the result and is left out, as is
    the failure of a write to the temporary file. *)

From S2P Require Import Prelude.
From S2P Require Import Crc.
From S2P Require Import Codec.
From S2P Require Import OrdIndex.
From S2P Require Import Store.
Import Codec.

Module Snapshot.

Definition FLUSH_BYTES : Z := Z.shiftl 1 20.

Record SnapshotResult := mk_SnapshotResult {
  count : Z;
  bytes_written : Z;
  locations : gmap bytes Store.ValueLoc;
}.

Inductive SnapshotError :=
| CodecFailure (e : CodecError)
| StoreFailure (e : Store.StoreError)
| Metadata.

Section snapshot.
Context `{Crc32fast}.
(** [serde_json::to_vec(&json!({"dt": datetimes}))]. *)
Context (dt_json : Store.Datetimes -> option bytes).

(** The file, the buffer not flushed yet, and the result so far. *)
Record Writer := mk_Writer {
  file : bytes;
  batch : bytes;
  result_so_far : SnapshotResult;
}.

Definition entry_meta (entry : Store.StoreEntry) : result SnapshotError (option bytes) :=
  match Store.entry_datetimes entry with
  | Some datetimes => Some <$> ok_or Metadata (dt_json datetimes)
  | None => Ok None
  end.

Definition entry_frame (entry : Store.StoreEntry) (meta : option bytes) : Frame :=
  mk_Frame TYPE_SET (Store.entry_key entry) (Store.entry_value entry) meta
    (Store.entry_expire_at entry).

Definition codec_error {A} (r : result CodecError A) : result SnapshotError A :=
  match r with Ok a => Ok a | Err e => Err (CodecFailure e) end.

Definition write_entry (w : Writer) (entry : Store.StoreEntry) : result SnapshotError Writer :=
  meta ← entry_meta entry;
  let value_len := zlen (Store.entry_value entry) `mod` 2 ^ 32 in
  frame ← codec_error (encode_frame (entry_frame entry meta));
  let r := result_so_far w in
  let frame_offset := bytes_written r + zlen (batch w) in
  let location := Store.mk_ValueLoc Store.Snapshot
                    (frame_offset + HEADER_SIZE + zlen (Store.entry_key entry)) value_len in
  let locations := <[Store.entry_key entry := location]> (locations r) in
  let batch := batch w ++ frame in
  if FLUSH_BYTES <=? zlen batch then
    Ok (mk_Writer (file w ++ batch) []
          (mk_SnapshotResult (count r + 1) (bytes_written r + zlen batch) locations))
  else
    Ok (mk_Writer (file w) batch (mk_SnapshotResult (count r + 1) (bytes_written r) locations)).

Fixpoint write_entries (w : Writer) (entries : list Store.StoreEntry) : result SnapshotError Writer :=
  match entries with
  | [] => Ok w
  | entry :: entries => w ← write_entry w entry; write_entries w entries
  end.

(** The final contents of the file, and the result. *)
Definition write_snapshot_entries (entries : list Store.StoreEntry)
    : result SnapshotError (bytes * SnapshotResult) :=
  w ← write_entries (mk_Writer [] [] (mk_SnapshotResult 0 0 ∅)) entries;
  let r := result_so_far w in
  if decide (batch w = []) then Ok (file w, r)
  else Ok (file w ++ batch w,
           mk_SnapshotResult (count r) (bytes_written r + zlen (batch w)) (locations r)).

Definition write_snapshot {T} (read_value : option (Store.ValueLoc -> result Store.StoreError bytes))
    (now : Z) (store : Store.Store T) : result SnapshotError (bytes * SnapshotResult) :=
  match Store.entries read_value now store with
  | Ok entries => write_snapshot_entries entries
  | Err e => Err (StoreFailure e)
  end.

End snapshot.
End Snapshot.
