(* ===== verification/SnapshotFacts.v ===== *)
(** * Snapshots and catching up

    A snapshot read back gives the entries written, with their values located;
    a process that follows a log applies each appended frame once. *)

From S2P Require Import Prelude.
From S2P Require Import Crc.
From S2P Require Import Codec.
From S2P Require Import Scan.
From S2P Require Import OrdIndex.
From S2P Require Import Store.
From S2P Require Import Float.
From S2P Require Import StoreFacts.
From S2P Require Import Recovery.
From S2P Require Import RecoveryFacts.
From S2P Require Import Snapshot.
Import Codec Scan StoreFacts Recovery RecoveryFacts.

Module SnapshotFacts.

Section snapshot.
Context `{Crc32fastOk}.
Context (dt_json : Store.Datetimes -> option bytes).
Context (metadata_of_json : bytes -> option MetadataJson).
(** [serde_json] on the metadata it has written: it reads the columns in some order, and
    [as_f64] gives the float nearest to each integer. *)
Definition json_law : Prop :=
  forall d j, dt_json d = Some j -> j <> [] /\ exists entries, metadata_of_json j = Some (DtMap entries) /\
    entries ≡ₚ map (fun column => (column.1, Some (Float.f64_of_i64 column.2))) (map_to_list d).

(** Every datetime is an integer that a float can hold. *)
Definition exact (d : Store.Datetimes) : Prop := map_Forall (fun _ n => - 2 ^ 53 <= n <= 2 ^ 53) d.

Lemma visit_map_exact (l : list (string * Z)) : forall output,
  Forall (fun column => - 2 ^ 53 <= column.2 <= 2 ^ 53) l ->
  visit_map (map (fun column => (column.1, Some (Float.f64_of_i64 column.2))) l) output =
    Some (fold_left (fun d column => <[column.1 := column.2]> d) l output).
Proof.
  induction l as [|[key n] l IH]; intros output Hl; [done|]. apply Forall_cons in Hl as [Hn Hl]. cbn [fst snd] in Hn.
  destruct (Float.f64_of_i64_exact n Hn) as [Hf Ht]. cbn [map visit_map fst snd fold_left]. rewrite Hf, Ht.
  destruct (Z.ltb_spec n (- 2 ^ 63)), (Z.leb_spec (2 ^ 63) n); try lia. cbn [orb]. by apply IH.
Qed.

Lemma fold_inserts (l : list (string * Z)) : forall output : Store.Datetimes,
  NoDup l.*1 -> (forall key, key ∈ l.*1 -> output !! key = None) ->
  fold_left (fun d column => <[column.1 := column.2]> d) l output = list_to_map l ∪ output.
Proof.
  induction l as [|[key n] l IH]; intros output Hn Ho; cbn [fold_left list_to_map foldr]; [by rewrite (left_id_L ∅ (∪))|].
  apply NoDup_cons in Hn as [Hk Hn]. rewrite IH; [|done|].
  - cbn [fst snd]. rewrite <- insert_union_r; [by rewrite insert_union_l|]. by apply not_elem_of_list_to_map_1.
  - intros k Hin. cbn [fst snd]. rewrite lookup_insert_ne by (intros <-; by apply Hk). apply Ho. by right.
Qed.

(** Datetimes that floats can hold are read back. *)
Lemma datetimes_roundtrip d j : json_law -> exact d -> dt_json d = Some j ->
  j <> [] /\ parse_meta metadata_of_json (Some j) = Ok (Some d).
Proof.
  intros Hlaw Hd Hj. destruct (Hlaw d j Hj) as (Hne & entries & Hm & Hp). split; [done|]. unfold parse_meta. rewrite Hm. cbn [mbind option_bind].
  apply Permutation_map_inv in Hp as (l & -> & Hl). cbn [deserialize_datetimes]. pose proof (NoDup_fst_map_to_list d) as Hnd.
  rewrite visit_map_exact, fold_inserts.
  - cbn. do 3 f_equal. rewrite (right_id_L ∅ (∪)). rewrite <- (list_to_map_to_list d). apply list_to_map_proper; [by rewrite <- Hl|by symmetry].
  - by rewrite <- Hl.
  - intros. apply lookup_empty.
  - rewrite <- Hl. apply Forall_forall. intros [k n] Hin%elem_of_map_to_list. by apply (Hd k).
Qed.

(** The metadata text of an entry. *)
Definition meta_text (e : Store.StoreEntry) : option bytes :=
  d ← Store.entry_datetimes e; dt_json d.

(** An entry a snapshot can hold. *)
Definition entry_wf (e : Store.StoreEntry) : Prop :=
  zlen (Store.entry_key e) <= MAX_KEY_LEN /\ zlen (Store.entry_value e) <= U32_MAX /\
  is_i64 (Store.entry_expire_at e) /\
  match Store.entry_datetimes e with
  | Some d => exact d /\ exists j, dt_json d = Some j /\ zlen j <= U32_MAX
  | None => True
  end.

Definition snapshot_frame (e : Store.StoreEntry) : Frame := Snapshot.entry_frame e (meta_text e).

Lemma snapshot_frame_wf e : entry_wf e -> frame_wf (snapshot_frame e).
Proof.
  intros (Hk & Hv & He & Hd). unfold frame_wf, snapshot_frame, meta_text. simpl.
  split_and!; try done. destruct (Store.entry_datetimes e) as [d|]; simpl; [|done].
  by destruct Hd as (_ & j & -> & ?).
Qed.

Lemma entry_meta_text e : entry_wf e -> Snapshot.entry_meta dt_json e = Ok (meta_text e).
Proof.
  intros (_ & _ & _ & Hd). unfold Snapshot.entry_meta, meta_text.
  destruct (Store.entry_datetimes e) as [d|]; simpl; [|done]. by destruct Hd as (_ & j & -> & _).
Qed.

(** The state of the writer after some entries: the file and the buffer are
    the frames so far, and every value written last under its key lies where its
    location says. *)
Record writer_ok (w : Snapshot.Writer) (es : list Store.StoreEntry) (encs : list bytes) : Prop := {
  wr_frames : encodings (map snapshot_frame es) encs;
  wr_output : Snapshot.file w ++ Snapshot.batch w = concat encs;
  wr_bytes : Snapshot.bytes_written (Snapshot.result_so_far w) = zlen (Snapshot.file w);
  wr_count : Snapshot.count (Snapshot.result_so_far w) = zlen es;
  wr_locations : forall k l, Snapshot.locations (Snapshot.result_so_far w) !! k = Some l ->
    Store.loc_file l = Store.Snapshot /\ 0 <= Store.loc_offset l /\ 0 <= Store.loc_len l /\
    Store.loc_offset l + Store.loc_len l <= zlen (concat encs);
  wr_values : NoDup (map Store.entry_key es) -> forall e, e ∈ es ->
    exists l, Snapshot.locations (Snapshot.result_so_far w) !! Store.entry_key e = Some l /\
      slice (concat encs) (Store.loc_offset l) (Store.loc_offset l + Store.loc_len l) =
        Store.entry_value e;
}.

Lemma encode_frame_value f enc :
  encode_frame f = Ok enc ->
  slice enc (HEADER_SIZE + zlen (key f)) (HEADER_SIZE + zlen (key f) + zlen (value f)) = value f /\
  HEADER_SIZE + zlen (key f) + zlen (value f) <= zlen enc.
Proof.
  intros Henc. pose proof (encode_frame_len f enc Henc) as Hlen.
  apply encode_frame_Ok in Henc as [_ ->]. pose proof (proj1 (frame_header_fields f)) as Hh.
  split.
  - unfold frame_payload. rewrite <- !app_assoc. rewrite (app_assoc (frame_header f)).
    apply slice_mid; zlia.
  - rewrite Hlen. unfold encoded_len, CRC_SIZE. zlen_pos. lia.
Qed.

Lemma write_entry_ok w es encs e :
  writer_ok w es encs -> entry_wf e ->
  exists w' enc, Snapshot.write_entry dt_json w e = Ok w' /\ writer_ok w' (es ++ [e]) (encs ++ [enc]).
Proof.
  intros Hw Hwf. destruct (encode_frame_wf _ (snapshot_frame_wf e Hwf)) as [enc Henc].
  destruct (encode_frame_value _ _ Henc) as [Hval Hlen]. cbn [key value snapshot_frame Snapshot.entry_frame] in *.
  unfold Snapshot.write_entry. rewrite (entry_meta_text e Hwf). simpl_bind.
  fold (snapshot_frame e). rewrite Henc. cbn [Snapshot.codec_error]. simpl_bind.
  pose proof (snapshot_frame_wf e Hwf) as Hfw.
  destruct Hwf as (Hk & Hv & _). destruct Hw as [Hf Ho Hb Hc Hl Hvals].
  rewrite Z.mod_small by (unfold U32_MAX in Hv; zlia).
  set (loc := Store.mk_ValueLoc _ _ _).
  assert (Store.loc_offset loc = zlen (concat encs) + HEADER_SIZE + zlen (Store.entry_key e)) as Hoff.
  { simpl. rewrite Hb, <- Ho. zlia. }
  assert (encodings (map snapshot_frame (es ++ [e])) (encs ++ [enc])) as Hf'.
  { rewrite map_app. apply Forall2_app; [done|]. apply Forall2_cons. split; [|constructor].
    by split. }
  assert (concat (encs ++ [enc]) = concat encs ++ enc) as Hcc by (rewrite concat_app; simpl; by rewrite app_nil_r).
  assert (forall w', Snapshot.file w' ++ Snapshot.batch w' = concat encs ++ enc ->
    Snapshot.bytes_written (Snapshot.result_so_far w') = zlen (Snapshot.file w') ->
    Snapshot.count (Snapshot.result_so_far w') = zlen es + 1 ->
    Snapshot.locations (Snapshot.result_so_far w') =
      <[Store.entry_key e := loc]> (Snapshot.locations (Snapshot.result_so_far w)) ->
    writer_ok w' (es ++ [e]) (encs ++ [enc])) as Hbuild.
  { intros w' Ho' Hb' Hc' Hl'. split; [done|by rewrite Hcc|done|rewrite Hc'; zlia| |].
    - intros k l. rewrite Hl', Hcc. destruct (decide (k = Store.entry_key e)) as [->|].
      + rewrite lookup_insert_eq. intros [= <-]. rewrite Hoff. simpl. unfold HEADER_SIZE in *.
        split_and!; first [done | zlia].
      + rewrite lookup_insert_ne by done. intros (?&?&?&?)%Hl. split_and!; first [done | zlia].
    - rewrite map_app. intros (Hn & Hd & _)%NoDup_app x Hx. rewrite Hl', Hcc.
      apply elem_of_app in Hx as [Hx|Hx].
      + destruct (Hvals Hn x Hx) as (l & El & Es). exists l. rewrite lookup_insert_ne.
        * split; [done|]. destruct (Hl _ _ El) as (_&?&?&?). by rewrite slice_app_l by lia.
        * intros Heq. apply (Hd (Store.entry_key x)); [by apply list_elem_of_In, in_map, list_elem_of_In|].
          rewrite <- Heq. set_solver.
      + assert (x = e) as -> by set_solver. exists loc. rewrite lookup_insert_eq. split; [done|]. rewrite Hoff. simpl.
        rewrite slice_app_r by (unfold HEADER_SIZE; zlia). etrans; [|exact Hval]. f_equal; lia. }
  assert (zlen (concat encs) = zlen (Snapshot.file w) + zlen (Snapshot.batch w)) as Hzl
    by (rewrite <- Ho; zlia).
  case_cmp; eexists _, enc; (split; [done|]); apply Hbuild; simpl;
    rewrite ?app_nil_r, ?app_assoc, ?Ho; try done; zlia.
Qed.

Lemma write_entries_ok rest w es encs :
  writer_ok w es encs -> Forall entry_wf rest ->
  exists w' encs', Snapshot.write_entries dt_json w rest = Ok w' /\ writer_ok w' (es ++ rest) encs'.
Proof.
  intros Hw Hwf. revert w es encs Hw. induction Hwf as [|e rest He _ IH]; intros w es encs Hw; simpl.
  - exists w, encs. by rewrite app_nil_r.
  - destruct (write_entry_ok w es encs e Hw He) as (w1 & enc & -> & Hw1). simpl.
    destruct (IH w1 _ _ Hw1) as (w2 & encs' & Hs & Hok). exists w2, encs'.
    by rewrite <- app_assoc in Hok.
Qed.

Lemma write_snapshot_entries_ok es :
  Forall entry_wf es ->
  exists encs r, Snapshot.write_snapshot_entries dt_json es = Ok (concat encs, r) /\
    encodings (map snapshot_frame es) encs /\
    Snapshot.count r = zlen es /\ Snapshot.bytes_written r = zlen (concat encs) /\
    (NoDup (map Store.entry_key es) -> forall e, e ∈ es ->
      exists l, Snapshot.locations r !! Store.entry_key e = Some l /\
        Store.loc_file l = Store.Snapshot /\ Store.loc_len l = zlen (Store.entry_value e) /\
        slice_get (concat encs) (Store.loc_offset l) (Store.loc_offset l + Store.loc_len l) =
          Some (Store.entry_value e)).
Proof.
  intros Hwf. unfold Snapshot.write_snapshot_entries.
  destruct (write_entries_ok es (Snapshot.mk_Writer [] [] (Snapshot.mk_SnapshotResult 0 0 ∅)) [] [])
    as (w & encs & -> & [Hf Ho Hb Hc Hl Hv]); [|done|].
  { split; [by apply Forall2_nil_2|done|done|done| |].
    - intros k l E. simpl in E. by rewrite lookup_empty in E.
    - intros _ e He. by apply not_elem_of_nil in He. }
  simpl in *. assert (forall e, NoDup (map Store.entry_key es) -> e ∈ es ->
      exists l, Snapshot.locations (Snapshot.result_so_far w) !! Store.entry_key e = Some l /\
        Store.loc_file l = Store.Snapshot /\ Store.loc_len l = zlen (Store.entry_value e) /\
        slice_get (concat encs) (Store.loc_offset l) (Store.loc_offset l + Store.loc_len l) =
          Some (Store.entry_value e)) as Hlocs.
  { intros e Hn He. destruct (Hv Hn e He) as (l & El & Es). exists l.
    destruct (Hl _ _ El) as (? & ? & ? & ?). rewrite <- Es, zlen_slice by lia.
    split_and!; [done|done|lia|]. apply slice_get_in; lia. }
  case_decide as Hbatch.
  - exists encs, (Snapshot.result_so_far w). rewrite Hbatch, app_nil_r in Ho.
    split_and!; [by rewrite Ho|done|done|by rewrite Hb, Ho|auto].
  - eexists encs, _. split; [by rewrite Ho|]. simpl. split_and!; try done; [|auto].
    rewrite Hb, <- Ho. zlia.
Qed.
(** ** Reading a snapshot back *)

Definition entry_live (t : Z) (e : Store.StoreEntry) : bool :=
  (Store.entry_expire_at e =? 0) || (t <? Store.entry_expire_at e).

Definition entry_log (t : Z) (e : Store.StoreEntry) : LogOp :=
  if entry_live t e then
    LSet (Store.entry_key e) (Store.entry_value e) (Store.entry_expire_at e) (Store.entry_datetimes e)
  else LDel (Store.entry_key e).

Definition entry_record (e : Store.StoreEntry) : LogRecord :=
  mk_LogRecord (Store.entry_value e) (Store.entry_expire_at e) (Store.entry_datetimes e).

Lemma snapshot_log_ops t es :
  json_law -> Forall entry_wf es ->
  log_ops metadata_of_json t (map stored_frame (map snapshot_frame es)) = Ok (map (entry_log t) es).
Proof.
  intros Hjson. induction 1 as [|e es (_ & _ & _ & Hd) _ IH]; [done|].
  unfold log_ops in *. cbn [map concat_results]. rewrite IH. clear IH.
  unfold frame_log_ops, stored_frame, snapshot_frame, Snapshot.entry_frame. cbn [frame_type key value meta expire_at].
  rewrite decide_True by done. unfold set_log_ops, entry_log, entry_live.
  rewrite (Z.leb_antisym t), <- negb_orb.
  destruct ((Store.entry_expire_at e =? 0) || (t <? Store.entry_expire_at e)); cbn [negb]; [|done].
  unfold meta_text. destruct (Store.entry_datetimes e) as [d|]; [|done].
  destruct Hd as (Hex & j & Ej & Hj). cbn [mbind option_bind]. rewrite Ej. destruct (datetimes_roundtrip d j Hjson Hex Ej) as [Hne Hof].
  unfold meta_of. cbn [default from_option id]. destruct (Z.ltb_spec 0 (zlen j)) as [|Hz].
  - by rewrite Hof.
  - destruct Hne. apply zlen_0. zlen_pos. lia.
Qed.

Lemma replay_other t es m k :
  k ∉ map Store.entry_key es -> replay m (map (entry_log t) es) !! k = m !! k.
Proof.
  unfold replay. revert m. induction es as [|e es IH]; intros m Hk; simpl in *; [done|].
  apply not_elem_of_cons in Hk as [Hne Hk]. rewrite IH by done. unfold entry_log.
  destruct (entry_live t e); simpl; [by rewrite lookup_insert_ne|by rewrite lookup_delete_ne].
Qed.

Lemma replay_entry t es m e :
  NoDup (map Store.entry_key es) -> e ∈ es ->
  replay m (map (entry_log t) es) !! Store.entry_key e =
  if entry_live t e then Some (entry_record e) else None.
Proof.
  revert m. induction es as [|x es IH]; intros m Hn He; [by apply not_elem_of_nil in He|].
  simpl in Hn. apply NoDup_cons in Hn as [Hx Hn]. apply elem_of_cons in He as [->|He].
  - change (replay m (map (entry_log t) (x :: es))) with (replay (replay_op m (entry_log t x)) (map (entry_log t) es)).
    rewrite replay_other by done. unfold entry_log.
    destruct (entry_live t x); simpl; [by rewrite lookup_insert_eq|by rewrite lookup_delete_eq].
  - by apply IH.
Qed.

Context {T : Type} (repr : T -> list (bytes * bytes) -> Prop).
Context `{!OrdIndex.OrderedIndex T bytes bytes} `{!OrdIndex.OrderedIndexLaws OrdIndex.bytes_cmp OrdIndex.bytes_cmp repr}.

(** C27: Writing a snapshot succeeds on entries whose fields fit their widths and whose
    datetimes are integers of at most 53 bits, with keys that are distinct; recovering
    from the file alone, at any time and in either mode, gives a store that holds
    exactly the entries not expired by then, with their values, expiry times and
    datetimes; nothing is reported lost.  The locations returned hold the values. *)
Theorem snapshot_roundtrip t es mode value_mode a :
  json_law -> Forall entry_wf es -> NoDup (map Store.entry_key es) -> zlen es < U64_MAX ->
  exists file r info store ks lm,
    Snapshot.write_snapshot_entries dt_json es = Ok (file, r) /\
    recover metadata_of_json (fun _ _ => t) dt_json Store.new (Some (mk_File file a)) None mode true value_mode =
      Some (Ok info, store, None) /\
    store_ok repr dt_json store ks /\ lost_bytes info = 0 /\ snapshot_frames info = zlen es /\
    represents (files_of file []) (Store.records store) lm /\
    (forall e, e ∈ es -> lm !! Store.entry_key e = if entry_live t e then Some (entry_record e) else None) /\
    (forall k, is_Some (lm !! k) -> k ∈ map Store.entry_key es) /\
    (forall e, e ∈ es -> exists l, Snapshot.locations r !! Store.entry_key e = Some l /\
       slice file (Store.loc_offset l) (Store.loc_offset l + Store.loc_len l) = Store.entry_value e).
Proof.
  intros Hjson Hwf Hn Hb.
  destruct (write_snapshot_entries_ok es Hwf) as (encs & r & Hwrite & Henc & _ & _ & Hlocs).
  pose proof (recover_spec metadata_of_json t (files_of (concat encs) []) repr dt_json Store.new [] ∅
    (Some (mk_File (concat encs) a)) None mode true value_mode
    (new_ok repr dt_json) (represents_empty _) eq_refl eq_refl) as Hr.
  unfold file_log_ops in Hr. cbn [files_of] in Hr. rewrite (parse_whole _ _ mode Henc) in Hr.
  cbn [frames corrupt_ranges] in Hr. rewrite (snapshot_log_ops t es Hjson Hwf) in Hr.
  change (parse_buffer [] mode) with (mk_ParseResult [] [] 0) in Hr. cbn [frames corrupt_ranges] in Hr.
  change (log_ops metadata_of_json t []) with (@Ok RecoveryError (list LogOp) []) in Hr.
  cbv beta iota in Hr. rewrite !app_nil_r in Hr. destruct Hr as (store & ks & Hrec & Hok & Hrep).
  { unfold zlen in *. rewrite length_map. exact Hb. }
  eexists (concat encs), r, _, store, ks, (replay ∅ (map (entry_log t) es)).
  assert (cut_wal (files_of (concat encs) []) true mode None = None) as Hcut by done.
  rewrite Hcut in Hrec.
  split_and!; try done.
  - unfold report. cbn [lost_bytes files_of]. by rewrite (parse_whole _ _ mode Henc).
  - unfold report. cbn [snapshot_frames files_of]. rewrite (parse_whole _ _ mode Henc). unfold zlen. cbn [frames]. by rewrite !length_map.
  - intros e He. by apply replay_entry.
  - intros k Hk. destruct (decide (k ∈ map Store.entry_key es)) as [|Hnot]; [done|].
    rewrite replay_other, lookup_empty in Hk by done. by destruct Hk.
  - intros e He. destruct (Hlocs Hn e He) as (l & ? & _ & _ & Hv%slice_get_Some). exists l.
    split; [done|]. by destruct Hv as (_ & _ & <-).
Qed.
End snapshot.

(** ** Following a log *)

Section follow.
Context `{Crc32fastOk}.

Lemma scan_from file p mode :
  0 <= p ->
  exists refs fs rs e,
    scan_frame_refs file mode p = Ok (mk_ScanFrameRefsResult refs rs e) /\
    parsed file mode p fs rs e /\ Forall2 (refers_to file) refs fs.
Proof.
  intros Hp. destruct (scan_loop_parse (S (length file)) file mode [] [] [] p Hp)
    as (refs & fs & rs & e & Hs & Hparse & Href); [constructor|].
  destruct (parse_loop_spec (S (length file)) file mode [] [] p Hp) as (fs' & rs' & e' & Hp' & Hpd).
  { unfold zlen. lia. }
  rewrite Hparse in Hp'. injection Hp' as -> -> ->. by exists refs, fs', rs', e'.
Qed.

Lemma apply_frames_all {S} (step : S -> FrameRef -> S) refs file s :
  apply_frames (fun r _ s => (Ok (), step s r)) refs file s = (Ok (), fold_left step refs s).
Proof. revert s. induction refs as [|r refs IH]; intros s; simpl; [done|]. apply IH. Qed.

(** C28: a follower that has caught up with the frames [es1] of a log, which has
    grown since by the frames [fs2] and maybe by the start of one more, applies
    exactly the new whole frames, once and in order, and stands after them; its
    next catch-up starts there.  If the log was replaced it is told so. *)
Theorem catch_up_applies_the_new_frames {S} (step : S -> FrameRef -> S) fs1 es1 fs2 es2 f enc torn rest a b s :
  encodings fs1 es1 -> encodings fs2 es2 ->
  frame_wf f -> encode_frame f = Ok enc -> enc = torn ++ rest -> rest <> [] ->
  let wal := concat es1 ++ concat es2 ++ torn in
  let apply := fun r (_ : bytes) s => (Ok (), step s r) in
  exists refs, Forall2 (refers_to wal) refs (map stored_frame fs2) /\
    catch_up_wal (Some (mk_File wal a)) (zlen (concat es1)) b apply s =
      if bool_decide (a = b)
      then (Ok (Some (mk_CatchUpResult (zlen (concat es1 ++ concat es2)) (zlen fs2))), fold_left step refs s)
      else (Ok None, s).
Proof.
  intros Hes1 Hes2 Hwf Henc Hcut Hrest wal apply.
  destruct (scan_from wal (zlen (concat es1)) Strict) as (refs & fs & rs & e & Hs & Hp & Href);
    [apply zlen_nonneg|].
  assert (exists rs', parsed wal Strict (zlen (concat es1)) (map stored_frame fs2) rs'
    (zlen (concat es1 ++ concat es2))) as [rs' Hp'].
  { assert (exists rs', parsed wal Strict (zlen (concat es1) + zlen (concat es2)) [] rs'
      (zlen (concat es1 ++ concat es2))) as [rs' Hend].
    { rewrite <- zlen_app. destruct torn as [|x torn'].
      - exists []. unfold wal. rewrite app_nil_r. by constructor.
      - eexists. apply parsed_strict; [done| |].
        + unfold wal. rewrite !zlen_app, zlen_cons. zlen_pos. lia.
        + unfold wal. rewrite app_assoc. by eapply torn_not_frame. }
    exists rs'. rewrite <- (app_nil_r (map stored_frame fs2)).
    by apply (parsed_encodings Strict fs2 es2 Hes2 (concat es1) torn). }
  destruct (parsed_det _ _ _ _ _ _ _ _ _ Hp Hp') as (-> & -> & ->).
  exists refs. split; [done|]. unfold catch_up_wal. cbn [anchor contents].
  destruct (decide (a = b)) as [->|Hne].
  2: { rewrite (bool_decide_eq_true_2 (a <> b)), (bool_decide_eq_false_2 (a = b)) by done. done. }
  rewrite bool_decide_eq_false_2, bool_decide_eq_true_2 by (auto || tauto).
  assert (zlen (concat es1) <= zlen wal) by (unfold wal; zlia).
  destruct (Z.ltb_spec (zlen wal) (zlen (concat es1))); [lia|]. simpl. rewrite Hs. simpl.
  assert (zlen refs = zlen fs2) as Hlr.
  { unfold zlen. f_equal. rewrite (Forall2_length _ _ _ Href). apply length_map. }
  rewrite Hlr. unfold apply. rewrite apply_frames_all.
  destruct (Z.eqb_spec (zlen fs2) 0) as [Hz|Hz]; simpl; [|done].
  apply zlen_0 in Hz as ->. apply Forall2_nil_inv_l in Hes2 as ->.
  apply Forall2_nil_inv_r in Href as ->. simpl. rewrite app_nil_r.
  destruct (Z.ltb_spec (zlen (concat es1)) (zlen wal)) as [Hlt|]; [|done].
  assert (MAGIC `prefix_of` enc) as [tail Htail].
  { apply encode_frame_Ok in Henc as [_ ->]. unfold frame_header. rewrite <- !app_assoc.
    by eexists. }
  set (n := Z.min (zlen wal - zlen (concat es1)) (zlen MAGIC)).
  assert (zlen wal = zlen (concat es1) + zlen torn) as Hw by (unfold wal; simpl; zlia).
  assert (n = Z.min (zlen torn) 2) as Hn by (unfold n; rewrite Hw; change (zlen MAGIC) with 2; lia).
  assert (read_at wal (zlen (concat es1)) n = Ok (take (Z.to_nat n) MAGIC)) as ->.
  { unfold read_at. destruct (Z.eqb_spec n 0) as [->|Hn0]; [done|].
    rewrite slice_get_in by (zlen_pos; lia). simpl. f_equal. unfold wal. simpl.
    rewrite slice_app_r by lia. rewrite Z.sub_diag, Z.add_simpl_l.
    unfold slice. rewrite Z.sub_0_r. change (Z.to_nat 0) with 0%nat. rewrite drop_0.
    transitivity (take (Z.to_nat n) enc).
    - rewrite Hcut, take_app_le; [done|]. unfold zlen in Hn. lia.
    - rewrite Htail, take_app_le; [done|]. change (length MAGIC) with 2%nat. lia. }
  simpl. rewrite bool_decide_eq_false_2 by auto. done.
Qed.
End follow.

(** ** Examples *)

Import Bitwise Samples.

(** A text for datetimes with an inverse. *)
Fixpoint pos_bytes (p : positive) : bytes :=
  match p with
  | xH => []
  | xO p => byte_of 0 :: pos_bytes p
  | xI p => byte_of 1 :: pos_bytes p
  end.

Fixpoint bytes_pos (l : bytes) : positive :=
  match l with
  | [] => xH
  | b :: l => if decide (b = byte_of 0) then xO (bytes_pos l) else xI (bytes_pos l)
  end.

Definition sample_json (d : Store.Datetimes) : option bytes :=
  Some (byte_of 123 :: pos_bytes (encode d)).
Definition sample_of_json (j : bytes) : option MetadataJson :=
  d ← decode (bytes_pos (tail j)) : option Store.Datetimes;
  Some (DtMap (map (fun column => (column.1, Some (Float.f64_of_i64 column.2))) (map_to_list d))).

Lemma bytes_pos_pos_bytes p : bytes_pos (pos_bytes p) = p.
Proof. induction p as [p IH|p IH|]; cbn [pos_bytes bytes_pos]; [| |done]; rewrite IH.
  - by rewrite decide_False.
  - by rewrite decide_True.
Qed.

Lemma sample_json_law : json_law sample_json sample_of_json.
Proof.
  intros d j [= <-]. split; [done|]. unfold sample_of_json. cbn [tail].
  rewrite bytes_pos_pos_bytes, decode_encode. cbn [mbind option_bind]. by eexists.
Qed.

(** A datetime of more than 53 bits is read back as another one, and the greatest keeps
    the database from opening. *)
Example large_datetimes_are_changed :
  parse_meta sample_of_json (sample_json {["due" := 2 ^ 53 + 1]}%string) = Ok (Some {["due" := 2 ^ 53]}%string) /\
  parse_meta sample_of_json (sample_json {["due" := 2 ^ 63 - 1]}%string) = Err Metadata.
Proof. split; vm_compute; reflexivity. Qed.

Definition sample_entries : list Store.StoreEntry :=
  [Store.mk_StoreEntry (map byte_of [97]) (map byte_of [1; 2]) 0 (Some {["due" := 5]}%string);
   Store.mk_StoreEntry (map byte_of [98]) [] 7 None].

Lemma sample_entries_wf : Forall (entry_wf sample_json) sample_entries.
Proof.
  apply Forall_cons; split; [|apply Forall_cons; split; [|constructor]].
  - split; [vm_compute; discriminate|]. split; [vm_compute; discriminate|].
    split; [split; vm_compute; congruence|]. cbn [Store.entry_datetimes].
    split; [|eexists; split; [reflexivity|]; vm_compute; discriminate].
    intros k n. rewrite lookup_singleton_Some. intros [_ <-]. lia.
  - split; [vm_compute; discriminate|]. split; [vm_compute; discriminate|].
    split; [split; vm_compute; congruence|exact I].
Qed.

Lemma snapshot_roundtrip_witness :
  exists file r info (store : Store.Store KeyIndex) lm,
    Snapshot.write_snapshot_entries sample_json sample_entries = Ok (file, r) /\
    recover sample_of_json (fun _ _ => 50) sample_json Store.new
      (Some (mk_File file (mk_WalAnchor 1 2))) None Resync true OnDisk = Some (Ok info, store, None) /\
    represents (files_of file []) (Store.records store) lm /\
    lm !! map byte_of [97] = Some (mk_LogRecord (map byte_of [1; 2]) 0 (Some {["due" := 5]}%string)) /\
    lm !! map byte_of [98] = None.
Proof.
  destruct (snapshot_roundtrip sample_json sample_of_json key_index_repr 50 sample_entries Resync OnDisk
    (mk_WalAnchor 1 2)) as (file & r & info & store & ks & lm & Hw & Hr & _ & _ & _ & Hrep & Hlm & _).
  - exact sample_json_law.
  - exact sample_entries_wf.
  - repeat constructor; set_solver.
  - done.
  - exists file, r, info, store, lm. split; [exact Hw|]. split; [exact Hr|]. split; [exact Hrep|].
    split.
    + apply (Hlm (Store.mk_StoreEntry (map byte_of [97]) (map byte_of [1; 2]) 0 (Some {["due" := 5]}%string))).
      left.
    + apply (Hlm (Store.mk_StoreEntry (map byte_of [98]) [] 7 None)). right. left.
Defined.

Lemma catch_up_applies_the_new_frames_witness :
  exists refs, Forall2 (refers_to (enc f1 ++ enc f2 ++ take 7 (enc f1))) refs [f2] /\
    catch_up_wal (Some (mk_File (enc f1 ++ enc f2 ++ take 7 (enc f1)) (mk_WalAnchor 1 2))) 32
      (mk_WalAnchor 1 2) (fun r _ s => (Ok (), s ++ [r])) [] =
      (Ok (Some (mk_CatchUpResult 62 1)), refs).
Proof.
  destruct (catch_up_applies_the_new_frames (fun s r => s ++ [r]) [f1] [enc f1] [f2] [enc f2] f1
    (enc f1) (take 7 (enc f1)) (drop 7 (enc f1)) (mk_WalAnchor 1 2) (mk_WalAnchor 1 2) []
    encodings_f1 encodings_f2) as (refs & Href & Hc).
  - by repeat split.
  - by vm_compute.
  - by vm_compute.
  - by vm_compute.
  - exists refs. split; [exact Href|].
    pose proof (Forall2_length _ _ _ Href) as Hl. destruct refs as [|r [|? ?]]; try discriminate Hl.
    exact Hc.
Defined.
End SnapshotFacts.
