(* ===== verification/Wal.v ===== *)
(** * The write-ahead log ([crates/minidb/src/wal.rs])

    A log shared by appenders and one flush task at a time.  Every critical
    section of the code's mutex is one function on the state, and one step of the
    relation [step]; the batch that the flush task holds between its sections is
    part of the state.

    Writing to a [tokio] file hands the bytes to a task of the blocking pool and does
    not wait for it: [write_all] waits for the write before, and its last bytes are
    [queued] when it returns.  When that write fails the next write reports it; [sync_all]
    waits for it and does not.  What the operating system makes of the writes, of a
    synchronization and of a rollback are the arguments [SettleOutcome] and
    [WriteOutcome].  A completion channel is an identifier, and sending on it records
    the result; [committed], [lost] and the offset kept with a pending write are ghosts,
    for the statements only.  The timer of the [EverySecond] policy only syncs, which
    any step [step_sync] stands for. *)

From stdpp Require Import pretty.
From S2P Require Import Prelude.

Module Wal.

Inductive FsyncPolicy := Always | EverySecond | No.

Record WalStats := mk_WalStats { bytes_written : Z; fsyncs : Z }.

Inductive WalError :=
| Closed
| Sealed
| NotOpen
| Io (message : string)
| CompletionClosed.

Definition code (e : WalError) : option string :=
  match e with Sealed => Some "WAL_SEALED"%string | _ => None end.

(** [completion] names the channel; [offset] is the offset handed out. *)
Record PendingWrite := mk_PendingWrite { pw_bytes : bytes; completion : nat; pw_offset : Z }.

Record WalState := mk_WalState {
  size : Z;
  next_offset : Z;
  queue : list PendingWrite;
  flushing : bool;
  failed : option string;
  sealed : bool;
  closed : bool;
  is_open : bool;
}.

(** The file at the path, what was handed to the handle and is not yet in the file,
    the failure that the next write will report, and how much has been synced; [lost]
    says that a queued write has failed. *)
Record LogFile := mk_LogFile { disk : bytes; queued : bytes; write_error : option string; synced : Z; lost : bool }.

(** The file once what is queued is written. *)
Definition contents (log : LogFile) : bytes := disk log ++ queued log.

Record Wal := mk_Wal {
  state : WalState;
  (** The open handle is held in the slot. *)
  file : bool;
  log : LogFile;
  stats : option WalStats;
  (** The batch the flush task has taken, and its start. *)
  in_flight : option (list PendingWrite * Z);
  (** The channels made, and the results sent on them, in order. *)
  channels : nat;
  completions : list (nat * result WalError ());
  committed : list PendingWrite;
}.

(** A log over a file that may exist already. *)
Definition new (stats : option WalStats) (disk : bytes) : Wal :=
  mk_Wal (mk_WalState 0 0 [] false None false false false) false (mk_LogFile disk [] None 0 false) stats None 0 [] [].

Definition with_state (self : Wal) (state : WalState) : Wal :=
  mk_Wal state (file self) (log self) (stats self) (in_flight self) (channels self)
    (completions self) (committed self).

(** ** Opening *)

Definition open (self : Wal) : Wal :=
  if is_open (state self) then self
  else
    let f := log self in
    let size := zlen (disk f) in
    mk_Wal (mk_WalState size size (queue (state self)) (flushing (state self)) None false false true)
      true (mk_LogFile (disk f) (queued f) None (synced f) (lost f)) (stats self) (in_flight self) (channels self) (completions self)
      (committed self).

Definition seal (self : Wal) : Wal :=
  let s := state self in
  with_state self (mk_WalState (size s) (next_offset s) (queue s) (flushing s) (failed s) true
                     (closed s) (is_open s)).

(** ** Appending *)

(** The offset and the channel of the append. *)
Record WalAppend := mk_WalAppend { offset : Z; append_completion : nat }.

Definition append_loc (frame : bytes) (self : Wal) : result WalError WalAppend * Wal :=
  let s := state self in
  if closed s then (Err Closed, self)
  else if sealed s then (Err Sealed, self)
  else if negb (is_open s) then (Err NotOpen, self)
  else match failed s with
  | Some message => (Err (Io message), self)
  | None =>
      let offset := next_offset s in
      let id := channels self in
      let s := mk_WalState (size s) (saturating_add offset (zlen frame))
                 (queue s ++ [mk_PendingWrite frame id offset]) true (failed s) (sealed s) (closed s)
                 (is_open s) in
      (Ok (mk_WalAppend offset id),
       mk_Wal s (file self) (log self) (stats self) (in_flight self) (S id)
         (completions self) (committed self))
  end.

Definition refresh_size (self : Wal) : result WalError () * Wal :=
  if file self then
    let s := state self in
    let size := zlen (disk (log self)) in
    (Ok (), with_state self (mk_WalState size size (queue s) (flushing s) (failed s) (sealed s)
                               (closed s) (is_open s)))
  else (Err NotOpen, self).

Definition increment_fsyncs (stats : option WalStats) : option WalStats :=
  (fun stats => mk_WalStats (bytes_written stats) (fsyncs stats + 1)) <$> stats.

(** *** The handle *)

(** What becomes of the write that is queued. *)
Inductive SettleOutcome := Settled | Unsettled (message : string) (reached : nat).

Definition settle (outcome : SettleOutcome) (f : LogFile) : LogFile :=
  match queued f with
  | [] => f
  | _ =>
      match outcome with
      | Settled => mk_LogFile (contents f) [] (write_error f) (synced f) (lost f)
      | Unsettled message reached => mk_LogFile (disk f ++ take reached (queued f)) [] (Some message) (synced f) true
      end
  end.

Definition mark_synced (f : LogFile) : LogFile := mk_LogFile (disk f) (queued f) (write_error f) (zlen (disk f)) (lost f).

Definition with_log (self : Wal) (log : LogFile) (stats : option WalStats) : Wal :=
  mk_Wal (state self) (file self) log stats (in_flight self) (channels self) (completions self) (committed self).

(** [sync_inner]; [failure] is that of the synchronization itself. *)
Definition sync (outcome : SettleOutcome) (failure : option string) (self : Wal) : result WalError () * Wal :=
  if file self then
    let f := settle outcome (log self) in
    match failure with
    | None => (Ok (), with_log self (mark_synced f) (increment_fsyncs (stats self)))
    | Some message => (Err (Io message), with_log self f (stats self))
    end
  else (Err NotOpen, self).

(** ** Flushing *)

(** What becomes of a batch: of the write queued [earlier], of its own [writes] (of which
    the part [reached] is in the file when [write_all] returns, and the [rest] queued, for
    which a synchronization waits; or the writes or the synchronization fail), and of the
    rollback that follows a failure: [cut] says whether the file was cut before the
    rollback failed. *)
Inductive RollbackOutcome := RolledBack | RollbackFailed (message : string) (cut : bool).
Inductive Writes :=
| HandedOver (reached : nat) (rest : SettleOutcome)
| WritesFail (message : string) (reached : nat).
Record WriteOutcome := mk_WriteOutcome { earlier : SettleOutcome; writes : Writes; rollback : RollbackOutcome }.

Record BatchWriteFailure := mk_BatchWriteFailure { message : string; rollback_failed : bool }.

(** [write_all], and [sync_all] under [Always]. *)
Definition try_write (policy : FsyncPolicy) (outcome : WriteOutcome) (combined : bytes) (f : LogFile) : result string () * LogFile :=
  let f := settle (earlier outcome) f in
  match write_error f with
  | Some message => (Err message, mk_LogFile (disk f) [] None (synced f) (lost f))
  | None =>
      match writes outcome with
      | WritesFail message reached => (Err message, mk_LogFile (disk f ++ take reached combined) [] None (synced f) (lost f))
      | HandedOver reached rest =>
          let f := mk_LogFile (disk f ++ take reached combined) (drop reached combined) None (synced f) (lost f) in
          (Ok (), match policy with Always => mark_synced (settle rest f) | _ => f end)
      end
  end.

(** [set_len]: a file that is shorter is filled up with zeros. *)
Definition set_len (len : Z) (disk : bytes) : bytes :=
  take (Z.to_nat len) disk ++ replicate (Z.to_nat len - length disk) (byte_of 0).

Definition write_batch (policy : FsyncPolicy) (outcome : WriteOutcome) (combined : bytes)
    (batch_start : Z) (self : Wal) : result BatchWriteFailure () * Wal :=
  let build file log stats :=
    mk_Wal (state self) file log stats (in_flight self) (channels self) (completions self) (committed self) in
  if negb (file self) then (Err (mk_BatchWriteFailure "WAL is not open" true), self)
  else
    let '(r, f) := try_write policy outcome combined (log self) in
    match r with
    | Ok _ => (Ok (), build true f (match policy with Always => increment_fsyncs (stats self) | _ => stats self end))
    | Err message =>
        let cut := set_len batch_start (disk f) in
        match rollback outcome with
        | RolledBack =>
            (Err (mk_BatchWriteFailure message false),
             build true (mk_LogFile cut [] None (zlen cut) (lost f)) (increment_fsyncs (stats self)))
        | RollbackFailed message' was_cut =>
            let disk := if was_cut : bool then cut else disk f in
            let message := (message ++ "; failed to roll back WAL to offset "
                            ++ pretty (Z.to_N batch_start) ++ ": " ++ message')%string in
            (Err (mk_BatchWriteFailure message true),
             build false (mk_LogFile disk [] None (Z.min (synced f) (zlen disk)) (lost f)) (stats self))
        end
    end.

(** The head of the flush loop: the queue is taken, or the task ends. *)
Definition flush_begin (self : Wal) : Wal :=
  let s := state self in
  match queue s with
  | [] =>
      with_state self (mk_WalState (size s) (next_offset s) [] false (failed s) (sealed s) (closed s)
                         (is_open s))
  | batch =>
      mk_Wal (mk_WalState (size s) (next_offset s) [] (flushing s) (failed s) (sealed s) (closed s)
                (is_open s))
        (file self) (log self) (stats self) (Some (batch, size s)) (channels self)
        (completions self) (committed self)
  end.

Definition complete (r : result WalError ()) (batch : list PendingWrite) : list (nat * result WalError ()) :=
  map (fun pending => (completion pending, r)) batch.

(** The rest of an iteration, once the outcome of the writes is known. *)
Definition flush_end (policy : FsyncPolicy) (outcome : WriteOutcome) (self : Wal) : Wal :=
  match in_flight self with
  | None => self
  | Some (batch, batch_start) =>
      let combined := concat (map pw_bytes batch) in
      let byte_count := zlen combined in
      let '(r, self) := write_batch policy outcome combined batch_start self in
      let s := state self in
      match r with
      | Ok _ =>
          mk_Wal (mk_WalState (saturating_add batch_start byte_count) (next_offset s) (queue s)
                    (flushing s) (failed s) (sealed s) (closed s) (is_open s))
            (file self) (log self)
            ((fun stats => mk_WalStats (bytes_written stats + byte_count) (fsyncs stats)) <$> stats self)
            None (channels self) (completions self ++ complete (Ok ()) batch) (committed self ++ batch)
      | Err failure =>
          let '(failed, flushing) :=
            if rollback_failed failure then (Some (message failure), false)
            else (failed s, flushing s) in
          mk_Wal (mk_WalState batch_start batch_start [] flushing failed (sealed s) (closed s)
                    (is_open s))
            (file self) (log self) (stats self) None (channels self)
            (completions self ++ complete (Err (Io (message failure))) (batch ++ queue s))
            (committed self)
      end
  end.

(** The whole flush task when nothing else runs, over the outcomes of its writes. *)
Fixpoint flush_loop (policy : FsyncPolicy) (outcomes : list WriteOutcome) (self : Wal) : Wal :=
  if flushing (state self) then
    let self := flush_begin self in
    match in_flight self, outcomes with
    | Some _, outcome :: outcomes => flush_loop policy outcomes (flush_end policy outcome self)
    | _, _ => self
    end
  else self.

(** [flush] returns when this holds, with the failure if there is one. *)
Definition flush_status (self : Wal) : option (result WalError ()) :=
  let s := state self in
  match queue s with
  | [] =>
      if flushing s then None
      else Some (match failed s with None => Ok () | Some message => Err (Io message) end)
  | _ => None
  end.

(** ** Closing *)

(** [close] up to its wait for the flush, and after it. *)
Definition close_begin (self : Wal) : Wal :=
  let s := state self in
  if closed s then self
  else with_state self (mk_WalState (size s) (next_offset s) (queue s) (flushing s) (failed s)
                          (sealed s) true (is_open s)).

Definition close_end (outcome : SettleOutcome) (failure : option string) (self : Wal) : result WalError () * Wal :=
  match flush_status self with
  | None => (Err NotOpen, self)
  | Some flush_result =>
      let '(sync_result, self) := sync outcome failure self in
      let s := state self in
      let f := log self in
      (match flush_result with Ok _ => sync_result | Err e => Err e end,
       mk_Wal (mk_WalState (size s) (next_offset s) (queue s) (flushing s) (failed s) (sealed s)
                 (closed s) false)
         false (mk_LogFile (disk f) (queued f) None (synced f) (lost f)) (stats self) (in_flight self) (channels self)
         (completions self) (committed self))
  end.

(** ** The steps *)

Section steps.
Context (policy : FsyncPolicy).

(** A log and its users.  The flush task takes a batch only when it holds none; a write
    that is queued ends at any time; the size is refreshed only while nothing is pending,
    as opening a database does; a close waits for the flush. *)
Inductive step : Wal -> Wal -> Prop :=
| step_open self : step self (open self)
| step_append self frame :
    next_offset (state self) + zlen frame <= U64_MAX -> step self (append_loc frame self).2
| step_flush_begin self :
    flushing (state self) = true -> in_flight self = None -> step self (flush_begin self)
| step_flush_end self outcome batch :
    in_flight self = Some batch -> step self (flush_end policy outcome self)
| step_settle self outcome : step self (with_log self (settle outcome (log self)) (stats self))
| step_sync self outcome failure : step self (sync outcome failure self).2
| step_refresh self :
    queue (state self) = [] -> in_flight self = None -> queued (log self) = [] -> step self (refresh_size self).2
| step_seal self : step self (seal self)
| step_close_begin self : step self (close_begin self)
| step_close_end self outcome failure :
    closed (state self) = true -> is_open (state self) = true -> flush_status self <> None ->
    step self (close_end outcome failure self).2.

Definition reachable (stats : option WalStats) (initial : bytes) : Wal -> Prop :=
  rtc step (new stats initial).
End steps.
End Wal.
