(* ===== verification/WalFacts.v ===== *)
(** * What the write-ahead log promises

    The invariant of every reachable state of [Wal.Wal], by induction on the
    steps: pending writes lie one after another from the length of the log,
    committed ones lie in it at the offsets they were given unless a queued write was
    lost, and every channel is pending or answered, once.  From it: an acknowledged
    append is in the log, at its offset, for ever; the log is the appends acknowledged,
    in order; the flush task answers everything; a write that was lost fails the next
    one. *)

From stdpp Require Import sorting.
From S2P Require Import Prelude.
From S2P Require Import Wal.
Import Wal.

Module WalFacts.

(** ** The invariant *)

Definition pending (self : Wal) : list PendingWrite :=
  from_option fst [] (in_flight self) ++ queue (state self).

(** The writes follow one another from an offset on. *)
Fixpoint laid_out (from : Z) (l : list PendingWrite) : Prop :=
  match l with
  | [] => True
  | p :: l => pw_offset p = from /\ laid_out (from + zlen (pw_bytes p)) l
  end.

Definition payload (l : list PendingWrite) : bytes := concat (map pw_bytes l).

Definition pw_end (p : PendingWrite) : Z := pw_offset p + zlen (pw_bytes p).

(** The write is in the file where it was promised, below [limit]. *)
Definition stored (disk : bytes) (limit : Z) (p : PendingWrite) : Prop :=
  0 <= pw_offset p /\ pw_end p <= limit /\ slice disk (pw_offset p) (pw_end p) = pw_bytes p.

(** The channels on which success was reported. *)
Definition acknowledged (self : Wal) (id : nat) : Prop := (id, Ok ()) ∈ completions self.

Record inv (policy : FsyncPolicy) (self : Wal) : Prop := {
  inv_file : file self = is_open (state self) && bool_decide (failed (state self) = None);
  inv_idle : flushing (state self) = false -> pending self = [];
  inv_shut : file self = false -> pending self = [] /\ queued (log self) = [];
  inv_flight batch start : in_flight self = Some (batch, start) ->
    start = size (state self) /\ flushing (state self) = true /\ batch <> [];
  inv_size : 0 <= size (state self);
  inv_bound : file self = true -> zlen (contents (log self)) <= size (state self);
  inv_full : lost (log self) = false -> size (state self) <= zlen (contents (log self));
  inv_error : lost (log self) = false -> write_error (log self) = None;
  inv_pending : laid_out (size (state self)) (pending self);
  inv_next : next_offset (state self) = size (state self) + zlen (payload (pending self));
  inv_max : next_offset (state self) <= U64_MAX;
  inv_disk_max : zlen (contents (log self)) <= U64_MAX;
  inv_committed : lost (log self) = false -> Forall (stored (contents (log self)) (size (state self))) (committed self);
  inv_synced : 0 <= synced (log self) <= zlen (disk (log self));
  inv_always : policy = Always -> queued (log self) = [] /\
    (lost (log self) = false -> Forall (fun p => pw_end p <= synced (log self)) (committed self));
  inv_channels : map fst (completions self) ++ map completion (pending self) ≡ₚ seq 0 (channels self);
  inv_acknowledged id : acknowledged self id <-> id ∈ map completion (committed self);
}.

(** ** Lists of writes *)

Lemma laid_out_app from l1 l2 :
  laid_out from (l1 ++ l2) <-> laid_out from l1 /\ laid_out (from + zlen (payload l1)) l2.
Proof.
  revert from. induction l1 as [|p l1 IH]; intros from; simpl.
  - unfold payload. simpl. rewrite zlen_nil, Z.add_0_r. tauto.
  - rewrite IH. unfold payload. simpl. rewrite zlen_app, Z.add_assoc. tauto.
Qed.

Lemma payload_app l1 l2 : payload (l1 ++ l2) = payload l1 ++ payload l2.
Proof. unfold payload. by rewrite map_app, concat_app. Qed.

(** A batch written where it was laid out is stored. *)
Lemma laid_out_stored disk l :
  laid_out (zlen disk) l ->
  Forall (stored (disk ++ payload l) (zlen disk + zlen (payload l))) l.
Proof.
  revert disk. induction l as [|p l IH]; intros disk Hl; [constructor|].
  destruct Hl as [Hp Hl]. unfold payload. simpl. apply Forall_cons. split.
  - unfold stored, pw_end. rewrite Hp. split; [zlia|]. split; [zlia|]. by apply slice_mid.
  - rewrite <- zlen_app in Hl. specialize (IH _ Hl). unfold payload in IH. rewrite <- app_assoc in IH.
    eapply Forall_impl; [exact IH|]. intros q (H0 & H1 & H2). split; [done|]. split; [zlia|done].
Qed.

Lemma stored_app disk more limit p :
  limit <= zlen disk -> stored disk limit p -> stored (disk ++ more) limit p.
Proof.
  intros Hle (H0 & H1 & H2). split; [done|]. split; [done|].
  rewrite slice_app_l; [done | unfold pw_end in *; zlia | lia].
Qed.

Lemma stored_weaken disk limit limit' p : limit <= limit' -> stored disk limit p -> stored disk limit' p.
Proof. intros Hle (H0 & H1 & H2). split; [done|]. split; [lia|done]. Qed.

Lemma complete_ids r l : map fst (complete r l) = map completion l.
Proof. unfold complete. rewrite map_map. done. Qed.

Lemma complete_ok l id : (id, Ok ()) ∈ complete (Ok ()) l <-> id ∈ map completion l.
Proof.
  unfold complete. rewrite !list_elem_of_fmap.
  split; [intros (p & [= ->] & Hp) | intros (p & -> & Hp)]; by exists p.
Qed.

Lemma complete_err e l id : (id, Ok ()) ∉ complete (Err e) l.
Proof. unfold complete. rewrite list_elem_of_fmap. intros (p & [=] & _). Qed.

Lemma acknowledged_failed (self : Wal) e l id :
  (id, Ok ()) ∈ completions self ++ complete (Err e) l <-> acknowledged self id.
Proof.
  rewrite elem_of_app. split; [intros [H|H]|by left]; [done|]. by apply complete_err in H.
Qed.

(** ** The file *)

(** What a write that was queued comes to: it is in the file, or lost. *)
Record settled (f f' : LogFile) : Prop := {
  st_queued : queued f' = [];
  st_synced : synced f' = synced f;
  st_grows : exists more, disk f' = disk f ++ more;
  st_bound : zlen (disk f') <= zlen (contents f);
  st_lost : lost f' = false -> lost f = false /\ disk f' = contents f /\ write_error f' = write_error f;
}.

Lemma zlen_take_le n (l : bytes) : zlen (take n l) <= zlen l.
Proof. unfold zlen. rewrite length_take. lia. Qed.

Lemma settle_ok outcome f : settled f (settle outcome f).
Proof.
  unfold settle, contents. destruct (queued f) as [|b q] eqn:Hq.
  - split; unfold contents; rewrite ?Hq, ?app_nil_r; [done|done|by exists []; rewrite app_nil_r|lia|by intros Hl].
  - destruct outcome as [|message reached].
    + split; cbn [disk queued write_error synced lost]; [done|done|by eexists|unfold contents; rewrite Hq; lia|].
      unfold contents. rewrite Hq. by intros Hl.
    + split; cbn [disk queued write_error synced lost]; [done|done|by eexists| |done].
      unfold contents. rewrite Hq, !zlen_app. pose proof (zlen_take_le reached (b :: q)). lia.
Qed.

Lemma zlen_set_len len disk : 0 <= len -> zlen (set_len len disk) = len.
Proof. intros Hl. unfold zlen, set_len. rewrite length_app, length_take, length_replicate. lia. Qed.

(** Cutting a file back to what it was. *)
Lemma set_len_back (disk more : bytes) : set_len (zlen disk) (disk ++ more) = disk.
Proof.
  unfold set_len. rewrite length_app. unfold zlen. rewrite Nat2Z.id, take_app_length.
  replace (length disk - (length disk + length more))%nat with 0%nat by lia. by rewrite app_nil_r.
Qed.

(** What the writes of a batch come to: the handle holds it after what was there, or they
    failed and left some of it in the file. *)
Definition tried (policy : FsyncPolicy) (combined : bytes) (f : LogFile) (r : result string ()) (f' : LogFile) : Prop :=
  0 <= synced f' <= zlen (disk f') /\ zlen (contents f') <= zlen (contents f) + zlen combined /\
  (lost f' = false -> lost f = false /\ write_error f' = None) /\
  match r with
  | Ok _ => (lost f' = false -> contents f' = contents f ++ combined /\ (policy = Always -> synced f' = zlen (contents f'))) /\
      (policy = Always -> queued f' = [])
  | Err _ => queued f' = [] /\ (lost f' = false -> exists more, disk f' = contents f ++ more) /\ synced f' = synced f
  end.

Lemma try_write_ok policy outcome combined f :
  0 <= synced f <= zlen (disk f) -> (lost f = false -> write_error f = None) ->
  tried policy combined f (try_write policy outcome combined f).1 (try_write policy outcome combined f).2.
Proof.
  intros Hs He. unfold try_write. pose proof (settle_ok (earlier outcome) f) as [Hq Hsy (more & Hd) Hb Hl].
  set (g := settle _ f) in *. clearbody g. pose proof (zlen_nonneg combined).
  assert (zlen (disk g) = zlen (disk f) + zlen more) as Hz by (rewrite Hd; apply zlen_app). pose proof (zlen_nonneg more).
  destruct (write_error g) as [message|] eqn:Hg.
  { cbn [fst snd]. unfold tried, contents. cbn [disk queued write_error synced lost]. rewrite app_nil_r. split; [lia|]. split; [unfold contents in Hb; lia|].
    assert (lost g = true) as Hlg. { destruct (lost g); [done|]. destruct Hl as (Hl & _ & E); [done|]. rewrite He in E by done. congruence. }
    rewrite Hlg. by split_and!. }
  destruct (writes outcome) as [reached rest|message reached]; cbn [fst snd].
  2:{ unfold tried, contents. cbn [disk queued write_error synced lost]. rewrite app_nil_r, zlen_app. pose proof (zlen_take_le reached combined).
      pose proof (zlen_nonneg (take reached combined)). unfold contents in Hb. split; [lia|]. split; [lia|]. split; [by intros (Hl' & _)%Hl|].
      split; [done|]. split; [|done]. intros (_ & E & _)%Hl. rewrite E. by eexists. }
  set (h := mk_LogFile _ _ _ _ _).
  assert (contents h = disk g ++ combined) as Hch by (unfold contents, h; cbn [disk queued]; by rewrite <- app_assoc, take_drop).
  assert (zlen (contents h) <= zlen (contents f) + zlen combined) as Hbh by (rewrite Hch, zlen_app; lia).
  assert (forall l, lost g = false -> l = disk g ++ combined -> l = contents f ++ combined) as Hc by (intros l (_ & E & _)%Hl ->; by rewrite E).
  destruct policy.
  - pose proof (settle_ok rest h) as [Hq' Hsy' (more' & Hd') Hb' Hl']. set (k := settle rest h) in *. clearbody k.
    assert (contents (mark_synced k) = disk k) as Hck by (unfold contents; cbn [mark_synced disk queued]; by rewrite Hq', app_nil_r).
    unfold tried. rewrite Hck. cbn [mark_synced disk queued write_error synced lost]. split; [pose proof (zlen_nonneg (disk k)); lia|]. split; [lia|].
    split. { intros (Hlh & _ & Hw)%Hl'. split; [by apply Hl|by rewrite Hw]. }
    split; [|done]. intros (Hlh & Hk & _)%Hl'. split; [|done]. apply Hc; [done|]. by rewrite Hk.
  - unfold tried. split; [unfold h; cbn [disk synced]; rewrite zlen_app; zlen_pos; lia|]. split; [done|]. split; [by intros (Hl' & _)%Hl|].
    split; [|done]. intros Hlh. split; [by apply Hc|done].
  - unfold tried. split; [unfold h; cbn [disk synced]; rewrite zlen_app; zlen_pos; lia|]. split; [done|]. split; [by intros (Hl' & _)%Hl|].
    split; [|done]. intros Hlh. split; [by apply Hc|done].
Qed.

(** ** Every step keeps it *)

Section steps.
Context (policy : FsyncPolicy).

Lemma new_inv stats initial : zlen initial <= U64_MAX -> inv policy (new stats initial).
Proof.
  intros Hmax. pose proof (zlen_nonneg initial).
  split; simpl; unfold contents; simpl; rewrite ?app_nil_r; try done; try (unfold U64_MAX; lia).
  intros id. unfold acknowledged. simpl. by rewrite !elem_of_nil.
Qed.

Lemma open_inv self : inv policy self -> inv policy (open self).
Proof.
  intros I. unfold open. destruct (is_open (state self)) eqn:Ho; [done|].
  destruct I as [Hfile Hidle Hshut Hflight Hsize Hbd Hfull Herr Hpend Hnext Hmax Hdmax Hcom Hsy Hal Hch Hack].
  rewrite Ho in Hfile. specialize (Hshut Hfile) as [Hp Hq]. unfold contents in *. rewrite Hq, app_nil_r in *.
  pose proof (zlen_nonneg (disk (log self))).
  split; simpl; unfold pending, contents in *; simpl; rewrite ?Hq, ?app_nil_r; try done.
  - intros b st Hb. rewrite Hb in Hp. simpl in Hp.
    destruct (Hflight _ _ Hb) as (_ & _ & Hne). by apply app_eq_nil in Hp as [-> _].
  - by rewrite Hp.
  - rewrite Hp. unfold payload. simpl. zlia.
  - intros Hl. eapply Forall_impl; [by apply Hcom|]. intros p. apply stored_weaken. by apply Hfull.
Qed.

Lemma append_inv self frame :
  next_offset (state self) + zlen frame <= U64_MAX ->
  inv policy self -> inv policy (append_loc frame self).2.
Proof.
  intros Hfits I. unfold append_loc.
  destruct (closed _); [done|]. destruct (sealed _); [done|].
  destruct (is_open _) eqn:Ho; [|done]. destruct (failed _) eqn:Hf; [done|]. simpl.
  destruct I as [Hfile Hidle Hshut Hflight Hsize Hbd Hfull Herr Hpend Hnext Hmax Hdmax Hcom Hsy Hal Hch Hack].
  rewrite Ho, Hf in Hfile. simpl in Hfile.
  split; simpl; unfold pending in *; simpl; rewrite ?app_assoc in *; try done.
  - congruence.
  - intros b st Hb. destruct (Hflight _ _ Hb) as (? & ? & ?). done.
  - apply laid_out_app. split; [done|]. simpl. lia.
  - rewrite payload_app. unfold payload at 2, saturating_add. simpl. rewrite app_nil_r. zlia.
  - unfold saturating_add. lia.
  - rewrite map_app, app_assoc, Hch. change (seq 0 (channels self) ++ [(0 + channels self)%nat] ≡ₚ seq 0 (S (channels self))). by rewrite seq_S.
Qed.

Lemma refresh_inv self :
  queue (state self) = [] -> in_flight self = None -> queued (log self) = [] ->
  inv policy self -> inv policy (refresh_size self).2.
Proof.
  intros Hq Hi Hqd I. unfold refresh_size. destruct (file self) eqn:Hfi; [|done]. simpl.
  destruct I as [Hfile Hidle Hshut Hflight Hsize Hbd Hfull Herr Hpend Hnext Hmax Hdmax Hcom Hsy Hal Hch Hack].
  unfold contents, pending in *. rewrite Hqd, Hq, Hi, app_nil_r in *. pose proof (zlen_nonneg (disk (log self))).
  split; simpl; unfold pending, contents; simpl; rewrite ?Hqd, ?Hq, ?Hi, ?app_nil_r; simpl; try done; try congruence.
  - unfold payload. simpl. zlia.
  - intros Hl. eapply Forall_impl; [by apply Hcom|]. intros p. apply stored_weaken. by apply Hfull.
Qed.

(** A queued write that ends, and a synchronization. *)
Lemma settled_inv self f : settled (log self) f -> inv policy self -> inv policy (with_log self f (stats self)).
Proof.
  intros [Hq Hs (more & Hd) Hb Hl] I.
  destruct I as [Hfile Hidle Hshut Hflight Hsize Hbd Hfull Herr Hpend Hnext Hmax Hdmax Hcom Hsy Hal Hch Hack].
  assert (contents f = disk f) as Hcf by (unfold contents; by rewrite Hq, app_nil_r).
  split; cbn [with_log state file log in_flight channels completions committed]; unfold pending in *; cbn [with_log state in_flight]; rewrite ?Hcf; try done.
  - intros Hf. by destruct (Hshut Hf).
  - intros Hf. specialize (Hbd Hf). lia.
  - intros (Hlf & -> & _)%Hl. by apply Hfull.
  - intros (Hlf & _ & ->)%Hl. by apply Herr.
  - lia.
  - intros (Hlf & -> & _)%Hl. by apply Hcom.
  - rewrite Hs, Hd, zlen_app. zlen_pos. lia.
  - intros HA. split; [done|]. intros (Hlf & _ & _)%Hl. rewrite Hs. by apply Hal.
Qed.

Lemma mark_synced_inv self stats' : queued (log self) = [] -> inv policy self -> inv policy (with_log self (mark_synced (log self)) stats').
Proof.
  intros Hq I. destruct I as [Hfile Hidle Hshut Hflight Hsize Hbd Hfull Herr Hpend Hnext Hmax Hdmax Hcom Hsy Hal Hch Hack].
  assert (contents (mark_synced (log self)) = contents (log self)) as Hc by done.
  split; cbn [with_log state file log in_flight channels completions committed]; unfold pending in *; cbn [with_log state in_flight]; rewrite ?Hc; try done.
  - cbn. zlen_pos. lia.
  - intros HA. split; [done|]. intros Hl. cbn [mark_synced synced lost] in *. unfold contents in *. rewrite Hq, app_nil_r in *.
    eapply Forall_impl; [by apply Hcom|]. intros p (?&?&?). specialize (Hfull Hl). destruct (file self) eqn:Hf; [specialize (Hbd eq_refl); lia|].
    destruct (Hal HA) as [_ Ha]. specialize (Ha Hl). rewrite Forall_forall in Ha. clear Hcom.
    assert (pw_end p <= size (state self)) by done. lia.
Qed.

Lemma sync_inv outcome failure self : inv policy self -> inv policy (sync outcome failure self).2.
Proof.
  intros I. unfold sync. destruct (file self) eqn:Hfi; [|done]. pose proof (settled_inv self _ (settle_ok outcome (log self)) I) as I'.
  destruct failure as [message|]; [done|]. cbn [snd].
  apply (mark_synced_inv (with_log self (settle outcome (log self)) (stats self)) (increment_fsyncs (stats self))); [|exact I'].
  apply (st_queued _ _ (settle_ok outcome (log self))).
Qed.

Lemma seal_inv self : inv policy self -> inv policy (seal self).
Proof. intros []. split; done. Qed.

Lemma close_begin_inv self : inv policy self -> inv policy (close_begin self).
Proof. intros I. unfold close_begin. destruct (closed _); [done|]. destruct I. split; done. Qed.

Lemma flush_status_pending self r : inv policy self -> flush_status self = Some r -> pending self = [].
Proof.
  intros I. unfold flush_status. destruct (queue _) eqn:Hq; [|done].
  destruct (flushing _) eqn:Hf; [done|]. intros _. by apply (inv_idle _ _ I).
Qed.

Lemma sync_same outcome failure self :
  let self' := (sync outcome failure self).2 in
  state self' = state self /\ pending self' = pending self /\ channels self' = channels self /\ in_flight self' = in_flight self /\
  completions self' = completions self /\ committed self' = committed self /\
  (lost (log self') = false -> lost (log self) = false /\ contents (log self') = contents (log self)) /\
  option_map bytes_written (stats self') = option_map bytes_written (stats self) /\
  (file self = true -> queued (log self') = []).
Proof.
  unfold sync. destruct (file self) eqn:Hf; [|by split_and!]. pose proof (settle_ok outcome (log self)) as [Hq _ _ _ Hl].
  set (g := settle outcome (log self)) in *. clearbody g.
  assert (forall h, lost h = lost g -> contents h = disk g -> lost h = false -> lost (log self) = false /\ contents h = contents (log self)) as Hh.
  { intros h -> -> (? & ? & _)%Hl. done. }
  assert (contents g = disk g) as Hcg by (unfold contents; by rewrite Hq, app_nil_r).
  destruct failure as [message|]; cbn [snd with_log state file log stats in_flight channels completions committed]; split_and!; try done; try by apply Hh.
  by destruct (stats self).
Qed.

Lemma close_end_inv outcome failure self : inv policy self -> inv policy (close_end outcome failure self).2.
Proof.
  intros I. unfold close_end. destruct (flush_status self) as [r|] eqn:Hs; [|done].
  pose proof (flush_status_pending _ _ I Hs) as Hp. pose proof (sync_inv outcome failure _ I) as I'.
  pose proof (sync_same outcome failure self) as (_ & Hp' & _ & _ & _ & _ & _ & _ & Hq).
  assert (file self = false -> (sync outcome failure self).2 = self) as Hself by (unfold sync; by intros ->).
  destruct (sync outcome failure self) as [r' self'] eqn:Hsync. cbn [snd] in *. rewrite Hp in Hp'.
  assert (queued (log self') = []) as Hq'.
  { destruct (file self) eqn:Hf; [by apply Hq|]. rewrite Hself by done. by apply (inv_shut _ _ I). }
  destruct I' as [Hfile Hidle Hshut Hflight Hsize Hbd Hfull Herr Hpend Hnext Hmax Hdmax Hcom Hsy Hal Hch Hack].
  split; simpl; unfold contents in *; simpl; try done.
Qed.

Lemma flush_begin_inv self :
  flushing (state self) = true -> in_flight self = None ->
  inv policy self -> inv policy (flush_begin self).
Proof.
  intros Hf Hi I. unfold flush_begin.
  destruct I as [Hfile Hidle Hshut Hflight Hsize Hbd Hfull Herr Hpend Hnext Hmax Hdmax Hcom Hsy Hal Hch Hack].
  unfold pending in *. rewrite Hi in *. simpl in *.
  destruct (queue (state self)) as [|p q] eqn:Hq; split;
    simpl; unfold pending; simpl; rewrite ?Hi, ?app_nil_r; simpl; try done; try congruence.
  - by rewrite app_nil_r in Hch.
  - by intros b st [= <- <-].
Qed.

(** A batch is only taken while the handle is open. *)
Lemma flight_open self batch start : inv policy self -> in_flight self = Some (batch, start) ->
  file self = true /\ start = size (state self).
Proof.
  intros I Hi. destruct (inv_flight _ _ I _ _ Hi) as (-> & _ & Hne). split; [|done].
  destruct (file self) eqn:Hf; [done|]. destruct (inv_shut _ _ I Hf) as [Hp _]. unfold pending in Hp. rewrite Hi in Hp.
  simpl in Hp. by apply app_eq_nil in Hp as [-> _].
Qed.

(** What a batch written does: the only section that touches the file. *)
Lemma flush_end_inv outcome self batch :
  in_flight self = Some batch -> inv policy self -> inv policy (flush_end policy outcome self).
Proof.
  intros Hi I. unfold flush_end. rewrite Hi. destruct batch as [batch start]. destruct (flight_open _ _ _ I Hi) as [Hopen ->].
  destruct I as [Hfile Hidle Hshut Hflight Hsize Hbd Hfull Herr Hpend Hnext Hmax Hdmax Hcom Hsy Hal Hch Hack].
  destruct (Hflight _ _ Hi) as (_ & Hfl & Hne).
  unfold pending in *. rewrite Hi in *. simpl in *. apply laid_out_app in Hpend as [Hb Hq].
  specialize (Hbd Hopen). rewrite payload_app, zlen_app in Hnext. fold (payload batch).
  pose proof (zlen_nonneg (payload batch)). pose proof (zlen_nonneg (payload (queue (state self)))).
  unfold write_batch. rewrite Hopen. cbn [negb]. rewrite Hopen in Hfile. symmetry in Hfile.
  apply andb_true_iff in Hfile as [Ho Hnf].
  pose proof (try_write_ok policy outcome (payload batch) (log self) Hsy Herr) as Ht.
  destruct (try_write policy outcome (payload batch) (log self)) as [r f]. cbn [fst snd] in Ht. destruct Ht as (Hs & Hz & Hl & Ht).
  destruct r as [u|why].
  - destruct Ht as [Hc Hqd]. cbn [state file log stats in_flight channels completions committed].
    assert (saturating_add (size (state self)) (zlen (payload batch)) = size (state self) + zlen (payload batch)) as -> by (unfold saturating_add; lia).
    assert (lost f = false -> Forall (stored (contents f) (size (state self) + zlen (payload batch))) (committed self ++ batch)) as Hcom'.
    { intros Hlf. destruct (Hl Hlf) as [Hl0 _]. specialize (Hfull Hl0). assert (size (state self) = zlen (contents (log self))) as Hsz by lia.
      destruct (Hc Hlf) as [-> _]. rewrite Hsz in *. apply Forall_app. split; [|by apply laid_out_stored].
      eapply Forall_impl; [by apply Hcom|]. intros p Hp. eapply stored_weaken; [|apply stored_app, Hp]; lia. }
    split; simpl; unfold pending; simpl; try done; try zlia.
    + by rewrite Ho.
    + congruence.
    + intros Hlf. destruct (Hl Hlf) as [Hl0 _]. specialize (Hfull Hl0). destruct (Hc Hlf) as [-> _]. zlia.
    + intros Hlf. by apply Hl.
    + intros HA. split; [by apply Hqd|]. intros Hlf. destruct (Hc Hlf) as [_ Hsy']. rewrite (Hsy' HA).
      destruct (Hl Hlf) as [Hl0 _]. specialize (Hfull Hl0). destruct (Hc Hlf) as [Hcf _].
      eapply Forall_impl; [by apply Hcom'|]. intros p (?&?&?). rewrite Hcf. zlia.
    + rewrite map_app, complete_ids, <- app_assoc, <- map_app. done.
    + intros id. unfold acknowledged. simpl. rewrite elem_of_app, complete_ok, map_app, elem_of_app.
      by rewrite <- Hack.
  - destruct Ht as (Hqd & Hc & Hsyn). assert (contents f = disk f) as Hcf by (unfold contents; by rewrite Hqd, app_nil_r). rewrite Hcf in Hz.
    assert (lost f = false -> set_len (size (state self)) (disk f) = contents (log self)) as Hcut.
    { intros Hlf. destruct (Hl Hlf) as [Hl0 _]. specialize (Hfull Hl0). destruct (Hc Hlf) as [more ->].
      replace (size (state self)) with (zlen (contents (log self))) by lia. apply set_len_back. }
    pose proof (zlen_set_len (size (state self)) (disk f) Hsize) as Hzc.
    destruct (rollback outcome) as [|message' was_cut]; cbn [state file log stats in_flight channels completions committed message rollback_failed].
    + set (cut := set_len _ _) in *. clearbody cut.
      split; simpl; unfold pending, contents; simpl; rewrite ?app_nil_r; try done; try zlia.
      * by rewrite Ho.
      * intros Hlf. rewrite (Hcut Hlf). apply Hcom. by apply Hl.
      * intros HA. split; [done|]. intros Hlf. destruct (Hl Hlf) as [Hl0 _]. eapply Forall_impl; [by apply Hcom|]. intros p (?&?&?). lia.
      * by rewrite map_app, complete_ids, map_app, <- map_app, Hch.
      * intros id. rewrite <- Hack. apply acknowledged_failed.
    + set (d := if was_cut then _ else _).
      assert (zlen d <= U64_MAX) as Hdm by (subst d; destruct was_cut; zlia).
      assert (lost f = false -> exists more, d = contents (log self) ++ more) as Hd.
      { intros Hlf. subst d. destruct was_cut; [rewrite (Hcut Hlf); exists []; by rewrite app_nil_r|by apply Hc]. }
      clearbody d.
      assert (0 <= zlen d) by apply zlen_nonneg.
      split; simpl; unfold pending, contents; simpl; rewrite ?app_nil_r; try done; try zlia.
      * intros Hlf. destruct (Hl Hlf) as [Hl0 _]. specialize (Hfull Hl0). destruct (Hd Hlf) as [more ->]. zlia.
      * intros Hlf. destruct (Hl Hlf) as [Hl0 _]. specialize (Hfull Hl0). destruct (Hd Hlf) as [more ->]. eapply Forall_impl; [by apply Hcom|].
        intros p. by apply stored_app.
      * intros HA. split; [done|]. intros Hlf. destruct (Hl Hlf) as [Hl0 _]. destruct (Hal HA) as [_ Ha]. specialize (Ha Hl0). specialize (Hcom Hl0). specialize (Hfull Hl0).
        destruct (Hd Hlf) as [more Hdd]. rewrite Forall_forall in Ha, Hcom |- *. intros p Hp.
        specialize (Ha _ Hp). destruct (Hcom _ Hp) as (?&?&?). rewrite Hsyn, Hdd, zlen_app. pose proof (zlen_nonneg more). cbv beta in Ha. lia.
      * by rewrite map_app, complete_ids, map_app, <- map_app, Hch.
      * intros id. rewrite <- Hack. apply acknowledged_failed.
Qed.

Lemma step_inv self self' : step policy self self' -> inv policy self -> inv policy self'.
Proof.
  destruct 1; eauto using open_inv, append_inv, flush_begin_inv, flush_end_inv, settled_inv, settle_ok, sync_inv, refresh_inv,
    seal_inv, close_begin_inv, close_end_inv.
Qed.

Lemma steps_inv self self' : rtc (step policy) self self' -> inv policy self -> inv policy self'.
Proof. induction 1; eauto using step_inv. Qed.

Lemma reachable_inv stats initial self :
  zlen initial <= U64_MAX -> reachable policy stats initial self -> inv policy self.
Proof. intros Hmax Hr. eapply steps_inv; [exact Hr|]. by apply new_inv. Qed.

(** ** What a batch comes to *)

(** All writes reach the file in the end. *)
Definition goes_well (outcome : WriteOutcome) : Prop := earlier outcome = Settled /\ exists reached, writes outcome = HandedOver reached Settled.

Lemma settle_settled f : contents (settle Settled f) = contents f /\ write_error (settle Settled f) = write_error f.
Proof.
  unfold settle, contents. destruct (queued f) eqn:Hq; cbn [disk queued write_error]; rewrite ?Hq, ?app_nil_r; done.
Qed.

Lemma try_write_well outcome combined f : goes_well outcome -> write_error f = None ->
  exists f', try_write policy outcome combined f = (Ok tt, f') /\ contents f' = contents f ++ combined.
Proof.
  intros [He (reached & Hw)] Hf. unfold try_write. rewrite He. destruct (settle_settled f) as [Hc E]. rewrite E, Hf, Hw.
  set (h := mk_LogFile _ _ _ _ _). eexists. split; [done|].
  assert (contents h = contents f ++ combined) as Hh.
  { rewrite <- Hc. unfold contents at 1. cbn [h disk queued]. rewrite <- app_assoc, take_drop. f_equal.
    unfold contents. by rewrite (st_queued _ _ (settle_ok Settled f)), app_nil_r. }
  destruct policy; [|done..]. unfold contents at 1. cbn [mark_synced disk queued]. by destruct (settle_settled h) as [<- _] in Hh |- *.
Qed.

Lemma try_write_error outcome combined f why : write_error f = Some why -> exists why', (try_write policy outcome combined f).1 = Err why'.
Proof.
  intros He. assert (exists why', write_error (settle (earlier outcome) f) = Some why') as [why' E].
  { unfold settle. destruct (queued f); [by exists why|]. destruct (earlier outcome); [by exists why|by eexists]. }
  unfold try_write. rewrite E. by exists why'.
Qed.

Lemma flush_end_cases outcome self batch start :
  inv policy self -> in_flight self = Some (batch, start) ->
  let self' := flush_end policy outcome self in
  channels self' = channels self /\ in_flight self' = None /\
  (lost (log self') = false -> lost (log self) = false) /\
  ((completions self' = completions self ++ complete (Ok ()) batch /\
    committed self' = committed self ++ batch /\ queue (state self') = queue (state self) /\
    failed (state self') = failed (state self) /\ flushing (state self') = flushing (state self) /\
    (lost (log self') = false \/ goes_well outcome -> contents (log self') = contents (log self) ++ payload batch) /\
    option_map bytes_written (stats self') =
      option_map (fun s => bytes_written s + zlen (payload batch)) (stats self)) \/
   ((exists e, completions self' = completions self ++ complete (Err e) (batch ++ queue (state self))) /\
    committed self' = committed self /\ queue (state self') = [] /\
    (failed (state self') = None -> lost (log self') = false -> contents (log self') = contents (log self)) /\
    option_map bytes_written (stats self') = option_map bytes_written (stats self) /\
    ~ (goes_well outcome /\ write_error (log self) = None))).
Proof.
  intros I Hi. unfold flush_end. rewrite Hi. destruct (flight_open _ _ _ I Hi) as [Hopen ->].
  pose proof (try_write_ok policy outcome (payload batch) (log self) (inv_synced _ _ I) (inv_error _ _ I)) as Ht.
  pose proof (try_write_well outcome (payload batch) (log self)) as Hwell.
  pose proof (fun e => try_write_error outcome (payload batch) (log self) e) as Herr.
  fold (payload batch). unfold write_batch. rewrite Hopen. cbn [negb].
  destruct (try_write policy outcome (payload batch) (log self)) as [r f]. cbn [fst snd] in Ht. destruct Ht as (_ & _ & Hl & Ht).
  destruct r as [u|why]; cbn [state file log stats in_flight channels completions committed].
  - split; [done|]. split; [done|]. split; [by intros Hlf; apply Hl|]. left. split_and!; try done.
    + intros [Hlf|Hg]; [by apply Ht|]. destruct (write_error (log self)) as [e|]; [by destruct (Herr e eq_refl) as [? [=]]|].
      by destruct (Hwell Hg eq_refl) as (f' & [= _ <-] & E).
    + by destruct policy, (stats self).
  - destruct Ht as (_ & Hc & _).
    assert (~ (goes_well outcome /\ write_error (log self) = None)) as Hno by (intros [Hg He]; by destruct (Hwell Hg He) as (f' & [=] & _)).
    destruct (rollback outcome) as [|message' was_cut]; cbn [state file log stats in_flight channels completions committed rollback_failed message];
      (split; [done|]); (split; [done|]); (split; [by intros Hlf; apply Hl|]); right; split_and!; try done; try by eexists.
    + intros _ Hlf. destruct (Hl Hlf) as [Hl0 _]. unfold contents at 1. cbn [log disk queued]. rewrite app_nil_r.
      destruct (Hc Hlf) as [more ->]. pose proof (inv_full _ _ I Hl0). pose proof (inv_bound _ _ I Hopen).
      replace (size (state self)) with (zlen (contents (log self))) by lia. apply set_len_back.
    + by destruct (stats self).
Qed.

(** The failure of a queued write is reported to the batch after it. *)
Theorem lost_writes_fail_the_next_batch outcome self batch start why :
  inv policy self -> in_flight self = Some (batch, start) -> write_error (log self) = Some why ->
  exists e, completions (flush_end policy outcome self) = completions self ++ complete (Err e) (batch ++ queue (state self)).
Proof.
  intros I Hi He. unfold flush_end. rewrite Hi. destruct (flight_open _ _ _ I Hi) as [Hopen _]. unfold write_batch. rewrite Hopen. cbn [negb].
  fold (payload batch). destruct (try_write_error outcome (payload batch) (log self) why He) as [why' E].
  destruct (try_write _ _ _ _) as [r f]. cbn [fst] in E. subst r. destruct (rollback outcome); by eexists.
Qed.

Lemma append_loc_cases frame self :
  (exists e, append_loc frame self = (Err e, self)) \/
  exists self', append_loc frame self = (Ok (mk_WalAppend (next_offset (state self)) (channels self)), self') /\
    pending self' = pending self ++ [mk_PendingWrite frame (channels self) (next_offset (state self))] /\
    committed self' = committed self /\ completions self' = completions self /\
    log self' = log self /\ stats self' = stats self /\ channels self' = S (channels self).
Proof.
  unfold append_loc. destruct (closed (state self)); [left; by eexists|].
  destruct (sealed (state self)); [left; by eexists|].
  destruct (is_open (state self)); [|left; by eexists].
  destruct (failed (state self)); [left; by eexists|]. right. eexists. split; [done|].
  unfold pending. simpl. by rewrite app_assoc.
Qed.

(** Where an append may be: waiting, in the log, or refused. *)
Definition fate (p : PendingWrite) (self : Wal) : Prop :=
  p ∈ pending self \/ p ∈ committed self \/ exists e, (completion p, Err e) ∈ completions self.

Lemma step_fate p self self' :
  step policy self self' -> inv policy self -> fate p self -> fate p self'.
Proof.
  intros Hstep I Hp. destruct Hstep as
    [self|self frame|self Hf Hi|self outcome [batch start] Hi|self outcome|self outcome failure|self|self|self|self outcome failure Hc Ho Hs].
  - unfold open. by destruct (is_open _).
  - destruct (append_loc_cases frame self) as [(e & ->)|(self' & -> & Hp' & Hc & Hco & _)]; [done|].
    unfold fate in *. simpl. rewrite Hp', Hc, Hco. set_solver.
  - unfold flush_begin. destruct (queue (state self)) eqn:Hq; unfold fate, pending in *; simpl;
      rewrite Hi, Hq in Hp; rewrite ?Hi; simpl in *; rewrite ?app_nil_r; done.
  - destruct (flush_end_cases outcome self batch start I Hi) as (_ & Hi' & _ & Hcases).
    unfold fate, pending in *. rewrite Hi'. rewrite Hi in Hp. simpl in *.
    destruct Hcases as [(-> & -> & -> & _)|((e & ->) & -> & -> & _)].
    + destruct Hp as [[Hp|Hp]%elem_of_app|[Hp|(e & Hp)]]; set_solver.
    + destruct Hp as [Hp|[Hp|(e' & Hp)]]; [|set_solver..]. right. right. exists e.
      apply elem_of_app. right. unfold complete. apply list_elem_of_fmap. by exists p.
  - done.
  - destruct (sync_same outcome failure self) as (_ & Hpe & _ & _ & Hco & Hcm & _). unfold fate in *. by rewrite Hpe, Hco, Hcm.
  - unfold refresh_size. by destruct (file self).
  - done.
  - unfold close_begin. by destruct (closed _).
  - unfold close_end. destruct (flush_status _); [|done]. destruct (sync_same outcome failure self) as (_ & Hpe & _ & _ & Hco & Hcm & _).
    destruct (sync outcome failure self) as [r' self']. cbn [snd] in *. unfold fate, pending in *. cbn [state queue in_flight completions committed].
    by rewrite Hpe, Hco, Hcm.
Qed.

Lemma steps_fate p self self' :
  rtc (step policy) self self' -> inv policy self -> fate p self -> fate p self'.
Proof. induction 1; eauto using step_fate, step_inv. Qed.

Lemma channels_NoDup self : inv policy self -> NoDup (map fst (completions self)).
Proof.
  intros I. pose proof (NoDup_seq 0 (channels self)) as Hnd. rewrite <- (inv_channels _ _ I) in Hnd.
  by apply NoDup_app in Hnd as (? & _).
Qed.

Lemma answer_unique self id r1 r2 :
  inv policy self -> (id, r1) ∈ completions self -> (id, r2) ∈ completions self -> r1 = r2.
Proof.
  intros I%channels_NoDup. revert I. generalize (completions self) as l.
  induction l as [|[id' r] l IH]; intros Hnd H1 H2; [by apply elem_of_nil in H1|].
  simpl in Hnd. apply NoDup_cons in Hnd as [Hni Hnd].
  assert (forall r', (id', r') ∉ l) as Hni'.
  { intros r' Hin. apply Hni. apply list_elem_of_fmap. by exists (id', r'). }
  apply elem_of_cons in H1 as [[= -> ->]|H1], H2 as [H2|H2]; try (by injection H2);
    [by apply Hni' in H2 | injection H2 as -> ->; by apply Hni' in H1 | by apply IH].
Qed.

Lemma pending_unanswered self p r :
  inv policy self -> p ∈ pending self -> (completion p, r) ∉ completions self.
Proof.
  intros I Hp Hr. pose proof (NoDup_seq 0 (channels self)) as Hnd.
  rewrite <- (inv_channels _ _ I) in Hnd. apply NoDup_app in Hnd as (_ & Hd & _).
  eapply Hd; apply list_elem_of_fmap; [by exists (completion p, r)|]. by exists p.
Qed.

(** While no rollback has failed and no queued write, the log is what it was and the
    appends acknowledged, in the order of the calls. *)
Record accounted (stats0 : option WalStats) (initial : bytes) (self : Wal) : Prop := {
  acc_disk : lost (log self) = false -> contents (log self) = initial ++ payload (committed self);
  acc_stats : option_map bytes_written (stats self) =
              option_map (fun s => bytes_written s + zlen (payload (committed self))) stats0;
  acc_order : StronglySorted lt (map completion (committed self ++ pending self));
}.

Lemma channels_below self id :
  inv policy self -> id ∈ map completion (committed self ++ pending self) -> (id < channels self)%nat.
Proof.
  intros I Hid. assert (id ∈ seq 0 (channels self)) as Hin%elem_of_seq; [|lia].
  rewrite <- (inv_channels _ _ I). rewrite map_app, !elem_of_app in *. destruct Hid as [Hid|Hid]; [left|by right].
  apply (inv_acknowledged _ _ I) in Hid. apply list_elem_of_fmap. by exists (id, Ok ()).
Qed.

Lemma acc_same stats0 initial self self' :
  accounted stats0 initial self ->
  (lost (log self') = false -> lost (log self) = false /\ contents (log self') = contents (log self)) ->
  option_map bytes_written (stats self') = option_map bytes_written (stats self) ->
  committed self' = committed self -> pending self' = pending self ->
  accounted stats0 initial self'.
Proof. intros [Hd Hs Ho] Hd' Hst Hc Hp. split; rewrite ?Hc, ?Hp, ?Hst; [|done..]. intros [? ->]%Hd'. by apply Hd. Qed.

Lemma step_accounted stats0 initial self self' :
  step policy self self' -> failed (state self') = None -> inv policy self ->
  accounted stats0 initial self -> accounted stats0 initial self'.
Proof.
  intros Hstep Hnf I A. destruct Hstep as
    [self|self frame|self Hf Hi|self outcome [batch start] Hi|self outcome|self outcome failure|self|self|self|self outcome failure Hc Ho Hs].
  - unfold open. destruct (is_open _); [done|]. by eapply acc_same.
  - destruct (append_loc_cases frame self) as [(e & ->)|(self' & -> & Hp & Hc & _ & Hd & Hs & _)]; [done|].
    simpl. destruct A as [Ad As Ao]. split; rewrite ?Hc, ?Hd, ?Hs, ?Hp; [done..|].
    rewrite app_assoc, map_app. apply StronglySorted_app_2; [|done|by repeat constructor].
    intros x y Hx Hy%list_elem_of_singleton. subst y. by apply channels_below.
  - eapply acc_same; [exact A|..]; unfold flush_begin, pending; destruct (queue (state self)) eqn:Hq; simpl;
      rewrite ?Hi, ?app_nil_r; done.
  - destruct (flush_end_cases outcome self batch start I Hi) as (_ & Hi' & Hl & Hcases).
    destruct A as [Ad As Ao]. unfold pending in Ao. rewrite Hi in Ao. simpl in Ao.
    destruct Hcases as [(_ & Hc & Hq & _ & _ & Hd & Hs)|(_ & Hc & Hq & Hd & Hs & _)];
      split; unfold pending; rewrite ?Hi', ?Hc, ?Hq, ?Hs; simpl.
    + intros Hlf. rewrite Hd, Ad by auto. by rewrite payload_app, app_assoc.
    + rewrite payload_app. destruct (stats self), stats0; simpl in *; try done. injection As as As. f_equal. zlia.
    + by rewrite <- app_assoc.
    + intros Hlf. rewrite Hd by done. auto.
    + done.
    + rewrite app_nil_r. rewrite map_app in Ao. by apply StronglySorted_app_1_l in Ao.
  - eapply acc_same; [exact A|..]; try done. cbn [with_log log]. pose proof (settle_ok outcome (log self)) as [Hq _ _ _ Hl].
    intros (? & E & _)%Hl. split; [done|]. unfold contents at 1. by rewrite Hq, app_nil_r.
  - destruct (sync_same outcome failure self) as (_ & Hp & _ & _ & _ & Hc & Hl & Hs & _). by eapply acc_same.
  - eapply acc_same; [exact A|..]; unfold refresh_size; by destruct (file self).
  - eapply acc_same; [exact A|..]; done.
  - eapply acc_same; [exact A|..]; unfold close_begin; by destruct (closed _).
  - unfold close_end. destruct (flush_status _); [|done]. destruct (sync_same outcome failure self) as (_ & Hp & _ & _ & _ & Hc' & Hl & Hst & _).
    destruct (sync outcome failure self) as [r' self']. cbn [snd] in *. by eapply acc_same.
Qed.

Lemma steps_accounted stats0 initial self self' :
  rtc (fun a b => step policy a b /\ failed (state b) = None) self self' -> inv policy self ->
  accounted stats0 initial self -> accounted stats0 initial self'.
Proof.
  induction 1 as [|a b c [Hab Hb] _ IH]; [done|]. intros I A.
  apply IH; [by eapply step_inv | by eapply step_accounted].
Qed.

End steps.

(** ** The promises *)

(** C29: An append that was acknowledged is in the log for ever: in every state
    reachable after [append_loc] returned an offset, whatever else was appended,
    failed, rolled back, sealed, closed or reopened, if success was sent on the
    channel of the append, and no write that was queued in the handle has failed, then
    the bytes of its frame are exactly at that offset of what the file holds once the
    queued bytes are written, below the size the log keeps; and under [Always] they are
    in the file and synced.  A queued write that fails may lose an acknowledged append
    ([acknowledged_append_is_lost]). *)
Theorem acknowledged_appends_are_stored policy stats initial self frame offset id self' :
  zlen initial <= U64_MAX ->
  reachable policy stats initial self ->
  next_offset (state self) + zlen frame <= U64_MAX ->
  (append_loc frame self).1 = Ok (mk_WalAppend offset id) ->
  rtc (step policy) (append_loc frame self).2 self' ->
  acknowledged self' id -> lost (log self') = false ->
  slice (disk (log self') ++ queued (log self')) offset (offset + zlen frame) = frame /\
  offset + zlen frame <= size (state self') <= zlen (disk (log self') ++ queued (log self')) /\
  (policy = Always -> slice (disk (log self')) offset (offset + zlen frame) = frame /\ offset + zlen frame <= synced (log self')).
Proof.
  intros Hmax Hr Hfits Happ Hsteps Hack Hlost. pose proof (reachable_inv _ _ _ _ Hmax Hr) as I.
  pose proof (append_inv _ _ _ Hfits I) as I1. pose proof (steps_inv _ _ _ Hsteps I1) as I'.
  set (p := mk_PendingWrite frame id offset).
  assert (fate p self') as Hfate.
  { eapply steps_fate; [exact Hsteps|done|]. left.
    destruct (append_loc_cases frame self) as [(e & Ha)|(self1 & Ha & Hp & _)]; rewrite Ha in *; [done|].
    injection Happ as <- <-. simpl. rewrite Hp. set_solver. }
  destruct Hfate as [Hp|[Hp|(e & He)]].
  - by destruct (pending_unanswered policy self' p (Ok ()) I' Hp).
  - pose proof (inv_committed _ _ I' Hlost) as Hc. pose proof (inv_full _ _ I' Hlost) as Hs. rewrite Forall_forall in Hc.
    destruct (Hc _ Hp) as (_ & Hle & Heq). split; [done|]. split; [split; done|]. intros HA. destruct (inv_always _ _ I' HA) as [Hq Ha].
    specialize (Ha Hlost). rewrite Forall_forall in Ha. unfold contents in Heq. rewrite Hq, app_nil_r in Heq. split; [done|by apply (Ha _ Hp)].
  - by pose proof (answer_unique _ _ _ _ _ I' Hack He).
Qed.

(** C30: The log is its acknowledged appends: as long as no rollback has failed, and
    unless a write that was queued in the handle has failed, what the file holds once
    the queued bytes are written is what it held at first and then the frames
    acknowledged, whole, in the order in which they were appended and with nothing
    between or after them (a batch that failed leaves no trace); under [Always] nothing
    is queued.  [bytes_written] counts the acknowledged frames. *)
Theorem log_is_the_acknowledged_appends policy stats0 initial self :
  zlen initial <= U64_MAX ->
  rtc (fun a b => step policy a b /\ failed (state b) = None) (new stats0 initial) self ->
  (lost (log self) = false -> disk (log self) ++ queued (log self) = initial ++ payload (committed self)) /\
  (policy = Always -> queued (log self) = []) /\
  StronglySorted lt (map completion (committed self)) /\
  (forall id, acknowledged self id <-> id ∈ map completion (committed self)) /\
  option_map bytes_written (stats self) =
    option_map (fun s => bytes_written s + zlen (payload (committed self))) stats0.
Proof.
  intros Hmax Hsteps. pose proof (new_inv policy stats0 initial Hmax) as I0.
  assert (accounted stats0 initial (new stats0 initial)) as A0.
  { split; simpl; [intros _; unfold contents; simpl; unfold payload; by rewrite !app_nil_r | | constructor]. unfold payload. simpl.
    destruct stats0; simpl; [|done]. f_equal. zlia. }
  destruct (steps_accounted _ _ _ _ _ Hsteps I0 A0) as [Ad As Ao].
  assert (inv policy self) as I.
  { eapply steps_inv; [|exact I0]. clear -Hsteps. induction Hsteps as [|a b c [] _ IH]; [done|]. by econstructor. }
  repeat split; [done|by intros HA; apply (inv_always _ _ I)| |apply (inv_acknowledged _ _ I)..|done].
  rewrite map_app in Ao. by apply StronglySorted_app_1_l in Ao.
Qed.

(** C31: Every append is answered, once: in every reachable state no channel has
    been sent two results; and the flush task, run to its end from any reachable
    state without a batch in flight, stops after one batch whatever becomes of
    its writes, answers every channel made, and lets [flush] return; when the writes go
    well the batch is in the file or queued after what was there, and [flush] reports
    success. *)
Theorem flush_answers_every_append policy stats initial self outcome :
  zlen initial <= U64_MAX ->
  reachable policy stats initial self ->
  in_flight self = None ->
  let self' := flush_loop policy [outcome] self in
  NoDup (map fst (completions self)) /\
  map fst (completions self') ≡ₚ seq 0 (channels self') /\
  channels self' = channels self /\
  exists r, flush_status self' = Some r /\
    (failed (state self) = None -> write_error (log self) = None -> goes_well outcome ->
     r = Ok () /\
     disk (log self') ++ queued (log self') = disk (log self) ++ queued (log self) ++ payload (queue (state self))).
Proof.
  intros Hmax Hr Hi. pose proof (reachable_inv _ _ _ _ Hmax Hr) as I. simpl.
  split; [by eapply channels_NoDup|].
  destruct (flushing (state self)) eqn:Hf.
  - pose proof (flush_begin_inv _ _ Hf Hi I) as Ib. unfold flush_begin in *.
    destruct (queue (state self)) as [|p q] eqn:Hq; simpl; rewrite ?Hi.
    + simpl. pose proof (inv_channels _ _ I) as Hch. unfold pending in Hch. rewrite Hi, Hq, app_nil_r in Hch.
      split; [done|]. split; [done|]. eexists. split; [done|]. intros -> _ _. unfold payload.
      simpl. by rewrite !app_nil_r.
    + set (b := mk_Wal _ _ _ _ _ _ _ _) in *.
      pose proof (flush_end_inv policy outcome b _ eq_refl Ib) as Ie.
      destruct (flush_end_cases policy outcome b _ _ Ib eq_refl) as (Hc & Hi' & _ & Hcases).
      set (e := flush_end policy outcome b) in *. clearbody e.
      assert (queue (state e) = []) as Hqe.
      { by destruct Hcases as [(_ & _ & -> & _)|(_ & _ & -> & _)]. }
      pose proof (inv_channels _ _ Ie) as Hch. unfold pending in Hch. rewrite Hi', Hqe, app_nil_r in Hch.
      assert (forall r, (flushing (state e) = false \/ flushing (state e) = true) -> r = match failed (state e) with None => Ok () | Some m => Err (Io m) end ->
        failed (state self) = None -> write_error (log self) = None -> goes_well outcome ->
        r = Ok () /\ disk (log e) ++ queued (log e) = disk (log self) ++ queued (log self) ++ payload (p :: q)) as Hlast.
      { intros r _ -> Hnf He Hg. destruct Hcases as [(_ & _ & _ & Hfe & _ & Hd & _)|(_ & _ & _ & _ & _ & Hno)].
        - rewrite Hfe. cbn [b state failed]. rewrite Hnf. split; [done|]. rewrite app_assoc. apply Hd. by right.
        - destruct Hno. by split. }
      unfold flush_begin, flush_status.
      destruct (flushing (state e)) eqn:Hfe; rewrite ?Hqe; simpl; rewrite ?Hi', ?Hqe, ?Hfe; simpl;
        (split; [done|]); (split; [done|]); eexists; (split; [done|]); apply Hlast; auto.
  - pose proof (inv_idle _ _ I Hf) as Hp. unfold pending in Hp. rewrite Hi in Hp. simpl in Hp.
    pose proof (inv_channels _ _ I) as Hch. unfold pending in Hch. rewrite Hi, Hp, app_nil_r in Hch.
    split; [done|]. split; [done|]. unfold flush_status. rewrite Hp, Hf. eexists. split; [done|].
    intros -> _ _. unfold payload. simpl. by rewrite !app_nil_r.
Qed.

(** ** A log used twice: a batch that is written, then one that fails *)

Section examples.
Import List.ListNotations.

Definition Written : WriteOutcome := mk_WriteOutcome Settled (HandedOver 0 Settled) RolledBack.
Definition stats0 : option WalStats := Some (mk_WalStats 0 0).
Definition opened : Wal := open (new stats0 [byte_of 9]).
Definition first : bytes := [byte_of 1; byte_of 2].
Definition appended : Wal := (append_loc first opened).2.
Definition flushed : Wal := flush_end Always Written (flush_begin appended).
Definition second : Wal := (append_loc [byte_of 3; byte_of 4] (flush_begin flushed)).2.
Definition torn : WriteOutcome := mk_WriteOutcome Settled (WritesFail "disk full" 1) RolledBack.
Definition rolled_back : Wal := flush_end Always torn (flush_begin second).

Lemma opened_reachable : reachable Always stats0 [byte_of 9] opened.
Proof. eapply rtc_l; [apply step_open|]. done. Qed.

Lemma unfailed_steps :
  rtc (fun a b => step Always a b /\ failed (state b) = None) appended rolled_back.
Proof.
  apply (rtc_l _ _ (flush_begin appended)); [split; [by apply step_flush_begin|reflexivity]|].
  apply (rtc_l _ _ flushed); [split; [by eapply step_flush_end|reflexivity]|].
  apply (rtc_l _ _ (flush_begin flushed)); [split; [by apply step_flush_begin|reflexivity]|].
  apply (rtc_l _ _ second); [split; [by apply step_append|reflexivity]|].
  apply (rtc_l _ _ (flush_begin second)); [split; [by apply step_flush_begin|reflexivity]|].
  apply (rtc_l _ _ rolled_back); [split; [by eapply step_flush_end|reflexivity]|].
  apply rtc_refl.
Qed.

Lemma later_steps : rtc (step Always) appended rolled_back.
Proof.
  pose proof unfailed_steps as H. induction H as [|a b c [] _ IH]; [done|]. by econstructor.
Qed.

Lemma acknowledged_appends_are_stored_witness :
  acknowledged rolled_back 0 /\
  slice (disk (log rolled_back)) 1 3 = first /\ 3 <= synced (log rolled_back).
Proof.
  assert (acknowledged rolled_back 0) as Hack by (apply list_elem_of_here).
  split; [exact Hack|].
  apply (acknowledged_appends_are_stored Always stats0 [byte_of 9] opened first 1 0%nat rolled_back);
    [done | apply opened_reachable | done | done | apply later_steps | exact Hack | reflexivity | reflexivity].
Defined.

Lemma log_is_the_acknowledged_appends_witness :
  disk (log rolled_back) ++ queued (log rolled_back) = [byte_of 9] ++ first.
Proof.
  destruct (log_is_the_acknowledged_appends Always stats0 [byte_of 9] rolled_back) as (Hd & _).
  - done.
  - eapply rtc_l; [split; [apply step_open|done]|].
    eapply rtc_l; [split; [by apply (step_append _ _ first)|done]|]. apply unfailed_steps.
  - apply Hd. reflexivity.
Defined.

Lemma flush_answers_every_append_witness :
  let self' := flush_loop Always [Written] appended in
  map fst (completions self') ≡ₚ [0%nat] /\ disk (log self') ++ queued (log self') = [byte_of 9] ++ first.
Proof.
  destruct (flush_answers_every_append Always stats0 [byte_of 9] appended Written)
    as (_ & Hch & _ & r & _ & Hw).
  - done.
  - eapply rtc_r; [apply opened_reachable|]. by apply step_append.
  - done.
  - split; [exact Hch | apply Hw; [reflexivity|reflexivity|]]. split; [reflexivity|by exists 0%nat].
Defined.

(** A queued write that fails after it was acknowledged, here also under [Always], since
    [sync_all] does not report it: the frame is not in the file, the next append, which
    could have been written, fails for it, and the rollback of that one fills the place of
    the first with zeros. *)
Definition failing : WriteOutcome := mk_WriteOutcome Settled (HandedOver 0 (Unsettled "disk full" 0)) RolledBack.
Definition after_loss : Wal := flush_end Always failing (flush_begin appended).
Definition later : Wal := flush_end Always Written (flush_begin (append_loc [byte_of 3] (flush_begin after_loss)).2).

Example acknowledged_append_is_lost :
  completions after_loss = [(0%nat, Ok ())] /\ disk (log after_loss) = [byte_of 9] /\
  completions later = [(0%nat, Ok ()); (1%nat, Err (Io "disk full"))] /\
  disk (log later) = [byte_of 9; byte_of 0; byte_of 0].
Proof. split_and!; reflexivity. Qed.
End examples.
End WalFacts.
