(* ===== verification/DtIndex.v ===== *)
(** * The datetime index ([crates/minidb/src/dt_index.rs])

    One ordered column per datetime name, from times to keys, beside the
    datetimes of every key.  The ordered list of a column is an [OrderedIndex];
    a panic in it is [None].  The code walks the datetimes of a key in the order
    of their names; each is one operation on a column of its own, so the order
    in which [map_to_list] gives them has no effect.  Theorems at the end: the
    columns are exactly the datetimes of the keys, whatever is set, deleted and
    rebuilt, and a range query is the page of the sorted column. *)

From S2P Require Import Prelude.
From S2P Require Import OrdIndex.
From S2P Require Import Store.
From S2P Require Import SkipList.
From S2P Require Import SkipListFacts.
Import OrdIndex Store.

Module DtIndex.

Record DateTimeColumn (T : Type) := mk_DateTimeColumn { list : T; col_by_key : gmap bytes Z }.
Arguments mk_DateTimeColumn {T}. Arguments list {T}. Arguments col_by_key {T}.

Record DateTimeRangeEntry := mk_DateTimeRangeEntry { key : bytes; value : Z }.

Record DateTimeIndex (T : Type) := mk_DateTimeIndex {
  columns : gmap string (DateTimeColumn T);
  by_key : gmap bytes Datetimes;
}.
Arguments mk_DateTimeIndex {T}. Arguments columns {T}. Arguments by_key {T}.

Section dt_index.
Context {T : Type} `{!OrderedIndex T Z bytes}.
Implicit Types (self : DateTimeIndex T) (cols : gmap string (DateTimeColumn T)).

Definition DateTimeIndex_default : DateTimeIndex T := mk_DateTimeIndex ∅ ∅.

Definition DateTimeColumn_new : DateTimeColumn T := mk_DateTimeColumn oi_empty ∅.

(** A time of a key leaves its column, and an empty column is dropped. *)
Definition unlink (key : bytes) cols (column : string) (value : Z)
    : option (gmap string (DateTimeColumn T)) :=
  match cols !! column with
  | None => Some cols
  | Some index =>
      '(l, _) ← oi_delete value key (list index);
      let by_key := delete key (col_by_key index) in
      Some (if decide (by_key = ∅) then delete column cols
            else <[column := mk_DateTimeColumn l by_key]> cols)
  end.

Definition link (key : bytes) cols (column : string) (value : Z)
    : option (gmap string (DateTimeColumn T)) :=
  let index := default DateTimeColumn_new (cols !! column) in
  l ← oi_insert value key (list index);
  Some (<[column := mk_DateTimeColumn l (<[key := value]> (col_by_key index))]> cols).

Definition drop_changed (key : bytes) (next : Datetimes) cols (x : string * Z) :=
  if decide (next !! x.1 = Some x.2) then Some cols else unlink key cols x.1 x.2.

Definition add_changed (key : bytes) (old : Datetimes) cols (x : string * Z) :=
  if decide (old !! x.1 = Some x.2) then Some cols else link key cols x.1 x.2.

Definition set (key : bytes) (datetimes : option Datetimes) self : option (DateTimeIndex T) :=
  let old := default ∅ (by_key self !! key) in
  let next := default ∅ datetimes in
  cols ← foldM (drop_changed key next) (columns self) (map_to_list old);
  cols ← foldM (add_changed key old) cols (map_to_list next);
  Some (mk_DateTimeIndex cols
          (if decide (next = ∅) then delete key (by_key self) else <[key := next]> (by_key self))).

(** The name [delete] is the map operation's. *)
Definition delete_key (key : bytes) self : option (DateTimeIndex T) :=
  match by_key self !! key with
  | None => Some self
  | Some old =>
      cols ← foldM (fun cols x => unlink key cols x.1 x.2) (columns self) (map_to_list old);
      Some (mk_DateTimeIndex cols (delete key (by_key self)))
  end.

Definition to_entry (e : Z * bytes) : DateTimeRangeEntry := mk_DateTimeRangeEntry e.2 e.1.

Definition range (column : string) (options : RangeOptions Z) self : option (Datatypes.list DateTimeRangeEntry) :=
  match columns self !! column with
  | None => Some []
  | Some index => entries ← oi_range options (list index); Some (map to_entry entries)
  end.

Definition rebuild (entries : Datatypes.list (bytes * option Datetimes)) self
    : option (DateTimeIndex T) :=
  foldM (fun self e => set e.1 e.2 self) (mk_DateTimeIndex ∅ ∅) entries.

(** ** What the columns stand for *)

Context (repr : T -> Datatypes.list (Z * bytes) -> Prop).
Context `{!OrderedIndexLaws Z.compare bytes_cmp repr}.

Definition entry_cmp : Z * bytes -> Z * bytes -> comparison := cmp_entry Z.compare bytes_cmp.

(** The sorted entries of a partial function from keys to times. *)
Record lists (view : bytes -> option Z) (l : Datatypes.list (Z * bytes)) : Prop := {
  lists_sorted : sorted entry_cmp l;
  lists_nodup : NoDup l;
  lists_in v k : (v, k) ∈ l <-> view k = Some v;
}.

Definition col_ok (view : bytes -> option Z) (c : option (DateTimeColumn T)) : Prop :=
  match c with
  | None => forall k, view k = None
  | Some c => (forall k, col_by_key c !! k = view k) /\ col_by_key c <> ∅ /\
              exists l, repr (list c) l /\ lists view l
  end.

(** The times of column [c], where the datetimes of [key] are [cur]. *)
Definition view_of (m : gmap bytes Datetimes) (key : bytes) (cur : Datetimes) (c : string)
    (k : bytes) : option Z :=
  if decide (k = key) then cur !! c else m !! k ≫= fun ds => ds !! c.

Definition view (m : gmap bytes Datetimes) (c : string) (k : bytes) : option Z :=
  m !! k ≫= fun ds => ds !! c.

Record dt_ok self : Prop := {
  dt_columns c : col_ok (view (by_key self) c) (columns self !! c);
  dt_nonempty k ds : by_key self !! k = Some ds -> ds <> ∅;
}.

Lemma col_ok_ext view1 view2 c : (forall k, view1 k = view2 k) -> col_ok view1 c -> col_ok view2 c.
Proof.
  intros Hv. destruct c as [c|]; simpl.
  - intros (Hc & Hne & l & Hr & [Hs Hn Hi]). split; [intros k; by rewrite Hc, Hv|]. split; [done|].
    exists l. split; [done|]. split; [done..|]. intros v k. by rewrite Hi, Hv.
  - intros H k. by rewrite <- Hv.
Qed.

(** ** Entries of a column *)

Lemma entry_cmp_eq x y : entry_cmp x y = Eq <-> x = y.
Proof.
  unfold entry_cmp, cmp_entry. destruct x as [v k], y as [v' k']. simpl.
  destruct (v ?= v') eqn:E.
  - apply Z.compare_eq in E as ->. rewrite bytes_cmp_eq. split; [by intros ->|congruence].
  - split; [done|]. intros [= -> ->]. by rewrite Z.compare_refl in E.
  - split; [done|]. intros [= -> ->]. by rewrite Z.compare_refl in E.
Qed.

Lemma entry_delete_in x l y :
  sorted entry_cmp l -> NoDup l -> y ∈ sorted_delete entry_cmp x l <-> y ∈ l /\ y <> x.
Proof.
  unfold sorted. induction 1 as [|z l Hs IH Hz]; intros Hn; simpl; [set_solver|].
  apply NoDup_cons in Hn as [Hnz Hn]. destruct (entry_cmp z x) eqn:E.
  - apply entry_cmp_eq in E as ->. set_solver.
  - assert (z <> x) by (intros ->; by rewrite (proj2 (entry_cmp_eq x x) eq_refl) in E).
    rewrite !elem_of_cons, IH by done. naive_solver.
  - assert (x ∉ z :: l); [|set_solver]. rewrite Forall_forall in Hz. intros [->|Hin]%elem_of_cons.
    + by rewrite (proj2 (entry_cmp_eq z z) eq_refl) in E.
    + by apply (Hz x Hin).
Qed.

Lemma entry_delete_NoDup x l : NoDup l -> NoDup (sorted_delete entry_cmp x l).
Proof.
  induction 1 as [|y l Hy Hn IH]; simpl; [constructor|].
  destruct (entry_cmp y x); [done| |by constructor]. constructor; [|done].
  intros Hin. apply Hy. by apply (sorted_delete_incl entry_cmp x l).
Qed.

Lemma lists_delete view view' l v k :
  lists view l -> view k = Some v -> view' k = None -> (forall k', k' <> k -> view' k' = view k') ->
  lists view' (sorted_delete entry_cmp (v, k) l).
Proof.
  intros [Hs Hn Hi] Hk Hk' Hne. split.
  - by apply (sorted_delete_sorted entry_cmp).
  - by apply entry_delete_NoDup.
  - intros v' k'. rewrite entry_delete_in, Hi by done. destruct (decide (k' = k)) as [->|Hd].
    + rewrite Hk, Hk'. naive_solver.
    + rewrite Hne by done. naive_solver.
Qed.

Lemma lists_insert view view' l v k :
  lists view l -> view k = None -> view' k = Some v -> (forall k', k' <> k -> view' k' = view k') ->
  lists view' (sorted_insert entry_cmp (v, k) l).
Proof.
  intros [Hs Hn Hi] Hk Hk' Hne. split.
  - by apply (sorted_insert_sorted entry_cmp).
  - rewrite sorted_insert_perm. constructor; [|done]. by rewrite Hi, Hk.
  - intros v' k'. rewrite sorted_insert_perm, elem_of_cons, Hi. destruct (decide (k' = k)) as [->|Hd].
    + rewrite Hk, Hk'. naive_solver.
    + rewrite Hne by done. naive_solver.
Qed.

(** There are no more entries than keys with datetimes. *)
Lemma lists_bounded m key cur c l :
  lists (view_of m key cur c) l -> cur !! c = None -> (length l <= size m)%nat.
Proof.
  intros [_ Hn Hi] Hc.
  assert (forall v k, (v, k) ∈ l -> k ∈ (map_to_list m).*1) as Hdom.
  { intros v k Hin%Hi. unfold view_of in Hin. destruct (decide (k = key)); [congruence|].
    destruct (m !! k) as [ds|] eqn:E; [|done]. apply list_elem_of_fmap. exists (k, ds).
    split; [done|]. by apply elem_of_map_to_list. }
  rewrite <- (length_map_to_list m), <- (length_fmap fst (map_to_list m)), <- (length_fmap snd l).
  apply submseteq_length. apply NoDup_submseteq.
  - clear Hdom.
    assert (forall v v' k, (v, k) ∈ l -> (v', k) ∈ l -> v = v') as Hfun.
    { intros v v' k H1%Hi H2%Hi. congruence. }
    clear Hi. induction Hn as [|[v k] l Hx Hn IH]; [constructor|]. constructor.
    + intros ([v' k'] & Heq & Hin)%list_elem_of_fmap. simpl in Heq. subst k'. apply Hx.
      rewrite (Hfun v v' k); [done|by left|by right].
    + apply IH. intros v1 v2 x H1 H2. apply (Hfun v1 v2 x); by right.
  - intros k ([v k'] & -> & Hin)%list_elem_of_fmap. by eapply Hdom.
Qed.

(** ** One time comes or goes *)

Definition cols_ok cols (m : gmap bytes Datetimes) (key : bytes) (cur : Datetimes) : Prop :=
  forall c, col_ok (view_of m key cur c) (cols !! c).

Lemma view_of_other m key cur cur' c k : k <> key -> view_of m key cur c k = view_of m key cur' c k.
Proof. intros. unfold view_of. by destruct (decide _). Qed.

Lemma view_of_key m key cur c : view_of m key cur c key = cur !! c.
Proof. unfold view_of. by destruct (decide _). Qed.

Lemma view_of_same m key cur cur' c k : cur !! c = cur' !! c -> view_of m key cur c k = view_of m key cur' c k.
Proof. intros. unfold view_of. by destruct (decide _). Qed.

Lemma unlink_ok cols m key cur c v :
  cols_ok cols m key cur -> cur !! c = Some v ->
  exists cols', unlink key cols c v = Some cols' /\ cols_ok cols' m key (delete c cur).
Proof.
  intros Hok Hc. pose proof (Hok c) as Hcol. unfold unlink. destruct (cols !! c) as [col|] eqn:E.
  - destruct Hcol as (Hb & Hne & l & Hr & Hl).
    destruct (oi_delete_spec v key _ _ Hr) as (t' & -> & Hr'). simpl.
    eexists. split; [done|]. intros c'. destruct (decide (c' = c)) as [->|Hcc].
    + pose proof (lists_delete _ (view_of m key (delete c cur) c) _ v key Hl
        ltac:(by rewrite view_of_key) ltac:(by rewrite view_of_key, lookup_delete_eq)
        ltac:(intros; by apply view_of_other)) as Hl'.
      assert (forall k, delete key (col_by_key col) !! k = view_of m key (delete c cur) c k) as Hb'.
      { intros k. destruct (decide (k = key)) as [->|].
        - by rewrite lookup_delete_eq, view_of_key, lookup_delete_eq.
        - rewrite lookup_delete_ne, Hb by done. by apply view_of_other. }
      destruct (decide _) as [He|He].
      * rewrite lookup_delete_eq. intros k. by rewrite <- Hb', He, lookup_empty.
      * rewrite lookup_insert_eq. split; [done|]. split; [done|]. by eexists.
    + eapply col_ok_ext; [intros k; apply view_of_same; symmetry; by apply lookup_delete_ne|].
      destruct (decide _); [rewrite lookup_delete_ne by done|rewrite lookup_insert_ne by done]; apply Hok.
  - specialize (Hcol key). rewrite view_of_key in Hcol. congruence.
Qed.

Lemma link_ok cols m key cur c v :
  cols_ok cols m key cur -> cur !! c = None -> Z.of_nat (size m) + 1 < U64_MAX ->
  exists cols', link key cols c v = Some cols' /\ cols_ok cols' m key (<[c := v]> cur).
Proof.
  intros Hok Hc Hsz. pose proof (Hok c) as Hcol. unfold link.
  assert (exists l, repr (list (default DateTimeColumn_new (cols !! c))) l /\
            lists (view_of m key cur c) l /\
            forall k, col_by_key (default DateTimeColumn_new (cols !! c)) !! k = view_of m key cur c k)
    as (l & Hr & Hl & Hb).
  { destruct (cols !! c) as [col|]; simpl.
    - destruct Hcol as (Hb & _ & l & Hr & Hl). by exists l.
    - exists []. split; [apply oi_empty_spec|]. split; [|intros k; by rewrite Hcol].
      split; [constructor..|]. intros v' k. rewrite Hcol. split; [by intros ?%elem_of_nil|done]. }
  pose proof (lists_bounded _ _ _ _ _ Hl Hc) as Hbd.
  destruct (oi_insert_spec v key _ _ Hr) as (t' & -> & Hr'); [unfold zlen; lia|]. simpl.
  eexists. split; [done|]. intros c'. destruct (decide (c' = c)) as [->|Hcc].
  - rewrite lookup_insert_eq. split.
    { simpl. intros k. destruct (decide (k = key)) as [->|].
      - by rewrite lookup_insert_eq, view_of_key, lookup_insert_eq.
      - rewrite lookup_insert_ne, Hb by done. by apply view_of_other. }
    split; [apply insert_non_empty|]. eexists. split; [done|].
    apply (lists_insert (view_of m key cur c)); try done.
    + by rewrite view_of_key.
    + by rewrite view_of_key, lookup_insert_eq.
    + intros. by apply view_of_other.
  - rewrite lookup_insert_ne by done. eapply col_ok_ext; [|apply Hok].
    intros k. apply view_of_same. symmetry. by apply lookup_insert_ne.
Qed.

(** ** The two loops *)

Lemma drop_loop key next m l cols cur :
  cols_ok cols m key cur -> NoDup l.*1 -> (forall c v, (c, v) ∈ l -> cur !! c = Some v) ->
  exists cols' cur', foldM (drop_changed key next) cols l = Some cols' /\ cols_ok cols' m key cur' /\
    cur' ⊆ cur /\
    (forall c v, (c, v) ∈ l -> next !! c <> Some v -> cur' !! c = None) /\
    (forall c v, cur !! c = Some v -> next !! c = Some v -> cur' !! c = Some v).
Proof.
  revert cols cur. induction l as [|[c v] l IH]; intros cols cur Hok Hnd Hin; simpl.
  { exists cols, cur. split_and!; [done..|set_solver|done]. }
  apply NoDup_cons in Hnd as [Hc Hnd]. simpl in Hc.
  assert (forall c' v', (c', v') ∈ l -> c' <> c) as Hne.
  { intros c' v' Hl ->. apply Hc. apply list_elem_of_fmap. by exists (c, v'). }
  change (drop_changed key next cols (c, v))
    with (if decide (next !! c = Some v) then Some cols else unlink key cols c v).
  destruct (decide (next !! c = Some v)) as [Hn|Hn].
  - simpl. destruct (IH cols cur Hok Hnd) as (cols' & cur' & ? & ? & ? & Hd & ?); [set_solver|].
    exists cols', cur'. split_and!; [done..| |done].
    intros c' v' [Heq|Hl]%elem_of_cons ?; [congruence | by eapply Hd].
  - destruct (unlink_ok cols m key cur c v Hok) as (cols1 & -> & Hok1); [set_solver|]. simpl.
    destruct (IH cols1 (delete c cur) Hok1 Hnd) as (cols' & cur' & ? & ? & Hsub & Hd & Hk).
    { intros c' v' Hl. rewrite lookup_delete_ne by (by apply not_eq_sym, (Hne c' v')). set_solver. }
    exists cols', cur'. split_and!; [done|done| | |].
    + etrans; [done|]. apply delete_subseteq.
    + intros c' v' [[= -> ->]|Hl]%elem_of_cons ?; [|by eapply Hd].
      destruct (cur' !! c) eqn:E; [|done]. eapply lookup_weaken in E; [|done].
      by rewrite lookup_delete_eq in E.
    + intros c' v' Hc' Hn'. apply Hk; [|done]. rewrite lookup_delete_ne; [done|]. intros <-.
      assert (cur !! c = Some v) as E by (apply Hin; set_solver). congruence.
Qed.

Lemma add_loop key old m l cols cur :
  Z.of_nat (size m) + 1 < U64_MAX ->
  cols_ok cols m key cur -> NoDup l.*1 ->
  (forall c v, (c, v) ∈ l -> cur !! c = if decide (old !! c = Some v) then Some v else None) ->
  exists cols' cur', foldM (add_changed key old) cols l = Some cols' /\ cols_ok cols' m key cur' /\
    (forall c v, (c, v) ∈ l -> cur' !! c = Some v) /\
    (forall c, c ∉ l.*1 -> cur' !! c = cur !! c).
Proof.
  intros Hsz. revert cols cur. induction l as [|[c v] l IH]; intros cols cur Hok Hnd Hin; simpl.
  { exists cols, cur. split_and!; [done..|set_solver|done]. }
  apply NoDup_cons in Hnd as [Hc Hnd]. simpl in Hc.
  assert (forall c' v', (c', v') ∈ l -> c' <> c) as Hne.
  { intros c' v' Hl ->. apply Hc. apply list_elem_of_fmap. by exists (c, v'). }
  pose proof (Hin c v (list_elem_of_here _ _)) as Hcv.
  change (add_changed key old cols (c, v))
    with (if decide (old !! c = Some v) then Some cols else link key cols c v).
  destruct (decide (old !! c = Some v)) as [Ho|Ho].
  - simpl. destruct (IH cols cur Hok Hnd) as (cols' & cur' & ? & ? & Ha & Hk).
    { intros c' v' Hl. apply Hin. set_solver. }
    exists cols', cur'. split_and!; [done|done| |].
    + intros c' v' [[= -> ->]|Hl]%elem_of_cons; [by rewrite Hk | by apply Ha].
    + intros c' Hc'. apply Hk. set_solver.
  - destruct (link_ok cols m key cur c v Hok Hcv Hsz) as (cols1 & -> & Hok1). simpl.
    destruct (IH cols1 (<[c := v]> cur) Hok1 Hnd) as (cols' & cur' & ? & ? & Ha & Hk).
    { intros c' v' Hl. rewrite lookup_insert_ne by (by apply not_eq_sym, (Hne c' v')). apply Hin. set_solver. }
    exists cols', cur'. split_and!; [done|done| |].
    + intros c' v' [[= -> ->]|Hl]%elem_of_cons; [by rewrite Hk, lookup_insert_eq | by apply Ha].
    + intros c' Hc'. rewrite Hk by set_solver. rewrite lookup_insert_ne; [done|]. set_solver.
Qed.

(** ** The operations *)

(** The datetimes of the keys after a write. *)
Definition with_datetimes (key : bytes) (datetimes : option Datetimes) (m : gmap bytes Datetimes)
    : gmap bytes Datetimes :=
  if decide (default ∅ datetimes = ∅) then delete key m else <[key := default ∅ datetimes]> m.

Lemma view_of_current m key c k : view_of m key (default ∅ (m !! key)) c k = view m c k.
Proof.
  unfold view_of, view. destruct (decide (k = key)) as [->|]; [|done].
  destruct (m !! key); simpl; [done|by rewrite lookup_empty].
Qed.

Lemma view_of_next m key datetimes c k :
  view_of m key (default ∅ datetimes) c k = view (with_datetimes key datetimes m) c k.
Proof.
  unfold view_of, view, with_datetimes. destruct (decide (default ∅ datetimes = ∅)) as [->|],
    (decide (k = key)) as [->|]; rewrite ?lookup_delete_eq, ?lookup_insert_eq, ?lookup_delete_ne,
    ?lookup_insert_ne by done; simpl; by rewrite ?lookup_empty.
Qed.

Lemma set_spec self key datetimes :
  dt_ok self -> Z.of_nat (size (by_key self)) + 1 < U64_MAX ->
  exists self', set key datetimes self = Some self' /\ dt_ok self' /\
    by_key self' = with_datetimes key datetimes (by_key self).
Proof.
  intros [Hcols Hne] Hsz. unfold set. set (old := default ∅ (by_key self !! key)).
  set (next := default ∅ datetimes).
  assert (cols_ok (columns self) (by_key self) key old) as Hok.
  { intros c. eapply col_ok_ext; [|apply Hcols]. intros k. symmetry. apply view_of_current. }
  destruct (drop_loop key next (by_key self) (map_to_list old) (columns self) old Hok)
    as (cols1 & cur1 & -> & Hok1 & Hsub & Hd & Hk).
  { apply NoDup_fst_map_to_list. }
  { intros c v. by rewrite elem_of_map_to_list. }
  simpl. destruct (add_loop key old (by_key self) (map_to_list next) cols1 cur1 Hsz Hok1)
    as (cols2 & cur2 & -> & Hok2 & Ha & Hk2).
  { apply NoDup_fst_map_to_list. }
  { intros c v Hcv%elem_of_map_to_list. destruct (decide (old !! c = Some v)); [by apply Hk|].
    destruct (cur1 !! c) as [v'|] eqn:E; [|done]. eapply lookup_weaken in E as E'; [|done].
    rewrite (Hd c v') in E; [done|by apply elem_of_map_to_list|congruence]. }
  simpl. eexists. split; [done|].
  assert (cur2 = next) as ->.
  { apply map_eq. intros c. destruct (next !! c) as [v|] eqn:E.
    - apply Ha. by apply elem_of_map_to_list.
    - rewrite Hk2.
      + destruct (cur1 !! c) as [v|] eqn:E1; [|done]. eapply lookup_weaken in E1 as E1'; [|done].
        rewrite (Hd c v) in E1; [done|by apply elem_of_map_to_list|congruence].
      + intros ([c' v] & -> & Hin%elem_of_map_to_list)%list_elem_of_fmap. simpl in *. congruence. }
  split; [|done]. split; simpl.
  - intros c. eapply col_ok_ext; [|apply Hok2]. intros k. apply view_of_next.
  - intros k ds. destruct (decide (next = ∅)) as [->|].
    + intros [_ ?]%lookup_delete_Some. by eapply Hne.
    + destruct (decide (k = key)) as [->|]; [rewrite lookup_insert_eq; by intros [= <-]|].
      rewrite lookup_insert_ne by done. apply Hne.
Qed.

Lemma delete_key_as_set key self :
  dt_ok self -> delete_key key self = set key None self.
Proof.
  intros Hok. unfold delete_key, set. simpl. destruct (by_key self !! key) as [old|] eqn:E; simpl.
  - assert (forall l cols, foldM (fun cols x => unlink key cols x.1 x.2) cols l
                           = foldM (drop_changed key ∅) cols l) as ->.
    { induction l as [|x l IH]; intros cols; simpl; [done|]. assert (drop_changed key ∅ cols x = unlink key cols x.1 x.2) as ->
        by (unfold drop_changed; by rewrite decide_False by (by rewrite lookup_empty)).
      by destruct (unlink _ _ _ _). }
    destruct (foldM _ _ _); simpl; [|done]. by rewrite map_to_list_empty.
  - rewrite !map_to_list_empty. simpl. rewrite delete_id by done. by destruct self.
Qed.

Lemma column_range_entries column o self :
  dt_ok self ->
  exists l, lists (view (by_key self) column) l /\
    range column o self = Some (map to_entry (range_spec Z.compare o l)).
Proof.
  intros [Hcols _]. specialize (Hcols column). unfold range. destruct (columns self !! column).
  - destruct Hcols as (_ & _ & l & Hr & Hl). exists l. split; [done|].
    by rewrite (oi_range_spec o _ _ Hr).
  - assert (range_spec (V := bytes) Z.compare o [] = []) as E.
    { unfold range_spec, page. rewrite filter_nil. by destruct (reverse o); cbn [rev]; destruct (Z.to_nat (offset o)), (Z.to_nat (default U64_MAX (count o))). }
    exists []. split; [|by rewrite E].
    split; [constructor..|]. intros v k. rewrite Hcols. split; [by intros ?%elem_of_nil|done].
Qed.

Lemma empty_ok : dt_ok (mk_DateTimeIndex ∅ ∅).
Proof. split; simpl; [intros c|intros k ds]; by rewrite lookup_empty. Qed.

Lemma rebuild_ok entries self :
  zlen entries + 1 < U64_MAX ->
  exists self', rebuild entries self = Some self' /\ dt_ok self' /\
    by_key self' = fold_left (fun m e => with_datetimes e.1 e.2 m) entries ∅.
Proof.
  intros Hlen. unfold rebuild.
  assert (forall l s, dt_ok s -> Z.of_nat (size (by_key s)) + zlen l + 1 < U64_MAX ->
    exists s', foldM (fun self e => set e.1 e.2 self) s l = Some s' /\ dt_ok s' /\
      by_key s' = fold_left (fun m e => with_datetimes e.1 e.2 m) l (by_key s)) as Hloop.
  { induction l as [|e l IH]; intros s Hs Hsz; simpl; [by exists s|]. rewrite zlen_cons in Hsz.
    destruct (set_spec s e.1 e.2 Hs) as (s1 & -> & Hs1 & Hb); [zlia|]. simpl.
    rewrite <- Hb. apply IH; [done|]. rewrite Hb. unfold with_datetimes. case_decide.
    - pose proof (map_size_delete e.1 (by_key s)). destruct (by_key s !! e.1); simpl in *; lia.
    - rewrite map_size_insert. destruct (by_key s !! e.1); simpl; lia. }
  apply Hloop; [apply empty_ok|]. simpl. rewrite map_size_empty. lia.
Qed.

(** The datetime index is the map from keys to datetimes: setting the
    datetimes of a key (or deleting them) never panics, changes them for that key
    only, and afterwards every range query of every column is the page of the
    sorted list of exactly the times the keys have in that column. *)
Theorem dt_set_correct self key datetimes :
  dt_ok self -> Z.of_nat (size (by_key self)) + 1 < U64_MAX ->
  exists self', set key datetimes self = Some self' /\ dt_ok self' /\
    (datetimes = None -> delete_key key self = Some self') /\
    by_key self' = with_datetimes key datetimes (by_key self) /\
    forall column o, exists l,
      sorted entry_cmp l /\ NoDup l /\
      (forall t k, (t, k) ∈ l <->
         exists ds, with_datetimes key datetimes (by_key self) !! k = Some ds /\ ds !! column = Some t) /\
      range column o self' = Some (map to_entry (range_spec Z.compare o l)).
Proof.
  intros Hok Hsz. destruct (set_spec self key datetimes Hok Hsz) as (self' & Hs & Hok' & Hb).
  exists self'. split; [done|]. split; [done|].
  split; [intros ->; by rewrite delete_key_as_set|]. split; [done|].
  intros column o. destruct (column_range_entries column o self' Hok') as (l & [Hsrt Hnd Hin] & Hr).
  exists l. split; [done|]. split; [done|]. split; [|done]. intros t k. rewrite Hin, Hb.
  unfold view. apply bind_Some.
Qed.
End dt_index.

(** ** Two keys and a deleted one, on the skip list *)

Section examples.
Definition TimeIndex : Type := SkipList.SkipList Z bytes.
#[local] Instance time_index : OrderedIndex TimeIndex Z bytes :=
  SkipListFacts.skiplist_index Z.compare bytes_cmp.
#[local] Instance time_index_laws :
  OrderedIndexLaws Z.compare bytes_cmp (SkipListFacts.repr Z.compare bytes_cmp) :=
  SkipListFacts.skiplist_index_laws Z.compare bytes_cmp.

Let k1 : bytes := [byte_of 97].
Let k2 : bytes := [byte_of 98].
Let due (t : Z) : option Datetimes := Some {[ "due"%string := t ]}.

Lemma dt_set_correct_witness :
  exists s s' : DateTimeIndex TimeIndex,
    rebuild [(k1, due 5); (k2, due 3)] (mk_DateTimeIndex ∅ ∅) = Some s /\
    set k2 (due 9) s = Some s' /\
    by_key s' = {[ k1 := {[ "due"%string := 5 ]}; k2 := {[ "due"%string := 9 ]} ]}.
Proof.
  destruct (rebuild_ok (SkipListFacts.repr Z.compare bytes_cmp) [(k1, due 5); (k2, due 3)]
    (mk_DateTimeIndex (T := TimeIndex) ∅ ∅)) as (s & Hs & Hok & Hb); [done|].
  destruct (dt_set_correct _ s k2 (due 9) Hok) as (s' & Hs' & _ & _ & Hb' & _).
  - rewrite Hb. vm_compute. reflexivity.
  - exists s, s'. split; [exact Hs|]. split; [exact Hs'|]. etransitivity; [exact Hb'|].
    etransitivity; [apply (f_equal (with_datetimes k2 (due 9))); exact Hb|]. vm_compute. reflexivity.
Defined.
End examples.
End DtIndex.
