(* ===== verification/Query.v ===== *)
(** * JSON paths and filters ([crates/minidb/src/query.rs])

    Dotted paths with array indices, reading and writing through them,
    projection, and the filter language.  A JSON value is the public data of
    [serde_json::Value]; an object is its members in insertion order, as the
    crate's [preserve_order] keeps them.  [serde_json]'s numbers and the [regex]
    crate are parameters: [as_f64] and the equality of numbers, and whether a
    pattern compiles and matches.  A 64-bit float is Corelib's [spec_float] with
    its IEEE comparison.  Strings are their UTF-8 bytes; every delimiter is ASCII,
    so searching bytes is searching characters.  [None] from a write is the panic
    of [index + 1] at [usize::MAX]; memory is unbounded.

    The model comes first, then the theorems on paths, then those on filters. *)

From Corelib Require Import SpecFloat.
From Stdlib Require Import Ascii.
From S2P Require Import Prelude.

Module Query.

(** ** Values *)

Section query.
Context {Number : Type}.
(** [Number::as_f64] and [PartialEq for Number]. *)
Context (number_as_f64 : Number -> option spec_float) (number_eqb : Number -> Number -> bool).
(** [RegexBuilder::new(pattern)] with the three flags, [build()] and [is_match]:
    [None] when the pattern does not compile. *)
Context (regex_is_match : string -> bool -> bool -> bool -> string -> option bool).

Inductive Value :=
| Null
| Bool (b : bool)
| Num (n : Number)
| Str (s : string)
| Array (items : list Value)
| Object (members : list (string * Value)).

Definition as_f64 (v : Value) : option spec_float :=
  match v with Num n => number_as_f64 n | _ => None end.
Definition as_str (v : Value) : option string := match v with Str s => Some s | _ => None end.
Definition as_array (v : Value) : option (list Value) := match v with Array l => Some l | _ => None end.
Definition as_object (v : Value) : option (list (string * Value)) :=
  match v with Object m => Some m | _ => None end.
Definition as_bool (v : Value) : option bool := match v with Bool b => Some b | _ => None end.

Definition is_some_and {A} (o : option A) (p : A -> bool) : bool :=
  match o with Some a => p a | None => false end.

(** [Map::get] and [Map::insert]. *)
Fixpoint obj_get {A} (key : string) (m : list (string * A)) : option A :=
  match m with
  | [] => None
  | (k, v) :: m => if decide (k = key) then Some v else obj_get key m
  end.

Fixpoint obj_insert {A} (key : string) (value : A) (m : list (string * A)) : list (string * A) :=
  match m with
  | [] => [(key, value)]
  | (k, v) :: m => if decide (k = key) then (k, value) :: m else (k, v) :: obj_insert key value m
  end.

(** [PartialEq for Value]: objects compare without regard to order. *)
Fixpoint value_eqb (x y : Value) : bool :=
  match x, y with
  | Null, Null => true
  | Bool a, Bool b => Bool.eqb a b
  | Num a, Num b => number_eqb a b
  | Str a, Str b => String.eqb a b
  | Array a, Array b =>
      (fix items_eqb (a b : list Value) :=
         match a, b with
         | [], [] => true
         | x :: a, y :: b => value_eqb x y && items_eqb a b
         | _, _ => false
         end) a b
  | Object a, Object b =>
      (length a =? length b)%nat &&
      forallb (fun kv => let '(k, v) := kv in is_some_and (obj_get k b) (value_eqb v)) a
  | _, _ => false
  end.

(** ** Paths *)

Inductive PathToken := Key (key : string) | Index (index : Z).

(** [find(c)] and the parts before and after it. *)
Fixpoint split_once (c : ascii) (s : string) : option (string * string) :=
  match s with
  | EmptyString => None
  | String a s =>
      if Ascii.eqb a c then Some (EmptyString, s)
      else match split_once c s with
           | Some (before, after) => Some (String a before, after)
           | None => None
           end
  end.

(** [str::split] on a character. *)
Fixpoint split (c : ascii) (s : string) : list string :=
  match s with
  | EmptyString => [EmptyString]
  | String a s =>
      if Ascii.eqb a c then EmptyString :: split c s
      else match split c s with
           | segment :: segments => String a segment :: segments
           | [] => [String a EmptyString]
           end
  end.

(** [str::parse::<usize>]: an optional plus sign and decimal digits. *)
Definition digit (a : ascii) : option Z :=
  let n := Z.of_nat (nat_of_ascii a) - 48 in
  if (0 <=? n) && (n <=? 9) then Some n else None.

Fixpoint parse_digits (acc : Z) (s : string) : option Z :=
  match s with
  | EmptyString => Some acc
  | String a s =>
      d ← digit a;
      let acc := acc * 10 + d in
      if acc <=? U64_MAX then parse_digits acc s else None
  end.

Definition parse_usize (s : string) : option Z :=
  match s with
  | EmptyString => None
  | String a rest =>
      if Ascii.eqb a "+"%char then match rest with EmptyString => None | _ => parse_digits 0 rest end
      else parse_digits 0 s
  end.

Fixpoint segment_loop (fuel : nat) (remaining : string) : list PathToken :=
  match fuel with
  | O => []
  | S fuel =>
      match remaining with
      | EmptyString => []
      | _ =>
          match split_once "["%char remaining with
          | None => [Key remaining]
          | Some (before, after) =>
              match split_once "]"%char after with
              | None => [Key remaining]
              | Some (inside, rest) =>
                  (if decide (before = EmptyString) then [] else [Key before]) ++
                  match parse_usize inside with
                  | Some index => Index index :: segment_loop fuel rest
                  | None => [Key remaining]
                  end
              end
          end
      end
  end.

(** The rest of a segment is shorter than the segment. *)
Definition segment_tokens (segment : string) : list PathToken :=
  segment_loop (S (String.length segment)) segment.

Definition tokenize_path (path : string) : list PathToken := concat (map segment_tokens (split "."%char path)).

Definition get_token (current : Value) (token : PathToken) : option Value :=
  match token with
  | Key key => as_object current ≫= obj_get key
  | Index index => as_array current ≫= fun l => l !! Z.to_nat index
  end.

Definition get_tokens (document : Value) (tokens : list PathToken) : option Value :=
  foldM get_token document tokens.

Definition get_path (document : Value) (path : string) : option Value :=
  get_tokens document (tokenize_path path).

(** [Vec::resize], [None] being the overflow of [index + 1]. *)
Definition resize (l : list Value) (index : Z) : option (list Value) :=
  let len := Z.to_nat (index + 1) in
  if index + 1 <=? U64_MAX then Some (take len l ++ replicate (len - length l) Null) else None.

(** The current value made an object, or an array. *)
Definition object_of (v : Value) : list (string * Value) := default [] (as_object v).
Definition array_of (v : Value) : list Value := default [] (as_array v).

(** A child that is to be entered is made a container of the kind the next token asks. *)
Definition container (next : PathToken) (child : Value) : Value :=
  match child with
  | Object _ | Array _ => child
  | _ => match next with Index _ => Array [] | Key _ => Object [] end
  end.

Fixpoint set_tokens (current : Value) (tokens : list PathToken) (value : Value) : option Value :=
  match tokens with
  | [] => None
  | token :: rest =>
      let update child :=
        match rest with
        | [] => Some value
        | next :: _ => set_tokens (container next child) rest value
        end in
      match token with
      | Key key =>
          let members := object_of current in
          new ← update (default Null (obj_get key members));
          Some (Object (obj_insert key new members))
      | Index index =>
          array ← resize (array_of current) index;
          new ← update (default Null (array !! Z.to_nat index));
          Some (Array (<[Z.to_nat index := new]> array))
      end
  end.

Definition set_path (document : Value) (path : string) (value : Value) : option Value :=
  match tokenize_path path with
  | [] => Some document
  | tokens => set_tokens document tokens value
  end.

Definition project_step (document output : Value) (path : string) : option Value :=
  match get_path document path with
  | Some value => set_path output path value
  | None => Some output
  end.

Definition project (document : Value) (paths : list string) : option Value :=
  match paths with
  | [] => Some document
  | _ => foldM (project_step document) (Object []) paths
  end.

(** ** Conditions *)

Definition values_equal (left : option Value) (right : Value) : bool :=
  match left with
  | None => false
  | Some l =>
      match as_f64 l, as_f64 right with
      | Some x, Some y => SFeqb x y
      | _, _ => value_eqb l right
      end
  end.

Definition compare_values (left : option Value) (right : Value) : option comparison :=
  l ← left;
  match as_f64 l, as_f64 right with
  | Some x, Some y => SFcompare x y
  | _, _ =>
      match as_str l, as_str right with
      | Some x, Some y => Some (String.compare x y)
      | _, _ => None
      end
  end.

Definition contains (s : string) (c : ascii) : bool := bool_decide (is_Some (split_once c s)).

Definition regex_matches (value : option Value) (argument : Value) : bool :=
  match value ≫= as_str with
  | None => false
  | Some value =>
      let run pattern flags :=
        match regex_is_match pattern (contains flags "i"%char) (contains flags "m"%char) (contains flags "s"%char) value with
        | Some matched => matched
        | None => false
        end in
      match argument with
      | Array parts =>
          run (default EmptyString (head parts ≫= as_str)) (default EmptyString (parts !! 1%nat ≫= as_str))
      | Str pattern => run pattern EmptyString
      | _ => false
      end
  end.

Definition has_type (value : option Value) (expected : string) : bool :=
  if decide (expected = "undefined"%string) then bool_decide (value = None)
  else if decide (expected = "object"%string) then
    is_some_and value (fun v => match v with Object _ | Array _ | Null => true | _ => false end)
  else if decide (expected = "string"%string) then
    is_some_and value (fun v => match v with Str _ => true | _ => false end)
  else if decide (expected = "number"%string) then
    is_some_and value (fun v => match v with Num _ => true | _ => false end)
  else if decide (expected = "boolean"%string) then
    is_some_and value (fun v => match v with Bool _ => true | _ => false end)
  else false.

(** One operator; what is not known matches nothing. *)
Definition matches_operator (value : option Value) (operator : string) (argument : Value) : bool :=
  if decide (operator = "$eq"%string) then values_equal value argument
  else if decide (operator = "$ne"%string) then negb (values_equal value argument)
  else if decide (operator = "$gt"%string) then
    is_some_and (compare_values value argument) (fun c => match c with Gt => true | _ => false end)
  else if decide (operator = "$gte"%string) then
    is_some_and (compare_values value argument) (fun c => match c with Lt => false | _ => true end)
  else if decide (operator = "$lt"%string) then
    is_some_and (compare_values value argument) (fun c => match c with Lt => true | _ => false end)
  else if decide (operator = "$lte"%string) then
    is_some_and (compare_values value argument) (fun c => match c with Gt => false | _ => true end)
  else if decide (operator = "$in"%string) then
    is_some_and (as_array argument) (existsb (values_equal value))
  else if decide (operator = "$nin"%string) then
    is_some_and (as_array argument) (forallb (fun item => negb (values_equal value item)))
  else if decide (operator = "$regex"%string) then regex_matches value argument
  else if decide (operator = "$exists"%string) then
    Bool.eqb (bool_decide (is_Some value)) (default false (as_bool argument))
  else if decide (operator = "$contains"%string) then
    is_some_and (value ≫= as_array) (existsb (fun item => values_equal (Some item) argument))
  else if decide (operator = "$type"%string) then is_some_and (as_str argument) (has_type value)
  else false.

Definition matches_condition (value : option Value) (condition : Value) : bool :=
  match as_object condition with
  | None => values_equal value condition
  | Some operators => forallb (fun oa => matches_operator value oa.1 oa.2) operators
  end.

(** A filter is the members of an object; anything else stands for no filter. *)
Fixpoint matches_value (document filter : Value) : bool :=
  match filter with
  | Object members =>
      forallb (fun kc =>
        let '(key, condition) := kc in
        if decide (key = "$and"%string) then
          match condition with Array filters => forallb (matches_value document) filters | _ => false end
        else if decide (key = "$or"%string) then
          match condition with Array filters => existsb (matches_value document) filters | _ => false end
        else if decide (key = "$nor"%string) then
          match condition with
          | Array filters => forallb (fun filter => negb (matches_value document filter)) filters
          | _ => false
          end
        else if decide (key = "$not"%string) then negb (matches_value document condition)
        else matches_condition (get_path document key) condition) members
  | _ => true
  end.

Definition matches_filter (document : Value) (filter : option (list (string * Value))) : bool :=
  match filter with None => true | Some filter => matches_value document (Object filter) end.

(** ** Writing through a path *)

Definition in_range (token : PathToken) : Prop :=
  match token with Index index => 0 <= index < U64_MAX | Key _ => True end.

Lemma obj_get_insert_eq {A} key (v : A) m : obj_get key (obj_insert key v m) = Some v.
Proof.
  induction m as [|[k w] m IH]; simpl; [by rewrite decide_True|].
  destruct (decide (k = key)) as [->|]; simpl; [by rewrite decide_True|by rewrite decide_False].
Qed.

Lemma obj_get_insert_ne {A} key key' (v : A) m :
  key <> key' -> obj_get key' (obj_insert key v m) = obj_get key' m.
Proof.
  intros Hne. induction m as [|[k w] m IH]; simpl; [by rewrite decide_False|].
  destruct (decide (k = key)) as [->|]; simpl; [by rewrite !decide_False|]. by rewrite IH.
Qed.

Lemma resize_spec l index :
  0 <= index < U64_MAX ->
  exists l', resize l index = Some l' /\ length l' = S (Z.to_nat index) /\
    forall j, (j <= Z.to_nat index)%nat -> l' !! j = Some (default Null (l !! j)).
Proof.
  intros Hi. unfold resize. destruct (Z.leb_spec (index + 1) U64_MAX); [|lia].
  eexists. split; [done|]. rewrite length_app, length_take, length_replicate.
  split; [lia|]. intros j Hj. destruct (l !! j) as [x|] eqn:E; simpl.
  - rewrite lookup_app_l by (rewrite length_take; apply lookup_lt_Some in E; lia).
    rewrite lookup_take_lt by lia. done.
  - apply lookup_ge_None in E. rewrite lookup_app_r by (rewrite length_take; lia).
    apply lookup_replicate. rewrite length_take. split; [done|lia].
Qed.

Lemma resize_inv l index l' :
  0 <= index -> resize l index = Some l' ->
  length l' = S (Z.to_nat index) /\
  forall j, (j <= Z.to_nat index)%nat -> l' !! j = Some (default Null (l !! j)).
Proof.
  intros Hi Hr. destruct (Z.leb_spec (index + 1) U64_MAX) as [Hb|Hb].
  - destruct (resize_spec l index) as (l'' & Hr' & ?); [lia|]. rewrite Hr in Hr'. by injection Hr' as ->.
  - unfold resize in Hr. destruct (Z.leb_spec (index + 1) U64_MAX); [lia|done].
Qed.

(** The child a token leads to, [Null] when there is none. *)
Definition child_of (current : Value) (token : PathToken) : Value :=
  default Null (get_token current token).

Definition updated (rest : list PathToken) (value child : Value) : option Value :=
  match rest with
  | [] => Some value
  | next :: _ => set_tokens (container next child) rest value
  end.

Definition index_nonneg (token : PathToken) : Prop :=
  match token with Index index => 0 <= index | Key _ => True end.

(** A write is a write to the child, put in place. *)
Lemma set_tokens_cons current token rest value result :
  index_nonneg token -> set_tokens current (token :: rest) value = Some result ->
  exists new, updated rest value (child_of current token) = Some new /\
    get_token result token = Some new /\
    match token with
    | Key key => exists m, result = Object m /\
        forall key', key <> key' -> obj_get key' m = obj_get key' (object_of current)
    | Index index => exists l, result = Array l /\ length l = S (Z.to_nat index) /\
        forall j, (j < Z.to_nat index)%nat -> l !! j = Some (default Null (array_of current !! j))
    end.
Proof.
  intros Hnn. unfold child_of. destruct token as [key|index]; simpl.
  - fold (updated rest value (default Null (obj_get key (object_of current)))).
    assert (default Null (obj_get key (object_of current))
            = default Null (as_object current ≫= obj_get key)) as ->.
    { unfold object_of. by destruct (as_object current). }
    intros (new & Hnew & [= <-])%bind_Some. exists new. split; [done|]. simpl.
    rewrite obj_get_insert_eq. split; [done|]. eexists. split; [done|].
    intros key' Hne. by apply obj_get_insert_ne.
  - intros (l & Hl & H)%bind_Some. destruct (resize_inv _ _ _ Hnn Hl) as [Hlen Hget].
    fold (updated rest value (default Null (l !! Z.to_nat index))) in H.
    rewrite (Hget (Z.to_nat index)) in H by lia. simpl in H.
    assert (default Null (array_of current !! Z.to_nat index)
            = default Null (as_array current ≫= fun l => l !! Z.to_nat index)) as Heq.
    { unfold array_of. by destruct (as_array current). }
    rewrite Heq in H. apply bind_Some in H as (new & Hnew & [= <-]). exists new. split; [done|]. simpl.
    rewrite list_lookup_insert_eq by lia. split; [done|]. eexists. split; [done|].
    rewrite length_insert. split; [done|]. intros j Hj. rewrite list_lookup_insert_ne by lia.
    apply Hget. lia.
Qed.

Lemma set_tokens_defined tokens current value :
  tokens <> [] -> Forall in_range tokens -> is_Some (set_tokens current tokens value).
Proof.
  revert current. induction tokens as [|token rest IH]; intros current Hne Hr; [done|].
  apply Forall_cons in Hr as [Ht Hr].
  assert (forall child, is_Some (updated rest value child)) as Hup.
  { intros child. unfold updated. destruct rest as [|next rest]; [done|]. by apply IH. }
  destruct token as [key|index]; cbn [set_tokens].
  - fold (updated rest value (default Null (obj_get key (object_of current)))).
    destruct (Hup (default Null (obj_get key (object_of current)))) as (new & ->). by eexists.
  - simpl in Ht. destruct (resize_spec (array_of current) index Ht) as (l & -> & _). simpl.
    fold (updated rest value (default Null (l !! Z.to_nat index))).
    destruct (Hup (default Null (l !! Z.to_nat index))) as (new & ->). by eexists.
Qed.

Lemma get_set_tokens tokens current value result :
  Forall index_nonneg tokens -> set_tokens current tokens value = Some result ->
  get_tokens result tokens = Some value.
Proof.
  revert current result. induction tokens as [|token rest IH]; intros current result Hnn Hs; [done|].
  apply Forall_cons in Hnn as [Ht Hnn].
  destruct (set_tokens_cons _ _ _ _ _ Ht Hs) as (new & Hnew & Hget & _).
  unfold get_tokens. simpl. rewrite Hget. simpl. unfold updated in Hnew.
  destruct rest as [|next rest]; [by injection Hnew as ->|]. by eapply IH.
Qed.

(** *** What a write leaves alone *)

Lemma get_container next child others :
  others <> [] -> get_tokens (container next child) others = get_tokens child others.
Proof.
  intros Hne. destruct others as [|t others]; [done|].
  destruct child, next, t; simpl; unfold get_tokens; simpl; done.
Qed.

(** The paths part at different keys, or at an index and an earlier or a later one. *)
Inductive parts (how : PathToken -> PathToken -> Prop) : list PathToken -> list PathToken -> Prop :=
| parts_here t u ts us : how t u -> parts how (t :: ts) (u :: us)
| parts_later t ts us : parts how ts us -> parts how (t :: ts) (t :: us).

Definition other_key (t u : PathToken) : Prop :=
  match t, u with Key k, Key k' => k <> k' | _, _ => False end.
Definition earlier (t u : PathToken) : Prop :=
  match t, u with Index i, Index j => 0 <= j < i | _, _ => False end.
Definition later (t u : PathToken) : Prop :=
  match t, u with Index i, Index j => i < j | _, _ => False end.

Lemma parts_nonempty how ts us : parts how ts us -> ts <> [] /\ us <> [].
Proof. by destruct 1. Qed.

Lemma get_tokens_child current token others :
  others <> [] ->
  get_tokens current (token :: others) = get_tokens (child_of current token) others.
Proof.
  intros Hne. unfold get_tokens, child_of. simpl. destruct (get_token current token); [done|].
  destruct others as [|[key|index] others]; done.
Qed.

(** One step of the three frame laws: the path goes on through the same token. *)
Lemma frame_step (P : option Value -> option Value -> Prop) current t ts us value result :
  index_nonneg t -> ts <> [] -> us <> [] ->
  set_tokens current (t :: ts) value = Some result ->
  (forall child new, set_tokens child ts value = Some new -> P (get_tokens child us) (get_tokens new us)) ->
  P (get_tokens current (t :: us)) (get_tokens result (t :: us)).
Proof.
  intros Ht Hts Hus Hs HP. destruct (set_tokens_cons _ _ _ _ _ Ht Hs) as (new & Hnew & Hget & _).
  rewrite get_tokens_child by done.
  assert (get_tokens result (t :: us) = get_tokens new us) as ->
    by (unfold get_tokens; simpl; by rewrite Hget).
  unfold updated in Hnew. destruct ts as [|next ts]; [done|].
  specialize (HP _ _ Hnew). by rewrite get_container in HP.
Qed.

Lemma frame_other_key ts us current value result :
  Forall index_nonneg ts -> parts other_key ts us -> set_tokens current ts value = Some result ->
  get_tokens result us = get_tokens current us.
Proof.
  intros Hnn Hp. revert current result.
  induction Hp as [t u ts us Hk|t ts us Hp IH]; intros current result Hs; apply Forall_cons in Hnn as [Ht Hnn].
  - destruct t as [k|], u as [k'|]; try done.
    destruct (set_tokens_cons _ _ _ _ _ Ht Hs) as (new & _ & _ & m & -> & Hm).
    unfold get_tokens. simpl. rewrite Hm by done. unfold object_of. by destruct (as_object current).
  - destruct (parts_nonempty _ _ _ Hp).
    apply (frame_step (fun a b => b = a) current t ts us value); try done. intros child new. by apply IH.
Qed.

Lemma frame_earlier ts us current value result x :
  Forall index_nonneg ts -> parts earlier ts us -> set_tokens current ts value = Some result ->
  get_tokens current us = Some x -> get_tokens result us = Some x.
Proof.
  intros Hnn Hp. revert current result.
  induction Hp as [t u ts us Hk|t ts us Hp IH]; intros current result Hs; apply Forall_cons in Hnn as [Ht Hnn].
  - destruct t as [|i], u as [|j]; try done. simpl in Hk.
    destruct (set_tokens_cons _ _ _ _ _ Ht Hs) as (new & _ & _ & l & -> & _ & Hl).
    unfold get_tokens. simpl. rewrite Hl by lia. unfold array_of.
    destruct (as_array current) as [l0|]; simpl; [|done]. by destruct (l0 !! Z.to_nat j).
  - destruct (parts_nonempty _ _ _ Hp).
    apply (frame_step (fun a b => a = Some x -> b = Some x) current t ts us value); try done.
    intros child new. by apply IH.
Qed.

Lemma lost_later ts us current value result :
  Forall index_nonneg ts -> parts later ts us -> set_tokens current ts value = Some result ->
  get_tokens result us = None.
Proof.
  intros Hnn Hp. revert current result.
  induction Hp as [t u ts us Hk|t ts us Hp IH]; intros current result Hs; apply Forall_cons in Hnn as [Ht Hnn].
  - destruct t as [|i], u as [|j]; try done. simpl in Hk.
    destruct (set_tokens_cons _ _ _ _ _ Ht Hs) as (new & _ & _ & l & -> & Hlen & _). simpl in Ht.
    unfold get_tokens. simpl. by rewrite lookup_ge_None_2 by lia.
  - destruct (parts_nonempty _ _ _ Hp).
    apply (frame_step (fun _ b => b = None) current t ts us value); try done. intros child new. by apply IH.
Qed.

(** *** Tokens of a path *)

Lemma parse_digits_range s acc n : 0 <= acc -> parse_digits acc s = Some n -> 0 <= n.
Proof.
  revert acc. induction s as [|a s IH]; intros acc Hacc; simpl; [by intros [= <-]|].
  unfold digit. destruct (_ && _) eqn:E; [|done]. simpl. apply andb_true_iff in E as [E _].
  destruct (_ <=? U64_MAX); [|done]. apply IH. lia.
Qed.

Lemma parse_usize_range s n : parse_usize s = Some n -> 0 <= n.
Proof.
  unfold parse_usize. destruct s as [|a s]; [done|]. destruct (Ascii.eqb a "+").
  - destruct s; [done|]. by apply parse_digits_range.
  - by apply parse_digits_range.
Qed.

Lemma segment_loop_nonneg fuel s : Forall index_nonneg (segment_loop fuel s).
Proof.
  revert s. induction fuel as [|fuel IH]; intros s; simpl; [constructor|].
  destruct s as [|a s]; [constructor|]. destruct (split_once _ _) as [[before after]|]; [|by repeat constructor].
  destruct (split_once _ after) as [[inside rest]|]; [|by repeat constructor].
  apply Forall_app. split; [destruct (decide _); by repeat constructor|].
  destruct (parse_usize inside) as [i|] eqn:E; [|by repeat constructor].
  apply Forall_cons. split; [by eapply parse_usize_range | apply IH].
Qed.

Lemma tokenize_nonneg path : Forall index_nonneg (tokenize_path path).
Proof.
  unfold tokenize_path. induction (split _ _) as [|s l IH]; simpl; [constructor|].
  apply Forall_app. split; [apply segment_loop_nonneg | done].
Qed.

Lemma set_path_tokens path doc value :
  tokenize_path path <> [] -> set_path doc path value = set_tokens doc (tokenize_path path) value.
Proof. unfold set_path. by destruct (tokenize_path path). Qed.

(** A value written through a path is read back through it: for every
    document, every path that names something and holds no index [usize::MAX], and
    every value, whatever objects and arrays the document has or lacks on the way,
    [set_path] does not panic and [get_path] then returns the value; the paths
    that part from it at another key read as before, those that part at an
    earlier element of an array keep the value they had, and those that part at a
    later element read nothing, since the array is cut to the element written. *)
Theorem set_path_correct document path value :
  tokenize_path path <> [] ->
  Forall in_range (tokenize_path path) ->
  exists result, set_path document path value = Some result /\
    get_path result path = Some value /\
    (forall other, parts other_key (tokenize_path path) (tokenize_path other) ->
       get_path result other = get_path document other) /\
    (forall other x, parts earlier (tokenize_path path) (tokenize_path other) ->
       get_path document other = Some x -> get_path result other = Some x) /\
    (forall other, parts later (tokenize_path path) (tokenize_path other) ->
       get_path result other = None).
Proof.
  intros Hne Hr. destruct (set_tokens_defined _ document value Hne Hr) as (result & Hs).
  pose proof (tokenize_nonneg path) as Hnn. exists result. rewrite set_path_tokens by done.
  unfold get_path. split; [done|]. split; [by eapply get_set_tokens|].
  split; [|split]; intros; [by eapply frame_other_key | by eapply frame_earlier | by eapply lost_later].
Qed.

(** ** Projection *)

(** The paths part at a key, pairwise. *)
Inductive apart : list string -> Prop :=
| apart_nil : apart []
| apart_cons path paths :
    Forall (fun other => parts other_key (tokenize_path path) (tokenize_path other)) paths ->
    apart paths -> apart (path :: paths).

Definition writable (path : string) : Prop :=
  tokenize_path path <> [] /\ Forall in_range (tokenize_path path).

Lemma parts_sym ts us : parts other_key ts us -> parts other_key us ts.
Proof.
  induction 1 as [t u ts us Hk|]; constructor; [|done]. destruct t, u; simpl in *; congruence.
Qed.

Lemma project_loop document paths output :
  apart paths -> Forall writable paths ->
  exists result, foldM (project_step document) output paths = Some result /\
    (forall path, path ∈ paths -> forall value, get_path document path = Some value ->
       get_path result path = Some value) /\
    (forall path, path ∈ paths -> get_path document path = None ->
       get_path result path = get_path output path) /\
    (forall other, Forall (fun path => parts other_key (tokenize_path path) (tokenize_path other)) paths ->
       get_path result other = get_path output other).
Proof.
  intros Ha. revert output. induction Ha as [|path paths Hp Ha IH]; intros output Hw.
  { exists output. split; [done|]. split; [intros ? ?%elem_of_nil; done|]. split; [|done].
    intros ? ?%elem_of_nil. done. }
  apply Forall_cons in Hw as [[Hne Hr] Hw].
  assert (exists output', project_step document output path = Some output' /\
    (forall value, get_path document path = Some value -> get_path output' path = Some value) /\
    (get_path document path = None -> output' = output) /\
    (forall other, parts other_key (tokenize_path path) (tokenize_path other) ->
       get_path output' other = get_path output other)) as (output' & Hstep & Hv & Hn & Hf).
  { unfold project_step. destruct (get_path document path) as [v|]; [|by exists output].
    destruct (set_tokens_defined _ output v Hne Hr) as (r & Hs). exists r.
    rewrite set_path_tokens by done. split; [done|]. pose proof (tokenize_nonneg path).
    split; [|split; [done|]].
    - intros v' [= <-]. by eapply get_set_tokens.
    - intros other Ho. by eapply frame_other_key. }
  destruct (IH output' Hw) as (result & Hr' & Hget & Hnone & Hother).
  assert (Forall (fun p => parts other_key (tokenize_path p) (tokenize_path path)) paths) as Hp'
    by (eapply Forall_impl; [exact Hp|]; intros p; apply parts_sym).
  exists result. cbn [foldM]. rewrite Hstep. simpl. split; [done|]. split; [|split].
  - intros p [->|Hin]%elem_of_cons v Hg; [|by apply Hget]. rewrite Hother by done. by apply Hv.
  - intros p [->|Hin]%elem_of_cons Hg; [rewrite Hother by done; by rewrite Hn|].
    rewrite Hnone by done. apply Hf. rewrite Forall_forall in Hp. by apply Hp.
  - intros other Ho. apply Forall_cons in Ho as [Ho Hos]. rewrite Hother by done. by apply Hf.
Qed.

(** A projection shows the document through the paths asked for, and nothing
    else: for paths that part from each other at a key, [project] does not panic,
    every path reads in the projection what it reads in the document, also when
    that is nothing, and a path that parts at a key from all of them reads
    nothing; without paths the projection is the document. *)
Theorem project_correct document paths :
  apart paths -> Forall writable paths ->
  exists result, project document paths = Some result /\
    (paths = [] -> result = document) /\
    (paths <> [] ->
     (forall path, path ∈ paths -> get_path result path = get_path document path) /\
     (forall other, tokenize_path other <> [] ->
        Forall (fun path => parts other_key (tokenize_path path) (tokenize_path other)) paths ->
        get_path result other = None)).
Proof.
  intros Ha Hw. destruct paths as [|path paths]; [by exists document|].
  destruct (project_loop document (path :: paths) (Object []) Ha Hw) as (result & Hr & Hg & Hn & Ho).
  assert (forall p, tokenize_path p <> [] -> get_path (Object []) p = None) as Hempty.
  { intros p Hp. unfold get_path, get_tokens. by destruct (tokenize_path p) as [|[] ?]. }
  exists result. split; [done|]. split; [done|]. intros _. split.
  - intros p Hin. destruct (get_path document p) as [v|] eqn:E; [by apply Hg|].
    rewrite (Hn p Hin E). apply Hempty. rewrite Forall_forall in Hw. by apply (Hw p Hin).
  - intros other Hne Hparts. rewrite Ho by done. by apply Hempty.
Qed.

(** ** Filters *)

Definition clause (document : Value) (kc : string * Value) : bool :=
  matches_value document (Object [kc]).

(** A filter on one path. *)
Definition on (path operator : string) (argument : Value) : Value :=
  Object [(path, Object [(operator, argument)])].

Definition plain (path : string) : Prop :=
  path <> "$and"%string /\ path <> "$or"%string /\ path <> "$nor"%string /\ path <> "$not"%string.

Lemma matches_value_object document m :
  matches_value document (Object m) = forallb (clause document) m.
Proof.
  unfold clause. cbn [matches_value]. induction m as [|kc m IH]; [done|]. cbn [forallb].
  by rewrite IH, andb_true_r.
Qed.

Lemma clause_and document filters :
  clause document ("$and"%string, Array filters) = forallb (matches_value document) filters.
Proof. unfold clause. simpl. apply andb_true_r. Qed.

Lemma clause_or document filters :
  clause document ("$or"%string, Array filters) = existsb (matches_value document) filters.
Proof. unfold clause. simpl. apply andb_true_r. Qed.

Lemma clause_nor document filters :
  clause document ("$nor"%string, Array filters)
  = negb (existsb (matches_value document) filters).
Proof.
  unfold clause. simpl. rewrite andb_true_r.
  induction filters as [|x filters IH]; simpl; [done|]. by rewrite IH, negb_orb.
Qed.

Lemma clause_not document filter :
  clause document ("$not"%string, filter) = negb (matches_value document filter).
Proof. unfold clause. simpl. apply andb_true_r. Qed.

Lemma matches_value_filter document filter :
  matches_value document filter = matches_filter document (as_object filter).
Proof. by destruct filter. Qed.

Lemma matches_on document path operator argument :
  plain path ->
  matches_value document (on path operator argument)
  = matches_operator (get_path document path) operator argument.
Proof.
  intros (?&?&?&?). unfold on. cbn [matches_value forallb]. rewrite !decide_False by done.
  unfold matches_condition. simpl. by rewrite !andb_true_r.
Qed.

Lemma string_compare_refl s : String.compare s s = Eq.
Proof. induction s as [|a s IH]; simpl; [done|]. unfold Ascii.compare. by rewrite N.compare_refl. Qed.

Lemma string_compare_eqb x y :
  String.eqb x y = match String.compare x y with Eq => true | _ => false end.
Proof.
  destruct (String.compare x y) eqn:E.
  - apply String.compare_eq_iff in E as ->. apply String.eqb_refl.
  - apply String.eqb_neq. intros ->. by rewrite string_compare_refl in E.
  - apply String.eqb_neq. intros ->. by rewrite string_compare_refl in E.
Qed.

(** Equality with a number or a string is the comparison coming out equal. *)
Lemma equal_compare left right :
  (forall n, is_Some (number_as_f64 n)) ->
  is_Some (as_f64 right) \/ is_Some (as_str right) ->
  values_equal left right = match compare_values left right with Some Eq => true | _ => false end.
Proof.
  intros Hnum Hright. destruct left as [l|]; [|done]. unfold values_equal, compare_values. simpl.
  destruct right as [| |n|s| |]; simpl in *; try by destruct Hright as [[]|[]].
  - destruct (Hnum n) as (y & ->). destruct l as [| |m| | |]; simpl; try done.
    by destruct (Hnum m) as (x & ->).
  - destruct l as [| |m|s'| |]; simpl; try done; [by destruct (number_as_f64 m)|].
    apply string_compare_eqb.
Qed.

(** The filter language means what its operators say, for every document:
    no filter and the empty filter match; members are conjoined; [$and], [$or],
    [$nor] and [$not] are the boolean operations on the filters they hold; [$ne]
    and [$nin] negate [$eq] and [$in]; [$in] is an [$or] of equalities; and, for a
    number or a string, [$gte] is [$gt] or [$eq] and [$lte] is [$lt] or [$eq]. *)
Theorem filter_laws document path f g filters argument items :
  (forall n, is_Some (number_as_f64 n)) ->
  plain path ->
  matches_filter document None = true /\ matches_filter document (Some []) = true /\
  matches_filter document (Some (f ++ g)) = matches_filter document (Some f) && matches_filter document (Some g) /\
  matches_filter document (Some [("$and"%string, Array filters)])
    = forallb (fun f => matches_filter document (as_object f)) filters /\
  matches_filter document (Some [("$or"%string, Array filters)])
    = existsb (fun f => matches_filter document (as_object f)) filters /\
  matches_filter document (Some [("$nor"%string, Array filters)])
    = negb (matches_filter document (Some [("$or"%string, Array filters)])) /\
  matches_filter document (Some [("$not"%string, Object f)]) = negb (matches_filter document (Some f)) /\
  matches_value document (on path "$ne" argument) = negb (matches_value document (on path "$eq" argument)) /\
  matches_value document (on path "$in" (Array items))
    = matches_filter document (Some [("$or"%string, Array (map (on path "$eq") items))]) /\
  matches_value document (on path "$nin" (Array items))
    = negb (matches_value document (on path "$in" (Array items))) /\
  (is_Some (as_f64 argument) \/ is_Some (as_str argument) ->
   matches_value document (on path "$gte" argument)
     = matches_value document (on path "$gt" argument) || matches_value document (on path "$eq" argument) /\
   matches_value document (on path "$lte" argument)
     = matches_value document (on path "$lt" argument) || matches_value document (on path "$eq" argument)).
Proof.
  intros Hnum Hp. unfold matches_filter. rewrite !(matches_value_object document).
  rewrite forallb_app, !matches_on by done. cbn [forallb].
  rewrite !andb_true_r, clause_and, clause_or, clause_nor, clause_not, clause_or, matches_value_object.
  assert (forall l, forallb (matches_value document) l
    = forallb (fun f => matches_filter document (as_object f)) l) as Hall.
  { intros l. induction l as [|x l IH]; simpl; [done|]. by rewrite IH, matches_value_filter. }
  assert (forall l, existsb (matches_value document) l
    = existsb (fun f => matches_filter document (as_object f)) l) as Hex.
  { intros l. induction l as [|x l IH]; simpl; [done|]. by rewrite IH, matches_value_filter. }
  do 3 (split; [done|]). split; [apply Hall|]. split; [apply Hex|]. do 3 (split; [done|]).
  split; [|split].
  - induction items as [|x items IH]; [done|]. cbn [map existsb]. rewrite <- IH, matches_on by done. done.
  - unfold matches_operator. simpl. induction items as [|x items IH]; simpl; [done|]. by rewrite IH, negb_orb.
  - intros Ha. pose proof (equal_compare (get_path document path) argument Hnum Ha) as Heq.
    unfold matches_operator. simpl. rewrite Heq. by destruct (compare_values _ _) as [[]|].
Qed.

(** ** Rendered paths *)

#[local] Arguments String.append (s1 s2)%_string_scope : simpl nomatch.

(** A segment of a path: a name, perhaps empty, and numerals in brackets. *)
Record Segment := mk_Segment { name : string; numerals : list string }.

Definition bracketed (numeral : string) : string :=
  String "["%char (numeral ++ String "]"%char EmptyString)%string.

Definition render_numerals (numerals : list string) : string :=
  fold_right (fun n s => (bracketed n ++ s)%string) EmptyString numerals.

Definition render_segment (s : Segment) : string := (name s ++ render_numerals (numerals s))%string.

Definition render (path : list Segment) : string := String.concat "." (map render_segment path).

(** What a segment means. *)
Definition segment_value (s : Segment) : list PathToken :=
  (if decide (name s = EmptyString) then [] else [Key (name s)]) ++
  map Index (omap parse_usize (numerals s)).

Definition segment_ok (s : Segment) : Prop :=
  split_once "["%char (name s) = None /\ split_once "."%char (name s) = None /\
  Forall (fun n => is_Some (parse_usize n)) (numerals s).

Lemma split_once_app c s t :
  split_once c s = None -> split_once c (s ++ String c t)%string = Some (s, t).
Proof.
  induction s as [|a s IH]; simpl; [by rewrite Ascii.eqb_refl|].
  destruct (Ascii.eqb a c); [done|]. destruct (split_once c s) as [[]|]; [done|]. intros _.
  by rewrite IH.
Qed.

Lemma split_once_none_app c s t :
  split_once c s = None -> split_once c t = None -> split_once c (s ++ t)%string = None.
Proof.
  induction s as [|a s IH]; simpl; [done|]. destruct (Ascii.eqb a c); [done|].
  destruct (split_once c s) as [[]|]; [done|]. intros _ Ht. by rewrite IH.
Qed.

Lemma string_app_assoc s t u : ((s ++ t) ++ u)%string = (s ++ t ++ u)%string.
Proof. induction s as [|a s IH]; simpl; [done|]. by rewrite IH. Qed.

(** A numeral holds none of the delimiters. *)
Lemma digits_without c acc s n :
  digit c = None -> parse_digits acc s = Some n -> split_once c s = None.
Proof.
  intros Hc. revert acc. induction s as [|a s IH]; intros acc; simpl; [done|].
  destruct (Ascii.eqb_spec a c) as [->|_]; [by rewrite Hc|].
  intros (d & _ & Hd)%bind_Some. destruct (_ <=? U64_MAX); [|done]. by rewrite (IH _ Hd).
Qed.

Lemma numeral_without c s :
  digit c = None -> c <> "+"%char -> is_Some (parse_usize s) -> split_once c s = None.
Proof.
  intros Hc Hp [n Hn]. unfold parse_usize in Hn. destruct s as [|a s]; [done|].
  destruct (Ascii.eqb_spec a "+") as [->|].
  - cbn [split_once]. destruct (Ascii.eqb_spec "+" c); [done|].
    destruct s as [|b s]; [done|]. by rewrite (digits_without c 0 (String b s) n).
  - by eapply digits_without.
Qed.

Lemma length_string_app s t : String.length (s ++ t)%string = (String.length s + String.length t)%nat.
Proof. induction s as [|a s IH]; simpl; [done|]. by rewrite IH. Qed.

Lemma numerals_loop fuel l :
  (String.length (render_numerals l) < fuel)%nat ->
  Forall (fun n => is_Some (parse_usize n)) l ->
  segment_loop fuel (render_numerals l) = map Index (omap parse_usize l).
Proof.
  revert fuel. induction l as [|n l IH]; intros fuel Hf Hl; [by destruct fuel|].
  apply Forall_cons in Hl as [Hn Hl]. destruct fuel as [|fuel]; [lia|].
  change (render_numerals (n :: l)) with (bracketed n ++ render_numerals l)%string in *.
  rewrite length_string_app in Hf. unfold bracketed in *. cbn [String.append String.length] in *.
  cbn [segment_loop split_once]. cbn [Ascii.eqb Bool.eqb]. rewrite string_app_assoc. cbn [String.append].
  rewrite split_once_app by (by apply numeral_without).
  rewrite decide_True by done. destruct Hn as [i Hi]. cbn [app omap list_omap map]. rewrite Hi. cbn [map].
  f_equal. apply IH; [|done]. rewrite length_string_app in Hf. lia.
Qed.

Lemma segment_tokens_render s : segment_ok s -> segment_tokens (render_segment s) = segment_value s.
Proof.
  intros (Hb & _ & Hn). unfold segment_tokens, segment_value, render_segment.
  destruct (name s) as [|a nm] eqn:En.
  { rewrite decide_True by done. apply numerals_loop; [simpl; lia|done]. }
  rewrite decide_False by done. destruct (numerals s) as [|n l] eqn:El.
  - simpl. assert (nm ++ "" = nm)%string as -> by (clear; induction nm as [|b nm IH]; simpl; [done|by rewrite IH]).
    simpl in Hb. destruct (Ascii.eqb a "["); [done|]. by destruct (split_once "[" nm) as [[]|].
  - apply Forall_cons in Hn as [[i Hi] Hn].
    set (t := (n ++ String "]" (render_numerals l))%string).
    assert (render_numerals (n :: l) = String "["%char t) as ->.
    { change (render_numerals (n :: l)) with (bracketed n ++ render_numerals l)%string.
      unfold bracketed. cbn [String.append]. by rewrite string_app_assoc. }
    assert (String.length (render_numerals l) < String.length (String a nm ++ String "[" t))%nat as Hf.
    { subst t. rewrite length_string_app. cbn [String.length]. rewrite length_string_app.
      cbn [String.length]. lia. }
    revert Hf. generalize (String.length (String a nm ++ String "[" t)). intros fuel Hf.
    cbn [segment_loop]. rewrite (split_once_app _ _ t Hb).
    change (String a nm ++ String "[" t)%string with (String a (nm ++ String "[" t))%string. cbn iota.
    subst t. rewrite split_once_app by (apply numeral_without; [done|done|by eexists]).
    rewrite decide_False by done. cbn [app omap list_omap map]. rewrite Hi. cbn [map]. f_equal. f_equal.
    by apply numerals_loop.
Qed.

Lemma render_without_dot s : segment_ok s -> split_once "."%char (render_segment s) = None.
Proof.
  intros (_ & Hd & Hn). apply split_once_none_app; [done|]. clear Hd.
  induction Hn as [|n l Hn _ IH]; [done|].
  change (render_numerals (n :: l)) with (bracketed n ++ render_numerals l)%string.
  apply split_once_none_app; [|done]. unfold bracketed. cbn [split_once]. cbn [Ascii.eqb Bool.eqb].
  by rewrite (split_once_none_app "." n "]") by (try done; by apply numeral_without).
Qed.

Lemma split_app s t : split_once "."%char s = None -> split "."%char (s ++ String "." t)%string = s :: split "." t.
Proof.
  induction s as [|a s IH]; simpl; [done|]. destruct (Ascii.eqb a "."); [done|].
  destruct (split_once "." s) as [[]|]; [done|]. intros _. by rewrite IH.
Qed.

Lemma split_none s : split_once "."%char s = None -> split "."%char s = [s].
Proof.
  induction s as [|a s IH]; simpl; [done|]. destruct (Ascii.eqb a "."); [done|].
  destruct (split_once "." s) as [[]|]; [done|]. intros _. by rewrite IH.
Qed.

(** Paths are read as they are written: a path rendered from segments, each a
    name without dots and brackets (or none) followed by numerals in brackets,
    tokenizes to the keys and indices of the segments in order, whatever their
    number, and [get_path] follows exactly them. *)
Theorem tokenize_rendered segments document :
  Forall segment_ok segments ->
  tokenize_path (render segments) = concat (map segment_value segments) /\
  get_path document (render segments) = get_tokens document (concat (map segment_value segments)).
Proof.
  intros Hok.
  assert (tokenize_path (render segments) = concat (map segment_value segments)) as Heq;
    [|by unfold get_path; rewrite Heq].
  unfold tokenize_path, render. induction Hok as [|s l Hs Hl IH]; [done|].
  cbn [map concat]. rewrite <- IH, <- (segment_tokens_render s Hs). destruct l as [|s' l].
  - simpl. by rewrite split_none by (by apply render_without_dot).
  - change (String.concat "." (render_segment s :: map render_segment (s' :: l)))
      with (render_segment s ++ "." ++ String.concat "." (map render_segment (s' :: l)))%string.
    cbn [String.append]. by rewrite split_app by (by apply render_without_dot).
Qed.
End query.

(** ** Examples: numbers that are integers *)

Section examples.
#[local] Open Scope string_scope.

Definition int_as_f64 (n : Z) : option spec_float := Some (binary_normalize 53 1024 n 0 false).

Let document : Value (Number := Z) :=
  Object [("a", Array [Num 1; Num 2; Num 3]); ("b", Bool true)].

Lemma set_path_correct_witness :
  exists result, set_path document "a[1]" (Str "x") = Some result /\
    get_path result "a[1]" = Some (Str "x") /\ get_path result "b" = Some (Bool true) /\
    get_path result "a[0]" = Some (Num 1) /\
    get_path document "a[2]" = Some (Num 3) /\ get_path result "a[2]" = None.
Proof.
  destruct (set_path_correct document "a[1]" (Str "x")) as (r & Hs & Hg & Hk & He & Hl).
  - vm_compute. discriminate.
  - replace (tokenize_path "a[1]") with [Key "a"; Index 1] by (vm_compute; reflexivity).
    repeat (apply Forall_cons; split); [done|by vm_compute|constructor].
  - exists r. split; [exact Hs|]. split; [exact Hg|]. split; [|split; [|split]].
    + apply (Hk "b"). apply parts_here. vm_compute. discriminate.
    + apply (He "a[0]"); [|vm_compute; reflexivity]. apply parts_later, parts_here. vm_compute. split; congruence.
    + vm_compute. reflexivity.
    + apply Hl. apply parts_later, parts_here. vm_compute. reflexivity.
Defined.

Lemma project_correct_witness :
  exists result, project document ["b"; "c"] = Some result /\
    get_path result "b" = Some (Bool true) /\ get_path result "c" = None /\ get_path result "a" = None.
Proof.
  destruct (project_correct document ["b"; "c"]) as (r & Hr & _ & Hg).
  - apply apart_cons; [|apply apart_cons; [constructor|constructor]].
    apply Forall_cons. split; [|constructor]. apply parts_here. vm_compute. discriminate.
  - repeat (apply Forall_cons; split); [..|constructor]; (split; [vm_compute; discriminate|]).
    + replace (tokenize_path "b") with [Key "b"] by (vm_compute; reflexivity). by repeat constructor.
    + replace (tokenize_path "c") with [Key "c"] by (vm_compute; reflexivity). by repeat constructor.
  - destruct (Hg ltac:(discriminate)) as [Hp Ho]. exists r. split; [exact Hr|].
    split; [|split].
    + rewrite (Hp "b") by (left). vm_compute. reflexivity.
    + rewrite (Hp "c") by (right; left). vm_compute. reflexivity.
    + apply Ho; [vm_compute; discriminate|].
      apply Forall_cons; split; [|apply Forall_cons; split; [|constructor]];
        apply parts_here; vm_compute; discriminate.
Defined.

Lemma tokenize_rendered_witness :
  tokenize_path "profile.items[1][20].name" = [Key "profile"; Key "items"; Index 1; Index 20; Key "name"].
Proof.
  apply (tokenize_rendered (Number := Z)
    [mk_Segment "profile" []; mk_Segment "items" ["1"; "20"]; mk_Segment "name" []] document).
  repeat (apply Forall_cons; split); [..|constructor];
    (split; [reflexivity|split; [reflexivity|]]); repeat (apply Forall_cons; split);
    try (by eexists); constructor.
Defined.

Lemma filter_laws_witness :
  matches_value int_as_f64 Z.eqb (fun _ _ _ _ _ => None) document (on "a[1]" "$gte" (Num 2)) = true /\
  matches_value int_as_f64 Z.eqb (fun _ _ _ _ _ => None) document (on "b" "$nin" (Array [Bool true])) = false.
Proof.
  assert (forall n, is_Some (int_as_f64 n)) as Hnum by (intros n; by eexists).
  assert (forall p, bool_decide (p = "$and" \/ p = "$or" \/ p = "$nor" \/ p = "$not") = false -> plain p) as Hplain.
  { intros p Hp%bool_decide_eq_false. unfold plain. tauto. }
  split.
  - destruct (filter_laws int_as_f64 Z.eqb (fun _ _ _ _ _ => None) document "a[1]" [] [] [] (Num 2) []
      Hnum (Hplain "a[1]" eq_refl)) as (_ & _ & _ & _ & _ & _ & _ & _ & _ & _ & H).
    destruct (H ltac:(left; by eexists)) as [Hgte _]. rewrite Hgte. vm_compute. reflexivity.
  - destruct (filter_laws int_as_f64 Z.eqb (fun _ _ _ _ _ => None) document "b" [] [] [] Null [Bool true]
      Hnum (Hplain "b" eq_refl)) as (_ & _ & _ & _ & _ & _ & _ & _ & _ & Hnin & _).
    rewrite Hnin. vm_compute. reflexivity.
Defined.
End examples.
End Query.
