(* ===== verification/ValueReader.v ===== *)
(** * Reading values from the files ([crates/minidb/src/value_reader.rs])

    Two open handles, each the contents of the file it was opened on, and the
    positioned read.  Handles keep the file they were opened on when the name is
    given to another; a file that does not exist leaves its slot empty.  I/O
    errors and the poisoning of the locks are left out. *)

From S2P Require Import Prelude.
From S2P Require Import Store.

Module ValueReader.

Inductive ValueReaderError :=
| NotOpen (file : string)
| ShortRead (file : string) (offset : Z).

Record PositionedValueReader := mk_PositionedValueReader {
  snapshot : option bytes;
  wal : option bytes;
}.

Definition new : PositionedValueReader := mk_PositionedValueReader None None.

(** [open], over the contents of the two files now; [open_if_exists] is the slot. *)
Definition open (snapshot wal : option bytes) (self : PositionedValueReader) : PositionedValueReader :=
  mk_PositionedValueReader snapshot wal.

Definition reopen_snapshot (file : option bytes) (self : PositionedValueReader) : PositionedValueReader :=
  mk_PositionedValueReader file (wal self).

Definition reopen_wal (file : option bytes) (self : PositionedValueReader) : PositionedValueReader :=
  mk_PositionedValueReader (snapshot self) file.

Definition reopen_both (snapshot wal : option bytes) (self : PositionedValueReader) : PositionedValueReader :=
  reopen_wal wal (reopen_snapshot snapshot self).

Definition close (self : PositionedValueReader) : PositionedValueReader := mk_PositionedValueReader None None.

(** A [read] gives at most what is left of the file, and nothing past its end. *)
Definition file_read (file : bytes) (position len : Z) : bytes :=
  if zlen file <=? position then [] else slice file position (Z.min (zlen file) (position + len)).

Fixpoint read_loop (fuel : nat) (file : bytes) (name : string) (offset len : Z) (output : bytes)
    : result ValueReaderError bytes :=
  match fuel with
  | O => Ok output
  | S fuel =>
      if zlen output <? len then
        let chunk := file_read file (offset + zlen output) (len - zlen output) in
        if decide (chunk = []) then Err (ShortRead name (offset + zlen output))
        else read_loop fuel file name offset len (output ++ chunk)
      else Ok output
  end.

Definition read (location : Store.ValueLoc) (self : PositionedValueReader)
    : result ValueReaderError bytes :=
  let len := Store.loc_len location in
  if len =? 0 then Ok []
  else
    let '(slot, name) := match Store.loc_file location with
                         | Store.Snapshot => (snapshot self, "snapshot"%string)
                         | Store.Wal => (wal self, "wal"%string)
                         end in
    file ← ok_or (NotOpen name) slot;
    read_loop (S (S (Z.to_nat len))) file name (Store.loc_offset location) len [].

Lemma read_loop_whole fuel file name offset len output :
  0 <= offset -> 0 <= len -> offset + len <= zlen file -> (1 < fuel)%nat ->
  output = [] -> len <> 0 ->
  read_loop fuel file name offset len output = Ok (slice file offset (offset + len)).
Proof.
  intros Ho Hl Hle Hf -> Hne. destruct fuel as [|[|fuel]]; [lia..|]. cbn [read_loop].
  rewrite zlen_nil, Z.add_0_r, Z.sub_0_r. destruct (Z.ltb_spec 0 len); [|lia].
  unfold file_read. destruct (Z.leb_spec (zlen file) offset); [lia|].
  rewrite Z.min_r by lia. pose proof (zlen_slice file offset (offset + len) ltac:(lia) ltac:(lia)) as Hz.
  destruct (decide (slice file offset (offset + len) = [])) as [E|_];
    [apply zlen_0 in E; lia|]. cbn [app].
  rewrite Hz. by destruct (Z.ltb_spec (offset + len - offset) len); [lia|].
Qed.

(** A value that lies whole in its file is read back. *)
Lemma read_in self location file :
  match Store.loc_file location with Store.Snapshot => snapshot self | Store.Wal => wal self end = Some file ->
  0 <= Store.loc_offset location -> 0 <= Store.loc_len location ->
  Store.loc_offset location + Store.loc_len location <= zlen file ->
  read location self =
    Ok (slice file (Store.loc_offset location) (Store.loc_offset location + Store.loc_len location)).
Proof.
  intros Hfile Ho Hl Hle. unfold read. destruct (Z.eqb_spec (Store.loc_len location) 0) as [E|Hne].
  { by rewrite E, Z.add_0_r, slice_empty. }
  destruct (Store.loc_file location); rewrite Hfile; simpl_bind; cbn [ok_or]; simpl_bind;
    (apply read_loop_whole; [done..|lia|done|done]).
Qed.

End ValueReader.
