(* ===== verification/Compaction.v ===== *)
(** * Compaction ([crates/minidb/src/compaction.rs])

    A compaction writes the live entries to a new snapshot, copies the part of the
    log written since it began to a new log, first while writers go on and then,
    with the rotation gate held, to the end, puts both files in place and moves
    the locations of the store.  [run_compaction] is cut at its await points: a
    [Phase] holds its local variables, [run_step] is the code from one point to
    the next and [on_error] its error path.  Between two points other tasks take the
    steps of a write, while the gate is open, and drop expired records
    ([CompactionFacts.step]).  A file that does not exist counts as an empty one.
    [wal_file] is what has been flushed, taken to be in the file, and its length the
    size of the log: bytes [tokio] still holds back when a flush ends ([Wal]) and
    frames queued between a flush and the reading of the size are left out, and are
    findings.  Renaming is atomic; statistics are counted where the code counts
    them. *)

From Corelib Require Import SpecFloat.
From S2P Require Import Prelude.
From S2P Require Import Crc.
From S2P Require Import Codec.
From S2P Require Import OrdIndex.
From S2P Require Import Store.
From S2P Require Import ValueReader.
From S2P Require Import Snapshot.

Module Compaction.

Definition COPY_CHUNK : Z := Z.shiftl 1 20.
Definition SMALL_DELTA : Z := 64 * 1024.
Definition MAX_PRECOPY_PASSES : Z := 5.
(** [0.7] as a 64-bit float. *)
Definition CONVERGE_RATIO : spec_float := S754_finite false 6305039478318694 (-53).

Record CompactionStats := mk_CompactionStats {
  compactions : Z;
  snapshot_bytes_written : Z;
  compact_errors : Z;
}.

Record RunState := mk_RunState { running : bool; generation : Z; last_error : option string }.

Inductive CompactionError :=
| InvalidInput (end_ start : Z)
| SnapshotFailed (e : Snapshot.SnapshotError)
| StoreFailed (e : Store.StoreError)
| Hook (message : string)
| Concurrent (message : string).

(** ** Copying a range of a file *)

Fixpoint copy_loop (fuel : nat) (source : bytes) (position end_ : Z) (destination : bytes) : bytes :=
  match fuel with
  | O => destination
  | S fuel =>
      if position <? end_ then
        let length := Z.min (end_ - position) COPY_CHUNK in
        let chunk := ValueReader.file_read source position length in
        if decide (chunk = []) then destination
        else copy_loop fuel source (position + zlen chunk) end_ (destination ++ chunk)
      else destination
  end.

(** The new contents of the destination. *)
Definition copy_file_range (source : bytes) (destination : option bytes) (start end_ : Z) (append : bool)
    : result CompactionError bytes :=
  if end_ <? start then Err (InvalidInput end_ start)
  else
    let destination := if append then default [] destination else [] in
    if start <? end_ then Ok (copy_loop (S (length source)) source start end_ destination)
    else Ok destination.

(** ** One compaction at a time *)

Inductive Entered := Enters (state : RunState) | Waits (generation : Z).

(** [compact] up to the run, or up to the wait for the run of another task. *)
Definition compact_enter (state : RunState) : Entered :=
  if running state then Waits (generation state)
  else Enters (mk_RunState true (generation state) (last_error state)).

(** After the wait: [None] when it has to try again. *)
Definition compact_woken (generation' : Z) (state : RunState) : option (result CompactionError ()) :=
  if generation state =? generation' then None
  else Some (match last_error state with None => Ok () | Some error => Err (Concurrent error) end).

(** The end of the run; [error] is the text of its error. *)
Definition compact_leave (error : option string) (state : RunState) (stats : CompactionStats)
    : RunState * CompactionStats :=
  (mk_RunState false ((generation state + 1) `mod` 2 ^ 64) error,
   match error with
   | None => mk_CompactionStats (compactions stats + 1) (snapshot_bytes_written stats) (compact_errors stats)
   | Some _ => mk_CompactionStats (compactions stats) (snapshot_bytes_written stats) (compact_errors stats + 1)
   end).

(** ** The run *)

Record CompactionTarget (T : Type) := mk_CompactionTarget {
  snapshot_file : bytes;
  wal_file : bytes;
  temporary_snapshot : option bytes;
  temporary_wal : option bytes;
  value_reader : option ValueReader.PositionedValueReader;
  store : Store.Store T;
  stats : CompactionStats;
}.
Arguments mk_CompactionTarget {T}. Arguments snapshot_file {T}. Arguments wal_file {T}.
Arguments temporary_snapshot {T}. Arguments temporary_wal {T}. Arguments value_reader {T}.
Arguments store {T}. Arguments stats {T}.

(** The local variables at an await point of [run_compaction]. *)
Inductive Phase :=
| Idle
| Flushed (base_offset : Z)
| PreCopy (base_offset : Z) (locations : gmap bytes Store.ValueLoc) (copied_up_to : Z) (appended : bool)
    (previous_gap : Z) (pass : Z)
| Sealed (base_offset : Z) (locations : gmap bytes Store.ValueLoc) (copied_up_to : Z) (appended : bool)
| Closed (base_offset : Z) (locations : gmap bytes Store.ValueLoc)
| SnapshotReplaced (base_offset : Z) (locations : gmap bytes Store.ValueLoc)
| Rotated (base_offset : Z) (locations : gmap bytes Store.ValueLoc)
| Remapped.

(** Whether writers may take the rotation gate. *)
Definition gate_open (phase : Phase) : bool :=
  match phase with Idle | Flushed _ | PreCopy _ _ _ _ _ _ => true | _ => false end.

(** [gap as f64 > previous_gap as f64 * CONVERGE_RATIO]. *)
Definition slow (gap previous_gap : Z) : bool :=
  let f n := binary_normalize 53 1024 n 0 false in
  SFltb (SFmul 53 1024 (f previous_gap) CONVERGE_RATIO) (f gap).

Section run.
Context `{Crc32fast}.
Context {T : Type} `{!OrdIndex.OrderedIndex T bytes bytes}.
(** The metadata of an entry as JSON, and the text of an error of the reader. *)
Context (dt_json : Store.Datetimes -> option bytes).
Context (error_text : ValueReader.ValueReaderError -> string).
Implicit Types target : CompactionTarget T.

(** The [read_value] the store was given. *)
Definition read_value target : option (Store.ValueLoc -> result Store.StoreError bytes) :=
  (fun reader location =>
     match ValueReader.read location reader with
     | Ok value => Ok value
     | Err e => Err (Store.Read (error_text e))
     end) <$> value_reader target.

Definition with_wal (target : CompactionTarget T) (wal : bytes) (reader : option ValueReader.PositionedValueReader)
    (store : Store.Store T) : CompactionTarget T :=
  mk_CompactionTarget (snapshot_file target) wal (temporary_snapshot target) (temporary_wal target)
    reader store (stats target).

Definition with_temporary_wal target (file : bytes) : CompactionTarget T :=
  mk_CompactionTarget (snapshot_file target) (wal_file target) (temporary_snapshot target) (Some file)
    (value_reader target) (store target) (stats target).

(** The live view and its snapshot, in the temporary file. *)
Definition take_snapshot (now : Z) target : result CompactionError (CompactionTarget T * Snapshot.SnapshotResult) :=
  match Store.entries (read_value target) now (store target) with
  | Err e => Err (StoreFailed e)
  | Ok entries =>
      match Snapshot.write_snapshot_entries dt_json entries with
      | Err e => Err (SnapshotFailed e)
      | Ok (file, snapshot) =>
          let s := stats target in
          Ok (mk_CompactionTarget (snapshot_file target) (wal_file target) (Some file)
                (temporary_wal target) (value_reader target) (store target)
                (mk_CompactionStats (compactions s)
                   (snapshot_bytes_written s + Snapshot.bytes_written snapshot) (compact_errors s)),
              snapshot)
      end
  end.

(** One pass of the copy that runs beside the writers, or its end. *)
Definition precopy target (base_offset : Z) (locations : gmap bytes Store.ValueLoc) (copied_up_to : Z)
    (appended : bool) (previous_gap pass : Z) : result CompactionError (CompactionTarget T * Phase) :=
  let rotate := Ok (target, Sealed base_offset locations copied_up_to appended) in
  if MAX_PRECOPY_PASSES <=? pass then rotate
  else
    let head := zlen (wal_file target) in
    let gap := saturating_sub head copied_up_to in
    if gap <=? SMALL_DELTA then rotate
    else if (0 <? pass) && slow gap previous_gap then rotate
    else
      file ← copy_file_range (wal_file target) (temporary_wal target) copied_up_to head appended;
      Ok (with_temporary_wal target file, PreCopy base_offset locations head true gap (pass + 1)).

(** The last copies, with the gate held, until one finds nothing to add. *)
Definition final_copy target (base_offset : Z) (locations : gmap bytes Store.ValueLoc) (copied_up_to : Z)
    (appended : bool) : result CompactionError (CompactionTarget T * Phase) :=
  let end_ := zlen (wal_file target) in
  if (end_ =? copied_up_to) && appended then Ok (target, Closed base_offset locations)
  else
    file ← copy_file_range (wal_file target) (temporary_wal target) copied_up_to end_ appended;
    Ok (with_temporary_wal target file, Sealed base_offset locations end_ true).

(** [rename_replace] of the two temporary files. *)
Definition replace_snapshot target : CompactionTarget T :=
  mk_CompactionTarget (default (snapshot_file target) (temporary_snapshot target)) (wal_file target) None
    (temporary_wal target) (value_reader target) (store target) (stats target).

Definition replace_wal target : CompactionTarget T :=
  mk_CompactionTarget (snapshot_file target) (default (wal_file target) (temporary_wal target))
    (temporary_snapshot target) None (value_reader target) (store target) (stats target).

Definition remap (base_offset : Z) (snapshot_locations : gmap bytes Store.ValueLoc) (key : bytes)
    (location : Store.ValueLoc) (_ : Store.StoreRecord) : option Store.ValueLoc :=
  if match Store.loc_file location with
     | Store.Wal => base_offset <=? Store.loc_offset location
     | Store.Snapshot => false
     end then
    Some (Store.mk_ValueLoc Store.Wal (Store.loc_offset location - base_offset) (Store.loc_len location))
  else snapshot_locations !! key.

Definition remap_store (base_offset : Z) (snapshot_locations : gmap bytes Store.ValueLoc) target
    : CompactionTarget T :=
  mk_CompactionTarget (snapshot_file target) (wal_file target) (temporary_snapshot target)
    (temporary_wal target) (value_reader target)
    (Store.remap_locations (remap base_offset snapshot_locations) (store target)) (stats target).

Definition reopen_reader target : CompactionTarget T :=
  mk_CompactionTarget (snapshot_file target) (wal_file target) (temporary_snapshot target)
    (temporary_wal target)
    (ValueReader.reopen_both (Some (snapshot_file target)) (Some (wal_file target)) <$> value_reader target)
    (store target) (stats target).

Definition run_step (now : Z) target (phase : Phase) : result CompactionError (CompactionTarget T * Phase) :=
  match phase with
  | Idle => Ok (target, Flushed (zlen (wal_file target)))
  | Flushed base_offset =>
      '(target, snapshot) ← take_snapshot now target;
      Ok (target, PreCopy base_offset (Snapshot.locations snapshot) base_offset false U64_MAX 0)
  | PreCopy base_offset locations copied_up_to appended previous_gap pass =>
      precopy target base_offset locations copied_up_to appended previous_gap pass
  | Sealed base_offset locations copied_up_to appended =>
      final_copy target base_offset locations copied_up_to appended
  | Closed base_offset locations => Ok (replace_snapshot target, SnapshotReplaced base_offset locations)
  | SnapshotReplaced base_offset locations => Ok (replace_wal target, Rotated base_offset locations)
  | Rotated base_offset locations => Ok (remap_store base_offset locations target, Remapped)
  | Remapped => Ok (reopen_reader target, Idle)
  end.

(** The error path: what was rotated is finished. *)
Definition on_error target (phase : Phase) : CompactionTarget T :=
  match phase with
  | Rotated base_offset locations => reopen_reader (remap_store base_offset locations target)
  | Remapped => reopen_reader target
  | _ => target
  end.

(** A run that is not interrupted. *)
Fixpoint run (fuel : nat) (now : Z) target (phase : Phase) : result CompactionError (CompactionTarget T * Phase) :=
  match fuel with
  | O => Ok (target, phase)
  | S fuel =>
      '(target, phase) ← run_step now target phase;
      match phase with Idle => Ok (target, Idle) | _ => run fuel now target phase end
  end.

End run.
End Compaction.
