(* ===== verification/CompactionFacts.v ===== *)
(** * What compaction keeps

    Compaction interleaved with writers and with expiry, as a step relation over
    the files, the store, the writes that have ended and the one in progress: a
    write ([Write]) begins, is applied to the store, has its frame flushed to the
    log, and ends by publishing its values or, when its frame cannot be written,
    by putting back what it replaced.  By induction on the steps: at every point,
    also in the middle of a rotation or of a write, recovering from the two files
    gives the flushed writes without the expired records, and (but for one point)
    the store reads the value of every live record.  [undisturbed] and [taken]
    exclude the interleavings in which the code loses this; the examples at the
    end show each of them. *)

From S2P Require Import Prelude.
From S2P Require Import Crc.
From S2P Require Import Codec.
From S2P Require Import Scan.
From S2P Require Import OrdIndex.
From S2P Require Import SkipList.
From S2P Require Import SkipListFacts.
From S2P Require Import Store.
From S2P Require Import StoreFacts.
From S2P Require Import ValueReader.
From S2P Require Import Snapshot.
From S2P Require Import Recovery.
From S2P Require Import RecoveryFacts.
From S2P Require Import SnapshotFacts.
From S2P Require Import Compaction.
Import Codec Scan StoreFacts Recovery RecoveryFacts SnapshotFacts Compaction.

Module CompactionFacts.

(** ** Expiry and replay *)

Definition live_log (t : Z) (l : LogRecord) : bool :=
  (log_expire_at l =? 0) || (t <? log_expire_at l).

(** The records of a logical state not expired at [t]. *)
Definition alive (t : Z) (m : gmap bytes LogRecord) : gmap bytes LogRecord :=
  filter (fun kl => live_log t kl.2 = true) m.

(** What recovery at [t] makes of an operation. *)
Definition expire_op (t : Z) (o : LogOp) : LogOp :=
  match o with
  | LSet k v e d => if (e =? 0) || (t <? e) then o else LDel k
  | LDel _ => o
  end.

Lemma alive_insert t m k l :
  alive t (<[k := l]> m) = if live_log t l then <[k := l]> (alive t m) else delete k (alive t m).
Proof.
  unfold alive. destruct (live_log t l) eqn:E.
  - by rewrite map_filter_insert_True.
  - rewrite map_filter_insert_False by (simpl; congruence). by rewrite map_filter_delete.
Qed.

Lemma alive_delete t m k : alive t (delete k m) = delete k (alive t m).
Proof. apply map_filter_delete. Qed.

Lemma alive_lookup t m k :
  alive t m !! k = (l ← m !! k; if live_log t l then Some l else None).
Proof.
  unfold alive. rewrite map_lookup_filter. destruct (m !! k) as [l|]; simpl; [|done].
  destruct (live_log t l) eqn:E; case_guard; simpl in *; congruence.
Qed.

Lemma alive_replay_op t m o : alive t (replay_op m o) = replay_op (alive t m) (expire_op t o).
Proof.
  destruct o as [k v e d|k]; simpl; [|apply alive_delete]. rewrite alive_insert.
  unfold live_log. simpl. by destruct ((e =? 0) || (t <? e)).
Qed.

Lemma alive_replay t m ops : alive t (replay m ops) = replay (alive t m) (map (expire_op t) ops).
Proof.
  unfold replay. revert m. induction ops as [|o ops IH]; intros m; [done|].
  cbn [fold_left map]. by rewrite IH, alive_replay_op.
Qed.

Lemma alive_later t t' m : t <= t' -> alive t' (alive t m) = alive t' m.
Proof.
  intros Ht. apply map_eq. intros k. rewrite !alive_lookup. destruct (m !! k) as [l|]; [|done]. simpl.
  destruct (live_log t l) eqn:E1; simpl; [done|]. destruct (live_log t' l) eqn:E2; [|done]. exfalso.
  unfold live_log in *. apply orb_true_iff in E2. apply orb_false_iff in E1. lia.
Qed.

Lemma alive_eq_later t t' m1 m2 : t <= t' -> alive t m1 = alive t m2 -> alive t' m1 = alive t' m2.
Proof. intros Ht E. rewrite <- (alive_later t t' m1), <- (alive_later t t' m2) by done. by rewrite E. Qed.

Lemma replay_app m x y : replay m (x ++ y) = replay (replay m x) y.
Proof. apply fold_left_app. Qed.

Definition touches (k : bytes) (o : LogOp) : Prop :=
  match o with LSet k' _ _ _ | LDel k' => k' = k end.

#[export] Instance touches_dec k o : Decision (touches k o).
Proof. destruct o; simpl; apply _. Defined.

(** What a replay leaves under a key depends on the state before only when no
    operation touches the key. *)
Lemma replay_lookup m m' ops k :
  m !! k = m' !! k \/ Exists (touches k) ops -> replay m ops !! k = replay m' ops !! k.
Proof.
  revert m m'. induction ops as [|o ops IH]; intros m m' H; [destruct H as [|H]; [done|by inversion H]|].
  cbn [replay fold_left]. change (replay (replay_op m o) ops !! k = replay (replay_op m' o) ops !! k).
  apply IH. destruct (decide (touches k o)) as [Ht|Ht]; [left|].
  - destruct o; simpl in *; subst; by rewrite ?lookup_insert_eq, ?lookup_delete_eq.
  - destruct H as [H|H]; [left|right; by inversion H].
    destruct o; simpl in *; by rewrite ?lookup_insert_ne, ?lookup_delete_ne.
Qed.

Lemma replay_untouched m ops k : ~ Exists (touches k) ops -> replay m ops !! k = m !! k.
Proof.
  revert m. induction ops as [|o ops IH]; intros m Hn; [done|].
  change (replay (replay_op m o) ops !! k = m !! k). rewrite IH by (intros ?; apply Hn; by constructor).
  destruct o; simpl; [rewrite lookup_insert_ne | rewrite lookup_delete_ne]; try done;
    intros ->; apply Hn; by constructor.
Qed.

(** Operations already replayed may be replayed again from the start. *)
Lemma replay_absorb m x y : replay (replay m x) (x ++ y) = replay m (x ++ y).
Proof.
  apply map_eq. intros k. apply replay_lookup.
  destruct (decide (Exists (touches k) x)) as [He|Hn]; [right; apply Exists_app; by left|left].
  by apply replay_untouched.
Qed.

Section compaction.
Context `{Crc32fastOk}.
Context {T : Type} `{!OrdIndex.OrderedIndex T bytes bytes}.
Context (dt_json : Store.Datetimes -> option bytes).
Context (metadata_of_json : bytes -> option MetadataJson).
Context (error_text : ValueReader.ValueReaderError -> string).
Implicit Types target : CompactionTarget T.

(** ** Files that are whole logs *)

(** The file is a sequence of frames whose metadata decodes, with these operations. *)
Definition log_file (file : bytes) (ops : list LogOp) : Prop :=
  exists fs es, encodings fs es /\ file = concat es /\
    forall t, log_ops metadata_of_json t (map stored_frame fs) = Ok (map (expire_op t) ops).

Lemma log_file_nil : log_file [] [].
Proof. exists [], []. split; [constructor|done]. Qed.

Lemma log_file_app x y ops1 ops2 :
  log_file x ops1 -> log_file y ops2 -> log_file (x ++ y) (ops1 ++ ops2).
Proof.
  intros (fs1 & es1 & He1 & -> & Ho1) (fs2 & es2 & He2 & -> & Ho2).
  exists (fs1 ++ fs2), (es1 ++ es2). split; [by apply Forall2_app|]. split; [by rewrite concat_app|].
  intros t. unfold log_ops. rewrite map_app, concat_results_app.
  unfold log_ops in Ho1, Ho2. rewrite Ho1, Ho2. simpl. by rewrite map_app.
Qed.

Lemma log_file_frame f enc ops :
  frame_wf f -> encode_frame f = Ok enc ->
  (forall t, log_ops metadata_of_json t [stored_frame f] = Ok (map (expire_op t) ops)) ->
  log_file enc ops.
Proof.
  intros Hwf Henc Hops. exists [f], [enc]. split; [apply Forall2_cons; split; [done|constructor]|].
  split; [simpl; by rewrite app_nil_r|]. done.
Qed.

Lemma log_file_parsed file ops t mode :
  log_file file ops ->
  parse_buffer file mode = mk_ParseResult (frames (parse_buffer file mode)) [] (zlen file) /\
  log_ops metadata_of_json t (frames (parse_buffer file mode)) = Ok (map (expire_op t) ops).
Proof. intros (fs & es & He & -> & Ho). rewrite (parse_whole fs es mode He). simpl. done. Qed.

(** The entries of a snapshot as operations. *)
Definition entry_op (e : Store.StoreEntry) : LogOp :=
  LSet (Store.entry_key e) (Store.entry_value e) (Store.entry_expire_at e) (Store.entry_datetimes e).

Lemma entry_log_op t e : entry_log t e = expire_op t (entry_op e).
Proof. unfold entry_log, entry_live, expire_op, entry_op. done. Qed.

Lemma snapshot_log_file es encs :
  json_law dt_json metadata_of_json -> Forall (entry_wf dt_json) es ->
  encodings (map (snapshot_frame dt_json) es) encs -> log_file (concat encs) (map entry_op es).
Proof.
  intros Hj Hwf He. exists (map (snapshot_frame dt_json) es), encs. split; [done|]. split; [done|].
  intros t. rewrite (snapshot_log_ops dt_json metadata_of_json t es Hj Hwf), map_map. f_equal.
Qed.

(** ** The store and the files it reads *)

(** The contents behind the reader's handles. *)
Definition reads target (kind : Store.ValueFile) : bytes :=
  match value_reader target with
  | Some r => default [] (match kind with
                          | Store.Snapshot => ValueReader.snapshot r
                          | Store.Wal => ValueReader.wal r
                          end)
  | None => []
  end.

Definition live_records (t : Z) (m : gmap bytes Store.StoreRecord) : gmap bytes Store.StoreRecord :=
  filter (fun kr => Store.is_live t kr.2 = true) m.

(** The live records stand for the live part of a logical state. *)
Definition represents_live (files : Store.ValueFile -> bytes) (t : Z)
    (m : gmap bytes Store.StoreRecord) (lm : gmap bytes LogRecord) : Prop :=
  represents files (live_records t m) (alive t lm).

Lemma live_records_lookup t m k :
  live_records t m !! k = (r ← m !! k; if Store.is_live t r then Some r else None).
Proof.
  unfold live_records. rewrite map_lookup_filter. destruct (m !! k) as [l|]; simpl; [|done].
  destruct (Store.is_live t l) eqn:E; case_guard; simpl in *; congruence.
Qed.

Lemma record_means_live files t r l : record_means files r l -> Store.is_live t r = live_log t l.
Proof. intros (_ & He & _). unfold Store.is_live, live_log. by rewrite He. Qed.

Lemma represents_live_set files t m lm k r l :
  represents_live files t m lm -> record_means files r l ->
  represents_live files t (<[k := r]> m) (<[k := l]> lm).
Proof.
  intros Hm Hr k'. pose proof (record_means_live _ t _ _ Hr) as Hl. specialize (Hm k').
  rewrite live_records_lookup, alive_lookup in *. destruct (decide (k' = k)) as [->|].
  - rewrite !lookup_insert_eq. simpl. rewrite Hl. destruct (live_log t l); by constructor.
  - by rewrite !lookup_insert_ne.
Qed.

Lemma represents_live_del files t m lm k :
  represents_live files t m lm -> represents_live files t (delete k m) (delete k lm).
Proof.
  intros Hm k'. specialize (Hm k'). rewrite live_records_lookup, alive_lookup in *.
  destruct (decide (k' = k)) as [->|]; [rewrite !lookup_delete_eq; constructor|].
  by rewrite !lookup_delete_ne.
Qed.

Lemma represents_live_later files t t' m lm :
  t <= t' -> represents_live files t m lm -> represents_live files t' m lm.
Proof.
  intros Ht Hm k. specialize (Hm k). rewrite live_records_lookup, alive_lookup in *.
  assert (forall r : Store.StoreRecord, Store.is_live t' r = true -> Store.is_live t r = true) as Hr.
  { intros r. unfold Store.is_live. rewrite !orb_true_iff, !Z.ltb_lt. lia. }
  assert (forall l : LogRecord, live_log t' l = true -> live_log t l = true) as Hl.
  { intros l. unfold live_log. rewrite !orb_true_iff, !Z.ltb_lt. lia. }
  destruct (m !! k) as [r|], (lm !! k) as [l|]; simpl in *; [..|constructor].
  - specialize (Hr r). specialize (Hl l).
    destruct (Store.is_live t r) eqn:E1, (live_log t l) eqn:E2; inversion Hm as [? ? Hrm|]; subst.
    + rewrite (record_means_live _ t' _ _ Hrm). destruct (live_log t' l); by constructor.
    + destruct (Store.is_live t' r); [by discriminate Hr|].
      destruct (live_log t' l); [by discriminate Hl|]. constructor.
  - specialize (Hr r). destruct (Store.is_live t r); [by inversion Hm|].
    destruct (Store.is_live t' r); [by discriminate Hr|constructor].
  - specialize (Hl l). destruct (live_log t l); [by inversion Hm|].
    destruct (live_log t' l); [by discriminate Hl|constructor].
Qed.

Lemma represents_live_same files t m lm lm' :
  alive t lm = alive t lm' -> represents_live files t m lm -> represents_live files t m lm'.
Proof. unfold represents_live. by intros ->. Qed.

Lemma represents_live_mono files files' t m lm :
  (forall r v, resolves files r v -> resolves files' r v) ->
  represents_live files t m lm -> represents_live files' t m lm.
Proof.
  intros Hf Hm k. specialize (Hm k). destruct Hm as [r l (Hv & Hr)|]; constructor. split; [by apply Hf|done].
Qed.

Lemma resolves_app (files files' : Store.ValueFile -> bytes) :
  (forall kind, exists more, files' kind = files kind ++ more) ->
  forall r v, resolves files r v -> resolves files' r v.
Proof.
  intros Hf [value|l] v; [done|]. intros (Hl & Hv). split; [done|]. destruct Hv as [Hv|Hv]; [by left|right].
  destruct (Hf (Store.loc_file l)) as [more ->]. by apply slice_get_app.
Qed.

Lemma represents_live_records files t m m' lm :
  live_records t m = live_records t m' -> represents_live files t m lm -> represents_live files t m' lm.
Proof. unfold represents_live. by intros ->. Qed.

(** ** What writers do *)

Lemma set_ref_records key r e d (store store' : Store.Store T) :
  Store.set_ref dt_json key r e d store = Some store' ->
  exists seq, Store.records store' = <[key := Store.mk_StoreRecord r e seq d]> (Store.records store).
Proof.
  unfold Store.set_ref. intros (order & _ & Hs)%bind_Some.
  eexists. destruct (negb (e =? 0)); injection Hs as <-; simpl; by rewrite insert_delete_eq.
Qed.

Lemma del_records key (store store' : Store.Store T) :
  apply_operation dt_json store (OpDel key) = Some store' ->
  Store.records store' = delete key (Store.records store).
Proof.
  simpl. unfold Store.del, Store.remove. destruct (Store.records store !! key) eqn:E; simpl.
  - intros Hd. repeat (apply bind_Some in Hd as ([? ?] & Hd & ?)). simplify_eq. done.
  - intros [= <-]. by rewrite delete_id.
Qed.

(** A value a writer refers to: in memory, or in the log from an offset on. *)
Definition placed (from : Z) (r : Store.ValueRef) : Prop :=
  match r with
  | Store.Memory _ => True
  | Store.Disk l => Store.loc_file l = Store.Wal /\ from <= Store.loc_offset l
  end.

Definition in_memory (r : Store.ValueRef) : Prop := exists v, r = Store.Memory v.

(** A write applies its values in memory ([apply_operation] of minidb.rs). *)
Definition memory_op (o : LogOp) : RecoveredOp :=
  match o with LSet k v e d => OpSet k (Store.Memory v) e d | LDel k => OpDel k end.

(** The records the operations leave: those of the keys they touch are in memory. *)
Lemma apply_operations_records files t ops (store store' : Store.Store T) lm :
  apply_operations dt_json store (map memory_op ops) = Some store' ->
  represents_live files t (Store.records store) lm ->
  represents_live files t (Store.records store') (replay lm ops) /\
  (forall k r, Store.records store' !! k = Some r ->
     in_memory (Store.value_ref r) \/ (Store.records store !! k = Some r /\ ~ Exists (touches k) ops)).
Proof.
  revert store lm. induction ops as [|o ops IH]; intros store lm Ha Hrep.
  { injection Ha as <-. split; [done|]. intros. right. split; [done|]. by inversion 1. }
  unfold apply_operations in Ha. cbn [map foldM] in Ha. apply bind_Some in Ha as (s1 & Hs1 & Ha).
  assert (represents_live files t (Store.records s1) (replay_op lm o) /\
    (forall k r, Store.records s1 !! k = Some r ->
       in_memory (Store.value_ref r) \/ (Store.records store !! k = Some r /\ ~ touches k o)))
    as [Hrep1 Hold].
  { destruct o as [k v e d|k].
    - destruct (set_ref_records _ _ _ _ _ _ Hs1) as [seq ->].
      split; [apply represents_live_set; [done|by repeat split]|]. intros k' r'.
      destruct (decide (k' = k)) as [->|Hne]; [rewrite lookup_insert_eq; intros [= <-]; left; by exists v|].
      rewrite !lookup_insert_ne by done. intros ?. right. split; [done|]. simpl. congruence.
    - rewrite (del_records _ _ _ Hs1). split; [by apply represents_live_del|].
      intros k' r' [Hne Hk]%lookup_delete_Some. right. split; [done|]. simpl. congruence. }
  destruct (IH s1 (replay_op lm o) Ha Hrep1) as [Hrep2 Hold2]. split; [done|].
  intros k r Hk. destruct (Hold2 k r Hk) as [|[Hk1 Hl1]]; [by left|].
  destruct (Hold k r Hk1) as [|[Hk0 Hl0]]; [by left|right]. split; [done|]. by inversion 1.
Qed.

(** ** The steps *)

(** A write between its start and its end: the write lock admits one at a time. *)
Record Write := mk_Write {
  (** Its frame, and the operations recovery reads from it. *)
  frame_bytes : bytes;
  ops : list LogOp;
  (** Where its frame is in the log, once it has been flushed. *)
  place : option Z;
  (** The live records before it was applied to the store, once it has been. *)
  before : option (gmap bytes Store.StoreRecord);
  (** Whether a snapshot has been taken that holds it, before its frame was in the log. *)
  taken : bool;
}.

Record State := mk_State {
  the_target : CompactionTarget T;
  the_phase : Phase;
  clock : Z;
  (** The replay of the writes that have ended, the failed ones left out. *)
  logical : gmap bytes LogRecord;
  pending : option Write;
}.

(** What the write in progress adds to the log and to the store. *)
Definition logged_ops (p : option Write) : list LogOp :=
  match p with Some w => match place w with Some _ => ops w | None => [] end | None => [] end.
Definition applied_ops (p : option Write) : list LogOp :=
  match p with Some w => match before w with Some _ => ops w | None => [] end | None => [] end.

(** What the log holds, and what the database shows. *)
Definition logged (s : State) : gmap bytes LogRecord := replay (logical s) (logged_ops (pending s)).
Definition shown (s : State) : gmap bytes LogRecord := replay (logical s) (applied_ops (pending s)).

(** A record can be written to a snapshot. *)
Definition fits (k : bytes) (l : LogRecord) : Prop :=
  entry_wf dt_json (Store.mk_StoreEntry k (log_value l) (log_expire_at l) (log_datetimes l)).

Definition op_fits (o : LogOp) : Prop :=
  match o with LSet k v e d => fits k (mk_LogRecord v e d) | LDel _ => True end.

(** The log with a frame more; the reader's handle is on the same file. *)
Definition appended_wal (enc : bytes) (target : CompactionTarget T) : CompactionTarget T :=
  with_wal target (wal_file target ++ enc)
    (ValueReader.reopen_wal (Some (wal_file target ++ enc)) <$> value_reader target) (store target).

Definition with_store (store : Store.Store T) (target : CompactionTarget T) : CompactionTarget T :=
  with_wal target (wal_file target) (value_reader target) store.

Definition touched (k : bytes) (w : Write) : Prop := Exists (touches k) (ops w).

Definition same_record (r r' : Store.StoreRecord) : Prop :=
  Store.value_ref r = Store.value_ref r' /\ Store.expire_at r = Store.expire_at r' /\
  Store.datetimes r = Store.datetimes r'.

(** [restore_key] of every key of the write: the records of [b] again, in a
    store whose records were [m].  (A record of the write that has expired and been
    dropped by then is not replaced by the code, which [FacadeExamples] shows; that
    is no step.) *)
Definition restored (w : Write) (b m m' : gmap bytes Store.StoreRecord) : Prop :=
  forall k, if decide (touched k w) then option_Forall2 same_record (b !! k) (m' !! k) else m' !! k = m !! k.

(** [publish_wal_ref] of some of the keys: the value where the frame at [offset] put it. *)
Definition published (w : Write) (offset : Z) (target : CompactionTarget T)
    (m m' : gmap bytes Store.StoreRecord) : Prop :=
  forall k, m' !! k = m !! k \/
    exists r r' v l, m !! k = Some r /\ m' !! k = Some r' /\ touched k w /\ is_Some (value_reader target) /\
      Store.value_ref r = Store.Memory v /\ Store.value_ref r' = Store.Disk l /\
      Store.expire_at r' = Store.expire_at r /\ Store.datetimes r' = Store.datetimes r /\
      Store.loc_file l = Store.Wal /\ offset <= Store.loc_offset l /\ resolves (reads target) (Store.Disk l) v.

(** What the steps of a compaction find of a write in progress.  When the size of
    the log is read its frame is not queued, since the log has been flushed; when
    the snapshot is taken, a write in the log before the base offset has been
    applied; and the rotation waits for its end (the rotation gate). *)
Definition undisturbed (phase phase' : Phase) (p : option Write) : Prop :=
  match p with
  | None => True
  | Some w => gate_open phase' = true /\
      match phase with
      | Flushed base => forall offset, place w = Some offset -> before w = None -> base <= offset
      | _ => is_Some (place w)
      end
  end.

(** The snapshot that has just been taken holds a write that has been applied. *)
Definition mark_taken (phase : Phase) (p : option Write) : option Write :=
  match phase, p with
  | Flushed _, Some w => Some (mk_Write (frame_bytes w) (ops w) (place w) (before w) (bool_decide (is_Some (before w))))
  | _, _ => p
  end.

Definition forget_taken (p : option Write) : option Write :=
  (fun w => mk_Write (frame_bytes w) (ops w) (place w) (before w) false) <$> p.

Inductive step : State -> State -> Prop :=
| step_begin target phase clock lm f enc ops :
    gate_open phase = true -> frame_wf f -> encode_frame f = Ok enc ->
    (forall t, log_ops metadata_of_json t [stored_frame f] = Ok (map (expire_op t) ops)) ->
    Forall op_fits ops ->
    step (mk_State target phase clock lm None)
      (mk_State target phase clock lm (Some (mk_Write enc ops None None false)))
| step_apply target phase clock lm enc ops place store' :
    apply_operations dt_json (store target) (map memory_op ops) = Some store' ->
    step (mk_State target phase clock lm (Some (mk_Write enc ops place None false)))
      (mk_State (with_store store' target) phase clock lm
        (Some (mk_Write enc ops place (Some (live_records clock (Store.records (store target)))) false)))
| step_log target phase clock lm enc ops before taken :
    step (mk_State target phase clock lm (Some (mk_Write enc ops None before taken)))
      (mk_State (appended_wal enc target) phase clock lm
        (Some (mk_Write enc ops (Some (zlen (wal_file target))) before taken)))
| step_done target phase clock lm w offset b store' :
    place w = Some offset -> before w = Some b ->
    published w offset target (Store.records (store target)) (Store.records store') ->
    step (mk_State target phase clock lm (Some w))
      (mk_State (with_store store' target) phase clock (replay lm (ops w)) None)
| step_fail target phase clock lm w b store' :
    place w = None -> before w = Some b -> taken w = false ->
    restored w b (Store.records (store target)) (Store.records store') ->
    step (mk_State target phase clock lm (Some w)) (mk_State (with_store store' target) phase clock lm None)
| step_expire target phase clock lm p store' :
    (forall k, Store.records store' !! k = Store.records (store target) !! k \/
       exists r, Store.records (store target) !! k = Some r /\ Store.is_live clock r = false /\
         Store.records store' !! k = None) ->
    step (mk_State target phase clock lm p) (mk_State (with_store store' target) phase clock lm p)
| step_tick target phase clock clock' lm p :
    clock <= clock' -> step (mk_State target phase clock lm p) (mk_State target phase clock' lm p)
| step_run target phase clock lm p target' phase' :
    run_step dt_json error_text clock target phase = Ok (target', phase') ->
    undisturbed phase phase' p ->
    step (mk_State target phase clock lm p) (mk_State target' phase' clock lm (mark_taken phase p))
| step_abort target phase clock lm p :
    phase <> Idle ->
    step (mk_State target phase clock lm p) (mk_State (on_error target phase) Idle clock lm (forget_taken p)).

(** ** The invariant *)

(** The two files stand for the logical state. *)
Definition files_hold (snapshot wal : bytes) (t : Z) (lm : gmap bytes LogRecord) : Prop :=
  exists opsS opsW, log_file snapshot opsS /\ log_file wal opsW /\
    alive t (replay ∅ (opsS ++ opsW)) = alive t lm.

(** The log is cut at the base offset, and the files stand for the logical state. *)
Definition cut_at (base : Z) (snapshot wal : bytes) (t : Z) (lm : gmap bytes LogRecord)
    (opsS opsA opsB : list LogOp) : Prop :=
  exists a b, wal = a ++ b /\ zlen a = base /\ log_file snapshot opsS /\
    log_file a opsA /\ log_file b opsB /\
    alive t (replay ∅ (opsS ++ opsA ++ opsB)) = alive t lm.

(** A snapshot file that, with the log from the base offset on, stands for the
    logical state: it was taken after the operations [done] of that part, the
    last of which may be those of a write not in the log yet. *)
Definition snapshot_of (base : Z) (snapshot wal : bytes) (t : Z) (lm : gmap bytes LogRecord)
    (owed : list LogOp) (new : bytes) : Prop :=
  exists opsS opsA opsB done rest opsN, cut_at base snapshot wal t lm opsS opsA opsB /\
    opsB ++ owed = done ++ rest /\
    log_file new opsN /\ alive t (replay ∅ opsN) = alive t (replay ∅ (opsS ++ opsA ++ done)).

(** The operations the snapshot holds and the log does not. *)
Definition owed (p : option Write) : list LogOp :=
  match p with
  | Some w => if taken w then match place w with Some _ => [] | None => ops w end else []
  | None => []
  end.

(** The value of the key will be published before the base offset. *)
Definition behind (base : Z) (p : option Write) (k : bytes) : Prop :=
  match p with
  | Some w => is_Some (before w) /\ touched k w /\ exists offset, place w = Some offset /\ offset < base
  | None => False
  end.

(** Every live record can be moved: it is in memory or in the log from the base
    offset on, or the new snapshot holds its value where [locations] says. *)
Definition covered (base : Z) (locations : gmap bytes Store.ValueLoc) (new : bytes) (t : Z)
    (m : gmap bytes Store.StoreRecord) (lm : gmap bytes LogRecord) (p : option Write) : Prop :=
  forall k r, live_records t m !! k = Some r ->
    (placed base (Store.value_ref r) /\ ~ behind base p k) \/
    exists l, locations !! k = Some l /\
      forall lr, lm !! k = Some lr -> resolves (files_of new []) (Store.Disk l) (log_value lr).

Definition copied (base copied_up_to : Z) (appended : bool) target : Prop :=
  base <= copied_up_to <= zlen (wal_file target) /\
  (if appended then temporary_wal target = Some (slice (wal_file target) base copied_up_to)
   else copied_up_to = base).

(** A write that is still to be applied has its frame after the base offset. *)
Definition ahead (base : Z) (p : option Write) : Prop :=
  forall w offset, p = Some w -> place w = Some offset -> before w = None -> base <= offset.

(** If the write fails, the records put back can be moved. *)
Definition can_fail (base : Z) (locations : gmap bytes Store.ValueLoc) (new : bytes) (t : Z)
    (lm : gmap bytes LogRecord) (p : option Write) : Prop :=
  forall w b, p = Some w -> place w = None -> before w = Some b -> taken w = false ->
    covered base locations new t b lm None.

Definition copying (base : Z) (locations : gmap bytes Store.ValueLoc) (t : Z) (lm : gmap bytes LogRecord)
    (p : option Write) target : Prop :=
  exists new, temporary_snapshot target = Some new /\
    snapshot_of base (snapshot_file target) (wal_file target) t (replay lm (logged_ops p)) (owed p) new /\
    covered base locations new t (Store.records (store target)) (replay lm (applied_ops p)) p /\
    ahead base p /\ can_fail base locations new t lm p.

(** The log before the write in progress, when that lies after the base offset. *)
Definition flushed (base : Z) (t : Z) (lm : gmap bytes LogRecord) (p : option Write) target : Prop :=
  exists opsS opsA opsB,
    cut_at base (snapshot_file target) (wal_file target) t (replay lm (logged_ops p)) opsS opsA opsB /\
    forall w offset, p = Some w -> place w = Some offset -> base <= offset ->
      exists earlier, opsB = earlier ++ ops w /\ alive t (replay ∅ (opsS ++ opsA ++ earlier)) = alive t lm.

Definition phase_inv target (phase : Phase) (t : Z) (lm : gmap bytes LogRecord) (p : option Write) : Prop :=
  match phase with
  | Idle => True
  | Flushed base => flushed base t lm p target
  | PreCopy base locations copied_up_to appended _ _ =>
      copying base locations t lm p target /\ copied base copied_up_to appended target
  | Sealed base locations copied_up_to appended =>
      copying base locations t lm None target /\ copied base copied_up_to appended target
  | Closed base locations =>
      copying base locations t lm None target /\
      temporary_wal target = Some (slice_from (wal_file target) base)
  | SnapshotReplaced base locations =>
      temporary_wal target = Some (slice_from (wal_file target) base) /\ 0 <= base <= zlen (wal_file target) /\
      files_hold (snapshot_file target) (slice_from (wal_file target) base) t lm /\
      covered base locations (snapshot_file target) t (Store.records (store target)) lm None
  | Rotated base locations =>
      (exists a, zlen a = base /\
         forall r, value_reader target = Some r -> ValueReader.wal r = Some (a ++ wal_file target)) /\
      covered base locations (snapshot_file target) t (Store.records (store target)) lm None
  | Remapped => represents_live (files_of (snapshot_file target) (wal_file target)) t
                  (Store.records (store target)) lm
  end.

Definition rotated (phase : Phase) : bool :=
  match phase with Rotated _ _ | Remapped => true | _ => false end.

(** The values of a store without a reader are in memory. *)
Definition memory_only target (m : gmap bytes Store.StoreRecord) : Prop :=
  forall k r, value_reader target = None -> m !! k = Some r -> in_memory (Store.value_ref r).

(** The write in progress has a frame and fits a snapshot; its frame is where it
    says; the records it would put back stand for the state before it. *)
Record write_ok target (phase : Phase) (t : Z) (lm : gmap bytes LogRecord) (w : Write) : Prop := {
  ok_gate : gate_open phase = true;
  ok_frame : log_file (frame_bytes w) (ops w) /\ frame_bytes w <> [];
  ok_fits : Forall op_fits (ops w);
  ok_place offset : place w = Some offset -> 0 <= offset < zlen (wal_file target);
  ok_taken : taken w = true -> is_Some (before w);
  ok_before b : before w = Some b -> place w = None ->
    represents_live (reads target) t b lm /\ memory_only target b;
}.

Record inv (s : State) : Prop := {
  inv_files : files_hold (snapshot_file (the_target s)) (wal_file (the_target s)) (clock s) (logged s);
  inv_reads : the_phase s <> Remapped ->
    represents_live (reads (the_target s)) (clock s) (Store.records (store (the_target s))) (shown s);
  inv_handle r : rotated (the_phase s) = false -> value_reader (the_target s) = Some r ->
    ValueReader.wal r = Some (wal_file (the_target s));
  inv_memory : memory_only (the_target s) (Store.records (store (the_target s)));
  inv_fits k l : logical s !! k = Some l -> fits k l;
  inv_pending w : pending s = Some w -> write_ok (the_target s) (the_phase s) (clock s) (logical s) w;
  inv_phase : phase_inv (the_target s) (the_phase s) (clock s) (logical s) (pending s);
}.

(** *** Time passes *)

Lemma files_hold_later snapshot wal t t' lm :
  t <= t' -> files_hold snapshot wal t lm -> files_hold snapshot wal t' lm.
Proof.
  intros Ht (opsS & opsW & ? & ? & He). exists opsS, opsW. split; [done|]. split; [done|].
  by eapply alive_eq_later.
Qed.

Lemma cut_at_later base snapshot wal t t' lm opsS opsA opsB :
  t <= t' -> cut_at base snapshot wal t lm opsS opsA opsB -> cut_at base snapshot wal t' lm opsS opsA opsB.
Proof.
  intros Ht (a & b & ? & ? & ? & ? & ? & He). exists a, b. split_and!; [done..|]. by eapply alive_eq_later.
Qed.

Lemma covered_later base locations new t t' m lm p :
  t <= t' -> covered base locations new t m lm p -> covered base locations new t' m lm p.
Proof.
  intros Ht Hc k r Hr. apply (Hc k). rewrite live_records_lookup in *.
  destruct (m !! k) as [r0|]; [|done]. simpl in *.
  destruct (Store.is_live t' r0) eqn:E; [|done].
  assert (Store.is_live t r0 = true) as ->; [|done].
  unfold Store.is_live in *. rewrite orb_true_iff, Z.ltb_lt in *. lia.
Qed.

Lemma copying_later base locations t t' lm p target :
  t <= t' -> copying base locations t lm p target -> copying base locations t' lm p target.
Proof.
  intros Ht (new & Hn & (opsS & opsA & opsB & don & rest & opsN & Hcut & Ho & Hlog & He) & Hc & Ha & Hf).
  exists new. split; [done|]. split; [|split; [by eapply covered_later|split; [done|]]].
  - exists opsS, opsA, opsB, don, rest, opsN. split; [by eapply cut_at_later|]. split; [done|]. split; [done|].
    by eapply alive_eq_later.
  - intros w b Hp Hpl Hb Ht'. eapply covered_later; [done|]. by eapply Hf.
Qed.

Lemma phase_inv_later target phase t t' lm p :
  t <= t' -> phase_inv target phase t lm p -> phase_inv target phase t' lm p.
Proof.
  intros Ht. destruct phase as [|base|base l c a g q|base l c a|base l|base l|base l|]; simpl; try done.
  - intros (opsS & opsA & opsB & Hc & Hw). exists opsS, opsA, opsB. split; [by eapply cut_at_later|].
    intros w offset Hp Hpl Hle. destruct (Hw w offset Hp Hpl Hle) as (earlier & ? & ?). exists earlier.
    split; [done|]. by eapply alive_eq_later.
  - intros [? ?]. split; [by eapply copying_later|done].
  - intros [? ?]. split; [by eapply copying_later|done].
  - intros [? ?]. split; [by eapply copying_later|done].
  - intros (? & ? & ? & ?). split; [done|]. split; [done|].
    split; [by eapply files_hold_later|by eapply covered_later].
  - intros [? ?]. split; [done|by eapply covered_later].
  - by apply represents_live_later.
Qed.

Ltac at_state := cbn [the_target the_phase clock logical pending] in *.

Lemma tick_inv target phase t t' lm p :
  t <= t' -> inv (mk_State target phase t lm p) -> inv (mk_State target phase t' lm p).
Proof.
  intros Ht [Hf Hr Hh Hm Hfit Hw Hp]. split; at_state; try done.
  - by eapply files_hold_later.
  - intros Hne. eapply represents_live_later; [done|]. by apply Hr.
  - intros w E. destruct (Hw w E) as [Hg Hfr Hof Hpl Htk Hb]. split; try done.
    intros b Eb Epl. destruct (Hb b Eb Epl). split; [by eapply represents_live_later|done].
  - by eapply phase_inv_later.
Qed.

(** *** Expired records leave *)

Lemma phase_inv_store target phase t lm p store' :
  live_records t (Store.records (store target)) = live_records t (Store.records store') ->
  phase_inv target phase t lm p -> phase_inv (with_store store' target) phase t lm p.
Proof.
  intros Hl. unfold phase_inv, copying, flushed, copied, covered, represents_live. simpl. by rewrite Hl.
Qed.

(** A write in progress does not depend on what the store holds. *)
Lemma write_ok_store target phase t lm w store' :
  write_ok target phase t lm w -> write_ok (with_store store' target) phase t lm w.
Proof. by intros []. Qed.

Lemma expire_inv target phase t lm p store' :
  (forall k, Store.records store' !! k = Store.records (store target) !! k \/
     exists r, Store.records (store target) !! k = Some r /\ Store.is_live t r = false /\
       Store.records store' !! k = None) ->
  inv (mk_State target phase t lm p) -> inv (mk_State (with_store store' target) phase t lm p).
Proof.
  intros Hex [Hf Hr Hh Hm Hfit Hw Hp]. at_state.
  assert (live_records t (Store.records (store target)) = live_records t (Store.records store')) as Hl.
  { apply map_eq. intros k. rewrite !live_records_lookup.
    destruct (Hex k) as [->|(r & -> & Hd & ->)]; [done|]. simpl. by rewrite Hd. }
  split; at_state; try done.
  - intros Hne. eapply represents_live_records; [exact Hl|]. by apply Hr.
  - intros k r Hnone Hk. apply (Hm k r Hnone). simpl in Hk. destruct (Hex k) as [<-|(r' & _ & _ & Hn)]; congruence.
  - intros w E. apply write_ok_store. by apply Hw.
  - by apply phase_inv_store.
Qed.

(** *** A write begins *)

Lemma replay_fits lm ops :
  (forall k l, lm !! k = Some l -> fits k l) -> Forall op_fits ops ->
  forall k l, replay lm ops !! k = Some l -> fits k l.
Proof.
  intros Hlm Hops. revert lm Hlm. induction Hops as [|o ops Ho _ IH]; intros lm Hlm; [done|].
  change (replay lm (o :: ops)) with (replay (replay_op lm o) ops). apply IH. intros k l.
  destruct o as [k' v e d|k']; simpl in *.
  - destruct (decide (k = k')) as [->|]; [rewrite lookup_insert_eq; by intros [= <-]|].
    rewrite lookup_insert_ne by done. apply Hlm.
  - intros [_ ?]%lookup_delete_Some. by apply Hlm.
Qed.

Lemma alive_replay_eq t m1 m2 ops :
  alive t m1 = alive t m2 -> alive t (replay m1 ops) = alive t (replay m2 ops).
Proof. intros He. by rewrite !alive_replay, He. Qed.

Lemma covered_none base locations new t m lm p :
  covered base locations new t m lm p -> covered base locations new t m lm None.
Proof. intros Hc k r Hr. destruct (Hc k r Hr) as [[? _]|?]; [left|by right]. by split; [|intros []]. Qed.

Lemma not_behind_unapplied base w k : before w = None -> ~ behind base (Some w) k.
Proof. intros Hb (Hs & _). rewrite Hb in Hs. by destruct Hs. Qed.

Lemma encode_frame_nonempty f e : encode_frame f = Ok e -> e <> [].
Proof.
  intros He ->. apply encode_frame_len in He. unfold encoded_len, HEADER_SIZE, CRC_SIZE in He.
  rewrite zlen_nil in He. zlen_pos. lia.
Qed.

Lemma begin_inv target phase t lm f e os :
  gate_open phase = true -> frame_wf f -> encode_frame f = Ok e ->
  (forall t, log_ops metadata_of_json t [stored_frame f] = Ok (map (expire_op t) os)) ->
  Forall op_fits os ->
  inv (mk_State target phase t lm None) ->
  inv (mk_State target phase t lm (Some (mk_Write e os None None false))).
Proof.
  intros Hg Hwf Henc Hops Hofit [Hf Hr Hh Hm Hfit Hw Hp]. split; at_state; try done.
  - intros w [= <-]. split; try done. split; [by eapply log_file_frame|by eapply encode_frame_nonempty].
  - destruct phase as [|base|base l c a g q|base l c a|base l|base l|base l|]; simpl in *; try done.
    + destruct Hp as (opsS & opsA & opsB & Hc & _). exists opsS, opsA, opsB. split; [done|]. by intros w offset [= <-].
    + destruct Hp as [(new & Hn & Hs & Hc & _ & _) Hcop]. split; [|done]. exists new.
      split; [done|]. split; [done|]. split; [|split; [by intros w offset [= <-]|by intros w b [= <-]]].
      intros k r Hk. destruct (Hc k r Hk) as [[? _]|?]; [left|by right]. split; [done|by apply not_behind_unapplied].
Qed.

(** *** A write is applied *)

Lemma live_records_twice t m : live_records t (live_records t m) = live_records t m.
Proof.
  apply map_eq. intros k. rewrite !live_records_lookup. destruct (m !! k) as [r|]; [|done]. simpl.
  destruct (Store.is_live t r) eqn:E; [|done]. simpl. by rewrite E.
Qed.

Lemma apply_inv target phase t lm e os pl store' :
  apply_operations dt_json (store target) (map memory_op os) = Some store' ->
  inv (mk_State target phase t lm (Some (mk_Write e os pl None false))) ->
  inv (mk_State (with_store store' target) phase t lm
    (Some (mk_Write e os pl (Some (live_records t (Store.records (store target)))) false))).
Proof.
  intros Happ [Hf Hr Hh Hm Hfit Hw Hp]. at_state.
  destruct (Hw _ eq_refl) as [Hg Hfr Hof Hpl _ _]. cbn [ops frame_bytes place] in *.
  assert (phase <> Remapped) as Hne by by destruct phase. specialize (Hr Hne).
  destruct (apply_operations_records _ t os _ _ lm Happ Hr) as [Hrep Hold].
  split; at_state; try done.
  - intros k r Hnone Hk. destruct (Hold k r Hk) as [?|[Hk0 _]]; [done|by apply (Hm k r)].
  - intros w [= <-]. split; try done. intros b [= <-] _. split.
    + unfold represents_live. rewrite live_records_twice. exact Hr.
    + intros k r Hnone Hk. rewrite live_records_lookup in Hk. apply bind_Some in Hk as (r' & Hk' & Hl).
      destruct (Store.is_live t r'); [|done]. injection Hl as <-. by apply (Hm k r').
  - destruct phase as [|base|base l c a g q|base l c a|base l|base l|base l|]; simpl in *; try done.
    + destruct Hp as (opsS & opsA & opsB & Hc & Hex). exists opsS, opsA, opsB. split; [done|].
      intros w offset [= <-] Hpl' Hle. by apply (Hex _ offset eq_refl).
    + destruct Hp as [(new & Hn & Hs & Hc & Ha & _) Hcop]. split; [|done]. exists new.
      split; [done|]. split; [done|]. split; [|split].
      * intros k r Hk. rewrite live_records_lookup in Hk. apply bind_Some in Hk as (r0 & Hk & Hl).
        destruct (Store.is_live t r0) eqn:El; [|done]. injection Hl as ->.
        destruct (Hold k r Hk) as [[v Hv]|[Hk0 Hun]].
        -- left. rewrite Hv. split; [done|]. intros (_ & _ & offset & Ho & Hlt). simpl in Ho.
           specialize (Ha _ offset eq_refl Ho eq_refl). lia.
        -- rewrite replay_untouched by done. destruct (Hc k r) as [[? _]|?]; [|left|by right].
           { rewrite live_records_lookup, Hk0. simpl. by rewrite El. }
           split; [done|]. by intros (_ & Ht & _).
      * by intros w offset [= <-].
      * intros w b [= <-] _ [= <-] _. intros k r Hk. rewrite live_records_twice in Hk. by apply (covered_none _ _ _ _ _ _ _ Hc).
Qed.

(** *** Its frame reaches the log *)

Lemma cut_at_write base snapshot wal t lm opsS opsA opsB enc ops :
  cut_at base snapshot wal t lm opsS opsA opsB -> log_file enc ops ->
  cut_at base snapshot (wal ++ enc) t (replay lm ops) opsS opsA (opsB ++ ops).
Proof.
  intros (a & b & -> & Hz & HS & HA & HB & He) Hlog. exists a, (b ++ enc). rewrite app_assoc.
  split_and!; [done|done|done|done|by apply log_file_app|].
  rewrite !app_assoc, replay_app, <- app_assoc. by apply alive_replay_eq.
Qed.

Lemma copied_write base copied_up_to appended target enc :
  0 <= base -> copied base copied_up_to appended target ->
  copied base copied_up_to appended (appended_wal enc target).
Proof.
  intros Hb [Hle Ha]. unfold copied. simpl. split; [zlia|]. destruct appended; [|done].
  rewrite slice_app_l by lia. done.
Qed.

Lemma cut_at_base base snapshot wal t lm opsS opsA opsB :
  cut_at base snapshot wal t lm opsS opsA opsB -> 0 <= base <= zlen wal.
Proof. intros (a & b & -> & <- & _). zlia. Qed.

Lemma copying_base base locations t lm p target :
  copying base locations t lm p target -> 0 <= base <= zlen (wal_file target).
Proof. intros (new & _ & (? & ? & ? & ? & ? & ? & Hcut & _) & _). by eapply cut_at_base. Qed.

Lemma appended_reads target e :
  (forall r, value_reader target = Some r -> ValueReader.wal r = Some (wal_file target)) ->
  forall r v, resolves (reads target) r v -> resolves (reads (appended_wal e target)) r v.
Proof.
  intros Hh. apply resolves_app. unfold reads, appended_wal. simpl.
  destruct (value_reader target) as [r|] eqn:Er; simpl; [|intros; by exists []].
  intros [|]; simpl; [exists []; by rewrite app_nil_r|]. rewrite (Hh r eq_refl). by exists e.
Qed.

Lemma log_inv target phase t lm e os bf tk :
  inv (mk_State target phase t lm (Some (mk_Write e os None bf tk))) ->
  inv (mk_State (appended_wal e target) phase t lm (Some (mk_Write e os (Some (zlen (wal_file target))) bf tk))).
Proof.
  intros [Hf Hr Hh Hm Hfit Hw Hp]. at_state.
  destruct (Hw _ eq_refl) as [Hg [Hlog Hne'] Hof Hpl Htk _]. cbn [ops frame_bytes place taken before] in *.
  assert (phase <> Remapped /\ rotated phase = false) as [Hne Hrot] by by destruct phase.
  specialize (Hr Hne). unfold logged, shown in *. at_state. cbn [logged_ops place ops] in *.
  split; at_state; unfold logged, shown; at_state; cbn [logged_ops place ops].
  - destruct Hf as (opsS & opsW & HS & HW & He). exists opsS, (opsW ++ os). simpl.
    split; [done|]. split; [by apply log_file_app|].
    rewrite app_assoc, replay_app. by apply alive_replay_eq.
  - intros _. eapply represents_live_mono; [|exact Hr]. apply appended_reads. by intros; apply Hh.
  - intros r _. unfold appended_wal. simpl. destruct (value_reader target); [|done]. by intros [= <-].
  - intros k r Hnone Hk. apply (Hm k r); [|done]. revert Hnone. simpl. by destruct (value_reader target).
  - done.
  - intros w [= <-]. split; cbn [ops frame_bytes place taken before]; try done.
    intros offset [= <-]. simpl. rewrite zlen_app. assert (zlen e <> 0) by (by intros ?%zlen_0). zlia.
  - destruct phase as [|base|base l c a g q|base l c a|base l|base l|base l|]; simpl in *; try done.
    + destruct Hp as (opsS & opsA & opsB & Hc & _). exists opsS, opsA, (opsB ++ os). split; [by apply cut_at_write|].
      intros w offset [= <-] _ _. exists opsB. split; [done|]. by destruct Hc as (_ & _ & _ & _ & _ & _ & _ & ?).
    + destruct Hp as [Hcop' Hcop]. pose proof (copying_base _ _ _ _ _ _ Hcop') as Hb.
      split; [|by apply copied_write; [lia|]].
      destruct Hcop' as (new & Hn & (opsS & opsA & opsB & don & rest & opsN & Hcut & Ho & Hnew & He) & Hc & _ & _).
      exists new. split; [done|]. split; [|split; [|split; [intros w offset [= <-] [= <-] _; lia|by intros w b [= <-]]]].
      * cbn [owed taken place ops] in *. destruct tk.
        -- exists opsS, opsA, (opsB ++ os), don, rest, opsN. split; [by apply cut_at_write|].
           by rewrite app_nil_r.
        -- exists opsS, opsA, (opsB ++ os), don, (rest ++ os), opsN. split; [by apply cut_at_write|].
           rewrite app_nil_r in *. split; [by rewrite Ho, app_assoc|done].
      * intros k r Hk. destruct (Hc k r Hk) as [[? _]|?]; [left|by right]. split; [done|].
        intros (_ & _ & offset & [= <-] & Hlt). lia.
Qed.

(** *** It ends *)

(** Publishing moves values from memory to the log. *)
Lemma published_means (w : Write) (offset : Z) target (t : Z) (m m' : gmap bytes Store.StoreRecord)
    (lm : gmap bytes LogRecord) :
  published w offset target m m' -> represents_live (reads target) t m lm ->
  represents_live (reads target) t m' lm.
Proof.
  intros Hpub Hm k. specialize (Hm k). rewrite live_records_lookup in *.
  destruct (Hpub k) as [->|(r & r' & v & l & E & E' & _ & _ & Hv & Hv' & He & Hd & _ & _ & Hres)]; [done|].
  rewrite E in Hm. rewrite E'. cbn [mbind option_bind] in *.
  assert (Store.is_live t r' = Store.is_live t r) as -> by (unfold Store.is_live; by rewrite He).
  destruct (Store.is_live t r); [|by inversion Hm; constructor].
  inversion Hm as [? lr (Hval & Hexp & Hdt)|]; subst. constructor.
  rewrite Hv in Hval. cbn [resolves] in Hval. split; [rewrite Hv', Hval; exact Hres|]. by rewrite He, Hd.
Qed.

Lemma done_inv target phase t lm w offset b store' :
  place w = Some offset -> before w = Some b ->
  published w offset target (Store.records (store target)) (Store.records store') ->
  inv (mk_State target phase t lm (Some w)) ->
  inv (mk_State (with_store store' target) phase t (replay lm (ops w)) None).
Proof.
  intros Hplace Hbefore Hpub [Hf Hr Hh Hm Hfit Hw Hp]. at_state.
  destruct (Hw _ eq_refl) as [Hg Hfr Hof Hpl _ _].
  assert (logged_ops (Some w) = ops w /\ applied_ops (Some w) = ops w /\ owed (Some w) = []) as (El & Ea & Eo).
  { simpl. rewrite Hplace, Hbefore. by destruct (taken w). }
  unfold logged, shown in *. at_state. rewrite El, Ea in *.
  split; at_state; unfold logged, shown; at_state; try done.
  - intros Hne. eapply published_means; [exact Hpub|by apply Hr].
  - intros k r Hnone Hk. destruct (Hpub k) as [E|(? & ? & ? & ? & _ & _ & _ & [rd Hrd] & _)].
    + apply (Hm k r Hnone). by rewrite <- E.
    + simpl in Hnone. congruence.
  - by apply replay_fits.
  - destruct phase as [|base|base l c a g q|base l c a|base l|base l|base l|]; cbn [phase_inv] in *; try done.
    + destruct Hp as (opsS & opsA & opsB & Hc & _). rewrite El in Hc. exists opsS, opsA, opsB. by split.
    + destruct Hp as [(new & Hn & Hs & Hc & _ & _) Hcop]. split; [|done]. rewrite El, Ea, Eo in *.
      exists new. split; [done|]. split; [done|]. split; [|split; [by intros ? ? [=]|by intros ? ? [=]]].
      assert (forall k r, live_records t (Store.records (store target)) !! k = Some r ->
        behind base (Some w) k -> exists l', l !! k = Some l' /\
          forall lr, replay lm (ops w) !! k = Some lr -> resolves (files_of new []) (Store.Disk l') (log_value lr))
        as Hbeh by (intros k r Hk Hb; destruct (Hc k r Hk) as [[_ []]|?]; done).
      intros k r Hk. rewrite live_records_lookup in Hk. apply bind_Some in Hk as (r0 & Hk & Hl).
      destruct (Store.is_live t r0) eqn:Elive; [|done]. injection Hl as ->. cbn [with_store with_wal store] in Hk.
      destruct (Hpub k) as [E|(r1 & r' & v & loc & E1 & E' & Ht & _ & Hv & Hv' & He & Hd & Hfile & Hoff & Hres)].
      * rewrite E in Hk. destruct (Hc k r) as [[? _]|?]; [|left|by right].
        -- rewrite live_records_lookup, Hk. simpl. by rewrite Elive.
        -- split; [done|]. by intros [].
      * rewrite E' in Hk. injection Hk as ->.
        assert (live_records t (Store.records (store target)) !! k = Some r1) as Hlr.
        { rewrite live_records_lookup, E1. simpl. unfold Store.is_live in *. rewrite He in Elive. by rewrite Elive. }
        destruct (decide (base <= offset)) as [Hle|Hlt].
        -- left. rewrite Hv'. split; [split; [done|lia]|]. by intros [].
        -- right. apply (Hbeh k r1 Hlr). split; [by eexists|]. split; [done|]. exists offset. split; [done|lia].
Qed.

Lemma restored_means (files : Store.ValueFile -> bytes) (w : Write) (b m m' : gmap bytes Store.StoreRecord) (t : Z) (lm : gmap bytes LogRecord) :
  restored w b m m' -> represents_live files t b lm -> represents_live files t m (replay lm (ops w)) ->
  represents_live files t m' lm.
Proof.
  intros Hres Hb Hm k. specialize (Hres k). specialize (Hb k). specialize (Hm k).
  rewrite live_records_lookup, alive_lookup in *. destruct (decide (touched k w)) as [Ht|Hn].
  - destruct Hres as [r r' (Hv & He & Hd)|]; [|done]. cbn [mbind option_bind] in *.
    assert (Store.is_live t r' = Store.is_live t r) as -> by (unfold Store.is_live; by rewrite He).
    destruct (Store.is_live t r); [|by inversion Hb; constructor].
    inversion Hb as [? lr (HA & HB & HC)|]; subst. constructor. unfold record_means. by rewrite <- Hv, <- He, <- Hd.
  - rewrite Hres. by rewrite replay_untouched in Hm.
Qed.

Lemma fail_inv target phase t lm w b store' :
  place w = None -> before w = Some b -> taken w = false ->
  restored w b (Store.records (store target)) (Store.records store') ->
  inv (mk_State target phase t lm (Some w)) -> inv (mk_State (with_store store' target) phase t lm None).
Proof.
  intros Hplace Hbefore Htaken Hres [Hf Hr Hh Hm Hfit Hw Hp]. at_state.
  destruct (Hw _ eq_refl) as [Hg Hfr Hof _ _ Hb]. destruct (Hb b Hbefore Hplace) as [Hbr Hbm].
  assert (logged_ops (Some w) = [] /\ applied_ops (Some w) = ops w /\ owed (Some w) = []) as (El & Ea & Eo).
  { simpl. by rewrite Hplace, Hbefore, Htaken. }
  unfold logged, shown in *. at_state. rewrite El, Ea in *.
  split; at_state; unfold logged, shown; at_state; try done.
  - intros Hne. eapply restored_means; [exact Hres|exact Hbr|by apply Hr].
  - intros k r Hnone Hk. specialize (Hres k). cbn [with_store with_wal store] in Hk. rewrite Hk in Hres.
    destruct (decide (touched k w)); [|by apply (Hm k r)].
    inversion Hres as [r0 ? (Hv & _) E0|]; subst. unfold in_memory. rewrite <- Hv. by apply (Hbm k r0).
  - destruct phase as [|base|base l c a g q|base l c a|base l|base l|base l|]; cbn [phase_inv] in *; try done.
    + destruct Hp as (opsS & opsA & opsB & Hc & _). rewrite El in Hc. exists opsS, opsA, opsB. by split.
    + destruct Hp as [(new & Hn & Hs & Hc & _ & Hcf) Hcop]. split; [|done]. rewrite El, Ea, Eo in *.
      exists new. split; [done|]. split; [done|]. split; [|split; [by intros ? ? [=]|by intros ? ? [=]]].
      specialize (Hcf w b eq_refl Hplace Hbefore Htaken).
      intros k r Hk. rewrite live_records_lookup in Hk. apply bind_Some in Hk as (r0 & Hk & Hl).
      destruct (Store.is_live t r0) eqn:Elive; [|done]. injection Hl as ->. cbn [with_store with_wal store] in Hk.
      specialize (Hres k). rewrite Hk in Hres. destruct (decide (touched k w)) as [Ht|Hn'].
      * inversion Hres as [rb ? (Hv & He & _) Eb|]; subst. rewrite <- Hv. apply (Hcf k rb).
        rewrite live_records_lookup, <- Eb. simpl. unfold Store.is_live in *. rewrite He. by rewrite Elive.
      * cbn [logged_ops applied_ops replay fold_left] in *.
        destruct (covered_none _ _ _ _ _ _ _ Hc k r) as [?|(loc & ? & Hval)]; [|by left|right].
        -- rewrite live_records_lookup, <- Hres. simpl. by rewrite Elive.
        -- exists loc. split; [done|]. intros lr Hlr. apply Hval. by rewrite replay_untouched.
Qed.

(** *** Copying *)

Lemma copy_loop_spec fuel source position end_ destination :
  0 <= position <= end_ -> end_ <= zlen source -> end_ - position <= Z.of_nat fuel ->
  copy_loop fuel source position end_ destination = destination ++ slice source position end_.
Proof.
  revert position destination. induction fuel as [|fuel IH]; intros position destination Hp He Hf; simpl.
  { replace end_ with position by lia. by rewrite slice_empty, app_nil_r. }
  destruct (Z.ltb_spec position end_) as [Hlt|Hge];
    [|replace end_ with position by lia; by rewrite slice_empty, app_nil_r].
  assert (0 < COPY_CHUNK) as Hc by done. set (n := Z.min (end_ - position) COPY_CHUNK).
  assert (ValueReader.file_read source position n = slice source position (position + n)) as ->.
  { unfold ValueReader.file_read. destruct (Z.leb_spec (zlen source) position); [lia|].
    f_equal. lia. }
  pose proof (zlen_slice source position (position + n) ltac:(lia) ltac:(lia)) as Hz.
  destruct (decide (slice source position (position + n) = [])) as [E|_]; [apply zlen_0 in E; lia|].
  rewrite Hz. replace (position + (position + n - position)) with (position + n) by lia.
  rewrite IH by lia. rewrite <- app_assoc. f_equal. symmetry. apply slice_split; lia.
Qed.

(** What [copy_file_range] does with a range inside the source. *)
Lemma copy_file_range_spec source destination start end_ append :
  0 <= start <= end_ -> end_ <= zlen source ->
  copy_file_range source destination start end_ append =
    Ok ((if append : bool then default [] destination else []) ++ slice source start end_).
Proof.
  intros Hs He. unfold copy_file_range. destruct (Z.ltb_spec end_ start); [lia|].
  destruct (Z.ltb_spec start end_).
  - rewrite copy_loop_spec; [done|lia|done|]. unfold zlen in *. lia.
  - replace end_ with start by lia. by rewrite slice_empty, app_nil_r.
Qed.

(** A copy from where the last one ended to the head of the log. *)
Lemma copied_more base copied_up_to appended target file :
  0 <= base -> copied base copied_up_to appended target ->
  copy_file_range (wal_file target) (temporary_wal target) copied_up_to (zlen (wal_file target)) appended = Ok file ->
  copied base (zlen (wal_file target)) true (with_temporary_wal target file).
Proof.
  intros Hb [Hle Ha]. rewrite copy_file_range_spec by lia. intros [= <-]. unfold copied. simpl.
  split; [lia|]. f_equal. destruct appended.
  - rewrite Ha. simpl. symmetry. apply slice_split; lia.
  - by rewrite Ha.
Qed.

(** *** The snapshot *)

(** A value a store refers to is read. *)
Lemma materialize_resolves target r v :
  resolves (reads target) r v -> (value_reader target = None -> in_memory r) ->
  Store.materialize (read_value error_text target) r = Ok v.
Proof.
  destruct r as [value|l]; simpl; [by intros ->|]. intros (Hl & Hv) Hmem.
  unfold read_value. destruct (value_reader target) as [rd|] eqn:Er; [|by destruct Hmem]. simpl.
  assert (ValueReader.read l rd = Ok v) as ->; [|done].
  destruct (decide (v = [])) as [->|Hne].
  { unfold ValueReader.read. by rewrite Hl. }
  destruct Hv as [|Hv]; [done|]. apply slice_get_Some in Hv as (Hr & Hle & ->).
  unfold reads in *. rewrite Er in *.
  destruct (match Store.loc_file l with Store.Snapshot => _ | Store.Wal => _ end) as [file|] eqn:Hfile.
  - simpl in *. rewrite (ValueReader.read_in rd l file) by (done || lia). done.
  - simpl in *. rewrite zlen_nil in Hle. destruct Hne. unfold slice. by rewrite drop_nil, take_nil.
Qed.

Lemma collect_Forall2 rv l es :
  Store.collect rv l = Ok es -> Forall2 (fun kr e => Store.entry_of rv kr.1 kr.2 = Ok e) l es.
Proof.
  revert es. induction l as [|[k r] l IH]; intros es; simpl; [intros [= <-]; constructor|].
  destruct (Store.entry_of rv k r) as [e|] eqn:E; simpl; [|done].
  destruct (Store.collect rv l) as [es'|]; simpl; [|done]. intros [= <-].
  apply Forall2_cons. split; [done|by apply IH].
Qed.

(** The entries of the live view are the live records, with their values. *)
Lemma entries_live target t lm es :
  represents_live (reads target) t (Store.records (store target)) lm ->
  memory_only target (Store.records (store target)) ->
  Store.entries (read_value error_text target) t (store target) = Ok es ->
  NoDup (map Store.entry_key es) /\
  (forall e, e ∈ es -> alive t lm !! Store.entry_key e = Some (entry_record e)) /\
  (forall k, is_Some (alive t lm !! k) -> k ∈ map Store.entry_key es).
Proof.
  intros Hrep Hmem Hes. unfold Store.entries in Hes. apply collect_Forall2 in Hes.
  set (m := filter (fun kr => Store.is_live t kr.2 = true) (Store.records (store target))) in *.
  assert (Forall2 (fun kr e => Store.entry_key e = kr.1 /\ alive t lm !! kr.1 = Some (entry_record e))
            (map_to_list m) es) as Hall.
  { assert (forall kr, kr ∈ map_to_list m -> m !! kr.1 = Some kr.2) as Hin
      by (intros [k r]; apply elem_of_map_to_list).
    revert Hin. induction Hes as [|[k r] e l es He _ IH]; intros Hin; [constructor|].
    apply Forall2_cons. split; [|apply IH; intros; apply Hin; by right].
    specialize (Hin (k, r) (list_elem_of_here _ _)). simpl in Hin.
    unfold Store.entry_of in He. simpl in He. destruct (Store.materialize _ _) as [v|] eqn:Ev; [|done].
    injection He as <-. simpl. split; [done|]. pose proof (Hrep k) as Hk.
    unfold live_records in Hk. fold m in Hk. rewrite Hin in Hk. inversion Hk as [? [v' e d] (Hv & Hexp & Hdt)|].
    simpl in *. unfold entry_record. simpl. rewrite (materialize_resolves target (Store.value_ref r) v' Hv) in Ev.
    - injection Ev as ->. congruence.
    - intros Hnone. eapply Hmem; [done|]. apply map_lookup_filter_Some in Hin as [Hr _]. exact Hr. }
  assert (map Store.entry_key es = (map_to_list m).*1) as Hkeys.
  { clear -Hall. induction Hall as [|[k r] e l es [Hk _] _ IH]; [done|]. simpl. by rewrite Hk, IH. }
  rewrite Hkeys. split; [apply NoDup_fst_map_to_list|]. split.
  - intros e He. apply list_elem_of_lookup in He as [i Hi].
    destruct (Forall2_lookup_r _ _ _ _ _ Hall Hi) as ([k r] & _ & -> & Ha). exact Ha.
  - intros k [lr Hk]. pose proof (Hrep k) as Hk'. unfold live_records in Hk'. fold m in Hk'.
    rewrite Hk in Hk'. inversion Hk' as [r ? ? Hr|]. apply list_elem_of_fmap. exists (k, r).
    split; [done|]. by apply elem_of_map_to_list.
Qed.

Context (Hjson : json_law dt_json metadata_of_json).

Lemma take_snapshot_spec target t lm target' snap :
  represents_live (reads target) t (Store.records (store target)) lm ->
  memory_only target (Store.records (store target)) ->
  (forall k l, lm !! k = Some l -> fits k l) ->
  take_snapshot dt_json error_text t target = Ok (target', snap) ->
  exists new ops, log_file new ops /\ alive t (replay ∅ ops) = alive t lm /\
    target' = mk_CompactionTarget (snapshot_file target) (wal_file target) (Some new) (temporary_wal target)
                (value_reader target) (store target) (stats target') /\
    forall base p, covered base (Snapshot.locations snap) new t (Store.records (store target)) lm p.
Proof.
  intros Hrep Hmem Hfit. unfold take_snapshot. destruct (Store.entries _ _ _) as [es|] eqn:Hes; [|done].
  destruct (entries_live target t lm es Hrep Hmem Hes) as (Hnd & Hin & Hdom).
  assert (Forall (entry_wf dt_json) es) as Hwf.
  { apply Forall_forall. intros e He. specialize (Hin e He). rewrite alive_lookup in Hin.
    apply bind_Some in Hin as (lr & Hlr & Hlive). destruct (live_log t lr); [|done]. injection Hlive as ->.
    specialize (Hfit _ _ Hlr). by destruct e. }
  destruct (write_snapshot_entries_ok dt_json metadata_of_json es Hwf) as (encs & r & -> & Henc & _ & _ & Hlocs).
  intros [= <- <-]. exists (concat encs), (map entry_op es).
  split; [by apply snapshot_log_file|]. split; [|split; [done|]].
  - rewrite alive_replay. unfold alive at 1. rewrite map_filter_empty, map_map.
    rewrite (map_ext _ (entry_log t)) by (intros e; symmetry; apply entry_log_op).
    apply map_eq. intros k. destruct (decide (k ∈ map Store.entry_key es)) as [Hk|Hk].
    + apply list_elem_of_In, in_map_iff in Hk as (e & <- & He). apply list_elem_of_In in He.
      rewrite replay_entry, (Hin e He) by done. specialize (Hin e He). rewrite alive_lookup in Hin.
      apply bind_Some in Hin as (lr & _ & Hlive). destruct (live_log t lr) eqn:El; [|done].
      injection Hlive as ->. unfold entry_live. unfold live_log in El. simpl in El. by rewrite El.
    + rewrite replay_other, lookup_empty by done. destruct (alive t lm !! k) eqn:E; [|done].
      destruct Hk. apply Hdom. by eexists.
  - intros base p k rec Hk. right. specialize (Hrep k). rewrite Hk in Hrep.
    inversion Hrep as [? lr Hmeans Hr Hlr|]. symmetry in Hlr.
    assert (k ∈ map Store.entry_key es) as Hin_k by (apply Hdom; by eexists).
    apply list_elem_of_In, in_map_iff in Hin_k as (e & <- & He). apply list_elem_of_In in He.
    destruct (Hlocs Hnd e He) as (l & Hl & Hfile & Hlen & Hval). exists l. split; [done|]. intros lr' Hlr'.
    rewrite (Hin e He) in Hlr. injection Hlr as <-. assert (lr' = entry_record e) as ->.
    { specialize (Hin e He). rewrite alive_lookup, Hlr' in Hin. simpl in Hin. by destruct (live_log t lr'); simplify_eq. }
    split; [done|]. right. by rewrite Hfile.
Qed.

(** *** The rotation *)

Lemma cut_slice_from base snapshot wal t lm opsS opsA opsB :
  cut_at base snapshot wal t lm opsS opsA opsB ->
  log_file (slice_from wal base) opsB /\ wal = slice wal 0 base ++ slice_from wal base /\
  zlen (slice wal 0 base) = base /\ log_file wal (opsA ++ opsB).
Proof.
  intros (a & b & -> & <- & HS & HA & HB & He). rewrite slice_from_zlen.
  rewrite slice_app_l by zlia. rewrite slice_all. split_and!; [done..|by apply log_file_app].
Qed.

(** A snapshot in place stands for the state with the whole log, and with the
    part of the log from the base offset on. *)
Lemma snapshot_in_place base snapshot wal t lm new :
  snapshot_of base snapshot wal t lm [] new ->
  files_hold new wal t lm /\ files_hold new (slice_from wal base) t lm.
Proof.
  intros (opsS & opsA & opsB & don & rest & opsN & Hcut & Ho & Hnew & He). rewrite app_nil_r in Ho. subst opsB.
  destruct (cut_slice_from _ _ _ _ _ _ _ _ Hcut) as (Hb & _ & _ & Hw).
  destruct Hcut as (_ & _ & _ & _ & _ & _ & _ & Hlm). split.
  - exists opsN, (opsA ++ don ++ rest). split; [done|]. split; [done|].
    rewrite <- Hlm, !replay_app, <- !replay_app. rewrite (replay_app ∅ opsN).
    rewrite (alive_replay_eq _ _ _ _ He). rewrite (replay_app ∅ opsS), (app_assoc opsA).
    rewrite replay_absorb. by rewrite <- replay_app.
  - exists opsN, (don ++ rest). split; [done|]. split; [done|].
    rewrite (replay_app ∅ opsN), (alive_replay_eq _ _ _ _ He), <- Hlm.
    rewrite (app_assoc opsS opsA don), (replay_app _ (opsS ++ opsA)), replay_absorb.
    by rewrite <- replay_app, <- app_assoc.
Qed.

Lemma remap_live (files files' : Store.ValueFile -> bytes) (base : Z) (locations : gmap bytes Store.ValueLoc)
    (t : Z) (m : gmap bytes Store.StoreRecord) (lm : gmap bytes LogRecord) (new a wal : bytes) :
  represents_live files t m lm ->
  covered base locations new t m lm None -> zlen a = base ->
  (forall k r, m !! k = Some r -> in_memory (Store.value_ref r) \/ files Store.Wal = a ++ wal) ->
  files' = files_of new wal ->
  represents_live files' t
    (map_imap (fun key record => Some (Store.remap_record (remap base locations) key record)) m) lm.
Proof.
  intros Hrep Hcov Ha Hwal -> k. specialize (Hrep k). specialize (Hcov k).
  rewrite live_records_lookup in *. rewrite map_lookup_imap.
  destruct (m !! k) as [r|] eqn:Em; simpl; [|inversion Hrep; constructor].
  assert (Store.is_live t (Store.remap_record (remap base locations) k r) = Store.is_live t r) as Hlive.
  { unfold Store.remap_record. destruct (Store.value_ref r); [done|]. by destruct (remap _ _ _ _ _). }
  rewrite Hlive. simpl in Hrep, Hcov.
  destruct (Store.is_live t r); [|inversion Hrep; constructor].
  inversion Hrep as [? lr (Hv & Hexp & Hdt) Hr Hlr|]; subst. symmetry in Hlr. constructor.
  assert (lm !! k = Some lr) as Hlm.
  { rewrite alive_lookup in Hlr. destruct (lm !! k) as [l|]; [|done]. simpl in Hlr.
    by destruct (live_log t l). }
  specialize (Hcov r eq_refl).
  assert (forall r v, resolves (files_of new []) r v -> resolves (files_of new wal) r v) as Hgrow.
  { apply resolves_app. intros [|]; [exists []; simpl; by rewrite app_nil_r|by exists wal]. }
  assert (Store.expire_at (Store.remap_record (remap (zlen a) locations) k r) = log_expire_at lr /\
          Store.datetimes (Store.remap_record (remap (zlen a) locations) k r) = log_datetimes lr) as [? ?].
  { unfold Store.remap_record. destruct (Store.value_ref r); [done|]. by destruct (remap _ _ _ _ _). }
  split; [|done]. destruct (Hwal k r Em) as [[v Hmem]|Hw].
  { unfold Store.remap_record. rewrite Hmem in *. simpl in *. by rewrite Hmem. }
  unfold Store.remap_record. destruct (Store.value_ref r) as [v|l] eqn:Eref; [by rewrite Eref|].
  unfold remap. destruct (Store.loc_file l) eqn:Ef; [|destruct (Z.leb_spec (zlen a) (Store.loc_offset l)) as [Hle|Hlt]].
  - destruct Hcov as [[[Hf _] _]|(l' & -> & Hres)]; [congruence|]. simpl.
    by apply (Hgrow (Store.Disk l')), Hres.
  - simpl. destruct Hv as (Hl & [Hv|Hv]); (split; [done|]); [by left|right]. rewrite Ef, Hw in Hv.
    apply slice_get_Some in Hv as (Hb & Hz & Hv). rewrite zlen_app in Hz.
    rewrite slice_app_r in Hv by lia. rewrite slice_get_in by lia. rewrite Hv. do 2 f_equal. lia.
  - destruct Hcov as [[[_ Hle] _]|(l' & -> & Hres)]; [lia|]. simpl.
    by apply (Hgrow (Store.Disk l')), Hres.
Qed.

(** All values in memory: the files do not matter. *)
Lemma memory_live (files files' : Store.ValueFile -> bytes) (t : Z) (m : gmap bytes Store.StoreRecord)
    (lm : gmap bytes LogRecord) :
  (forall k r, m !! k = Some r -> in_memory (Store.value_ref r)) ->
  represents_live files t m lm -> represents_live files' t m lm.
Proof.
  intros Hm Hrep k. specialize (Hrep k). rewrite live_records_lookup in *.
  destruct (m !! k) as [r|] eqn:E; [|by inversion Hrep; constructor]. specialize (Hm k r E). simpl in *.
  destruct (Store.is_live t r); [|by inversion Hrep; constructor].
  inversion Hrep as [? ? (Hv & ?)|]; subst. constructor. split; [|done].
  destruct Hm as [v Hr]. by rewrite Hr in *.
Qed.

(** Opening the reader on the files as they are. *)
Lemma reopen_inv target t lm :
  files_hold (snapshot_file target) (wal_file target) t lm ->
  memory_only target (Store.records (store target)) ->
  (forall k l, lm !! k = Some l -> fits k l) ->
  represents_live (files_of (snapshot_file target) (wal_file target)) t (Store.records (store target)) lm ->
  inv (mk_State (reopen_reader target) Idle t lm None).
Proof.
  intros Hf Hm Hfit Hrep. split; at_state; unfold logged, shown; at_state; try done.
  - intros _. unfold reads, reopen_reader. simpl. destruct (value_reader target) as [r|] eqn:Er; simpl.
    + eapply represents_live_mono; [|exact Hrep]. apply resolves_app.
      intros [|]; exists []; simpl; by rewrite app_nil_r.
    + eapply memory_live; [|exact Hrep]. intros k r Hk. by eapply Hm.
  - intros r _. unfold reopen_reader. simpl. destruct (value_reader target); [|done]. by intros [= <-].
  - intros k r Hnone Hk. eapply (Hm k r); [|exact Hk]. revert Hnone. unfold reopen_reader. simpl.
    by destruct (value_reader target).
Qed.

Lemma remapped_memory base locations k (store : Store.Store T) r :
  (forall k r, Store.records store !! k = Some r -> in_memory (Store.value_ref r)) ->
  Store.records (Store.remap_locations (remap base locations) store) !! k = Some r ->
  in_memory (Store.value_ref r).
Proof.
  intros Hm. simpl. rewrite map_lookup_imap. intros (r0 & Hk & [= <-])%bind_Some.
  destruct (Hm k r0 Hk) as [v Hv]. unfold Store.remap_record. rewrite Hv. by exists v.
Qed.

Lemma remap_inv target base locations t lm :
  inv (mk_State target (Rotated base locations) t lm None) ->
  inv (mk_State (remap_store base locations target) Remapped t lm None).
Proof.
  intros [Hf Hr Hh Hm Hfit _ Hp]. unfold logged, shown in *. at_state.
  destruct Hp as [(a & Ha & Hwal) Hcov].
  split; at_state; unfold logged, shown; at_state; try done.
  - intros k r Hnone Hk. eapply remapped_memory; [|exact Hk]. intros k' r' ?. by eapply Hm.
  - simpl. eapply (remap_live (reads target)); [by apply Hr|exact Hcov|exact Ha| |done].
    intros k r Hk. destruct (value_reader target) as [rd|] eqn:Er; [right|left; by eapply Hm].
    unfold reads. rewrite Er, (Hwal rd eq_refl). done.
Qed.

(** Writes in progress are only met while the gate is open. *)
Lemma gate_closed target phase t lm p :
  inv (mk_State target phase t lm p) -> gate_open phase = false -> p = None.
Proof.
  intros I Hg. destruct p as [w|]; [|done]. destruct (inv_pending _ I w eq_refl) as [Ho _ _ _ _ _].
  at_state. congruence.
Qed.

Lemma forget_logged p : logged_ops (forget_taken p) = logged_ops p /\ applied_ops (forget_taken p) = applied_ops p.
Proof. by destruct p. Qed.

Lemma idle_inv target phase t lm p :
  inv (mk_State target phase t lm p) -> rotated phase = false ->
  inv (mk_State target Idle t lm (forget_taken p)).
Proof.
  intros I Hrot. destruct I as [Hf Hr Hh Hm Hfit Hw _]. unfold logged, shown in *. at_state.
  destruct (forget_logged p) as [El Ea].
  split; at_state; unfold logged, shown; at_state; rewrite ?El, ?Ea; try done.
  - intros _. apply Hr. by destruct phase.
  - intros r _. by apply Hh.
  - destruct p as [w|]; [|done]. intros w' [= <-]. destruct (Hw w eq_refl) as [Hg Hfr Hof Hpl _ Hb]. by split.
Qed.

Lemma abort_inv target phase t lm p :
  inv (mk_State target phase t lm p) -> inv (mk_State (on_error target phase) Idle t lm (forget_taken p)).
Proof.
  intros I. destruct phase; simpl; try by eapply idle_inv.
  - pose proof (gate_closed _ _ _ _ _ I eq_refl) as ->.
    apply remap_inv in I. destruct I as [Hf _ _ Hm Hfit _ Hp]. at_state. by apply reopen_inv.
  - pose proof (gate_closed _ _ _ _ _ I eq_refl) as ->.
    destruct I as [Hf _ _ Hm Hfit _ Hp]. at_state. by apply reopen_inv.
Qed.

(** The steps in which only the temporary log and the locals change. *)
Lemma inv_tmp target target' phase phase' t lm p :
  inv (mk_State target phase t lm p) -> rotated phase = false -> rotated phase' = false ->
  target' = target \/ (exists file, target' = with_temporary_wal target file) ->
  (forall w, p = Some w -> gate_open phase' = true) ->
  phase_inv target' phase' t lm p ->
  inv (mk_State target' phase' t lm p).
Proof.
  intros [Hf Hr Hh Hm Hfit Hw _] Hrot Hrot' Htarget Hgate Hp. unfold logged, shown in *. at_state.
  destruct Htarget as [-> | [file ->]]; (split; at_state; unfold logged, shown; at_state; try done;
    [intros _; apply Hr; by destruct phase | intros r _; by apply Hh |
     intros w E; destruct (Hw w E) as [Hg Hfr Hof Hpl Htk Hb]; split; try done; by eapply Hgate]).
Qed.

(** The snapshot is taken: what it holds is what the store shows. *)
Lemma flushed_snapshot base t lm p target new opsN :
  flushed base t lm p target -> undisturbed (Flushed base) (PreCopy base ∅ 0 false 0 0) p ->
  (forall w, p = Some w -> taken w = true -> is_Some (before w)) ->
  log_file new opsN -> alive t (replay ∅ opsN) = alive t (replay lm (applied_ops p)) ->
  snapshot_of base (snapshot_file target) (wal_file target) t (replay lm (logged_ops p))
    (owed (mark_taken (Flushed base) p)) new.
Proof.
  intros (opsS & opsA & opsB & Hcut & Hw) Hund Htk Hnew He.
  assert (alive t (replay ∅ (opsS ++ opsA ++ opsB)) = alive t (replay lm (logged_ops p))) as Hall
    by (by destruct Hcut as (_ & _ & _ & _ & _ & _ & _ & ?)).
  destruct p as [w|]; cbn [undisturbed mark_taken owed] in *.
  2: { exists opsS, opsA, opsB, opsB, [], opsN. by rewrite He, Hall. }
  destruct w as [e os pl bf tk]. cbn [frame_bytes ops place before taken logged_ops applied_ops] in *.
  destruct Hund as [_ Hund]. destruct pl as [offset|], bf as [b|]; cbn [bool_decide].
  - exists opsS, opsA, opsB, opsB, [], opsN. rewrite He, Hall, bool_decide_true by done. by split_and!.
  - rewrite bool_decide_false by (by intros []).
    destruct (Hw _ offset eq_refl eq_refl (Hund offset eq_refl eq_refl)) as (earlier & -> & Hearlier).
    cbn [ops] in *. exists opsS, opsA, (earlier ++ os), earlier, os, opsN. rewrite app_nil_r, He, Hearlier. by split_and!.
  - rewrite bool_decide_true by done. exists opsS, opsA, opsB, (opsB ++ os), [], opsN. rewrite app_nil_r.
    split; [done|]. split; [done|]. split; [done|]. rewrite He, !app_assoc, replay_app, <- app_assoc.
    symmetry. by apply alive_replay_eq.
  - rewrite bool_decide_false by (by intros []).
    exists opsS, opsA, opsB, opsB, [], opsN. rewrite He, Hall. by split_and!.
Qed.

Lemma mark_logged phase p : logged_ops (mark_taken phase p) = logged_ops p /\ applied_ops (mark_taken phase p) = applied_ops p.
Proof. by destruct phase, p. Qed.

Lemma take_inv target base t lm p target' snap :
  take_snapshot dt_json error_text t target = Ok (target', snap) ->
  undisturbed (Flushed base) (PreCopy base (Snapshot.locations snap) base false U64_MAX 0) p ->
  inv (mk_State target (Flushed base) t lm p) ->
  inv (mk_State target' (PreCopy base (Snapshot.locations snap) base false U64_MAX 0) t lm
    (mark_taken (Flushed base) p)).
Proof.
  intros Hts Hund [Hf Hr Hh Hm Hfit Hw Hp]. unfold logged, shown in *. at_state. specialize (Hr ltac:(done)).
  assert (forall k l, replay lm (applied_ops p) !! k = Some l -> fits k l) as Hfit'.
  { apply replay_fits; [done|]. destruct p as [w|]; [|constructor]. simpl. destruct (before w); [|constructor].
    by destruct (Hw w eq_refl). }
  destruct (take_snapshot_spec target t _ target' snap Hr Hm Hfit' Hts) as (new & os & Hnew & He & -> & Hcov).
  destruct (mark_logged (Flushed base) p) as [El Ea].
  assert (flushed base t lm p target) as (opsS & opsA & opsB & Hcut & Hex) by exact Hp.
  pose proof (cut_at_base _ _ _ _ _ _ _ _ Hcut) as Hb.
  split; at_state; unfold logged, shown; at_state; rewrite ?El, ?Ea; try done.
  - destruct p as [w|]; [|done]. intros w' [= <-]. destruct (Hw w eq_refl) as [_ Hfr Hof Hpl _ Hbf].
    split; try done. cbn [taken before]. by intros ?%bool_decide_eq_true.
  - split; [|split; simpl; [lia|done]]. exists new. split; [done|]. rewrite El, Ea.
    split; [|split; [|split]].
    + eapply flushed_snapshot; [exact Hp|exact Hund| |exact Hnew|exact He].
      intros w E. destruct (Hw w E) as [_ _ _ _ ? _]. done.
    + apply Hcov.
    + intros w offset. destruct p as [w0|]; [|done]. intros [= <-]. cbn [place before]. apply (proj2 Hund).
    + intros w b. destruct p as [w0|]; [|done]. intros [= <-]. cbn [place before taken]. intros _ E.
      rewrite E, bool_decide_true by done. done.
Qed.

Lemma copy_inv target phase t lm p target' phase' :
  match phase with PreCopy _ _ _ _ _ _ | Sealed _ _ _ _ => True | _ => False end ->
  run_step dt_json error_text t target phase = Ok (target', phase') -> undisturbed phase phase' p ->
  inv (mk_State target phase t lm p) -> inv (mk_State target' phase' t lm p).
Proof.
  intros Hphase Hrun Hund I. pose proof (inv_phase _ I) as Hp.
  destruct phase as [|base|base l c a g q|base l c a|base l|base l|base l|]; try done; cbn [run_step] in Hrun;
    at_state; cbn [phase_inv] in Hp; destruct Hp as [Hc Hcop]; pose proof (copying_base _ _ _ _ _ _ Hc) as Hb.
  - assert (forall w, p = Some w -> gate_open phase' = true) as Hgate by (by intros w ->; destruct Hund).
    assert (phase' = Sealed base l c a -> inv (mk_State target phase' t lm p)) as Hstop.
    { intros ->. destruct p as [w|]; [by specialize (Hgate w eq_refl)|].
      eapply inv_tmp; [exact I|done|done|by left|done|]. by split. }
    unfold precopy in Hrun.
    destruct (MAX_PRECOPY_PASSES <=? q); [injection Hrun as <- Hs; by apply Hstop|].
    destruct (_ <=? SMALL_DELTA); [injection Hrun as <- Hs; by apply Hstop|].
    destruct (_ && _); [injection Hrun as <- Hs; by apply Hstop|].
    destruct (copy_file_range _ _ _ _ _) as [file|] eqn:Hcopy; [|done]. simpl in Hrun. injection Hrun as <- <-.
    eapply inv_tmp; [exact I|done|done|right; by exists file|done|]. split; [exact Hc|].
    eapply copied_more; [lia|exact Hcop|exact Hcopy].
  - pose proof (gate_closed _ _ _ _ _ I eq_refl) as ->. unfold final_copy in Hrun.
    destruct ((zlen (wal_file target) =? c) && a) eqn:Hend.
    + injection Hrun as <- <-. eapply inv_tmp; [exact I|done|done|by left|done|]. split; [done|].
      apply andb_true_iff in Hend as [Heq ->]. apply Z.eqb_eq in Heq as <-. destruct Hcop as [_ ->].
      by rewrite slice_from_slice by lia.
    + destruct (copy_file_range _ _ _ _ _) as [file|] eqn:Hcopy; [|done]. simpl in Hrun. injection Hrun as <- <-.
      eapply inv_tmp; [exact I|done|done|right; by exists file|done|]. split; [exact Hc|].
      eapply copied_more; [lia|exact Hcop|exact Hcopy].
Qed.

Lemma replace_inv target base l t lm :
  inv (mk_State target (Closed base l) t lm None) ->
  inv (mk_State (replace_snapshot target) (SnapshotReplaced base l) t lm None).
Proof.
  intros [Hf Hr Hh Hm Hfit _ [Hc Htmp]]. unfold logged, shown in *. at_state.
  pose proof (copying_base _ _ _ _ _ _ Hc) as Hb. destruct Hc as (new & Hnew & Hsnap & Hcov & _ & _).
  destruct (snapshot_in_place _ _ _ _ _ _ Hsnap) as [Hall Hrest].
  split; at_state; unfold logged, shown, replace_snapshot; simpl; rewrite ?Hnew; simpl;
    [exact Hall | intros _; by apply Hr | intros r _; by apply Hh | exact Hm | exact Hfit | done | done].
Qed.

Lemma rotate_inv target base l t lm :
  inv (mk_State target (SnapshotReplaced base l) t lm None) ->
  inv (mk_State (replace_wal target) (Rotated base l) t lm None).
Proof.
  intros [Hf Hr Hh Hm Hfit _ (Htmp & Hb & Hrest & Hcov)]. unfold logged, shown in *. at_state.
  split; at_state; unfold logged, shown, replace_wal; simpl; rewrite ?Htmp; simpl;
    [exact Hrest | intros _; by apply Hr | done | exact Hm | exact Hfit | done |].
  split; [|done]. exists (slice (wal_file target) 0 base).
  rewrite zlen_slice by lia. split; [lia|]. intros r Hrd. rewrite (Hh r eq_refl Hrd). f_equal.
  rewrite slice_from_slice by lia. rewrite <- slice_split by lia. by rewrite slice_all.
Qed.

Lemma run_inv target phase t lm p target' phase' :
  run_step dt_json error_text t target phase = Ok (target', phase') -> undisturbed phase phase' p ->
  inv (mk_State target phase t lm p) -> inv (mk_State target' phase' t lm (mark_taken phase p)).
Proof.
  intros Hrun Hund I.
  destruct phase as [|base|base l c a g q|base l c a|base l|base l|base l|];
    try (pose proof (gate_closed _ _ _ _ _ I eq_refl) as ->); cbn [mark_taken]; cbn [run_step] in Hrun.
  - injection Hrun as <- <-. eapply inv_tmp; [exact I|done|done|by left|done|].
    destruct (inv_files _ I) as (opsS & opsW & HS & HW & He). unfold logged in He. at_state.
    exists opsS, opsW, []. split.
    + exists (wal_file target), []. rewrite !app_nil_r. split_and!; try done. apply log_file_nil.
    + intros w offset -> Hpl Hle. destruct (inv_pending _ I w eq_refl) as [_ _ _ Ho _ _].
      specialize (Ho offset Hpl). at_state. lia.
  - destruct (take_snapshot _ _ _ _) as [[tg snap]|] eqn:Hts; [|done]. simpl in Hrun. injection Hrun as <- <-.
    by eapply take_inv.
  - by apply (copy_inv target (PreCopy base l c a g q)).
  - by apply (copy_inv target (Sealed base l c a)).
  - injection Hrun as <- <-. by apply replace_inv.
  - injection Hrun as <- <-. by apply rotate_inv.
  - injection Hrun as <- <-. by apply remap_inv.
  - injection Hrun as <- <-. destruct I as [Hf _ _ Hm Hfit _ Hp]. at_state. by apply reopen_inv.
Qed.

Lemma compaction_step_inv s s' : step s s' -> inv s -> inv s'.
Proof.
  destruct 1; [eapply begin_inv|apply apply_inv|apply log_inv|eapply done_inv|eapply fail_inv|apply expire_inv|
    apply tick_inv|apply run_inv|apply abort_inv]; eassumption.
Qed.

Lemma compaction_steps_inv s s' : rtc step s s' -> inv s -> inv s'.
Proof. induction 1; eauto using compaction_step_inv. Qed.

(** ** The theorems *)

Section claims.
Context (repr : T -> list (bytes * bytes) -> Prop) `{!OrdIndex.OrderedIndexLaws OrdIndex.bytes_cmp OrdIndex.bytes_cmp repr}.

(** A database at rest: no compaction and no write runs, the files stand for what it
    holds and the store for the live part of it. *)
Definition at_rest (target : CompactionTarget T) (t : Z) (lm : gmap bytes LogRecord) : Prop :=
  inv (mk_State target Idle t lm None).

(** C32: Compaction is crash safe: from a database at rest, after any interleaving of
    the steps of compactions, their failures, expirations, ticks of the clock and the
    steps of writes (a write begins, is applied to the store, has its frame flushed,
    in either order, and then ends or, its frame not flushed, fails and puts back
    what it replaced), hence also in the middle of a write or between the
    replacement of the snapshot and that of the log, recovering from the snapshot
    and the log that are then in place loses nothing, cuts nothing, and gives
    exactly the writes whose frames have been flushed, less the records expired by
    then.  The steps exclude three interleavings, each of which loses this
    ([failed_write_becomes_durable], [unapplied_write_is_lost],
    [queued_bytes_are_not_copied]): a write that fails after a snapshot took it, a
    snapshot taken between the flush and the application of a write, and bytes that
    a flush has not brought to the file.  Datetimes lie within [2 ^ 53]
    ([op_fits]), in the state at rest too, and JSON is read as [serde_json] reads
    it ([json_law]). *)
Theorem compaction_is_crash_safe target0 t0 lm0 s mode value_mode a b :
  at_rest target0 t0 lm0 ->
  rtc step (mk_State target0 Idle t0 lm0 None) s ->
  let snapshot := snapshot_file (the_target s) in let wal := wal_file (the_target s) in
  (forall opsS opsW, log_file snapshot opsS -> log_file wal opsW -> zlen (opsS ++ opsW) < U64_MAX) ->
  exists info store ks,
    recover metadata_of_json (fun _ _ => clock s) dt_json Store.new (Some (mk_File snapshot a)) (Some (mk_File wal b))
      mode true value_mode = Some (Ok info, store, Some (mk_File wal b)) /\
    store_ok repr dt_json store ks /\ lost_bytes info = 0 /\ truncated_wal info = false /\
    represents (files_of snapshot wal) (Store.records store) (alive (clock s) (logged s)).
Proof.
  intros Hrest Hsteps snapshot wal Hbound. pose proof (compaction_steps_inv _ _ Hsteps Hrest) as I.
  destruct (inv_files _ I) as (opsS & opsW & HS & HW & He). fold snapshot in HS. fold wal in HW.
  destruct (log_file_parsed _ _ (clock s) mode HS) as [ES LS], (log_file_parsed _ _ (clock s) mode HW) as [EW LW].
  pose proof (recover_new metadata_of_json (clock s) repr dt_json (files_of snapshot wal) snapshot wal a b mode true
    value_mode eq_refl) as Hr.
  unfold file_log_ops, cut_wal in Hr. cbn [files_of contents] in Hr. rewrite ES, EW in Hr.
  cbn [frames corrupt_ranges last] in Hr. rewrite LS, LW, <- map_app in Hr.
  destruct Hr as (info & store & ks & Hrec & Hok & Hrep & Htr & Hlost).
  { unfold zlen. rewrite length_map. by apply Hbound. }
  exists info, store, ks. split; [exact Hrec|]. split; [exact Hok|]. split; [exact Hlost|]. split; [exact Htr|].
  rewrite <- He, alive_replay. unfold alive. by rewrite map_filter_empty.
Qed.

(** C33: Compaction keeps every value readable: after the same steps, at every point
    but the one between the relocation of the store and the reopening of the
    reader, and with a write applied and not yet flushed as well, a key whose record
    has not expired is in the store, live, with its expiry time and datetimes, and
    what the store reads for it is its value; and the store holds no other live
    key.  What the database shows is every write that has ended and, once it is
    applied, the one in progress.  The steps exclude what [compaction_is_crash_safe]
    excludes, and a write that fails after its own record has expired
    ([restored]). *)
Theorem compaction_keeps_reads target0 t0 lm0 s k :
  at_rest target0 t0 lm0 ->
  rtc step (mk_State target0 Idle t0 lm0 None) s ->
  the_phase s <> Remapped ->
  match alive (clock s) (shown s) !! k with
  | Some l => exists r, Store.records (store (the_target s)) !! k = Some r /\
      Store.is_live (clock s) r = true /\ Store.expire_at r = log_expire_at l /\
      Store.datetimes r = log_datetimes l /\
      Store.materialize (read_value error_text (the_target s)) (Store.value_ref r) = Ok (log_value l)
  | None => forall r, Store.records (store (the_target s)) !! k = Some r -> Store.is_live (clock s) r = false
  end.
Proof.
  intros Hrest Hsteps Hne. pose proof (compaction_steps_inv _ _ Hsteps Hrest) as I.
  pose proof (inv_reads _ I Hne k) as Hk. rewrite live_records_lookup in Hk.
  destruct (alive (clock s) (shown s) !! k) as [l|] eqn:El.
  - inversion Hk as [r ? (Hv & He & Hd) Hr|]; subst. symmetry in Hr. apply bind_Some in Hr as (r0 & Hr0 & Hlive).
    destruct (Store.is_live (clock s) r0) eqn:E; [|done]. injection Hlive as ->.
    exists r. split_and!; try done. apply materialize_resolves; [done|]. intros Hnone.
    by eapply (inv_memory _ I).
  - intros r Hr. rewrite Hr in Hk. simpl in Hk. destruct (Store.is_live (clock s) r); [by inversion Hk|done].
Qed.
End claims.
End compaction.

(** ** Examples *)

Import Additive Samples.

Definition no_text : ValueReader.ValueReaderError -> string := fun _ => ""%string.
Definition anchor : WalAnchor := mk_WalAnchor 1 2.
(** A key that does not expire. *)
Definition lasting : Frame := mk_Frame TYPE_SET (map byte_of [97]) (map byte_of [49; 50]) None 0.
Definition encoded (f : Frame) : bytes := match encode_frame f with Ok e => e | Err _ => [] end.
Definition set_op (f : Frame) : LogOp := LSet (key f) (value f) (expire_at f) None.

Abbreviation KeyState := (State (T := KeyIndex)).
Definition empty_state : KeyState :=
  mk_State (T := KeyIndex) (mk_CompactionTarget [] [] None None
    (Some (ValueReader.mk_PositionedValueReader (Some []) (Some []))) Store.new (mk_CompactionStats 0 0 0))
    Idle 100 ∅ None.

(** The steps of a write of a frame, whether or not they are allowed. *)
Definition begin_write (f : Frame) (s : KeyState) : KeyState :=
  mk_State (the_target s) (the_phase s) (clock s) (logical s) (Some (mk_Write (encoded f) [set_op f] None None false)).
Definition apply_write (s : KeyState) : KeyState :=
  match pending s with
  | Some w =>
      match apply_operations sample_json (store (the_target s)) (map memory_op (ops w)) with
      | Some store' =>
          mk_State (with_store store' (the_target s)) (the_phase s) (clock s) (logical s)
            (Some (mk_Write (frame_bytes w) (ops w) (place w)
                    (Some (live_records (clock s) (Store.records (store (the_target s))))) (taken w)))
      | None => s
      end
  | None => s
  end.
Definition log_write (s : KeyState) : KeyState :=
  match pending s with
  | Some w => mk_State (appended_wal (frame_bytes w) (the_target s)) (the_phase s) (clock s) (logical s)
      (Some (mk_Write (frame_bytes w) (ops w) (Some (zlen (wal_file (the_target s)))) (before w) (taken w)))
  | None => s
  end.
(** The value is published where the frame [f] put it. *)
Definition end_write (f : Frame) (s : KeyState) : KeyState :=
  match pending s with
  | Some w =>
      let location offset := Store.mk_ValueLoc Store.Wal (offset + HEADER_SIZE + zlen (key f)) (zlen (value f)) in
      match (offset ← place w;
             store' ← Store.set_ref sample_json (key f) (Store.Disk (location offset)) (expire_at f) None (store (the_target s));
             Some store') with
      | Some store' => mk_State (with_store store' (the_target s)) (the_phase s) (clock s) (replay (logical s) (ops w)) None
      | None => s
      end
  | None => s
  end.
(** The write fails; the key was not there before. *)
Definition fail_write (f : Frame) (s : KeyState) : KeyState :=
  match Store.del sample_json (key f) (store (the_target s)) with
  | Some (_, store') => mk_State (with_store store' (the_target s)) (the_phase s) (clock s) (logical s) None
  | None => s
  end.
Definition go_on (s : KeyState) : KeyState :=
  match run_step sample_json no_text (clock s) (the_target s) (the_phase s) with
  | Ok (target, phase) => mk_State target phase (clock s) (logical s) (mark_taken (the_phase s) (pending s))
  | Err _ => s
  end.
Definition sample_step := step (T := KeyIndex) sample_json sample_of_json no_text.

Lemma empty_at_rest : at_rest sample_json sample_of_json (the_target empty_state) 100 ∅.
Proof.
  split; simpl; try done.
  - exists [], []. split; [apply log_file_nil|]. split; [apply log_file_nil|done].
  - intros _ k. unfold live_records, alive, shown, logical. simpl. rewrite !map_filter_empty, !lookup_empty. constructor.
  - intros r _ [= <-]. done.
Qed.

(** *** Which of them are steps *)

Ltac at_state := cbn [the_target the_phase clock logical pending] in *.

Lemma go_steps s : undisturbed (the_phase s) (the_phase (go_on s)) (pending s) -> rtc sample_step s (go_on s).
Proof.
  destruct s as [target phase t lm p]. unfold go_on. at_state. intros Hund.
  destruct (run_step _ _ _ _ _) as [[target' phase']|] eqn:E; [|done]. by apply rtc_once, step_run.
Qed.

Lemma sample_wf f : f = f1 \/ f = lasting -> frame_wf f.
Proof. intros [-> | ->]; repeat split; by vm_compute. Qed.

Lemma sample_log f t :
  f = f1 \/ f = lasting -> log_ops sample_of_json t [stored_frame f] = Ok (map (expire_op t) [set_op f]).
Proof.
  intros [-> | ->]; [|by vm_compute].
  cbn. unfold frame_log_ops. rewrite decide_True by done. unfold set_log_ops. cbn.
  rewrite (Z.ltb_antisym 123 t). destruct (123 <=? t); reflexivity.
Qed.

Lemma sample_fits f : f = f1 \/ f = lasting -> op_fits sample_json (set_op f).
Proof.
  intros [-> | ->]; (split; [vm_compute; discriminate|]); (split; [vm_compute; discriminate|]);
    (split; [split; vm_compute; congruence|exact I]).
Qed.

Lemma begin_steps f s :
  f = f1 \/ f = lasting -> gate_open (the_phase s) = true -> pending s = None ->
  rtc sample_step s (begin_write f s).
Proof.
  destruct s as [target phase t lm p]. at_state. intros Hf Hg ->. apply rtc_once.
  apply (step_begin _ _ _ _ _ _ _ f); [exact Hg|by apply sample_wf| |intros; by apply sample_log|].
  - destruct Hf as [-> | ->]; vm_compute; reflexivity.
  - constructor; [by apply sample_fits|constructor].
Qed.

Lemma apply_steps s :
  match pending s with Some w => before w = None /\ taken w = false | None => True end ->
  rtc sample_step s (apply_write s).
Proof.
  destruct s as [target phase t lm [[e os pl bf tk]|]]; unfold apply_write; at_state; [|done].
  cbn [before taken ops]. intros [-> ->]. destruct (apply_operations _ _ _) as [store'|] eqn:E; [|done].
  by apply rtc_once, step_apply.
Qed.

Lemma log_steps s :
  match pending s with Some w => place w = None | None => True end -> rtc sample_step s (log_write s).
Proof.
  destruct s as [target phase t lm [[e os pl bf tk]|]]; unfold log_write; at_state; [|done].
  cbn [place]. intros ->. apply rtc_once, step_log.
Qed.

Definition can_end (f : Frame) (s : KeyState) : bool :=
  match pending s, Store.records (store (the_target s)) !! key f with
  | Some w, Some r =>
      match place w, before w, Store.value_ref r with
      | Some offset, Some _, Store.Memory v =>
          let location := Store.mk_ValueLoc Store.Wal (offset + HEADER_SIZE + zlen (key f)) (zlen (value f)) in
          bool_decide (v = value f) && (Store.expire_at r =? expire_at f) && bool_decide (Store.datetimes r = None) &&
          bool_decide (touched (key f) w) && bool_decide (is_Some (value_reader (the_target s))) &&
          bool_decide (resolves (reads (the_target s)) (Store.Disk location) (value f))
      | _, _, _ => false
      end
  | _, _ => false
  end.

Lemma end_steps f s : can_end f s = true -> rtc sample_step s (end_write f s).
Proof.
  destruct s as [target phase t lm p]. unfold can_end, end_write. at_state. destruct p as [w|]; [|done].
  destruct (Store.records (store target) !! key f) as [r|] eqn:Er; [|done].
  destruct (place w) as [offset|] eqn:Epl; [|done]. destruct (before w) as [b|] eqn:Eb; [|done].
  destruct (Store.value_ref r) as [v|] eqn:Ev; [|done]. cbn [mbind option_bind]. set (location := Store.mk_ValueLoc _ _ _).
  intros [[[[[Hv He]%andb_true_iff Hd]%andb_true_iff Ht]%andb_true_iff Hrd]%andb_true_iff Hres]%andb_true_iff.
  apply bool_decide_eq_true in Hv, Hd, Ht, Hrd, Hres. apply Z.eqb_eq in He.
  destruct (Store.set_ref _ _ _ _ _ _) as [store'|] eqn:Es; [|done]. simpl. apply rtc_once.
  eapply step_done; [exact Epl|exact Eb|]. destruct (set_ref_records _ _ _ _ _ _ _ Es) as [seq Hrec].
  intros k. rewrite Hrec. destruct (decide (k = key f)) as [->|Hne]; [right|left; by rewrite lookup_insert_ne].
  rewrite lookup_insert_eq. eexists r, _, v, location. split_and!; try done.
  - subst location. cbn [Store.loc_offset]. pose proof (zlen_nonneg (key f)). unfold HEADER_SIZE. lia.
  - by rewrite Hv.
Qed.

Definition put_frame (f : Frame) (s : KeyState) : KeyState := end_write f (log_write (apply_write (begin_write f s))).

(** A write before the compaction; one that the snapshot takes between its
    application and its flush; and a stop after the new snapshot is in place and
    before the new log is. *)
Definition started : KeyState := go_on (put_frame f1 empty_state).
Definition midway : KeyState := go_on (apply_write (begin_write lasting started)).
Definition halfway : KeyState := go_on (go_on (go_on (go_on (end_write lasting (log_write midway))))).
(** The same with the log in place as well, before the store is remapped. *)
Definition rotated_state : KeyState := go_on halfway.

Ltac decide_step := vm_compute; first [exact I | reflexivity | by left | by right | by split].

Lemma midway_steps : rtc sample_step empty_state midway.
Proof.
  unfold midway. etrans; [|apply go_steps; vm_compute; split; [reflexivity|intros ? [=]]].
  etrans; [|apply apply_steps; decide_step]. etrans; [|apply begin_steps; decide_step].
  unfold started, put_frame. etrans; [|apply go_steps; decide_step]. etrans; [|apply end_steps; decide_step].
  etrans; [|apply log_steps; decide_step]. etrans; [|apply apply_steps; decide_step]. apply begin_steps; decide_step.
Qed.

Lemma halfway_steps : rtc sample_step empty_state halfway.
Proof.
  unfold halfway. do 4 (etrans; [|apply go_steps; decide_step]). etrans; [|apply end_steps; decide_step].
  etrans; [|apply log_steps; decide_step]. apply midway_steps.
Qed.

Lemma halfway_phase :
  match the_phase halfway with SnapshotReplaced _ _ => true | _ => false end = true /\
  logged halfway !! key f1 = Some (mk_LogRecord (value f1) 123 None) /\
  logged halfway !! key lasting = Some (mk_LogRecord (value lasting) 0 None).
Proof. split_and!; vm_compute; reflexivity. Qed.


Definition op_count (file : bytes) : Z :=
  match log_ops sample_of_json 0 (frames (parse_buffer file Strict)) with Ok ops => zlen ops | Err _ => 0 end.

Lemma log_file_count file ops : log_file sample_of_json file ops -> zlen ops = op_count file.
Proof.
  intros Hl. destruct (log_file_parsed sample_of_json file ops 0 Strict Hl) as [_ E].
  unfold op_count. rewrite E. unfold zlen. by rewrite length_map.
Qed.

Lemma halfway_counts :
  op_count (snapshot_file (the_target halfway)) + op_count (wal_file (the_target halfway)) = 4.
Proof. vm_compute. reflexivity. Qed.

Lemma compaction_is_crash_safe_witness :
  let snapshot := snapshot_file (the_target halfway) in let wal := wal_file (the_target halfway) in
  match the_phase halfway with SnapshotReplaced _ _ => true | _ => false end = true /\
  exists info store,
    recover sample_of_json (fun _ _ => clock halfway) sample_json (Store.new (T := KeyIndex))
      (Some (mk_File snapshot anchor)) (Some (mk_File wal anchor)) Strict true OnDisk =
      Some (Ok info, store, Some (mk_File wal anchor)) /\
    lost_bytes info = 0 /\ truncated_wal info = false /\
    represents (files_of snapshot wal) (Store.records store) (alive (clock halfway) (logged halfway)).
Proof.
  split; [exact (proj1 halfway_phase)|].
  destruct (compaction_is_crash_safe sample_json sample_of_json no_text sample_json_law key_index_repr
    (the_target empty_state) 100 ∅ halfway Strict OnDisk anchor anchor empty_at_rest halfway_steps)
    as (info & store & ks & Hr & _ & Hl & Ht & Hrep).
  - intros opsS opsW HS%log_file_count HW%log_file_count. rewrite zlen_app, HS, HW, halfway_counts. done.
  - exists info, store. split; [exact Hr|]. split; [exact Hl|]. split; [exact Ht|exact Hrep].
Defined.

Lemma compaction_keeps_reads_witness :
  match the_phase rotated_state with Rotated _ _ => true | _ => false end = true /\
  exists r, Store.records (store (the_target rotated_state)) !! key f1 = Some r /\
    Store.materialize (read_value no_text (the_target rotated_state)) (Store.value_ref r) = Ok (value f1).
Proof.
  split; [vm_compute; reflexivity|].
  pose proof (compaction_keeps_reads sample_json sample_of_json no_text sample_json_law
    (the_target empty_state) 100 ∅ rotated_state (key f1) empty_at_rest
    (transitivity halfway_steps (go_steps halfway ltac:(vm_compute; exact I)))) as Hk.
  assert (alive (clock rotated_state) (shown rotated_state) !! key f1 =
          Some (mk_LogRecord (value f1) 123 None)) as E by (vm_compute; reflexivity).
  rewrite E in Hk. destruct Hk as (r & Hr & _ & _ & _ & Hv).
  - intros Hp. assert (match the_phase rotated_state with Remapped => true | _ => false end = true) as C
      by (rewrite Hp; reflexivity). vm_compute in C. discriminate C.
  - exists r. split; [exact Hr|exact Hv].
Defined.

(** Between [remap_store] and [reopen_both] a reader on another thread looks for the
    new location in the old file: here the value ["12"] reads as bytes of the
    frame before it, and the other key cannot be read at all. *)
Lemma read_after_remap_before_reopen :
  let s := go_on rotated_state in
  let read k := r ← Store.records (store (the_target s)) !! k;
                Some (Store.materialize (read_value no_text (the_target s)) (Store.value_ref r)) in
  the_phase s = Remapped /\
  read (key lasting) = Some (Ok (map byte_of [111; 111])) /\
  read (key f1) = Some (Err (Store.Read "")).
Proof. split_and!; vm_compute; reflexivity. Qed.
(** *** What the steps exclude *)

Definition file_ops (file : bytes) : result RecoveryError (list LogOp) :=
  log_ops sample_of_json 0 (frames (parse_buffer file Strict)).

(** A write fails after the snapshot took it: it is undone in memory, and in the
    snapshot. *)
Lemma failed_write_becomes_durable :
  let s := go_on (go_on (go_on (go_on (go_on (go_on (go_on (fail_write lasting midway))))))) in
  the_phase s = Idle /\ pending s = None /\
  Store.records (store (the_target s)) !! key lasting = None /\ logical s !! key lasting = None /\
  file_ops (snapshot_file (the_target s)) = Ok [set_op f1; set_op lasting].
Proof. vm_compute. split_and!; reflexivity. Qed.

(** A frame reaches the log before the base offset is taken, and the write is applied
    after the snapshot has been: neither new file has it, and it cannot be read. *)
Lemma unapplied_write_is_lost :
  let s := end_write lasting (apply_write (go_on (go_on (log_write (begin_write lasting empty_state))))) in
  let s := go_on (go_on (go_on (go_on (go_on (go_on (go_on s)))))) in
  the_phase s = Idle /\ pending s = None /\ is_Some (logical s !! key lasting) /\
  file_ops (snapshot_file (the_target s)) = Ok [] /\ file_ops (wal_file (the_target s)) = Ok [] /\
  (r ← Store.records (store (the_target s)) !! key lasting;
   Some (Store.materialize (read_value no_text (the_target s)) (Store.value_ref r))) = Some (Err (Store.Read "")).
Proof. vm_compute. split_and!; try reflexivity. by eexists. Qed.

(** The size of the log is beyond its file, the last frame being queued still: the copy
    ends early without an error, and the next pass goes on behind the missing frame. *)
Lemma queued_bytes_are_not_copied :
  let size := zlen (encoded f1 ++ encoded lasting) in
  copy_file_range (encoded f1) None 0 size false = Ok (encoded f1).
Proof. vm_compute. reflexivity. Qed.
End CompactionFacts.
