(* ===== verification/Utf8.v ===== *)
(** * UTF-8, as the standard library reads it

    Rust strings are UTF-8 by construction; bytes become one through
    [String::from_utf8_lossy], which keeps well-formed sequences and replaces each
    maximal ill-formed part by U+FFFD.  [split_char] is one round of its scanner
    ([Utf8Chunks]).  A string of the program is the list of its bytes. *)

From S2P Require Import Prelude.

Module Utf8.

Definition in_range (lo hi : Z) (b : byte) : bool := (lo <=? byte_val b) && (byte_val b <=? hi).

Definition is_cont : byte -> bool := in_range 0x80 0xBF.

(** The second bytes that may follow a first byte of three or four. *)
Definition second_of_3 (b0 b1 : byte) : bool :=
  if byte_val b0 =? 0xE0 then in_range 0xA0 0xBF b1
  else if byte_val b0 =? 0xED then in_range 0x80 0x9F b1
  else is_cont b1.

Definition second_of_4 (b0 b1 : byte) : bool :=
  if byte_val b0 =? 0xF0 then in_range 0x90 0xBF b1
  else if byte_val b0 =? 0xF4 then in_range 0x80 0x8F b1
  else is_cont b1.

(** How many of the bytes after the first continue the character. *)
Fixpoint matching (checks : list (byte -> bool)) (bs : bytes) : nat :=
  match checks, bs with
  | check :: checks, b :: bs => if check b then S (matching checks bs) else 0
  | _, _ => 0
  end.

Definition tail_checks (b0 : byte) : option (list (byte -> bool)) :=
  if in_range 0 0x7F b0 then Some []
  else if in_range 0xC2 0xDF b0 then Some [is_cont]
  else if in_range 0xE0 0xEF b0 then Some [second_of_3 b0; is_cont]
  else if in_range 0xF0 0xF4 b0 then Some [second_of_4 b0; is_cont; is_cont]
  else None.

(** The length of the first character less one, or of the first ill-formed part
    less one. *)
Definition split_char (b0 : byte) (bs : bytes) : bool * nat :=
  match tail_checks b0 with
  | None => (false, 0%nat)
  | Some checks => let n := matching checks bs in (Nat.eqb n (length checks), n)
  end.

Definition replacement : bytes := map byte_of [0xEF; 0xBF; 0xBD].

Fixpoint from_utf8_lossy_loop (fuel : nat) (bs : bytes) : bytes :=
  match fuel, bs with
  | S fuel, b :: bs =>
      let '(valid, n) := split_char b bs in
      (if valid then b :: take n bs else replacement) ++ from_utf8_lossy_loop fuel (drop n bs)
  | _, _ => []
  end.
Definition from_utf8_lossy (bs : bytes) : bytes := from_utf8_lossy_loop (length bs) bs.

Fixpoint is_utf8_loop (fuel : nat) (bs : bytes) : bool :=
  match fuel, bs with
  | S fuel, b :: bs => let '(valid, n) := split_char b bs in valid && is_utf8_loop fuel (drop n bs)
  | _, _ => true
  end.
Definition is_utf8 (bs : bytes) : bool := is_utf8_loop (length bs) bs.

Lemma from_utf8_lossy_loop_id fuel bs :
  (length bs <= fuel)%nat -> is_utf8_loop fuel bs = true -> from_utf8_lossy_loop fuel bs = bs.
Proof.
  revert bs. induction fuel as [|fuel IH]; intros [|b bs] Hl; simpl in *; [done|lia|done|].
  destruct (split_char b bs) as [valid n]. intros [-> Hu]%andb_true_iff.
  rewrite IH; [|rewrite length_drop; lia|done]. simpl. by rewrite take_drop.
Qed.

(** A string is read back unchanged. *)
Lemma from_utf8_lossy_id bs : is_utf8 bs = true -> from_utf8_lossy bs = bs.
Proof. by apply from_utf8_lossy_loop_id. Qed.

End Utf8.
