(* ===== verification/PostingsFacts.v ===== *)
(** * Posting lists: what they keep

    Over the definitions of [Postings]: varints decode to the value of their
    groups, records are exactly the buffers with matching lengths and checksum,
    and a rebuilt file answers every term with its postings. *)

From S2P Require Import Prelude.
From S2P Require Import Crc.
From S2P Require Import Utf8.
From S2P Require Import Postings.
Import Postings.

Module PostingsFacts.

(** ** Varints *)

(** The value of little-endian groups of seven bits. *)
Fixpoint groups (bs : bytes) : Z :=
  match bs with [] => 0 | b :: bs => byte_val b `mod` 128 + 128 * groups bs end.

(** The bytes up to the first without the continuation bit. *)
Fixpoint varint_bytes (bs : bytes) : option bytes :=
  match bs with
  | [] => None
  | b :: bs => if byte_val b <? 128 then Some [b] else cons b <$> varint_bytes bs
  end.

Lemma varint_bytes_prefix bs v : varint_bytes bs = Some v -> 0 < zlen v /\ exists rest, bs = v ++ rest.
Proof.
  revert v. induction bs as [|b bs IH]; intros v; [done|]. cbn [varint_bytes].
  destruct (byte_val b <? 128); [intros [= <-]; split; [done|by exists bs]|].
  destruct (varint_bytes bs) as [w|]; [|done]. intros [= <-]. destruct (IH w eq_refl) as [? [rest ->]].
  rewrite zlen_cons. split; [lia|by exists rest].
Qed.

(** What a varint at the start of some bytes decodes to. *)
Definition varint_spec (bs : bytes) (cursor : Z) : result PostingsError (Z * Z) :=
  match varint_bytes (take 6 bs) with
  | Some v => Ok (groups v `mod` 2 ^ 32, cursor + zlen v)
  | None => if zlen bs <? 6 then Err TruncatedVarint else Err VarintTooLong
  end.

Lemma groups_nonneg bs : 0 <= groups bs.
Proof. induction bs as [|b bs IH]; simpl; [lia|]. pose proof (Z.mod_pos_bound (byte_val b) 128). lia. Qed.

Lemma land_cont b : (Z.land (byte_val b) 0x80 =? 0) = (byte_val b <? 128).
Proof. destruct b; reflexivity. Qed.

Lemma land_low b : Z.land (byte_val b) 0x7f = byte_val b `mod` 128.
Proof. apply (Z.land_ones (byte_val b) 7). lia. Qed.

Lemma lor_add a b n : 0 <= n -> 0 <= a < 2 ^ n -> Z.lor a (b * 2 ^ n) = a + b * 2 ^ n.
Proof.
  intros Hn Ha. rewrite <- Z.add_lor_land. enough (Z.land a (b * 2 ^ n) = 0) as -> by lia.
  apply Z.bits_inj'. intros i Hi. rewrite Z.land_spec, Z.bits_0. destruct (Z.lt_ge_cases i n).
  - rewrite Z.mul_pow2_bits_low by done. apply andb_false_r.
  - rewrite <- (Z.mod_small a (2 ^ n)), Z.mod_pow2_bits_high by lia. done.
Qed.

(** One group more. *)
Definition with_group (result : Z) (b : byte) (shift : Z) : Z :=
  if shift <? 32 then Z.lor result (Z.shiftl (Z.land (byte_val b) 0x7f) shift `mod` 2 ^ 32) else result.

Lemma with_group_spec result b k :
  0 <= k <= 5 -> 0 <= result < 2 ^ 32 -> (k < 5 -> result < 2 ^ (7 * k)) ->
  0 <= with_group result b (7 * k) < 2 ^ 32 /\
  (k + 1 < 5 -> with_group result b (7 * k) < 2 ^ (7 * (k + 1))) /\
  with_group result b (7 * k) `mod` 2 ^ 32 =
    (result + (byte_val b `mod` 128) * 2 ^ (7 * k)) `mod` 2 ^ 32.
Proof.
  intros Hk Hr Hlow. unfold with_group. rewrite land_low. pose proof (Z.mod_pos_bound (byte_val b) 128 ltac:(lia)) as Hb.
  set (g := byte_val b `mod` 128) in *. destruct (Z.ltb_spec (7 * k) 32) as [Hs|Hs].
  - rewrite Z.shiftl_mul_pow2 by lia.
    assert ((g * 2 ^ (7 * k)) `mod` 2 ^ 32 = (g `mod` 2 ^ (32 - 7 * k)) * 2 ^ (7 * k)) as ->.
    { replace (2 ^ 32) with (2 ^ (32 - 7 * k) * 2 ^ (7 * k)) by (rewrite <- Z.pow_add_r by lia; f_equal; lia).
      apply Zmult_mod_distr_r. }
    rewrite lor_add by lia.
    pose proof (Z.mod_pos_bound g (2 ^ (32 - 7 * k)) ltac:(apply Z.pow_pos_nonneg; lia)) as Hg.
    assert (2 ^ 32 = 2 ^ (32 - 7 * k) * 2 ^ (7 * k)) as E by (rewrite <- Z.pow_add_r by lia; f_equal; lia).
    split; [|split].
    + specialize (Hlow ltac:(lia)). rewrite E. nia.
    + intros Hk1. specialize (Hlow ltac:(lia)).
      assert (2 ^ (7 * (k + 1)) = 128 * 2 ^ (7 * k)) as ->
        by (replace (7 * (k + 1)) with (7 + 7 * k) by lia; rewrite Z.pow_add_r by lia; done).
      pose proof (Z.mod_le g (2 ^ (32 - 7 * k)) ltac:(lia) ltac:(lia)). nia.
    + rewrite <- (Zplus_mod_idemp_r (g * 2 ^ (7 * k))). do 2 f_equal. rewrite E. symmetry. apply Zmult_mod_distr_r.
  - assert (k = 5) as -> by lia. split; [done|]. split; [lia|].
    change (2 ^ (7 * 5)) with (8 * 2 ^ 32). rewrite Z.mul_assoc, Z_mod_plus_full. done.
Qed.

Lemma decode_varint_loop_spec fuel bs cursor result k :
  Z.of_nat fuel + k = 6 -> 0 <= k <= 5 -> 0 <= cursor -> 0 <= result < 2 ^ 32 -> (k < 5 -> result < 2 ^ (7 * k)) ->
  decode_varint_loop fuel bs cursor result (7 * k) =
    match varint_bytes (take fuel (slice_from bs cursor)) with
    | Some v => Ok ((result + groups v * 2 ^ (7 * k)) `mod` 2 ^ 32, cursor + zlen v)
    | None => if zlen (slice_from bs cursor) <? Z.of_nat fuel then Err TruncatedVarint else Err VarintTooLong
    end.
Proof.
  revert cursor result k. induction fuel as [|fuel IH]; intros cursor result k Hf Hk Hc Hr Hlow; [lia|].
  cbn [decode_varint_loop].
  destruct (bs !! Z.to_nat cursor) as [b|] eqn:Eb; cbn [ok_or]; simpl_bind.
  - assert (slice_from bs cursor = b :: slice_from bs (cursor + 1)) as ->.
    { unfold slice_from. rewrite Z2Nat.inj_add by lia. rewrite Nat.add_1_r. by apply drop_S. }
    destruct (with_group_spec result b k Hk Hr Hlow) as (Hr' & Hlow' & Hv).
    fold (with_group result b (7 * k)). cbn [take varint_bytes]. rewrite land_cont.
    destruct (Z.ltb_spec (byte_val b) 128) as [Hb|Hb].
    + rewrite Z.mod_small in Hv by done. rewrite Hv. cbn [groups]. do 4 f_equal; lia.
    + destruct (Z.ltb_spec 35 (7 * k + 7)) as [H7|H7].
      * assert (fuel = 0%nat) as -> by lia. cbn [take varint_bytes fmap option_fmap option_map].
        rewrite zlen_cons. pose proof (zlen_nonneg (slice_from bs (cursor + 1))).
        by destruct (Z.ltb_spec (1 + zlen (slice_from bs (cursor + 1))) (Z.of_nat 1)); [lia|].
      * replace (7 * k + 7) with (7 * (k + 1)) by lia. rewrite IH by (lia || done).
        rewrite zlen_cons. destruct (varint_bytes _) as [v|]; simpl_bind.
        -- cbn [groups]. rewrite zlen_cons. f_equal. f_equal; [|lia].
           rewrite Zplus_mod, Hv, <- Zplus_mod. f_equal. rewrite Z.mul_add_distr_r, Z.add_assoc. f_equal.
           replace (7 * (k + 1)) with (7 + 7 * k) by lia. rewrite Z.pow_add_r by lia. lia.
        -- destruct (Z.ltb_spec (zlen (slice_from bs (cursor + 1))) (Z.of_nat fuel)),
             (Z.ltb_spec (1 + zlen (slice_from bs (cursor + 1))) (Z.of_nat (S fuel))); try done; lia.
  - apply lookup_ge_None in Eb.
    assert (slice_from bs cursor = []) as -> by (unfold slice_from; apply drop_ge; lia).
    cbn [take varint_bytes]. rewrite zlen_nil. by destruct (Z.ltb_spec 0 (Z.of_nat (S fuel))); [|lia].
Qed.

Lemma decode_varint_at bs cursor :
  0 <= cursor -> decode_varint bs cursor = varint_spec (slice_from bs cursor) cursor.
Proof.
  intros Hc. unfold decode_varint, varint_spec. etransitivity; [apply (decode_varint_loop_spec 6 bs cursor 0 0); lia|].
  destruct (varint_bytes _); [|done]. do 4 f_equal. lia.
Qed.

Lemma encode_varint_loop_spec fuel v output rest :
  (0 < fuel)%nat -> 0 <= v < 2 ^ (7 * Z.of_nat fuel) ->
  exists e, encode_varint_loop fuel v output = output ++ e /\ (0 < length e <= fuel)%nat /\
    varint_bytes (e ++ rest) = Some e /\ groups e = v.
Proof.
  revert v output. induction fuel as [|fuel IH]; intros v output Hf Hv; [lia|]. cbn [encode_varint_loop].
  destruct (Z.leb_spec 0x80 v) as [H80|H80].
  - assert (0 < Z.of_nat fuel) as Hf'.
    { destruct (decide (fuel = 0%nat)) as [->|]; [|lia]. change (2 ^ (7 * Z.of_nat 1)) with 128 in Hv. lia. }
    assert (2 ^ (7 * Z.of_nat (S fuel)) = 128 * 2 ^ (7 * Z.of_nat fuel)) as E
      by (replace (7 * Z.of_nat (S fuel)) with (7 + 7 * Z.of_nat fuel) by lia; by rewrite Z.pow_add_r by lia).
    rewrite Z.shiftr_div_pow2 by lia. change (2 ^ 7) with 128.
    set (b := byte_of _).
    assert (byte_val b = v `mod` 128 + 128) as Hb.
    { unfold b. rewrite byte_val_of. change 0x7f with (Z.ones 7). rewrite Z.land_ones by lia.
      change 0x80 with (1 * 2 ^ 7). rewrite (lor_add _ 1 7) by (try lia; apply Z.mod_pos_bound; lia).
      change (2 ^ 7) with 128. rewrite Z.mod_mod_divide by (by exists 2).
      pose proof (Z.mod_pos_bound v 128 ltac:(lia)). change (1 * 128) with 128. rewrite Z.mod_small; lia. }
    destruct (IH (v / 128) (output ++ [b])) as (e & He & Hl & Hvb & Hg); [lia| |].
    { split; [apply Z.div_pos; lia|]. apply Z.div_lt_upper_bound; lia. }
    exists (b :: e). rewrite He, <- app_assoc. split; [done|]. split; [simpl; lia|].
    pose proof (Z.mod_pos_bound v 128 ltac:(lia)). split.
    + cbn [app varint_bytes]. destruct (Z.ltb_spec (byte_val b) 128); [lia|]. by rewrite Hvb.
    + cbn [groups]. rewrite Hg, Hb. change 128 with (1 * 128) at 2. rewrite Z_mod_plus_full, Z.mod_mod by lia.
      pose proof (Z.div_mod v 128). lia.
  - exists [byte_of v]. split; [done|]. split; [simpl; lia|].
    assert (byte_val (byte_of v) = v) as Hb by (rewrite byte_val_of; apply Z.mod_small; lia). split.
    + cbn [app varint_bytes]. rewrite Hb. by destruct (Z.ltb_spec v 128); [|lia].
    + cbn [groups]. rewrite Hb, Z.mod_small by lia. lia.
Qed.

(** A [u32] is written in at most five bytes, which read back as it. *)
Lemma encode_varint_spec v output :
  0 <= v < 2 ^ 32 ->
  exists e, encode_varint v output = output ++ e /\ (0 < length e <= 5)%nat /\
    forall pre rest, decode_varint (pre ++ e ++ rest) (zlen pre) = Ok (v, zlen pre + zlen e).
Proof.
  intros Hv. destruct (encode_varint_loop_spec 5 v output [] ltac:(lia) ltac:(lia)) as (e & He & Hl & Hvb & Hg).
  exists e. split; [done|]. split; [done|]. intros pre rest.
  rewrite decode_varint_at by apply zlen_nonneg. unfold varint_spec. rewrite slice_from_zlen.
  assert (varint_bytes (take 6 (e ++ rest)) = Some e) as ->.
  { rewrite take_app_ge by lia. clear -Hvb. rewrite app_nil_r in Hvb.
    assert (forall x y w, varint_bytes x = Some w -> varint_bytes (x ++ y) = Some w) as Hext; [|by apply Hext].
    induction x as [|b x IH]; intros y w; [done|]. cbn [app varint_bytes].
    destruct (byte_val b <? 128); [done|]. destruct (varint_bytes x) as [w'|]; [|done]. by rewrite (IH y w'). }
  by rewrite Hg, Z.mod_small by lia.
Qed.

(** ** Posting lists *)

Definition is_u32 (z : Z) : Prop := 0 <= z < 2 ^ 32.

Definition posting_wf (p : Z * Z) : Prop := is_u32 p.1 /\ is_u32 p.2.

Lemma encode_entries_spec entries previous output :
  Forall posting_wf entries ->
  exists e, encode_entries entries previous output = output ++ e /\
    Z.of_nat (length entries) <= zlen e /\
    forall pre rest fuel done, is_u32 previous -> (length entries <= fuel)%nat ->
      decode_entries fuel (zlen entries) (pre ++ e ++ rest) (zlen pre) previous done = Ok (done ++ entries).
Proof.
  intros Hwf. revert previous output. induction Hwf as [|[id freq] entries [Hid Hfreq] _ IH]; intros previous output.
  { exists []. rewrite app_nil_r. split; [done|]. split; [done|]. intros pre rest fuel out _ _.
    destruct fuel; simpl; by rewrite app_nil_r. }
  cbn [fst snd encode_entries] in *.
  destruct (encode_varint_spec ((id - previous) `mod` 2 ^ 32) output ltac:(apply Z.mod_pos_bound; lia))
    as (e1 & -> & Hl1 & Hd1).
  destruct (encode_varint_spec freq (output ++ e1) Hfreq) as (e2 & -> & Hl2 & Hd2).
  destruct (IH id ((output ++ e1) ++ e2)) as (e & -> & Hl & Hd).
  exists (e1 ++ e2 ++ e). split; [by rewrite !app_assoc|].
  split; [rewrite !zlen_app; unfold zlen in *; simpl; lia|].
  intros pre rest fuel out Hprev Hfuel. destruct fuel as [|fuel]; [simpl in Hfuel; lia|].
  cbn [decode_entries]. rewrite zlen_cons. pose proof (zlen_nonneg entries).
  destruct (Z.leb_spec (1 + zlen entries) 0); [lia|]. rewrite <- !app_assoc, Hd1. simpl_bind.
  specialize (Hd2 (pre ++ e1) (e ++ rest)). rewrite zlen_app, <- app_assoc in Hd2. rewrite Hd2. simpl_bind.
  assert ((previous + (id - previous) `mod` 2 ^ 32) `mod` 2 ^ 32 = id) as ->.
  { rewrite Zplus_mod_idemp_r. replace (previous + (id - previous)) with id by lia. by apply Z.mod_small. }
  replace (1 + zlen entries - 1) with (zlen entries) by lia.
  specialize (Hd (pre ++ e1 ++ e2) rest fuel (out ++ [(id, freq)])).
  rewrite !zlen_app, <- !app_assoc, Z.add_assoc in Hd. apply Hd; [done|]. simpl in Hfuel. lia.
Qed.

Lemma decode_encode_posting_list entries rest :
  Forall posting_wf entries -> zlen entries < 2 ^ 32 ->
  decode_posting_list (encode_posting_list entries ++ rest) = Ok entries.
Proof.
  intros Hwf Hlen. pose proof (zlen_nonneg entries). unfold encode_posting_list. rewrite Z.mod_small by lia.
  destruct (encode_varint_spec (zlen entries) [] ltac:(lia)) as (e1 & -> & _ & Hd1).
  destruct (encode_entries_spec entries 0 ([] ++ e1) Hwf) as (e2 & -> & Hl & Hd2).
  unfold decode_posting_list. cbn [app]. rewrite <- app_assoc.
  specialize (Hd1 [] (e2 ++ rest)). cbn [app] in Hd1. rewrite zlen_nil in Hd1. rewrite Hd1. simpl_bind.
  change (0 + zlen e1) with (zlen e1). rewrite (Hd2 e1 rest _ []); [done|done|].
  rewrite !length_app. unfold zlen in Hl. lia.
Qed.

(** ** Records *)

Section facts.
Context `{Crc32fastOk}.

(** The buffers that are records: two lengths that fit, a checksum that matches,
    and possibly bytes after the payload. *)
Definition is_record (bs term : bytes) (document_frequency : Z) (payload : bytes) : Prop :=
  exists pad, let body := record_body term document_frequency payload ++ pad in
    zlen term <= U16_MAX /\ zlen payload <= U32_MAX /\ is_u32 document_frequency /\
    bs = body ++ to_le_bytes 4 (crc32 body 0).

Lemma record_body_split term df payload x :
  zlen term <= U16_MAX -> zlen payload <= U32_MAX -> is_u32 df ->
  let bs := record_body term df payload ++ x in
  let after := 2 + zlen term in
  from_le_bytes (slice bs 0 2) = zlen term /\ slice bs 2 after = term /\
  from_le_bytes (slice bs after (after + 4)) = df /\
  from_le_bytes (slice bs (after + 4) (after + 8)) = zlen payload /\
  slice bs (after + 8) (after + 8 + zlen payload) = payload /\
  zlen bs = after + 8 + zlen payload + zlen x.
Proof.
  intros Ht Hp Hdf bs after. unfold bs, record_body, U16_MAX, U32_MAX, is_u32 in *.
  pose proof (zlen_nonneg term). pose proof (zlen_nonneg payload).
  rewrite <- !app_assoc.
  pose proof (from_to_le_bytes 2 (zlen term)) as Hle2. change (2 ^ (Z.of_nat 2 * 8)) with 65536 in Hle2.
  assert (forall z, 0 <= z < 2 ^ 32 -> from_le_bytes (to_le_bytes 4 z) = z) as Hle4 by exact (from_to_le_bytes 4).
  split; [|split; [|split; [|split; [|split]]]].
  - etransitivity; [|apply Hle2; lia]. reflexivity.
  - apply slice_mid; rewrite ?zlen_to_le_bytes; unfold after; lia.
  - rewrite (app_assoc (to_le_bytes 2 _)).
    rewrite slice_mid by (rewrite ?zlen_app, ?zlen_to_le_bytes; unfold after; lia). apply Hle4. lia.
  - rewrite (app_assoc (to_le_bytes 2 _)), (app_assoc (_ ++ term)).
    rewrite slice_mid by (rewrite ?zlen_app, ?zlen_to_le_bytes; unfold after; lia). apply Hle4. lia.
  - rewrite (app_assoc (to_le_bytes 2 _)), (app_assoc (_ ++ term)), (app_assoc (_ ++ to_le_bytes 4 df)).
    apply slice_mid; rewrite ?zlen_app, ?zlen_to_le_bytes; unfold after; lia.
  - rewrite !zlen_app, !zlen_to_le_bytes. unfold after. lia.
Qed.

Lemma to_from_le_bytes bs : to_le_bytes (length bs) (from_le_bytes bs) = bs.
Proof. apply LittleEndianList.split_le_combine. Qed.

Lemma to_from_le_bytes_n n bs : zlen bs = Z.of_nat n -> to_le_bytes n (from_le_bytes bs) = bs.
Proof. intros Hn. assert (n = length bs) as -> by (unfold zlen in Hn; lia). apply to_from_le_bytes. Qed.

(** What the two lengths of a checksummed buffer ask for. *)
Definition checksummed (bs : bytes) : Prop :=
  exists body, bs = body ++ to_le_bytes 4 (crc32 body 0).

Lemma checksummed_dec bs :
  4 <= zlen bs ->
  from_le_bytes (slice_from bs (zlen bs - 4)) = crc32 (slice bs 0 (zlen bs - 4)) 0 <-> checksummed bs.
Proof.
  intros Hl. split.
  - intros E. exists (slice bs 0 (zlen bs - 4)). rewrite <- E.
    rewrite to_from_le_bytes_n by (rewrite zlen_slice_from; lia).
    rewrite slice_from_slice by lia. rewrite <- slice_split by lia. by rewrite slice_all.
  - intros (body & ->). pose proof (zlen_nonneg body). rewrite !zlen_app, zlen_to_le_bytes.
    replace (zlen body + Z.of_nat 4 - 4) with (zlen body) by lia.
    rewrite slice_from_zlen, slice_app_l, slice_all by lia. apply from_to_le_bytes.
    pose proof (crc32_range body). change (Z.of_nat 4 * 8) with 32. lia.
Qed.

Lemma decode_is_record bs raw df p :
  is_record bs raw df p -> decode_record bs = Ok (mk_DecodedRecord (Utf8.from_utf8_lossy raw) df p).
Proof.
  intros (pad & Ht & Hp & Hdf & Hbs). pose proof (zlen_nonneg raw). pose proof (zlen_nonneg p). pose proof (zlen_nonneg pad).
  set (body := record_body raw df p ++ pad) in *.
  destruct (record_body_split raw df p (pad ++ to_le_bytes 4 (crc32 body 0)) Ht Hp Hdf)
    as (E1 & E2 & E3 & E4 & E5 & E6).
  rewrite app_assoc in E1, E2, E3, E4, E5, E6. change (record_body raw df p ++ pad) with body in E1, E2, E3, E4, E5, E6.
  rewrite <- Hbs in E1, E2, E3, E4, E5, E6. rewrite zlen_app, zlen_to_le_bytes in E6.
  unfold decode_record, HEADER_LEN, CRC_LEN. destruct (Z.ltb_spec (zlen bs) (10 + 4)); [lia|].
  destruct (Z.eqb_spec (from_le_bytes (slice_from bs (zlen bs - 4))) (crc32 (slice bs 0 (zlen bs - 4)) 0)) as [_|Hne].
  2:{ exfalso. apply Hne, checksummed_dec; [lia|]. by exists body. }
  cbn [negb]. rewrite E1, E2, E3, E4, E5.
  destruct (Z.ltb_spec (zlen bs - 4) (2 + zlen raw + 8)); [lia|].
  by destruct (Z.ltb_spec (zlen bs - 4) (2 + zlen raw + 8 + zlen p)); [lia|].
Qed.

(** The lengths a buffer announces for its term and its payload. *)
Definition term_len (bs : bytes) : Z := from_le_bytes (slice bs 0 2).
Definition payload_len (bs : bytes) : Z :=
  from_le_bytes (slice bs (2 + term_len bs + 4) (2 + term_len bs + 8)).

Lemma decode_record_Ok bs :
  checksummed bs -> 2 + term_len bs + 8 + payload_len bs + 4 <= zlen bs ->
  exists raw df p, is_record bs raw df p.
Proof.
  intros (body & Hbs) Hfit. unfold payload_len in Hfit. fold (term_len bs) in *.
  set (tl := term_len bs) in *. set (pl := from_le_bytes _) in *.
  assert (0 <= tl <= U16_MAX) as Htl.
  { unfold tl, term_len. pose proof (from_le_bytes_slice_range bs 0 2) as Hr. unfold U16_MAX. lia. }
  assert (0 <= pl <= U32_MAX) as Hpl.
  { unfold pl. pose proof (from_le_bytes_slice_range bs (2 + tl + 4) (2 + tl + 8)) as Hr. unfold U32_MAX.
    replace (2 + tl + 8 - (2 + tl + 4)) with 4 in Hr by lia. lia. }
  assert (zlen body = zlen bs - 4) as Hb by (rewrite Hbs, zlen_app, zlen_to_le_bytes; lia).
  exists (slice bs 2 (2 + tl)), (from_le_bytes (slice bs (2 + tl) (2 + tl + 4))),
    (slice bs (2 + tl + 8) (2 + tl + 8 + pl)), (slice bs (2 + tl + 8 + pl) (zlen body)).
  split; [rewrite zlen_slice by lia; lia|]. split; [rewrite zlen_slice by lia; lia|].
  split.
  { pose proof (from_le_bytes_slice_range bs (2 + tl) (2 + tl + 4)) as Hr.
    replace (2 + tl + 4 - (2 + tl)) with 4 in Hr by lia. unfold is_u32. lia. }
  assert (record_body (slice bs 2 (2 + tl)) (from_le_bytes (slice bs (2 + tl) (2 + tl + 4)))
            (slice bs (2 + tl + 8) (2 + tl + 8 + pl)) ++ slice bs (2 + tl + 8 + pl) (zlen body) = body) as ->; [|done].
  unfold record_body. rewrite !zlen_slice by lia.
  replace (2 + tl - 2) with tl by lia. replace (2 + tl + 8 + pl - (2 + tl + 8)) with pl by lia.
  assert (to_le_bytes 2 tl = slice bs 0 2) as -> by (apply to_from_le_bytes_n; rewrite zlen_slice; lia).
  assert (to_le_bytes 4 pl = slice bs (2 + tl + 4) (2 + tl + 8)) as ->
    by (apply to_from_le_bytes_n; rewrite zlen_slice; lia).
  rewrite to_from_le_bytes_n by (rewrite zlen_slice; lia).
  rewrite <- !app_assoc, <- !slice_split by lia. rewrite Hbs, slice_app_l by lia. apply slice_all.
Qed.

Lemma decode_record_fits bs r :
  decode_record bs = Ok r -> checksummed bs /\ 2 + term_len bs + 8 + payload_len bs + 4 <= zlen bs.
Proof.
  intros E. unfold decode_record, HEADER_LEN, CRC_LEN in E.
  destruct (Z.ltb_spec (zlen bs) (10 + 4)); [done|].
  destruct (Z.eqb_spec (from_le_bytes (slice_from bs (zlen bs - 4))) (crc32 (slice bs 0 (zlen bs - 4)) 0)) as [Hcrc|];
    [|done]. apply checksummed_dec in Hcrc; [|lia]. cbn [negb] in E.
  fold (term_len bs) in E. fold (payload_len bs) in E.
  destruct (Z.ltb_spec (zlen bs - 4) (2 + term_len bs + 8)); [done|].
  destruct (Z.ltb_spec (zlen bs - 4) (2 + term_len bs + 8 + payload_len bs)); [done|]. split; [done|lia].
Qed.

(** C40: Which buffers are records: decoding succeeds on exactly the buffers made of
    a term and a payload with their lengths, the document frequency, any padding
    and the checksum of what precedes it, and then returns them (the term through
    the lossy UTF-8 conversion); otherwise the error says which of the length, the
    checksum, the term and the payload is wrong. *)
Theorem decode_record_exact bs :
  match decode_record bs with
  | Ok r => exists raw, is_record bs raw (rec_document_frequency r) (payload r) /\
      term r = Utf8.from_utf8_lossy raw
  | Err e =>
      (forall raw df p, ~ is_record bs raw df p) /\
      match e with
      | RecordTooShort => zlen bs < HEADER_LEN + CRC_LEN
      | CrcMismatch => ~ checksummed bs
      | TermOutOfBounds => checksummed bs /\ zlen bs < HEADER_LEN + CRC_LEN + term_len bs
      | PayloadOutOfBounds => checksummed bs /\
          HEADER_LEN + CRC_LEN + term_len bs <= zlen bs < HEADER_LEN + CRC_LEN + term_len bs + payload_len bs
      | _ => False
      end
  end.
Proof.
  destruct (decode_record bs) as [r|e] eqn:E.
  - destruct (decode_record_fits bs r E) as [Hc Hfit].
    destruct (decode_record_Ok bs Hc Hfit) as (raw & df & p & Hr). exists raw.
    rewrite (decode_is_record _ _ _ _ Hr) in E. by injection E as <-.
  - split; [intros raw df p Hr; apply decode_is_record in Hr; congruence|].
    unfold decode_record in E. destruct (Z.ltb_spec (zlen bs) (HEADER_LEN + CRC_LEN)) as [|Hlen]; [by injection E as <-|].
    unfold CRC_LEN in E.
    destruct (Z.eqb_spec (from_le_bytes (slice_from bs (zlen bs - 4))) (crc32 (slice bs 0 (zlen bs - 4)) 0)) as [Hcrc|Hcrc];
      cbn [negb] in E;
      rewrite checksummed_dec in Hcrc by (unfold HEADER_LEN, CRC_LEN in *; lia); [|by injection E as <-].
    fold (term_len bs) in E. fold (payload_len bs) in E. unfold HEADER_LEN, CRC_LEN in *.
    destruct (Z.ltb_spec (zlen bs - 4) (2 + term_len bs + 8)); [injection E as <-; split; [done|lia]|].
    destruct (Z.ltb_spec (zlen bs - 4) (2 + term_len bs + 8 + payload_len bs)); [|done].
    injection E as <-. split; [done|lia].
Qed.

Lemma encode_is_record term df p :
  zlen term <= U16_MAX -> zlen p <= U32_MAX -> is_u32 df ->
  exists bs, encode_record term df p = Ok bs /\ is_record bs term df p /\
    zlen bs = HEADER_LEN + CRC_LEN + zlen term + zlen p.
Proof.
  intros Ht Hp Hdf. unfold encode_record. destruct (Z.ltb_spec U16_MAX (zlen term)); [lia|].
  destruct (Z.ltb_spec U32_MAX (zlen p)); [lia|]. eexists. split; [done|]. split.
  - exists []. rewrite app_nil_r. done.
  - destruct (record_body_split term df p [] Ht Hp Hdf) as (_ & _ & _ & _ & _ & E).
    rewrite app_nil_r, zlen_nil in E. rewrite zlen_app, zlen_to_le_bytes, E. unfold HEADER_LEN, CRC_LEN. lia.
Qed.

(** ** The file *)

(** A [write] that takes something. *)
Definition progresses (o : WriteOutcome) : Prop :=
  match o with Wrote count => 0 < count | WriteFailed => False end.

Lemma write_loop_spec outcomes record written file :
  0 <= written <= zlen record ->
  match write_loop outcomes record written file with
  | Ok (file', outcomes') => file' = file ++ slice_from record written /\
      (Forall progresses outcomes -> Forall progresses outcomes')
  | Err e => ~ Forall progresses outcomes /\ (e = Io \/ e = NoWriteProgress)
  end.
Proof.
  revert written file. induction outcomes as [|o outcomes IH]; intros written file Hw; cbn [write_loop].
  - destruct (Z.ltb_spec written (zlen record)); [done|].
    assert (slice_from record written = []) as ->; [|by rewrite app_nil_r].
    apply zlen_0. rewrite zlen_slice_from; lia.
  - destruct (Z.ltb_spec written (zlen record)) as [Hlt|Hge].
    + destruct o as [count|]; [|split; [by intros [[] _]%Forall_cons|by left]].
      destruct (Z.leb_spec (Z.min count (zlen record - written)) 0).
      { split; [|by right]. intros [Hc _]%Forall_cons. simpl in Hc. lia. }
      set (c := Z.min count (zlen record - written)) in *.
      specialize (IH (written + c) (file ++ slice record written (written + c)) ltac:(lia)).
      destruct (write_loop _ _ _ _) as [[file' outcomes']|e].
      * destruct IH as [-> Hp]. split; [|intros [_ ?]%Forall_cons; by apply Hp].
        rewrite <- app_assoc. f_equal. rewrite !slice_from_slice by lia. by rewrite <- slice_split by lia.
      * destruct IH as [Hn He]. split; [|done]. intros [_ ?]%Forall_cons. by apply Hn.
    + split; [|done]. assert (slice_from record written = []) as ->; [|by rewrite app_nil_r].
      apply zlen_0. rewrite zlen_slice_from; lia.
Qed.

(** A term and its postings, within the widths of the format. *)
Definition posting_entry_wf (e : bytes * list (Z * Z)) : Prop :=
  Forall posting_wf e.2 /\ zlen e.2 < 2 ^ 32 /\ zlen e.1 <= U16_MAX /\
  HEADER_LEN + CRC_LEN + zlen e.1 + zlen (encode_posting_list e.2) <= U32_MAX.

(** What a dictionary entry answers from a file. *)
Definition answers (file : bytes) (entry : PostingEntry) (postings : list (Z * Z)) : Prop :=
  0 <= offset entry /\ offset entry + len entry <= zlen file /\
  document_frequency entry = zlen postings /\ read entry (mk_PostingsFile (Some file)) = Ok postings.

Lemma answers_app file more entry postings :
  answers file entry postings -> answers (file ++ more) entry postings.
Proof.
  intros (Ho & Hl & Hdf & Hr). split; [done|]. split; [rewrite zlen_app; pose proof (zlen_nonneg more); lia|].
  split; [done|]. unfold read in *. cbn [Postings.file ok_or] in *. simpl_bind. cbn [mbind result_bind] in Hr.
  destruct (slice_get file _ _) as [bs|] eqn:E; cbn [ok_or] in Hr; [|done].
  by rewrite (slice_get_app _ more _ _ _ E).
Qed.

Lemma answers_record file term df p record postings :
  encode_record term df p = Ok record -> is_record record term df p -> p = encode_posting_list postings ->
  zlen record <= U32_MAX -> Forall posting_wf postings -> zlen postings < 2 ^ 32 -> df = zlen postings ->
  answers (file ++ record) (mk_PostingEntry (zlen file) (zlen record `mod` 2 ^ 32) df) postings.
Proof.
  intros _ Hrec -> Hlen Hwf Hcount Hdf. pose proof (zlen_nonneg file). pose proof (zlen_nonneg record).
  unfold U32_MAX in Hlen. split; [done|]. cbn [offset len document_frequency].
  rewrite Z.mod_small by lia. split; [by rewrite zlen_app|]. split; [done|].
  unfold read. cbn [Postings.file offset len ok_or]. simpl_bind.
  rewrite <- (app_nil_r (file ++ record)), <- app_assoc.
  rewrite (slice_get_mid file record []) by done. cbn [ok_or]. simpl_bind.
  rewrite (decode_is_record _ _ _ _ Hrec). simpl_bind. cbn [payload].
  rewrite <- (app_nil_r (encode_posting_list postings)). by apply decode_encode_posting_list.
Qed.

(** The dictionary answers what has been written. *)
Definition dictionary_of (written : list (bytes * list (Z * Z))) (file : bytes) (d : gmap bytes PostingEntry) : Prop :=
  forall term,
    match d !! term with
    | Some entry => exists postings, (term, postings) ∈ written /\ postings <> [] /\ answers file entry postings
    | None => forall postings, (term, postings) ∈ written -> postings = []
    end.

Lemma rebuild_loop_spec entries written outcomes file d :
  Forall posting_entry_wf entries -> dictionary_of written file d ->
  match rebuild_loop entries outcomes file d (zlen file) with
  | Ok (file', d') => dictionary_of (written ++ entries) file' d'
  | Err e => ~ Forall progresses outcomes /\ (e = Io \/ e = NoWriteProgress)
  end.
Proof.
  intros Hwf. revert written outcomes file d. induction Hwf as [|[term postings] entries Hp _ IH];
    intros written outcomes file d Hd; cbn [rebuild_loop].
  { by rewrite app_nil_r. }
  replace (written ++ (term, postings) :: entries) with ((written ++ [(term, postings)]) ++ entries)
    by by rewrite <- app_assoc.
  destruct (decide (postings = [])) as [->|Hne].
  { apply IH. intros term'. specialize (Hd term'). destruct (d !! term') as [entry|].
    - destruct Hd as (ps & Hin & ?). exists ps. split; [apply elem_of_app; by left|done].
    - intros ps [Hin|[= _ ->]%list_elem_of_singleton]%elem_of_app; [by apply Hd|done]. }
  destruct Hp as (Hps & Hcount & Ht & Hlen). cbn [fst snd] in *. pose proof (zlen_nonneg postings).
  pose proof (zlen_nonneg term). rewrite (Z.mod_small (zlen postings)) by lia.
  destruct (encode_is_record term (zlen postings) (encode_posting_list postings))
    as (record & Er & Hrec & Hrl); [done|unfold HEADER_LEN, CRC_LEN in *; lia|done|].
  rewrite Er. simpl_bind. pose proof (write_loop_spec outcomes record 0 file) as Hw.
  destruct (write_loop _ _ _ _) as [[file' outcomes']|e]; simpl_bind;
    [|apply Hw; pose proof (zlen_nonneg record); lia].
  destruct Hw as [-> Hpr]; [pose proof (zlen_nonneg record); lia|].
  change (slice_from record 0) with record. rewrite <- zlen_app.
  match goal with |- context [rebuild_loop _ _ _ ?d' _] => set (d1 := d') end.
  assert (dictionary_of (written ++ [(term, postings)]) (file ++ record) d1) as Hd1.
  { intros term'. unfold d1. destruct (decide (term' = term)) as [->|Hterm].
    - rewrite lookup_insert_eq. exists postings. split; [apply elem_of_app; right; by left|]. split; [done|].
      eapply answers_record; try done. lia.
    - rewrite lookup_insert_ne by done. specialize (Hd term'). destruct (d !! term') as [entry|].
      + destruct Hd as (ps & Hin & ? & ?). exists ps. split; [apply elem_of_app; by left|]. split; [done|].
        by apply answers_app.
      + intros ps [Hin|[= ? _]%list_elem_of_singleton]%elem_of_app; [by apply Hd|done]. }
  specialize (IH _ outcomes' _ _ Hd1). destruct (rebuild_loop _ _ _ _ _) as [[file' d']|e]; [done|].
  destruct IH as [Hn He]. split; [|done]. intros Hall. by apply Hn, Hpr.
Qed.

(** *** The size of a posting list *)

Lemma encode_varint_loop_le fuel v output :
  zlen (encode_varint_loop fuel v output) <= zlen output + Z.of_nat fuel.
Proof.
  revert v output. induction fuel as [|fuel IH]; intros v output; cbn [encode_varint_loop]; [lia|].
  destruct (0x80 <=? v); [|rewrite zlen_app, zlen_cons, zlen_nil; lia].
  etrans; [apply IH|]. rewrite zlen_app, zlen_cons, zlen_nil. lia.
Qed.

Lemma encode_entries_le entries previous output :
  zlen (encode_entries entries previous output) <= zlen output + 10 * zlen entries.
Proof.
  revert previous output. induction entries as [|[id f] entries IH]; intros previous output; cbn [encode_entries].
  - unfold zlen. simpl. lia.
  - rewrite zlen_cons. etrans; [apply IH|]. unfold encode_varint.
    pose proof (encode_varint_loop_le 5 f (encode_varint_loop 5 ((id - previous) `mod` 2 ^ 32) output)).
    pose proof (encode_varint_loop_le 5 ((id - previous) `mod` 2 ^ 32) output). lia.
Qed.

Lemma encode_posting_list_le entries : zlen (encode_posting_list entries) <= 5 + 10 * zlen entries.
Proof.
  unfold encode_posting_list, encode_varint. etrans; [apply encode_entries_le|].
  pose proof (encode_varint_loop_le 5 (zlen entries `mod` 2 ^ 32) []) as Hv. rewrite zlen_nil in Hv. lia.
Qed.

(** No call of a rebuild fails. *)
Definition succeeds (outcomes : RebuildIo) : Prop :=
  create_fails outcomes = false /\ Forall progresses (record_writes outcomes) /\
  sync_fails outcomes = false /\ rename_fails outcomes = false.

(** A rebuild answers from the new file or leaves the old one. *)
Lemma rebuild_answers path entries outcomes :
  Forall posting_entry_wf entries -> NoDup entries.*1 ->
  match rebuild path entries outcomes with
  | (path', Ok dictionary) => exists file, path' = Some file /\
      (forall term postings, (term, postings) ∈ entries -> postings <> [] ->
         exists entry, dictionary !! term = Some entry /\ document_frequency entry = zlen postings /\
           (self ← open path'; read entry self) = Ok postings) /\
      (forall term, is_Some (dictionary !! term) -> exists postings, (term, postings) ∈ entries /\ postings <> [])
  | (path', Err e) => path' = path /\ ~ succeeds outcomes /\ (e = Io \/ e = NoWriteProgress)
  end.
Proof.
  intros Hwf Hnd. unfold rebuild, succeeds.
  destruct (create_fails outcomes); [split_and!; [done|by intros []|by left]|].
  pose proof (rebuild_loop_spec entries [] (record_writes outcomes) [] ∅ Hwf) as Hr. rewrite zlen_nil in Hr.
  destruct (rebuild_loop _ _ _ _ _) as [[file d]|e].
  2:{ split; [done|]. destruct Hr as [Hn He]; [intros term; rewrite lookup_empty; by intros ps ?%elem_of_nil|].
      split; [by intros (_ & ? & _)|done]. }
  destruct (sync_fails outcomes); [split_and!; [done|by intros (_ & _ & ? & _)|by left]|].
  destruct (rename_fails outcomes); [split_and!; [done|by intros (_ & _ & _ & ?)|by left]|].
  assert (dictionary_of entries file d) as Hd.
  { apply Hr. intros term. rewrite lookup_empty. by intros ps ?%elem_of_nil. }
  clear Hr. exists file. split; [done|]. split.
  - intros term postings Hin Hne. specialize (Hd term). destruct (d !! term) as [entry|].
    + destruct Hd as (ps & Hin' & _ & _ & _ & Hdf & Hread). exists entry. split; [done|].
      assert (ps = postings) as ->; [|done]. by eapply NoDup_fst_inj.
    + exfalso. by eapply Hne, Hd.
  - intros term [entry He]. specialize (Hd term). rewrite He in Hd. destruct Hd as (ps & ? & ? & _). by exists ps.
Qed.

(** C39: A rebuilt postings file answers every term: when the file is created, its
    writes progress and it is synced and renamed the rebuild succeeds, whatever part
    of a record each write takes; the file is then at the path, every term with postings is in the dictionary with their
    number, and reading its entry gives exactly its postings, and no other term is
    in the dictionary.  When a call fails the old file stays at the path. *)
Theorem rebuild_then_read path entries outcomes :
  Forall posting_entry_wf entries -> NoDup entries.*1 ->
  match rebuild path entries outcomes with
  | (path', Ok dictionary) => exists file, path' = Some file /\
      (forall term postings, (term, postings) ∈ entries -> postings <> [] ->
         exists entry, dictionary !! term = Some entry /\ document_frequency entry = zlen postings /\
           (self ← open path'; read entry self) = Ok postings) /\
      (forall term, is_Some (dictionary !! term) -> exists postings, (term, postings) ∈ entries /\ postings <> [])
  | (path', Err e) => path' = path /\ ~ succeeds outcomes /\ (e = Io \/ e = NoWriteProgress)
  end.
Proof. apply rebuild_answers. Qed.
End facts.

(** What a varint is: decoding reads up to and including the first byte below
    128, gives the value of its groups of seven bits modulo 2^32 and moves the
    cursor past it; without such a byte among the next six it fails, with the error
    that says whether the buffer or the varint was too long. *)
Theorem decode_varint_spec bs cursor :
  0 <= cursor ->
  decode_varint bs cursor = varint_spec (slice_from bs cursor) cursor /\
  match decode_varint bs cursor with
  | Ok (value, cursor') => is_u32 value /\ cursor < cursor' <= Z.min (cursor + 6) (zlen bs)
  | Err e => e = TruncatedVarint /\ zlen bs < cursor + 6 \/ e = VarintTooLong /\ cursor + 6 <= zlen bs
  end.
Proof.
  intros Hc. rewrite decode_varint_at by done. split; [done|]. unfold varint_spec.
  destruct (varint_bytes (take 6 (slice_from bs cursor))) as [v|] eqn:E.
  - apply varint_bytes_prefix in E as (Hv & rest & E). split; [apply Z.mod_pos_bound; lia|].
    assert (zlen v + zlen rest = Z.min 6 (zlen (slice_from bs cursor))) as Hl.
    { rewrite <- zlen_app, <- E. unfold zlen. rewrite length_take. lia. }
    pose proof (zlen_nonneg rest). unfold zlen, slice_from in *. rewrite length_drop in Hl. lia.
  - assert (zlen (slice_from bs cursor) = Z.max 0 (zlen bs - cursor)) as ->
      by (unfold zlen, slice_from; rewrite length_drop; lia).
    destruct (Z.ltb_spec (Z.max 0 (zlen bs - cursor)) 6); [left|right]; split; try done; lia.
Qed.

(** ** Examples *)

Import Bitwise.

Section examples.
Let term (z : Z) : bytes := [byte_of z].
Let entries : list (bytes * list (Z * Z)) :=
  [(term 97, [(3, 1); (300, 2)]); (term 98, []); (term 99, [(2 ^ 32 - 1, 7)])].

(** The first write takes three bytes of its record only. *)
Let slow_writes : RebuildIo := mk_RebuildIo false [Wrote 3; Wrote 100] false false false.

Lemma decode_varint_spec_witness :
  0 <= 1 /\ decode_varint (map byte_of [0xFF; 0xAC; 0x02]) 1 = Ok (300, 3).
Proof.
  split; [lia|]. etransitivity; [apply (decode_varint_spec (map byte_of [0xFF; 0xAC; 0x02]) 1); lia|].
  vm_compute. reflexivity.
Defined.

Lemma decode_record_exact_witness :
  exists raw, is_record (match encode_record (term 97) 2 (term 98) with Ok bs => bs | Err _ => [] end)
    raw 2 (term 98).
Proof.
  pose proof (decode_record_exact (match encode_record (term 97) 2 (term 98) with Ok bs => bs | Err _ => [] end)) as Hr.
  assert (decode_record (match encode_record (term 97) 2 (term 98) with Ok bs => bs | Err _ => [] end) =
          Ok (mk_DecodedRecord (term 97) 2 (term 98))) as E by (vm_compute; reflexivity).
  rewrite E in Hr. destruct Hr as (raw & Hr & _). exists raw. exact Hr.
Defined.

Lemma rebuild_then_read_witness :
  exists file dictionary entry,
    rebuild None entries slow_writes = (Some file, Ok dictionary) /\
    dictionary !! term 99 = Some entry /\ dictionary !! term 98 = None /\
    read entry (mk_PostingsFile (Some file)) = Ok [(2 ^ 32 - 1, 7)].
Proof.
  pose proof (rebuild_then_read None entries slow_writes) as Hr.
  assert (match rebuild None entries slow_writes with (_, Ok _) => true | _ => false end = true) as Hok
    by (vm_compute; reflexivity).
  destruct (rebuild None entries slow_writes) as [path' [dictionary|e]] eqn:E.
  2:{ discriminate Hok. }
  clear Hok.
  destruct Hr as (file & -> & Hread & Hdom).
  - repeat (apply Forall_cons; split; [split; [repeat constructor; vm_compute; congruence|];
      split; [by vm_compute|]; split; [vm_compute; congruence|]; vm_compute; congruence|]). constructor.
  - vm_compute. repeat (apply NoDup_cons; split; [set_solver|]). constructor.
  - destruct (Hread (term 99) [(2 ^ 32 - 1, 7)]) as (entry & He & _ & Hv); [set_solver|done|].
    exists file, dictionary, entry. split; [reflexivity|]. split; [exact He|]. split; [|exact Hv].
    destruct (dictionary !! term 98) as [e|] eqn:Eb; [|reflexivity]. exfalso.
    destruct (Hdom (term 98)) as (ps & Hin & Hne); [by exists e|].
    assert (Forall (fun x => x.1 = term 98 -> x.2 = []) entries) as Hall
      by (repeat constructor; vm_compute; congruence).
    apply Hne. rewrite Forall_forall in Hall. exact (Hall _ Hin eq_refl).
Defined.
End examples.
End PostingsFacts.
