(* ===== verification/IndexManager.v ===== *)
(** * Secondary indexes ([crates/minidb/src/index_manager.rs])

    Equality and range indexes over a field of the documents, with uniqueness.
    The ordered list of a range index is an [OrderedIndex] over numbers; a panic in
    it is [None].  [serde_json]'s numbers and texts are parameters.  Primary keys
    are their bytes.  The indexes of the manager are independent of one another;
    where the code reports the first violation in the order of a hash map, the
    order is that of [map_to_list]. *)

From Corelib Require Import SpecFloat.
From stdpp Require Import pretty sorting.
From S2P Require Import Prelude.
From S2P Require Import OrdIndex.
From S2P Require Import Query.
From S2P Require Import Float.
Import OrdIndex Query Float.

Module IndexManager.

Inductive IndexType := TypeEquality | TypeRange.

Record IndexDef := mk_IndexDef {
  def_field : string; def_index_type : IndexType; def_unique : bool; def_sparse : bool;
}.

Definition IndexDef_equality (field : string) : IndexDef := mk_IndexDef field TypeEquality false true.

Record IndexInfo := mk_IndexInfo {
  name : string; field : string; index_type : IndexType; unique : bool; sparse : bool;
}.

Record EqualityIndex := mk_EqualityIndex {
  eq_info : IndexInfo;
  eq_map : gmap string (list bytes);
  eq_by_pk : gmap bytes (list string);
}.

Record RangeIndex (T : Type) := mk_RangeIndex {
  rg_info : IndexInfo;
  rg_list : T;
  rg_by_pk : gmap bytes (list f64);
}.
Arguments mk_RangeIndex {T}. Arguments rg_info {T}. Arguments rg_list {T}. Arguments rg_by_pk {T}.

Inductive AnyIndex (T : Type) :=
| Equality (index : EqualityIndex)
| Range (index : RangeIndex T).
Arguments Equality {T}. Arguments Range {T}.

Definition info {T} (self : AnyIndex T) : IndexInfo :=
  match self with Equality index => eq_info index | Range index => rg_info index end.

Inductive IndexError :=
| MissingField
| AlreadyExists (name : string)
| NotFound (name : string)
| NotEquality (name : string)
| NotRange (name : string)
| UniqueViolation (index value : string).

Inductive BatchIndexOpType := OpSet | OpDel.

Record BatchIndexOp (Document : Type) := mk_BatchIndexOp {
  op_pk : bytes; op : BatchIndexOpType; op_doc : Document;
}.
Arguments mk_BatchIndexOp {Document}. Arguments op_pk {Document}. Arguments op {Document}. Arguments op_doc {Document}.

Record NumericRangeOptions := mk_NumericRangeOptions {
  min : option f64; max : option f64; min_exclusive : bool; max_exclusive : bool;
  num_offset : Z; num_count : option Z; num_reverse : bool;
}.

Record NumericRangeEntry := mk_NumericRangeEntry { entry_pk : bytes; entry_value : f64 }.

Record IndexManager (T : Type) := mk_IndexManager { indexes : gmap string (AnyIndex T) }.
Arguments mk_IndexManager {T}. Arguments indexes {T}.

Section index_manager.
Context {Number : Type}.
Context (number_as_f64 : Number -> option spec_float).
Abbreviation Value := (@Query.Value Number).
(** [serde_json::to_string] and [Display for Number]. *)
Context (to_string : Value -> string) (number_text : Number -> string).
Context {T : Type} `{!OrderedIndex T f64 bytes}.
Implicit Types (self : IndexManager T) (index : AnyIndex T) (doc : Value).

(** ** The keys of a value *)

Definition flatten (value : Value) : list Value := match value with Array values => values | _ => [value] end.

Definition join (separator : string) (parts : list string) : string := String.concat separator parts.

Definition key_le (x y : string * string) : Prop := String.leb x.1 y.1 = true.
#[export] Instance key_le_dec x y : Decision (key_le x y).
Proof. unfold key_le. apply _. Defined.

(** The members are rendered first and then put in the order of their keys. *)
Fixpoint stable_stringify (value : Value) : string :=
  match value with
  | Array values => "[" +:+ join "," (map stable_stringify values) +:+ "]"
  | Object members =>
      let texts := map (fun kv => let '(k, v) := kv in (k, to_string (Str k) +:+ ":" +:+ stable_stringify v)) members in
      "{" +:+ join "," (map snd (merge_sort key_le texts)) +:+ "}"
  | _ => to_string value
  end%string.

Definition scalar_key (value : Value) : string :=
  match value with
  | Str s => "string:" +:+ s
  | Num n => "number:" +:+ number_text n
  | Bool b => "boolean:" +:+ (if b then "true" else "false")
  | _ => "json:" +:+ stable_stringify value
  end%string.

Definition unique_error (index : string) (value : Value) : IndexError := UniqueViolation index (to_string value).

(** [as_f64().filter(is_finite)]. *)
Definition finite_f64 (value : Value) : option f64 := as_f64 number_as_f64 value ≫= finite.

(** [filter(|value| seen.insert(value.to_bits()))]. *)
Fixpoint first_seen (seen : list Z) (values : list f64) : list f64 :=
  match values with
  | [] => []
  | value :: values =>
      if decide (to_bits value ∈ seen) then first_seen seen values
      else value :: first_seen (to_bits value :: seen) values
  end.

Definition numbers (value : Value) : list f64 := first_seen [] (omap finite_f64 (flatten value)).

(** The value of the field of a document, unless the index leaves the document out. *)
Definition indexed_value (i : IndexInfo) doc : option Value :=
  let value := get_path doc (field i) in
  if bool_decide (value = None) && sparse i then None else Some (default Null value).

(** ** The manager *)

Definition create (name : string) (def : IndexDef) self : result IndexError (IndexManager T) :=
  if decide (def_field def = EmptyString) then Err MissingField
  else if decide (is_Some (indexes self !! name)) then Err (AlreadyExists name)
  else
    let info := mk_IndexInfo name (def_field def) (def_index_type def) (def_unique def) (def_sparse def) in
    let index := match index_type info with
                 | TypeEquality => Equality (mk_EqualityIndex info ∅ ∅)
                 | TypeRange => Range (mk_RangeIndex info oi_empty ∅)
                 end in
    Ok (mk_IndexManager (<[name := index]> (indexes self))).

(** The name [drop] is the list operation's. *)
Definition drop_index (name : string) self : IndexManager T * bool :=
  (mk_IndexManager (delete name (indexes self)), bool_decide (is_Some (indexes self !! name))).

Definition list_indexes self : list IndexInfo := map (fun kv => info kv.2) (map_to_list (indexes self)).

(** Every index on its own. *)
Definition each (f : AnyIndex T -> option (AnyIndex T)) self : option (IndexManager T) :=
  m ← each_value f (indexes self); Some (mk_IndexManager m).

Definition add_key (pk : bytes) (map : gmap string (list bytes)) (key : string) : gmap string (list bytes) :=
  let values := default [] (map !! key) in
  <[key := if decide (pk ∈ values) then values else values ++ [pk]]> map.

Definition add_to (pk : bytes) doc index : option (AnyIndex T) :=
  match indexed_value (info index) doc with
  | None => Some index
  | Some value =>
      match index with
      | Range index =>
          let values := numbers value in
          if decide (values = []) then Some (Range index)
          else
            l ← foldM (fun l value => oi_insert value pk l) (rg_list index) values;
            Some (Range (mk_RangeIndex (rg_info index) l (<[pk := values]> (rg_by_pk index))))
      | Equality index =>
          let keys := map scalar_key (flatten value) in
          Some (Equality (mk_EqualityIndex (eq_info index) (fold_left (add_key pk) keys (eq_map index))
                            (<[pk := keys]> (eq_by_pk index))))
      end
  end.

Definition add (pk : bytes) doc self : option (IndexManager T) := each (add_to pk doc) self.

Definition remove_key (pk : bytes) (map : gmap string (list bytes)) (key : string) : gmap string (list bytes) :=
  match map !! key with
  | None => map
  | Some values =>
      let values := filter (fun value => value <> pk) values in
      if decide (values = []) then delete key map else <[key := values]> map
  end.

Definition remove_from (pk : bytes) index : option (AnyIndex T) :=
  match index with
  | Range index =>
      match rg_by_pk index !! pk with
      | None => Some (Range index)
      | Some values =>
          l ← foldM (fun l value => '(l, _) ← oi_delete value pk l; Some l) (rg_list index) values;
          Some (Range (mk_RangeIndex (rg_info index) l (delete pk (rg_by_pk index))))
      end
  | Equality index =>
      match eq_by_pk index !! pk with
      | None => Some (Equality index)
      | Some keys =>
          Some (Equality (mk_EqualityIndex (eq_info index) (fold_left (remove_key pk) keys (eq_map index))
                            (delete pk (eq_by_pk index))))
      end
  end.

Definition remove (pk : bytes) self : option (IndexManager T) := each (remove_from pk) self.

Definition find_eq (name : string) (value : Value) self : result IndexError (list bytes) :=
  index ← ok_or (NotFound name) (indexes self !! name);
  match index with
  | Equality index => Ok (default [] (eq_map index !! scalar_key value))
  | Range _ => Err (NotEquality name)
  end.

Definition has_eq (name : string) (value : Value) (pk : bytes) self : result IndexError bool :=
  values ← find_eq name value self; Ok (bool_decide (pk ∈ values)).

Definition numeric_range (options : NumericRangeOptions) : RangeOptions f64 :=
  mk_RangeOptions
    (if min_exclusive options then None else min options) (if min_exclusive options then min options else None)
    (if max_exclusive options then None else max options) (if max_exclusive options then max options else None)
    (num_offset options) (num_count options) (num_reverse options).

Definition find_range (name : string) (options : NumericRangeOptions) self
    : option (result IndexError (list NumericRangeEntry)) :=
  match indexes self !! name with
  | None => Some (Err (NotFound name))
  | Some (Equality _) => Some (Err (NotRange name))
  | Some (Range index) =>
      entries ← oi_range (numeric_range options) (rg_list index);
      Some (Ok (map (fun e => mk_NumericRangeEntry e.2 e.1) entries))
  end.

Definition clear index : AnyIndex T :=
  match index with
  | Range index => Range (mk_RangeIndex (rg_info index) oi_empty ∅)
  | Equality index => Equality (mk_EqualityIndex (eq_info index) ∅ ∅)
  end.

Definition is_object (value : Value) : bool := match value with Object _ => true | _ => false end.

Definition rebuild (entries : list (bytes * Value)) self : option (IndexManager T) :=
  foldM (fun self kv => if is_object kv.2 then add kv.1 kv.2 self else Some self)
    (mk_IndexManager (clear <$> indexes self)) entries.

(** ** Uniqueness *)

(** Whether another primary key owns an item. *)
Definition taken (pk : bytes) index (item : Value) : option bool :=
  match index with
  | Range index =>
      match finite_f64 item with
      | None => Some false
      | Some number =>
          hits ← oi_range (mk_RangeOptions (Some number) None (Some number) None 0 (Some 1) false) (rg_list index);
          Some (match hits with hit :: _ => bool_decide (hit.2 <> pk) | [] => false end)
      end
  | Equality index =>
      Some (match eq_map index !! scalar_key item with
            | None | Some [] => false
            | Some [owner] => bool_decide (owner <> pk)
            | Some (_ :: _ :: _) => true
            end)
  end.

Fixpoint check_items (pk : bytes) index (items : list Value) : option (result IndexError ()) :=
  match items with
  | [] => Some (Ok ())
  | item :: items =>
      other ← taken pk index item;
      if (other : bool) then Some (Err (unique_error (name (info index)) item)) else check_items pk index items
  end.

Definition check_index (pk : bytes) doc index : option (result IndexError ()) :=
  if negb (unique (info index)) then Some (Ok ())
  else match indexed_value (info index) doc with
       | None => Some (Ok ())
       | Some value => check_items pk index (flatten value)
       end.

Fixpoint check_indexes (pk : bytes) doc (l : list (AnyIndex T)) : option (result IndexError ()) :=
  match l with
  | [] => Some (Ok ())
  | index :: l =>
      r ← check_index pk doc index;
      match r with Ok _ => check_indexes pk doc l | Err e => Some (Err e) end
  end.

Definition check_unique (pk : bytes) doc self : option (result IndexError ()) :=
  check_indexes pk doc (map snd (map_to_list (indexes self))).

(** An owner for a key: the violation, if the key had another one. *)
Definition own {K} `{Countable K} (pk : bytes) (owners : gmap K bytes) (key : K) (error : IndexError)
    : result IndexError (gmap K bytes) :=
  match owners !! key with
  | Some previous => if decide (previous = pk) then Ok (<[key := pk]> owners) else Err error
  | None => Ok (<[key := pk]> owners)
  end.

Fixpoint foldR {S A E} (f : S -> A -> result E S) (s : S) (l : list A) : result E S :=
  match l with [] => Ok s | a :: l => s ← f s a; foldR f s l end.

(** The final state of every primary key a batch touches. *)
Definition last_ops (operations : list (BatchIndexOp Value)) : gmap bytes (BatchIndexOp Value) :=
  fold_left (fun last o => <[op_pk o := o]> last) operations ∅.

Definition check_batch_index (last : gmap bytes (BatchIndexOp Value)) index : result IndexError () :=
  if negb (unique (info index)) then Ok ()
  else
    match index with
    | Range index =>
        let untouched := filter (fun kv => last !! kv.1 = None) (map_to_list (rg_by_pk index)) in
        let owners := fold_left (fun m kv => fold_left (fun m value => <[to_bits value := kv.1]> m) kv.2 m) untouched ∅ in
        _ ← foldR (fun owners ko =>
              match op ko.2 with
              | OpDel => Ok owners
              | OpSet =>
                  foldR (fun owners value =>
                    match finite_f64 value with
                    | None => Ok owners
                    | Some number => own ko.1 owners (to_bits number) (unique_error (name (rg_info index)) value)
                    end) owners (flatten (default Null (get_path (op_doc ko.2) (field (rg_info index)))))
              end) (owners : gmap Z bytes) (map_to_list last);
        Ok ()
    | Equality index =>
        let owned := map_to_list (eq_map index) ≫= fun kv => map (pair kv.1) (filter (fun pk => last !! pk = None) kv.2) in
        let owners := fold_left (fun m kv => <[kv.1 := kv.2]> m) owned ∅ in
        _ ← foldR (fun owners ko =>
              match op ko.2 with
              | OpDel => Ok owners
              | OpSet =>
                  match indexed_value (eq_info index) (op_doc ko.2) with
                  | None => Ok owners
                  | Some value =>
                      foldR (fun owners item =>
                        own ko.1 owners (scalar_key item) (unique_error (name (eq_info index)) item))
                        owners (flatten value)
                  end
              end) (owners : gmap string bytes) (map_to_list last);
        Ok ()
    end.

Definition check_unique_batch (operations : list (BatchIndexOp Value)) self : result IndexError () :=
  foldR (fun _ kv => check_batch_index (last_ops operations) kv.2) () (map_to_list (indexes self)).

Definition assert_unique_valid (value_of : f64 -> Value) (name' : string) self : result IndexError () :=
  index ← ok_or (NotFound name') (indexes self !! name');
  if negb (unique (info index)) then Ok ()
  else
    match index with
    | Range index =>
        _ ← foldR (fun owners kv =>
              foldR (fun owners value =>
                own kv.1 owners (to_bits value) (unique_error (name (rg_info index)) (value_of value)))
                owners kv.2) (∅ : gmap Z bytes) (map_to_list (rg_by_pk index));
        Ok ()
    | Equality index =>
        foldR (fun _ kv =>
          match kv.2 with
          | first :: _ :: _ =>
              Err (UniqueViolation (name (eq_info index))
                (to_string (Str (pretty (Z.of_nat (length kv.2)) +:+ " keys (e.g. " +:+
                   String.string_of_list_byte first +:+ ")"))%string))
          | _ => Ok ()
          end) () (map_to_list (eq_map index))
    end.

End index_manager.
End IndexManager.
