(* ===== verification/IndexManagerFacts.v ===== *)
(** * Secondary indexes: what they keep

    Over the definitions of [IndexManager]: the indexes are a function of the
    documents they were told of, lookups and range queries answer from them, and
    a checked write keeps a unique index unique. *)

From Corelib Require Import SpecFloat.
From S2P Require Import Prelude.
From S2P Require Import OrdIndex.
From S2P Require Import Query.
From S2P Require Import Float.
From S2P Require Import SkipList.
From S2P Require Import SkipListFacts.
From S2P Require Import IndexManager.
Import OrdIndex Query Float IndexManager.

Module IndexManagerFacts.

(** ** Entries modulo the sign of zero *)

Definition nentry (e : f64 * bytes) : f64 * bytes := (norm e.1, e.2).

Abbreviation num_cmp := (cmp_entry compare_number bytes_cmp).

Lemma num_cmp_eq x y : num_cmp x y = Eq <-> nentry x = nentry y.
Proof.
  unfold cmp_entry, nentry. pose proof (compare_number_eq x.1 y.1) as Hn. pose proof (bytes_cmp_eq x.2 y.2) as Hb.
  destruct x as [v k], y as [v' k']. cbn [fst snd] in *.
  destruct (compare_number v v'); split; try done.
  - intros ->%Hb. by rewrite (proj1 Hn eq_refl).
  - intros [= _ ->]. by apply Hb.
  - intros [= E _]. by apply Hn in E.
  - intros [= E _]. by apply Hn in E.
Qed.

(** ** The lists of an equality index *)

Section equality.
Implicit Types m : gmap string (list bytes).

Lemma add_keys_spec pk keys m key :
  NoDup (default [] (m !! key)) -> m !! key <> Some [] ->
  let m' := fold_left (add_key pk) keys m in
  NoDup (default [] (m' !! key)) /\ m' !! key <> Some [] /\
  forall p, p ∈ default [] (m' !! key) <-> p ∈ default [] (m !! key) \/ p = pk /\ key ∈ keys.
Proof.
  revert m. induction keys as [|k keys IH]; intros m Hnd Hne; cbn [fold_left].
  { split; [done|]. split; [done|]. set_solver. }
  assert (NoDup (default [] (add_key pk m k !! key)) /\ add_key pk m k !! key <> Some [] /\
    forall p, p ∈ default [] (add_key pk m k !! key) <-> p ∈ default [] (m !! key) \/ p = pk /\ key = k) as (Hnd1 & Hne1 & Hin1).
  { unfold add_key. destruct (decide (k = key)) as [->|Hk]; [rewrite lookup_insert_eq|rewrite lookup_insert_ne by done].
    - simpl. destruct (decide (pk ∈ default [] (m !! key))) as [Hin|Hin].
      + split; [done|]. split; [intros [= E]; rewrite E in Hin; by apply elem_of_nil in Hin|].
        intros p. split; [tauto|]. by intros [?|[-> _]].
      + split; [apply NoDup_app; split; [done|]; split; [set_solver|apply NoDup_singleton]|].
        split; [intros [= E]; by apply app_eq_nil in E as [_ ?]|]. intros p. rewrite elem_of_app, list_elem_of_singleton. tauto.
    - split; [done|]. split; [done|]. intros p. split; [tauto|]. intros [?|[_ ->]]; [done|]. by destruct Hk. }
  destruct (IH (add_key pk m k) Hnd1 Hne1) as (Hnd' & Hne' & Hin'). split; [done|]. split; [done|].
  intros p. rewrite Hin', Hin1, elem_of_cons. tauto.
Qed.

Lemma remove_keys_spec pk keys m key :
  NoDup (default [] (m !! key)) -> m !! key <> Some [] ->
  let m' := fold_left (remove_key pk) keys m in
  NoDup (default [] (m' !! key)) /\ m' !! key <> Some [] /\
  forall p, p ∈ default [] (m' !! key) <-> p ∈ default [] (m !! key) /\ ~ (p = pk /\ key ∈ keys).
Proof.
  revert m. induction keys as [|k keys IH]; intros m Hnd Hne; cbn [fold_left].
  { split; [done|]. split; [done|]. set_solver. }
  assert (NoDup (default [] (remove_key pk m k !! key)) /\ remove_key pk m k !! key <> Some [] /\
    forall p, p ∈ default [] (remove_key pk m k !! key) <-> p ∈ default [] (m !! key) /\ ~ (p = pk /\ key = k)) as (Hnd1 & Hne1 & Hin1).
  { unfold remove_key. destruct (m !! k) as [values|] eqn:Ek.
    - destruct (decide (k = key)) as [->|Hk].
      + rewrite Ek in *. simpl in Hnd.
        destruct (decide (filter (fun value => value <> pk) values = [])) as [E|E].
        * rewrite lookup_delete_eq. simpl. split; [constructor|]. split; [done|]. intros p.
          split; [by intros ?%elem_of_nil|]. intros [Hin Hp]. exfalso.
          assert (p ∈ filter (fun value => value <> pk) values) as Hf
            by (apply list_elem_of_filter; split; [intros ->; by apply Hp|done]).
          rewrite E in Hf. by apply elem_of_nil in Hf.
        * rewrite lookup_insert_eq. simpl. split; [by apply NoDup_filter|]. split; [congruence|].
          intros p. rewrite list_elem_of_filter. naive_solver.
      + destruct (decide _); rewrite ?lookup_delete_ne, ?lookup_insert_ne by done; (split; [done|]; split; [done|]);
          intros p; (split; [intros ?; split; [done|]; intros [_ ->]; by destruct Hk|tauto]).
    - split; [done|]. split; [done|]. intros p. split; [|tauto]. intros Hin. split; [done|]. intros [_ ->].
      rewrite Ek in Hin. by apply elem_of_nil in Hin. }
  destruct (IH (remove_key pk m k) Hnd1 Hne1) as (Hnd' & Hne' & Hin'). split; [done|]. split; [done|].
  intros p. rewrite Hin', Hin1, elem_of_cons. tauto.
Qed.
End equality.

(** ** What the indexes stand for *)

Section facts.
Context {Number : Type}.
Context (number_as_f64 : Number -> option spec_float).
Abbreviation Value := (@Query.Value Number).
Context (to_string : Value -> string) (number_text : Number -> string).
Context {T : Type} `{!OrderedIndex T f64 bytes}.
Context (repr : T -> list (f64 * bytes) -> Prop) `{!OrderedIndexLaws compare_number bytes_cmp repr}.
Implicit Types (self : IndexManager T) (index : AnyIndex T) (doc : Value) (docs : gmap bytes Value).

Abbreviation key_of := (scalar_key to_string number_text).
Abbreviation finite_of := (finite_f64 number_as_f64).

(** The keys and the numbers a document has in an index. *)
Definition doc_keys (i : IndexInfo) doc : list string :=
  match indexed_value i doc with Some value => map key_of (flatten value) | None => [] end.
Definition doc_numbers (i : IndexInfo) doc : list f64 :=
  match indexed_value i doc with Some value => numbers number_as_f64 value | None => [] end.

Definition numbered (pk : bytes) (values : list f64) : list (f64 * bytes) := map (fun v => (norm v, pk)) values.

(** The entries of all documents in a range index. *)
Definition docs_entries (i : IndexInfo) docs : list (f64 * bytes) :=
  map_to_list docs ≫= fun kd => numbered kd.1 (doc_numbers i kd.2).

Definition index_ok docs index : Prop :=
  match index with
  | Equality ix =>
      (forall key, NoDup (default [] (eq_map ix !! key)) /\ eq_map ix !! key <> Some [] /\
         forall pk, pk ∈ default [] (eq_map ix !! key) <->
           exists doc, docs !! pk = Some doc /\ key ∈ doc_keys (eq_info ix) doc) /\
      forall pk, eq_by_pk ix !! pk =
        (doc ← docs !! pk; value ← indexed_value (eq_info ix) doc; Some (map key_of (flatten value)))
  | Range ix =>
      (exists l, repr (rg_list ix) l /\ map nentry l ≡ₚ docs_entries (rg_info ix) docs) /\
      forall pk, rg_by_pk ix !! pk =
        (doc ← docs !! pk; let values := doc_numbers (rg_info ix) doc in
         if decide (values = []) then None else Some values)
  end.

Definition manager_ok docs self : Prop :=
  forall name index, indexes self !! name = Some index -> IndexManager.name (info index) = name /\ index_ok docs index.

Lemma docs_entries_insert i docs pk doc :
  docs !! pk = None -> docs_entries i (<[pk := doc]> docs) ≡ₚ numbered pk (doc_numbers i doc) ++ docs_entries i docs.
Proof. intros Hn. unfold docs_entries. by rewrite map_to_list_insert by done. Qed.

Lemma docs_entries_delete i docs pk doc :
  docs !! pk = Some doc -> numbered pk (doc_numbers i doc) ++ docs_entries i (delete pk docs) ≡ₚ docs_entries i docs.
Proof. intros Hs. unfold docs_entries. by rewrite <- (map_to_list_delete docs pk doc Hs). Qed.

(** *** The list of a range index *)

Lemma insert_all_spec pk values t l :
  repr t l -> zlen l + zlen values < U64_MAX ->
  exists t' l', foldM (fun t value => oi_insert value pk t) t values = Some t' /\ repr t' l' /\
    map nentry l' ≡ₚ numbered pk values ++ map nentry l.
Proof.
  revert t l. induction values as [|v values IH]; intros t l Hr Hz; [by exists t, l|]. cbn [foldM].
  rewrite zlen_cons in Hz. pose proof (zlen_nonneg values).
  destruct (oi_insert_spec v pk t l Hr ltac:(lia)) as (t1 & -> & Hr1). simpl_bind.
  pose proof (sorted_insert_perm num_cmp (v, pk) l) as Hp.
  destruct (IH t1 _ Hr1) as (t' & l' & Hf & Hr' & Hl').
  { unfold zlen in *. rewrite Hp. simpl. lia. }
  exists t', l'. split; [done|]. split; [done|]. rewrite Hl', Hp. cbn [map numbered app].
  unfold numbered. by rewrite <- Permutation_middle.
Qed.

Lemma delete_all_spec pk values t l rest :
  repr t l -> map nentry l ≡ₚ numbered pk values ++ rest ->
  exists t' l', foldM (fun t value => '(t, _) ← oi_delete value pk t; Some t) t values = Some t' /\ repr t' l' /\
    map nentry l' ≡ₚ rest.
Proof.
  revert t l. induction values as [|v values IH]; intros t l Hr Hl; [by exists t, l|]. cbn [foldM].
  destruct (oi_delete_spec v pk t l Hr) as (t1 & -> & Hr1). simpl_bind.
  apply (IH _ _ Hr1). apply (Permutation_cons_inv (a := nentry (v, pk))).
  rewrite (sorted_delete_norm num_cmp nentry num_cmp_eq); [exact Hl|by eapply oi_repr_sorted|]. rewrite Hl. by left.
Qed.

Lemma Range_length ix docs l :
  repr (rg_list ix) l -> map nentry l ≡ₚ docs_entries (rg_info ix) docs -> zlen l = zlen (docs_entries (rg_info ix) docs).
Proof. intros _ E. unfold zlen. by rewrite <- E, length_map. Qed.

(** *** One index *)

Abbreviation add_to_ := (add_to number_as_f64 to_string number_text).

(** There is room for the numbers of a document. *)
Definition room docs index : Prop :=
  match index with Range ix => zlen (docs_entries (rg_info ix) docs) < U64_MAX | Equality _ => True end.

Lemma add_to_ok docs pk doc index :
  index_ok docs index -> docs !! pk = None -> room (<[pk := doc]> docs) index ->
  exists index', add_to_ pk doc index = Some index' /\ info index' = info index /\
    index_ok (<[pk := doc]> docs) index'.
Proof.
  intros Hok Hn Hroom. unfold add_to. destruct index as [ix|ix]; cbn [info].
  - destruct Hok as [Hmap Hby]. destruct (indexed_value (eq_info ix) doc) as [value|] eqn:Ev.
    + eexists. split; [reflexivity|]. split; [done|]. cbn [index_ok eq_map eq_by_pk eq_info]. split.
      * intros key. destruct (Hmap key) as (Hnd & Hne & Hin).
        destruct (add_keys_spec pk (map key_of (flatten value)) (eq_map ix) key Hnd Hne) as (Hnd' & Hne' & Hin').
        split; [done|]. split; [done|]. intros p. rewrite Hin', Hin. destruct (decide (p = pk)) as [->|Hp].
        -- rewrite lookup_insert_eq, Hn. unfold doc_keys. split.
           ++ intros [(d & ? & _)|[_ Hk]]; [done|]. exists doc. by rewrite Ev.
           ++ intros (d & [= <-] & Hk). rewrite Ev in Hk. by right.
        -- rewrite lookup_insert_ne by done. split; [by intros [?|[-> _]]|by left].
      * intros p. destruct (decide (p = pk)) as [->|Hp].
        -- rewrite !lookup_insert_eq. simpl_bind. by rewrite Ev.
        -- rewrite !lookup_insert_ne by done. apply Hby.
    + eexists. split; [reflexivity|]. split; [done|]. split.
      * intros key. destruct (Hmap key) as (Hnd & Hne & Hin). split; [done|]. split; [done|]. intros p. rewrite Hin.
        destruct (decide (p = pk)) as [->|Hp]; [|by rewrite lookup_insert_ne].
        rewrite lookup_insert_eq, Hn. unfold doc_keys. split; [by intros (d & ? & _)|].
        intros (d & [= <-] & Hk). rewrite Ev in Hk. by apply elem_of_nil in Hk.
      * intros p. rewrite Hby. destruct (decide (p = pk)) as [->|Hp]; [|by rewrite lookup_insert_ne].
        rewrite lookup_insert_eq, Hn. simpl_bind. by rewrite Ev.
  - destruct Hok as [(l & Hr & Hl) Hby]. cbn [room] in Hroom.
    assert (forall values, doc_numbers (rg_info ix) doc = values -> values = [] ->
      index_ok (<[pk := doc]> docs) (Range ix)) as Hnone.
    { intros values Ev E. split.
      - exists l. split; [done|]. rewrite docs_entries_insert, Ev, E by done. exact Hl.
      - intros p. rewrite Hby. destruct (decide (p = pk)) as [->|Hp]; [|by rewrite lookup_insert_ne].
        rewrite lookup_insert_eq, Hn. simpl_bind. by rewrite Ev, E. }
    unfold doc_numbers in Hnone. destruct (indexed_value (rg_info ix) doc) as [value|] eqn:Ev;
      [|eexists; split; [reflexivity|]; split; [done|]; by eapply Hnone].
    destruct (decide (numbers number_as_f64 value = [])) as [E|E];
      [eexists; split; [reflexivity|]; split; [done|]; by eapply Hnone|].
    destruct (insert_all_spec pk (numbers number_as_f64 value) (rg_list ix) l Hr) as (t' & l' & Hf & Hr' & Hl').
    { rewrite (Range_length ix docs l Hr Hl). clear Hl. unfold zlen in *. rewrite docs_entries_insert in Hroom by done.
      unfold doc_numbers in Hroom. rewrite Ev, length_app in Hroom. unfold numbered in Hroom. rewrite length_map in Hroom. lia. }
    rewrite Hf. simpl_bind. eexists. split; [reflexivity|]. split; [done|]. split; cbn [rg_list rg_by_pk rg_info].
    + exists l'. split; [done|]. rewrite Hl', docs_entries_insert by done. unfold doc_numbers. by rewrite Ev, Hl.
    + intros p. destruct (decide (p = pk)) as [->|Hp].
      * rewrite !lookup_insert_eq. simpl_bind. unfold doc_numbers. rewrite Ev. by rewrite decide_False.
      * rewrite !lookup_insert_ne by done. apply Hby.
Qed.

Lemma remove_from_ok docs pk index :
  index_ok docs index ->
  exists index', remove_from pk index = Some index' /\ info index' = info index /\
    index_ok (delete pk docs) index'.
Proof.
  intros Hok. unfold remove_from. destruct index as [ix|ix].
  - destruct Hok as [Hmap Hby]. pose proof (Hby pk) as Hpk. destruct (eq_by_pk ix !! pk) as [keys|].
    + symmetry in Hpk. apply bind_Some in Hpk as (doc & Hdoc & Hpk).
      apply bind_Some in Hpk as (value & Ev & [= <-]).
      eexists. split; [reflexivity|]. split; [done|]. cbn [index_ok eq_map eq_by_pk eq_info]. split.
      * intros key. destruct (Hmap key) as (Hnd & Hne & Hin).
        destruct (remove_keys_spec pk (map key_of (flatten value)) (eq_map ix) key Hnd Hne) as (Hnd' & Hne' & Hin').
        split; [done|]. split; [done|]. intros p. rewrite Hin', Hin. destruct (decide (p = pk)) as [->|Hp].
        -- rewrite lookup_delete_eq. split; [|by intros (d & ? & _)]. intros [(d & Hd & Hk) Hno]. exfalso. apply Hno.
           split; [done|]. unfold doc_keys in Hk. assert (d = doc) as -> by congruence. by rewrite Ev in Hk.
        -- rewrite lookup_delete_ne by done. split; [tauto|]. intros ?. split; [done|]. by intros [-> _].
      * intros p. destruct (decide (p = pk)) as [->|Hp]; [by rewrite !lookup_delete_eq|].
        rewrite !lookup_delete_ne by done. apply Hby.
    + eexists. split; [reflexivity|]. split; [done|].
      assert (forall d, docs !! pk = Some d -> indexed_value (eq_info ix) d = None) as Hnone.
      { intros d Hd. rewrite Hd in Hpk. simpl_bind. cbn [mbind option_bind] in Hpk. by destruct (indexed_value _ _). }
      split.
      * intros key. destruct (Hmap key) as (Hnd & Hne & Hin). split; [done|]. split; [done|]. intros p. rewrite Hin.
        destruct (decide (p = pk)) as [->|Hp]; [|by rewrite lookup_delete_ne]. rewrite lookup_delete_eq.
        split; [|by intros (d & ? & _)]. intros (d & Hd & Hk). unfold doc_keys in Hk.
        rewrite (Hnone d Hd) in Hk. by apply elem_of_nil in Hk.
      * intros p. rewrite Hby. destruct (decide (p = pk)) as [->|Hp]; [|by rewrite lookup_delete_ne].
        rewrite lookup_delete_eq, <- Hpk. done.
  - destruct Hok as [(l & Hr & Hl) Hby]. pose proof (Hby pk) as Hpk. destruct (rg_by_pk ix !! pk) as [values|].
    + symmetry in Hpk. apply bind_Some in Hpk as (doc & Hdoc & Hpk). simpl in Hpk.
      destruct (decide (doc_numbers (rg_info ix) doc = [])); [done|]. injection Hpk as <-.
      destruct (delete_all_spec pk (doc_numbers (rg_info ix) doc) (rg_list ix) l (docs_entries (rg_info ix) (delete pk docs)) Hr)
        as (t' & l' & Hf & Hr' & Hl'); [by rewrite Hl, docs_entries_delete|].
      rewrite Hf. simpl_bind. eexists. split; [reflexivity|]. split; [done|]. split; cbn [rg_list rg_by_pk rg_info].
      * by exists l'.
      * intros p. destruct (decide (p = pk)) as [->|Hp]; [by rewrite !lookup_delete_eq|].
        rewrite !lookup_delete_ne by done. apply Hby.
    + eexists. split; [reflexivity|]. split; [done|]. split.
      * exists l. split; [done|]. rewrite Hl. destruct (docs !! pk) as [doc|] eqn:Hdoc.
        -- simpl in Hpk. destruct (decide (doc_numbers (rg_info ix) doc = [])) as [E|]; [|done].
           rewrite <- (docs_entries_delete (rg_info ix) docs pk doc Hdoc), E. done.
        -- by rewrite delete_id.
      * intros p. rewrite Hby. destruct (decide (p = pk)) as [->|Hp]; [|by rewrite lookup_delete_ne].
        rewrite lookup_delete_eq, <- Hpk. done.
Qed.

(** *** The manager *)

Lemma manager_each_ok f self docs docs' :
  manager_ok docs self ->
  (forall name index, indexes self !! name = Some index -> index_ok docs index ->
     exists index', f index = Some index' /\ info index' = info index /\ index_ok docs' index') ->
  exists self', each f self = Some self' /\ manager_ok docs' self' /\
    info <$> indexes self' = info <$> indexes self.
Proof.
  intros Hok Hf. unfold each. destruct (each_value_spec f (indexes self)) as (m' & -> & Hl).
  { intros name index Hi. destruct (Hok name index Hi) as [_ Hix].
    destruct (Hf name index Hi Hix) as (index' & -> & _). by exists index'. }
  exists (mk_IndexManager m'). split; [done|]. cbn [indexes].
  assert (forall name, m' !! name = None /\ indexes self !! name = None \/
    exists index index', indexes self !! name = Some index /\ m' !! name = Some index' /\
      info index' = info index /\ index_ok docs' index') as Hall.
  { intros name. rewrite Hl. destruct (indexes self !! name) as [index|] eqn:Hi; [right|by left].
    destruct (Hok name index Hi) as [_ Hix]. destruct (Hf name index Hi Hix) as (index' & E & ? & ?).
    exists index, index'. split; [done|]. split; [exact E|done]. }
  split.
  - intros name index' Hi'. cbn [indexes] in Hi'. destruct (Hall name) as [[E _]|(i & i' & Hi & Hi'' & Hinfo & Hix)]; [congruence|].
    assert (i' = index') as <- by congruence. destruct (Hok name i Hi) as [Hn _]. by rewrite Hinfo.
  - apply map_eq. intros name. rewrite !lookup_fmap.
    destruct (Hall name) as [[-> ->]|(i & i' & -> & -> & Hinfo & _)]; [done|]. simpl. by rewrite Hinfo.
Qed.

Lemma manager_add_ok docs pk doc self :
  manager_ok docs self -> docs !! pk = None ->
  (forall name index, indexes self !! name = Some index -> room (<[pk := doc]> docs) index) ->
  exists self', add number_as_f64 to_string number_text pk doc self = Some self' /\
    manager_ok (<[pk := doc]> docs) self' /\ info <$> indexes self' = info <$> indexes self.
Proof.
  intros Hok Hn Hroom. apply (manager_each_ok _ self docs); [done|]. intros name index Hi Hix.
  apply add_to_ok; [done|done|by eapply Hroom].
Qed.

Lemma manager_remove_ok docs pk self :
  manager_ok docs self ->
  exists self', remove pk self = Some self' /\ manager_ok (delete pk docs) self' /\
    info <$> indexes self' = info <$> indexes self.
Proof.
  intros Hok. apply (manager_each_ok _ self docs); [done|]. intros name index _. apply remove_from_ok.
Qed.

Lemma manager_create_ok name def self self' :
  manager_ok ∅ self -> create name def self = Ok self' -> manager_ok ∅ self'.
Proof.
  intros Hok. unfold create. destruct (decide (def_field def = EmptyString)); [done|].
  destruct (decide (is_Some (indexes self !! name))); [done|]. intros [= <-] name' index. cbn [indexes].
  destruct (decide (name' = name)) as [->|]; [rewrite lookup_insert_eq|rewrite lookup_insert_ne by done; apply Hok].
  intros [= <-]. destruct (def_index_type def); (split; [done|]); cbn [index_ok eq_map eq_by_pk rg_list rg_by_pk].
  - split; [|intros pk; by rewrite !lookup_empty]. intros key. rewrite lookup_empty. split; [constructor|].
    split; [done|]. intros pk. rewrite lookup_empty. split; [by intros ?%elem_of_nil|by intros (d & ? & _)].
  - split; [|intros pk; by rewrite !lookup_empty]. exists []. split; [apply oi_empty_spec|].
    unfold docs_entries. by rewrite map_to_list_empty.
Qed.

(** The documents a rebuild indexes: the objects. *)
Definition object_docs (entries : list (bytes * Value)) : gmap bytes Value :=
  list_to_map (filter (fun kv => is_object kv.2 = true) entries).

Lemma manager_clear_ok self : (exists docs, manager_ok docs self) -> manager_ok ∅ (mk_IndexManager (clear <$> indexes self)).
Proof.
  intros [docs Hok] name index. cbn [indexes]. rewrite lookup_fmap. intros (i & Hi & ->)%fmap_Some.
  destruct (Hok name i Hi) as [Hn _]. destruct i as [ix|ix]; (split; [exact Hn|]); cbn.
  - split; [|intros pk; by rewrite !lookup_empty]. intros key. rewrite lookup_empty. split; [constructor|].
    split; [done|]. intros pk. rewrite lookup_empty. split; [by intros ?%elem_of_nil|by intros (d & ? & _)].
  - split; [|intros pk; by rewrite !lookup_empty]. exists []. split; [apply oi_empty_spec|].
    unfold docs_entries. by rewrite map_to_list_empty.
Qed.

Lemma manager_rebuild_loop entries docs self infos :
  manager_ok docs self -> info <$> indexes self = infos ->
  NoDup entries.*1 -> (forall pk, pk ∈ entries.*1 -> docs !! pk = None) ->
  (forall name i, infos !! name = Some i ->
     zlen (docs_entries i docs) + zlen (entries ≫= fun kv => doc_numbers i kv.2) < U64_MAX) ->
  exists self', foldM (fun self kv => if is_object kv.2 then add number_as_f64 to_string number_text kv.1 kv.2 self
                                      else Some self) self entries = Some self' /\
    manager_ok (object_docs entries ∪ docs) self' /\ info <$> indexes self' = infos.
Proof.
  revert docs self. induction entries as [|[pk doc] entries IH]; intros docs self Hok Hinfo Hnd Hfresh Hroom.
  { exists self. split; [done|]. split; [|done]. unfold object_docs. simpl. by rewrite map_empty_union. }
  apply NoDup_cons in Hnd as [Hpk Hnd]. cbn [fst snd foldM] in *.
  assert (docs !! pk = None) as Hn by (apply Hfresh; by left).
  unfold object_docs. destruct (is_object doc) eqn:Eo.
  - rewrite filter_cons_True by done. cbn [list_to_map foldr uncurry fst snd].
    rewrite <- insert_union_l, insert_union_r.
    2:{ apply not_elem_of_list_to_map_1. intros Hin. apply Hpk. apply list_elem_of_fmap in Hin as (kv & -> & Hin).
        apply list_elem_of_filter in Hin as [_ Hin]. apply list_elem_of_fmap. by exists kv. }
    destruct (manager_add_ok docs pk doc self Hok Hn) as (self1 & -> & Hok1 & Hinfo1).
    { intros name index Hi. destruct index as [|ix]; [done|]. simpl.
      specialize (Hroom name (rg_info ix)). rewrite <- Hinfo, lookup_fmap, Hi in Hroom. specialize (Hroom eq_refl).
      clear -Hroom Hn. unfold zlen in *. rewrite docs_entries_insert by done. rewrite length_app.
      unfold numbered. rewrite length_map. cbn [mbind list_bind] in Hroom. rewrite length_app in Hroom. simpl in Hroom. lia. }
    simpl_bind. apply IH; [done|congruence|done| |].
    + intros pk' Hin. rewrite lookup_insert_ne; [apply Hfresh; by right|]. intros ->. by apply Hpk.
    + intros name i Hi. specialize (Hroom name i Hi). clear -Hroom Hn. unfold zlen in *.
      rewrite docs_entries_insert by done. rewrite length_app. unfold numbered. rewrite length_map.
      cbn [mbind list_bind] in Hroom. rewrite length_app in Hroom. simpl in Hroom. lia.
  - rewrite filter_cons_False by (simpl; congruence). simpl_bind. apply IH; [done|done|done| |].
    + intros pk' Hin. apply Hfresh. by right.
    + intros name i Hi. specialize (Hroom name i Hi). clear -Hroom. unfold zlen in *.
      cbn [mbind list_bind] in Hroom. rewrite length_app in Hroom. simpl in Hroom. lia.
Qed.

Lemma manager_rebuild_kept entries docs self :
  manager_ok docs self -> NoDup entries.*1 ->
  (forall name index, indexes self !! name = Some index ->
     zlen (entries ≫= fun kv => doc_numbers (info index) kv.2) < U64_MAX) ->
  exists self', rebuild number_as_f64 to_string number_text entries self = Some self' /\
    manager_ok (object_docs entries) self' /\ info <$> indexes self' = info <$> indexes self.
Proof.
  intros Hok Hnd Hroom. rewrite <- (map_union_empty (object_docs entries)). unfold rebuild.
  assert (info <$> indexes (mk_IndexManager (clear <$> indexes self)) = info <$> indexes self) as Hinfo.
  { cbn [indexes]. rewrite <- map_fmap_compose. apply map_fmap_ext. by intros ? [] _. }
  eapply manager_rebuild_loop; [apply manager_clear_ok; by exists docs|exact Hinfo|done|intros; apply lookup_empty|].
  intros name i Hi. rewrite lookup_fmap in Hi.
  destruct (indexes self !! name) as [index|] eqn:E; [|done]. injection Hi as <-.
  specialize (Hroom name index E). unfold docs_entries. rewrite map_to_list_empty. cbn [mbind list_bind].
  unfold zlen in *. simpl. lia.
Qed.

Lemma manager_rebuild_ok entries docs self :
  manager_ok docs self -> NoDup entries.*1 ->
  (forall name index, indexes self !! name = Some index ->
     zlen (entries ≫= fun kv => doc_numbers (info index) kv.2) < U64_MAX) ->
  exists self', rebuild number_as_f64 to_string number_text entries self = Some self' /\
    manager_ok (object_docs entries) self'.
Proof. intros Hok Hnd Hroom. destruct (manager_rebuild_kept entries docs self Hok Hnd Hroom) as (self' & ? & ? & _). by exists self'. Qed.

(** ** Uniqueness *)

(** What two documents of a unique index may not share. *)
Definition unique_keys index doc : list (string + f64) :=
  match index with
  | Equality ix => map inl (doc_keys (eq_info ix) doc)
  | Range ix => map (fun v => inr (norm v)) (doc_numbers (rg_info ix) doc)
  end.

Definition item_key index (item : Value) : option (string + f64) :=
  match index with
  | Equality _ => Some (inl (key_of item))
  | Range _ => (fun v => inr (norm v)) <$> finite_of item
  end.

Definition no_shared index docs : Prop :=
  forall p1 p2 d1 d2 k, docs !! p1 = Some d1 -> docs !! p2 = Some d2 ->
    k ∈ unique_keys index d1 -> k ∈ unique_keys index d2 -> p1 = p2.

Lemma first_seen_in seen values v :
  v ∈ first_seen seen values <-> v ∈ values /\ to_bits v ∉ seen.
Proof.
  revert seen. induction values as [|w values IH]; intros seen; cbn [first_seen].
  - split; [by intros ?%elem_of_nil|by intros [?%elem_of_nil _]].
  - destruct (decide (to_bits w ∈ seen)) as [Hw|Hw].
    + rewrite IH, elem_of_cons. split; [tauto|]. intros [[->|?] ?]; [done|by split].
    + rewrite !elem_of_cons, IH, elem_of_cons. split.
      * intros [->|[? ?]]; [by split; [left|]|]. split; [by right|]. intros ?. tauto.
      * intros [[->|Hin] Hs]; [by left|]. destruct (decide (v = w)) as [->|Hne]; [by left|right].
        split; [done|]. intros [E%to_bits_inj|?]; done.
Qed.

Lemma unique_keys_items index doc k :
  k ∈ unique_keys index doc <->
  exists value item, indexed_value (info index) doc = Some value /\ item ∈ flatten value /\ item_key index item = Some k.
Proof.
  destruct index as [ix|ix]; cbn [unique_keys info item_key].
  - unfold doc_keys. destruct (indexed_value (eq_info ix) doc) as [value|].
    + rewrite map_map, list_elem_of_fmap. split.
      * intros (item & -> & Hin). by exists value, item.
      * intros (value' & item & [= <-] & Hin & [= <-]). by exists item.
    + split; [by intros ?%elem_of_nil|by intros (? & ? & ? & _)].
  - unfold doc_numbers. destruct (indexed_value (rg_info ix) doc) as [value|].
    + rewrite list_elem_of_fmap. unfold numbers. setoid_rewrite first_seen_in. setoid_rewrite list_elem_of_omap. split.
      * intros (v & -> & (item & Hin & Hv) & _). exists value, item. by rewrite Hv.
      * intros (value' & item & [= <-] & Hin & (v & Hv & ->)%fmap_Some). exists v. split; [done|].
        split; [by exists item|by intros ?%elem_of_nil].
    + split; [by intros ?%elem_of_nil|by intros (? & ? & ? & _)].
Qed.

Lemma docs_entries_in i docs v p :
  (v, p) ∈ docs_entries i docs <-> exists d w, docs !! p = Some d /\ w ∈ doc_numbers i d /\ norm w = v.
Proof.
  unfold docs_entries, numbered. rewrite list_elem_of_bind. split.
  - intros ([p' d] & (w & [= -> ->] & Hw)%list_elem_of_fmap & Hd%elem_of_map_to_list). by exists d, w.
  - intros (d & w & Hd & Hw & <-). exists (p, d). split; [apply list_elem_of_fmap; by exists w|].
    by apply elem_of_map_to_list.
Qed.

(** An equal-to query finds the entries of a number. *)
Lemma equal_hits number l :
  range_spec compare_number (mk_RangeOptions (Some number) None (Some number) None 0 (Some 1) false) l =
  take 1 (filter (fun e : f64 * bytes => norm e.1 = norm number) l).
Proof.
  unfold range_spec, page. cbn [OrdIndex.reverse OrdIndex.offset OrdIndex.count]. simpl (Z.to_nat (default _ _)).
  rewrite drop_0. f_equal. apply list_filter_iff. intros e.
  unfold in_bounds, from_start, in_upper, bounded. cbn [OrdIndex.reverse gte gt lte lt].
  rewrite <- compare_number_eq. by destruct (compare_number e.1 number).
Qed.

(** Another document has the key. *)
Definition owned_by_another docs pk index (k : string + f64) : Prop :=
  exists p d, p <> pk /\ docs !! p = Some d /\ k ∈ unique_keys index d.

Lemma taken_spec docs pk index item :
  index_ok docs index -> no_shared index docs ->
  exists b, taken number_as_f64 to_string number_text pk index item = Some b /\
    (b = true <-> exists k, item_key index item = Some k /\ owned_by_another docs pk index k).
Proof.
  intros Hok Hns. destruct index as [ix|ix]; cbn [taken item_key].
  - eexists. split; [reflexivity|]. destruct Hok as [Hmap _]. destruct (Hmap (key_of item)) as (Hnd & Hne & Hin).
    assert ((exists k, Some (inl (key_of item)) = Some k /\ owned_by_another docs pk (Equality ix) k) <->
      exists p, p <> pk /\ p ∈ default [] (eq_map ix !! key_of item)) as ->.
    { setoid_rewrite Hin. split.
      - intros (k & [= <-] & p & d & Hp & Hd & (s & [= <-] & Hk)%list_elem_of_fmap). exists p. split; [done|]. by exists d.
      - intros (p & Hp & d & Hd & Hk). eexists. split; [reflexivity|]. exists p, d. split; [done|]. split; [done|].
        apply list_elem_of_fmap. by eexists. }
    destruct (eq_map ix !! key_of item) as [[|p1 [|p2 l]]|]; simpl in *.
    + by destruct Hne.
    + rewrite bool_decide_eq_true. split; [intros Hp; exists p1; split; [done|by left]|].
      intros (p & Hp & ->%list_elem_of_singleton). done.
    + split; [|done]. intros _. apply NoDup_cons in Hnd as [H12 _].
      destruct (decide (p1 = pk)) as [->|]; [exists p2; split; [intros ->; apply H12; by left|right; by left]|].
      exists p1. split; [done|by left].
    + split; [done|]. by intros (p & _ & ?%elem_of_nil).
  - destruct Hok as [(l & Hr & Hl) _]. destruct (finite_of item) as [number|] eqn:En.
    2:{ exists false. split; [done|]. split; [done|]. by intros (k & ? & _). }
    rewrite (oi_range_spec _ _ _ Hr), equal_hits. simpl_bind. eexists. split; [reflexivity|].
    assert (forall p, (exists d, docs !! p = Some d /\ inr (norm number) ∈ unique_keys (Range ix) d) <->
      exists e, e ∈ filter (fun e : f64 * bytes => norm e.1 = norm number) l /\ e.2 = p) as Hhit.
    { intros p. transitivity ((norm number, p) ∈ map nentry l).
      - rewrite Hl, docs_entries_in. split.
        + intros (d & Hd & (w & [= Hw] & Hin)%list_elem_of_fmap). by exists d, w.
        + intros (d & w & Hd & Hin & Hw). exists d. split; [done|]. apply list_elem_of_fmap. exists w. by rewrite Hw.
      - rewrite list_elem_of_fmap. setoid_rewrite list_elem_of_filter. split.
        + intros (e & [= E1 E2] & Hin). by exists e.
        + intros (e & [E1 Hin] & <-). exists e. split; [|done]. unfold nentry. by rewrite E1. }
    destruct (filter _ l) as [|hit hits]; cbn [take].
    + split; [done|]. intros (k & [= <-] & p & d & Hp & Hd & Hk). exfalso.
      destruct (proj1 (Hhit p)) as (e & He & _); [by exists d|]. by apply elem_of_nil in He.
    + rewrite bool_decide_eq_true. destruct (proj2 (Hhit hit.2)) as (d & Hd & Hk); [exists hit; split; [by left|done]|].
      split.
      * intros Hne. eexists. split; [reflexivity|]. by exists hit.2, d.
      * intros (k & [= <-] & p & d' & Hp & Hd' & Hk'). by rewrite (Hns _ _ _ _ _ Hd Hd' Hk Hk').
Qed.

Lemma check_items_spec docs pk index items :
  index_ok docs index -> no_shared index docs ->
  exists r, check_items number_as_f64 to_string number_text pk index items = Some r /\
    (r = Ok () <-> forall item k, item ∈ items -> item_key index item = Some k -> ~ owned_by_another docs pk index k).
Proof.
  intros Hok Hns. induction items as [|item items IH]; cbn [check_items].
  { eexists. split; [reflexivity|]. split; [|done]. by intros _ item k ?%elem_of_nil. }
  destruct (taken_spec docs pk index item Hok Hns) as (b & -> & Hb). simpl_bind. destruct b.
  - eexists. split; [reflexivity|]. split; [done|]. intros Hall. destruct (proj1 Hb eq_refl) as (k & Hk & Ho).
    exfalso. by eapply (Hall item k); [left|..].
  - destruct IH as (r & -> & Hr). exists r. split; [done|]. rewrite Hr. split.
    + intros Hall item' k [->|Hin]%elem_of_cons Hk Ho; [|by eapply Hall].
      assert (false = true); [|done]. apply Hb. by exists k.
    + intros Hall item' k Hin. apply Hall. by right.
Qed.

Lemma no_shared_insert index docs pk doc :
  no_shared index docs ->
  no_shared index (<[pk := doc]> docs) <-> forall k, k ∈ unique_keys index doc -> ~ owned_by_another docs pk index k.
Proof.
  intros Hns. split.
  - intros Hi k Hk (p & d & Hp & Hd & Hk'). apply Hp.
    apply (Hi p pk d doc k); [by rewrite lookup_insert_ne|by rewrite lookup_insert_eq|done|done].
  - intros Hno p1 p2 d1 d2 k H1 H2 K1 K2. destruct (decide (p1 = pk)) as [->|N1], (decide (p2 = pk)) as [->|N2]; [done|..].
    + rewrite lookup_insert_eq in H1. injection H1 as <-. rewrite lookup_insert_ne in H2 by done.
      exfalso. apply (Hno k K1). by exists p2, d2.
    + rewrite lookup_insert_eq in H2. injection H2 as <-. rewrite lookup_insert_ne in H1 by done.
      exfalso. apply (Hno k K2). by exists p1, d1.
    + rewrite lookup_insert_ne in H1, H2 by done. by apply (Hns p1 p2 d1 d2 k).
Qed.

Lemma check_index_spec docs pk doc index :
  index_ok docs index -> (unique (info index) = true -> no_shared index docs) ->
  exists r, check_index number_as_f64 to_string number_text pk doc index = Some r /\
    (r = Ok () <-> (unique (info index) = true -> no_shared index (<[pk := doc]> docs))).
Proof.
  intros Hok Hns. unfold check_index. destruct (unique (info index)); cbn [negb]; [|by eexists].
  specialize (Hns eq_refl). setoid_rewrite (no_shared_insert index docs pk doc Hns).
  setoid_rewrite unique_keys_items. destruct (indexed_value (info index) doc) as [value|].
  - destruct (check_items_spec docs pk index (flatten value) Hok Hns) as (r & -> & Hr). exists r. split; [done|].
    rewrite Hr. split.
    + intros Hall _ k (value' & item & [= <-] & Hin & Hk). by eapply Hall.
    + intros Hall item k Hin Hk. apply (Hall eq_refl). by exists value, item.
  - eexists. split; [reflexivity|]. split; [|done]. by intros _ _ k (? & ? & ? & _).
Qed.

(** The check of a write does not panic, whatever the documents. *)
Lemma check_unique_total docs self pk doc :
  manager_ok docs self -> is_Some (check_unique number_as_f64 to_string number_text pk doc self).
Proof.
  intros Hok. unfold check_unique.
  assert (forall l : list (string * AnyIndex T), (forall kv, kv ∈ l -> index_ok docs kv.2) ->
    is_Some (check_indexes number_as_f64 to_string number_text pk doc (map snd l))) as Hloop.
  2:{ apply Hloop. intros [name index] Hin%elem_of_map_to_list. by apply (Hok name index). }
  induction l as [|kv l IH]; intros Hl; cbn [map check_indexes]; [by eexists|].
  assert (index_ok docs kv.2) as Hi by (apply Hl; by left).
  assert (forall items, is_Some (check_items number_as_f64 to_string number_text pk kv.2 items)) as Hitems.
  { induction items as [|item items IHi]; cbn [check_items]; [by eexists|].
    assert (is_Some (taken number_as_f64 to_string number_text pk kv.2 item)) as [b ->].
    { unfold taken. destruct kv.2 as [|ix]; [by eexists|]. destruct (finite_of item); [|by eexists].
      destruct Hi as [(entries & Hr & _) _]. rewrite (oi_range_spec _ _ _ Hr). simpl_bind. by eexists. }
    simpl_bind. destruct b; [by eexists|done]. }
  assert (is_Some (check_index number_as_f64 to_string number_text pk doc kv.2)) as [r ->].
  { unfold check_index. destruct (negb _); [by eexists|]. destruct (indexed_value _ _); [done|by eexists]. }
  simpl_bind. destruct r; [|by eexists]. apply IH. intros kv' Hin. apply Hl. by right.
Qed.

(** C35: Unique indexes stay unique: when no two documents share a value of a unique
    index (up to the sign of zero), the check of a write never panics and succeeds
    exactly when that is still so after the write. *)
Theorem check_unique_is_exact docs self pk doc :
  manager_ok docs self ->
  (forall name index, indexes self !! name = Some index -> unique (info index) = true -> no_shared index docs) ->
  exists r, check_unique number_as_f64 to_string number_text pk doc self = Some r /\
    (r = Ok () <-> forall name index, indexes self !! name = Some index -> unique (info index) = true ->
       no_shared index (<[pk := doc]> docs)).
Proof.
  intros Hok Hns. unfold check_unique.
  assert (forall l : list (string * AnyIndex T),
    (forall kv, kv ∈ l -> indexes self !! kv.1 = Some kv.2) ->
    exists r, check_indexes number_as_f64 to_string number_text pk doc (map snd l) = Some r /\
      (r = Ok () <-> forall kv, kv ∈ l -> unique (info kv.2) = true -> no_shared kv.2 (<[pk := doc]> docs))) as Hloop.
  { induction l as [|[name index] l IH]; intros Hl; cbn [map snd check_indexes].
    - eexists. split; [reflexivity|]. split; [|done]. by intros _ kv ?%elem_of_nil.
    - pose proof (Hl (name, index) (list_elem_of_here _ _)) as Hi. cbn [fst snd] in Hi.
      destruct (check_index_spec docs pk doc index) as (r & -> & Hr);
        [by apply (Hok name index Hi)|by apply (Hns name index Hi)|]. simpl_bind.
      destruct IH as (r' & Hr' & Hl'); [intros kv Hin; apply Hl; by right|].
      destruct r as [[]|e].
      + exists r'. split; [done|]. rewrite Hl'. split.
        * intros Hall kv [->|Hin]%elem_of_cons; [by apply Hr|by apply Hall].
        * intros Hall kv Hin. apply Hall. by right.
      + exists (Err e). split; [done|]. split; [done|]. intros Hall.
        assert (Err e = Ok ()) as E; [|done]. apply Hr. apply (Hall (name, index)). by left. }
  destruct (Hloop (map_to_list (indexes self))) as (r & -> & Hr).
  { intros [name index] Hin. by apply elem_of_map_to_list. }
  exists r. split; [done|]. rewrite Hr. split.
  - intros Hall name index Hi. apply (Hall (name, index)). by apply elem_of_map_to_list.
  - intros Hall [name index] Hin. apply elem_of_map_to_list in Hin. by apply (Hall name index).
Qed.

(** C34: The indexes are a function of the documents: adding a new document, removing
    one and rebuilding never panic and leave every index in the state that stands for
    the documents it was then told of; an equality lookup returns exactly the keys of
    the documents with that value, each once, and a numeric range is the page of the
    sorted list of all their numbers (up to the sign of zero).  A rebuild indexes
    the objects only. *)
Theorem index_manager_tracks_documents docs self pk doc entries :
  manager_ok docs self -> NoDup entries.*1 ->
  (forall name index, indexes self !! name = Some index ->
     room (<[pk := doc]> docs) index /\ zlen (entries ≫= fun kv => doc_numbers (info index) kv.2) < U64_MAX) ->
  (docs !! pk = None -> exists self', add number_as_f64 to_string number_text pk doc self = Some self' /\
     manager_ok (<[pk := doc]> docs) self') /\
  (exists self', remove pk self = Some self' /\ manager_ok (delete pk docs) self') /\
  (exists self', rebuild number_as_f64 to_string number_text entries self = Some self' /\
     manager_ok (object_docs entries) self') /\
  (forall name value, match indexes self !! name with
     | Some (Equality ix) => exists l, find_eq to_string number_text name value self = Ok l /\ NoDup l /\
         forall p, p ∈ l <-> exists d, docs !! p = Some d /\ key_of value ∈ doc_keys (eq_info ix) d
     | Some (Range _) => find_eq to_string number_text name value self = Err (NotEquality name)
     | None => find_eq to_string number_text name value self = Err (NotFound name)
     end) /\
  (forall name options, match indexes self !! name with
     | Some (Range ix) => exists l, sorted num_cmp l /\ map nentry l ≡ₚ docs_entries (rg_info ix) docs /\
         find_range name options self =
           Some (Ok (map (fun e => mk_NumericRangeEntry e.2 e.1) (range_spec compare_number (numeric_range options) l)))
     | Some (Equality _) => find_range name options self = Some (Err (NotRange name))
     | None => find_range name options self = Some (Err (NotFound name))
     end).
Proof.
  intros Hok Hnd Hroom. split_and!.
  - intros Hn. destruct (manager_add_ok docs pk doc self Hok Hn) as (self' & ? & ? & _); [|by exists self'].
    intros name index Hi. by eapply Hroom.
  - destruct (manager_remove_ok docs pk self Hok) as (self' & ? & ? & _). by exists self'.
  - eapply manager_rebuild_ok; [done|done|]. intros name index Hi. by eapply Hroom.
  - intros name value. unfold find_eq. destruct (indexes self !! name) as [[ix|ix]|] eqn:E; [|done..].
    destruct (Hok _ _ E) as [_ [Hmap _]]. destruct (Hmap (key_of value)) as (Hn & _ & Hin).
    eexists. split; [reflexivity|]. split; [done|]. intros p. apply Hin.
  - intros name options. unfold find_range. destruct (indexes self !! name) as [[ix|ix]|] eqn:E; [done| |done].
    destruct (Hok _ _ E) as [_ [(l & Hr & Hl) _]]. exists l. split; [by eapply oi_repr_sorted|]. split; [done|].
    by rewrite (oi_range_spec _ _ _ Hr).
Qed.
End facts.

(** ** Examples, on the skip list *)

Definition NumberIndex : Type := SkipList.SkipList f64 bytes.
#[export] Instance number_index : OrderedIndex NumberIndex f64 bytes :=
  SkipListFacts.skiplist_index compare_number bytes_cmp.
Definition number_repr : NumberIndex -> list (f64 * bytes) -> Prop :=
  SkipListFacts.repr compare_number bytes_cmp.
#[export] Instance number_index_laws : OrderedIndexLaws compare_number bytes_cmp number_repr :=
  SkipListFacts.skiplist_index_laws compare_number bytes_cmp.

Section examples.
(** JSON numbers that are floats. *)
Let sample_as_f64 (n : spec_float) : option spec_float := Some n.
Let sample_number (n : spec_float) : string := match n with S754_zero _ => "0" | _ => "1" end.
Let sample_text (v : @Query.Value spec_float) : string :=
  match v with Str s => s | Num n => sample_number n | _ => "null" end.
Let one : spec_float := S754_finite false 4503599627370496 (-52).
Let document (n : spec_float) (s : string) : @Query.Value spec_float :=
  Object [("n"%string, Num n); ("s"%string, Str s)].
Let pk (z : Z) : bytes := [byte_of z].
Let empty : IndexManager NumberIndex := mk_IndexManager ∅.
Let created : IndexManager NumberIndex :=
  match create "by_n" (mk_IndexDef "n" TypeRange true true) empty with
  | Ok self => match create "by_s" (IndexDef_equality "s") self with Ok self => self | Err _ => empty end
  | Err _ => empty
  end.

Abbreviation ok := (manager_ok sample_as_f64 sample_text sample_number
  number_repr).
Abbreviation add_ := (add sample_as_f64 sample_text sample_number).

Lemma manager_created_ok : ok ∅ created.
Proof.
  assert (ok ∅ empty) as H0 by (intros name index Hi; unfold empty in Hi; cbn [indexes] in Hi; by rewrite lookup_empty in Hi).
  pose proof (manager_create_ok sample_as_f64 sample_text sample_number number_repr) as Hc.
  unfold created. destruct (create "by_n" _ empty) as [s1|] eqn:E1; [|done].
  destruct (create "by_s" _ s1) as [s2|] eqn:E2; [|done].
  exact (Hc _ _ _ _ (Hc _ _ _ _ H0 E1) E2).
Qed.

Lemma created_indexes name index :
  indexes created !! name = Some index ->
  indexes created = {[ "by_n"%string := Range (mk_RangeIndex (mk_IndexInfo "by_n" "n" TypeRange true true) oi_empty ∅);
                       "by_s"%string := Equality (mk_EqualityIndex (mk_IndexInfo "by_s" "s" TypeEquality false true) ∅ ∅) ]} /\
  (info index = mk_IndexInfo "by_n" "n" TypeRange true true \/ info index = mk_IndexInfo "by_s" "s" TypeEquality false true).
Proof.
  assert (indexes created =
    {[ "by_n"%string := Range (mk_RangeIndex (mk_IndexInfo "by_n" "n" TypeRange true true) oi_empty ∅);
       "by_s"%string := Equality (mk_EqualityIndex (mk_IndexInfo "by_s" "s" TypeEquality false true) ∅ ∅) ]}) as E by reflexivity.
  intros Hi. split; [exact E|]. rewrite E in Hi.
  apply lookup_insert_Some in Hi as [[_ <-]|[_ Hi]]; [by left|]. apply lookup_singleton_Some in Hi as [_ <-]. by right.
Qed.

Lemma index_manager_tracks_documents_witness :
  exists s, add_ (pk 97) (document one "x") created = Some s /\
    ok {[ pk 97 := document one "x" ]} s /\
    find_eq sample_text sample_number "by_s" (Str "x") created = Ok [].
Proof.
  destruct (index_manager_tracks_documents sample_as_f64 sample_text sample_number
    number_repr ∅ created (pk 97) (document one "x") [] manager_created_ok)
    as (Hadd & _ & _ & Hfind & _).
  - constructor.
  - intros name index Hi. destruct (created_indexes name index Hi) as [_ Hinfo].
    split; [|done]. destruct index as [|[i l by_pk]]; [exact I|]. cbn [room info rg_info] in *.
    destruct Hinfo as [-> | ->]; vm_compute; reflexivity.
  - destruct (Hadd (lookup_empty _)) as (s & Hs & Hok). exists s. split; [exact Hs|]. split; [exact Hok|].
    specialize (Hfind "by_s"%string (Str "x")).
    destruct (indexes created !! "by_s"%string) as [[ix|ix]|] eqn:E.
    + destruct Hfind as (l & Hl & _ & Hin). rewrite Hl. f_equal. destruct l as [|p l]; [reflexivity|].
      exfalso. destruct (proj1 (Hin p) (list_elem_of_here _ _)) as (d & Hd & _). by rewrite lookup_empty in Hd.
    + exfalso. assert (match indexes created !! "by_s"%string with Some (Range _) => true | _ => false end = false) as C
        by reflexivity. rewrite E in C. discriminate C.
    + exfalso. assert (match indexes created !! "by_s"%string with None => true | _ => false end = false) as C
        by reflexivity. rewrite E in C. discriminate C.
Defined.

Lemma check_unique_is_exact_witness :
  exists s, add_ (pk 97) (document one "x") created = Some s /\
    check_unique sample_as_f64 sample_text sample_number (pk 97) (document one "y") s = Some (Ok ()).
Proof.
  destruct (manager_add_ok sample_as_f64 sample_text sample_number number_repr
    ∅ (pk 97) (document one "x") created manager_created_ok (lookup_empty _)) as (s & Hs & Hok & _).
  - intros name index Hi. destruct (created_indexes name index Hi) as [_ Hinfo].
    destruct index as [|[i l by_pk]]; [exact I|]. cbn [room info rg_info] in *. destruct Hinfo as [-> | ->]; vm_compute; reflexivity.
  - exists s. split; [exact Hs|].
    assert (forall (index : AnyIndex NumberIndex) d, no_shared sample_as_f64 sample_text sample_number index {[pk 97 := d]}) as Hone.
    { intros index d p1 p2 d1 d2 k [<- _]%lookup_singleton_Some [<- _]%lookup_singleton_Some. done. }
    destruct (check_unique_is_exact sample_as_f64 sample_text sample_number
      number_repr _ s (pk 97) (document one "y") Hok) as (r & -> & Hr).
    + intros name index _ _. apply Hone.
    + f_equal. apply Hr. intros name index _ _. rewrite insert_insert_eq. apply Hone.
Defined.

(** The check of a batch tells [0.0] from [-0.0], the index and the check of a single
    write do not. *)
Lemma batch_accepts_both_zeros :
  check_unique_batch sample_as_f64 sample_text sample_number
    [mk_BatchIndexOp (pk 97) OpSet (document (S754_zero false) "x");
     mk_BatchIndexOp (pk 98) OpSet (document (S754_zero true) "x")] created = Ok () /\
  (s ← add_ (pk 97) (document (S754_zero false) "x") created;
   check_unique sample_as_f64 sample_text sample_number (pk 98) (document (S754_zero true) "x") s) =
    Some (Err (UniqueViolation "by_n" "0")).
Proof. split; vm_compute; reflexivity. Qed.

(** A document that is no object is indexed when it is written, and not when the
    database is opened again. *)
Lemma rebuild_forgets_scalars :
  let def := mk_IndexDef "n" TypeEquality false false in
  let written := s ← (match create "by_n" def empty with Ok s => Some s | Err _ => None end); add_ (pk 97) (Str "x") s in
  (s ← written; Some (find_eq sample_text sample_number "by_n" Null s)) = Some (Ok [pk 97]) /\
  (s ← written; s ← rebuild sample_as_f64 sample_text sample_number [(pk 97, Str "x")] s;
   Some (find_eq sample_text sample_number "by_n" Null s)) = Some (Ok []).
Proof. split; vm_compute; reflexivity. Qed.
End examples.
End IndexManagerFacts.
