(* ===== verification/CompoundIndexFacts.v ===== *)
(** * Compound indexes: what they keep

    Over the definitions of [CompoundIndex]: the groups are a function of the
    documents and their datetimes, and a range query is the page of the sorted
    group. *)

From Corelib Require Import SpecFloat.
From Stdlib Require Import Ascii.
From S2P Require Import Prelude.
From S2P Require Import OrdIndex.
From S2P Require Import SkipList.
From S2P Require Import SkipListFacts.
From S2P Require Import Store.
From S2P Require Import Query.
From S2P Require Import Float.
From S2P Require Import IndexManager.
From S2P Require Import CompoundIndex.
Import OrdIndex Query Float CompoundIndex.

Module CompoundIndexFacts.

(** ** The order *)

#[export] Instance string_compare_total : TotalCompare String.compare.
Proof.
  split.
  - intros x y. apply String.compare_antisym.
  - assert (forall a b, Ascii.compare a b = (N_of_ascii a ?= N_of_ascii b)%N) as Ha by done.
    induction x as [|a x IH]; intros [|b y] [|c z]; cbn [String.compare]; try done.
    rewrite !Ha. destruct (N.compare_spec (N_of_ascii a) (N_of_ascii b)),
      (N.compare_spec (N_of_ascii b) (N_of_ascii c)), (N.compare_spec (N_of_ascii a) (N_of_ascii c));
      try lia; try done. apply IH.
Qed.

Lemma string_compare_eq x y : String.compare x y = Eq <-> x = y.
Proof.
  split; [apply String.compare_eq_iff|intros ->]. pose proof (String.compare_antisym y y) as E.
  by destruct (String.compare y y).
Qed.

Definition onorm (x : OrderValue) : OrderValue :=
  match x with ONumber x => ONumber (norm x) | OString s => OString s end.

Lemma compare_order_eq x y : compare_order x y = Eq <-> onorm x = onorm y.
Proof.
  destruct x as [x|x], y as [y|y]; simpl; try done.
  - rewrite compare_number_eq. split; congruence.
  - rewrite string_compare_eq. split; congruence.
Qed.

Lemma order_eqb_eq x y : order_eqb x y = true <-> onorm x = onorm y.
Proof.
  rewrite <- compare_order_eq. destruct x as [[x Hx]|x], y as [[y Hy]|y]; simpl; try done.
  - unfold SFeqb, compare_number. cbn [float].
    assert (is_Some (SFcompare x y)) as [c ->]; [|by destruct c].
    destruct x as [s|s| |s m e], y as [s'|s'| |s' m' e']; try done; by eexists.
  - by rewrite String.eqb_eq, string_compare_eq.
Qed.

#[export] Instance compare_order_total : TotalCompare compare_order.
Proof.
  split.
  - intros [x|x] [y|y]; simpl; try done; apply cmp_flip.
  - intros [x|x] [y|y] [z|z]; simpl; try done; apply cmp_trans.
Qed.

Definition onentry (e : OrderValue * bytes) : OrderValue * bytes := (onorm e.1, e.2).

Abbreviation order_cmp := (cmp_entry compare_order bytes_cmp).

Lemma order_cmp_eq x y : order_cmp x y = Eq <-> onentry x = onentry y.
Proof.
  unfold cmp_entry, onentry. pose proof (compare_order_eq x.1 y.1) as Hn. pose proof (bytes_cmp_eq x.2 y.2) as Hb.
  destruct x as [v k], y as [v' k']. cbn [fst snd] in *.
  destruct (compare_order v v'); split; try done.
  - intros ->%Hb. by rewrite (proj1 Hn eq_refl).
  - intros [= _ ->]. by apply Hb.
  - intros [= E _]. by apply Hn in E.
  - intros [= E _]. by apply Hn in E.
Qed.

(** ** What the groups stand for *)

Section facts.
Context {Number : Type}.
Context (number_as_f64 : Number -> option spec_float).
Abbreviation Value := (@Query.Value Number).
Context (to_string : Value -> string).
Context {T : Type} `{!OrderedIndex T OrderValue bytes}.
Context (repr : T -> list (OrderValue * bytes) -> Prop) `{!OrderedIndexLaws compare_order bytes_cmp repr}.
(** A document with the datetimes beside it. *)
Abbreviation Doc := (Value * option Store.Datetimes)%type.
Implicit Types (self : CompoundIndexManager T) (entry : CompoundEntry T) (docs : gmap bytes Doc) (d : Doc).

Definition place (i : CompoundIndexInfo) d : option (string * OrderValue) :=
  placement number_as_f64 to_string i d.1 d.2.

(** What a document adds to a group, and the entries of the group. *)
Definition contribution (i : CompoundIndexInfo) (g : string) (pk : bytes) d : list (OrderValue * bytes) :=
  match place i d with Some (g', o) => if decide (g' = g) then [(onorm o, pk)] else [] | None => [] end.
Definition group_entries (i : CompoundIndexInfo) (g : string) docs : list (OrderValue * bytes) :=
  map_to_list docs ≫= fun kd => contribution i g kd.1 kd.2.

Definition same_place (p q : string * OrderValue) : Prop := p.1 = q.1 /\ onorm p.2 = onorm q.2.

Definition groups_ok (i : CompoundIndexInfo) docs (groups : gmap string T) : Prop :=
  forall g, match groups !! g with
            | Some t => exists l, repr t l /\ map onentry l ≡ₚ group_entries i g docs
            | None => group_entries i g docs = []
            end.

Record entry_ok docs entry : Prop := {
  entry_groups : groups_ok (info entry) docs (groups entry);
  entry_by_pk pk : option_Forall2 same_place (by_pk entry !! pk) (docs !! pk ≫= place (info entry));
}.

Definition compound_ok docs self : Prop :=
  forall name entry, indexes self !! name = Some entry -> CompoundIndex.name (info entry) = name /\ entry_ok docs entry.

Lemma group_entries_insert i g docs pk d :
  docs !! pk = None -> group_entries i g (<[pk := d]> docs) ≡ₚ contribution i g pk d ++ group_entries i g docs.
Proof. intros Hn. unfold group_entries. by rewrite map_to_list_insert by done. Qed.

Lemma group_entries_delete i g docs pk d :
  docs !! pk = Some d -> contribution i g pk d ++ group_entries i g (delete pk docs) ≡ₚ group_entries i g docs.
Proof. intros Hs. unfold group_entries. by rewrite <- (map_to_list_delete docs pk d Hs). Qed.

Lemma group_entries_bound i g docs : zlen (group_entries i g docs) <= Z.of_nat (size docs).
Proof.
  unfold group_entries, zlen. rewrite <- length_map_to_list. apply inj_le.
  induction (map_to_list docs) as [|kd l IH]; [done|]. cbn [mbind list_bind]. rewrite length_app. simpl.
  enough (length (contribution i g kd.1 kd.2) <= 1)%nat by (change (l ≫= fun kd => contribution i g kd.1 kd.2) with
    (mbind (fun kd => contribution i g kd.1 kd.2) l) in *; lia).
  unfold contribution. destruct (place i kd.2) as [[g' o]|]; [|simpl; lia]. destruct (decide (g' = g)); simpl; lia.
Qed.

(** A key that is in no group of its own leaves no trace. *)
Lemma groups_ok_without i docs groups pk d :
  groups_ok i docs groups -> docs !! pk = Some d -> place i d = None -> groups_ok i (delete pk docs) groups.
Proof.
  intros Hg Hd Hp g. specialize (Hg g). pose proof (group_entries_delete i g docs pk d Hd) as Hperm.
  unfold contribution in Hperm. rewrite Hp in Hperm. cbn [app] in Hperm. destruct (groups !! g) as [t|].
  - destruct Hg as (l & Hr & Hl). exists l. split; [done|]. by rewrite Hl, Hperm.
  - rewrite Hg in Hperm. by apply Permutation_nil_r in Hperm.
Qed.

Lemma leave_ok i docs groups pk d p q drop_empty :
  groups_ok i docs groups -> docs !! pk = Some d -> place i d = Some q -> same_place p q ->
  exists groups', leave drop_empty pk p groups = Some groups' /\ groups_ok i (delete pk docs) groups'.
Proof.
  intros Hg Hd Hq [H1 H2]. destruct q as [g o]. cbn [fst snd] in *.
  assert (forall g', contribution i g' pk d = if decide (g = g') then [(onorm o, pk)] else []) as Hc.
  { intros g'. unfold contribution. by rewrite Hq. }
  unfold leave. rewrite H1. pose proof (Hg g) as Hgg.
  pose proof (group_entries_delete i g docs pk d Hd) as Hperm. rewrite Hc, decide_True in Hperm by done.
  destruct (groups !! g) as [t|] eqn:Et.
  2:{ exfalso. rewrite Hgg in Hperm. by apply Permutation_nil_r in Hperm. }
  destruct Hgg as (l & Hr & Hl). destruct (oi_delete_spec p.2 pk t l Hr) as (t' & -> & Hr'). simpl_bind.
  assert (map onentry (sorted_delete order_cmp (p.2, pk) l) ≡ₚ group_entries i g (delete pk docs)) as Hl'.
  { apply (Permutation_cons_inv (a := onentry (p.2, pk))).
    rewrite (sorted_delete_norm order_cmp onentry order_cmp_eq); [|by eapply oi_repr_sorted|].
    - rewrite Hl, <- Hperm. unfold onentry. cbn [fst snd]. by rewrite H2.
    - rewrite Hl, <- Hperm. unfold onentry. cbn [fst snd]. rewrite H2. by left. }
  eexists. split; [reflexivity|]. intros g'. destruct (decide (g' = g)) as [->|Hne].
  - destruct (drop_empty && oi_is_empty t') eqn:Ee.
    + rewrite lookup_delete_eq. apply andb_true_iff in Ee as [_ Ee].
      rewrite (oi_is_empty_spec _ _ Hr') in Ee. apply bool_decide_eq_true in Ee. rewrite Ee in Hl'.
      by apply Permutation_nil in Hl'.
    + rewrite lookup_insert_eq. by eexists.
  - assert (match groups !! g' with
            | Some t => exists l, repr t l /\ map onentry l ≡ₚ group_entries i g' (delete pk docs)
            | None => group_entries i g' (delete pk docs) = []
            end) as Hother.
    { specialize (Hg g'). pose proof (group_entries_delete i g' docs pk d Hd) as Hp'. rewrite Hc, decide_False in Hp' by done.
      cbn [app] in Hp'. destruct (groups !! g') as [t1|].
      - destruct Hg as (l1 & Hr1 & Hl1). exists l1. split; [done|]. by rewrite Hl1, Hp'.
      - rewrite Hg in Hp'. by apply Permutation_nil_r in Hp'. }
    destruct (drop_empty && oi_is_empty t'); [by rewrite lookup_delete_ne|by rewrite lookup_insert_ne].
Qed.

Lemma enter_ok i docs groups pk d q :
  groups_ok i docs groups -> docs !! pk = None -> place i d = Some q -> Z.of_nat (size docs) + 1 < U64_MAX ->
  exists groups', enter pk q groups = Some groups' /\ groups_ok i (<[pk := d]> docs) groups'.
Proof.
  intros Hg Hn Hq Hsz. destruct q as [g o]. unfold enter. cbn [fst snd].
  assert (forall g', contribution i g' pk d = if decide (g = g') then [(onorm o, pk)] else []) as Hc.
  { intros g'. unfold contribution. by rewrite Hq. }
  assert (exists l, repr (default oi_empty (groups !! g)) l /\ map onentry l ≡ₚ group_entries i g docs) as (l & Hr & Hl).
  { specialize (Hg g). destruct (groups !! g); [done|]. exists []. split; [apply oi_empty_spec|]. by rewrite Hg. }
  assert (zlen l + 1 < U64_MAX) as Hroom.
  { pose proof (group_entries_bound i g docs) as Hb. unfold zlen in *. rewrite <- Hl, length_map in Hb. lia. }
  destruct (oi_insert_spec o pk _ l Hr Hroom) as (t' & -> & Hr'). simpl_bind. eexists. split; [reflexivity|].
  intros g'. pose proof (group_entries_insert i g' docs pk d Hn) as Hp. rewrite Hc in Hp.
  destruct (decide (g' = g)) as [->|Hne].
  - rewrite lookup_insert_eq. eexists. split; [exact Hr'|]. rewrite decide_True in Hp by done.
    rewrite Hp, sorted_insert_perm. cbn [map app]. by rewrite Hl.
  - rewrite lookup_insert_ne by done. rewrite decide_False in Hp by done. cbn [app] in Hp. specialize (Hg g').
    destruct (groups !! g') as [t1|].
    + destruct Hg as (l1 & Hr1 & Hl1). exists l1. split; [done|]. by rewrite Hl1, Hp.
    + rewrite Hg in Hp. by apply Permutation_nil_r in Hp.
Qed.

(** ** One index *)

Lemma place_same_contribution i g pk d d' q q' :
  place i d = Some q -> place i d' = Some q' -> same_place q q' -> contribution i g pk d = contribution i g pk d'.
Proof.
  intros E E' [H1 H2]. unfold contribution. rewrite E, E'. destruct q as [g1 o], q' as [g1' o']. simpl in *. by rewrite H1, H2.
Qed.

Lemma remove_from_place docs pk entry (drop_empty : bool) :
  entry_ok docs entry ->
  exists groups', match by_pk entry !! pk with Some p => leave drop_empty pk p (groups entry) | None => Some (groups entry) end
      = Some groups' /\ groups_ok (info entry) (delete pk docs) groups'.
Proof.
  intros [Hg Hb]. specialize (Hb pk). destruct (docs !! pk) as [d|] eqn:Ed; simpl in Hb.
  - destruct (place (info entry) d) as [q|] eqn:Eq.
    + inversion Hb as [p ? Hs Hp|]; subst. by eapply leave_ok.
    + inversion Hb; subst. eexists. split; [reflexivity|]. by eapply groups_ok_without.
  - inversion Hb; subst. eexists. split; [reflexivity|]. by rewrite delete_id.
Qed.

Lemma by_pk_delete docs pk entry :
  entry_ok docs entry -> forall k, option_Forall2 same_place (delete pk (by_pk entry) !! k) (delete pk docs !! k ≫= place (info entry)).
Proof.
  intros [_ Hb] k. destruct (decide (k = pk)) as [->|]; [rewrite !lookup_delete_eq; constructor|].
  by rewrite !lookup_delete_ne.
Qed.

Lemma compound_add_to_ok docs pk d entry :
  entry_ok docs entry -> Z.of_nat (size docs) + 1 < U64_MAX ->
  exists entry', add_to number_as_f64 to_string pk d.1 d.2 entry = Some entry' /\ info entry' = info entry /\
    entry_ok (<[pk := d]> docs) entry'.
Proof.
  intros Hok Hsz. unfold add_to. fold (place (info entry) d).
  destruct (match by_pk entry !! pk, place (info entry) d with Some p, Some n => _ | _, _ => _ end) eqn:Eu.
  - exists entry. split; [done|]. split; [done|].
    destruct (by_pk entry !! pk) as [p|] eqn:Ep; [|done]. destruct (place (info entry) d) as [n|] eqn:En; [|done].
    apply andb_true_iff in Eu as [E1%String.eqb_eq E2%order_eqb_eq].
    pose proof (entry_by_pk _ _ Hok pk) as Hb. rewrite Ep in Hb. inversion Hb as [p' q Hs Hp' Eq|]; subst. symmetry in Eq.
    apply bind_Some in Eq as (d0 & Hd0 & Eq).
    assert (same_place q n) as Hqn by (destruct Hs; split; congruence).
    split.
    + intros g. pose proof (entry_groups _ _ Hok g) as Hg.
      assert (group_entries (info entry) g (<[pk := d]> docs) ≡ₚ group_entries (info entry) g docs) as Hperm.
      { rewrite <- insert_delete_eq, group_entries_insert by apply lookup_delete_eq.
        rewrite <- (place_same_contribution _ _ _ _ _ _ _ Eq En Hqn). by apply group_entries_delete. }
      destruct (groups entry !! g) as [t|].
      * destruct Hg as (l & Hr & Hl). exists l. split; [done|]. by rewrite Hl, Hperm.
      * rewrite Hg in Hperm. by apply Permutation_nil_r in Hperm.
    + intros k. destruct (decide (k = pk)) as [->|]; [|rewrite lookup_insert_ne by done; apply (entry_by_pk _ _ Hok)].
      rewrite lookup_insert_eq, Ep. simpl. rewrite En. by constructor.
  - destruct (remove_from_place docs pk entry true Hok) as (groups1 & -> & Hg1). simpl_bind.
    pose proof (by_pk_delete docs pk entry Hok) as Hb1.
    rewrite <- (insert_delete_eq docs). destruct (place (info entry) d) as [next|] eqn:En.
    + destruct (enter_ok (info entry) (delete pk docs) groups1 pk d next Hg1) as (groups2 & -> & Hg2);
        [apply lookup_delete_eq|done| |].
      { pose proof (map_size_delete pk docs) as Hd. destruct (docs !! pk); simpl in Hd; lia. }
      simpl_bind. eexists. split; [reflexivity|]. split; [done|]. split; [exact Hg2|]. intros k. cbn [by_pk info].
      destruct (decide (k = pk)) as [->|]; [|rewrite !(lookup_insert_ne _ pk) by done; apply Hb1].
      rewrite !lookup_insert_eq. simpl. rewrite En. by constructor.
    + eexists. split; [reflexivity|]. split; [done|]. split; cbn [groups by_pk info].
      * intros g. specialize (Hg1 g).
        pose proof (group_entries_insert (info entry) g (delete pk docs) pk d (lookup_delete_eq _ _)) as Hp.
        unfold contribution in Hp. rewrite En in Hp. cbn [app] in Hp. destruct (groups1 !! g) as [t|].
        -- destruct Hg1 as (l & Hr & Hl). exists l. split; [done|]. by rewrite Hl, Hp.
        -- rewrite Hg1 in Hp. by apply Permutation_nil_r in Hp.
      * intros k. destruct (decide (k = pk)) as [->|]; [|rewrite (lookup_insert_ne _ pk) by done; apply Hb1].
        rewrite lookup_insert_eq, lookup_delete_eq. simpl. rewrite En. constructor.
Qed.

Lemma compound_remove_from_ok docs pk entry :
  entry_ok docs entry ->
  exists entry', remove_from pk entry = Some entry' /\ info entry' = info entry /\ entry_ok (delete pk docs) entry'.
Proof.
  intros Hok. destruct (remove_from_place docs pk entry false Hok) as (groups1 & Hg & Hg1). unfold remove_from.
  pose proof (by_pk_delete docs pk entry Hok) as Hb1. destruct (by_pk entry !! pk) as [p|] eqn:Ep.
  - rewrite Hg. simpl_bind. eexists. split; [reflexivity|]. split; [done|]. by split.
  - injection Hg as <-. exists entry. split; [done|]. split; [done|]. split; [done|]. by rewrite delete_id in Hb1.
Qed.

(** ** The manager *)

(** There is room for the documents in a group. *)
Abbreviation add_ := (add number_as_f64 to_string).

Lemma compound_each_ok f self docs docs' :
  compound_ok docs self ->
  (forall entry, entry_ok docs entry ->
     exists entry', f entry = Some entry' /\ info entry' = info entry /\ entry_ok docs' entry') ->
  exists m, each_value f (indexes self) = Some m /\ compound_ok docs' (mk_CompoundIndexManager m) /\
    info <$> m = info <$> indexes self.
Proof.
  intros Hok Hf. destruct (each_value_spec f (indexes self)) as (m & -> & Hl).
  { intros name entry Hi. destruct (Hok name entry Hi) as [_ He]. destruct (Hf entry He) as (e' & -> & _). by exists e'. }
  exists m. split; [done|]. split.
  - intros name entry' Hi. cbn [indexes] in Hi. rewrite Hl in Hi. apply bind_Some in Hi as (entry & Hi & E).
    destruct (Hok name entry Hi) as [Hn He]. destruct (Hf entry He) as (e' & E' & Hinfo & He').
    assert (e' = entry') as -> by congruence. by rewrite Hinfo.
  - apply map_eq. intros name. rewrite !lookup_fmap, Hl. destruct (indexes self !! name) as [entry|] eqn:Hi; [|done].
    destruct (Hok name entry Hi) as [_ He]. destruct (Hf entry He) as (e' & E' & Hinfo & _). simpl. rewrite E'. simpl.
    by rewrite Hinfo.
Qed.

Lemma compound_add_ok docs pk d self :
  compound_ok docs self -> Z.of_nat (size docs) + 1 < U64_MAX ->
  exists self', add_ pk d.1 d.2 self = Some self' /\ compound_ok (<[pk := d]> docs) self'.
Proof.
  intros Hok Hsz. unfold add.
  destruct (compound_each_ok (add_to number_as_f64 to_string pk d.1 d.2) self docs (<[pk := d]> docs) Hok)
    as (m & -> & Hok' & _); [intros entry He; by apply compound_add_to_ok|].
  by eexists.
Qed.

Lemma compound_remove_ok docs pk self :
  compound_ok docs self -> exists self', remove pk self = Some self' /\ compound_ok (delete pk docs) self'.
Proof.
  intros Hok. unfold remove.
  destruct (compound_each_ok (remove_from pk) self docs (delete pk docs) Hok) as (m & -> & Hok' & _);
    [intros entry He; by apply compound_remove_from_ok|].
  by eexists.
Qed.

(** The documents of a rebuild: the last one of a key counts. *)
Definition told (entries : list (bytes * Doc)) docs : gmap bytes Doc :=
  fold_left (fun docs e => <[e.1 := e.2]> docs) entries docs.

Lemma compound_add_all_ok entries docs self :
  compound_ok docs self -> Z.of_nat (size docs) + zlen entries < U64_MAX ->
  exists self', foldM (fun self e => add_ e.1 e.2.1 e.2.2 self) self entries = Some self' /\
    compound_ok (told entries docs) self'.
Proof.
  revert docs self. induction entries as [|[pk d] entries IH]; intros docs self Hok Hsz; [by exists self|].
  rewrite zlen_cons in Hsz. pose proof (zlen_nonneg entries). cbn [foldM fst snd].
  destruct (compound_add_ok docs pk d self Hok) as (self1 & -> & Hok1); [lia|]. simpl_bind.
  apply IH; [done|]. pose proof (map_size_insert pk d docs) as E. cbn [fst snd]. destruct (docs !! pk); simpl in E; lia.
Qed.

Lemma empty_entry_ok i : entry_ok ∅ (mk_CompoundEntry i ∅ ∅).
Proof.
  split; [|intros pk; cbn [by_pk]; rewrite !lookup_empty; constructor].
  intros g. cbn [groups]. rewrite lookup_empty. unfold group_entries. by rewrite map_to_list_empty.
Qed.

Lemma compound_rebuild_ok entries docs self :
  compound_ok docs self -> zlen entries < U64_MAX ->
  exists self', rebuild number_as_f64 to_string entries self = Some self' /\ compound_ok (told entries ∅) self'.
Proof.
  intros Hok Hsz. apply compound_add_all_ok; [|by rewrite map_size_empty].
  intros name entry. cbn [indexes]. rewrite lookup_fmap. intros (e & Hi & ->)%fmap_Some.
  destruct (Hok name e Hi) as [Hn _]. split; [exact Hn|apply empty_entry_ok].
Qed.

Lemma compound_create_ok name def self self' :
  compound_ok ∅ self -> create name def self = Ok self' -> compound_ok ∅ self'.
Proof.
  intros Hok. unfold create. destruct (decide _); [done|]. intros [= <-] name' entry. cbn [indexes].
  intros [[<- <-]|[_ Hi]]%lookup_insert_Some; [split; [done|apply empty_entry_ok]|by apply Hok].
Qed.

(** C36: Compound indexes are a function of the documents: [add] (of a new document
    or over an old one, whether it moves, leaves or stays), [remove] and [rebuild] never
    panic and leave every index in the state that stands for the documents and datetimes
    it was then told of; a range query returns the page of the sorted list of the order
    values of its group (up to the sign of zero), and nothing for a group that has no
    documents. *)
Theorem compound_index_tracks_documents docs self pk d entries :
  compound_ok docs self -> Z.of_nat (size docs) + 1 < U64_MAX -> zlen entries < U64_MAX ->
  (exists self', add_ pk d.1 d.2 self = Some self' /\ compound_ok (<[pk := d]> docs) self') /\
  (exists self', remove pk self = Some self' /\ compound_ok (delete pk docs) self') /\
  (exists self', rebuild number_as_f64 to_string entries self = Some self' /\ compound_ok (told entries ∅) self') /\
  (forall name group options, match indexes self !! name with
     | Some entry => exists l, sorted order_cmp l /\
         map onentry l ≡ₚ group_entries (info entry) (canonical_value to_string group) docs /\
         range to_string name group options self = Some (Ok (map to_entry (range_spec compare_order options l)))
     | None => range to_string name group options self = Some (Err (NotFound name))
     end).
Proof.
  intros Hok Hsz Hz. split_and!.
  - by apply compound_add_ok.
  - by apply compound_remove_ok.
  - by eapply compound_rebuild_ok.
  - intros name group options. unfold range. destruct (indexes self !! name) as [entry|] eqn:Ei; [|done].
    destruct (Hok name entry Ei) as [_ [Hg _]]. specialize (Hg (canonical_value to_string group)).
    destruct (groups entry !! canonical_value to_string group) as [t|].
    + destruct Hg as (l & Hr & Hl). exists l. split; [by eapply oi_repr_sorted|]. split; [done|].
      by rewrite (oi_range_spec _ _ _ Hr).
    + exists []. rewrite Hg. split; [constructor|]. split; [done|]. unfold range_spec, page.
      assert (forall b : bool, (if b then rev (@nil (OrderValue * bytes)) else []) = []) as E by by intros [].
      rewrite filter_nil, E, drop_nil, take_nil. done.
Qed.
End facts.

(** ** An example, on the skip list *)

Definition OrderIndex : Type := SkipList.SkipList OrderValue bytes.
#[export] Instance order_index : OrderedIndex OrderIndex OrderValue bytes :=
  SkipListFacts.skiplist_index compare_order bytes_cmp.
Definition order_repr : OrderIndex -> list (OrderValue * bytes) -> Prop :=
  SkipListFacts.repr compare_order bytes_cmp.
#[export] Instance order_index_laws : OrderedIndexLaws compare_order bytes_cmp order_repr :=
  SkipListFacts.skiplist_index_laws compare_order bytes_cmp.

Definition example_text (v : @Query.Value spec_float) : string :=
  match v with Str s => s | _ => "?" end.
Definition example_doc (workspace : string) (n : spec_float) : @Query.Value spec_float :=
  Object [("workspaceId"%string, Str workspace); ("updatedAt"%string, Num n)].
Definition example_empty : CompoundIndexManager OrderIndex := mk_CompoundIndexManager ∅.
Definition example_created : CompoundIndexManager OrderIndex :=
  match create "workspace_updated" (mk_CompoundIndexDef "workspaceId" "updatedAt" OrderNumber) example_empty with
  | Ok self => self
  | Err _ => example_empty
  end.
Definition one : spec_float := S754_finite false 4503599627370496 (-52).

Lemma example_created_ok : compound_ok Some example_text order_repr ∅ example_created.
Proof.
  apply (compound_create_ok Some example_text order_repr "workspace_updated"
    (mk_CompoundIndexDef "workspaceId" "updatedAt" OrderNumber) example_empty); [|reflexivity].
  intros name entry. cbn [example_empty indexes]. by rewrite lookup_empty.
Qed.

Lemma compound_index_tracks_documents_witness :
  exists s, add Some example_text [byte_of 98] (example_doc "w" one) None example_created = Some s /\
    compound_ok Some example_text order_repr {[ [byte_of 98] := (example_doc "w" one, None) ]} s /\
    range example_text "other" (Str "w") (mk_RangeOptions None None None None 0 None false) example_created =
      Some (Err (NotFound "other")).
Proof.
  destruct (compound_index_tracks_documents Some example_text order_repr ∅ example_created
    [byte_of 98] (example_doc "w" one, None) [] example_created_ok) as ((s & Hs & Hok) & _ & _ & Hrange).
  - rewrite map_size_empty. vm_compute. reflexivity.
  - vm_compute. reflexivity.
  - exists s. split; [exact Hs|]. split; [exact Hok|].
    specialize (Hrange "other"%string (Str "w") (mk_RangeOptions None None None None 0 None false)).
    exact Hrange.
Defined.

(** The run of the code's own test. *)
Lemma compound_example :
  (s ← add Some example_text [byte_of 98] (example_doc "w" one) None example_created;
   s ← add Some example_text [byte_of 97] (example_doc "w" (S754_zero false)) None s;
   r ← range example_text "workspace_updated" (Str "w") (mk_RangeOptions None None None None 0 None false) s;
   match r with Ok l => Some (map entry_key l) | Err _ => None end) = Some [[byte_of 97]; [byte_of 98]].
Proof. vm_compute. reflexivity. Qed.
End CompoundIndexFacts.
