(* ===== verification/TextIndex.v ===== *)
(** * Full-text indexes ([crates/minidb/src/text_index.rs])

    An inverted index from terms to the frequencies of documents: a base that is
    rebuilt as a whole, in memory or in a postings file read through a cache of
    terms, a delta of the documents added since, and tombstones for the documents
    removed since.  Documents are numbered in the order they are added; a number
    is not used twice.  [None] is a panic: the index of a document number that was
    never given out.  [str::to_lowercase], the matches of the two regular
    expressions and [f64::ln] are parameters; other floating-point operations are
    Corelib's [spec_float]. *)

From Corelib Require Import SpecFloat.
From Stdlib Require Import Ascii.
From stdpp Require Import sorting.
From S2P Require Import Prelude.
From S2P Require Import Crc.
From S2P Require Import Query.
From S2P Require Import Postings.
Import Query Postings.

Module TextIndex.

Definition MAX_TERM_BYTES : Z := U16_MAX.

Record TextIndexOptions := mk_TextIndexOptions {
  opt_fields : option (list string); postings_path : option string; opt_cache_terms : option Z;
}.

Inductive SearchOperator := And | Or.

Record SearchOptions := mk_SearchOptions { operator : SearchOperator; limit : Z }.
Definition SearchOptions_default : SearchOptions := mk_SearchOptions And 50.

Record SearchHit := mk_SearchHit { hit_key : bytes; score : spec_float }.

Inductive TextIndexError := Postings_error (e : PostingsError).

(** [BTreeMap<u32, u32>]: frequencies by document. *)
Abbreviation Frequencies := (gmap Z Z).

Record TextIndex := mk_TextIndex {
  fields : option (list string);
  path : option string;
  cache_terms : Z;
  postings : gmap bytes PostingEntry;
  document_lengths : gmap Z Z;
  keys : list (option bytes);
  key_to_id : gmap bytes Z;
  delta : gmap bytes Frequencies;
  delta_count : Z;
  removed : gset Z;
  memory_base : option (gmap bytes Frequencies);
  postings_file : option PostingsFile;
  cache : gmap bytes (list (Z * Z));
  cache_order : list bytes;
  document_count : Z;
}.

Definition new (options : TextIndexOptions) : TextIndex :=
  mk_TextIndex (opt_fields options) (postings_path options) (default 1024 (opt_cache_terms options)) ∅ ∅ [] ∅ ∅ 0 ∅
    (match postings_path options with None => Some ∅ | Some _ => None end) None ∅ [] 0.

(** ** Terms *)

(** The characters of UTF-8 text: every byte that is no continuation begins one. *)
Definition is_continuation (b : byte) : bool := Z.land (byte_val b) 0xc0 =? 0x80.
Fixpoint split_chars (bs : bytes) : bytes * list bytes :=
  match bs with
  | [] => ([], [])
  | b :: bs =>
      let '(tail, cs) := split_chars bs in
      if is_continuation b then (b :: tail, cs) else ([], (b :: tail) :: cs)
  end.
Definition chars (bs : bytes) : list bytes := (split_chars bs).2.

(** The characters of a run and its pairs of neighbours. *)
Fixpoint cjk_terms (characters : list bytes) : list bytes :=
  match characters with
  | [] => []
  | c :: cs => c :: match cs with next :: _ => (c ++ next) :: cjk_terms cs | [] => cjk_terms cs end
  end.

Section text_index.
Context {Number : Type}.
Abbreviation Value := (@Query.Value Number).
(** [str::to_lowercase], and [find_iter] of the two regular expressions. *)
Context (to_lowercase : bytes -> bytes) (find_latin find_cjk : bytes -> list bytes).
(** [f64::ln]. *)
Context (ln : spec_float -> spec_float).
Context `{Crc32fast}.
Implicit Types (self : TextIndex).

Definition tokenize (input : bytes) : list bytes :=
  let lower := to_lowercase input in
  filter (fun term => zlen term <= MAX_TERM_BYTES) (find_latin lower) ++
  (find_cjk lower ≫= fun run => cjk_terms (chars run)).

Fixpoint string_leaves (value : Value) : list string :=
  match value with
  | Str s => [s]
  | Array values => concat (map string_leaves values)
  | Object values => concat (map (fun kv => string_leaves kv.2) values)
  | _ => []
  end.

Definition extract (fields : option (list string)) (document : Value) : bytes :=
  String.list_byte_of_string
    (String.concat " "
      (match fields with
       | Some (f :: fs) => omap (fun field => value ← get_path document field; as_str value) (f :: fs)
       | _ => string_leaves document
       end)).

(** [u32] counters wrap. *)
Definition count_term (counts : gmap bytes Z) (term : bytes) : gmap bytes Z :=
  <[term := (default 0 (counts !! term) + 1) `mod` 2 ^ 32]> counts.
Definition count_terms (tokens : list bytes) : gmap bytes Z := fold_left count_term tokens ∅.

Definition add_postings (document_id : Z) (m : gmap bytes Frequencies) (e : bytes * Z) : gmap bytes Frequencies :=
  <[e.1 := <[document_id := e.2]> (default ∅ (m !! e.1))]> m.

Definition term_count self : Z :=
  let base : gset bytes := match memory_base self with Some memory => dom memory | None => dom (postings self) end in
  Z.of_nat (size base) + Z.of_nat (size (dom (delta self) ∖ base)).

(** ** Building *)

Record Built := mk_Built {
  aggregate : gmap bytes Frequencies; new_keys : list (option bytes);
  new_key_to_id : gmap bytes Z; new_lengths : gmap Z Z;
}.

Definition build_document (fields : option (list string)) (b : Built) (e : bytes * Value) : Built :=
  let document_id := zlen (new_keys b) `mod` 2 ^ 32 in
  let tokens := tokenize (extract fields e.2) in
  mk_Built (fold_left (add_postings document_id) (map_to_list (count_terms tokens)) (aggregate b))
    (new_keys b ++ [Some e.1]) (<[e.1 := document_id]> (new_key_to_id b)) (<[document_id := zlen tokens]> (new_lengths b)).

(** The iteration of a [BTreeMap]. *)
Definition by_id (x y : Z * Z) : Prop := x.1 <= y.1.
#[export] Instance by_id_dec : RelDecision by_id := fun x y => decide (x.1 <= y.1).
Definition ascending (values : Frequencies) : list (Z * Z) := merge_sort by_id (map_to_list values).

Definition staged (m : gmap bytes Frequencies) : list (bytes * list (Z * Z)) :=
  map (fun e => (e.1, ascending e.2)) (map_to_list m).

Definition set_postings_file (postings_file : option PostingsFile) self : TextIndex :=
  mk_TextIndex (fields self) (path self) (cache_terms self) (postings self) (document_lengths self) (keys self)
    (key_to_id self) (delta self) (delta_count self) (removed self) (memory_base self) postings_file
    (cache self) (cache_order self) (document_count self).

(** The fields a build replaces. *)
Definition install (b : Built) (postings : gmap bytes PostingEntry) (memory_base : option (gmap bytes Frequencies))
    (postings_file : option PostingsFile) self : TextIndex :=
  mk_TextIndex (fields self) (path self) (cache_terms self) postings (new_lengths b) (new_keys b) (new_key_to_id b)
    ∅ 0 ∅ memory_base postings_file ∅ [] (zlen (new_keys b)).

Definition ok_of {E A} (r : result E A) : option A := match r with Ok a => Some a | Err _ => None end.

(** [PostingsFile::open] of the file at the path after the rebuild. *)
Definition reopen (outcomes : RebuildIo) (disk : option bytes) : result PostingsError PostingsFile :=
  if reopen_fails outcomes then Err Io else open disk.

(** [disk] is the file at the path, and [outcomes] what the calls on it do. *)
Definition build (entries : list (bytes * Value)) (outcomes : RebuildIo) (disk : option bytes) self
    : option bytes * result TextIndexError unit * TextIndex :=
  let b := fold_left (build_document (fields self)) entries (mk_Built ∅ [] ∅ ∅) in
  match path self with
  | Some _ =>
      let had_old := bool_decide (is_Some (postings_file self)) in
      match rebuild disk (staged (aggregate b)) outcomes with
      | (disk, Err error) =>
          (disk, Err (Postings_error error), set_postings_file (if had_old then ok_of (reopen outcomes disk) else None) self)
      | (disk, Ok dictionary) =>
          match reopen outcomes disk with
          | Err error => (disk, Err (Postings_error error), set_postings_file None self)
          | Ok new_file => (disk, Ok tt, install b dictionary (memory_base self) (Some new_file) self)
          end
      end
  | None => (disk, Ok tt, install b (postings self) (Some (aggregate b)) (postings_file self) self)
  end.

(** ** Documents *)

Definition drop_posting (document_id : Z) (delta : gmap bytes Frequencies) : gmap bytes Frequencies :=
  delete document_id <$> delta.
Definition holds (document_id : Z) (delta : gmap bytes Frequencies) : Z :=
  Z.of_nat (size (filter (fun e : bytes * Frequencies => is_Some (e.2 !! document_id)) delta)).

Definition remove (key : bytes) self : option TextIndex :=
  match key_to_id self !! key with
  | None => Some self
  | Some document_id =>
      if zlen (keys self) <=? document_id then None
      else
        Some (mk_TextIndex (fields self) (path self) (cache_terms self) (postings self)
                (delete document_id (document_lengths self))
                (<[Z.to_nat document_id := None]> (keys self)) (delete key (key_to_id self))
                (drop_posting document_id (delta self))
                (saturating_sub (delta_count self) (holds document_id (delta self)))
                ({[ document_id ]} ∪ removed self) (memory_base self) (postings_file self)
                (cache self) (cache_order self) (saturating_sub (document_count self) 1))
  end.

Definition add (key : bytes) (document : Value) self : option TextIndex :=
  self ← (if decide (is_Some (key_to_id self !! key)) then remove key self else Some self);
  let document_id := zlen (keys self) `mod` 2 ^ 32 in
  let tokens := tokenize (extract (fields self) document) in
  let counts := count_terms tokens in
  Some (mk_TextIndex (fields self) (path self) (cache_terms self) (postings self)
          (<[document_id := zlen tokens]> (document_lengths self))
          (keys self ++ [Some key]) (<[key := document_id]> (key_to_id self))
          (fold_left (add_postings document_id) (map_to_list counts) (delta self))
          (delta_count self + Z.of_nat (size counts)) (removed self) (memory_base self) (postings_file self)
          (cache self) (cache_order self) (document_count self + 1)).

(** ** Reading *)

Definition set_cache (cache : gmap bytes (list (Z * Z))) (cache_order : list bytes) self : TextIndex :=
  mk_TextIndex (fields self) (path self) (cache_terms self) (postings self) (document_lengths self) (keys self)
    (key_to_id self) (delta self) (delta_count self) (removed self) (memory_base self) (postings_file self)
    cache cache_order (document_count self).

Definition touch_cache (term : bytes) self : TextIndex :=
  set_cache (cache self) (filter (fun existing => existing <> term) (cache_order self) ++ [term]) self.

Definition insert_cache (term : bytes) (entries : list (Z * Z)) self : TextIndex :=
  let self := touch_cache term (set_cache (<[term := entries]> (cache self)) (cache_order self) self) in
  match cache_order self with
  | oldest :: order =>
      if cache_terms self <? Z.of_nat (size (cache self)) then set_cache (delete oldest (cache self)) order self else self
  | [] => self
  end.

Definition read_base (term : bytes) self : result TextIndexError Frequencies * TextIndex :=
  match memory_base self with
  | Some base => (Ok (default ∅ (base !! term)), self)
  | None =>
      match cache self !! term with
      | Some entries => (Ok (list_to_map (reverse entries)), touch_cache term self)
      | None =>
          match (match postings self !! term, postings_file self with
                 | Some entry, Some file => read entry file
                 | _, _ => Ok []
                 end) with
          | Err error => (Err (Postings_error error), self)
          | Ok entries =>
              (Ok (list_to_map (reverse entries)),
               if 0 <? cache_terms self then insert_cache term entries self else self)
          end
      end
  end.

Definition live_postings (term : bytes) self : result TextIndexError Frequencies * TextIndex :=
  let '(base, self) := read_base term self in
  (output ← base;
   let live (e : Z * Z) := e.1 ∉ removed self in
   Ok (filter live (default ∅ (delta self !! term)) ∪ filter live output), self).

(** ** Searching *)

Fixpoint distinct (seen : gset bytes) (terms : list bytes) : list bytes :=
  match terms with
  | [] => []
  | term :: terms =>
      if decide (term ∈ seen) then distinct seen terms else term :: distinct ({[ term ]} ∪ seen) terms
  end.

Fixpoint read_terms (terms : list bytes) (term_maps : gmap bytes Frequencies) self
    : result TextIndexError (gmap bytes Frequencies) * TextIndex :=
  match terms with
  | [] => (Ok term_maps, self)
  | term :: terms =>
      match live_postings term self with
      | (Err error, self) => (Err error, self)
      | (Ok m, self) => read_terms terms (<[term := m]> term_maps) self
      end
  end.

Definition by_size (x y : Frequencies) : Prop := (size x <= size y)%nat.
#[export] Instance by_size_dec : RelDecision by_size := fun x y => decide (size x <= size y)%nat.

(** The candidates, [None] when a conjunction has an empty list. *)
Definition candidates (operator : SearchOperator) (term_maps : gmap bytes Frequencies) : option (gset Z) :=
  let values := map snd (map_to_list term_maps) in
  match operator with
  | Or => Some (foldr (fun m s => dom m ∪ s) ∅ values)
  | And =>
      if decide (Exists (fun m => m = ∅) values) then None
      else match merge_sort by_size values with
           | first :: rest => Some (foldl (fun ids (m : Frequencies) => filter (fun id => is_Some (m !! id)) ids) (dom first) rest)
           | [] => Some ∅
           end
  end.

(** [value as f64] of an integer. *)
Definition int_as_f64 (value : Z) : spec_float := binary_normalize 53 1024 value 0 false.
Definition zero : spec_float := S754_zero false.

Definition term_score (length : spec_float) (document_count frequency hits : Z) : spec_float :=
  SFmul 53 1024 (SFdiv 53 1024 (int_as_f64 frequency) length)
    (ln (SFadd 53 1024 (int_as_f64 1) (SFdiv 53 1024 (int_as_f64 document_count) (int_as_f64 (Z.max hits 1))))).

Definition score_document (term_maps : gmap bytes Frequencies) (terms : list bytes) (document_id : Z) self : spec_float :=
  let length := int_as_f64 (default 1 (document_lengths self !! document_id)) in
  fold_left (fun score term =>
    let postings := default ∅ (term_maps !! term) in
    let frequency := default 0 (postings !! document_id) in
    if SFltb zero (int_as_f64 frequency)
    then SFadd 53 1024 score (term_score length (document_count self) frequency (Z.of_nat (size postings)))
    else score) terms zero.

Definition score_hit (term_maps : gmap bytes Frequencies) (terms : list bytes) self (document_id : Z) : option SearchHit :=
  let score := score_document term_maps terms document_id self in
  if SFltb zero score then
    match keys self !! Z.to_nat document_id with
    | Some (Some key) => Some (mk_SearchHit key score)
    | _ => None
    end
  else None.

(** [sort_by], which is stable, by descending score. *)
Definition compare_hits (left right : SearchHit) : comparison := default Eq (SFcompare (score right) (score left)).
Fixpoint insert_hit (x : SearchHit) (l : list SearchHit) : list SearchHit :=
  match l with
  | [] => [x]
  | y :: l => match compare_hits x y with Gt => y :: insert_hit x l | _ => x :: y :: l end
  end.
Definition sort_hits (l : list SearchHit) : list SearchHit := foldr insert_hit [] l.

Definition search (query : bytes) (options : SearchOptions) self : result TextIndexError (list SearchHit) * TextIndex :=
  let terms := distinct ∅ (tokenize query) in
  if decide (terms = []) then (Ok [], self)
  else
    match read_terms terms ∅ self with
    | (Err error, self) => (Err error, self)
    | (Ok term_maps, self) =>
        match candidates (operator options) term_maps with
        | None => (Ok [], self)
        | Some ids =>
            let scored := omap (score_hit term_maps terms self) (merge_sort Z.le (elements ids)) in
            (Ok (take (Z.to_nat (limit options)) (sort_hits scored)), self)
        end
    end.

Definition close self : TextIndex := set_postings_file None self.
End text_index.
End TextIndex.
