(* ===== verification/TextIndexFacts.v ===== *)
(** * Full-text indexes: what they keep and what they find

    Over the definitions of [TextIndex]: the postings of the live documents are
    their terms' frequencies whatever is added, removed and rebuilt, also after a
    rebuild that fails, and a search is the reference search over the documents. *)

From Corelib Require Import SpecFloat.
From stdpp Require Import sorting.
From S2P Require Import Prelude.
From S2P Require Import Crc.
From S2P Require Import Query.
From S2P Require Import Postings.
From S2P Require Import PostingsFacts.
From S2P Require Import TextIndex.
Import Query Postings PostingsFacts TextIndex.

Module TextIndexFacts.
Implicit Types (id : Z) (term key : bytes) (tokens : list bytes) (m : gmap bytes Frequencies).

(** ** Counting terms *)

Definition occurrences (term : bytes) (tokens : list bytes) : Z := zlen (filter (fun t => t = term) tokens).

Lemma occurrences_cons term t tokens :
  occurrences term (t :: tokens) = (if decide (t = term) then 1 else 0) + occurrences term tokens.
Proof. unfold occurrences. rewrite filter_cons. destruct (decide (t = term)); [by rewrite zlen_cons|done]. Qed.

Lemma occurrences_le term tokens : occurrences term tokens <= zlen tokens.
Proof.
  induction tokens as [|t tokens IH]; [done|]. rewrite occurrences_cons, zlen_cons. destruct (decide _); lia.
Qed.

Lemma occurrences_pos term tokens : 0 < occurrences term tokens <-> term ∈ tokens.
Proof.
  induction tokens as [|t tokens IH]; [split; [done|by intros ?%elem_of_nil]|].
  rewrite occurrences_cons, elem_of_cons, <- IH. pose proof (zlen_nonneg (filter (fun t => t = term) tokens)).
  change (0 <= occurrences term tokens) in H. destruct (decide (t = term)) as [->|Hne]; [split; [by left|lia]|].
  split; [by right|]. intros [->|?]; [done|lia].
Qed.

(** The frequency of a term in a document, if it occurs. *)
Definition frequency (term : bytes) (tokens : list bytes) : option Z :=
  if decide (term ∈ tokens) then Some (occurrences term tokens) else None.

Lemma count_terms_from (tokens : list bytes) (acc : gmap bytes Z) (term : bytes) :
  (forall t, 0 <= default 0 (acc !! t)) -> (forall t, default 0 (acc !! t) + zlen tokens < 2 ^ 32) ->
  fold_left count_term tokens acc !! term =
    if decide (term ∈ tokens) then Some (default 0 (acc !! term) + occurrences term tokens) else acc !! term.
Proof.
  revert acc. induction tokens as [|t tokens IH]; intros acc H0 Hlt; [done|]. cbn [fold_left].
  assert (forall t', default 0 (count_term acc t !! t') = default 0 (acc !! t') + if decide (t = t') then 1 else 0) as Hc.
  { intros t'. unfold count_term. specialize (H0 t). specialize (Hlt t). rewrite zlen_cons in Hlt. pose proof (zlen_nonneg tokens).
    destruct (decide (t = t')) as [<-|]; [|rewrite lookup_insert_ne by done; lia].
    rewrite lookup_insert_eq. simpl. by rewrite Z.mod_small by lia. }
  rewrite IH.
  - rewrite Hc, occurrences_cons. specialize (H0 term) as H0t. specialize (Hlt term) as Hltt.
    rewrite zlen_cons in Hltt. pose proof (zlen_nonneg tokens). pose proof (occurrences_pos term tokens) as Hp.
    pose proof (zlen_nonneg (filter (fun t => t = term) tokens)) as Hz. change (0 <= occurrences term tokens) in Hz.
    destruct (decide (term ∈ t :: tokens)) as [Hin|Hin], (decide (term ∈ tokens)) as [Hin'|Hin'].
    + f_equal. destruct (decide (t = term)); lia.
    + apply elem_of_cons in Hin as [<-|]; [|done]. assert (occurrences term tokens = 0) as -> by (destruct (decide (0 < occurrences term tokens)) as [Hlt'|]; [by apply Hp in Hlt'|lia]).
      unfold count_term. rewrite lookup_insert_eq, decide_True by done. f_equal. rewrite Z.mod_small by lia. lia.
    + exfalso. apply Hin. by right.
    + unfold count_term. rewrite lookup_insert_ne; [done|]. intros ->. apply Hin. by left.
  - intros t'. rewrite Hc. specialize (H0 t'). destruct (decide (t = t')); lia.
  - intros t'. rewrite Hc. specialize (Hlt t'). rewrite zlen_cons in Hlt. destruct (decide (t = t')); lia.
Qed.

Lemma count_terms_spec (tokens : list bytes) (term : bytes) :
  zlen tokens < 2 ^ 32 -> count_terms tokens !! term = frequency term tokens.
Proof.
  intros Hlt. unfold count_terms. rewrite count_terms_from; rewrite ?lookup_empty; [done|intros t; by rewrite lookup_empty|].
  intros t. rewrite lookup_empty. simpl. lia.
Qed.

(** ** Postings *)

Definition posting (m : gmap bytes Frequencies) (term : bytes) (id : Z) : option Z := default ∅ (m !! term) !! id.

Lemma posting_insert m e id term id' :
  posting (add_postings id m e) term id' =
    if decide (id' = id /\ e.1 = term) then Some e.2 else posting m term id'.
Proof.
  unfold posting, add_postings. destruct (decide (e.1 = term)) as [->|Hne].
  - rewrite lookup_insert_eq. simpl. destruct (decide (id' = id)) as [->|Hid].
    + by rewrite lookup_insert_eq, decide_True.
    + rewrite lookup_insert_ne by done. rewrite decide_False by naive_solver. done.
  - rewrite lookup_insert_ne by done. by rewrite decide_False by naive_solver.
Qed.

Lemma posting_add id (counts : gmap bytes Z) m term (id' : Z) :
  posting (fold_left (add_postings id) (map_to_list counts) m) term id' =
    if decide (id' = id) then (match counts !! term with Some f => Some f | None => posting m term id' end)
    else posting m term id'.
Proof.
  assert (forall l m, NoDup l.*1 ->
    posting (fold_left (add_postings id) l m) term id' =
      if decide (id' = id) then (match (list_to_map l : gmap bytes Z) !! term with Some f => Some f | None => posting m term id' end)
      else posting m term id') as Hl.
  { clear m. induction l as [|[t f] l IH]; intros m Hnd; cbn [fold_left].
    - destruct (decide _); [|done]. simpl. by rewrite lookup_empty.
    - apply NoDup_cons in Hnd as [Ht Hnd]. rewrite IH, posting_insert by done. cbn [fst snd list_to_map foldr uncurry].
      destruct (decide (id' = id)) as [->|Hid]; [|by rewrite decide_False by naive_solver].
      destruct (decide (t = term)) as [->|Hne].
      + rewrite lookup_insert_eq. rewrite (not_elem_of_list_to_map_1 l term) by done. by rewrite decide_True.
      + rewrite lookup_insert_ne by done. by rewrite decide_False by naive_solver. }
  rewrite Hl by apply NoDup_fst_map_to_list. by rewrite list_to_map_to_list.
Qed.

Lemma posting_drop id m term id' :
  posting (drop_posting id m) term id' = if decide (id' = id) then None else posting m term id'.
Proof.
  unfold posting, drop_posting. rewrite lookup_fmap. destruct (m !! term) as [v|]; simpl.
  - destruct (decide (id' = id)) as [->|]; [apply lookup_delete_eq|by rewrite lookup_delete_ne].
  - rewrite lookup_empty. by destruct (decide _).
Qed.

(** ** What an index stands for *)

Section facts.
Context {Number : Type}.
Abbreviation Value := (@Query.Value Number).
Context (to_lowercase : bytes -> bytes) (find_latin find_cjk : bytes -> list bytes).
Context (ln : spec_float -> spec_float).
Context `{Crc32fastOk}.
Implicit Types (self : TextIndex) (docs : gmap bytes Value) (doc : Value) (base : bytes -> Frequencies).

Definition tokens_of (fields : option (list string)) doc : list bytes :=
  tokenize to_lowercase find_latin find_cjk (extract fields doc).

Definition entries_of (entries : list (Z * Z)) : Frequencies := list_to_map (reverse entries).

(** What the postings file answers. *)
Definition file_entries term self : result PostingsError (list (Z * Z)) :=
  match postings self !! term, postings_file self with Some entry, Some file => read entry file | _, _ => Ok [] end.

Definition base_ok self base : Prop :=
  match memory_base self with
  | Some m => path self = None /\ forall term, default ∅ (m !! term) = base term
  | None => is_Some (path self) /\ forall term,
      (exists l, file_entries term self = Ok l /\ entries_of l = base term) /\
      (forall l, cache self !! term = Some l -> entries_of l = base term)
  end.

Record ids_ok docs self : Prop := {
  ids_docs key : is_Some (key_to_id self !! key) <-> is_Some (docs !! key);
  ids_range key id : key_to_id self !! key = Some id -> 0 <= id < zlen (keys self);
  ids_keys key id : 0 <= id -> keys self !! Z.to_nat id = Some (Some key) <-> key_to_id self !! key = Some id;
  ids_removed id : id ∈ removed self <-> 0 <= id /\ keys self !! Z.to_nat id = Some None;
  ids_count : document_count self = Z.of_nat (size docs);
}.

(** The posting of a document: of the delta, or else of the base. *)
Definition seen_posting self base term id : option Z :=
  match posting (delta self) term id with Some f => Some f | None => base term !! id end.

Record postings_ok docs self base : Prop := {
  postings_length key id doc : key_to_id self !! key = Some id -> docs !! key = Some doc ->
    document_lengths self !! id = Some (zlen (tokens_of (fields self) doc));
  postings_live key id doc term : key_to_id self !! key = Some id -> docs !! key = Some doc ->
    seen_posting self base term id = frequency term (tokens_of (fields self) doc);
  postings_range term id : is_Some (seen_posting self base term id) -> 0 <= id < zlen (keys self);
}.

Definition text_ok docs self : Prop :=
  ids_ok docs self /\ exists base, base_ok self base /\ postings_ok docs self base.

(** ** Removing and adding *)

Lemma zlen_insert {A} (l : list A) i x : zlen (<[i := x]> l) = zlen l.
Proof. unfold zlen. by rewrite length_insert. Qed.

Lemma zlen_snoc {A} (l : list A) x : zlen (l ++ [x]) = zlen l + 1.
Proof. rewrite zlen_app. done. Qed.

Lemma keys_insert (l : list (option bytes)) id (id' : Z) (x : option bytes) :
  0 <= id < zlen l -> 0 <= id' ->
  <[Z.to_nat id := x]> l !! Z.to_nat id' = if decide (id' = id) then Some x else l !! Z.to_nat id'.
Proof.
  unfold zlen. intros Hid Hid'. destruct (decide (id' = id)) as [->|Hne].
  - apply list_lookup_insert_eq. lia.
  - apply list_lookup_insert_ne. lia.
Qed.

Lemma text_remove_ok docs key self :
  text_ok docs self ->
  exists self', remove key self = Some self' /\ text_ok (delete key docs) self' /\
    key_to_id self' = delete key (key_to_id self) /\ zlen (keys self') = zlen (keys self) /\ fields self' = fields self.
Proof.
  intros [Hids (base & Hbase & Hpost)]. unfold remove. destruct (key_to_id self !! key) as [id|] eqn:Ek.
  2:{ exists self. split; [done|]. rewrite (delete_id (key_to_id self)) by done. split; [|done].
      rewrite delete_id; [by split; [|exists base]|].
      pose proof (ids_docs _ _ Hids key) as Hd. rewrite Ek in Hd. destruct (docs !! key); [|done].
      destruct (proj2 Hd ltac:(by eexists)). done. }
  pose proof (ids_range _ _ Hids _ _ Ek) as Hr.
  destruct (Z.leb_spec (zlen (keys self)) id); [lia|]. eexists. split; [reflexivity|].
  cbn [key_to_id keys fields]. rewrite zlen_insert. split; [|done].
  assert (docs !! key <> None) as Hd.
  { pose proof (ids_docs _ _ Hids key) as Hd. rewrite Ek in Hd. intros E. rewrite E in Hd.
    destruct (proj1 Hd ltac:(by eexists)). done. }
  assert (forall key' id', key_to_id self !! key' = Some id' -> key' <> key -> id' <> id) as Hinj.
  { intros key' id' Ek' Hne ->. apply (ids_keys _ _ Hids) in Ek', Ek; [congruence|lia..]. }
  split; [|exists base; split; [exact Hbase|]].
  - constructor; cbn [key_to_id keys removed document_count].
    + intros key'. destruct (decide (key' = key)) as [->|]; [|rewrite !lookup_delete_ne by done; apply (ids_docs _ _ Hids)].
      by rewrite !lookup_delete_eq.
    + intros key' id' [Hne Hk]%lookup_delete_Some. rewrite zlen_insert. by apply (ids_range _ _ Hids key').
    + intros key' id' Hge. rewrite keys_insert by done. destruct (decide (id' = id)) as [->|Hid].
      * split; [done|]. intros [Hne Hk]%lookup_delete_Some. exfalso. by apply (Hinj key' id).
      * rewrite (ids_keys _ _ Hids) by done. destruct (decide (key' = key)) as [->|Hne]; [|by rewrite lookup_delete_ne].
        rewrite lookup_delete_eq, Ek. split; [congruence|done].
    + intros id'. rewrite elem_of_union, elem_of_singleton, (ids_removed _ _ Hids). split.
      * intros [->|[Hge Hk]]; [split; [lia|]; rewrite keys_insert by lia; by rewrite decide_True|].
        split; [done|]. rewrite keys_insert by done. by destruct (decide _).
      * intros [Hge Hk]. rewrite keys_insert in Hk by done. destruct (decide (id' = id)); [by left|by right].
    + rewrite (ids_count _ _ Hids). pose proof (map_size_delete key docs) as Hs. unfold saturating_sub.
      destruct (docs !! key) eqn:E; [|done]. rewrite Hs.
      assert (size docs <> O); [|lia]. intros E0. apply map_size_empty_iff in E0. by rewrite E0, lookup_empty in E.
  - assert (forall term id', seen_posting (mk_TextIndex (fields self) (path self) (cache_terms self) (postings self)
        (delete id (document_lengths self)) (<[Z.to_nat id := None]> (keys self)) (delete key (key_to_id self))
        (drop_posting id (delta self)) (saturating_sub (delta_count self) (holds id (delta self)))
        ({[ id ]} ∪ removed self) (memory_base self) (postings_file self) (cache self) (cache_order self)
        (saturating_sub (document_count self) 1)) base term id' =
      if decide (id' = id) then base term !! id' else seen_posting self base term id') as Hseen.
    { intros term id'. unfold seen_posting. cbn [delta]. rewrite posting_drop. by destruct (decide (id' = id)). }
    constructor.
    + cbn [key_to_id document_lengths fields]. intros key' id' doc [Hne Hk]%lookup_delete_Some [_ Hdoc]%lookup_delete_Some.
      rewrite lookup_delete_ne; [by eapply (postings_length _ _ _ Hpost)|]. intros E. by apply (Hinj key' id').
    + intros key' id' doc term. rewrite Hseen. cbn [key_to_id fields].
      intros [Hne Hk]%lookup_delete_Some [_ Hdoc]%lookup_delete_Some.
      rewrite decide_False by (by apply (Hinj key' id')). by eapply (postings_live _ _ _ Hpost).
    + intros term id'. rewrite Hseen. cbn [keys]. rewrite zlen_insert. intros Hs.
      apply (postings_range _ _ _ Hpost term). destruct (decide (id' = id)); [|done].
      unfold seen_posting. by destruct (posting _ _ _).
Qed.

Lemma lookup_snoc (l : list (option bytes)) (x : option bytes) id :
  0 <= id -> (l ++ [x]) !! Z.to_nat id = if decide (id = zlen l) then Some x else l !! Z.to_nat id.
Proof.
  intros Hge. unfold zlen. destruct (decide _) as [->|Hne].
  - rewrite Nat2Z.id. by rewrite list_lookup_middle.
  - destruct (decide (id < Z.of_nat (length l))); [by rewrite lookup_app_l by lia|].
    rewrite lookup_ge_None_2 by (rewrite length_app; simpl; lia). by rewrite lookup_ge_None_2 by lia.
Qed.

(** What a document needs to be counted in 32 bits. *)
Definition countable (fields : option (list string)) doc : Prop := zlen (tokens_of fields doc) < 2 ^ 32.

Definition pushed key doc self : TextIndex :=
  let counts := count_terms (tokens_of (fields self) doc) in
  mk_TextIndex (fields self) (path self) (cache_terms self) (postings self)
    (<[zlen (keys self) := zlen (tokens_of (fields self) doc)]> (document_lengths self))
    (keys self ++ [Some key]) (<[key := zlen (keys self)]> (key_to_id self))
    (fold_left (add_postings (zlen (keys self))) (map_to_list counts) (delta self))
    (delta_count self + Z.of_nat (size counts)) (removed self) (memory_base self) (postings_file self)
    (cache self) (cache_order self) (document_count self + 1).

Lemma ids_push docs key doc self :
  ids_ok docs self -> docs !! key = None -> ids_ok (<[key := doc]> docs) (pushed key doc self).
Proof.
  intros Hids Hn.
  assert (key_to_id self !! key = None) as Hk.
  { destruct (key_to_id self !! key) eqn:E; [|done]. pose proof (proj1 (ids_docs _ _ Hids key) ltac:(by eexists)) as [? ?]. congruence. }
  pose proof (zlen_nonneg (keys self)) as Hz.
  constructor; cbn [pushed key_to_id keys removed document_count].
  - intros key'. destruct (decide (key' = key)) as [->|]; [rewrite !lookup_insert_eq; split; by eexists|].
    rewrite !lookup_insert_ne by done. apply (ids_docs _ _ Hids).
  - intros key' id'. rewrite zlen_snoc. intros [[<- <-]|[Hne Hk']]%lookup_insert_Some; [lia|].
    pose proof (ids_range _ _ Hids _ _ Hk'). lia.
  - intros key' id' Hge. rewrite lookup_snoc by done. destruct (decide (id' = zlen (keys self))) as [->|Hid].
    + destruct (decide (key' = key)) as [->|Hne]; [by rewrite lookup_insert_eq|]. rewrite lookup_insert_ne by done.
      split; [congruence|]. intros Hk'. pose proof (ids_range _ _ Hids _ _ Hk'). lia.
    + destruct (decide (key' = key)) as [->|Hne]; [|rewrite lookup_insert_ne by done; by apply (ids_keys _ _ Hids)].
      rewrite lookup_insert_eq, (ids_keys _ _ Hids), Hk by done. split; [done|congruence].
  - intros id'. rewrite (ids_removed _ _ Hids). split; intros [Hge Hk']; (split; [done|]).
    + rewrite lookup_snoc by done. destruct (decide _) as [->|]; [|done].
      apply lookup_lt_Some in Hk'. unfold zlen in Hk'. lia.
    + rewrite lookup_snoc in Hk' by done. by destruct (decide _).
  - rewrite (ids_count _ _ Hids), map_size_insert_None by done. lia.
Qed.

Lemma text_push_ok docs key doc self :
  text_ok docs self -> docs !! key = None -> countable (fields self) doc ->
  text_ok (<[key := doc]> docs) (pushed key doc self).
Proof.
  intros [Hids (base & Hbase & Hpost)] Hn Hcount. split; [by apply ids_push|]. exists base. split; [exact Hbase|].
  assert (forall term id', seen_posting (pushed key doc self) base term id' =
    if decide (id' = zlen (keys self)) then frequency term (tokens_of (fields self) doc)
    else seen_posting self base term id') as Hseen.
  { intros term id'. unfold seen_posting. cbn [pushed delta]. rewrite posting_add, count_terms_spec by done.
    destruct (decide (id' = zlen (keys self))) as [->|]; [|done].
    destruct (frequency _ _) as [f|]; [done|]. change (seen_posting self base term (zlen (keys self)) = None).
    destruct (seen_posting self base term (zlen (keys self))) as [f|] eqn:E; [|done].
    pose proof (postings_range _ _ _ Hpost term (zlen (keys self)) ltac:(by eexists)). lia. }
  constructor.
  - cbn [pushed key_to_id document_lengths fields]. intros key' id' doc'.
    intros [[<- <-]|[Hne Hk']]%lookup_insert_Some Hd.
    + rewrite lookup_insert_eq in Hd. injection Hd as <-. by rewrite lookup_insert_eq.
    + rewrite lookup_insert_ne in Hd by done. pose proof (ids_range _ _ Hids _ _ Hk').
      rewrite lookup_insert_ne by lia. by eapply (postings_length _ _ _ Hpost).
  - intros key' id' doc' term. rewrite Hseen. cbn [pushed key_to_id fields].
    intros [[<- <-]|[Hne Hk']]%lookup_insert_Some Hd.
    + rewrite lookup_insert_eq in Hd. injection Hd as <-. by rewrite decide_True.
    + rewrite lookup_insert_ne in Hd by done. pose proof (ids_range _ _ Hids _ _ Hk').
      rewrite decide_False by lia. by eapply (postings_live _ _ _ Hpost).
  - intros term id'. rewrite Hseen. cbn [pushed keys]. rewrite zlen_snoc.
    pose proof (zlen_nonneg (keys self)). destruct (decide _); [lia|].
    intros Hs%(postings_range _ _ _ Hpost term). lia.
Qed.

Lemma text_add_ok docs key doc self :
  text_ok docs self -> zlen (keys self) < 2 ^ 32 -> countable (fields self) doc ->
  exists self', add to_lowercase find_latin find_cjk key doc self = Some self' /\
    text_ok (<[key := doc]> docs) self' /\ fields self' = fields self /\ zlen (keys self') = zlen (keys self) + 1.
Proof.
  intros Hok Hkeys Hcount. pose proof (zlen_nonneg (keys self)). unfold add.
  assert (exists self1, (if decide (is_Some (key_to_id self !! key)) then remove key self else Some self) = Some self1 /\
    text_ok (delete key docs) self1 /\ fields self1 = fields self /\ zlen (keys self1) = zlen (keys self))
    as (self1 & -> & Hok1 & Hf & Hk).
  { destruct (decide _) as [Hs|Hs].
    - destruct (text_remove_ok docs key self Hok) as (self1 & ? & ? & _ & ? & ?). by exists self1.
    - exists self. split; [done|]. split; [|done]. rewrite delete_id; [done|].
      destruct (docs !! key) eqn:E; [|done]. destruct Hs. apply (ids_docs _ _ (proj1 Hok)). by eexists. }
  simpl_bind. rewrite Z.mod_small by lia. eexists. split; [reflexivity|]. cbn [fields keys].
  split; [|split; [done|rewrite zlen_snoc; lia]].
  rewrite <- insert_delete_eq. apply text_push_ok; [done|apply lookup_delete_eq|by rewrite Hf].
Qed.

(** ** Building

    What a build gathers stands for the documents as a delta over an empty base. *)

Definition gathered (fields : option (list string)) (b : Built) (count : Z) : TextIndex :=
  mk_TextIndex fields None 0 ∅ (new_lengths b) (new_keys b) (new_key_to_id b) (aggregate b) count ∅ (Some ∅) None ∅ []
    (zlen (new_keys b)).

Abbreviation build_document_ := (build_document to_lowercase find_latin find_cjk).

Lemma gathered_push fields b count e docs :
  text_ok docs (gathered fields b count) -> docs !! e.1 = None -> countable fields e.2 -> zlen (new_keys b) < 2 ^ 32 ->
  exists count', text_ok (<[e.1 := e.2]> docs) (gathered fields (build_document_ fields b e) count').
Proof.
  intros Hok Hn Hc Hz. pose proof (zlen_nonneg (new_keys b)).
  pose proof (text_push_ok docs e.1 e.2 _ Hok Hn Hc) as Hp.
  exists (count + Z.of_nat (size (count_terms (tokens_of fields e.2)))).
  unfold gathered, build_document. rewrite Z.mod_small by lia. cbn [aggregate new_keys new_key_to_id new_lengths].
  rewrite zlen_snoc. exact Hp.
Qed.

Lemma gathered_all fields entries b count docs :
  text_ok docs (gathered fields b count) -> NoDup entries.*1 -> (forall key, key ∈ entries.*1 -> docs !! key = None) ->
  Forall (fun e => countable fields e.2) entries -> zlen (new_keys b) + zlen entries <= 2 ^ 32 ->
  let b' := fold_left (build_document_ fields) entries b in
  zlen (new_keys b') = zlen (new_keys b) + zlen entries /\
  exists count', text_ok (list_to_map entries ∪ docs) (gathered fields b' count').
Proof.
  revert b count docs. induction entries as [|e entries IH]; intros b count docs Hok Hnd Hfresh Hc Hz; cbn [fold_left].
  { split; [rewrite zlen_nil; lia|]. exists count. cbn [list_to_map foldr]. by rewrite map_empty_union. }
  apply NoDup_cons in Hnd as [He Hnd]. apply Forall_cons in Hc as [Hc Hcs]. rewrite zlen_cons in Hz |- *.
  pose proof (zlen_nonneg entries).
  destruct (gathered_push fields b count e docs Hok) as [count' Hok']; [apply Hfresh; by left|done|lia|].
  destruct (IH (build_document_ fields b e) count' (<[e.1 := e.2]> docs) Hok' Hnd) as [Hl [count'' Hok'']].
  - intros key Hin. rewrite lookup_insert_ne; [apply Hfresh; by right|]. intros E. apply He. by rewrite E.
  - done.
  - unfold build_document at 1. cbn [new_keys]. rewrite zlen_snoc. lia.
  - split; [rewrite Hl; unfold build_document at 1; cbn [new_keys]; rewrite zlen_snoc; lia|]. exists count''.
    destruct e as [key doc]. cbn [list_to_map foldr uncurry fst snd] in *.
    rewrite <- insert_union_l, insert_union_r; [done|]. by apply not_elem_of_list_to_map_1.
Qed.

Lemma gathered_nothing fields : text_ok ∅ (gathered fields (mk_Built ∅ [] ∅ ∅) 0).
Proof.
  split.
  - constructor; cbn [gathered key_to_id keys removed document_count new_keys new_key_to_id].
    + intros key. by rewrite !lookup_empty.
    + intros key id. by rewrite lookup_empty.
    + intros key id _. by rewrite lookup_empty, lookup_nil.
    + intros id. rewrite lookup_nil. split; [set_solver|]. by intros [_ ?].
    + by rewrite map_size_empty.
  - exists (fun _ => ∅). split; [split; [done|]; intros term; by rewrite lookup_empty|].
    constructor; cbn [gathered key_to_id keys new_keys new_key_to_id].
    + intros key id doc. by rewrite lookup_empty.
    + intros key id doc term. by rewrite lookup_empty.
    + intros term id. unfold seen_posting, posting. cbn [gathered delta aggregate]. rewrite lookup_empty. simpl. rewrite lookup_empty. by intros [? ?].
Qed.

Lemma ascending_perm (values : Frequencies) : ascending values ≡ₚ map_to_list values.
Proof. apply merge_sort_Permutation. Qed.

Lemma entries_of_ascending values : entries_of (ascending values) = values.
Proof.
  symmetry. apply list_to_map_flip. by rewrite reverse_Permutation, ascending_perm.
Qed.

Lemma staged_in (m : gmap bytes Frequencies) term postings :
  (term, postings) ∈ staged m <-> exists values, m !! term = Some values /\ postings = ascending values.
Proof.
  unfold staged. rewrite list_elem_of_fmap. split.
  - intros ([t v] & [= -> ->] & Hin%elem_of_map_to_list). by exists v.
  - intros (v & Hv%elem_of_map_to_list & ->). by exists (term, v).
Qed.

Lemma staged_NoDup (m : gmap bytes Frequencies) : NoDup (staged m).*1.
Proof.
  unfold staged. rewrite <- list_fmap_compose. apply (NoDup_fst_map_to_list m).
Qed.

(** What a gathered index says of every posting. *)
Lemma gathered_posting fields b count docs term id f :
  text_ok docs (gathered fields b count) -> posting (aggregate b) term id = Some f ->
  0 <= id < zlen (new_keys b) /\ exists key doc, docs !! key = Some doc /\ frequency term (tokens_of fields doc) = Some f.
Proof.
  intros [Hids (base & Hbase & Hpost)] Hf.
  assert (seen_posting (gathered fields b count) base term id = Some f) as Hs
    by (unfold seen_posting; cbn [gathered delta]; by rewrite Hf).
  pose proof (postings_range _ _ _ Hpost term id ltac:(by eexists)) as Hr. cbn [gathered keys] in Hr. split; [done|].
  destruct (new_keys b !! Z.to_nat id) as [[key|]|] eqn:Ek.
  - assert (key_to_id (gathered fields b count) !! key = Some id) as Hk
      by (apply (ids_keys _ _ Hids); [lia|exact Ek]).
    destruct (proj1 (ids_docs _ _ Hids key) ltac:(by eexists)) as [doc Hdoc]. exists key, doc. split; [done|].
    etrans; [symmetry; exact (postings_live _ _ _ Hpost _ _ _ term Hk Hdoc)|exact Hs].
  - assert (id ∈ removed (gathered fields b count)) as Hin by (apply (ids_removed _ _ Hids); split; [lia|exact Ek]).
    cbn in Hin. set_solver.
  - apply lookup_ge_None in Ek. unfold zlen in Hr. lia.
Qed.

Lemma size_in_range (values : Frequencies) n :
  0 <= n -> (forall id, is_Some (values !! id) -> 0 <= id < n) -> Z.of_nat (size values) <= n.
Proof.
  intros Hn Hr. rewrite <- length_map_to_list, <- (length_fmap fst).
  enough (length (map_to_list values).*1 <= length (seqZ 0 n))%nat by (rewrite length_seqZ in *; lia).
  apply submseteq_length, NoDup_submseteq; [apply NoDup_fst_map_to_list|].
  intros id ([id' f] & -> & Hin%elem_of_map_to_list)%list_elem_of_fmap. apply elem_of_seqZ.
  rewrite Z.add_0_l. apply Hr. by eexists.
Qed.

(** The characters of the runs are those of UTF-8 text. *)
Definition chars_short : Prop := forall input run c, run ∈ find_cjk input -> c ∈ chars run -> zlen c <= 4.

Lemma cjk_terms_short cs n term :
  (forall c, c ∈ cs -> zlen c <= n) -> 0 <= n -> term ∈ cjk_terms cs -> zlen term <= 2 * n.
Proof.
  induction cs as [|c cs IH]; intros Hc Hn; [by intros ?%elem_of_nil|]. cbn [cjk_terms].
  pose proof (Hc c ltac:(by left)) as H1.
  assert (term ∈ cjk_terms cs -> zlen term <= 2 * n) as IH' by (apply IH; [|done]; intros c' Hin; apply Hc; by right).
  intros [->|Hin]%elem_of_cons; [lia|]. destruct cs as [|c2 cs]; [by apply IH'|].
  apply elem_of_cons in Hin as [->|Hin]; [|by apply IH'].
  rewrite zlen_app. pose proof (Hc c2 ltac:(right; by left)). lia.
Qed.

Lemma token_short fields doc term : chars_short -> term ∈ tokens_of fields doc -> zlen term <= U16_MAX.
Proof.
  unfold tokens_of, tokenize. intros Hshort [Hin|Hin]%elem_of_app.
  - by apply list_elem_of_filter in Hin as [? _].
  - apply list_elem_of_bind in Hin as (run & Hin & Hrun). unfold U16_MAX.
    etrans; [eapply (cjk_terms_short _ 4); [|lia|exact Hin]|lia]. intros c Hc. by eapply Hshort.
Qed.

(** A build of this many documents stays within the widths of the postings file. *)
Definition MAX_DOCUMENTS : Z := 2 ^ 28.

Lemma staged_wf fields b count docs :
  chars_short -> text_ok docs (gathered fields b count) -> zlen (new_keys b) <= MAX_DOCUMENTS ->
  (forall key doc, docs !! key = Some doc -> countable fields doc) ->
  (forall term values, aggregate b !! term = Some values -> values <> ∅) ->
  Forall posting_entry_wf (staged (aggregate b)).
Proof.
  intros Hshort Hok Hz Hc Hne. pose proof (zlen_nonneg (new_keys b)). unfold MAX_DOCUMENTS in Hz. apply Forall_forall.
  intros [term postings] (values & Hv & ->)%staged_in.
  assert (forall id f, values !! id = Some f -> posting (aggregate b) term id = Some f) as Hp
    by (intros id f Hf; unfold posting; by rewrite Hv).
  assert (zlen (ascending values) <= zlen (new_keys b)) as Hlen.
  { unfold zlen at 1. rewrite ascending_perm, length_map_to_list. apply size_in_range; [done|].
    intros id [f Hf]. by destruct (gathered_posting _ _ _ _ _ _ _ Hok (Hp id f Hf)). }
  destruct (map_choose values (Hne _ _ Hv)) as (id0 & f0 & Hf0).
  destruct (gathered_posting _ _ _ _ _ _ _ Hok (Hp _ _ Hf0)) as (_ & key0 & doc0 & Hd0 & Hfr0).
  assert (zlen term <= U16_MAX) as Hterm.
  { unfold frequency in Hfr0. destruct (decide _) as [Hin|]; [|done]. by eapply token_short. }
  unfold posting_entry_wf. cbn [fst snd]. split.
  - apply Forall_forall. intros [id f]. rewrite ascending_perm. intros Hin%elem_of_map_to_list.
    destruct (gathered_posting _ _ _ _ _ _ _ Hok (Hp _ _ Hin)) as (Hr & key & doc & Hd & Hfr).
    unfold posting_wf, is_u32. cbn [fst snd]. split; [lia|]. unfold frequency in Hfr. destruct (decide _) as [Hin'|]; [|done].
    injection Hfr as <-. apply occurrences_pos in Hin'. pose proof (occurrences_le term (tokens_of fields doc)).
    pose proof (Hc _ _ Hd) as Hcd. unfold countable in Hcd. lia.
  - pose proof (encode_posting_list_le (ascending values)). unfold U16_MAX in *. unfold U32_MAX, HEADER_LEN, CRC_LEN.
    lia.
Qed.

(** *** Installing what has been gathered *)

Lemma install_ok fields b count docs dictionary memory file self :
  text_ok docs (gathered fields b count) -> TextIndex.fields self = fields ->
  let self' := install b dictionary memory file self in
  base_ok self' (fun term => default ∅ (aggregate b !! term)) -> text_ok docs self'.
Proof.
  intros [Hids (base & Hbase & Hpost)] <- self' Hb. split.
  - destruct Hids as [Hd Hr Hk Hrem Hc]. by constructor.
  - eexists. split; [exact Hb|].
    assert (forall term id, seen_posting self' (fun term => default ∅ (aggregate b !! term)) term id =
      seen_posting (gathered (TextIndex.fields self) b count) base term id) as Hseen.
    { intros term id. destruct Hbase as [_ Hbase]. specialize (Hbase term). rewrite lookup_empty in Hbase. simpl in Hbase.
      unfold seen_posting. rewrite <- Hbase, lookup_empty. cbn [gathered delta]. subst self'. unfold install at 1. cbn [delta].
      unfold posting. rewrite lookup_empty. cbn [default]. rewrite lookup_empty. by destruct (_ !! id). }
    destruct Hpost as [Hl Hlive Hrange]. constructor; [exact Hl| |].
    + intros key id doc term Hk Hd. rewrite Hseen. by eapply Hlive.
    + intros term id. rewrite Hseen. apply Hrange.
Qed.

Lemma build_document_nonempty fields b (e : bytes * Value) :
  map_Forall (fun _ values => values <> ∅) (aggregate b) ->
  map_Forall (fun _ values => values <> ∅) (aggregate (build_document_ fields b e)).
Proof.
  unfold build_document. cbn [aggregate]. generalize (map_to_list (count_terms (tokenize to_lowercase find_latin find_cjk (extract fields e.2)))).
  intros l. generalize (aggregate b). induction l as [|x l IH]; intros m Hm; [done|]. cbn [fold_left]. apply IH.
  apply map_Forall_insert_2; [apply insert_non_empty|done].
Qed.

Lemma build_nonempty fields (entries : list (bytes * Value)) b :
  map_Forall (fun _ values => values <> ∅) (aggregate b) ->
  map_Forall (fun _ values => values <> ∅) (aggregate (fold_left (build_document_ fields) entries b)).
Proof.
  revert b. induction entries as [|e entries IH]; intros b Hb; [done|]. cbn [fold_left]. by apply IH, build_document_nonempty.
Qed.

(** The open file is the one at the path. *)
Definition file_matches (disk : option bytes) self : Prop :=
  forall f, postings_file self = Some f -> file f = disk /\ is_Some disk.

(** The base is in memory or in a file. *)
Definition placed self : Prop :=
  match memory_base self with Some _ => path self = None | None => is_Some (path self) end.

Lemma text_placed docs self : text_ok docs self -> placed self.
Proof. intros [_ (base & Hbase & _)]. unfold base_ok, placed in *. by destruct (memory_base self), Hbase. Qed.

(** What a caller keeps of an index it changes. *)
Definition same_shape self self' : Prop := fields self' = fields self /\ path self' = path self.

Lemma text_build_ok entries outcomes disk self :
  chars_short -> placed self -> file_matches disk self -> NoDup entries.*1 -> zlen entries <= MAX_DOCUMENTS ->
  Forall (fun e => countable (fields self) e.2) entries ->
  match build to_lowercase find_latin find_cjk entries outcomes disk self with
  | (disk', Ok _, self') =>
      text_ok (list_to_map entries) self' /\ file_matches disk' self' /\ zlen (keys self') = zlen entries /\ same_shape self self'
  | (disk', Err _, self') => is_Some (path self) /\ ~ (succeeds outcomes /\ reopen_fails outcomes = false) /\
      (disk' = disk /\ self' = self \/ reopen_fails outcomes = true /\ self' = set_postings_file None self)
  end.
Proof.
  intros Hshort Hplaced Hfile Hnd Hz Hc. unfold build. set (b := fold_left _ entries _).
  destruct (gathered_all (fields self) entries (mk_Built ∅ [] ∅ ∅) 0 ∅ (gathered_nothing _) Hnd) as [Hlen [count Hg]];
    [intros; apply lookup_empty|done|unfold MAX_DOCUMENTS in Hz; cbn [new_keys]; rewrite zlen_nil; lia|].
  fold b in Hlen, Hg. cbn [new_keys] in Hlen. rewrite zlen_nil, Z.add_0_l in Hlen. rewrite map_union_empty in Hg.
  unfold placed in Hplaced. destruct (path self) as [p|] eqn:Ep.
  2:{ split; [|by split_and!]. eapply install_ok; [exact Hg|done|]. by split; [exact Ep|]. }
  destruct (memory_base self) as [m|] eqn:Em; [done|].
  assert (Forall posting_entry_wf (staged (aggregate b))) as Hwf.
  { eapply staged_wf; [done|exact Hg|lia| |].
    - intros key doc Hd%elem_of_list_to_map_2. by apply (proj1 (Forall_forall _ _) Hc (key, doc)).
    - apply (build_nonempty (fields self) entries (mk_Built ∅ [] ∅ ∅)). by apply map_Forall_empty. }
  pose proof (rebuild_answers disk _ outcomes Hwf (staged_NoDup _)) as Hr.
  destruct (rebuild disk (staged (aggregate b)) outcomes) as [disk' [dictionary|error]].
  - destruct Hr as (file & -> & Hread & Hdict). unfold reopen.
    destruct (reopen_fails outcomes); [split; [done|]; split; [by intros []|by right]|]. cbn [open ok_or]. simpl_bind.
    split; [|split; [|by split_and!]]; [|intros f [= <-]; split; [done|by eexists]].
    eapply install_ok; [exact Hg|done|]. unfold base_ok. cbn [install memory_base path cache].
    split; [by rewrite Ep|]. intros term. split; [|intros l; by rewrite lookup_empty].
    unfold file_entries. cbn [install postings postings_file]. destruct (aggregate b !! term) as [values|] eqn:Ev.
    + exists (ascending values). split; [|apply entries_of_ascending].
      assert (values <> ∅) as Hne.
      { revert Ev. apply (build_nonempty (fields self) entries (mk_Built ∅ [] ∅ ∅)). by apply map_Forall_empty. }
      destruct (Hread term (ascending values)) as (entry & -> & _ & Hrd); [apply staged_in; by exists values| |exact Hrd].
      intros E. apply Hne. rewrite <- (entries_of_ascending values), E. done.
    + exists []. split; [|done]. destruct (dictionary !! term) as [entry|] eqn:Ed; [|done].
      destruct (Hdict term ltac:(by eexists)) as (ps & (v & Hv & _)%staged_in & _). congruence.
  - destruct Hr as (-> & Hnp & _). split; [done|]. split; [by intros []|]. unfold reopen.
    destruct self as [? ? ? ? ? ? ? ? ? ? ? pf ? ? ?]. unfold set_postings_file. cbn in *.
    destruct pf as [[f]|]; [|by left]. destruct (reopen_fails outcomes); [by right|left].
    destruct (Hfile _ eq_refl) as [Hd [c ->]]. cbn in Hd. by subst.
Qed.

(** ** Reading *)

(** An index beside its base. *)
Definition text_with docs self base : Prop := ids_ok docs self /\ base_ok self base /\ postings_ok docs self base.

Lemma text_set_cache docs self c o base :
  text_with docs self base -> base_ok (set_cache c o self) base -> text_with docs (set_cache c o self) base.
Proof. intros ([Hd Hr Hk Hrem Hn] & _ & [Hl Hlive Hrange]) Hb. split; [by constructor|]. split; [done|by constructor]. Qed.

(** The cache may hold what the file answers, in any order, and forget it. *)
Lemma base_ok_cache self c o base :
  base_ok self base ->
  (forall term l, c !! term = Some l -> cache self !! term = Some l \/ file_entries term self = Ok l) ->
  base_ok (set_cache c o self) base.
Proof.
  unfold base_ok. cbn [set_cache memory_base path cache]. destruct (memory_base self); [done|].
  intros [Hp Hb] Hc. split; [done|]. intros term. destruct (Hb term) as [(l & Hl & He) Hcache].
  split; [by exists l|]. intros l' [?|Hf]%Hc; [by apply Hcache|]. congruence.
Qed.

Lemma insert_cache_base term l self base :
  base_ok self base -> file_entries term self = Ok l ->
  exists c o, insert_cache term l self = set_cache c o self /\ base_ok (set_cache c o self) base.
Proof.
  intros Hb Hf.
  assert (forall t l', <[term := l]> (cache self) !! t = Some l' -> cache self !! t = Some l' \/ file_entries t self = Ok l') as Hin.
  { intros t l' [[<- <-]|[_ ?]]%lookup_insert_Some; [by right|by left]. }
  unfold insert_cache. set (order := cache_order (touch_cache _ _)). destruct order as [|oldest order].
  - eexists _, _. split; [reflexivity|]. by apply base_ok_cache.
  - destruct (_ <? _).
    + eexists _, _. split; [reflexivity|]. apply base_ok_cache; [done|]. intros t l' [_ Hl']%lookup_delete_Some. by apply Hin.
    + eexists _, _. split; [reflexivity|]. by apply base_ok_cache.
Qed.

Lemma set_cache_same self : set_cache (cache self) (cache_order self) self = self.
Proof. by destruct self. Qed.

Lemma read_base_ok term self base :
  base_ok self base ->
  exists c o, read_base term self = (Ok (base term), set_cache c o self) /\ base_ok (set_cache c o self) base.
Proof.
  intros Hb. unfold read_base. destruct (memory_base self) as [m|] eqn:Em.
  - exists (cache self), (cache_order self). rewrite set_cache_same. split; [|done]. unfold base_ok in Hb. rewrite Em in Hb.
    destruct Hb as [_ Hb]. by rewrite Hb.
  - pose proof Hb as Hb'. unfold base_ok in Hb'. rewrite Em in Hb'. destruct Hb' as [Hp Hb'].
    destruct (Hb' term) as [(l & Hl & He) Hcache]. destruct (cache self !! term) as [l'|] eqn:Ec.
    + eexists _, _. split; [unfold touch_cache; by rewrite <- (Hcache l' eq_refl)|].
      apply base_ok_cache; [done|by left].
    + fold (file_entries term self). rewrite Hl. unfold entries_of in He. rewrite He. destruct (0 <? cache_terms self).
      * destruct (insert_cache_base term l self base Hb Hl) as (c & o & -> & Hok). by exists c, o.
      * exists (cache self), (cache_order self). by rewrite set_cache_same.
Qed.

(** The postings of the live documents. *)
Definition live_map docs self term (m : Frequencies) : Prop :=
  forall id f, m !! id = Some f <-> exists key doc, key_to_id self !! key = Some id /\ docs !! key = Some doc /\
    frequency term (tokens_of (fields self) doc) = Some f.

Lemma live_document docs self id :
  ids_ok docs self -> 0 <= id < zlen (keys self) -> id ∉ removed self ->
  exists key doc, key_to_id self !! key = Some id /\ docs !! key = Some doc.
Proof.
  intros Hids Hr Hn. destruct (keys self !! Z.to_nat id) as [[key|]|] eqn:Ek.
  - apply (ids_keys _ _ Hids) in Ek; [|lia]. destruct (proj1 (ids_docs _ _ Hids key) ltac:(by eexists)) as [doc Hd].
    by exists key, doc.
  - destruct Hn. apply (ids_removed _ _ Hids). split; [lia|done].
  - apply lookup_ge_None in Ek. unfold zlen in Hr. lia.
Qed.

Lemma live_not_removed docs self key id : ids_ok docs self -> key_to_id self !! key = Some id -> id ∉ removed self.
Proof.
  intros Hids Hk [_ Hrem]%(ids_removed _ _ Hids). pose proof (ids_range _ _ Hids _ _ Hk).
  apply (ids_keys _ _ Hids) in Hk; [congruence|lia].
Qed.

Lemma live_postings_ok docs term self base :
  text_with docs self base ->
  exists (m : Frequencies) c o, live_postings term self = (Ok m, set_cache c o self) /\
    text_with docs (set_cache c o self) base /\ live_map docs self term m.
Proof.
  intros Hok. pose proof Hok as (Hids & Hb & Hpost). destruct (read_base_ok term self base Hb) as (c & o & E & Hb').
  unfold live_postings. rewrite E. cbn [set_cache delta removed]. simpl_bind. eexists _, c, o. split; [reflexivity|].
  split; [by apply text_set_cache|]. intros id f.
  set (output := _ ∪ _).
  assert (output !! id = if decide (id ∈ removed self) then None else seen_posting self base term id) as ->.
  { subst output. rewrite lookup_union. unfold seen_posting, posting. destruct (decide (id ∈ removed self)) as [Hin|Hin].
    - assert (forall m : Frequencies, filter (fun e => e.1 ∉ removed self) m !! id = None) as Hf
        by (intros m; apply map_lookup_filter_None_2; right; intros x _ Hx; by apply Hx).
      by rewrite !Hf.
    - assert (forall m : Frequencies, filter (fun e => e.1 ∉ removed self) m !! id = m !! id) as Hf.
      { intros m. destruct (m !! id) as [f'|] eqn:Em; [by apply map_lookup_filter_Some_2|by apply map_lookup_filter_None_2; left]. }
      rewrite !Hf. by destruct (_ !! id), (base term !! id). }
  split.
  - destruct (decide (id ∈ removed self)); [done|]. intros Hs.
    destruct (live_document docs self id Hids) as (key & doc & Hk & Hd); [by eapply (postings_range _ _ _ Hpost term)|done|].
    exists key, doc. split; [done|]. split; [done|]. by rewrite <- (postings_live _ _ _ Hpost _ _ _ term Hk Hd).
  - intros (key & doc & Hk & Hd & Hf). rewrite decide_False by by eapply live_not_removed.
    by rewrite (postings_live _ _ _ Hpost _ _ _ term Hk Hd).
Qed.

Lemma read_terms_ok docs terms tm self base :
  text_with docs self base -> NoDup terms ->
  exists tm' c o, read_terms terms tm self = (Ok tm', set_cache c o self) /\ text_with docs (set_cache c o self) base /\
    (forall term, term ∉ terms -> tm' !! term = tm !! term) /\
    (forall term, term ∈ terms -> exists m : Frequencies, tm' !! term = Some m /\ live_map docs self term m).
Proof.
  revert tm self. induction terms as [|term terms IH]; intros tm self Hok Hnd; cbn [read_terms].
  { exists tm, (cache self), (cache_order self). rewrite set_cache_same. split_and!; [done..|]. by intros term ?%elem_of_nil. }
  apply NoDup_cons in Hnd as [Hn Hnd]. destruct (live_postings_ok docs term self base Hok) as (m & c & o & -> & Hok1 & Hm).
  destruct (IH (<[term := m]> tm) (set_cache c o self) Hok1 Hnd) as (tm' & c' & o' & -> & Hok2 & Hout & Hin).
  exists tm', c', o'. split; [done|]. split; [done|]. split.
  - intros t Ht. rewrite Hout by (intros ?; apply Ht; by right). apply lookup_insert_ne. intros ->. apply Ht. by left.
  - intros t [->|Ht]%elem_of_cons; [|by apply Hin]. exists m. split; [|done]. by rewrite Hout, lookup_insert_eq.
Qed.

(** ** Searching

    The reference search looks at the documents themselves. *)

Definition doc_matches (operator : SearchOperator) (fields : option (list string)) (terms : list bytes) doc : Prop :=
  match operator with
  | And => Forall (fun term => term ∈ tokens_of fields doc) terms
  | Or => Exists (fun term => term ∈ tokens_of fields doc) terms
  end.

(** How many documents have a term. *)
Definition hits_of (fields : option (list string)) docs term : Z :=
  Z.of_nat (size (filter (fun kd : bytes * Value => term ∈ tokens_of fields kd.2) docs)).

Definition reference_score (fields : option (list string)) docs (terms : list bytes) doc : spec_float :=
  let tokens := tokens_of fields doc in
  fold_left (fun score term =>
    if SFltb zero (int_as_f64 (occurrences term tokens))
    then SFadd 53 1024 score
           (term_score ln (int_as_f64 (zlen tokens)) (Z.of_nat (size docs)) (occurrences term tokens) (hits_of fields docs term))
    else score) terms zero.

Definition reference_hit (fields : option (list string)) docs (terms : list bytes) key : option SearchHit :=
  doc ← docs !! key;
  let score := reference_score fields docs terms doc in
  if SFltb zero score then Some (mk_SearchHit key score) else None.

Lemma distinct_NoDup seen terms :
  NoDup (distinct seen terms) /\ forall term, term ∈ distinct seen terms <-> term ∈ terms /\ term ∉ seen.
Proof.
  revert seen. induction terms as [|t terms IH]; intros seen; cbn [distinct].
  - split; [constructor|]. intros term. split; [by intros ?%elem_of_nil|by intros [?%elem_of_nil _]].
  - destruct (decide (t ∈ seen)) as [Ht|Ht].
    + destruct (IH seen) as [Hnd Hin]. split; [done|]. intros term. rewrite Hin, elem_of_cons. split; [tauto|].
      intros [[->|?] ?]; [done|tauto].
    + destruct (IH ({[ t ]} ∪ seen)) as [Hnd Hin]. split.
      * constructor; [|done]. rewrite Hin. set_solver.
      * intros term. rewrite !elem_of_cons, Hin, elem_of_union, elem_of_singleton. split.
        -- intros [->|[? ?]]; [split; [by left|done]|]. split; [by right|]. tauto.
        -- intros [[->|?] ?]; [by left|]. destruct (decide (term = t)) as [->|]; [by left|right]. split; [done|].
           by intros [?|?].
Qed.

Lemma frequency_some term tokens : is_Some (frequency term tokens) <-> term ∈ tokens.
Proof. unfold frequency. destruct (decide _) as [?|Hn]; [split; by eauto|]. split; [by intros [? ?]|done]. Qed.

(** Every term of the query has its postings of the live documents. *)
Definition maps_ok docs self (terms : list bytes) (tm : gmap bytes Frequencies) : Prop :=
  forall term, match tm !! term with
    | Some m => term ∈ terms /\ live_map docs self term m
    | None => term ∉ terms
    end.

Lemma live_map_some docs self term (m : Frequencies) key id doc :
  ids_ok docs self -> live_map docs self term m -> key_to_id self !! key = Some id -> docs !! key = Some doc ->
  is_Some (m !! id) <-> term ∈ tokens_of (fields self) doc.
Proof.
  intros Hids Hm Hk Hd. rewrite <- frequency_some. split.
  - intros [f Hf]. apply Hm in Hf as (key' & doc' & Hk' & Hd' & Hf).
    assert (key' = key) as ->.
    { pose proof (ids_range _ _ Hids _ _ Hk). apply (ids_keys _ _ Hids) in Hk, Hk'; [congruence|lia..]. }
    assert (doc' = doc) as -> by congruence. by eexists.
  - intros [f Hf]. exists f. apply Hm. by exists key, doc.
Qed.

Lemma candidates_ok docs self operator (terms : list bytes) tm :
  ids_ok docs self -> maps_ok docs self terms tm -> terms <> [] ->
  let matching id := exists key doc, key_to_id self !! key = Some id /\ docs !! key = Some doc /\
    doc_matches operator (fields self) terms doc in
  match candidates operator tm with
  | Some ids => forall id, id ∈ ids <-> matching id
  | None => forall id, ~ matching id
  end.
Proof.
  intros Hids Htm Hne matching. unfold candidates.
  assert (forall (m : Frequencies), m ∈ map snd (map_to_list tm) <-> exists term, tm !! term = Some m) as Hvals.
  { intros m. rewrite list_elem_of_fmap. split.
    - intros ([t m'] & -> & Hin%elem_of_map_to_list). by exists t.
    - intros (t & Hin%elem_of_map_to_list). by exists (t, m). }
  assert (forall term, term ∈ terms -> exists m : Frequencies, tm !! term = Some m /\ live_map docs self term m) as Hterm.
  { intros term Ht. specialize (Htm term). destruct (tm !! term) as [m|]; [|done]. exists m. by destruct Htm. }
  destruct operator; cbn [doc_matches] in matching.
  - assert (forall id, matching id <-> forall m : Frequencies, m ∈ map snd (map_to_list tm) -> is_Some (m !! id)) as Hall.
    { intros id. split.
      - intros (key & doc & Hk & Hd & Hmatch) m (term & Hm)%Hvals. specialize (Htm term). rewrite Hm in Htm.
        destruct Htm as [Ht Hlive]. eapply (live_map_some docs self term m); [done..|]. exact (proj1 (Forall_forall _ _) Hmatch term Ht).
      - intros Hall. destruct terms as [|t0 terms']; [done|].
        destruct (Hterm t0 ltac:(by left)) as (m0 & Hm0 & Hlive0).
        destruct (Hall m0 (proj2 (Hvals m0) ltac:(by exists t0))) as [f Hf].
        apply Hlive0 in Hf as (key & doc & Hk & Hd & _). exists key, doc. split; [done|]. split; [done|].
        apply Forall_forall. intros term Ht. destruct (Hterm term Ht) as (m & Hm & Hlive).
        apply (live_map_some docs self term m key id doc Hids Hlive Hk Hd), Hall, Hvals. by exists term. }
    destruct (decide _) as [Hex|Hex].
    + intros id. rewrite Hall. intros Hm. apply Exists_exists in Hex as (m & Hin & ->).
      destruct (Hm ∅ Hin) as [f Hf]. by rewrite lookup_empty in Hf.
    + pose proof (merge_sort_Permutation by_size (map snd (map_to_list tm))) as Hp.
      destruct (merge_sort by_size (map snd (map_to_list tm))) as [|first rest].
      * exfalso. apply Permutation_nil in Hp. destruct terms as [|t0 terms']; [done|].
        destruct (Hterm t0 ltac:(by left)) as (m0 & Hm0 & _).
        assert (m0 ∈ map snd (map_to_list tm)) as Hin by (apply Hvals; by exists t0). rewrite Hp in Hin. by apply elem_of_nil in Hin.
      * intros id. rewrite Hall.
        assert (forall rest (ids : gset Z), id ∈ foldl (fun ids (m : Frequencies) => filter (fun id => is_Some (m !! id)) ids) ids rest <->
          id ∈ ids /\ forall m : Frequencies, m ∈ rest -> is_Some (m !! id)) as Hfold.
        { clear. induction rest as [|m rest IH]; intros ids; cbn [foldl].
          - split; [intros ?; split; [done|]; by intros m ?%elem_of_nil|tauto].
          - rewrite IH, elem_of_filter. setoid_rewrite elem_of_cons. naive_solver. }
        rewrite Hfold, elem_of_dom. setoid_rewrite <- Hp. setoid_rewrite elem_of_cons. naive_solver.
  - intros id.
    assert (forall values : list Frequencies, id ∈ foldr (fun (m : Frequencies) s => dom m ∪ s) (∅ : gset Z) values <->
      exists m : Frequencies, m ∈ values /\ is_Some (m !! id)) as ->.
    { clear. induction values as [|m values IH]; cbn [foldr].
      - split; [set_solver|]. by intros (m & ?%elem_of_nil & _).
      - rewrite elem_of_union, elem_of_dom, IH. setoid_rewrite elem_of_cons. naive_solver. }
    split.
    + intros (m & (term & Hm)%Hvals & [f Hf]). specialize (Htm term). rewrite Hm in Htm. destruct Htm as [Ht Hlive].
      apply Hlive in Hf as (key & doc & Hk & Hd & Hf). exists key, doc. split; [done|]. split; [done|].
      apply Exists_exists. exists term. split; [done|]. apply frequency_some. by eexists.
    + intros (key & doc & Hk & Hd & (term & Ht & Hin)%Exists_exists). destruct (Hterm term Ht) as (m & Hm & Hlive).
      exists m. split; [apply Hvals; by exists term|]. by apply (live_map_some docs self term m key id doc).
Qed.

(** The documents that have a term are as many as its live postings. *)
Lemma live_map_size docs self term (values : Frequencies) :
  ids_ok docs self -> live_map docs self term values ->
  Z.of_nat (size values) = hits_of (fields self) docs term.
Proof.
  intros Hids Hm. unfold hits_of.
  set (found := filter (fun kd : bytes * Value => term ∈ tokens_of (fields self) kd.2) docs).
  set (id_of := fun kd : bytes * Value => default 0 (key_to_id self !! kd.1)).
  assert (forall kd, kd ∈ map_to_list found -> docs !! kd.1 = Some kd.2 /\ key_to_id self !! kd.1 = Some (id_of kd) /\
    term ∈ tokens_of (fields self) kd.2) as Hfound.
  { intros [key doc] [Hd Ht]%elem_of_map_to_list%map_lookup_filter_Some. cbn [fst snd] in *. split; [done|]. split; [|done].
    unfold id_of. cbn [fst]. destruct (proj2 (ids_docs _ _ Hids key) ltac:(by eexists)) as [id Hid]. by rewrite Hid. }
  rewrite <- !length_map_to_list, <- (length_fmap id_of), <- (length_fmap fst).
  apply inj_eq, Permutation_length, NoDup_Permutation; [apply NoDup_fst_map_to_list| |].
  - apply NoDup_fmap_2_strong; [|apply NoDup_map_to_list]. intros kd1 kd2 H1 H2 E.
    destruct (Hfound _ H1) as (D1 & K1 & _), (Hfound _ H2) as (D2 & K2 & _). rewrite E in K1.
    pose proof (ids_range _ _ Hids _ _ K2). apply (ids_keys _ _ Hids) in K1, K2; [|lia..].
    destruct kd1 as [k1 d1], kd2 as [k2 d2]. cbn [fst snd] in *. assert (k1 = k2) as -> by congruence. f_equal. congruence.
  - intros id. rewrite !list_elem_of_fmap. split.
    + intros ([id' f] & -> & Hf%elem_of_map_to_list). apply Hm in Hf as (key & doc & Hk & Hd & Hf). exists (key, doc).
      unfold id_of. cbn [fst]. rewrite Hk. split; [done|]. apply elem_of_map_to_list, map_lookup_filter_Some.
      split; [done|]. cbn [snd]. apply frequency_some. by eexists.
    + intros (kd & -> & Hin). destruct (Hfound _ Hin) as (Hd & Hk & Ht).
      destruct (proj2 (frequency_some _ _) Ht) as [f Hf]. exists (id_of kd, f). split; [done|].
      apply elem_of_map_to_list, Hm. by exists kd.1, kd.2.
Qed.

Lemma score_document_ok docs self base (terms : list bytes) tm key id doc :
  text_with docs self base -> maps_ok docs self terms tm -> key_to_id self !! key = Some id -> docs !! key = Some doc ->
  score_document ln tm terms id self = reference_score (fields self) docs terms doc.
Proof.
  intros (Hids & _ & Hpost) Htm Hk Hd. unfold score_document, reference_score.
  rewrite (postings_length _ _ _ Hpost _ _ _ Hk Hd). cbn [default]. rewrite (ids_count _ _ Hids).
  assert (forall l score, (forall term, term ∈ l -> term ∈ terms) ->
    fold_left (fun score term =>
      let postings := default ∅ (tm !! term) in
      let frequency := default 0 (postings !! id) in
      if SFltb zero (int_as_f64 frequency)
      then SFadd 53 1024 score (term_score ln (int_as_f64 (zlen (tokens_of (fields self) doc))) (Z.of_nat (size docs)) frequency (Z.of_nat (size postings)))
      else score) l score =
    fold_left (fun score term =>
      if SFltb zero (int_as_f64 (occurrences term (tokens_of (fields self) doc)))
      then SFadd 53 1024 score (term_score ln (int_as_f64 (zlen (tokens_of (fields self) doc))) (Z.of_nat (size docs))
             (occurrences term (tokens_of (fields self) doc)) (hits_of (fields self) docs term))
      else score) l score) as Hl; [|apply Hl; auto].
  induction l as [|term l IH]; intros score Hin; [done|]. cbn [fold_left].
  rewrite <- IH by (intros t Ht; apply Hin; by right). f_equal.
  specialize (Htm term). destruct (tm !! term) as [values|]; [|exfalso; apply Htm, Hin; by left].
  destruct Htm as [_ Hlive]. change (default ∅ (Some values)) with values.
  assert (default 0 (values !! id) = occurrences term (tokens_of (fields self) doc)) as ->.
  { pose proof (live_map_some _ _ _ _ _ _ _ Hids Hlive Hk Hd) as Hs. destruct (values !! id) as [f|] eqn:Ef; simpl.
    - apply Hlive in Ef as (key' & doc' & Hk' & Hd' & Hf). assert (key' = key) as ->.
      { pose proof (ids_range _ _ Hids _ _ Hk). apply (ids_keys _ _ Hids) in Hk, Hk'; [congruence|lia..]. }
      assert (doc' = doc) as -> by congruence. unfold frequency in Hf. destruct (decide _); [congruence|done].
    - pose proof (zlen_nonneg (filter (fun t => t = term) (tokens_of (fields self) doc))) as Hz.
      change (0 <= occurrences term (tokens_of (fields self) doc)) in Hz.
      destruct (decide (0 < occurrences term (tokens_of (fields self) doc))) as [Hpos|]; [|lia].
      apply occurrences_pos, Hs in Hpos as [? ?]. done. }
  by rewrite (live_map_size docs self term values Hids Hlive).
Qed.

(** *** The ranking *)

Lemma insert_hit_perm x l : insert_hit x l ≡ₚ x :: l.
Proof.
  induction l as [|y l IH]; [done|]. cbn [insert_hit]. destruct (compare_hits x y); [done..|]. rewrite IH. apply Permutation_swap.
Qed.

Lemma sort_hits_perm l : sort_hits l ≡ₚ l.
Proof. induction l as [|x l IH]; [done|]. cbn [sort_hits foldr]. rewrite insert_hit_perm. by constructor. Qed.

Definition ranked (x y : SearchHit) : Prop := compare_hits x y <> Gt.

Lemma compare_hits_flip x y : compare_hits x y = Gt -> ranked y x.
Proof.
  unfold ranked, compare_hits.
  assert (forall a b : spec_float, default Eq (SFcompare a b) = Gt -> default Eq (SFcompare b a) <> Gt) as Hflip; [|apply Hflip].
  intros [s|s| |s m e] [s'|s'| |s' m' e']; try destruct s; try destruct s'; simpl; try done;
    rewrite (Z.compare_antisym e e'); change (PosDef.Pos.compare_cont Eq) with Pos.compare;
    rewrite (Pos.compare_antisym m m'); destruct (Z.compare e e'), (Pos.compare m m'); done.
Qed.

Lemma sort_hits_sorted l : Sorted ranked (sort_hits l).
Proof.
  induction l as [|x l IH]; [constructor|]. cbn [sort_hits foldr]. fold (sort_hits l). revert IH. generalize (sort_hits l).
  clear l. intros l. induction l as [|y l IH]; intros Hs; cbn [insert_hit]; [by repeat constructor|].
  destruct (compare_hits x y) eqn:E; try (constructor; [done|constructor; unfold ranked; congruence]).
  apply Sorted_inv in Hs as [Hs Hh]. constructor; [by apply IH|].
  destruct l as [|z l]; cbn [insert_hit]; [constructor; by apply compare_hits_flip|].
  destruct (compare_hits x z); constructor; try (by apply compare_hits_flip). by inversion Hh.
Qed.

Lemma take_sorted n l : Sorted ranked l -> Sorted ranked (take n l).
Proof.
  revert n. induction l as [|x l IH]; intros [|n] Hs; try constructor; apply Sorted_inv in Hs as [Hs Hh].
  - by apply IH.
  - destruct l as [|y l]; [destruct n; constructor|]. destruct n as [|n]; constructor. by inversion Hh.
Qed.

(** The hits of the candidates are the reference's hits of their keys. *)
Lemma scored_ok docs self base (terms : list bytes) tm ids :
  text_with docs self base -> maps_ok docs self terms tm ->
  (forall id, id ∈ ids -> exists key doc, key_to_id self !! key = Some id /\ docs !! key = Some doc) -> NoDup ids ->
  exists ks, omap (score_hit ln tm terms self) ids = omap (reference_hit (fields self) docs terms) ks /\
    NoDup ks /\ forall key, key ∈ ks <-> exists id, id ∈ ids /\ key_to_id self !! key = Some id.
Proof.
  intros Hok Htm. induction ids as [|id ids IH]; intros Hids Hnd.
  { exists []. split; [done|]. split; [constructor|]. intros key. split; [by intros ?%elem_of_nil|by intros (id & ?%elem_of_nil & _)]. }
  apply NoDup_cons in Hnd as [Hid Hnd]. destruct IH as (ks & E & Hnd' & Hks); [intros id' Hin; apply Hids; by right|done|].
  destruct (Hids id ltac:(by left)) as (key & doc & Hk & Hd). exists (key :: ks). split; [|split].
  2:{ constructor; [|done]. intros (id' & Hin & Hk')%Hks. by simplify_eq. }
  2:{ intros key'. rewrite elem_of_cons, Hks. setoid_rewrite elem_of_cons. split.
      - intros [->|(id' & ? & ?)]; [exists id; by split; [left|]|exists id'; by split; [right|]].
      - intros (id' & [->|?] & Hk'); [left|right; by exists id'].
        pose proof (ids_range _ _ (proj1 Hok) _ _ Hk). apply (ids_keys _ _ (proj1 Hok)) in Hk, Hk'; [congruence|lia..]. }
  cbn [omap list_omap]. unfold score_hit at 1, reference_hit at 1. rewrite Hd. simpl_bind.
  rewrite (score_document_ok docs self base terms tm key id doc Hok Htm Hk Hd).
  pose proof (ids_range _ _ (proj1 Hok) _ _ Hk). rewrite (proj2 (ids_keys _ _ (proj1 Hok) key id ltac:(lia)) Hk).
  destruct (SFltb zero _); [|exact E]. f_equal. exact E.
Qed.

(** A search changes nothing but the cache. *)
Lemma search_keeps docs self query options :
  text_ok docs self ->
  exists hits self', search to_lowercase find_latin find_cjk ln query options self = (Ok hits, self') /\
    text_ok docs self' /\ keys self' = keys self /\ fields self' = fields self.
Proof.
  intros [Hids (base & Hbase & Hpost)]. assert (text_with docs self base) as Hok by by split_and!.
  assert (text_ok docs self) as Hself by (split; [|exists base]; done).
  unfold search. set (terms := distinct ∅ _). destruct (decide (terms = [])) as [E|Hne]; [by exists [], self|].
  destruct (distinct_NoDup ∅ (tokenize to_lowercase find_latin find_cjk query)) as [Hnd _]. fold terms in Hnd.
  destruct (read_terms_ok docs terms ∅ self base Hok Hnd) as (tm & c & o & -> & Hok1 & _).
  assert (text_ok docs (set_cache c o self)) as Hok2 by (destruct Hok1 as (? & ? & ?); split; [|exists base]; done).
  destruct (candidates (operator options) tm) as [ids|]; by eexists _, _.
Qed.

(** C38: A search is the reference search over the documents: it never fails, and its
    hits are the first ones, by descending score, of the documents that have all terms
    of the query (or any, for [Or]), each scored by the frequencies of the terms in
    its own text, its length and the numbers of documents; what the postings file and
    the cache hold does not show, and the index stands for the same documents. *)
Theorem search_is_reference docs self query options :
  text_ok docs self ->
  let terms := distinct ∅ (tokenize to_lowercase find_latin find_cjk query) in
  exists hits self' ks, search to_lowercase find_latin find_cjk ln query options self = (Ok hits, self') /\
    text_ok docs self' /\ NoDup ks /\
    (forall key, key ∈ ks <-> exists doc, docs !! key = Some doc /\ terms <> [] /\
       doc_matches (operator options) (fields self) terms doc) /\
    hits = take (Z.to_nat (limit options)) (sort_hits (omap (reference_hit (fields self) docs terms) ks)) /\
    Sorted ranked hits.
Proof.
  intros [Hids (base & Hbase & Hpost)] terms. assert (text_with docs self base) as Hok by by split_and!.
  unfold search. fold terms. destruct (decide (terms = [])) as [E|Hne].
  { exists [], self, []. cbn [omap list_omap sort_hits foldr]. rewrite take_nil. split_and!; [done|by split; [|exists base]|constructor| |done|constructor].
    intros key. split; [by intros ?%elem_of_nil|]. by intros (doc & _ & ? & _). }
  destruct (distinct_NoDup ∅ (tokenize to_lowercase find_latin find_cjk query)) as [Hnd _]. fold terms in Hnd.
  destruct (read_terms_ok docs terms ∅ self base Hok Hnd) as (tm & c & o & -> & Hok1 & Hout & Hin).
  set (self' := set_cache c o self) in *. pose proof Hok1 as (Hids1 & Hb1 & Hp1).
  assert (maps_ok docs self' terms tm) as Htm.
  { intros term. destruct (decide (term ∈ terms)) as [Ht|Ht].
    - destruct (Hin term Ht) as (m & -> & Hm). by split.
    - by rewrite Hout, lookup_empty. }
  pose proof (candidates_ok docs self' (operator options) terms tm Hids1 Htm Hne) as Hcand.
  destruct (candidates (operator options) tm) as [ids|].
  2:{ exists [], self', []. cbn [omap list_omap sort_hits foldr]. rewrite take_nil. split_and!; [done|by split; [|exists base]|constructor| |done|constructor].
      intros key. split; [by intros ?%elem_of_nil|]. intros (doc & Hd & _ & Hm). exfalso.
      destruct (proj2 (ids_docs _ _ Hids key) ltac:(by eexists)) as [id Hk]. apply (Hcand id). by exists key, doc. }
  assert (forall id, id ∈ merge_sort Z.le (elements ids) <-> id ∈ ids) as Hel
    by (intros id; rewrite merge_sort_Permutation; apply elem_of_elements).
  destruct (scored_ok docs self' base terms tm (merge_sort Z.le (elements ids)) Hok1 Htm) as (ks & -> & Hnd' & Hks).
  { intros id (key & doc & Hk & Hd & _)%Hel%Hcand. by exists key, doc. }
  { rewrite merge_sort_Permutation. apply NoDup_elements. }
  eexists _, self', ks. split; [reflexivity|]. split; [by split; [|exists base]|].
  split_and!; [done| |done|apply take_sorted, sort_hits_sorted].
  intros key. rewrite Hks. setoid_rewrite Hel. setoid_rewrite Hcand. split.
  - intros (id & (key' & doc & Hk' & Hd & Hm) & Hk). exists doc. split; [|by split].
    assert (key' = key) as <-; [|done].
    pose proof (ids_range _ _ Hids1 _ _ Hk). apply (ids_keys _ _ Hids1) in Hk, Hk'; [congruence|lia..].
  - intros (doc & Hd & _ & Hm). destruct (proj2 (ids_docs _ _ Hids1 key) ltac:(by eexists)) as [id Hk].
    exists id. split; [|done]. by exists key, doc.
Qed.

(** An index that has lost its file: a term that is not in the cache reads as one no
    document has, without an error. *)
Lemma lost_file_reads_nothing self term :
  memory_base self = None -> cache self !! term = None -> (read_base term (set_postings_file None self)).1 = Ok ∅.
Proof.
  intros Hm Hc. unfold read_base. cbn [set_postings_file memory_base cache postings postings_file]. rewrite Hm, Hc.
  by destruct (postings self !! term).
Qed.

(** C37: A text index is a function of the documents: adding one (a new one or over an
    old one) and removing one never panic and leave the index in the state that stands
    for the documents.  A rebuild, in memory or in a postings file, stands for the
    documents it is given when it succeeds.  It fails only when one of its calls
    does, and then either file and index are what they were, or the file at the path
    could not be opened again: such an index keeps everything but the file, terms
    that are not cached read as terms of no document in its base without an error,
    and the next rebuild that succeeds stands for its documents again. *)
Theorem text_index_tracks_documents docs self key doc (entries : list (bytes * Value)) outcomes (disk : option bytes) :
  chars_short -> text_ok docs self -> file_matches disk self -> zlen (keys self) < 2 ^ 32 -> countable (fields self) doc ->
  NoDup entries.*1 -> zlen entries <= MAX_DOCUMENTS -> Forall (fun e => countable (fields self) e.2) entries ->
  (exists self', add to_lowercase find_latin find_cjk key doc self = Some self' /\ text_ok (<[key := doc]> docs) self') /\
  (exists self', remove key self = Some self' /\ text_ok (delete key docs) self') /\
  match build to_lowercase find_latin find_cjk entries outcomes disk self with
  | (disk', Ok _, self') => text_ok (list_to_map entries) self' /\ file_matches disk' self'
  | (disk', Err _, self') => ~ (succeeds outcomes /\ reopen_fails outcomes = false) /\
      (disk' = disk /\ self' = self \/
       reopen_fails outcomes = true /\ self' = set_postings_file None self /\
       (forall term, cache self !! term = None -> (read_base term self').1 = Ok ∅) /\
       forall again, match build to_lowercase find_latin find_cjk entries again disk' self' with
                     | (_, Ok _, self'') => text_ok (list_to_map entries) self''
                     | (_, Err _, _) => ~ (succeeds again /\ reopen_fails again = false)
                     end)
  end.
Proof.
  intros Hshort Hok Hfile Hkeys Hc Hnd Hz Hcs. split_and!.
  - destruct (text_add_ok docs key doc self Hok Hkeys Hc) as (self' & ? & ? & _). by exists self'.
  - destruct (text_remove_ok docs key self Hok) as (self' & ? & ? & _). by exists self'.
  - pose proof (text_placed docs self Hok) as Hp.
    pose proof (text_build_ok entries outcomes disk self Hshort Hp Hfile Hnd Hz Hcs) as Hb.
    destruct (build _ _ _ _ _ _ _) as [[disk' [[]|e]] self']; [by destruct Hb as (? & ? & _)|]. destruct Hb as (Hpath & Hn & Hb).
    split; [done|]. destruct Hb as [?|[Hr ->]]; [by left|right]. split_and!; [done|done| |].
    + intros term. apply lost_file_reads_nothing. unfold placed in Hp.
      destruct (memory_base self); [rewrite Hp in Hpath; by destruct Hpath|done].
    + intros again. pose proof (text_build_ok entries again disk' (set_postings_file None self) Hshort Hp
        ltac:(by intros f) Hnd Hz Hcs) as Hb.
      destruct (build _ _ _ _ _ _ _) as [[disk'' [[]|e']] self'']; [by destruct Hb|by destruct Hb as (_ & ? & _)].
Qed.

Lemma text_new_ok options : text_ok ∅ (new options) /\ file_matches None (new options).
Proof.
  split; [|by intros f]. split.
  - constructor; cbn [new key_to_id keys removed document_count].
    + intros key. by rewrite !lookup_empty.
    + intros key id. by rewrite lookup_empty.
    + intros key id _. by rewrite lookup_empty, lookup_nil.
    + intros id. rewrite lookup_nil. split; [set_solver|]. by intros [_ ?].
    + by rewrite map_size_empty.
  - exists (fun _ => ∅). split.
    + unfold base_ok. cbn [new memory_base path cache]. destruct (postings_path options) as [p|].
      * split; [by eexists|]. intros term. split; [|intros l; by rewrite lookup_empty]. exists []. split; [|done].
        unfold file_entries. cbn [new postings]. by rewrite lookup_empty.
      * split; [done|]. intros term. by rewrite lookup_empty.
    + constructor; cbn [new key_to_id keys].
      * intros key id doc. by rewrite lookup_empty.
      * intros key id doc term. by rewrite lookup_empty.
      * intros term id. unfold seen_posting, posting. cbn [new delta]. rewrite lookup_empty. simpl. rewrite lookup_empty. by intros [? ?].
Qed.
End facts.

(** ** Examples: lowercase ASCII words *)

Definition is_word (b : byte) : bool :=
  let z := byte_val b in ((97 <=? z) && (z <=? 122)) || ((48 <=? z) && (z <=? 57)).
Fixpoint word_runs (run bs : bytes) : list bytes :=
  match bs with
  | [] => match run with [] => [] | _ => [run] end
  | b :: bs =>
      if is_word b then word_runs (run ++ [b]) bs
      else match run with [] => word_runs [] bs | _ => run :: word_runs [] bs end
  end.
Definition example_latin : bytes -> list bytes := word_runs [].
Definition example_cjk : bytes -> list bytes := fun _ => [].
Definition example_doc (text : string) : @Query.Value Z := Object [("text"%string, Str text)].
Definition example_key (s : string) : bytes := String.list_byte_of_string s.
Import Additive.

Definition example_new : TextIndex := new (mk_TextIndexOptions None (Some "postings"%string) None).
Definition example_entries : list (bytes * @Query.Value Z) :=
  [(example_key "a", example_doc "rust database"); (example_key "b", example_doc "rust rust code")].
Definition example_io : RebuildIo := mk_RebuildIo false [Wrote 1; Wrote 3] false false false.
Definition example_built : option bytes * result TextIndexError unit * TextIndex :=
  build (fun s => s) example_latin example_cjk example_entries example_io None example_new.

Lemma example_cjk_short : chars_short example_cjk.
Proof. by intros input run c ?%elem_of_nil. Qed.

Abbreviation example_ok := (text_ok (fun s => s) example_latin example_cjk).
Abbreviation example_countable := (countable (fun s => s) example_latin example_cjk).

Lemma example_entries_countable : Forall (fun e => example_countable None e.2) example_entries.
Proof. repeat constructor; vm_compute; reflexivity. Qed.

Lemma example_entries_NoDup : NoDup example_entries.*1.
Proof. apply (bool_decide_unpack _). vm_compute. exact I. Qed.

Lemma example_built_ok : example_ok (list_to_map example_entries) example_built.2.
Proof.
  destruct (text_new_ok (Number := Z) (fun s => s) example_latin example_cjk (mk_TextIndexOptions None (Some "postings"%string) None))
    as [Hok Hfile].
  pose proof (text_build_ok (fun s => s) example_latin example_cjk example_entries example_io None
    example_new example_cjk_short (text_placed _ _ _ _ _ Hok) Hfile example_entries_NoDup) as Hb. fold example_built in Hb.
  assert (match example_built with (_, Ok _, _) => true | _ => false end = true) as E by (vm_compute; reflexivity).
  destruct example_built as [[disk [[]|e]] self]; [|discriminate E].
  destruct Hb as [Hb _]; [vm_compute; discriminate|exact example_entries_countable|exact Hb].
Qed.

Lemma search_is_reference_witness :
  exists hits self' (ks : list bytes),
    search (fun s => s) example_latin example_cjk (fun x => x) (example_key "rust") SearchOptions_default example_built.2 = (Ok hits, self') /\
    example_ok (list_to_map example_entries) self' /\ NoDup ks.
Proof.
  destruct (search_is_reference (fun s => s) example_latin example_cjk (fun x => x) (list_to_map example_entries)
    example_built.2 (example_key "rust") SearchOptions_default example_built_ok) as (hits & self' & ks & Hs & Hok & Hnd & _).
  exists hits, self', ks. split; [exact Hs|]. split; [exact Hok|exact Hnd].
Defined.

Lemma text_index_tracks_documents_witness :
  exists self', add (fun s => s) example_latin example_cjk (example_key "a") (example_doc "code") example_built.2 = Some self' /\
    example_ok (<[example_key "a" := example_doc "code"]> (list_to_map example_entries)) self'.
Proof.
  assert (file_matches example_built.1.1 example_built.2) as Hfile.
  { intros f. vm_compute. intros [= <-]. split; [reflexivity|by eexists]. }
  destruct (text_index_tracks_documents (fun s => s) example_latin example_cjk
    (list_to_map example_entries) example_built.2 (example_key "a") (example_doc "code") example_entries no_failures example_built.1.1
    example_cjk_short example_built_ok Hfile) as (Hadd & _ & _).
  - vm_compute. reflexivity.
  - vm_compute. reflexivity.
  - exact example_entries_NoDup.
  - vm_compute. discriminate.
  - assert (fields example_built.2 = None) as -> by (vm_compute; reflexivity). exact example_entries_countable.
  - exact Hadd.
Defined.

(** When the file cannot be opened again a search finds nothing, without an error. *)
Example lost_file_finds_nothing :
  let built := build (fun s => s) example_latin example_cjk example_entries (mk_RebuildIo false [] false true true) example_built.1.1 example_built.2 in
  match built with (_, Err _, self) =>
    match search (fun s => s) example_latin example_cjk (fun x => x) (example_key "rust") SearchOptions_default self with
    | (Ok hits, _) => Some (map hit_key hits)
    | _ => None
    end
  | _ => None
  end = Some [].
Proof. vm_compute. reflexivity. Qed.

(** The run of the code's own test: the hits of a search, through the file. *)
Lemma search_example :
  match search (fun s => s) example_latin example_cjk (fun x => x) (example_key "rust") SearchOptions_default example_built.2 with
  | (Ok hits, _) => map hit_key hits
  | _ => []
  end = [example_key "b"; example_key "a"].
Proof. vm_compute. reflexivity. Qed.
End TextIndexFacts.
