(* ===== verification/MiniDb.v ===== *)
(** * The database: its state and its write path ([crates/minidb/src/minidb.rs])

    The store and the state derived from it, prepared operations, their
    application, rollback and publication, eviction, and the three writes [set],
    [del] and [batch].  A write holds the write lock from beginning to end; what the
    rest of the process does to the database while the write waits for the log
    (reads, expiry) is an argument, a function on the
    state.  [None] is a panic.  Locks are not poisoned, since a panic ends the run.
    The libraries the code calls are the class [Platform]; the log is what an append
    returns and how it ends. *)

From Corelib Require Import SpecFloat.
From S2P Require Import Prelude.
From S2P Require Import Crc.
From S2P Require Import Codec.
From S2P Require Import OrdIndex.
From S2P Require Import Store.
From S2P Require Import Recovery.
From S2P Require Import Wal.
From S2P Require Import DtIndex.
From S2P Require Import Query.
From S2P Require Import Utf8.
From S2P Require Import Float.
From S2P Require Import IndexManager.
From S2P Require Import CompoundIndex.
From S2P Require Import Postings.
From S2P Require Import TextIndex.
Import OrdIndex Float.

Module MiniDb.

Definition MAX_KEY_LEN : Z := 128.

(** ** Libraries *)

Class Platform (Number : Type) := {
  (** [serde_json]: [Number::as_f64], [Display] for values and numbers, and the text
      of the datetime metadata. *)
  number_as_f64 : Number -> option spec_float;
  json_text : @Query.Value Number -> string;
  number_text : Number -> string;
  number_eqb : Number -> Number -> bool;
  dt_json : Store.Datetimes -> option bytes;
  (** [str::to_lowercase], the matches of the regular expressions of the tokenizer,
      and [f64::ln]; whether a pattern of a filter compiles and matches. *)
  to_lowercase : bytes -> bytes;
  find_latin : bytes -> list bytes;
  find_cjk : bytes -> list bytes;
  ln : spec_float -> spec_float;
  regex_is_match : string -> bool -> bool -> bool -> string -> option bool;
}.

(** ** Codecs *)

Inductive CodecName := BufferName | StringName | JsonName | CustomName.

Record ValueCodec (Number V : Type) := mk_ValueCodec {
  encode : V -> result string bytes;
  decode : bytes -> result string V;
  index_value : V -> option (@Query.Value Number);
  codec_name : CodecName;
}.
Arguments mk_ValueCodec {Number V}. Arguments encode {Number V}. Arguments decode {Number V}.
Arguments index_value {Number V}. Arguments codec_name {Number V}.

Definition BufferCodec {Number} : ValueCodec Number bytes :=
  mk_ValueCodec (fun value => Ok value) (fun bytes => Ok bytes) (fun _ => None) BufferName.

(** A [String] is its UTF-8 bytes; the text of the error is a parameter. *)
Definition StringCodec {Number} (utf8_error : bytes -> string) : ValueCodec Number bytes :=
  mk_ValueCodec (fun value => Ok value)
    (fun bytes => if Utf8.is_utf8 bytes then Ok bytes else Err (utf8_error bytes)) (fun _ => None) StringName.

(** [serde_json::to_vec] and [from_slice] are parameters. *)
Definition JsonCodec {Number} (to_vec : @Query.Value Number -> result string bytes)
    (from_slice : bytes -> result string (@Query.Value Number)) : ValueCodec Number (@Query.Value Number) :=
  mk_ValueCodec to_vec from_slice Some JsonName.

(** ** Data *)

Inductive MemoryPolicy := Reject | EvictLru.

(** The settings a database keeps ([MiniDbInner]); [read_only] may have been set because
    the lock was taken. *)
Record OpenOptions := mk_OpenOptions {
  read_only : bool; value_mode : Recovery.ValueMode;
  max_memory_bytes : option Z; max_memory_policy : MemoryPolicy;
}.

Record SetOptions := mk_SetOptions { ttl_millis : option Z; opt_datetimes : option Store.Datetimes }.
Definition SetOptions_default : SetOptions := mk_SetOptions None None.

Inductive BatchInputOp (V : Type) :=
| InputSet (key : bytes) (value : V) (options : SetOptions)
| InputDel (key : bytes).
Arguments InputSet {V}. Arguments InputDel {V}.

Record MiniDbStats := mk_MiniDbStats { evictions : Z; max_memory_rejections : Z; query_index_hits : Z }.

(** The variants that the operations below give. *)
Inductive MiniDbError :=
| Closed | ReadOnly | EmptyKey | KeyTooLong
| JsonCodecRequired (kind : string)
| TextIndexExists (name : string)
| TextIndexNotFound (name : string)
| MaxMemory (projected maximum : Z)
| InvalidTtl
| CodecFailed (message : string)
| IoFailed
| Json
| StoreFailed (e : Store.StoreError)
| WalFailed (e : Wal.WalError)
| FrameCodec (e : Codec.CodecError)
| RecoveryFailed (e : Recovery.RecoveryError)
| Locked
| IndexFailed (e : IndexManager.IndexError)
| CompoundFailed (e : CompoundIndex.CompoundIndexError)
| TextFailed (e : TextIndex.TextIndexError).

Record TextIndexDefinition := mk_TextIndexDefinition { def_name : string; def_fields : option (list string) }.

(** Failures of a component, as failures of the database ([#[from]]). *)
Definition lift {E A} (from : E -> MiniDbError) (r : result E A) : result MiniDbError A :=
  match r with Ok a => Ok a | Err e => Err (from e) end.

(** ** Keys in the derived state

    A key's bytes as the characters of a string, and that string's UTF-8 bytes. *)
Definition char_of_byte (b : byte) : bytes :=
  let z := byte_val b in
  if z <? 128 then [b] else [byte_of (Z.lor 0xC0 (Z.shiftr z 6)); byte_of (Z.lor 0x80 (Z.land z 0x3F))].
Definition key_string (key : bytes) : bytes := key ≫= char_of_byte.

(** The code point of a character, and the bytes of a string's characters cut to a byte. *)
Definition code_point (c : bytes) : Z :=
  match c with
  | [] => 0
  | [b] => byte_val b
  | b :: cs =>
      fold_left (fun acc x => Z.lor (Z.shiftl acc 6) (Z.land (byte_val x) 0x3F)) cs
        (Z.land (byte_val b) (2 ^ (6 - zlen cs) - 1))
  end.
Definition key_bytes (key : bytes) : bytes := map (fun c => byte_of (code_point c)) (TextIndex.chars key).

Definition display_key (key : bytes) : bytes := Utf8.from_utf8_lossy key.

Definition touch (key : bytes) (access : list bytes) : list bytes := filter (fun entry => entry <> key) access ++ [key].

Definition check_key (key : bytes) : result MiniDbError () :=
  if decide (key = []) then Err EmptyKey
  else if MAX_KEY_LEN <? zlen key then Err KeyTooLong
  else Ok ().

Section minidb.
Context {Number V : Type} `{!Platform Number} `{Crc32fast}.
Context {KT NT OT TT : Type}.
Context `{!OrderedIndex KT bytes bytes} `{!OrderedIndex NT f64 bytes}.
Context `{!OrderedIndex OT CompoundIndex.OrderValue bytes} `{!OrderedIndex TT Z bytes}.
Abbreviation Value := (@Query.Value Number).

Record PreparedOp := mk_PreparedOp {
  op_type : byte; op_key : bytes; op_value : option bytes; op_meta : option bytes; op_expire_at : Z;
  op_datetimes : option Store.Datetimes; op_pk : bytes; op_index_value : option Value;
}.

Record DerivedState := mk_DerivedState {
  indexes : IndexManager.IndexManager NT;
  datetimes : DtIndex.DateTimeIndex TT;
  compound : CompoundIndex.CompoundIndexManager OT;
  text : gmap string TextIndex.TextIndex;
  text_definitions : list TextIndexDefinition;
  access : list bytes;
}.

Record MiniDb := mk_MiniDb { store : Store.Store KT; derived : DerivedState; closed : bool; stats : MiniDbStats }.

(** A step on the database: it may panic, fail or return, and leaves a state. *)
Definition M (A : Type) : Type := MiniDb -> option (result MiniDbError A * MiniDb).

#[local] Instance M_ret : MRet M := fun A a self => Some (Ok a, self).
#[local] Instance M_bind : MBind M := fun A B f m self =>
  '(r, self) ← m self;
  match r with Ok a => f a self | Err e => Some (Err e, self) end.

Definition of_result {A} (r : result MiniDbError A) : M A := fun self => Some (r, self).

(** An operation of the store and the derived state under their locks. *)
Definition locked {A} (f : Store.Store KT -> DerivedState -> option (result MiniDbError A * Store.Store KT * DerivedState)) : M A :=
  fun self =>
    '(r, store, derived) ← f (store self) (derived self);
    Some (r, mk_MiniDb store derived (closed self) (stats self)).

Definition with_store {A} (f : Store.Store KT -> option (A * Store.Store KT)) : M A := fun self =>
  '(a, store) ← f (store self);
  Some (Ok a, mk_MiniDb store (derived self) (closed self) (stats self)).

Definition asks {A} (f : MiniDb -> A) : M A := fun self => Some (Ok (f self), self).
Definition or_panic {A} (o : option A) : M A := fun self => a ← o; Some (Ok a, self).

Context (codec : ValueCodec Number V) (options : OpenOptions).
(** The reader of values on disk, when the value mode is [OnDisk]. *)
Context (read_value : option (Store.ValueLoc -> result Store.StoreError bytes)).

Definition ensure_open : M () := fun self => Some (if closed self then Err Closed else Ok (), self).
Definition ensure_writable : M () := of_result (if read_only options then Err ReadOnly else Ok ()).

(** ** Derived state *)

Definition set_access (access : list bytes) (derived : DerivedState) : DerivedState :=
  mk_DerivedState (indexes derived) (datetimes derived) (compound derived) (text derived) (text_definitions derived) access.

Definition text_add (key : bytes) (document : Value) (text : gmap string TextIndex.TextIndex) :=
  each_value (TextIndex.add to_lowercase find_latin find_cjk key document) text.
Definition text_remove (key : bytes) (text : gmap string TextIndex.TextIndex) := each_value (TextIndex.remove key) text.

Definition apply_derived_set (key : bytes) (old new : option Value) (dts : option Store.Datetimes)
    (derived : DerivedState) : option DerivedState :=
  let key := key_string key in
  datetimes ← DtIndex.set key dts (datetimes derived);
  indexes ← match old with Some _ => IndexManager.remove key (indexes derived) | None => Some (indexes derived) end;
  match new with
  | Some new =>
      indexes ← IndexManager.add number_as_f64 json_text number_text key new indexes;
      compound ← CompoundIndex.add number_as_f64 json_text key new dts (compound derived);
      text ← text_add key new (text derived);
      Some (mk_DerivedState indexes datetimes compound text (text_definitions derived) (access derived))
  | None =>
      compound ← CompoundIndex.remove key (compound derived);
      text ← text_remove key (text derived);
      Some (mk_DerivedState indexes datetimes compound text (text_definitions derived) (access derived))
  end.

Definition apply_derived_delete (key : bytes) (derived : DerivedState) : option DerivedState :=
  let string := key_string key in
  datetimes ← DtIndex.delete_key string (datetimes derived);
  compound ← CompoundIndex.remove string (compound derived);
  indexes ← IndexManager.remove string (indexes derived);
  text ← text_remove string (text derived);
  Some (mk_DerivedState indexes datetimes compound text (text_definitions derived)
          (filter (fun entry => entry <> key) (access derived))).

Definition drain_expired (store : Store.Store KT) (derived : DerivedState) : option (Store.Store KT * DerivedState) :=
  let '(gone, store) := Store.take_expired store in
  derived ← foldM (fun derived kr => apply_derived_delete kr.1 derived) derived gone;
  Some (store, derived).

(** The document of a value, if it decodes to one. *)
Definition document_of (bytes : option bytes) : option Value :=
  bytes ← bytes;
  match decode codec bytes with Ok value => index_value codec value | Err _ => None end.

(** ** Preparing *)

(** [i64::saturating_add]. *)
Definition saturating_add_i64 (a b : Z) : Z := Z.max (- 2 ^ 63) (Z.min (2 ^ 63 - 1) (a + b)).

Definition prepare_set (key : bytes) (value : V) (set_options : SetOptions) (now : Z) : result MiniDbError PreparedOp :=
  _ ← check_key key;
  let expire_at :=
    match ttl_millis set_options with
    | Some ttl => if ttl =? 0 then 0 else saturating_add_i64 now (if ttl <? 2 ^ 63 then ttl else 2 ^ 63 - 1)
    | None => 0
    end in
  encoded ← lift CodecFailed (encode codec value);
  meta ← match opt_datetimes set_options with
         | Some dt => match dt_json dt with Some text => Ok (Some text) | None => Err Json end
         | None => Ok None
         end;
  Ok (mk_PreparedOp Codec.TYPE_SET key (Some encoded) meta expire_at (opt_datetimes set_options) key (index_value codec value)).

Definition prepare_del (key : bytes) : result MiniDbError PreparedOp :=
  _ ← check_key key;
  Ok (mk_PreparedOp Codec.TYPE_DEL key None None 0 None key None).

(** ** Applying *)

(** The sequence of a key's record. *)
Definition record_sequence (key : bytes) (store : Store.Store KT) : option Z :=
  Store.rec_sequence <$> Store.records store !! key.

Definition apply_operation (operation : PreparedOp) (now : Z) : M (option Store.StoreRecord * option Z) :=
  locked (fun store derived =>
    '(store, derived) ← drain_expired store derived;
    '(old_bytes, store) ← Store.get dt_json read_value (op_pk operation) now store;
    match old_bytes with
    | Err e => Some (Err (StoreFailed e), store, derived)
    | Ok old_bytes =>
        '(store, derived) ← drain_expired store derived;
        let previous := Store.records store !! op_pk operation in
        let old_document := document_of old_bytes in
        '(store, derived) ← (
          if bool_decide (op_type operation = Codec.TYPE_SET) then
            value ← op_value operation;
            store ← Store.set dt_json (op_key operation) value (op_expire_at operation) (op_datetimes operation) store;
            derived ← apply_derived_set (op_pk operation) old_document (op_index_value operation) (op_datetimes operation) derived;
            Some (store, set_access (touch (op_pk operation) (access derived)) derived)
          else
            '(deleted, store) ← Store.del dt_json (op_pk operation) store;
            if (deleted : bool) then derived ← apply_derived_delete (op_pk operation) derived; Some (store, derived)
            else Some (store, derived));
        Some (Ok (previous, record_sequence (op_pk operation) store), store, derived)
    end).

(** The record is still the one that was applied. *)
Definition superseded (applied_sequence current : option Z) : bool :=
  match applied_sequence with
  | None => bool_decide (is_Some current)
  | Some sequence => match current with Some current => negb (current =? sequence) | None => true end
  end.

Definition restore_key (key : bytes) (previous : option Store.StoreRecord) (applied_sequence : option Z) (now : Z) : M () :=
  locked (fun store derived =>
    if superseded applied_sequence (record_sequence key store) then Some (Ok (), store, derived)
    else
      derived ← apply_derived_delete key derived;
      match previous with
      | Some previous =>
          store ← Store.set_ref dt_json key (Store.value_ref previous) (Store.expire_at previous) (Store.datetimes previous) store;
          '(bytes, store) ← Store.get dt_json read_value key now store;
          match bytes with
          | Err e => Some (Err (StoreFailed e), store, derived)
          | Ok bytes =>
              derived ← apply_derived_set key None (document_of bytes) (Store.datetimes previous) derived;
              Some (Ok (), store, set_access (touch key (access derived)) derived)
          end
      | None =>
          '(_, store) ← Store.del dt_json key store;
          Some (Ok (), store, set_access (filter (fun entry => entry <> key) (access derived)) derived)
      end).

Definition publish_wal_ref (operation : PreparedOp) (sequence : option Z) (location : Store.ValueLoc) : M () :=
  locked (fun store derived =>
    if bool_decide (is_Some sequence) && bool_decide (record_sequence (op_pk operation) store = sequence) then
      store ← Store.set_ref dt_json (op_pk operation) (Store.Disk location) (op_expire_at operation) (op_datetimes operation) store;
      Some (Ok (), store, derived)
    else Some (Ok (), store, derived)).

Definition check_unique (operation : PreparedOp) : M () := fun self =>
  match op_index_value operation with
  | Some document =>
      r ← IndexManager.check_unique number_as_f64 json_text number_text (key_string (op_pk operation)) document
            (indexes (derived self));
      Some (lift IndexFailed r, self)
  | None => Some (Ok (), self)
  end.

Definition check_unique_batch (operations : list PreparedOp) : M () := fun self =>
  let batch := map (fun operation =>
    IndexManager.mk_BatchIndexOp (key_string (op_pk operation))
      (if bool_decide (op_type operation = Codec.TYPE_DEL) then IndexManager.OpDel else IndexManager.OpSet)
      (default Query.Null (op_index_value operation))) operations in
  Some (lift IndexFailed (IndexManager.check_unique_batch number_as_f64 json_text number_text batch (indexes (derived self))), self).

(** ** The log

    The readings of the clock around one append, what the append returns and what
    has happened when it is done. *)
Record Io := mk_Io {
  reap_now : Z;
  prepare_now : nat -> Z;
  apply_now : nat -> Z;
  append : bytes -> result Wal.WalError Z;
  done : MiniDb -> result Wal.WalError () * MiniDb;
  restore_now : nat -> Z;
}.

Definition wait (io : Io) : M (result Wal.WalError ()) := fun self => let '(r, self) := done io self in Some (Ok r, self).

(** [append] of the log, whose work begins when it is awaited. *)
Definition append_and_wait (io : Io) (frame : bytes) : M (result Wal.WalError ()) :=
  match append io frame with Err e => mret (Err e) | Ok _ => wait io end.

Definition del_frame (key : bytes) : result Codec.CodecError bytes :=
  Codec.encode_frame (Codec.mk_Frame Codec.TYPE_DEL key [] None 0).

(** Applies a deletion and rolls it back when the log fails. *)
Definition delete_applied (io : Io) (operation : PreparedOp) : M () :=
  frame ← of_result (lift FrameCodec (del_frame (op_key operation)));
  '(previous, sequence) ← apply_operation operation (apply_now io 0);
  r ← append_and_wait io frame;
  match r with
  | Ok _ => mret tt
  | Err e => _ ← restore_key (op_pk operation) previous sequence (restore_now io 0); of_result (Err (WalFailed e))
  end.

(** ** Memory *)

Definition count_stats (f : MiniDbStats -> MiniDbStats) : M () := fun self =>
  Some (Ok (), mk_MiniDb (store self) (derived self) (closed self) (f (stats self))).

Definition evict (io : Io) (key : bytes) : M () :=
  operation ← of_result (prepare_del key);
  _ ← delete_applied io operation;
  count_stats (fun stats => mk_MiniDbStats (evictions stats + 1) (max_memory_rejections stats) (query_index_hits stats)).

(** The bytes the operations leave, the last one of a key counting. *)
Definition project_one (store : Store.Store KT) (acc : Z * gmap bytes Z) (operation : PreparedOp) : option (Z * gmap bytes Z) :=
  let '(projected, considered) := acc in
  let current := default (Store.record_bytes dt_json (op_pk operation) store) (considered !! op_pk operation) in
  let projected := saturating_sub projected current in
  next ← (if bool_decide (op_type operation = Codec.TYPE_SET) then
            value ← op_value operation;
            Some (Store.estimate_set_bytes dt_json (op_key operation) value (op_datetimes operation)
                    (match value_mode options with Recovery.InMemory => true | Recovery.OnDisk => false end))
          else Some 0);
  Some (projected + next, <[op_pk operation := next]> considered).
Definition project (store : Store.Store KT) (operations : list PreparedOp) : option Z :=
  '(projected, _) ← foldM (project_one store) (Store.bytes_used store, ∅) operations;
  Some projected.

Definition find_victim (operations : list PreparedOp) (store : Store.Store KT) (access : list bytes) : option bytes :=
  head (filter (fun key => (key ∉ map op_pk operations) /\ is_Some (Store.records store !! key)) access).

(** Every round but the last evicts a record. *)
Fixpoint ensure_memory_loop (fuel : nat) (ios : nat -> Io) (i : nat) (maximum : Z) (operations : list PreparedOp) : M () :=
  match fuel with
  | O => fun _ => None
  | S fuel =>
      _ ← with_store (Store.reap_expired dt_json None (reap_now (ios i)));
      '(store, access) ← asks (fun self => (store self, access (derived self)));
      projected ← or_panic (project store operations);
      let victim := find_victim operations store access in
      if projected <=? maximum then mret tt
      else
        match max_memory_policy options, victim with
        | EvictLru, Some victim => _ ← evict (ios i) victim; ensure_memory_loop fuel ios (S i) maximum operations
        | _, _ =>
            _ ← count_stats (fun stats => mk_MiniDbStats (evictions stats) (max_memory_rejections stats + 1) (query_index_hits stats));
            of_result (Err (MaxMemory projected maximum))
        end
  end.

Definition ensure_memory_for (ios : nat -> Io) (operations : list PreparedOp) : M () :=
  match max_memory_bytes options with
  | None => mret tt
  | Some maximum => fun self => ensure_memory_loop (S (size (Store.records (store self)))) ios 0 maximum operations self
  end.

(** ** Writes *)

(** The log has the frame: a location of the value in it. *)
Definition value_location (offset : Z) (operation : PreparedOp) (value : bytes) : Store.ValueLoc :=
  Store.mk_ValueLoc Store.Wal (offset + Codec.HEADER_SIZE + zlen (op_key operation)) (zlen value `mod` 2 ^ 32).

(** The code after the checks of [set]. *)
Definition write_set (io : Io) (operation : PreparedOp) : M () :=
  value ← or_panic (op_value operation);
  frame ← of_result (lift FrameCodec (Codec.encode_frame
    (Codec.mk_Frame Codec.TYPE_SET (op_key operation) value (op_meta operation) (op_expire_at operation))));
  offset ← of_result (lift WalFailed (append io frame));
  '(previous, sequence) ← apply_operation operation (apply_now io 0);
  r ← wait io;
  match r with
  | Err e => _ ← restore_key (op_pk operation) previous sequence (restore_now io 0); of_result (Err (WalFailed e))
  | Ok _ =>
      match value_mode options with
      | Recovery.OnDisk => publish_wal_ref operation sequence (value_location offset operation value)
      | Recovery.InMemory => mret tt
      end
  end.

Definition set (io : Io) (ios : nat -> Io) (key : bytes) (value : V) (set_options : SetOptions) : M () :=
  _ ← ensure_open;
  _ ← ensure_writable;
  operation ← of_result (prepare_set key value set_options (prepare_now io 0));
  _ ← ensure_memory_for ios [operation];
  _ ← check_unique operation;
  write_set io operation.

(** [now] is the reading of the clock of [Store::has]. *)
Definition del (io : Io) (now : Z) (key : bytes) : M bool :=
  _ ← ensure_open;
  _ ← ensure_writable;
  found ← with_store (Store.has dt_json key now);
  if negb found then mret false
  else
    operation ← of_result (prepare_del key);
    _ ← delete_applied io operation;
    mret true.

Fixpoint prepare_all (now : nat -> Z) (i : nat) (operations : list (BatchInputOp V)) : result MiniDbError (list PreparedOp) :=
  match operations with
  | [] => Ok []
  | operation :: operations =>
      prepared ← match operation with
                 | InputSet key value set_options => prepare_set key value set_options (now i)
                 | InputDel key => prepare_del key
                 end;
      rest ← prepare_all now (S i) operations;
      Ok (prepared :: rest)
  end.

Definition to_batch_op (operation : PreparedOp) : Codec.BatchOp :=
  Codec.mk_BatchOp (op_type operation) (op_key operation) (op_value operation) (op_meta operation) (op_expire_at operation).

(** Applies the operations, keeping what each key held before its first one. *)
Fixpoint apply_all (io : Io) (i : nat) (operations : list PreparedOp) (previous : gmap bytes (option Store.StoreRecord))
    : M (gmap bytes (option Store.StoreRecord)) :=
  match operations with
  | [] => mret previous
  | operation :: operations =>
      '(record, _) ← apply_operation operation (apply_now io i);
      apply_all io (S i) operations
        (match previous !! op_pk operation with Some _ => previous | None => <[op_pk operation := record]> previous end)
  end.

Fixpoint restore_all (io : Io) (i : nat) (sequences : gmap bytes (option Z)) (previous : list (bytes * option Store.StoreRecord)) : M () :=
  match previous with
  | [] => mret tt
  | (key, record) :: previous =>
      sequence ← or_panic (sequences !! key);
      _ ← restore_key key record sequence (restore_now io i);
      restore_all io (S i) sequences previous
  end.

(** The last set of every key, with where its value lies in the body. *)
Definition last_sets (operations : list PreparedOp) (references : list Codec.BatchOpRef)
    : gmap bytes (PreparedOp * Codec.BatchOpRef) :=
  fold_left (fun last (x : PreparedOp * Codec.BatchOpRef) =>
    if bool_decide (op_type x.1 = Codec.TYPE_SET) then <[op_pk x.1 := x]> last else last) (zip operations references) ∅.

Fixpoint publish_all (frame_offset : Z) (sequences : gmap bytes (option Z))
    (last : list (bytes * (PreparedOp * Codec.BatchOpRef))) : M () :=
  match last with
  | [] => mret tt
  | (key, (operation, reference)) :: last =>
      sequence ← or_panic (sequences !! key);
      _ ← publish_wal_ref operation sequence
            (Store.mk_ValueLoc Store.Wal (frame_offset + Codec.HEADER_SIZE + Codec.opref_value_offset reference)
               (Codec.opref_value_len reference));
      publish_all frame_offset sequences last
  end.

Definition write_batch (io : Io) (prepared : list PreparedOp) : M () :=
  body ← of_result (lift FrameCodec (Codec.encode_batch_ops (map to_batch_op prepared)));
  frame ← of_result (lift FrameCodec (Codec.encode_frame (Codec.mk_Frame Codec.TYPE_BATCH [] body None 0)));
  frame_offset ← of_result (lift WalFailed (append io frame));
  previous ← apply_all io 0 prepared ∅;
  sequences ← asks (fun self => map_imap (fun key _ => Some (record_sequence key (store self))) previous);
  r ← wait io;
  match r with
  | Err e => _ ← restore_all io 0 sequences (map_to_list previous); of_result (Err (WalFailed e))
  | Ok _ =>
      match value_mode options with
      | Recovery.OnDisk =>
          references ← of_result (lift FrameCodec (Codec.scan_batch_op_refs body 0));
          publish_all frame_offset sequences (map_to_list (last_sets prepared references))
      | Recovery.InMemory => mret tt
      end
  end.

Definition batch (io : Io) (ios : nat -> Io) (operations : list (BatchInputOp V)) : M () :=
  _ ← ensure_open;
  _ ← ensure_writable;
  if decide (length operations = 0%nat) then mret tt
  else
    prepared ← of_result (prepare_all (prepare_now io) 0 operations);
    _ ← ensure_memory_for ios prepared;
    _ ← check_unique_batch prepared;
    write_batch io prepared.

Definition mset (io : Io) (ios : nat -> Io) (entries : list (bytes * V)) : M () :=
  batch io ios (map (fun kv => InputSet kv.1 kv.2 SetOptions_default) entries).
End minidb.
End MiniDb.
