(* ===== verification/MiniDbRead.v ===== *)
(** * The database: reads, queries, definitions and following
    ([crates/minidb/src/minidb.rs])

    Over the state and the monad of [MiniDb].  A reading of the clock is an
    argument, one for each key where the code reads it at every key.  Writing the
    files of index definitions is an argument: whether it succeeds. *)

From Corelib Require Import SpecFloat.
From Stdlib Require Import Ascii.
From S2P Require Import Prelude.
From S2P Require Import Crc.
From S2P Require Import Codec.
From S2P Require Import OrdIndex.
From S2P Require Import Store.
From S2P Require Import Recovery.
From S2P Require Import Wal.
From S2P Require Import DtIndex.
From S2P Require Import Query.
From S2P Require Import Utf8.
From S2P Require Import Float.
From S2P Require Import IndexManager.
From S2P Require Import CompoundIndex.
From S2P Require Import Postings.
From S2P Require Import TextIndex.
From S2P Require Import MiniDb.
Import OrdIndex Float MiniDb.

Module MiniDbRead.

Record DocumentRecord (V : Type) := mk_DocumentRecord {
  doc_key : bytes; doc_value : V; doc_datetimes : option Store.Datetimes;
}.
Arguments mk_DocumentRecord {V}. Arguments doc_key {V}. Arguments doc_value {V}. Arguments doc_datetimes {V}.

Record DateTimeDocumentRecord (V : Type) := mk_DateTimeDocumentRecord { record : DocumentRecord V; datetime_value : Z }.
Arguments mk_DateTimeDocumentRecord {V}. Arguments record {V}. Arguments datetime_value {V}.
Record IndexedDocumentRecord (V : Type) := mk_IndexedDocumentRecord { idx_key : bytes; idx_value : V; idx_field : f64 }.
Arguments mk_IndexedDocumentRecord {V}. Arguments idx_key {V}. Arguments idx_value {V}. Arguments idx_field {V}.
Record CompoundDocumentRecord (V : Type) := mk_CompoundDocumentRecord {
  cmp_key : bytes; cmp_value : V; cmp_order_value : CompoundIndex.OrderValue;
}.
Arguments mk_CompoundDocumentRecord {V}. Arguments cmp_key {V}. Arguments cmp_value {V}. Arguments cmp_order_value {V}.
Record SearchDocumentRecord (V : Type) := mk_SearchDocumentRecord { hit_key : bytes; hit_value : V; hit_score : spec_float }.
Arguments mk_SearchDocumentRecord {V}. Arguments hit_key {V}. Arguments hit_value {V}. Arguments hit_score {V}.

Record KeyQuery := mk_KeyQuery { exact : option bytes; key_prefix : option bytes; key_range : RangeOptions bytes }.
Record TextQuery := mk_TextQuery { text_index : string; text_query : bytes; text_options : TextIndex.SearchOptions }.
Record QueryOptions (Number : Type) := mk_QueryOptions {
  q_key : option KeyQuery;
  q_datetimes : list (string * RangeOptions Z);
  q_text : option TextQuery;
  q_filter : option (@Query.Value Number);
  q_project : option (list string);
  q_sort : list (string * Z);
  q_skip : Z;
  q_limit : option Z;
}.
Arguments mk_QueryOptions {Number}. Arguments q_key {Number}. Arguments q_datetimes {Number}. Arguments q_text {Number}.
Arguments q_filter {Number}. Arguments q_project {Number}. Arguments q_sort {Number}. Arguments q_skip {Number}. Arguments q_limit {Number}.

(** [sort_by], which is stable. *)
Fixpoint insert_by {A} (cmp : A -> A -> comparison) (x : A) (l : list A) : list A :=
  match l with
  | [] => [x]
  | y :: l => match cmp x y with Gt => y :: insert_by cmp x l | _ => x :: y :: l end
  end.
Definition sort_by {A} (cmp : A -> A -> comparison) (l : list A) : list A := foldr (insert_by cmp) [] l.

Definition ascii_alphanumeric (c : Ascii.ascii) : bool :=
  let n := Z.of_N (Ascii.N_of_ascii c) in
  ((48 <=? n) && (n <=? 57)) || ((65 <=? n) && (n <=? 90)) || ((97 <=? n) && (n <=? 122)).

(** One underscore for every character that is not safe in a file name. *)
Definition safe_char (c : bytes) : bytes :=
  match c with
  | [b] =>
      let a := Ascii.ascii_of_byte b in
      if ascii_alphanumeric a || Ascii.eqb a "_"%char || Ascii.eqb a "."%char || Ascii.eqb a "-"%char then [b]
      else String.list_byte_of_string "_"
  | _ => String.list_byte_of_string "_"
  end.
Definition text_postings_path (name : string) : string :=
  ("db.text-" +:+ String.string_of_list_byte (TextIndex.chars (String.list_byte_of_string name) ≫= safe_char) +:+ ".postings")%string.

Section reads.
Context {Number V : Type} `{!Platform Number} `{Crc32fast}.
Context {KT NT OT TT : Type}.
Context `{!OrderedIndex KT bytes bytes} `{!OrderedIndex NT f64 bytes}.
Context `{!OrderedIndex OT CompoundIndex.OrderValue bytes} `{!OrderedIndex TT Z bytes}.
Abbreviation Value := (@Query.Value Number).
Abbreviation Db := (@MiniDb.MiniDb KT NT OT TT).
Abbreviation M := (@MiniDb.M KT NT OT TT).
#[local] Existing Instance MiniDb.M_ret.
#[local] Existing Instance MiniDb.M_bind.
Context (codec : ValueCodec Number V) (options : OpenOptions).
Context (read_value : option (Store.ValueLoc -> result Store.StoreError bytes)).

(** ** Reading keys *)

(** The store's expired keys leave the derived state. *)
Definition drain : M () := locked (fun store derived =>
  '(store, derived) ← drain_expired store derived; Some (Ok (), store, derived)).

Definition touch_access (key : bytes) : M () := locked (fun store derived =>
  Some (Ok (), store, set_access (touch key (access derived)) derived)).

(** A failure to read leaves before the expired keys are drained. *)
Definition get (key : bytes) (now : Z) : M (option V) :=
  _ ← ensure_open;
  value ← with_store (Store.get dt_json read_value key now);
  bytes ← of_result (lift StoreFailed value);
  _ ← drain;
  match bytes with
  | Some bytes =>
      _ ← touch_access key;
      value ← of_result (lift CodecFailed (decode codec bytes));
      mret (Some value)
  | None => mret None
  end.

Definition get_record (key : bytes) (now : Z) : M (option (DocumentRecord V)) :=
  value ← get key now;
  match value with
  | None => mret None
  | Some value =>
      datetimes ← asks (fun self : Db => Store.records (store self) !! key ≫= Store.datetimes);
      mret (Some (mk_DocumentRecord (display_key key) value datetimes))
  end.

Definition has (key : bytes) (now : Z) : M bool :=
  _ ← ensure_open;
  found ← with_store (Store.has dt_json key now);
  _ ← drain;
  mret found.

Definition len (now : Z) : M Z := asks (fun self : Db => Store.len now (store self)).
Definition is_empty (now : Z) : M bool := n ← len now; mret (n =? 0).

Fixpoint mget (clock : nat -> Z) (i : nat) (keys : list bytes) : M (list (option V)) :=
  match keys with
  | [] => mret []
  | key :: keys => value ← get key (clock i); rest ← mget clock (S i) keys; mret (value :: rest)
  end.

(** Not one operation: another write may come between the read and the write. *)
Definition expire (io : Io) (ios : nat -> Io) (key : bytes) (now ttl_millis : Z) : M bool :=
  record ← get_record key now;
  match record with
  | None => mret false
  | Some record =>
      _ ← set codec options read_value io ios key (doc_value record) (mk_SetOptions (Some ttl_millis) (doc_datetimes record));
      mret true
  end.

Definition ttl (key : bytes) (now : Z) : M Z :=
  _ ← ensure_open;
  asks (fun self : Db =>
    match Store.records (store self) !! key with
    | None => -2
    | Some record =>
        if Store.expire_at record =? 0 then -1
        else let remaining := Store.expire_at record - now in if 0 <? remaining then remaining else -2
    end).

Fixpoint decode_entries (entries : list Store.StoreEntry) : result MiniDbError (list (DocumentRecord V)) :=
  match entries with
  | [] => Ok []
  | entry :: entries =>
      value ← lift CodecFailed (decode codec (Store.entry_value entry));
      rest ← decode_entries entries;
      Ok (mk_DocumentRecord (display_key (Store.entry_key entry)) value (Store.entry_datetimes entry) :: rest)
  end.

Definition scan (clock : nat -> Z) (range : RangeOptions bytes) : M (list (DocumentRecord V)) :=
  _ ← ensure_open;
  entries ← with_store (Store.scan dt_json read_value clock range);
  entries ← of_result (lift StoreFailed entries);
  _ ← drain;
  of_result (decode_entries entries).

Definition prefix (clock : nat -> Z) (prefix : bytes) (limit : Z) : M (list (DocumentRecord V)) :=
  _ ← ensure_open;
  entries ← with_store (Store.prefix dt_json read_value clock prefix limit);
  entries ← of_result (lift StoreFailed entries);
  _ ← drain;
  of_result (decode_entries entries).

(** A round of the expiration task. *)
Definition expiration_round (now : Z) : M () :=
  _ ← with_store (Store.reap_expired dt_json None now);
  drain.

(** ** Reading through indexes

    The rows of an index, as the records of their keys that are still there. *)

Fixpoint fetch {R A} (row_key : R -> bytes) (make : bytes -> V -> R -> A) (clock : nat -> Z) (i : nat) (rows : list R) : M (list A) :=
  match rows with
  | [] => mret []
  | row :: rows =>
      let bytes := key_bytes (row_key row) in
      value ← get bytes (clock i);
      rest ← fetch row_key make clock (S i) rows;
      mret (match value with Some value => make (display_key bytes) value row :: rest | None => rest end)
  end.

Definition datetime_columns : M (list string) := asks (fun self : Db => (map_to_list (DtIndex.columns (datetimes (derived self)))).*1).

Definition datetime_range (clock : nat -> Z) (column : string) (range : RangeOptions Z) : M (list (DateTimeDocumentRecord V)) :=
  derived ← asks derived;
  rows ← or_panic (DtIndex.range column range (datetimes derived));
  fetch DtIndex.key (fun key value row => mk_DateTimeDocumentRecord (mk_DocumentRecord key value None) (DtIndex.value row)) clock 0 rows.

Definition find_eq (clock : nat -> Z) (name : string) (value : Value) : M (list (DocumentRecord V)) :=
  derived ← asks derived;
  keys ← of_result (lift IndexFailed (IndexManager.find_eq json_text number_text name value (indexes derived)));
  fetch (fun key => key) (fun key value _ => mk_DocumentRecord key value None) clock 0 keys.

Definition find_range (clock : nat -> Z) (name : string) (range : IndexManager.NumericRangeOptions) : M (list (IndexedDocumentRecord V)) :=
  derived ← asks derived;
  rows ← or_panic (IndexManager.find_range name range (indexes derived));
  rows ← of_result (lift IndexFailed rows);
  fetch IndexManager.entry_pk (fun key value row => mk_IndexedDocumentRecord key value (IndexManager.entry_value row)) clock 0 rows.

Definition compound_range (clock : nat -> Z) (name : string) (group : Value) (range : RangeOptions CompoundIndex.OrderValue)
    : M (list (CompoundDocumentRecord V)) :=
  derived ← asks derived;
  rows ← or_panic (CompoundIndex.range json_text name group range (compound derived));
  rows ← of_result (lift CompoundFailed rows);
  fetch CompoundIndex.entry_key (fun key value row => mk_CompoundDocumentRecord key value (CompoundIndex.entry_order_value row)) clock 0 rows.

(** A search changes the cache of its index. *)
Definition search_text (name : string) (query : bytes) (search_options : TextIndex.SearchOptions) : M (list TextIndex.SearchHit) :=
  locked (fun store derived =>
    match text derived !! name with
    | None => Some (Err (TextIndexNotFound name), store, derived)
    | Some index =>
        let '(r, index) := TextIndex.search to_lowercase find_latin find_cjk ln query search_options index in
        Some (lift TextFailed r, store,
              mk_DerivedState (indexes derived) (datetimes derived) (compound derived) (<[name := index]> (text derived))
                (text_definitions derived) (access derived))
    end).

Definition search (clock : nat -> Z) (name : string) (query : bytes) (search_options : TextIndex.SearchOptions)
    : M (list (SearchDocumentRecord V)) :=
  hits ← search_text name query search_options;
  fetch TextIndex.hit_key (fun key value hit => mk_SearchDocumentRecord key value (TextIndex.score hit)) clock 0 hits.

(** ** Queries *)

(** [partial_cmp] of two [Option<f64>]. *)
Definition compare_floats (x y : option spec_float) : option comparison :=
  match x, y with
  | Some x, Some y => SFcompare x y
  | None, None => Some Eq
  | None, Some _ => Some Lt
  | Some _, None => Some Gt
  end.

Definition compare_json_path (left right : Value) (path : string) : comparison :=
  let x := default Query.Null (Query.get_path left path) in
  let y := default Query.Null (Query.get_path right path) in
  match x, y with
  | Query.Num x, Query.Num y => default Eq (compare_floats (number_as_f64 x) (number_as_f64 y))
  | Query.Str x, Query.Str y => String.compare x y
  | _, _ => String.compare (json_text x) (json_text y)
  end.

Fixpoint compare_paths (sort : list (string * Z)) (left right : Value) : comparison :=
  match sort with
  | [] => Eq
  | (path, direction) :: sort =>
      match compare_json_path left right path with
      | Eq => compare_paths sort left right
      | order => if direction <? 0 then CompOpp order else order
      end
  end.

Definition document_value (value : V) : Value := default Query.Null (index_value codec value).

Definition query_keys (clock : nat -> Z) (key : option KeyQuery) : M (list bytes) :=
  match key with
  | Some key =>
      match exact key, key_prefix key with
      | Some exact, _ => mret [exact]
      | None, Some prefix =>
          with_store (Store.raw_keys dt_json clock
            (mk_RangeOptions (Some prefix) None None (Some (prefix ++ Store.UFFFF)) 0 None false))
      | None, None => with_store (Store.raw_keys dt_json clock (key_range key))
      end
  | None => with_store (Store.raw_keys dt_json clock (RangeOptions_default (K := bytes)))
  end.

(** The keys of a column's rows are the strings' bytes. *)
Fixpoint retain_datetimes (ranges : list (string * RangeOptions Z)) (keys : list bytes) : M (list bytes) :=
  match ranges with
  | [] => mret keys
  | (column, range) :: ranges =>
      derived ← asks (fun self : Db => derived self);
      rows ← or_panic (DtIndex.range column range (datetimes derived));
      let allowed := map DtIndex.key rows in
      retain_datetimes ranges (filter (fun key => key ∈ allowed) keys)
  end.

(** The place of a key among the hits; a later hit of the key counts. *)
Fixpoint ranks (i : Z) (hits : list TextIndex.SearchHit) (rank : gmap bytes Z) : gmap bytes Z :=
  match hits with
  | [] => rank
  | hit :: hits => ranks (i + 1) hits (<[key_bytes (TextIndex.hit_key hit) := i]> rank)
  end.

Definition matches (filter : option Value) (value : V) : bool :=
  match filter with
  | None => true
  | Some filter =>
      match index_value codec value with
      | None => false
      | Some document => Query.matches_filter number_as_f64 number_eqb regex_is_match document (Query.as_object filter)
      end
  end.

(** A projection goes through the text of the projected document. *)
Definition projected (fields : option (list string)) (value : V) : M V :=
  match fields, index_value codec value with
  | Some fields, Some document =>
      projected ← or_panic (Query.project document fields);
      of_result (lift CodecFailed (decode codec (String.list_byte_of_string (json_text projected))))
  | _, _ => mret value
  end.

Fixpoint collect (clock : nat -> Z) (i : nat) (query : QueryOptions Number) (keys : list bytes) : M (list (DocumentRecord V)) :=
  match keys with
  | [] => mret []
  | key :: keys =>
      record ← get_record key (clock i);
      match record with
      | None => collect clock (S i) query keys
      | Some record =>
          if matches (q_filter query) (doc_value record) then
            value ← projected (q_project query) (doc_value record);
            rest ← collect clock (S i) query keys;
            mret (mk_DocumentRecord (doc_key record) value (doc_datetimes record) :: rest)
          else collect clock (S i) query keys
      end
  end.

Definition by_rank (rank : gmap bytes Z) (left right : DocumentRecord V) : comparison :=
  Z.compare (default U64_MAX (rank !! doc_key left)) (default U64_MAX (rank !! doc_key right)).
Definition by_paths (sort : list (string * Z)) (left right : DocumentRecord V) : comparison :=
  compare_paths sort (document_value (doc_value left)) (document_value (doc_value right)).

Definition page {A} (skip : Z) (limit : option Z) (documents : list A) : list A :=
  let start := Z.min skip (zlen documents) in
  let stop := match limit with Some limit => Z.min (saturating_add start limit) (zlen documents) | None => zlen documents end in
  slice documents start stop.

Definition query (keys_clock clock : nat -> Z) (query : QueryOptions Number) : M (list (DocumentRecord V)) :=
  _ ← ensure_open;
  keys ← query_keys keys_clock (q_key query);
  keys ← retain_datetimes (q_datetimes query) keys;
  '(keys, rank) ← (match q_text query with
                   | Some text =>
                       hits ← search_text (text_index text) (text_query text) (text_options text);
                       let rank := ranks 0 hits ∅ in
                       mret (filter (fun key => is_Some (rank !! key)) keys, Some rank)
                   | None => mret (keys, None)
                   end);
  documents ← collect clock 0 query keys;
  let documents := match rank with Some rank => sort_by (by_rank rank) documents | None => documents end in
  let documents := match q_sort query with [] => documents | sort => sort_by (by_paths sort) documents end in
  mret (page (q_skip query) (q_limit query) documents).

(** ** Definitions of indexes *)

Definition ensure_json_codec (kind : string) : M () :=
  of_result (match codec_name codec with JsonName => Ok () | _ => Err (JsonCodecRequired kind) end).

Definition LiveJsonRecord : Type := bytes * (Value * option Store.Datetimes).

Definition live_record (entry : Store.StoreEntry) : option LiveJsonRecord :=
  document ← document_of codec (Some (Store.entry_value entry));
  Some (key_string (Store.entry_key entry), (document, Store.entry_datetimes entry)).

Definition live_json_documents_with_datetimes (now : Z) : M (list LiveJsonRecord) := fun self =>
  Some (match Store.entries read_value now (store self) with
        | Ok entries => Ok (omap live_record entries)
        | Err e => Err (StoreFailed e)
        end, self).

Definition live_json_documents (now : Z) : M (list (bytes * Value)) :=
  documents ← live_json_documents_with_datetimes now; mret (map (fun r => (r.1, r.2.1)) documents).

Definition on_derived {A} (f : DerivedState -> option (result MiniDbError A * DerivedState)) : M A :=
  locked (fun store derived => '(r, derived) ← f derived; Some (r, store, derived)).

Definition set_indexes (indexes : IndexManager.IndexManager NT) (derived : @DerivedState NT OT TT) : DerivedState :=
  mk_DerivedState indexes (datetimes derived) (compound derived) (text derived) (text_definitions derived) (access derived).
Definition set_compound (compound : CompoundIndex.CompoundIndexManager OT) (derived : @DerivedState NT OT TT) : DerivedState :=
  mk_DerivedState (indexes derived) (datetimes derived) compound (text derived) (text_definitions derived) (access derived).
Definition set_text (text : gmap string TextIndex.TextIndex) (definitions : list TextIndexDefinition)
    (derived : @DerivedState NT OT TT) : DerivedState :=
  mk_DerivedState (indexes derived) (datetimes derived) (compound derived) text definitions (access derived).

(** The new index is built with all the others, from the documents read before. *)
Definition install_index (value_of : f64 -> Value) (name : string) (definition : IndexManager.IndexDef)
    (documents : list (bytes * Value)) : M () :=
  on_derived (fun derived =>
    match IndexManager.create name definition (indexes derived) with
    | Err e => Some (Err (IndexFailed e), derived)
    | Ok created =>
        built ← IndexManager.rebuild number_as_f64 json_text number_text documents created;
        match IndexManager.assert_unique_valid json_text value_of name built with
        | Err e => Some (Err (IndexFailed e), set_indexes (IndexManager.drop_index name built).1 derived)
        | Ok _ => Some (Ok (), set_indexes built derived)
        end
    end).

Definition create_index (value_of : f64 -> Value) (now : Z) (persisted : result MiniDbError ()) (name : string)
    (definition : IndexManager.IndexDef) : M () :=
  _ ← ensure_json_codec "secondary";
  _ ← ensure_writable options;
  documents ← live_json_documents now;
  _ ← install_index value_of name definition documents;
  of_result persisted.

Definition drop_index (persisted : result MiniDbError ()) (name : string) : M bool :=
  _ ← ensure_writable options;
  dropped ← on_derived (fun derived =>
    let '(indexes, dropped) := IndexManager.drop_index name (indexes derived) in Some (Ok dropped, set_indexes indexes derived));
  _ ← of_result persisted;
  mret dropped.

Definition list_indexes : M (list IndexManager.IndexInfo) :=
  asks (fun self : Db => IndexManager.list_indexes (indexes (derived self))).

Definition install_compound_index (name : string) (definition : CompoundIndex.CompoundIndexDef)
    (documents : list LiveJsonRecord) : M () :=
  on_derived (fun derived =>
    match CompoundIndex.create name definition (compound derived) with
    | Err e => Some (Err (CompoundFailed e), derived)
    | Ok created =>
        built ← CompoundIndex.rebuild number_as_f64 json_text documents created;
        Some (Ok (), set_compound built derived)
    end).

Definition create_compound_index (now : Z) (persisted : result MiniDbError ()) (name : string)
    (definition : CompoundIndex.CompoundIndexDef) : M () :=
  _ ← ensure_json_codec "compound";
  _ ← ensure_writable options;
  documents ← live_json_documents_with_datetimes now;
  _ ← install_compound_index name definition documents;
  of_result persisted.

Definition drop_compound_index (persisted : result MiniDbError ()) (name : string) : M bool :=
  _ ← ensure_writable options;
  dropped ← on_derived (fun derived =>
    let '(compound, dropped) := CompoundIndex.drop_index name (compound derived) in Some (Ok dropped, set_compound compound derived));
  _ ← of_result persisted;
  mret dropped.

Definition list_compound_indexes : M (list CompoundIndex.CompoundIndexInfo) :=
  asks (fun self : Db => CompoundIndex.list_indexes (compound (derived self))).

(** [disk] is the file of the postings before, and [outcomes] what the calls on it do. *)
Definition create_text_index (now : Z) (disk : option bytes) (outcomes : Postings.RebuildIo)
    (persisted : result MiniDbError ()) (name : string) (fields : option (list string)) : M () :=
  _ ← ensure_json_codec "text";
  _ ← ensure_writable options;
  documents ← live_json_documents now;
  let index := TextIndex.new (TextIndex.mk_TextIndexOptions fields (Some (text_postings_path name)) None) in
  let '(_, built, index) := TextIndex.build to_lowercase find_latin find_cjk documents outcomes disk index in
  _ ← of_result (lift TextFailed built);
  _ ← on_derived (fun derived =>
    if decide (is_Some (text derived !! name)) then Some (Err (TextIndexExists name), derived)
    else Some (Ok (), set_text (<[name := index]> (text derived))
                        (text_definitions derived ++ [mk_TextIndexDefinition name fields]) derived));
  match persisted with
  | Ok _ => mret tt
  | Err e =>
      _ ← on_derived (fun derived =>
        Some (Ok (), set_text (delete name (text derived))
                       (filter (fun definition => def_name definition <> name) (text_definitions derived)) derived));
      of_result (Err e)
  end.

Definition drop_text_index (persisted : result MiniDbError ()) (name : string) : M bool :=
  _ ← ensure_writable options;
  dropped ← on_derived (fun derived =>
    Some (Ok (bool_decide (is_Some (text derived !! name))),
          set_text (delete name (text derived))
            (filter (fun definition => def_name definition <> name) (text_definitions derived)) derived));
  _ ← of_result persisted;
  mret dropped.

Definition list_text_indexes : M (list (string * option (list string))) :=
  asks (fun self : Db => map (fun definition => (def_name definition, def_fields definition)) (text_definitions (derived self))).

(** ** Rebuilding the derived state *)

(** The files of the postings are those of a directory by name. *)
Definition put_file (path : option string) (contents : option bytes) (files : gmap string bytes) : gmap string bytes :=
  match path, contents with
  | Some path, Some contents => <[path := contents]> files
  | Some path, None => delete path files
  | None, _ => files
  end.

Fixpoint build_texts (documents : list (bytes * Value)) (outcomes : string -> Postings.RebuildIo)
    (texts : list (string * TextIndex.TextIndex)) (text : gmap string TextIndex.TextIndex) (files : gmap string bytes)
    : result MiniDbError () * gmap string TextIndex.TextIndex * gmap string bytes :=
  match texts with
  | [] => (Ok (), text, files)
  | (name, index) :: texts =>
      let disk := path ← TextIndex.path index; files !! path in
      let '(disk, built, index) := TextIndex.build to_lowercase find_latin find_cjk documents (outcomes name) disk index in
      let files := put_file (TextIndex.path index) disk files in
      let text := <[name := index]> text in
      match built with
      | Ok _ => build_texts documents outcomes texts text files
      | Err e => (Err (TextFailed e), text, files)
      end
  end.

Definition rebuild_derived (now : Z) (outcomes : string -> Postings.RebuildIo) (store : Store.Store KT) (derived : DerivedState)
    (files : gmap string bytes) : option (result MiniDbError () * @DerivedState NT OT TT * gmap string bytes) :=
  match Store.entries read_value now store with
  | Err e => Some (Err (StoreFailed e), derived, files)
  | Ok entries =>
      let documents := omap live_record entries in
      let plain := map (fun r : LiveJsonRecord => (r.1, r.2.1)) documents in
      indexes ← IndexManager.rebuild number_as_f64 json_text number_text plain (indexes derived);
      datetimes ← DtIndex.rebuild (map (fun e => (key_string (Store.entry_key e), Store.entry_datetimes e)) entries) (datetimes derived);
      compound ← CompoundIndex.rebuild number_as_f64 json_text documents (compound derived);
      let '(r, text, files) := build_texts plain outcomes (map_to_list (text derived)) (text derived) files in
      Some (r, mk_DerivedState indexes datetimes compound text (text_definitions derived) (access derived), files)
  end.

(** With the files afterwards. *)
Definition rebuild_text_indexes (now : Z) (outcomes : string -> Postings.RebuildIo) (files : gmap string bytes)
    : M (gmap string bytes) :=
  locked (fun store derived =>
    match Store.entries read_value now store with
    | Err e => Some (Err (StoreFailed e), store, derived)
    | Ok entries =>
        let plain := map (fun r : LiveJsonRecord => (r.1, r.2.1)) (omap live_record entries) in
        let '(r, text, files) := build_texts plain outcomes (map_to_list (text derived)) (text derived) files in
        Some (match r with Ok _ => Ok files | Err e => Err e end, store, set_text text (text_definitions derived) derived)
    end).

(** ** Following the log of a writer *)

Definition apply_recovered (operation : Recovery.RecoveredOp) (now : nat -> Z) : M () :=
  match operation with
  | Recovery.OpDel key =>
      old ← with_store (Store.get dt_json read_value key (now 0%nat));
      old ← of_result (lift StoreFailed old);
      locked (fun store derived =>
        '(deleted, store) ← Store.del dt_json key store;
        if (deleted : bool) then derived ← apply_derived_delete key derived; Some (Ok (), store, derived)
        else Some (Ok (), store, derived))
  | Recovery.OpSet key value_ref expire_at datetimes =>
      old ← with_store (Store.get dt_json read_value key (now 0%nat));
      old ← of_result (lift StoreFailed old);
      _ ← with_store (fun store => store ← Store.set_ref dt_json key value_ref expire_at datetimes store; Some ((), store));
      bytes ← with_store (Store.get dt_json read_value key (now 1%nat));
      bytes ← of_result (lift StoreFailed bytes);
      match bytes with
      | None => mret tt
      | Some bytes =>
          value ← of_result (lift CodecFailed (decode codec bytes));
          locked (fun store derived =>
            derived ← apply_derived_set key (document_of codec old) (index_value codec value) datetimes derived;
            Some (Ok (), store, set_access (touch key (access derived)) derived))
      end
  end.

Fixpoint apply_recovered_all (now : nat -> nat -> Z) (i : nat) (operations : list Recovery.RecoveredOp) : M () :=
  match operations with
  | [] => mret tt
  | operation :: operations => _ ← apply_recovered operation (now i); apply_recovered_all now (S i) operations
  end.
End reads.
End MiniDbRead.
