(* ===== verification/MiniDbFacts.v ===== *)
(** * The database: what the derived state stands for

    Over the definitions of [MiniDb]: the derived state of a set of documents, how each
    change of a document changes it, and that it follows a store whose expired keys
    are still to be drained. *)

From Corelib Require Import SpecFloat.
From S2P Require Import Prelude.
From S2P Require Import Crc.
From S2P Require Import Codec.
From S2P Require Import OrdIndex.
From S2P Require Import SkipList.
From S2P Require Import SkipListFacts.
From S2P Require Import Store.
From S2P Require Import StoreFacts.
From S2P Require Import StoreExpiry.
From S2P Require Import Recovery.
From S2P Require Import Wal.
From S2P Require Import DtIndex.
From S2P Require Import Query.
From S2P Require Import Float.
From S2P Require Import IndexManager.
From S2P Require Import IndexManagerFacts.
From S2P Require Import CompoundIndex.
From S2P Require Import CompoundIndexFacts.
From S2P Require Import Postings.
From S2P Require Import TextIndex.
From S2P Require Import TextIndexFacts.
From S2P Require Import MiniDb.
From S2P Require Import MiniDbRead.
Import OrdIndex Float MiniDb.

Module MiniDbFacts.

(** ** Keys *)

Definition char_ok (b : byte) : bool :=
  match char_of_byte b with
  | [c] => negb (TextIndex.is_continuation c) && bool_decide (byte_of (code_point [c]) = b)
  | [c; d] => negb (TextIndex.is_continuation c) && TextIndex.is_continuation d && bool_decide (byte_of (code_point [c; d]) = b)
  | _ => false
  end.

Lemma all_chars_ok b : char_ok b = true.
Proof. destruct b; vm_compute; reflexivity. Qed.

Lemma chars_key_string key : TextIndex.split_chars (key_string key) = ([], map char_of_byte key).
Proof.
  unfold key_string. induction key as [|b key IH]; [done|]. cbn [mbind list_bind map].
  pose proof (all_chars_ok b) as Hb. unfold char_ok in Hb. destruct (char_of_byte b) as [|c [|d [|e l]]]; try done.
  - apply andb_true_iff in Hb as [Hc%negb_true_iff _]. cbn [app TextIndex.split_chars].
    change (mbind char_of_byte key) with (key ≫= char_of_byte) in IH. rewrite IH, Hc. done.
  - apply andb_true_iff in Hb as [[Hc%negb_true_iff Hd]%andb_true_iff _]. cbn [app TextIndex.split_chars].
    rewrite IH, Hd, Hc. done.
Qed.

Lemma key_bytes_string key : key_bytes (key_string key) = key.
Proof.
  unfold key_bytes, TextIndex.chars. rewrite chars_key_string. cbn [snd]. rewrite map_map.
  induction key as [|b key IH]; [done|]. cbn [map]. f_equal; [|done].
  pose proof (all_chars_ok b) as Hb. unfold char_ok in Hb.
  destruct (char_of_byte b) as [|c [|d [|e l]]]; try done; apply andb_true_iff in Hb as [_ Hb];
    by apply bool_decide_eq_true in Hb.
Qed.

#[export] Instance key_string_inj : Inj (=) (=) key_string.
Proof. intros x y E. by rewrite <- (key_bytes_string x), E, key_bytes_string. Qed.

(** ** The derived state of a set of documents *)

(** The fields the text indexes take, the definitions of the secondary indexes, and the
    keys whose documents these may have left out: a rebuild leaves out documents that
    are not objects, an add does not. *)
Class InUse := {
  text_fields : option (list string) -> Prop;
  index_infos : IndexManager.IndexInfo -> Prop;
  forgotten : bytes -> Prop;
}.

Section facts.
Context {Number V : Type} `{!Platform Number} `{Crc32fastOk} `{!InUse}.
Context {KT NT OT TT : Type}.
Context `{!OrderedIndex KT bytes bytes} `{!OrderedIndex NT f64 bytes}.
Context `{!OrderedIndex OT CompoundIndex.OrderValue bytes} `{!OrderedIndex TT Z bytes}.
Context (krepr : KT -> list (bytes * bytes) -> Prop) `{!OrderedIndexLaws bytes_cmp bytes_cmp krepr}.
Context (nrepr : NT -> list (f64 * bytes) -> Prop) `{!OrderedIndexLaws compare_number bytes_cmp nrepr}.
Context (orepr : OT -> list (CompoundIndex.OrderValue * bytes) -> Prop)
  `{!OrderedIndexLaws CompoundIndex.compare_order bytes_cmp orepr}.
Context (trepr : TT -> list (Z * bytes) -> Prop) `{!OrderedIndexLaws Z.compare bytes_cmp trepr}.
Abbreviation Value := (@Query.Value Number).
Abbreviation Doc := (Value * option Store.Datetimes)%type.
Abbreviation Derived := (@DerivedState NT OT TT).
Abbreviation Db := (@MiniDb.MiniDb KT NT OT TT).
Implicit Types (docs : gmap bytes Doc) (idocs : gmap bytes Value) (dts : gmap bytes Store.Datetimes) (derived : Derived).

(** A document whose terms and numbers the indexes in use can count. *)
Definition small (d : Value) : Prop :=
  (forall fields, text_fields fields -> TextIndexFacts.countable to_lowercase find_latin find_cjk fields d) /\
  (forall i, index_infos i -> zlen (IndexManagerFacts.doc_numbers number_as_f64 i d) <= 2 ^ 31).

(** The secondary indexes hold the documents, but for forgotten ones. *)
Definition indexed_docs idocs docs : Prop :=
  forall pk, idocs !! pk = fst <$> docs !! pk \/
    (idocs !! pk = None /\ forgotten pk /\ exists d, docs !! pk = Some d /\ IndexManager.is_object d.1 = false).

Record derived_ok docs dts derived : Prop := {
  d_indexes : exists idocs, indexed_docs idocs docs /\
    IndexManagerFacts.manager_ok number_as_f64 json_text number_text nrepr idocs (indexes derived);
  d_infos name index : IndexManager.indexes (indexes derived) !! name = Some index -> index_infos (IndexManager.info index);
  d_compound : CompoundIndexFacts.compound_ok number_as_f64 json_text orepr docs (compound derived);
  d_text name index : text derived !! name = Some index ->
    TextIndexFacts.text_ok to_lowercase find_latin find_cjk (fst <$> docs) index /\ text_fields (TextIndex.fields index);
  d_dt : DtIndex.dt_ok trepr (datetimes derived);
  d_dts : DtIndex.by_key (datetimes derived) = dts;
  d_small pk d : docs !! pk = Some d -> small d.1;
}.

(** There is room for so many more documents. *)
Record roomy (n : Z) docs dts derived : Prop := {
  r_docs : Z.of_nat (size docs) + n <= 2 ^ 32;
  r_dts : Z.of_nat (size dts) + n <= 2 ^ 32;
  r_text name index : text derived !! name = Some index -> zlen (TextIndex.keys index) + n <= 2 ^ 32;
}.

Lemma docs_entries_bound idocs i :
  (forall pk d, idocs !! pk = Some d -> small d) -> index_infos i ->
  zlen (IndexManagerFacts.docs_entries number_as_f64 i idocs) <= 2 ^ 31 * Z.of_nat (size idocs).
Proof.
  intros Hs Hi. unfold IndexManagerFacts.docs_entries. rewrite <- length_map_to_list.
  assert (forall l : list (bytes * Value), (forall kd, kd ∈ l -> small kd.2) ->
    zlen (l ≫= fun kd => IndexManagerFacts.numbered kd.1 (IndexManagerFacts.doc_numbers number_as_f64 i kd.2)) <=
      2 ^ 31 * Z.of_nat (length l)) as Hl.
  { induction l as [|kd l IH]; intros Hl; [done|]. cbn [mbind list_bind]. rewrite zlen_app.
    pose proof (IH (fun kd' Hin => Hl kd' ltac:(by right))). destruct (Hl kd ltac:(by left)) as [_ Hn]. specialize (Hn i Hi).
    unfold IndexManagerFacts.numbered at 1. unfold zlen in *. rewrite length_map. cbn [mbind list_bind] in *. simpl (length _). lia. }
  apply Hl. intros [pk d] Hin%elem_of_map_to_list. by eapply Hs.
Qed.

Lemma indexed_size idocs docs : indexed_docs idocs docs -> (size idocs <= size docs)%nat.
Proof.
  intros Hi. rewrite <- !size_dom. apply subseteq_size. intros pk [d Hd]%elem_of_dom. apply elem_of_dom.
  destruct (Hi pk) as [E|[E _]]; [|congruence]. rewrite Hd in E. destruct (docs !! pk); [by eexists|done].
Qed.

Lemma indexed_small idocs docs derived dts pk d : derived_ok docs dts derived -> indexed_docs idocs docs -> idocs !! pk = Some d -> small d.
Proof.
  intros Hok Hi Hd. destruct (Hi pk) as [E|[E _]]; [|congruence]. rewrite Hd in E. symmetry in E.
  apply fmap_Some in E as (d' & Hd' & ->). by eapply d_small.
Qed.

Lemma indexed_insert idocs docs pk d : indexed_docs idocs docs -> indexed_docs (<[pk := d.1]> idocs) (<[pk := d]> docs).
Proof.
  intros Hi pk'. destruct (decide (pk' = pk)) as [->|Hne]; [left; by rewrite !lookup_insert_eq|].
  rewrite !lookup_insert_ne by done. apply Hi.
Qed.

Lemma indexed_delete idocs docs pk : indexed_docs idocs docs -> indexed_docs (delete pk idocs) (delete pk docs).
Proof.
  intros Hi pk'. destruct (decide (pk' = pk)) as [->|Hne]; [left; by rewrite !lookup_delete_eq|].
  rewrite !lookup_delete_ne by done. apply Hi.
Qed.

(** *** The indexes one by one *)

(** Adds a document to the secondary indexes, where it is not. *)
Lemma indexes_add_ok idocs pk (d : Value) (im : IndexManager.IndexManager NT) :
  IndexManagerFacts.manager_ok number_as_f64 json_text number_text nrepr idocs im -> idocs !! pk = None -> small d ->
  (forall name index, IndexManager.indexes im !! name = Some index -> index_infos (IndexManager.info index)) ->
  (forall pk d, idocs !! pk = Some d -> small d) -> Z.of_nat (size idocs) + 1 <= 2 ^ 32 ->
  exists im', IndexManager.add number_as_f64 json_text number_text pk d im = Some im' /\
    IndexManagerFacts.manager_ok number_as_f64 json_text number_text nrepr (<[pk := d]> idocs) im' /\
    IndexManager.info <$> IndexManager.indexes im' = IndexManager.info <$> IndexManager.indexes im.
Proof.
  intros Hok Hn Hd Hinf Hs Hsz.
  destruct (IndexManagerFacts.manager_add_ok number_as_f64 json_text number_text nrepr idocs pk d im Hok Hn)
    as (im' & ? & ? & ?); [|by exists im'].
  intros name index Hi. destruct index as [|ix]; [done|]. cbn [IndexManagerFacts.room].
  eapply Z.le_lt_trans; [apply docs_entries_bound|].
  - intros pk' d' [[<- <-]|[_ Hd']]%lookup_insert_Some; [done|by eapply Hs].
  - by apply (Hinf name _ Hi).
  - rewrite map_size_insert_None by done. unfold U64_MAX. lia.
Qed.

Lemma infos_kept (im im' : IndexManager.IndexManager NT) :
  IndexManager.info <$> IndexManager.indexes im' = IndexManager.info <$> IndexManager.indexes im ->
  (forall name index, IndexManager.indexes im !! name = Some index -> index_infos (IndexManager.info index)) ->
  forall name index, IndexManager.indexes im' !! name = Some index -> index_infos (IndexManager.info index).
Proof.
  intros E Hinf name index Hi. assert ((IndexManager.info <$> IndexManager.indexes im') !! name = Some (IndexManager.info index)) as Hf
    by (rewrite lookup_fmap, Hi; done).
  rewrite E, lookup_fmap in Hf. apply fmap_Some in Hf as (old & Ho & ->). by eapply Hinf.
Qed.

(** A step on every text index. *)
Lemma texts_ok (f : TextIndex.TextIndex -> option TextIndex.TextIndex) (ts : gmap string TextIndex.TextIndex)
    (P Q : TextIndex.TextIndex -> Prop) :
  (forall name index, ts !! name = Some index -> P index) ->
  (forall index, P index -> exists index', f index = Some index' /\ Q index') ->
  exists ts', each_value f ts = Some ts' /\ forall name index, ts' !! name = Some index -> Q index.
Proof.
  intros Hts Hf. destruct (each_value_spec f ts) as (ts' & -> & Hl).
  { intros name index Hi. destruct (Hf index (Hts _ _ Hi)) as (? & -> & _). by eexists. }
  exists ts'. split; [done|]. intros name index'. rewrite Hl. intros (index & Hi & E)%bind_Some.
  destruct (Hf index (Hts _ _ Hi)) as (? & E' & ?). congruence.
Qed.

(** ** Changing the derived state *)

Definition docs_after (pk : bytes) (new : option Value) (dt : option Store.Datetimes) docs : gmap bytes Doc :=
  match new with Some d => <[pk := (d, dt)]> docs | None => delete pk docs end.

Lemma docs_after_size pk new dt docs : (size (docs_after pk new dt docs) <= S (size docs))%nat.
Proof.
  unfold docs_after. destruct new as [d|].
  - pose proof (map_size_insert pk (d, dt) docs) as E. destruct (docs !! pk); simpl in E; lia.
  - pose proof (map_size_delete pk docs) as E. destruct (docs !! pk); simpl in E; lia.
Qed.

Lemma with_datetimes_size pk dt dts : (size (DtIndex.with_datetimes pk dt dts) <= S (size dts))%nat.
Proof.
  unfold DtIndex.with_datetimes. destruct (decide _).
  - pose proof (map_size_delete pk dts) as E. destruct (dts !! pk); simpl in E; lia.
  - match goal with |- (size (<[_ := ?x]> _) <= _)%nat => pose proof (map_size_insert pk x dts) as E end.
    destruct (dts !! pk); simpl in E; lia.
Qed.

Lemma text_step_ok docs (ts : gmap string TextIndex.TextIndex) pk new dt (n : Z) :
  (forall name index, ts !! name = Some index ->
     (TextIndexFacts.text_ok to_lowercase find_latin find_cjk (fst <$> docs) index /\ text_fields (TextIndex.fields index)) /\
     zlen (TextIndex.keys index) + (n + 1) <= 2 ^ 32) ->
  0 <= n -> (forall d, new = Some d -> small d) ->
  exists ts', match new with Some d => text_add pk d ts | None => text_remove pk ts end = Some ts' /\
    forall name index, ts' !! name = Some index ->
      (TextIndexFacts.text_ok to_lowercase find_latin find_cjk (fst <$> docs_after pk new dt docs) index /\ text_fields (TextIndex.fields index)) /\
      zlen (TextIndex.keys index) + n <= 2 ^ 32.
Proof.
  intros Hts Hn Hs. destruct new as [d|]; cbn [docs_after].
  - apply (texts_ok _ ts _ _ Hts). intros index [[Hok Hf] Hk]. rewrite fmap_insert. cbn [fst].
    destruct (TextIndexFacts.text_add_ok to_lowercase find_latin find_cjk (fst <$> docs) pk d index Hok)
      as (index' & ? & ? & Hf' & Hk'); [lia|by apply (Hs d)|]. exists index'. split; [done|]. rewrite Hf'. split; [done|lia].
  - apply (texts_ok _ ts _ _ Hts). intros index [[Hok Hf] Hk]. rewrite fmap_delete.
    destruct (TextIndexFacts.text_remove_ok to_lowercase find_latin find_cjk (fst <$> docs) pk index Hok)
      as (index' & ? & ? & _ & Hk' & Hf'). exists index'. split; [done|]. rewrite Hf'. split; [done|lia].
Qed.

Lemma derived_set_ok n docs dts derived key old new dt :
  derived_ok docs dts derived -> roomy (n + 1) docs dts derived -> 0 <= n ->
  (forall d, new = Some d -> small d) -> (old = None -> docs !! key_string key = None) ->
  let pk := key_string key in
  exists derived', apply_derived_set key old new dt derived = Some derived' /\
    derived_ok (docs_after pk new dt docs) (DtIndex.with_datetimes pk dt dts) derived' /\
    roomy n (docs_after pk new dt docs) (DtIndex.with_datetimes pk dt dts) derived' /\
    access derived' = access derived /\ text_definitions derived' = text_definitions derived.
Proof.
  intros [(idocs & Hidx & Him) Hinf Hcomp Htext Hdt Hdts Hsmall] [Rdocs Rdts Rtext] Hn Hs Hold pk.
  pose proof (docs_after_size pk new dt docs) as Hsz. pose proof (with_datetimes_size pk dt dts) as Hdsz.
  unfold apply_derived_set. fold pk.
  destruct (DtIndex.set_spec trepr (datetimes derived) pk dt Hdt) as (dti & -> & Hdt' & Hby); [rewrite Hdts; unfold U64_MAX; lia|].
  simpl_bind.
  assert (exists im, match old with Some _ => IndexManager.remove pk (indexes derived) | None => Some (indexes derived) end = Some im /\
    IndexManagerFacts.manager_ok number_as_f64 json_text number_text nrepr (delete pk idocs) im /\
    IndexManager.info <$> IndexManager.indexes im = IndexManager.info <$> IndexManager.indexes (indexes derived)) as (im & -> & Him' & Einf).
  { destruct old as [o|].
    - destruct (IndexManagerFacts.manager_remove_ok number_as_f64 json_text number_text nrepr idocs pk _ Him) as (im & ? & ? & ?). by exists im.
    - exists (indexes derived). split; [done|]. split; [|done]. rewrite delete_id; [done|]. destruct (Hidx pk) as [E|[E _]]; [|done].
      rewrite E. unfold pk. by rewrite Hold. }
  simpl_bind. pose proof (infos_kept _ _ Einf Hinf) as Hinf'. destruct (text_step_ok docs (text derived) pk new dt n) as (ts & Hts & Hts'); [intros name index Hi; split; eauto|done|done|].
  assert (forall pk' d, docs_after pk new dt docs !! pk' = Some d -> small d.1) as Hsmall'.
  { intros pk' d. unfold docs_after. destruct new as [v|].
    - intros [[<- <-]|[_ Hd]]%lookup_insert_Some; [by apply Hs|by eapply Hsmall].
    - intros [_ Hd]%lookup_delete_Some. by eapply Hsmall. }
  destruct new as [v|]; cbn [docs_after] in *.
  - destruct (indexes_add_ok (delete pk idocs) pk v im Him') as (im' & -> & Him'' & Einf'); [apply lookup_delete_eq|by apply Hs|exact Hinf'| | |].
    + intros pk' d' [_ Hd]%lookup_delete_Some. destruct (Hidx pk') as [E|[E _]]; [|congruence]. rewrite Hd in E.
      symmetry in E. apply fmap_Some in E as (x & Hx & ->). by eapply Hsmall.
    + pose proof (indexed_size _ _ (indexed_delete _ _ pk Hidx)). pose proof (map_size_delete pk docs) as E.
      destruct (docs !! pk); simpl in E; lia.
    + simpl_bind. destruct (CompoundIndexFacts.compound_add_ok number_as_f64 json_text orepr docs pk (v, dt) _ Hcomp)
        as (cm & Hcm & Hcomp'); [unfold U64_MAX; lia|]. cbn [fst snd] in Hcm. rewrite Hcm. simpl_bind. rewrite Hts. simpl_bind.
      eexists. split; [reflexivity|]. split; [|split; [|by split]].
      * constructor; cbn [indexes compound text datetimes]; [|by eapply infos_kept|done|by intros name index []%Hts'|done|congruence|done].
        exists (<[pk := v]> idocs). split; [apply (indexed_insert idocs docs pk (v, dt) Hidx)|]. by rewrite <- insert_delete_eq.
      * constructor; cbn [text]; [lia|lia|by intros name index []%Hts'].
  - destruct (CompoundIndexFacts.compound_remove_ok number_as_f64 json_text orepr docs pk _ Hcomp) as (cm & -> & Hcomp').
    simpl_bind. rewrite Hts. simpl_bind. eexists. split; [reflexivity|]. split; [|split; [|by split]].
    + constructor; cbn [indexes compound text datetimes]; [|exact Hinf'|done|by intros name index []%Hts'|done|congruence|done].
      exists (delete pk idocs). split; [by apply indexed_delete|done].
    + constructor; cbn [text]; [lia|lia|by intros name index []%Hts'].
Qed.

Lemma derived_delete_ok n docs dts derived key :
  derived_ok docs dts derived -> roomy n docs dts derived -> 0 <= n ->
  let pk := key_string key in
  exists derived', apply_derived_delete key derived = Some derived' /\
    derived_ok (delete pk docs) (delete pk dts) derived' /\ roomy n (delete pk docs) (delete pk dts) derived' /\
    access derived' = filter (fun entry => entry <> key) (access derived) /\ text_definitions derived' = text_definitions derived.
Proof.
  intros [(idocs & Hidx & Him) Hinf Hcomp Htext Hdt Hdts Hsmall] [Rdocs Rdts Rtext] Hn pk.
  assert (size (delete pk docs) <= size docs)%nat as Hsz
    by (pose proof (map_size_delete pk docs) as E; destruct (docs !! pk); simpl in E; lia).
  assert (size (delete pk dts) <= size dts)%nat as Hdsz
    by (pose proof (map_size_delete pk dts) as E; destruct (dts !! pk); simpl in E; lia).
  unfold apply_derived_delete. fold pk. rewrite (DtIndex.delete_key_as_set trepr) by done.
  destruct (DtIndex.set_spec trepr (datetimes derived) pk None Hdt) as (dti & -> & Hdt' & Hby); [rewrite Hdts; unfold U64_MAX; lia|].
  unfold DtIndex.with_datetimes in Hby. rewrite decide_True, Hdts in Hby by done. simpl_bind.
  destruct (CompoundIndexFacts.compound_remove_ok number_as_f64 json_text orepr docs pk _ Hcomp) as (cm & -> & Hcomp'). simpl_bind.
  destruct (IndexManagerFacts.manager_remove_ok number_as_f64 json_text number_text nrepr idocs pk _ Him) as (im & -> & Him' & Einf). simpl_bind.
  assert (exists ts, text_remove pk (text derived) = Some ts /\ forall name index, ts !! name = Some index ->
    (TextIndexFacts.text_ok to_lowercase find_latin find_cjk (fst <$> delete pk docs) index /\ text_fields (TextIndex.fields index)) /\
    zlen (TextIndex.keys index) + n <= 2 ^ 32) as (ts & -> & Hts).
  { apply (texts_ok _ _ (fun index => (TextIndexFacts.text_ok to_lowercase find_latin find_cjk (fst <$> docs) index /\ text_fields (TextIndex.fields index)) /\
      zlen (TextIndex.keys index) + n <= 2 ^ 32)); [intros name index Hi; split; eauto|].
    intros index [[Hok Hf] Hk]. rewrite fmap_delete.
    destruct (TextIndexFacts.text_remove_ok to_lowercase find_latin find_cjk (fst <$> docs) pk index Hok)
      as (index' & ? & ? & _ & Hk' & Hf'). exists index'. split; [done|]. rewrite Hf'. split; [done|lia]. }
  simpl_bind. eexists. split; [reflexivity|]. split; [|split; [|by split]].
  - constructor; cbn [indexes compound text datetimes]; [|by eapply infos_kept|done|by intros name index []%Hts|done|done|].
    + exists (delete pk idocs). split; [by apply indexed_delete|done].
    + intros pk' d [_ Hd]%lookup_delete_Some. by eapply Hsmall.
  - constructor; cbn [text]; [lia|lia|by intros name index []%Hts].
Qed.

Lemma derived_ok_access docs dts derived l : derived_ok docs dts derived -> derived_ok docs dts (set_access l derived).
Proof. intros [Hi Hf Hc Ht Hd Hdd Hs]. by constructor. Qed.

Lemma roomy_access n docs dts derived l : roomy n docs dts derived -> roomy n docs dts (set_access l derived).
Proof. intros [Hd Hdd Ht]. by constructor. Qed.

(** ** The derived state and the store *)

Context (codec : ValueCodec Number V) (options : OpenOptions).
Context (read_value : option (Store.ValueLoc -> result Store.StoreError bytes)).

Definition value_of (r : Store.StoreRecord) : option bytes :=
  match Store.materialize read_value (Store.value_ref r) with Ok value => Some value | Err _ => None end.

(** What the derived state holds for a record. *)
Definition doc_of (r : option Store.StoreRecord) : option Doc :=
  r ← r; d ← document_of codec (value_of r); Some (d, Store.datetimes r).
Definition datetimes_of (r : option Store.StoreRecord) : option Store.Datetimes :=
  r ← r; if decide (default ∅ (Store.datetimes r) = ∅) then None else Store.datetimes r.

(** The derived state stands for the store, but for the keys that have expired and are
    still to be drained; these are not in the store. *)
Record follows (store : Store.Store KT) docs dts : Prop := {
  f_docs key : key ∉ (Store.expired store).*1 -> docs !! key_string key = doc_of (Store.records store !! key);
  f_dts key : key ∉ (Store.expired store).*1 -> dts !! key_string key = datetimes_of (Store.records store !! key);
  f_keys pk : is_Some (docs !! pk) \/ is_Some (dts !! pk) -> exists key, pk = key_string key;
  f_expired key : key ∈ (Store.expired store).*1 -> Store.records store !! key = None;
}.

(** A store and a derived state that stands for it, with room for [n] more documents. *)
Definition pair_ok (n : Z) (store : Store.Store KT) derived : Prop :=
  exists docs dts, StoreExpiry.well_formed krepr dt_json store /\ follows store docs dts /\
    derived_ok docs dts derived /\ roomy n docs dts derived /\ Z.of_nat (size (Store.records store)) + n <= 2 ^ 32.

Definition db_ok (n : Z) (self : Db) : Prop := pair_ok n (store self) (derived self).

(** *** Draining *)

Lemma drain_loop n gone docs dts derived :
  derived_ok docs dts derived -> roomy n docs dts derived -> 0 <= n ->
  exists derived', foldM (fun derived (kr : bytes * Store.StoreRecord) => apply_derived_delete kr.1 derived) derived gone = Some derived' /\
    let docs' := fold_left (fun m (kr : bytes * Store.StoreRecord) => delete (key_string kr.1) m) gone docs in
    let dts' := fold_left (fun m (kr : bytes * Store.StoreRecord) => delete (key_string kr.1) m) gone dts in
    derived_ok docs' dts' derived' /\ roomy n docs' dts' derived'.
Proof.
  revert docs dts derived. induction gone as [|kr gone IH]; intros docs dts derived Hok Hr Hn; [by exists derived|].
  cbn [foldM fold_left]. destruct (derived_delete_ok n docs dts derived kr.1 Hok Hr Hn) as (derived1 & -> & Hok1 & Hr1 & _).
  simpl_bind. by apply IH.
Qed.

Lemma delete_all_lookup {A} (gone : list (bytes * Store.StoreRecord)) (m : gmap bytes A) key :
  fold_left (fun m (kr : bytes * Store.StoreRecord) => delete (key_string kr.1) m) gone m !! key_string key =
    if decide (key ∈ gone.*1) then None else m !! key_string key.
Proof.
  revert m. induction gone as [|kr gone IH]; intros m; [done|]. cbn [fold_left fmap list_fmap]. rewrite IH.
  destruct (decide (key ∈ gone.*1)) as [Hin|Hin]; [by rewrite decide_True by by right|].
  destruct (decide (key = kr.1)) as [->|Hne].
  - rewrite lookup_delete_eq. by rewrite decide_True by by left.
  - rewrite lookup_delete_ne by (by intros ?%(inj key_string)). rewrite decide_False; [done|]. by intros [?|?]%elem_of_cons.
Qed.

Lemma delete_all_sub {A} (gone : list (bytes * Store.StoreRecord)) (m : gmap bytes A) :
  fold_left (fun m (kr : bytes * Store.StoreRecord) => delete (key_string kr.1) m) gone m ⊆ m.
Proof.
  revert m. induction gone as [|kr gone IH]; intros m; [done|]. cbn [fold_left]. etrans; [apply IH|]. apply delete_subseteq.
Qed.

Definition drained (store : Store.Store KT) : Store.Store KT :=
  Store.mk_Store (Store.records store) (Store.order store) (Store.expirations store) [] (Store.sequence store)
    (Store.bytes_used store) (Store.expiring store).

Lemma follows_drained store docs dts :
  follows store docs dts ->
  follows (drained store) (fold_left (fun m (kr : bytes * Store.StoreRecord) => delete (key_string kr.1) m) (Store.expired store) docs)
    (fold_left (fun m (kr : bytes * Store.StoreRecord) => delete (key_string kr.1) m) (Store.expired store) dts).
Proof.
  intros [Fd Ft Fk Fe]. constructor; cbn [drained Store.records Store.expired].
  - intros key _. rewrite delete_all_lookup. destruct (decide _) as [Hin|Hin]; [|by apply Fd]. by rewrite Fe.
  - intros key _. rewrite delete_all_lookup. destruct (decide _) as [Hin|Hin]; [|by apply Ft]. by rewrite Fe.
  - intros pk Hs. apply Fk. destruct Hs as [[x Hx]|[x Hx]]; [left|right]; exists x;
      eapply lookup_weaken; [exact Hx|apply delete_all_sub|exact Hx|apply delete_all_sub].
  - intros key Hin. by apply elem_of_nil in Hin.
Qed.

Lemma well_formed_drained store : StoreExpiry.well_formed krepr dt_json store -> StoreExpiry.well_formed krepr dt_json (drained store).
Proof. intros [ks [Ho Hk Hb He Hh]]. exists ks. by split. Qed.

Lemma drain_ok n store derived : pair_ok n store derived -> 0 <= n ->
  exists derived', drain_expired store derived = Some (drained store, derived') /\ pair_ok n (drained store) derived'.
Proof.
  intros (docs & dts & Hw & Hf & Hok & Hr & Hsz) Hn. unfold drain_expired. cbn [Store.take_expired].
  destruct (drain_loop n (Store.expired store) docs dts derived Hok Hr Hn) as (derived' & -> & Hok' & Hr'). simpl_bind.
  exists derived'. split; [reflexivity|]. eexists _, _. split_and!; [by apply well_formed_drained|by apply follows_drained|done..].
Qed.

(** *** Changes of one key *)

Lemma follows_leaves store store' docs dts :
  follows store docs dts -> StoreExpiry.leaves krepr dt_json store store' -> follows store' docs dts.
Proof.
  intros [Fd Ft Fk Fe] [_ [Hs _] (gone & Hx & Hg)].
  assert (forall key, key ∉ (Store.expired store').*1 ->
    key ∉ (Store.expired store).*1 /\ Store.records store' !! key = Store.records store !! key) as Hkeep.
  { intros key Hn. rewrite Hx, fmap_app, elem_of_app in Hn. split; [tauto|].
    destruct (Store.records store' !! key) as [r|] eqn:E; [symmetry; by eapply lookup_weaken|].
    destruct (Store.records store !! key) as [r|] eqn:E'; [|done]. destruct Hn. right.
    apply list_elem_of_fmap. exists (key, r). split; [done|]. by apply Hg. }
  constructor.
  - intros key Hn. destruct (Hkeep key Hn) as [? ->]. by apply Fd.
  - intros key Hn. destruct (Hkeep key Hn) as [? ->]. by apply Ft.
  - done.
  - intros key. rewrite Hx, fmap_app, elem_of_app. intros [Hin|([k r] & -> & [_ ?]%Hg)%list_elem_of_fmap]; [|done].
    specialize (Fe key Hin). destruct (Store.records store' !! key) as [r|] eqn:E; [|done].
    pose proof (lookup_weaken _ _ _ _ E Hs). congruence.
Qed.

Lemma pair_leaves n store store' derived :
  pair_ok n store derived -> StoreExpiry.leaves krepr dt_json store store' -> pair_ok n store' derived.
Proof.
  intros (docs & dts & Hw & Hf & Hok & Hr & Hsz) Hl. exists docs, dts. pose proof Hl as [Hw' [Hs _] _].
  split_and!; [done|by eapply follows_leaves|done..|]. pose proof (map_subseteq_size _ _ Hs). lia.
Qed.

Lemma pair_access n store derived l : pair_ok n store derived -> pair_ok n store (set_access l derived).
Proof.
  intros (docs & dts & Hw & Hf & Hok & Hr & Hsz). exists docs, dts.
  split_and!; try done; [by apply derived_ok_access|by apply roomy_access].
Qed.

(** A change of a store and of what stands for it, at one key. *)
Lemma follows_at key store store' docs docs' dts dts' :
  follows store docs dts ->
  (forall k, k <> key -> Store.records store' !! k = Store.records store !! k /\
     (k ∈ (Store.expired store').*1 <-> k ∈ (Store.expired store).*1)) ->
  (forall pk, pk <> key_string key -> docs' !! pk = docs !! pk /\ dts' !! pk = dts !! pk) ->
  (key ∈ (Store.expired store').*1 -> Store.records store' !! key = None) ->
  (key ∉ (Store.expired store').*1 -> docs' !! key_string key = doc_of (Store.records store' !! key) /\
     dts' !! key_string key = datetimes_of (Store.records store' !! key)) ->
  follows store' docs' dts'.
Proof.
  intros [Fd Ft Fk Fe] Hother Hpk Hin Hout. constructor.
  - intros k Hk. destruct (decide (k = key)) as [->|Hne]; [by apply Hout|]. destruct (Hother k Hne) as [-> Hi].
    destruct (Hpk (key_string k)) as [-> _]; [by intros ?%(inj key_string)|]. apply Fd. by rewrite <- Hi.
  - intros k Hk. destruct (decide (k = key)) as [->|Hne]; [by apply Hout|]. destruct (Hother k Hne) as [-> Hi].
    destruct (Hpk (key_string k)) as [_ ->]; [by intros ?%(inj key_string)|]. apply Ft. by rewrite <- Hi.
  - intros pk Hs. destruct (decide (pk = key_string key)) as [->|Hne]; [by exists key|].
    destruct (Hpk pk Hne) as [Ed Et]. apply Fk. by rewrite <- Ed, <- Et.
  - intros k Hk. destruct (decide (k = key)) as [->|Hne]; [by apply Hin|]. destruct (Hother k Hne) as [-> Hi].
    apply Fe. by apply Hi.
Qed.

Lemma docs_after_ne pk new dt docs pk' : pk' <> pk -> docs_after pk new dt docs !! pk' = docs !! pk'.
Proof. intros Hne. unfold docs_after. destruct new; [by rewrite lookup_insert_ne|by rewrite lookup_delete_ne]. Qed.

Lemma with_datetimes_ne pk dt dts pk' : pk' <> pk -> DtIndex.with_datetimes pk dt dts !! pk' = dts !! pk'.
Proof. intros Hne. unfold DtIndex.with_datetimes. case_decide; [by rewrite lookup_delete_ne|by rewrite lookup_insert_ne]. Qed.

Lemma after_doc key r docs dts :
  docs_after (key_string key) (document_of codec (value_of r)) (Store.datetimes r) docs !! key_string key = doc_of (Some r) /\
  DtIndex.with_datetimes (key_string key) (Store.datetimes r) dts !! key_string key = datetimes_of (Some r).
Proof.
  unfold docs_after, DtIndex.with_datetimes, doc_of, datetimes_of. cbn [mbind option_bind]. split.
  - destruct (document_of codec (value_of r)); [by rewrite lookup_insert_eq|by rewrite lookup_delete_eq].
  - case_decide as E; [by rewrite lookup_delete_eq|]. rewrite lookup_insert_eq. by destruct (Store.datetimes r).
Qed.
End facts.
End MiniDbFacts.
