(* ===== verification/WriteFacts.v ===== *)
(** * The database: what a write does

    The steps of a write over a store and the derived state that stands for it
    ([MiniDbFacts.pair_ok]): applying an operation, undoing it, publishing where its
    value lies.  Assertions are about runs from a state: a run does not panic, and
    its result and its last state satisfy the assertion. *)

From Corelib Require Import SpecFloat.
From S2P Require Import Prelude.
From S2P Require Import Crc.
From S2P Require Import Codec.
From S2P Require Import OrdIndex.
From S2P Require Import Store.
From S2P Require Import StoreFacts.
From S2P Require Import StoreExpiry.
From S2P Require Import Recovery.
From S2P Require Import Wal.
From S2P Require Import DtIndex.
From S2P Require Import Query.
From S2P Require Import Float.
From S2P Require Import IndexManager.
From S2P Require Import CompoundIndex.
From S2P Require Import TextIndex.
From S2P Require Import TextIndexFacts.
From S2P Require Import MiniDb.
From S2P Require Import MiniDbRead.
From S2P Require Import MiniDbFacts.
Import OrdIndex Float MiniDb MiniDbFacts.

Module WriteFacts.

Section facts.
Context {Number V : Type} `{!Platform Number} `{Crc32fastOk} `{!InUse}.
Context {KT NT OT TT : Type}.
Context `{!OrderedIndex KT bytes bytes} `{!OrderedIndex NT f64 bytes}.
Context `{!OrderedIndex OT CompoundIndex.OrderValue bytes} `{!OrderedIndex TT Z bytes}.
Context (krepr : KT -> list (bytes * bytes) -> Prop) `{!OrderedIndexLaws bytes_cmp bytes_cmp krepr}.
Context (nrepr : NT -> list (f64 * bytes) -> Prop) `{!OrderedIndexLaws compare_number bytes_cmp nrepr}.
Context (orepr : OT -> list (CompoundIndex.OrderValue * bytes) -> Prop)
  `{!OrderedIndexLaws CompoundIndex.compare_order bytes_cmp orepr}.
Context (trepr : TT -> list (Z * bytes) -> Prop) `{!OrderedIndexLaws Z.compare bytes_cmp trepr}.
Context (codec : ValueCodec Number V) (options : OpenOptions).
Context (read_value : option (Store.ValueLoc -> result Store.StoreError bytes)).
Abbreviation Value := (@Query.Value Number).
Abbreviation Db := (@MiniDb.MiniDb KT NT OT TT).
Abbreviation Derived := (@DerivedState NT OT TT).
Abbreviation M := (@MiniDb.M KT NT OT TT).
Abbreviation Op := (@PreparedOp Number).
#[local] Existing Instance MiniDb.M_ret.
#[local] Existing Instance MiniDb.M_bind.
Abbreviation pair_ok := (MiniDbFacts.pair_ok krepr nrepr orepr trepr codec read_value).
Abbreviation db_ok := (MiniDbFacts.db_ok krepr nrepr orepr trepr codec read_value).
Abbreviation value_of := (MiniDbFacts.value_of read_value).
Abbreviation doc_of := (MiniDbFacts.doc_of codec read_value).
Implicit Types (self : Db) (operation : Op) (derived : Derived).

(** ** Runs *)

Definition runs {A} (c : M A) self (Q : result MiniDbError A -> Db -> Prop) : Prop :=
  exists r self', c self = Some (r, self') /\ Q r self'.

Lemma runs_mono {A} (c : M A) self (P Q : result MiniDbError A -> Db -> Prop) :
  runs c self P -> (forall r self', P r self' -> Q r self') -> runs c self Q.
Proof. intros (r & self' & E & HP) HQ. exists r, self'. auto. Qed.

Lemma runs_bind {A B} (c : M A) (f : A -> M B) self (Q : result MiniDbError B -> Db -> Prop) :
  runs c self (fun r self' => match r with Ok a => runs (f a) self' Q | Err e => Q (Err e) self' end) ->
  runs (c ≫= f) self Q.
Proof.
  intros (r & self' & E & HQ). unfold runs, mbind, M_bind. rewrite E. simpl_bind.
  destruct r as [a|e]; [exact HQ|by exists (Err e), self'].
Qed.

Lemma runs_of_result {A} (r : result MiniDbError A) self (Q : result MiniDbError A -> Db -> Prop) :
  Q r self -> runs (of_result r) self Q.
Proof. intros HQ. by exists r, self. Qed.

Lemma runs_ret {A} (a : A) self (Q : result MiniDbError A -> Db -> Prop) : Q (Ok a) self -> runs (mret a) self Q.
Proof. intros HQ. by exists (Ok a), self. Qed.

Lemma runs_locked {A} (f : Store.Store KT -> Derived -> option (result MiniDbError A * Store.Store KT * Derived)) self
    (Q : result MiniDbError A -> Db -> Prop) r store' derived' :
  f (store self) (derived self) = Some (r, store', derived') ->
  Q r (mk_MiniDb store' derived' (closed self) (stats self)) -> runs (locked f) self Q.
Proof. intros E HQ. unfold runs, locked. rewrite E. by eexists _, _. Qed.

Lemma runs_store {A} (f : Store.Store KT -> option (A * Store.Store KT)) self (Q : result MiniDbError A -> Db -> Prop) a store' :
  f (store self) = Some (a, store') ->
  Q (Ok a) (mk_MiniDb store' (derived self) (closed self) (stats self)) -> runs (with_store f) self Q.
Proof. intros E HQ. unfold runs, with_store. rewrite E. by eexists _, _. Qed.

(** ** Steps of a write on the store and the derived state *)

Lemma pair_mono n n' store derived : pair_ok n store derived -> n' <= n -> pair_ok n' store derived.
Proof.
  intros (docs & dts & Hw & Hf & Hok & [Rd Rt Rx] & Hsz) Hle. exists docs, dts. split_and!; try done; [|lia].
  constructor; [lia|lia|]. intros name index Hi. specialize (Rx name index Hi). lia.
Qed.

(** The derived state may already have lost the key. *)
Definition off_key (pk : bytes) {A} (m m' : gmap bytes A) : Prop := forall pk', pk' <> pk -> m' !! pk' = m !! pk'.

Lemma put_pair_ok n store derived docs dts docs1 dts1 key ref e dt old new :
  StoreExpiry.well_formed krepr dt_json store -> follows codec read_value store docs dts ->
  derived_ok nrepr orepr trepr docs1 dts1 derived -> roomy (n + 1) docs1 dts1 derived ->
  Z.of_nat (size (Store.records store)) + (n + 1) <= 2 ^ 32 -> 0 <= n ->
  off_key (key_string key) docs docs1 -> off_key (key_string key) dts dts1 ->
  key ∉ (Store.expired store).*1 -> (forall d, new = Some d -> small d) ->
  (old = None -> docs1 !! key_string key = None) ->
  exists store' derived', Store.set_ref dt_json key ref e dt store = Some store' /\
    apply_derived_set key old new dt derived = Some derived' /\
    StoreExpiry.well_formed krepr dt_json store' /\
    Store.records store' = <[key := StoreFacts.written store ref e dt]> (Store.records store) /\
    Store.expired store' = Store.expired store /\ Z.of_nat (size (Store.records store')) + n <= 2 ^ 32 /\
    derived_ok nrepr orepr trepr (docs_after (key_string key) new dt docs1) (DtIndex.with_datetimes (key_string key) dt dts1) derived' /\
    roomy n (docs_after (key_string key) new dt docs1) (DtIndex.with_datetimes (key_string key) dt dts1) derived' /\
    (new = document_of codec (value_of (StoreFacts.written store ref e dt)) -> pair_ok n store' derived').
Proof.
  intros Hw Hf Hok Hr Hsz Hn Ho1 Ho2 Hq Hs Hold.
  destruct (StoreExpiry.set_ref_ok krepr dt_json store key ref e dt Hw) as (store' & -> & Hw' & Hrec & Hx);
    [unfold U64_MAX; lia|].
  destruct (derived_set_ok nrepr orepr trepr n docs1 dts1 derived key old new dt Hok Hr Hn Hs Hold)
    as (derived' & -> & Hok' & Hr' & _).
  assert (Z.of_nat (size (Store.records store')) + n <= 2 ^ 32) as Hsz'.
  { rewrite Hrec. match goal with |- context [size (<[_ := ?r]> _)] => pose proof (map_size_insert key r (Store.records store)) as E end.
    destruct (Store.records store !! key); simpl in E; lia. }
  exists store', derived'. split_and!; try done. intros ->. eexists _, _. split_and!; [done| |exact Hok'|exact Hr'|done].
  eapply (follows_at codec read_value key); [exact Hf|..].
  - intros k Hne. rewrite Hrec, Hx. by rewrite lookup_insert_ne.
  - intros pk Hne. by rewrite docs_after_ne, with_datetimes_ne, Ho1, Ho2.
  - by rewrite Hx.
  - intros _. rewrite Hrec, lookup_insert_eq. apply (after_doc codec read_value key (StoreFacts.written store ref e dt)).
Qed.

Lemma take_pair_ok n store derived key :
  pair_ok n store derived -> 0 <= n -> key ∉ (Store.expired store).*1 ->
  exists store' derived', Store.del dt_json key store = Some (bool_decide (is_Some (Store.records store !! key)), store') /\
    apply_derived_delete key derived = Some derived' /\
    Store.records store' = delete key (Store.records store) /\ Store.expired store' = Store.expired store /\
    pair_ok n store' derived' /\ (Store.records store !! key = None -> pair_ok n store' derived).
Proof.
  intros (docs & dts & Hw & Hf & Hok & Hr & Hsz) Hn Hq.
  destruct (StoreExpiry.del_ok krepr dt_json store key Hw) as (store' & -> & Hw' & Hrec & Hx).
  destruct (derived_delete_ok nrepr orepr trepr n docs dts derived key Hok Hr Hn) as (derived' & -> & Hok' & Hr' & _).
  assert (Z.of_nat (size (Store.records store')) + n <= 2 ^ 32) as Hsz'.
  { rewrite Hrec. pose proof (map_size_delete key (Store.records store)) as E.
    destruct (Store.records store !! key); simpl in E; lia. }
  assert (forall k, k <> key -> Store.records store' !! k = Store.records store !! k /\
     (k ∈ (Store.expired store').*1 <-> k ∈ (Store.expired store).*1)) as Hother
    by (intros k Hne; by rewrite Hrec, Hx, lookup_delete_ne).
  exists store', derived'. split_and!; try done.
  - eexists _, _. split_and!; [done| |exact Hok'|exact Hr'|done]. eapply (follows_at codec read_value key); [exact Hf|done|..].
    + intros pk Hne. by rewrite !lookup_delete_ne.
    + by rewrite Hx.
    + intros _. by rewrite Hrec, !lookup_delete_eq.
  - intros Hnone. exists docs, dts. split_and!; try done. eapply (follows_at codec read_value key); [exact Hf|done|done|by rewrite Hx|].
    intros _. rewrite Hrec, lookup_delete_eq, <- Hnone. split; [by apply (f_docs _ _ _ _ _ Hf)|by apply (f_dts _ _ _ _ _ Hf)].
Qed.

(** ** Applying an operation *)

(** A prepared operation, with a document that can be indexed. *)
Definition op_ok operation : Prop :=
  op_pk operation = op_key operation /\
  ((op_type operation = Codec.TYPE_SET /\ exists value, op_value operation = Some value /\
      op_index_value operation = document_of codec (Some value) /\ (forall d, op_index_value operation = Some d -> small d)) \/
   op_type operation = Codec.TYPE_DEL).

Definition readable (r : Store.StoreRecord) : Prop :=
  exists value, Store.materialize read_value (Store.value_ref r) = Ok value /\
    forall d, document_of codec (Some value) = Some d -> small d.

(** The records after an operation on [m]. *)
Definition effect operation (sequence : Z) (m : gmap bytes Store.StoreRecord) : gmap bytes Store.StoreRecord :=
  if bool_decide (op_type operation = Codec.TYPE_SET) then
    <[op_pk operation := Store.mk_StoreRecord (Store.Memory (default [] (op_value operation))) (op_expire_at operation) sequence
        (op_datetimes operation)]> m
  else delete (op_pk operation) m.

Lemma apply_operation_ok n self operation now :
  db_ok (n + 1) self -> 0 <= n -> op_ok operation ->
  runs (apply_operation codec read_value operation now) self (fun r self' =>
    db_ok n self' /\ (op_type operation = Codec.TYPE_DEL -> db_ok (n + 1) self') /\
    closed self' = closed self /\ stats self' = stats self /\
    let m := StoreExpiry.cut now (op_pk operation) (Store.records (store self)) in
    Store.expired (store self') = [] /\
    match r with
    | Err e => m = Store.records (store self) /\ Store.records (store self') = m /\ exists x, e = StoreFailed x
    | Ok (previous, sequence) =>
        previous = m !! op_pk operation /\ (forall p, previous = Some p -> readable p) /\
        sequence = record_sequence (op_pk operation) (store self') /\
        exists s, Store.records (store self') = effect operation s m
    end).
Proof.
  intros Hok Hn [Hpk Hop]. unfold apply_operation. set (pk := op_pk operation) in *.
  destruct (drain_ok krepr nrepr orepr trepr codec read_value (n + 1) (store self) (derived self) Hok ltac:(lia))
    as (d1 & E1 & Hp1).
  set (s1 := drained (store self)) in *. pose proof Hp1 as (_ & _ & Hw1 & _).
  destruct (StoreExpiry.get_leaves krepr dt_json read_value s1 pk now Hw1) as (got & s2 & E2 & Hl2 & Hrec2 & Hgot).
  pose proof (pair_leaves krepr nrepr orepr trepr codec read_value _ _ _ _ Hp1 Hl2) as Hp2.
  change (Store.records s1) with (Store.records (store self)) in Hgot, Hrec2.
  set (m := StoreExpiry.cut now pk (Store.records (store self))) in *.
  assert (m !! pk = StoreExpiry.live_at now pk (Store.records (store self))) as Hm by apply StoreExpiry.cut_lookup.
  destruct got as [old_bytes|e].
  2:{ eapply runs_locked; [rewrite E1; simpl_bind; fold pk; rewrite E2; simpl_bind; reflexivity|].
      destruct (StoreExpiry.live_at _ _ _) as [r|] eqn:El; [|done].
      assert (m = Store.records (store self)) as Em by (unfold m, StoreExpiry.cut; by rewrite El).
      split_and!; cbn [store derived closed stats]; try done.
      - eapply pair_mono; [exact Hp2|lia].
      - destruct Hl2 as [_ _ (gone & Hx & Hg)]. rewrite Hx. cbn [s1 drained Store.expired app].
        destruct gone as [|[k r'] gone]; [done|]. destruct (proj1 (Hg k r') ltac:(by left)) as [Hk Hk'].
        change (Store.records s1) with (Store.records (store self)) in Hk. congruence.
      - by eexists. }
  destruct (drain_ok krepr nrepr orepr trepr codec read_value (n + 1) s2 d1 Hp2 ltac:(lia)) as (d2 & E3 & Hp3).
  set (s3 := drained s2) in *. change (Store.records s2) with (Store.records s3) in Hrec2.
  assert (old_bytes = (r ← m !! pk; value_of r) /\ forall p, m !! pk = Some p -> readable p) as [Hold Hread].
  { destruct (StoreExpiry.live_at _ _ _) as [r|] eqn:El; rewrite Hm; [|by injection Hgot as ->].
    destruct (Store.materialize read_value (Store.value_ref r)) as [value|] eqn:Ev; [|done]. injection Hgot as ->.
    split; [unfold MiniDbFacts.value_of; simpl; by rewrite Ev|]. intros p [= <-]. exists value. split; [done|]. intros d Hd.
    destruct Hp3 as (docs & dts & _ & Hf & Hd3 & _). eapply (d_small _ _ _ _ _ _ Hd3 (key_string pk) (d, Store.datetimes r)).
    rewrite (f_docs _ _ _ _ _ Hf) by (cbn [s3 drained Store.expired]; by intros ?%elem_of_nil).
    rewrite Hrec2, Hm. unfold MiniDbFacts.doc_of, MiniDbFacts.value_of. cbn [mbind option_bind]. rewrite Ev.
    cbn [mbind option_bind] in Hd |- *. by rewrite Hd. }
  assert (pk ∉ (Store.expired s3).*1) as Hq3 by (cbn [s3 drained Store.expired]; by intros ?%elem_of_nil).
  destruct Hop as [(Ht & value & Hv & Hi & Hsm)|Ht].
  - pose proof Hp3 as (docs & dts & Hw3 & Hf3 & Hd3 & Hr3 & Hsz3).
    destruct (put_pair_ok n s3 d2 docs dts docs dts pk (Store.Memory value) (op_expire_at operation) (op_datetimes operation)
      (document_of codec old_bytes) (op_index_value operation) Hw3 Hf3 Hd3 Hr3 Hsz3 Hn) as
      (s4 & d4 & E4 & E5 & _ & Hrec4 & Hx4 & _ & _ & _ & Hp4); [done|done|done|done| |].
    { intros Hnone. rewrite (f_docs _ _ _ _ _ Hf3) by done. rewrite Hrec2. unfold MiniDbFacts.doc_of.
      rewrite Hold in Hnone. destruct (m !! pk) as [r|]; [|done]. cbn [mbind option_bind] in Hnone |- *. by rewrite Hnone. }
    eapply runs_locked.
    { rewrite E1. simpl_bind. fold pk. rewrite E2. simpl_bind. rewrite E3. simpl_bind.
      rewrite bool_decide_true by done. rewrite Hv. simpl_bind. rewrite <- Hpk. unfold Store.set. rewrite E4. simpl_bind.
      rewrite E5. simpl_bind. reflexivity. }
    split_and!; cbn [store derived closed stats]; try done.
    + apply pair_access. apply Hp4. by rewrite Hi.
    + rewrite Ht. intros E. by vm_compute in E.
    + by rewrite Hrec2.
    + rewrite Hrec2. exact Hread.
    + eexists. unfold effect. rewrite bool_decide_true by done. rewrite Hrec4, Hrec2, Hv. reflexivity.
  - destruct (take_pair_ok (n + 1) s3 d2 pk Hp3 ltac:(lia) Hq3) as (s4 & d4 & E4 & E5 & Hrec4 & Hx4 & Hp4 & Hp5).
    assert (exists d5, (if bool_decide (is_Some (Store.records s3 !! pk)) then derived ← apply_derived_delete pk d2; Some (s4, derived)
      else Some (s4, d2)) = Some (s4, d5) /\ pair_ok (n + 1) s4 d5) as (d5 & E6 & Hp6).
    { case_bool_decide as Hs; [rewrite E5; by exists d4|]. exists d2. split; [done|]. apply Hp5. by apply eq_None_not_Some. }
    eapply runs_locked.
    { rewrite E1. simpl_bind. fold pk. rewrite E2. simpl_bind. rewrite E3. simpl_bind.
      rewrite bool_decide_false by (rewrite Ht; by vm_compute). rewrite E4. simpl_bind. rewrite E6. simpl_bind. reflexivity. }
    split_and!; cbn [store derived closed stats]; try done.
    + eapply pair_mono; [done|lia].
    + by rewrite Hrec2.
    + rewrite Hrec2. exact Hread.
    + exists 0. unfold effect. rewrite bool_decide_false by (rewrite Ht; by vm_compute). by rewrite Hrec4, Hrec2.
Qed.

(** ** Undoing it *)

Definition resequenced (sequence : Z) (r : Store.StoreRecord) : Store.StoreRecord :=
  Store.mk_StoreRecord (Store.value_ref r) (Store.expire_at r) sequence (Store.datetimes r).

(** What undoing leaves of the record before. *)
Definition restored (now sequence : Z) (previous : option Store.StoreRecord) : option Store.StoreRecord :=
  p ← previous; if Store.is_live now p then Some (resequenced sequence p) else None.

Definition same_but (key : bytes) (store store' : Store.Store KT) : Prop :=
  forall k, k <> key -> Store.records store' !! k = Store.records store !! k /\
    (k ∈ (Store.expired store').*1 <-> k ∈ (Store.expired store).*1).

(** Taking a record and reading it at once. *)
Lemma get_one store store1 key r now : StoreExpiry.well_formed krepr dt_json store1 ->
  Store.records store1 = <[key := r]> (Store.records store) -> Store.expired store1 = Store.expired store ->
  exists got store2, Store.get dt_json read_value key now store1 = Some (got, store2) /\
    StoreExpiry.leaves krepr dt_json store1 store2 /\ same_but key store store2 /\
    if Store.is_live now r then
      got = Some <$> Store.materialize read_value (Store.value_ref r) /\ Store.records store2 !! key = Some r
    else got = Ok None /\ Store.records store2 !! key = None /\ key ∈ (Store.expired store2).*1.
Proof.
  intros Hw Hrec Hx. destruct (StoreExpiry.get_leaves krepr dt_json read_value store1 key now Hw) as (got & store2 & -> & Hl & Hcut & ->).
  unfold StoreExpiry.cut, StoreExpiry.live_at in *. rewrite Hrec, lookup_insert_eq in Hcut |- *. cbn [mbind option_bind] in *.
  eexists _, store2. split; [reflexivity|]. split; [done|]. pose proof Hl as [_ _ (gone & Hx2 & Hg)]. rewrite Hrec in Hg. split.
  - intros k Hne. assert (Store.records store2 !! k = Store.records store !! k) as Hk.
    { destruct (Store.is_live now r); rewrite Hcut, ?lookup_delete_ne, lookup_insert_ne by done; done. }
    split; [done|]. rewrite Hx2, Hx, fmap_app, elem_of_app. split; [|by left]. intros [?|Hin]; [done|].
    apply list_elem_of_fmap in Hin as ([k' r'] & -> & [Hk1 Hk2]%Hg). cbn [fst] in *.
    rewrite lookup_insert_ne in Hk1 by done. congruence.
  - destruct (Store.is_live now r).
    + split; [done|]. by rewrite Hcut, lookup_insert_eq.
    + split; [done|]. assert (Store.records store2 !! key = None) as Hn by (by rewrite Hcut, lookup_delete_eq). split; [done|].
      rewrite Hx2, fmap_app, elem_of_app. right. apply list_elem_of_fmap. exists (key, r). split; [done|]. apply Hg.
      by rewrite lookup_insert_eq.
Qed.

Lemma restore_key_ok n self key previous sequence now :
  db_ok (n + 1) self -> 0 <= n -> (sequence = None -> key ∉ (Store.expired (store self)).*1) ->
  (forall p, previous = Some p -> readable p) ->
  runs (restore_key codec read_value key previous sequence now) self (fun r self' =>
    r = Ok tt /\ db_ok n self' /\ closed self' = closed self /\ stats self' = stats self /\
    same_but key (store self) (store self') /\
    if superseded sequence (record_sequence key (store self)) then self' = self
    else exists s, Store.records (store self') !! key = restored now s previous).
Proof.
  intros Hok Hn Hqn Hread. unfold restore_key. destruct (superseded _ _) eqn:Hsup.
  { eapply runs_locked; [rewrite Hsup; reflexivity|]. split; [done|]. split; [by eapply pair_mono; [exact Hok|lia]|].
    split_and!; try done. by destruct self. }
  pose proof Hok as (docs & dts & Hw & Hf & Hd & Hr & Hsz).
  assert (key ∉ (Store.expired (store self)).*1) as Hq.
  { destruct sequence as [s|]; [|by apply Hqn]. intros Hin%(f_expired _ _ _ _ _ Hf). unfold record_sequence, superseded in Hsup.
    by rewrite Hin in Hsup. }
  destruct previous as [p|].
  - destruct (derived_delete_ok nrepr orepr trepr (n + 1) docs dts (derived self) key Hd Hr ltac:(lia)) as (d1 & E1 & Hd1 & Hr1 & _).
    destruct (Hread p eq_refl) as (value & Hval & Hsm). clear Hread.
    set (new := if Store.is_live now p then document_of codec (Some value) else None).
    destruct (put_pair_ok n (store self) d1 docs dts (delete (key_string key) docs) (delete (key_string key) dts) key (Store.value_ref p)
      (Store.expire_at p) (Store.datetimes p) None new Hw Hf Hd1 Hr1 Hsz Hn) as
      (s2 & d2 & E2 & E3 & Hw2 & Hrec2 & Hx2 & Hsz2 & Hd2 & Hr2 & Hp2).
    { intros pk Hne. by rewrite lookup_delete_ne. }
    { intros pk Hne. by rewrite lookup_delete_ne. }
    { done. }
    { subst new. intros d. destruct (Store.is_live now p); [apply Hsm|done]. }
    { intros _. apply lookup_delete_eq. }
    set (r := StoreFacts.written _ _ _ _) in *.
    assert (Store.is_live now r = Store.is_live now p) as Hlive by done.
    destruct (get_one (store self) s2 key r now Hw2 Hrec2 Hx2) as (got & s3 & E4 & Hl3 & Hsame & Hget).
    rewrite Hlive in Hget. change (Store.value_ref r) with (Store.value_ref p) in Hget. rewrite Hval in Hget.
    assert (exists bytes, got = Ok bytes /\ document_of codec bytes = new) as (bytes & Egot & Ebytes).
    { subst new. destruct (Store.is_live now p); destruct Hget as [-> _]; eexists; by split. }
    eapply runs_locked.
    { rewrite Hsup. rewrite E1. simpl_bind. rewrite E2. simpl_bind. rewrite E4, Egot. simpl_bind. rewrite Ebytes, E3. simpl_bind. reflexivity. }
    cbn [store derived closed stats]. split; [done|]. split; [|split; [done|split; [done|split; [exact Hsame|]]]].
    + apply pair_access. destruct (Store.is_live now p) eqn:El.
      * eapply pair_leaves; [apply Hp2; subst new|done]. f_equal. unfold MiniDbFacts.value_of.
        change (Store.value_ref r) with (Store.value_ref p). by rewrite Hval.
      * destruct Hget as (_ & Hnone & Hin). eexists _, _. split; [by apply (StoreExpiry.l_ok _ _ _ _ Hl3)|].
        split; [|split; [exact Hd2|split; [exact Hr2|]]].
        -- eapply (follows_at codec read_value key); [exact Hf|exact Hsame| |done|done].
           intros pk Hne. by rewrite docs_after_ne, with_datetimes_ne, !lookup_delete_ne.
        -- destruct Hl3 as [_ [Hs _] _]. cbn [store] in *. pose proof (map_subseteq_size _ _ Hs). lia.
    + exists (Store.rec_sequence r). unfold restored. cbn [mbind option_bind].
      destruct (Store.is_live now p); destruct Hget as [_ Hget]; [done|by destruct Hget].
  - destruct (take_pair_ok (n + 1) (store self) (derived self) key Hok ltac:(lia) Hq) as (s2 & d2 & E1 & E2 & Hrec & Hx & Hp & _).
    eapply runs_locked; [rewrite Hsup, E2; simpl_bind; rewrite E1; simpl_bind; reflexivity|].
    cbn [store derived closed stats]. split; [done|]. split; [apply pair_access; eapply pair_mono; [done|lia]|].
    split; [done|]. split; [done|]. split.
    + intros k Hne. by rewrite Hrec, Hx, lookup_delete_ne.
    + exists 0. by rewrite Hrec, lookup_delete_eq.
Qed.

(** ** Publishing where the value lies *)

Lemma publish_wal_ref_ok n self operation sequence location :
  db_ok n self -> 0 <= n ->
  (forall s r, sequence = Some s -> Store.records (store self) !! op_pk operation = Some r ->
     exists value, r = Store.mk_StoreRecord (Store.Memory value) (op_expire_at operation) (Store.rec_sequence r) (op_datetimes operation) /\
       Store.materialize read_value (Store.Disk location) = Ok value) ->
  runs (publish_wal_ref operation sequence location) self (fun r self' =>
    r = Ok tt /\ db_ok n self' /\ closed self' = closed self /\ stats self' = stats self /\
    Store.expired (store self') = Store.expired (store self) /\
    same_but (op_pk operation) (store self) (store self') /\
    if bool_decide (is_Some sequence) && bool_decide (record_sequence (op_pk operation) (store self) = sequence) then
      exists s, Store.records (store self') !! op_pk operation =
        Some (Store.mk_StoreRecord (Store.Disk location) (op_expire_at operation) s (op_datetimes operation))
    else self' = self).
Proof.
  intros Hok Hn Hval. unfold publish_wal_ref. set (pk := op_pk operation) in *.
  destruct (bool_decide (is_Some sequence) && bool_decide (record_sequence pk (store self) = sequence)) eqn:Hc.
  2:{ eapply runs_locked; [rewrite Hc; reflexivity|]. cbn [store derived closed stats]. split; [done|]. split; [exact Hok|]. split_and!; try done. by destruct self. }
  apply andb_true_iff in Hc as Hc'. destruct Hc' as [[s Hs]%bool_decide_eq_true Hseq%bool_decide_eq_true].
  rewrite Hs in Hseq. unfold record_sequence in Hseq. apply fmap_Some in Hseq as (r & Hr & _).
  destruct (Hval s r Hs Hr) as (value & Er & Hmat). pose proof Hok as (docs & dts & Hw & Hf & Hd & Hroom & Hsz).
  assert (pk ∉ (Store.expired (store self)).*1) as Hq by (intros Hin%(f_expired _ _ _ _ _ Hf); congruence).
  destruct (StoreExpiry.set_ref_ok krepr dt_json (store self) pk (Store.Disk location) (op_expire_at operation) (op_datetimes operation) Hw)
    as (s2 & E2 & Hw2 & Hrec & Hx); [unfold U64_MAX; lia|].
  eapply runs_locked; [rewrite Hc, E2; simpl_bind; reflexivity|]. cbn [store derived closed stats].
  assert (same_but pk (store self) s2) as Hsame by (intros k Hne; by rewrite Hrec, Hx, lookup_insert_ne).
  split; [done|]. split; [|split; [done|split; [done|split; [done|split; [done|]]]]].
  - exists docs, dts. split; [done|]. split; [|split; [done|split; [done|]]].
    + eapply (follows_at codec read_value pk); [exact Hf|exact Hsame|done|by cbn [store]; rewrite Hx|]. intros _. cbn [store].
      rewrite (f_docs _ _ _ _ _ Hf), (f_dts _ _ _ _ _ Hf), Hr, Hrec, lookup_insert_eq by done. rewrite Er.
      unfold MiniDbFacts.doc_of, datetimes_of, MiniDbFacts.value_of. cbn [mbind option_bind StoreFacts.written Store.value_ref Store.datetimes].
      by rewrite Hmat.
    + cbn [store]. rewrite Hrec. match goal with |- context [size (<[_ := ?x]> _)] => pose proof (map_size_insert pk x (Store.records (store self))) as E end.
      rewrite Hr in E. simpl in E. lia.
  - eexists. rewrite Hrec, lookup_insert_eq. reflexivity.
Qed.
End facts.
End WriteFacts.
