(* ===== verification/ReadFacts.v ===== *)
(** * The database: what readers and the expiry cycle do

    The operations that run while a write waits for the log: they keep the derived
    state in step with the store, and only take expired records out ([quiet]). *)

From Corelib Require Import SpecFloat.
From S2P Require Import Prelude.
From S2P Require Import Crc.
From S2P Require Import Codec.
From S2P Require Import OrdIndex.
From S2P Require Import Store.
From S2P Require Import StoreFacts.
From S2P Require Import StoreExpiry.
From S2P Require Import Recovery.
From S2P Require Import Wal.
From S2P Require Import DtIndex.
From S2P Require Import Query.
From S2P Require Import Float.
From S2P Require Import IndexManager.
From S2P Require Import CompoundIndex.
From S2P Require Import TextIndex.
From S2P Require Import TextIndexFacts.
From S2P Require Import MiniDb.
From S2P Require Import MiniDbRead.
From S2P Require Import MiniDbFacts.
From S2P Require Import WriteFacts.
Import OrdIndex Float StoreExpiry MiniDb MiniDbRead MiniDbFacts WriteFacts.

Module ReadFacts.

Section facts.
Context {Number V : Type} `{!Platform Number} `{Crc32fastOk} `{!InUse}.
Context {KT NT OT TT : Type}.
Context `{!OrderedIndex KT bytes bytes} `{!OrderedIndex NT f64 bytes}.
Context `{!OrderedIndex OT CompoundIndex.OrderValue bytes} `{!OrderedIndex TT Z bytes}.
Context (krepr : KT -> list (bytes * bytes) -> Prop) `{!OrderedIndexLaws bytes_cmp bytes_cmp krepr}.
Context (nrepr : NT -> list (f64 * bytes) -> Prop) `{!OrderedIndexLaws compare_number bytes_cmp nrepr}.
Context (orepr : OT -> list (CompoundIndex.OrderValue * bytes) -> Prop)
  `{!OrderedIndexLaws CompoundIndex.compare_order bytes_cmp orepr}.
Context (trepr : TT -> list (Z * bytes) -> Prop) `{!OrderedIndexLaws Z.compare bytes_cmp trepr}.
Context (codec : ValueCodec Number V) (options : OpenOptions).
Context (read_value : option (Store.ValueLoc -> result Store.StoreError bytes)).
Abbreviation Value := (@Query.Value Number).
Abbreviation Db := (@MiniDb.MiniDb KT NT OT TT).
Abbreviation Derived := (@DerivedState NT OT TT).
Abbreviation M := (@MiniDb.M KT NT OT TT).
Abbreviation Op := (@PreparedOp Number).
#[local] Existing Instance MiniDb.M_ret.
#[local] Existing Instance MiniDb.M_bind.
Abbreviation pair_ok := (MiniDbFacts.pair_ok krepr nrepr orepr trepr codec read_value).
Abbreviation db_ok := (MiniDbFacts.db_ok krepr nrepr orepr trepr codec read_value).
Abbreviation value_of := (MiniDbFacts.value_of read_value).
Abbreviation doc_of := (MiniDbFacts.doc_of codec read_value).
Implicit Types (self : Db) (operation : Op) (derived : Derived).


Lemma drain_runs n self (Q : result MiniDbError () -> Db -> Prop) :
  db_ok n self -> 0 <= n ->
  (forall derived', db_ok n (mk_MiniDb (drained (store self)) derived' (closed self) (stats self)) ->
     Q (Ok tt) (mk_MiniDb (drained (store self)) derived' (closed self) (stats self))) ->
  runs drain self Q.
Proof.
  intros Hok Hn HQ. destruct (drain_ok krepr nrepr orepr trepr codec read_value n (store self) (derived self) Hok Hn) as (d1 & E & Hp).
  eapply runs_locked; [rewrite E; simpl_bind; reflexivity|]. by apply HQ.
Qed.

(** ** What others may do to a database *)

(** Records only leave when they expire, and a key is queued only if it had a record. *)
Record quiet self self' : Prop := {
  q_thins : StoreExpiry.thins (Store.records (store self)) (Store.records (store self'));
  q_queue key : key ∈ (Store.expired (store self')).*1 ->
    key ∈ (Store.expired (store self)).*1 \/ is_Some (Store.records (store self) !! key);
  q_closed : closed self' = closed self;
}.

#[export] Instance quiet_preorder : PreOrder quiet.
Proof.
  split; [intros self; split; [reflexivity|by left|done]|].
  intros s1 s2 s3 [T1 Q1 C1] [T2 Q2 C2]. split; [by etrans| |congruence].
  intros key [Hin|[r Hr]]%Q2; [by apply Q1|]. right. destruct T1 as [Hs _]. exists r. by eapply lookup_weaken.
Qed.

Lemma leaves_quiet self store' derived' : StoreExpiry.leaves krepr dt_json (store self) store' ->
  quiet self (mk_MiniDb store' derived' (closed self) (stats self)).
Proof.
  intros [_ Ht (gone & Hx & Hg)]. split; [done| |done]. cbn [store]. intros key. rewrite Hx, fmap_app, elem_of_app.
  intros [Hin|([k r] & -> & [Hk _]%Hg)%list_elem_of_fmap]; [by left|right; by exists r].
Qed.

Lemma drained_quiet self store' derived' : StoreExpiry.leaves krepr dt_json (store self) store' ->
  quiet self (mk_MiniDb (drained store') derived' (closed self) (stats self)).
Proof.
  intros Hl. destruct (leaves_quiet self store' derived' Hl) as [Ht _ _]. split; [done| |done].
  cbn [store drained Store.expired]. by intros key ?%elem_of_nil.
Qed.

Lemma db_leaves n self store' : db_ok n self -> StoreExpiry.leaves krepr dt_json (store self) store' ->
  db_ok n (mk_MiniDb store' (derived self) (closed self) (stats self)).
Proof. intros Hok Hl. by eapply pair_leaves. Qed.

(** ** The operations *)

Definition decoded (value : result Store.StoreError bytes) : result MiniDbError (option V) :=
  match value with
  | Err e => Err (StoreFailed e)
  | Ok value => match decode codec value with Ok v => Ok (Some v) | Err message => Err (CodecFailed message) end
  end.

Lemma get_ok n self key now : db_ok n self -> 0 <= n ->
  runs (get codec read_value key now) self (fun r self' => db_ok n self' /\ quiet self self' /\
    (closed self = false -> Store.records (store self') = StoreExpiry.cut now key (Store.records (store self)) /\
       r = match StoreExpiry.live_at now key (Store.records (store self)) with
           | Some record => decoded (Store.materialize read_value (Store.value_ref record))
           | None => Ok None
           end)).
Proof.
  intros Hok Hn. unfold get. apply runs_bind. unfold ensure_open, runs at 1. destruct (closed self) eqn:Hc.
  { eexists _, self. split; [done|]. cbn beta iota. split; [done|]. by split. }
  eexists _, self. split; [done|]. cbn beta iota. pose proof Hok as (_ & _ & Hw & _).
  destruct (StoreExpiry.get_leaves krepr dt_json read_value (store self) key now Hw) as (got & s1 & E & Hl & Hcut & Hgot).
  apply runs_bind. eapply runs_store; [exact E|]. cbn beta iota.
  pose proof (db_leaves n self s1 Hok Hl) as Hok1. pose proof (leaves_quiet self s1 (derived self) Hl) as Hq1.
  apply runs_bind, runs_of_result. destruct got as [bytes|e]; cbn [lift].
  2:{ split; [done|]. split; [done|]. intros _. split; [done|]. destruct (StoreExpiry.live_at _ _ _) as [record|]; [|done].
      destruct (Store.materialize _ _); [done|]. by injection Hgot as <-. }
  apply runs_bind. apply (drain_runs n _ _ Hok1 Hn). cbn [store derived closed stats]. intros d2 Hok2.
  pose proof (drained_quiet self s1 d2 Hl) as Hq2. destruct (StoreExpiry.live_at _ _ _) as [record|].
  2:{ injection Hgot as ->. apply runs_ret. split; [done|]. split; [done|]. intros _. by split. }
  destruct (Store.materialize _ _) as [value|]; [|done]. injection Hgot as ->. apply runs_bind.
  eapply runs_locked; [reflexivity|]. cbn [store derived closed stats]. apply runs_bind, runs_of_result. unfold decoded.
  assert (db_ok n (mk_MiniDb (drained s1) (set_access (touch key (access d2)) d2) (closed self) (stats self))) as Hok3
    by by apply pair_access.
  pose proof (drained_quiet self s1 (set_access (touch key (access d2)) d2) Hl) as Hq3.
  destruct (decode codec value) as [v|message]; cbn [lift].
  - apply runs_ret. split; [done|]. split; [done|]. by split.
  - split; [done|]. split; [done|]. by split.
Qed.

Lemma has_ok n self key now : db_ok n self -> 0 <= n ->
  runs (has key now) self (fun r self' => db_ok n self' /\ quiet self self').
Proof.
  intros Hok Hn. unfold has. apply runs_bind. unfold ensure_open, runs at 1. destruct (closed self) eqn:Hc;
    (eexists _, self; split; [done|]); [by split|]. cbn beta iota. pose proof Hok as (_ & _ & Hw & _).
  destruct (StoreExpiry.has_leaves krepr dt_json (store self) key now Hw) as (s1 & E & Hl & _).
  apply runs_bind. eapply runs_store; [exact E|]. cbn beta iota. apply runs_bind.
  apply (drain_runs n); [by apply db_leaves|done|]. cbn [store derived closed stats]. intros d2 Hok2.
  apply runs_ret. split; [done|]. by apply drained_quiet.
Qed.

Lemma expiration_round_ok n self now : db_ok n self -> 0 <= n ->
  runs (expiration_round now) self (fun r self' => r = Ok tt /\ db_ok n self' /\ quiet self self').
Proof.
  intros Hok Hn. unfold expiration_round. pose proof Hok as (_ & _ & Hw & _).
  destruct (StoreExpiry.reap_leaves krepr dt_json (store self) None now Hw) as (k & s1 & E & Hl).
  apply runs_bind. eapply runs_store; [exact E|]. cbn beta iota.
  apply (drain_runs n); [by apply db_leaves|done|]. cbn [store derived closed stats]. intros d2 Hok2.
  split; [done|]. split; [done|]. by apply drained_quiet.
Qed.

Lemma scan_ok n self clock range : db_ok n self -> 0 <= n ->
  runs (scan codec read_value clock range) self (fun r self' => db_ok n self' /\ quiet self self').
Proof.
  intros Hok Hn. unfold scan. apply runs_bind. unfold ensure_open, runs at 1. destruct (closed self) eqn:Hc;
    (eexists _, self; split; [done|]); [by split|]. cbn beta iota. pose proof Hok as (_ & _ & Hw & _).
  destruct (StoreExpiry.scan_leaves krepr dt_json read_value clock range (store self) Hw) as (r & s1 & E & Hl).
  apply runs_bind. eapply runs_store; [exact E|]. cbn beta iota. apply runs_bind, runs_of_result.
  pose proof (db_leaves n self s1 Hok Hl) as Hok1. destruct r as [entries|e]; cbn [lift].
  - apply runs_bind. apply (drain_runs n); [done|done|]. cbn [store derived closed stats]. intros d2 Hok2.
    apply runs_of_result. split; [done|]. by apply drained_quiet.
  - split; [done|]. by apply leaves_quiet.
Qed.

Lemma query_keys_ok n self clock key : db_ok n self -> 0 <= n ->
  runs (query_keys clock key) self (fun r self' => db_ok n self' /\ quiet self self').
Proof.
  intros Hok Hn. pose proof Hok as (_ & _ & Hw & _).
  assert (forall range, runs (with_store (Store.raw_keys dt_json clock range)) self (fun r self' => db_ok n self' /\ quiet self self')) as Hraw.
  { intros range. destruct (StoreExpiry.raw_keys_leaves krepr dt_json clock range (store self) Hw) as (r & s1 & E & Hl).
    eapply runs_store; [exact E|]. split; [by apply db_leaves|by apply leaves_quiet]. }
  unfold query_keys. destruct key as [[[e|] [p|] range]|]; cbn [MiniDbRead.exact key_prefix key_range]; try apply Hraw;
    (apply runs_ret; split; [done|reflexivity]).
Qed.

Lemma search_text_ok n self name query search_options : db_ok n self -> 0 <= n ->
  runs (search_text name query search_options) self (fun r self' => db_ok n self' /\ quiet self self').
Proof.
  intros Hok Hn. unfold search_text. destruct (text (derived self) !! name) as [index|] eqn:Hi.
  2:{ eapply runs_locked; [rewrite Hi; reflexivity|]. split; [exact Hok|]. split; [reflexivity|by left|done]. }
  destruct Hok as (docs & dts & Hw & Hf & [Di Df Dc Dt Dd Dds Ds] & [Rd Rt Rx] & Hsz).
  destruct (TextIndexFacts.search_keeps to_lowercase find_latin find_cjk ln (fst <$> docs) index query search_options
    (proj1 (Dt name index Hi))) as (hits & index' & E & Hok' & Hk & Hfs).
  eapply runs_locked; [rewrite Hi, E; reflexivity|]. split; [|by split; [reflexivity|left|]].
  exists docs, dts. cbn [store derived]. split_and!; [done|done| | |done].
  - constructor; cbn [indexes compound text datetimes]; try done.
    intros name' index''. intros [[<- <-]|[_ ?]]%lookup_insert_Some; [|by eapply Dt].
    split; [done|]. rewrite Hfs. by apply (Dt name).
  - constructor; cbn [text]; [done|done|]. intros name' index''. intros [[<- <-]|[_ ?]]%lookup_insert_Some; [|by eapply Rx].
    rewrite Hk. by eapply Rx.
Qed.

(** ** Sequences of them *)

(** One step of a reader or of the expiry cycle, at any readings of the clock. *)
Inductive other_step self : Db -> Prop :=
| OtherGet key now r self' : get codec read_value key now self = Some (r, self') -> other_step self self'
| OtherHas key now r self' : has key now self = Some (r, self') -> other_step self self'
| OtherScan clock range r self' : scan codec read_value clock range self = Some (r, self') -> other_step self self'
| OtherKeys clock key r self' : query_keys clock key self = Some (r, self') -> other_step self self'
| OtherSearch name query search_options r self' :
    search_text name query search_options self = Some (r, self') -> other_step self self'
| OtherExpiration now r self' : expiration_round now self = Some (r, self') -> other_step self self'.

Lemma runs_inv {A} (c : M A) self r self' (Q : result MiniDbError A -> Db -> Prop) :
  runs c self Q -> c self = Some (r, self') -> Q r self'.
Proof. intros (r1 & s1 & E & HQ) E'. rewrite E in E'. by injection E' as <- <-. Qed.

Lemma other_step_ok n self self' : 0 <= n -> other_step self self' -> db_ok n self -> db_ok n self' /\ quiet self self'.
Proof.
  intros Hn [key now r s E|key now r s E|clock range r s E|clock key r s E|name query o r s E|now r s E] Hok.
  - by destruct (runs_inv _ _ _ _ _ (get_ok n self key now Hok Hn) E) as (? & ? & _).
  - exact (runs_inv _ _ _ _ _ (has_ok n self key now Hok Hn) E).
  - exact (runs_inv _ _ _ _ _ (scan_ok n self clock range Hok Hn) E).
  - exact (runs_inv _ _ _ _ _ (query_keys_ok n self clock key Hok Hn) E).
  - exact (runs_inv _ _ _ _ _ (search_text_ok n self name query o Hok Hn) E).
  - apply (runs_inv _ _ _ _ _ (expiration_round_ok n self now Hok Hn) E).
Qed.

Lemma others_ok n self self' : 0 <= n -> rtc other_step self self' -> db_ok n self -> db_ok n self' /\ quiet self self'.
Proof.
  intros Hn. induction 1 as [self|self s1 self' Hs _ IH]; intros Hok; [split; [done|reflexivity]|].
  destruct (other_step_ok n self s1 Hn Hs Hok) as [Hok1 Hq]. destruct (IH Hok1). split; [done|by etrans].
Qed.
End facts.
End ReadFacts.
