(* ===== verification/UpdateFacts.v ===== *)
(** * The database: whole writes

    Deletions, evictions, sets and batches over a database that waits for the log while
    others read: what they leave when they succeed, and that a write whose log fails
    leaves the records as they were. *)

From Corelib Require Import SpecFloat.
From S2P Require Import Prelude.
From S2P Require Import Crc.
From S2P Require Import Codec.
From S2P Require Import OrdIndex.
From S2P Require Import Store.
From S2P Require Import StoreFacts.
From S2P Require Import StoreExpiry.
From S2P Require Import Recovery.
From S2P Require Import Wal.
From S2P Require Import DtIndex.
From S2P Require Import Query.
From S2P Require Import Float.
From S2P Require Import IndexManager.
From S2P Require Import IndexManagerFacts.
From S2P Require Import CompoundIndex.
From S2P Require Import TextIndex.
From S2P Require Import TextIndexFacts.
From S2P Require Import Snapshot.
From S2P Require Import SnapshotFacts.
From S2P Require Import MiniDb.
From S2P Require Import MiniDbRead.
From S2P Require Import MiniDbFacts.
From S2P Require Import WriteFacts.
From S2P Require Import ReadFacts.
Import OrdIndex Float StoreExpiry MiniDb MiniDbRead MiniDbFacts WriteFacts ReadFacts.

Module UpdateFacts.

Section facts.
Context {Number V : Type} `{!Platform Number} `{Crc32fastOk} `{!InUse}.
Context {KT NT OT TT : Type}.
Context `{!OrderedIndex KT bytes bytes} `{!OrderedIndex NT f64 bytes}.
Context `{!OrderedIndex OT CompoundIndex.OrderValue bytes} `{!OrderedIndex TT Z bytes}.
Context (krepr : KT -> list (bytes * bytes) -> Prop) `{!OrderedIndexLaws bytes_cmp bytes_cmp krepr}.
Context (nrepr : NT -> list (f64 * bytes) -> Prop) `{!OrderedIndexLaws compare_number bytes_cmp nrepr}.
Context (orepr : OT -> list (CompoundIndex.OrderValue * bytes) -> Prop)
  `{!OrderedIndexLaws CompoundIndex.compare_order bytes_cmp orepr}.
Context (trepr : TT -> list (Z * bytes) -> Prop) `{!OrderedIndexLaws Z.compare bytes_cmp trepr}.
Context (codec : ValueCodec Number V) (options : OpenOptions).
Context (read_value : option (Store.ValueLoc -> result Store.StoreError bytes)).
Abbreviation Value := (@Query.Value Number).
Abbreviation Db := (@MiniDb.MiniDb KT NT OT TT).
Abbreviation Derived := (@DerivedState NT OT TT).
Abbreviation M := (@MiniDb.M KT NT OT TT).
Abbreviation Op := (@PreparedOp Number).
#[local] Existing Instance MiniDb.M_ret.
#[local] Existing Instance MiniDb.M_bind.
Abbreviation pair_ok := (MiniDbFacts.pair_ok krepr nrepr orepr trepr codec read_value).
Abbreviation db_ok := (MiniDbFacts.db_ok krepr nrepr orepr trepr codec read_value).
Abbreviation value_of := (MiniDbFacts.value_of read_value).
Abbreviation doc_of := (MiniDbFacts.doc_of codec read_value).
Abbreviation readable := (WriteFacts.readable codec read_value).
Abbreviation op_ok := (WriteFacts.op_ok codec).
Implicit Types (self : Db) (operation : Op) (derived : Derived).



(** ** Records but for their sequences *)

Definition content (r : Store.StoreRecord) : Store.ValueRef * Z * option Store.Datetimes :=
  (Store.value_ref r, Store.expire_at r, Store.datetimes r).

(** A key keeps what it held, or loses it by expiry. *)
Definition kept (r r' : option Store.StoreRecord) : Prop :=
  content <$> r' = content <$> r \/ (r' = None /\ exists x now, r = Some x /\ Store.is_live now x = false).
Definition unchanged (m m' : gmap bytes Store.StoreRecord) : Prop := forall k, kept (m !! k) (m' !! k).

Lemma live_content now x y : content x = content y -> Store.is_live now x = Store.is_live now y.
Proof. unfold content, Store.is_live. by intros [= _ -> _]. Qed.

#[export] Instance kept_preorder : PreOrder kept.
Proof.
  split; [by left|]. intros r1 r2 r3 [E1|(-> & x & now & -> & Hl)] [E2|(-> & y & now' & E & Hl')].
  - left. congruence.
  - right. split; [done|]. rewrite E in E1. destruct r1 as [x|]; [|done]. injection E1 as E1.
    exists x, now'. split; [done|]. rewrite <- Hl'. apply live_content. unfold content. congruence.
  - right. split; [by destruct r3|]. by exists x, now.
  - done.
Qed.

#[export] Instance unchanged_preorder : PreOrder unchanged.
Proof. split; [by intros m k|]. intros m1 m2 m3 H12 H23 k. etrans; [apply H12|apply H23]. Qed.

Lemma thins_kept m m' k : StoreExpiry.thins m m' -> kept (m !! k) (m' !! k).
Proof.
  intros [Hs He]. destruct (m !! k) as [r|] eqn:E; destruct (m' !! k) as [r'|] eqn:E'; [..|by left].
  - left. pose proof (lookup_weaken _ _ _ _ E' Hs). congruence.
  - right. split; [done|]. destruct (He k r E E') as [now Hl]. by exists r, now.
  - pose proof (lookup_weaken _ _ _ _ E' Hs). congruence.
Qed.

Lemma thins_unchanged m m' : StoreExpiry.thins m m' -> unchanged m m'.
Proof. intros Ht k. by apply thins_kept. Qed.

Lemma cut_thins now key m : StoreExpiry.thins m (StoreExpiry.cut now key m).
Proof.
  unfold StoreExpiry.cut, StoreExpiry.live_at. destruct (m !! key) as [r|] eqn:E; simpl; [|by rewrite delete_id].
  destruct (Store.is_live now r) eqn:El; [done|]. by eapply StoreExpiry.thins_delete.
Qed.

Lemma kept_restored now s r : kept r (restored now s r).
Proof.
  unfold restored. destruct r as [p|]; [|by left]. cbn [mbind option_bind].
  destruct (Store.is_live now p) eqn:El; [by left|]. right. split; [done|]. by exists p, now.
Qed.

(** ** The environment *)

(** While a write waits for the log others read and records expire. *)
Definition io_ok (io : Io) : Prop := forall self, rtc (other_step codec read_value) self (done io self).2.

(** What the log has acknowledged can be read from its file. *)
Definition log_reads (io : Io) : Prop := forall frame offset self a l,
  append io frame = Ok offset -> (done io self).1 = Ok tt -> 0 <= a -> 0 <= l -> a + l <= zlen frame ->
  Store.materialize read_value (Store.Disk (Store.mk_ValueLoc Store.Wal (offset + a) l)) = Ok (slice frame a (a + l)).

Lemma wait_ok n io self : 0 <= n -> io_ok io -> db_ok n self ->
  runs (wait io) self (fun r self' => r = Ok (done io self).1 /\ db_ok n self' /\ quiet self self').
Proof.
  intros Hn Hio Hok. unfold wait, runs. specialize (Hio self). destruct (done io self) as [r s1] eqn:E. cbn [fst snd] in *.
  eexists _, _. split; [reflexivity|]. split; [done|]. by eapply others_ok.
Qed.

(** Whatever the last state of the others. *)
Lemma quiet_db_mono n n' self : db_ok n self -> n' <= n -> db_ok n' self.
Proof. apply pair_mono. Qed.

(** ** Undoing after the wait

    [m] is what an operation was applied to, [s1] the state after it, [s2] the one
    after the wait. *)
Lemma undo_ok n s1 s2 operation previous now m sequence :
  db_ok (n + 1) s2 -> 0 <= n -> quiet s1 s2 -> Store.expired (store s1) = [] ->
  Store.records (store s1) = effect operation sequence m -> previous = m !! op_pk operation ->
  (forall p, previous = Some p -> readable p) ->
  runs (restore_key codec read_value (op_pk operation) previous (record_sequence (op_pk operation) (store s1)) now) s2
    (fun r s3 => r = Ok tt /\ db_ok n s3 /\ closed s3 = closed s1 /\
       (op_type operation = Codec.TYPE_DEL \/ op_expire_at operation = 0 -> unchanged m (Store.records (store s3)))).
Proof.
  intros Hok Hn [Hthin Hqueue Hclosed] Hx Hrec Hprev Hread. set (pk := op_pk operation) in *.
  assert (forall k, k <> pk -> Store.records (store s1) !! k = m !! k) as Hother.
  { intros k Hne. rewrite Hrec. unfold effect. case_bool_decide; [by rewrite lookup_insert_ne|by rewrite lookup_delete_ne]. }
  eapply runs_mono; [apply (restore_key_ok krepr nrepr orepr trepr codec read_value n s2 pk previous _ now Hok Hn)|].
  - unfold record_sequence. intros Hnone%fmap_None Hin. destruct (Hqueue pk Hin) as [Hin'|[r Hr]].
    + rewrite Hx in Hin'. by apply elem_of_nil in Hin'.
    + congruence.
  - done.
  - intros r s3 (-> & Hok3 & Hc3 & _ & Hsame & Hpk). split; [done|]. split; [done|]. split; [congruence|]. intros Hkind k.
    destruct (decide (k = pk)) as [->|Hne].
    2:{ destruct (Hsame k Hne) as [-> _]. rewrite <- Hother by done. by apply thins_kept. }
    destruct (superseded _ _) eqn:Hsup; [|destruct Hpk as [s ->]; rewrite <- Hprev; apply kept_restored].
    exfalso. unfold superseded, record_sequence in Hsup. destruct Hkind as [Ht|He].
    + assert (Store.records (store s1) !! pk = None) as Hnone.
      { rewrite Hrec. unfold effect. rewrite bool_decide_false by (rewrite Ht; by vm_compute). apply lookup_delete_eq. }
      rewrite Hnone in Hsup. cbn [fmap option_fmap option_map] in Hsup. destruct (Store.records (store s2) !! pk) as [r|] eqn:E; [|done].
      destruct Hthin as [Hs _]. pose proof (lookup_weaken _ _ _ _ E Hs). congruence.
    + destruct (Store.records (store s1) !! pk) as [r|] eqn:E.
      * rewrite (StoreExpiry.thins_stays _ _ pk r Hthin E) in Hsup.
        { cbn [fmap option_fmap option_map] in Hsup. by rewrite Z.eqb_refl in Hsup. }
        rewrite Hrec in E. unfold effect in E. fold pk in E. destruct (bool_decide (op_type operation = _)); [|by rewrite lookup_delete_eq in E].
        rewrite lookup_insert_eq in E. by injection E as <-.
      * cbn [fmap option_fmap option_map] in Hsup. destruct (Store.records (store s2) !! pk) as [r|] eqn:E'; [|done].
        destruct Hthin as [Hs _]. pose proof (lookup_weaken _ _ _ _ E' Hs). congruence.
Qed.

(** ** Deleting *)

Lemma prepare_del_ok key operation : prepare_del (Number := Number) key = Ok operation ->
  op_ok operation /\ op_type operation = Codec.TYPE_DEL /\ op_pk operation = key.
Proof.
  unfold prepare_del. destruct (check_key key) as [[]|]; [|done]. simpl_bind. intros [= <-].
  split; [|done]. split; [done|]. by right.
Qed.

Lemma delete_applied_ok n io self operation :
  db_ok (n + 1) self -> 0 <= n -> io_ok io -> op_ok operation -> op_type operation = Codec.TYPE_DEL ->
  runs (delete_applied codec read_value io operation) self (fun r self' =>
    db_ok n self' /\ closed self' = closed self /\
    match r with
    | Ok _ => db_ok (n + 1) self' /\ StoreExpiry.thins (delete (op_pk operation) (Store.records (store self))) (Store.records (store self'))
    | Err e => unchanged (Store.records (store self)) (Store.records (store self'))
    end).
Proof.
  intros Hok Hn Hio Hop Ht. unfold delete_applied.
  apply runs_bind, runs_of_result. destruct (del_frame (op_key operation)) as [frame|e]; cbn [lift].
  2:{ split; [by eapply quiet_db_mono; [exact Hok|lia]|]. by split. }
  apply runs_bind. eapply runs_mono; [apply (apply_operation_ok krepr nrepr orepr trepr codec read_value n self operation _ Hok Hn Hop)|].
  intros r s1 (Hok1 & Hok1' & Hc1 & _ & Hx1 & Hr). specialize (Hok1' Ht).
  pose proof (cut_thins (apply_now io 0) (op_pk operation) (Store.records (store self))) as Hcut.
  destruct r as [[previous sequence]|e].
  2:{ destruct Hr as (Hm & Hrec & _). split; [done|]. split; [done|]. by rewrite Hrec, Hm. }
  destruct Hr as (Hprev & Hread & -> & s & Hrec). apply runs_bind.
  assert (runs (append_and_wait io frame) s1 (fun r s2 => exists d, r = Ok d /\ db_ok (n + 1) s2 /\ quiet s1 s2)) as Hwait.
  { unfold append_and_wait. destruct (append io frame) as [o|e].
    - eapply runs_mono; [apply (wait_ok (n + 1)); [lia|done|done]|]. intros r s2 (-> & ? & ?). by eexists.
    - apply runs_ret. exists (Err e). split; [done|]. split; [done|]. reflexivity. }
  eapply runs_mono; [exact Hwait|]. intros r s2 (d & -> & Hok2 & Hq). destruct d as [[]|e].
  - apply runs_ret. pose proof Hq as [Hthin _ Hcl]. split; [by eapply quiet_db_mono; [exact Hok2|lia]|]. split; [congruence|].
    split; [done|]. rewrite Hrec in Hthin. unfold effect in Hthin. rewrite bool_decide_false in Hthin by (rewrite Ht; by vm_compute).
    assert (delete (op_pk operation) (StoreExpiry.cut (apply_now io 0) (op_pk operation) (Store.records (store self))) =
      delete (op_pk operation) (Store.records (store self))) as E.
    { unfold StoreExpiry.cut. destruct (StoreExpiry.live_at _ _ _); [done|]. apply delete_delete_eq. }
    by rewrite E in Hthin.
  - apply runs_bind. eapply runs_mono; [by eapply undo_ok|]. intros r s3 (-> & Hok3 & Hc3 & Hun).
    apply runs_of_result. split; [done|]. split; [congruence|]. etrans; [by apply thins_unchanged|]. apply Hun. by left.
Qed.

(** ** Setting *)

(** What a record holds once an operation's value has been acknowledged. *)
Definition holds operation (value : bytes) (r : Store.StoreRecord) : Prop :=
  Store.expire_at r = op_expire_at operation /\ Store.datetimes r = op_datetimes operation /\
  Store.materialize read_value (Store.value_ref r) = Ok value /\
  match value_mode options with
  | Recovery.InMemory => Store.value_ref r = Store.Memory value
  | Recovery.OnDisk => exists location, Store.value_ref r = Store.Disk location
  end.
Definition never_expires operation : Prop := op_expire_at operation = 0.
Definition acknowledged operation (value : bytes) (r : option Store.StoreRecord) : Prop :=
  match r with Some r => holds operation value r | None => ~ never_expires operation end.

(** The file of the log answers for values of an acceptable length. *)
Definition published (io : Io) (value : bytes) : Prop := value_mode options = Recovery.OnDisk -> log_reads io /\ zlen value < 2 ^ 32.

Lemma runs_or_panic {A} (o : option A) (a : A) self (Q : result MiniDbError A -> Db -> Prop) :
  o = Some a -> Q (Ok a) self -> runs (or_panic o) self Q.
Proof. intros -> HQ. by exists (Ok a), self. Qed.

Lemma effect_other operation s m k : k <> op_pk operation -> effect operation s m !! k = m !! k.
Proof. intros Hne. unfold effect. case_bool_decide; [by rewrite lookup_insert_ne|by rewrite lookup_delete_ne]. Qed.

(** Off the key, nothing but expiry. *)
Lemma thins_off key m m1 m2 now :
  (forall k, k <> key -> m1 !! k = StoreExpiry.cut now key m !! k) -> StoreExpiry.thins m1 m2 ->
  StoreExpiry.thins (delete key m) (delete key m2).
Proof.
  intros Ho [Hs He].
  assert (forall k, k <> key -> m1 !! k = m !! k) as Hm.
  { intros k Hne. rewrite Ho by done. unfold StoreExpiry.cut. destruct (StoreExpiry.live_at _ _ _); [done|by rewrite lookup_delete_ne]. }
  split.
  - apply map_subseteq_spec. intros k r [Hne Hk]%lookup_delete_Some. rewrite lookup_delete_ne, <- Hm by done. by eapply lookup_weaken.
  - intros k r [Hne Hk]%lookup_delete_Some. rewrite lookup_delete_ne by done. apply He. by rewrite Hm.
Qed.

Lemma write_set_ok n io self operation value :
  db_ok (n + 2) self -> 0 <= n -> io_ok io -> op_ok operation -> op_type operation = Codec.TYPE_SET ->
  op_value operation = Some value -> published io value ->
  runs (write_set codec options read_value io operation) self (fun r self' =>
    db_ok n self' /\ closed self' = closed self /\
    match r with
    | Ok _ => acknowledged operation value (Store.records (store self') !! op_pk operation) /\
        StoreExpiry.thins (delete (op_pk operation) (Store.records (store self)))
          (delete (op_pk operation) (Store.records (store self')))
    | Err e => never_expires operation -> unchanged (Store.records (store self)) (Store.records (store self'))
    end).
Proof.
  intros Hok Hn Hio Hop Ht Hv Hpub. unfold write_set. pose proof Hop as [Hpk _]. set (pk := op_pk operation) in *.
  assert (db_ok n self) as Hok0 by (eapply quiet_db_mono; [exact Hok|lia]).
  apply runs_bind. eapply runs_or_panic; [exact Hv|]. cbn beta iota.
  apply runs_bind, runs_of_result. set (f := Codec.mk_Frame _ _ _ _ _).
  destruct (Codec.encode_frame f) as [frame|e] eqn:Hframe; cbn [lift]; [|by split].
  apply runs_bind, runs_of_result. destruct (append io frame) as [offset|e] eqn:Happ; cbn [lift]; [|by split].
  apply runs_bind. replace (n + 2) with (n + 1 + 1) in Hok by lia.
  eapply runs_mono; [apply (apply_operation_ok krepr nrepr orepr trepr codec read_value (n + 1) self operation _ Hok ltac:(lia) Hop)|].
  intros r s1 (Hok1 & _ & Hc1 & _ & Hx1 & Hr). pose proof (cut_thins (apply_now io 0) pk (Store.records (store self))) as Hcut.
  destruct r as [[previous sequence]|e].
  2:{ destruct Hr as (Hm & Hrec & _). split; [by eapply quiet_db_mono; [exact Hok1|lia]|]. split; [done|]. intros _. by rewrite Hrec, Hm. }
  destruct Hr as (Hprev & Hread & -> & s & Hrec). fold pk in Hrec, Hprev.
  assert (Store.records (store s1) !! pk = Some (Store.mk_StoreRecord (Store.Memory value) (op_expire_at operation) s (op_datetimes operation)))
    as Hpk1.
  { rewrite Hrec. unfold effect. rewrite bool_decide_true, Hv by done. apply lookup_insert_eq. }
  apply runs_bind. eapply runs_mono; [apply (wait_ok (n + 1) io s1 ltac:(lia) Hio Hok1)|]. intros r s2 (-> & Hok2 & Hq).
  pose proof Hq as [Hthin _ Hcl]. destruct ((done io s1).1) as [[]|e] eqn:Hdone.
  2:{ apply runs_bind. eapply runs_mono; [by eapply undo_ok|]. intros r s3 (-> & Hok3 & Hc3 & Hun).
      apply runs_of_result. split; [done|]. split; [congruence|]. intros Hne. etrans; [by apply thins_unchanged|]. apply Hun. by right. }
  assert (StoreExpiry.thins (delete pk (Store.records (store self))) (delete pk (Store.records (store s2)))) as Hoff.
  { eapply thins_off; [|exact Hthin]. intros k Hne. rewrite Hrec. by apply effect_other. }
  assert (Store.records (store s2) !! pk = None -> ~ never_expires operation) as Hgone.
  { intros Hnone Hne. by rewrite (StoreExpiry.thins_stays _ _ _ _ Hthin Hpk1 Hne) in Hnone. }
  assert (forall r, Store.records (store s2) !! pk = Some r ->
    r = Store.mk_StoreRecord (Store.Memory value) (op_expire_at operation) s (op_datetimes operation)) as Hstill.
  { intros r Hr. destruct Hthin as [Hs _]. pose proof (lookup_weaken _ _ _ _ Hr Hs). congruence. }
  destruct (value_mode options) eqn:Hmode.
  - apply runs_ret. split; [by eapply quiet_db_mono; [exact Hok2|lia]|]. split; [congruence|]. split; [|done].
    unfold acknowledged. destruct (Store.records (store s2) !! pk) as [r|] eqn:E; [|by apply Hgone].
    rewrite (Hstill r eq_refl). unfold holds. by rewrite Hmode.
  - destruct (Hpub Hmode) as [Hreads Hlen].
    destruct (SnapshotFacts.encode_frame_value f frame Hframe) as [Hslice Hend]. cbn [f Codec.key Codec.value] in Hslice, Hend.
    assert (Store.materialize read_value (Store.Disk (value_location offset operation value)) = Ok value) as Hmat.
    { unfold value_location. rewrite Z.mod_small by (zlen_pos; lia). rewrite <- Z.add_assoc.
      rewrite (Hreads frame offset s1) by (done || unfold Codec.HEADER_SIZE; zlen_pos; lia). by rewrite Hslice. }
    eapply runs_mono; [apply (publish_wal_ref_ok krepr nrepr orepr trepr codec read_value (n + 1) s2 operation _ _ Hok2 ltac:(lia))|].
    { intros s' r _ Hr. exists value. fold pk in Hr. rewrite (Hstill r Hr). split; [done|exact Hmat]. }
    intros r s3 (-> & Hok3 & Hc3 & _ & _ & Hsame & Hpubd). fold pk in Hsame, Hpubd.
    split; [by eapply quiet_db_mono; [exact Hok3|lia]|]. split; [congruence|].
    unfold record_sequence in Hpubd. rewrite Hpk1 in Hpubd. cbn [fmap option_fmap option_map Store.rec_sequence] in Hpubd.
    rewrite (bool_decide_true (is_Some (Some s))) in Hpubd by by eexists. cbn [andb] in Hpubd.
    split.
    + unfold acknowledged. destruct (Store.records (store s2) !! pk) as [r|] eqn:E.
      * rewrite (Hstill r eq_refl) in Hpubd. cbn [fmap option_fmap option_map Store.rec_sequence] in Hpubd.
        rewrite bool_decide_true in Hpubd by done. destruct Hpubd as [s' ->]. unfold holds. rewrite Hmode. cbn [Store.value_ref].
        split_and!; [done|done|exact Hmat|by eexists].
      * cbn [fmap option_fmap option_map] in Hpubd. rewrite bool_decide_false in Hpubd by done. rewrite Hpubd, E. by apply Hgone.
    + assert (delete pk (Store.records (store s3)) = delete pk (Store.records (store s2))) as ->; [|done].
      apply map_eq. intros k. destruct (decide (k = pk)) as [->|Hne]; [by rewrite !lookup_delete_eq|].
      rewrite !lookup_delete_ne by done. by apply Hsame.
Qed.

(** ** Preparing *)

(** A value that decodes to itself, with a document that can be indexed. *)
Definition storable (value : V) : Prop :=
  (forall encoded, encode codec value = Ok encoded -> decode codec encoded = Ok value) /\
  (forall d, index_value codec value = Some d -> small d).

Lemma prepare_set_ok key value set_options now operation :
  storable value -> prepare_set codec key value set_options now = Ok operation ->
  op_ok operation /\ op_type operation = Codec.TYPE_SET /\ op_pk operation = key /\
  op_datetimes operation = opt_datetimes set_options /\
  (default 0 (ttl_millis set_options) = 0 -> never_expires operation) /\
  exists encoded, op_value operation = Some encoded /\ encode codec value = Ok encoded /\ decode codec encoded = Ok value.
Proof.
  intros [Hdec Hsm]. unfold prepare_set. destruct (check_key key) as [[]|]; [|done]. simpl_bind.
  destruct (encode codec value) as [encoded|] eqn:Henc; [|done]. cbn [lift]. simpl_bind. specialize (Hdec encoded eq_refl).
  destruct (match opt_datetimes set_options with Some _ => _ | None => _ end) as [meta|]; [|done]. simpl_bind. intros [= <-].
  split_and!; try done.
  - split; [done|]. left. split; [done|]. exists encoded. split_and!; [done| |done]. unfold document_of. cbn [mbind option_bind]. by rewrite Hdec.
  - unfold never_expires. cbn [op_expire_at]. destruct (ttl_millis set_options) as [ttl|]; [|done]. simpl. intros ->. done.
  - by exists encoded.
Qed.

(** ** Evicting *)

Lemma evict_ok n io self key :
  db_ok (n + 1) self -> 0 <= n -> io_ok io ->
  runs (evict codec read_value io key) self (fun r self' =>
    db_ok n self' /\ closed self' = closed self /\
    match r with
    | Ok _ => db_ok (n + 1) self' /\ StoreExpiry.thins (delete key (Store.records (store self))) (Store.records (store self'))
    | Err e => unchanged (Store.records (store self)) (Store.records (store self'))
    end).
Proof.
  intros Hok Hn Hio. unfold evict. apply runs_bind, runs_of_result.
  destruct (prepare_del key) as [operation|e] eqn:Hprep; [|split; [by eapply quiet_db_mono; [exact Hok|lia]|by split]].
  destruct (prepare_del_ok key operation Hprep) as (Hop & Ht & <-).
  apply runs_bind. eapply runs_mono; [by apply (delete_applied_ok n io self operation)|].
  intros r s1 (Hok1 & Hc & Hr). destruct r as [[]|e]; [|by split]. eexists _, _. split; [reflexivity|]. by destruct Hr.
Qed.

Lemma project_total (st : Store.Store KT) operations : Forall (fun operation => op_ok operation) operations ->
  exists projected, project options st operations = Some projected.
Proof.
  intros Hops. unfold project. generalize (Store.bytes_used st, ∅ : gmap bytes Z) as acc.
  induction Hops as [|operation operations [_ Hop] _ IH]; intros [p c]; [by exists p|]. cbn [foldM].
  assert (exists acc, project_one options st (p, c) operation = Some acc) as [acc ->].
  { unfold project_one. destruct Hop as [(Ht & v & Hv & _)|Ht].
    - rewrite bool_decide_true, Hv by done. simpl_bind. by eexists.
    - rewrite bool_decide_false by (rewrite Ht; by vm_compute). simpl_bind. by eexists. }
  simpl_bind. apply IH.
Qed.

Lemma find_victim_in (operations : list Op) (st : Store.Store KT) access key :
  find_victim operations st access = Some key -> is_Some (Store.records st !! key).
Proof.
  unfold find_victim. intros Hh. apply head_Some_elem_of in Hh. apply list_elem_of_filter in Hh. tauto.
Qed.

(** Every round takes a record away, so as many rounds as records are enough. *)
Lemma ensure_memory_loop_ok n ios maximum operations fuel i self :
  db_ok (n + 1) self -> 0 <= n -> (forall j, io_ok (ios j)) -> Forall (fun operation => op_ok operation) operations ->
  (size (Store.records (store self)) < fuel)%nat ->
  runs (ensure_memory_loop codec options read_value fuel ios i maximum operations) self (fun r self' =>
    db_ok n self' /\ closed self' = closed self /\
    match r with
    | Ok _ => db_ok (n + 1) self' /\ exists projected, project options (store self') operations = Some projected /\ projected <= maximum
    | Err _ => True
    end).
Proof.
  intros Hok Hn Hios Hops. revert i self Hok. induction fuel as [|fuel IH]; intros i self Hok Hfuel; [lia|].
  cbn [ensure_memory_loop]. pose proof Hok as (_ & _ & Hw & _).
  destruct (StoreExpiry.reap_leaves krepr dt_json (store self) None (reap_now (ios i)) Hw) as (k & s1 & E & Hl).
  apply runs_bind. eapply runs_store; [exact E|]. cbn beta iota.
  pose proof (db_leaves krepr nrepr orepr trepr codec read_value _ _ _ Hok Hl) as Hok1.
  set (self1 := mk_MiniDb s1 _ _ _) in *.
  assert (size (Store.records s1) <= size (Store.records (store self)))%nat as Hsz by (apply map_subseteq_size; apply Hl).
  apply runs_bind. eexists _, self1. split; [reflexivity|]. cbn beta iota.
  destruct (project_total (store self1) operations Hops) as [projected Hproj].
  apply runs_bind. eapply runs_or_panic; [exact Hproj|]. cbn beta iota.
  assert (db_ok n self1) as Hok0 by (eapply quiet_db_mono; [exact Hok1|lia]).
  destruct (Z.leb_spec projected maximum) as [Hle|Hgt].
  { apply runs_ret. split; [done|]. split; [done|]. split; [done|]. by exists projected. }
  set (victim := find_victim operations (store self1) (access (derived self1))).
  assert (runs (_ ← count_stats (fun stats => mk_MiniDbStats (evictions stats) (max_memory_rejections stats + 1) (query_index_hits stats));
    of_result (A := ()) (Err (MaxMemory projected maximum))) self1 (fun r self' => db_ok n self' /\ closed self' = closed self /\
      match r with
      | Ok _ => db_ok (n + 1) self' /\ exists projected, project options (store self') operations = Some projected /\ projected <= maximum
      | Err _ => True
      end)) as Hreject.
  { apply runs_bind. eexists _, _. split; [reflexivity|]. cbn beta iota. apply runs_of_result. by split. }
  destruct (max_memory_policy options); [exact Hreject|]. destruct victim as [key|] eqn:Hvictim; [|exact Hreject].
  apply runs_bind. eapply runs_mono; [by apply (evict_ok n (ios i) self1 key)|].
  intros r s2 (Hok2 & Hc2 & Hr). destruct r as [[]|e]; [|by split]. destruct Hr as [Hok2' Hthin].
  eapply runs_mono; [apply (IH (S i) s2 Hok2')|].
  - destruct Hthin as [Hs%map_subseteq_size _]. apply find_victim_in in Hvictim as [r Hr].
    pose proof (map_size_delete key (Store.records (store self1))) as Hd. rewrite Hr in Hd. simpl in Hd.
    assert (size (Store.records (store self1)) <> 0)%nat as Hne by (intros E0%map_size_empty_inv; rewrite E0 in Hr; done).
    cbn [self1 store] in *. lia.
  - intros r' s3 (? & Hc3 & ?). split; [done|]. split; [|done]. rewrite Hc3, Hc2. done.
Qed.

Lemma ensure_memory_for_ok n ios operations self :
  db_ok (n + 1) self -> 0 <= n -> (forall j, io_ok (ios j)) -> Forall (fun operation => op_ok operation) operations ->
  runs (ensure_memory_for codec options read_value ios operations) self (fun r self' =>
    db_ok n self' /\ closed self' = closed self /\
    match r with
    | Ok _ => db_ok (n + 1) self' /\
        match max_memory_bytes options with
        | Some maximum => exists projected, project options (store self') operations = Some projected /\ projected <= maximum
        | None => self' = self
        end
    | Err _ => is_Some (max_memory_bytes options)
    end).
Proof.
  intros Hok Hn Hios Hops. unfold ensure_memory_for. destruct (max_memory_bytes options) as [maximum|].
  - eapply runs_mono; [apply (ensure_memory_loop_ok n ios maximum operations); [done..|lia]|].
    intros r s1 (? & ? & ?). split; [done|]. split; [done|]. destruct r; [done|by eexists].
  - apply runs_ret. split; [by eapply quiet_db_mono; [exact Hok|lia]|]. by split.
Qed.

(** The uniqueness checks change nothing. *)
Lemma check_unique_ok n operation self : db_ok n self ->
  runs (check_unique operation) self (fun _ self' => self' = self).
Proof.
  intros Hok. unfold check_unique, runs. destruct (op_index_value operation) as [d|]; [|by eexists _, self].
  destruct Hok as (docs & dts & _ & _ & [(idocs & _ & Him) _ _ _ _ _ _] & _).
  destruct (IndexManagerFacts.check_unique_total number_as_f64 json_text number_text nrepr idocs (indexes (derived self))
    (key_string (op_pk operation)) d Him) as [r ->]. simpl_bind. by eexists _, self.
Qed.
End facts.
End UpdateFacts.
