(* ===== verification/BatchFacts.v ===== *)
(** * The database: batches

    What a batch leaves when its frame is acknowledged, and that all of it is undone
    when the log fails. *)

From Corelib Require Import SpecFloat.
From S2P Require Import Prelude.
From S2P Require Import Crc.
From S2P Require Import Codec.
From S2P Require Import OrdIndex.
From S2P Require Import Store.
From S2P Require Import StoreFacts.
From S2P Require Import StoreExpiry.
From S2P Require Import Recovery.
From S2P Require Import Wal.
From S2P Require Import DtIndex.
From S2P Require Import Query.
From S2P Require Import Float.
From S2P Require Import IndexManager.
From S2P Require Import IndexManagerFacts.
From S2P Require Import CompoundIndex.
From S2P Require Import TextIndex.
From S2P Require Import TextIndexFacts.
From S2P Require Import Snapshot.
From S2P Require Import SnapshotFacts.
From S2P Require Import MiniDb.
From S2P Require Import MiniDbRead.
From S2P Require Import MiniDbFacts.
From S2P Require Import WriteFacts.
From S2P Require Import ReadFacts.
From S2P Require Import UpdateFacts.
Import OrdIndex Float StoreExpiry MiniDb MiniDbRead MiniDbFacts WriteFacts ReadFacts UpdateFacts.

Module BatchFacts.

Section facts.
Context {Number V : Type} `{!Platform Number} `{Crc32fastOk} `{!InUse}.
Context {KT NT OT TT : Type}.
Context `{!OrderedIndex KT bytes bytes} `{!OrderedIndex NT f64 bytes}.
Context `{!OrderedIndex OT CompoundIndex.OrderValue bytes} `{!OrderedIndex TT Z bytes}.
Context (krepr : KT -> list (bytes * bytes) -> Prop) `{!OrderedIndexLaws bytes_cmp bytes_cmp krepr}.
Context (nrepr : NT -> list (f64 * bytes) -> Prop) `{!OrderedIndexLaws compare_number bytes_cmp nrepr}.
Context (orepr : OT -> list (CompoundIndex.OrderValue * bytes) -> Prop)
  `{!OrderedIndexLaws CompoundIndex.compare_order bytes_cmp orepr}.
Context (trepr : TT -> list (Z * bytes) -> Prop) `{!OrderedIndexLaws Z.compare bytes_cmp trepr}.
Context (codec : ValueCodec Number V) (options : OpenOptions).
Context (read_value : option (Store.ValueLoc -> result Store.StoreError bytes)).
Abbreviation Value := (@Query.Value Number).
Abbreviation Db := (@MiniDb.MiniDb KT NT OT TT).
Abbreviation Derived := (@DerivedState NT OT TT).
Abbreviation M := (@MiniDb.M KT NT OT TT).
Abbreviation Op := (@PreparedOp Number).
#[local] Existing Instance MiniDb.M_ret.
#[local] Existing Instance MiniDb.M_bind.
Abbreviation pair_ok := (MiniDbFacts.pair_ok krepr nrepr orepr trepr codec read_value).
Abbreviation db_ok := (MiniDbFacts.db_ok krepr nrepr orepr trepr codec read_value).
Abbreviation value_of := (MiniDbFacts.value_of read_value).
Abbreviation doc_of := (MiniDbFacts.doc_of codec read_value).
Abbreviation readable := (WriteFacts.readable codec read_value).
Abbreviation op_ok := (WriteFacts.op_ok codec).
Abbreviation DbIo := (@MiniDb.Io KT NT OT TT).
Abbreviation io_ok := (UpdateFacts.io_ok codec read_value).
Abbreviation log_reads := (UpdateFacts.log_reads read_value).
Implicit Types (self : Db) (operation : Op) (derived : Derived).




(** ** Applying the operations *)

Abbreviation Records := (gmap bytes Store.StoreRecord).
Implicit Types (m : Records) (previous : gmap bytes (option Store.StoreRecord)).

(** The last set of a key. *)
Definition last_set_step (key : bytes) (acc : option Op) operation : option Op :=
  if decide (op_type operation = Codec.TYPE_SET /\ op_pk operation = key) then Some operation else acc.
Definition last_set (key : bytes) (operations : list Op) : option Op := fold_left (last_set_step key) operations None.

(** The last operation on a key. *)
Definition last_op_step (key : bytes) (acc : option Op) operation : option Op :=
  if decide (op_pk operation = key) then Some operation else acc.
Definition last_op (key : bytes) (operations : list Op) : option Op := fold_left (last_op_step key) operations None.

Definition record_of operation (sequence : Z) : Store.StoreRecord :=
  Store.mk_StoreRecord (Store.Memory (default [] (op_value operation))) (op_expire_at operation) sequence (op_datetimes operation).

(** [m0] were the records, [m] are now that [operations] have been applied. *)
Record applied m0 m (operations : list Op) previous : Prop := {
  a_readable key p : previous !! key = Some (Some p) -> readable p;
  a_touched key old : previous !! key = Some old -> kept (m0 !! key) old;
  a_other key : previous !! key = None -> kept (m0 !! key) (m !! key);
  a_pks operation : operation ∈ operations -> is_Some (previous !! op_pk operation);
  a_last key operation r : last_set key operations = Some operation -> m !! key = Some r -> exists s, r = record_of operation s;
  a_final key : match last_op key operations with
                | None => previous !! key = None
                | Some operation =>
                    if bool_decide (op_type operation = Codec.TYPE_SET) then exists s, m !! key = Some (record_of operation s)
                    else m !! key = None
                end;
  a_never : Forall never_expires operations -> forall key r, is_Some (previous !! key) -> m !! key = Some r -> Store.expire_at r = 0;
}.

Lemma applied_start m0 : applied m0 m0 [] ∅.
Proof.
  constructor.
  - intros key p. by rewrite lookup_empty.
  - intros key old. by rewrite lookup_empty.
  - done.
  - by intros operation ?%elem_of_nil.
  - done.
  - done.
  - intros _ key r. rewrite lookup_empty. by intros [].
Qed.

Definition remember (key : bytes) (record : option Store.StoreRecord) previous : gmap bytes (option Store.StoreRecord) :=
  match previous !! key with Some _ => previous | None => <[key := record]> previous end.

Lemma remember_other key record previous k : k <> key -> remember key record previous !! k = previous !! k.
Proof. intros Hne. unfold remember. destruct (previous !! key); [done|by rewrite lookup_insert_ne]. Qed.

Lemma remember_at key record previous : remember key record previous !! key = Some (default record (previous !! key)).
Proof. unfold remember. destruct (previous !! key) eqn:E; [by rewrite E|by rewrite lookup_insert_eq]. Qed.

Lemma applied_step m0 m m' operations previous operation now s :
  applied m0 m operations previous -> op_ok operation ->
  (forall p, StoreExpiry.cut now (op_pk operation) m !! op_pk operation = Some p -> readable p) ->
  m' = effect operation s (StoreExpiry.cut now (op_pk operation) m) ->
  applied m0 m' (operations ++ [operation])
    (remember (op_pk operation) (StoreExpiry.cut now (op_pk operation) m !! op_pk operation) previous).
Proof.
  intros [Hread Htouch Hother Hpks Hlast Hfinal Hnever] [_ Hop] Hp ->. set (pk := op_pk operation) in *. set (m1 := StoreExpiry.cut now pk m) in *.
  assert (forall k, k <> pk -> effect operation s m1 !! k = m !! k) as Hne.
  { intros k Hk. rewrite effect_other by done. unfold m1, StoreExpiry.cut. destruct (StoreExpiry.live_at _ _ _); [done|by rewrite lookup_delete_ne]. }
  assert (kept (m !! pk) (m1 !! pk)) as Hkept by (apply thins_kept, cut_thins).
  assert (effect operation s m1 !! pk = if bool_decide (op_type operation = Codec.TYPE_SET) then Some (record_of operation s) else None) as Hat.
  { unfold effect. fold pk. destruct (bool_decide _); [apply lookup_insert_eq|apply lookup_delete_eq]. }
  constructor.
  - intros key p Hk. destruct (decide (key = pk)) as [->|Hk']; [|rewrite remember_other in Hk by done; by eapply Hread].
    rewrite remember_at in Hk. injection Hk as Hk. destruct (previous !! pk) eqn:E; simpl in Hk; [subst; by eapply Hread|by apply Hp].
  - intros key old Hk. destruct (decide (key = pk)) as [->|Hk']; [|rewrite remember_other in Hk by done; by apply Htouch].
    rewrite remember_at in Hk. injection Hk as <-. destruct (previous !! pk) eqn:E; simpl; [by apply Htouch|].
    etrans; [by apply Hother|done].
  - intros key Hk. destruct (decide (key = pk)) as [->|Hk']; [by rewrite remember_at in Hk|].
    rewrite remember_other in Hk by done. rewrite Hne by done. by apply Hother.
  - intros o [Hin| ->%list_elem_of_singleton]%elem_of_app.
    + destruct (decide (op_pk o = pk)) as [->|Ho]; [rewrite remember_at; by eexists|]. rewrite remember_other by done. by apply Hpks.
    + fold pk. rewrite remember_at. by eexists.
  - intros key o r. unfold last_set. rewrite fold_left_app. cbn [fold_left]. unfold last_set_step at 1. fold pk.
    destruct (decide (key = pk)) as [->|Hk].
    + rewrite Hat. destruct (bool_decide_reflect (op_type operation = Codec.TYPE_SET)) as [Ht|Ht]; [|done].
      rewrite decide_True by done. intros [= <-] [= <-]. by exists s.
    + rewrite decide_False by (intros [_ ?]; congruence). rewrite Hne by done. apply Hlast.
  - intros key. specialize (Hfinal key). unfold last_op in *. rewrite fold_left_app. cbn [fold_left]. unfold last_op_step at 1. fold pk.
    destruct (decide (pk = key)) as [<-|Hk].
    + rewrite Hat. destruct (bool_decide _); [by eexists|done].
    + rewrite Hne, remember_other by done. exact Hfinal.
  - intros Hall key r Hs Hk. apply Forall_app in Hall as [Hall [Hzero _]%Forall_cons]. destruct (decide (key = pk)) as [->|Hk'].
    + rewrite Hat in Hk. destruct (bool_decide _); [|done]. by injection Hk as <-.
    + rewrite remember_other in Hs by done. rewrite Hne in Hk by done. by eapply Hnever.
Qed.

Lemma apply_all_ok n io m0 operations : forall i self done_ops previous,
  db_ok (n + zlen operations) self -> 0 <= n -> Forall (fun operation => op_ok operation) operations ->
  applied m0 (Store.records (store self)) done_ops previous -> Store.expired (store self) = [] \/ operations <> [] ->
  runs (apply_all codec read_value io i operations previous) self (fun r self' =>
    db_ok n self' /\ closed self' = closed self /\
    match r with
    | Ok previous' => applied m0 (Store.records (store self')) (done_ops ++ operations) previous' /\ Store.expired (store self') = [] /\
        Z.of_nat (size previous') <= Z.of_nat (size previous) + zlen operations
    | Err e => exists x, e = StoreFailed x
    end).
Proof.
  induction operations as [|operation operations IH]; intros i self done_ops previous Hok Hn Hops Happ Hq; cbn [apply_all].
  { apply runs_ret. rewrite zlen_nil, Z.add_0_r in *. rewrite app_nil_r. split; [done|]. split; [done|].
    split; [done|]. split; [by destruct Hq|lia]. }
  apply Forall_cons in Hops as [Hop Hops]. rewrite zlen_cons in Hok |- *.
  assert (0 <= zlen operations) by apply zlen_nonneg.
  apply runs_bind. replace (n + (1 + zlen operations)) with (n + zlen operations + 1) in Hok by lia.
  eapply runs_mono; [apply (apply_operation_ok krepr nrepr orepr trepr codec read_value (n + zlen operations) self operation _ Hok ltac:(lia) Hop)|].
  intros r s1 (Hok1 & _ & Hc1 & _ & Hx1 & Hr). destruct r as [[record sequence]|e].
  2:{ split; [by eapply quiet_db_mono; [exact Hok1|lia]|]. split; [done|]. destruct Hr as (_ & _ & ?). done. }
  destruct Hr as (-> & Hread & _ & s & Hrec).
  eapply runs_mono; [apply (IH (S i) s1 (done_ops ++ [operation]) _ Hok1 Hn Hops)|].
  - eapply applied_step; [exact Happ|exact Hop|exact Hread|exact Hrec].
  - by left.
  - intros r s2 (Hok2 & Hc2 & Hr2). split; [done|]. split; [congruence|]. destruct r as [previous'|e]; [|done].
    destruct Hr2 as (Happ2 & Hx2 & Hsz). rewrite <- app_assoc in Happ2. split; [done|]. split; [done|].
    fold (remember (op_pk operation) (StoreExpiry.cut (apply_now io i) (op_pk operation) (Store.records (store self)) !! op_pk operation) previous) in Hsz.
    assert (size (remember (op_pk operation) (StoreExpiry.cut (apply_now io i) (op_pk operation) (Store.records (store self)) !! op_pk operation) previous)
      <= S (size previous))%nat; [|lia].
    unfold remember. destruct (previous !! op_pk operation) eqn:E; [lia|]. by rewrite map_size_insert_None.
Qed.

(** ** Undoing a batch *)

(** What is known of the keys still to be put back: [m1] are the records the operations
    left, and the record of each key is still that one, or has expired. *)
Record pending m0 m1 (sequences : gmap bytes (option Z)) self (l : list (bytes * option Store.StoreRecord)) : Prop := {
  p_kept key old : (key, old) ∈ l -> kept (m0 !! key) old;
  p_readable key p : (key, Some p) ∈ l -> readable p;
  p_sequence key old : (key, old) ∈ l -> sequences !! key = Some (Store.rec_sequence <$> m1 !! key);
  p_queue key old : (key, old) ∈ l -> m1 !! key = None -> key ∉ (Store.expired (store self)).*1;
  p_none key old : (key, old) ∈ l -> m1 !! key = None -> Store.records (store self) !! key = None;
  p_stays key old r : (key, old) ∈ l -> m1 !! key = Some r -> Store.expire_at r = 0 -> Store.records (store self) !! key = Some r;
}.

Lemma pending_tail m0 m1 sequences self self' x l : pending m0 m1 sequences self (x :: l) -> x.1 ∉ l.*1 ->
  same_but x.1 (store self) (store self') -> pending m0 m1 sequences self' l.
Proof.
  intros [Hk Hr Hs Hq Hn Hst] Hx Hsame.
  assert (forall key old, (key, old) ∈ l -> key <> x.1 /\ (key, old) ∈ x :: l) as Hin.
  { intros key old Hin. split; [|by right]. intros ->. apply Hx. apply list_elem_of_fmap. by exists (x.1, old). }
  constructor.
  - intros key old Hi. by apply Hk, Hin.
  - intros key p Hi. by eapply Hr, Hin.
  - intros key old Hi. by eapply Hs, Hin.
  - intros key old Hi Hnone. destruct (Hin _ _ Hi) as [Hne Hi']. rewrite (proj2 (Hsame key Hne)). by eapply Hq.
  - intros key old Hi Hnone. destruct (Hin _ _ Hi) as [Hne Hi']. rewrite (proj1 (Hsame key Hne)). by eapply Hn.
  - intros key old r Hi Hm He. destruct (Hin _ _ Hi) as [Hne Hi']. rewrite (proj1 (Hsame key Hne)). by eapply Hst.
Qed.

Lemma restore_all_ok (n : Z) (io : DbIo) m0 m1 (sequences : gmap bytes (option Z)) (l : list (bytes * option Store.StoreRecord)) : forall (i : nat) self,
  db_ok (n + zlen l) self -> 0 <= n -> NoDup l.*1 -> pending m0 m1 sequences self l ->
  runs (restore_all codec read_value io i sequences l) self (fun r self' => r = Ok tt /\ db_ok n self' /\ closed self' = closed self /\
    (forall key, key ∉ l.*1 -> Store.records (store self') !! key = Store.records (store self) !! key) /\
    ((forall key r, key ∈ l.*1 -> m1 !! key = Some r -> Store.expire_at r = 0) ->
     forall key, key ∈ l.*1 -> kept (m0 !! key) (Store.records (store self') !! key))).
Proof.
  induction l as [|[key old] l IH]; intros i self Hok Hn Hnd Hp; cbn [restore_all].
  { apply runs_ret. rewrite zlen_nil, Z.add_0_r in Hok. split_and!; try done. by intros _ key ?%elem_of_nil. }
  rewrite zlen_cons in Hok. assert (0 <= zlen l) by apply zlen_nonneg. apply NoDup_cons in Hnd as [Hkey Hnd]. cbn [fst] in Hkey.
  pose proof (p_sequence _ _ _ _ _ Hp key old ltac:(by left)) as Hseq.
  apply runs_bind. eapply runs_or_panic; [exact Hseq|]. cbn beta iota.
  replace (n + (1 + zlen l)) with (n + zlen l + 1) in Hok by lia. apply runs_bind.
  eapply runs_mono; [apply (restore_key_ok krepr nrepr orepr trepr codec read_value (n + zlen l) self key old _ _ Hok ltac:(lia))|].
  - intros Hnone%fmap_None. by eapply (p_queue _ _ _ _ _ Hp key old); [left|].
  - intros p ->. eapply (p_readable _ _ _ _ _ Hp key p). by left.
  - intros r s1 (-> & Hok1 & Hc1 & _ & Hsame & Hat).
    eapply runs_mono; [apply (IH (S i) s1 Hok1 Hn Hnd)|].
    { eapply (pending_tail m0 m1 sequences self s1 (key, old)); [exact Hp|exact Hkey|exact Hsame]. }
    intros r s2 (-> & Hok2 & Hc2 & Hother & Hdone). split; [done|]. split; [done|]. split; [congruence|]. split.
    + intros k Hk. cbn [fmap list_fmap fst] in Hk. apply not_elem_of_cons in Hk as [Hne Hk]. rewrite Hother by done. by apply Hsame.
    + intros Hzero k Hk. cbn [fmap list_fmap fst] in Hk, Hzero.
      apply elem_of_cons in Hk as [->|Hk]; [|apply Hdone; [|done]; intros k' r' Hk'; apply Hzero; by right].
      rewrite Hother by done. pose proof (p_kept _ _ _ _ _ Hp key old ltac:(by left)) as Hkept.
      destruct (superseded _ _) eqn:Hsup; [|destruct Hat as [s ->]; etrans; [exact Hkept|apply kept_restored]].
      exfalso. unfold superseded, record_sequence in Hsup. destruct (m1 !! key) as [r'|] eqn:Em.
      * rewrite (p_stays _ _ _ _ _ Hp key old r' ltac:(by left) Em) in Hsup by (eapply Hzero; [by left|done]).
        cbn [fmap option_fmap option_map] in Hsup. by rewrite Z.eqb_refl in Hsup.
      * rewrite (p_none _ _ _ _ _ Hp key old ltac:(by left) Em) in Hsup. done.
Qed.

(** ** Publishing a batch *)

Lemma publish_all_ok (n offset : Z) (sequences : gmap bytes (option Z)) (l : list (bytes * (Op * Codec.BatchOpRef))) : forall self,
  db_ok n self -> 0 <= n -> NoDup l.*1 ->
  (forall key operation reference, (key, (operation, reference)) ∈ l -> op_pk operation = key /\ is_Some (sequences !! key) /\
     Store.materialize read_value (Store.Disk (Store.mk_ValueLoc Store.Wal (offset + Codec.HEADER_SIZE + Codec.opref_value_offset reference)
       (Codec.opref_value_len reference))) = Ok (default [] (op_value operation)) /\
     forall r, Store.records (store self) !! key = Some r -> exists s, r = record_of operation s) ->
  runs (publish_all offset sequences l) self (fun r self' => r = Ok tt /\ db_ok n self' /\ closed self' = closed self /\
    forall key, Store.records (store self') !! key = Store.records (store self) !! key \/
      exists operation reference r, (key, (operation, reference)) ∈ l /\ is_Some (Store.records (store self) !! key) /\ Store.records (store self') !! key = Some r /\
        Store.expire_at r = op_expire_at operation /\ Store.datetimes r = op_datetimes operation /\
        Store.materialize read_value (Store.value_ref r) = Ok (default [] (op_value operation))).
Proof.
  induction l as [|[key [operation reference]] l IH]; intros self Hok Hn Hnd Hl; cbn [publish_all].
  { apply runs_ret. split; [done|]. split; [done|]. split; [done|]. by left. }
  apply NoDup_cons in Hnd as [Hkey Hnd]. cbn [fst] in Hkey.
  destruct (Hl key operation reference ltac:(by left)) as (Hpk & [sequence Hseq] & Hmat & Hrec).
  apply runs_bind. eapply runs_or_panic; [exact Hseq|]. cbn beta iota. apply runs_bind.
  eapply runs_mono; [apply (publish_wal_ref_ok krepr nrepr orepr trepr codec read_value n self operation sequence _ Hok Hn)|].
  { intros s r _ Hr. rewrite Hpk in Hr. destruct (Hrec r Hr) as [s' ->]. eexists. split; [reflexivity|exact Hmat]. }
  intros r s1 (-> & Hok1 & Hc1 & _ & _ & Hsame & Hat). rewrite Hpk in Hsame, Hat.
  assert (forall k, k ∈ l.*1 -> k <> key) as Hne by (intros k Hk ->; done).
  eapply runs_mono; [apply (IH s1 Hok1 Hn Hnd)|].
  - intros k o ref Hin. destruct (Hl k o ref ltac:(by right)) as (? & ? & ? & Hr'). split; [done|]. split; [done|]. split; [done|].
    intros r. rewrite (proj1 (Hsame k (Hne k ltac:(apply list_elem_of_fmap; by exists (k, (o, ref)))))). apply Hr'.
  - intros r s2 (-> & Hok2 & Hc2 & Hall). split; [done|]. split; [done|]. split; [congruence|]. intros k.
    destruct (Hall k) as [E|(o & ref & r & Hin & Hs & Hr)].
    2:{ right. exists o, ref, r. split; [by right|]. split; [|done].
        by rewrite <- (proj1 (Hsame k (Hne k ltac:(apply list_elem_of_fmap; by exists (k, (o, ref)))))). }
    destruct (decide (k = key)) as [->|Hk]; [|left; rewrite E; by apply Hsame].
    destruct (bool_decide _ && bool_decide _) eqn:Hc; [|by subst; left]. destruct Hat as [s Hat]. right. exists operation, reference. eexists.
    split; [by left|]. split.
    { apply andb_true_iff in Hc as [[q Hq']%bool_decide_eq_true Hc%bool_decide_eq_true]. unfold record_sequence in Hc. rewrite Hq' in Hc.
      destruct (Store.records (store self) !! key); [by eexists|done]. }
    rewrite E, Hat. split_and!; [done|done|done|exact Hmat].
Qed.

(** ** The whole batch *)

Lemma last_sets_spec (operations : list Op) (references : list Codec.BatchOpRef) key operation reference :
  length references = length operations -> last_sets operations references !! key = Some (operation, reference) ->
  last_set key operations = Some operation /\ (operation, reference) ∈ zip operations references /\ op_pk operation = key /\
  op_type operation = Codec.TYPE_SET.
Proof.
  intros Hlen. rewrite <- (fst_zip operations references) at 2 by lia. unfold last_sets. generalize (zip operations references) as zs.
  induction zs as [|[o ref] zs IH] using rev_ind; [done|]. rewrite fold_left_app. cbn [fold_left fst].
  rewrite fmap_app. unfold last_set. rewrite fold_left_app. cbn [fmap list_fmap fst fold_left]. unfold last_set_step at 1.
  assert (forall A (x y : A) l, x ∈ l -> x ∈ l ++ [y]) as Happ by (intros; apply elem_of_app; by left).
  case_bool_decide as Ht; [|rewrite decide_False by (by intros [? _]); intros Hk; destruct (IH Hk) as (? & ? & ?); split; [done|]; split; [by apply Happ|done]].
  intros [[Hk [= -> ->]]|[Hne Hk]]%lookup_insert_Some.
  - rewrite decide_True by done. split; [done|]. split; [|done]. apply elem_of_app. right. by left.
  - rewrite decide_False by (by intros [_ ?]). destruct (IH Hk) as (? & ? & ?). split; [done|]. split; [by apply Happ|done].
Qed.

Definition publishable (io : DbIo) (prepared : list Op) : Prop :=
  value_mode options = Recovery.OnDisk ->
  log_reads io /\ Forall Codec.batch_op_wf (map to_batch_op prepared) /\
  forall body, Codec.encode_batch_ops (map to_batch_op prepared) = Ok body -> zlen body <= U64_MAX.

(** The references of an encoded batch lead to the values. *)
Lemma batch_references (prepared : list Op) body :
  Forall Codec.batch_op_wf (map to_batch_op prepared) -> Codec.encode_batch_ops (map to_batch_op prepared) = Ok body ->
  zlen body <= U64_MAX ->
  exists references, Codec.scan_batch_op_refs body 0 = Ok references /\ length references = length prepared /\
    forall operation reference, (operation, reference) ∈ zip prepared references ->
      let a := Codec.opref_value_offset reference in let l := Codec.opref_value_len reference in
      0 <= a /\ 0 <= l /\ a + l <= zlen body /\ slice body a (a + l) = default [] (op_value operation).
Proof.
  intros Hwf Henc Hlen. pose proof (Codec.scan_batch_op_refs_agree body 0) as Hs.
  rewrite (Codec.decode_encode_batch_ops _ _ Hwf Henc Hlen) in Hs. destruct (Codec.scan_batch_op_refs body 0) as [references|]; [|done].
  exists references. split; [done|]. pose proof (Forall2_length _ _ _ Hs) as Hl. rewrite !length_map in Hl. split; [done|].
  clear Henc Hlen Hwf Hl. revert references Hs. induction prepared as [|o prepared IH]; intros references Hs.
  - intros operation reference Hin. by apply elem_of_nil in Hin.
  - cbn [map] in Hs. apply Forall2_cons_inv_r in Hs as (ref & references' & Href & Hs & ->). cbn [zip zip_with].
    intros operation reference [[= -> ->]|Hin]%elem_of_cons; [|exact (IH references' Hs operation reference Hin)]. destruct Href as (_ & _ & _ & _ & H0a & H0l & Hle & Hv).
    rewrite Z.sub_0_r in *. cbn [Codec.op_value Codec.stored_batch_op to_batch_op] in Hv. injection Hv as <-. done.
Qed.

(** A frame of a batch holds its body. *)
Lemma batch_frame_slice body frame a l :
  Codec.encode_frame (Codec.mk_Frame Codec.TYPE_BATCH [] body None 0) = Ok frame -> 0 <= a -> 0 <= l -> a + l <= zlen body ->
  slice frame (Codec.HEADER_SIZE + a) (Codec.HEADER_SIZE + a + l) = slice body a (a + l) /\ Codec.HEADER_SIZE + a + l <= zlen frame.
Proof.
  intros Henc Ha Hl Hle. destruct (SnapshotFacts.encode_frame_value _ frame Henc) as [Hs Hend]. cbn [Codec.key Codec.value] in Hs, Hend.
  rewrite zlen_nil, Z.add_0_r in Hs, Hend. split; [|lia]. rewrite <- Hs at 1. rewrite slice_slice by (unfold Codec.HEADER_SIZE; lia).
  f_equal; lia.
Qed.

(** What a key holds after an acknowledged batch. *)
Definition answers operation (r : option Store.StoreRecord) : Prop :=
  match r with
  | Some r => Store.expire_at r = op_expire_at operation /\ Store.datetimes r = op_datetimes operation /\
      Store.materialize read_value (Store.value_ref r) = Ok (default [] (op_value operation))
  | None => ~ never_expires operation
  end.
Definition batch_result (operations : list Op) m m' : Prop := forall key,
  match last_op key operations with
  | None => kept (m !! key) (m' !! key)
  | Some operation => if bool_decide (op_type operation = Codec.TYPE_SET) then answers operation (m' !! key) else m' !! key = None
  end.

Lemma last_op_in key (operations : list Op) operation : last_op key operations = Some operation -> operation ∈ operations /\ op_pk operation = key.
Proof.
  unfold last_op. induction operations as [|o operations IH] using rev_ind; [done|]. rewrite fold_left_app. cbn [fold_left].
  unfold last_op_step at 1. rewrite elem_of_app. case_decide; [intros [= ->]; split; [right; by left|done]|].
  intros Hl. destruct (IH Hl). split; [by left|done].
Qed.

Lemma last_op_None key (operations : list Op) : last_op key operations = None -> key ∉ map op_pk operations.
Proof.
  unfold last_op. induction operations as [|o operations IH] using rev_ind; [intros _ Hin; by apply elem_of_nil in Hin|].
  rewrite fold_left_app, map_app. cbn [fold_left map]. unfold last_op_step at 1. case_decide; [done|].
  intros Hl [Hin| ->%list_elem_of_singleton]%elem_of_app; [by apply IH|done].
Qed.

Lemma record_of_answers operation operation' s s' : record_of operation s = record_of operation' s' ->
  op_expire_at operation' = op_expire_at operation /\ op_datetimes operation' = op_datetimes operation /\
  default [] (op_value operation') = default [] (op_value operation).
Proof. unfold record_of. by intros [= -> -> _ ->]. Qed.

Lemma applied_result operations previous m0 m1 m2 :
  applied m0 m1 operations previous -> Forall (fun operation => op_ok operation) operations ->
  StoreExpiry.thins m1 m2 -> batch_result operations m0 m2.
Proof.
  intros Happ Hops Hthin key. pose proof (a_final _ _ _ _ Happ key) as Hf. destruct (last_op key operations) as [operation|] eqn:El.
  - destruct (last_op_in _ _ _ El) as [Hin <-]. destruct (bool_decide_reflect (op_type operation = Codec.TYPE_SET)) as [Ht|Ht].
    + destruct Hf as [s Hm]. unfold answers. destruct (m2 !! op_pk operation) as [r|] eqn:E.
      * destruct Hthin as [Hs _]. pose proof (lookup_weaken _ _ _ _ E Hs) as E'. assert (r = record_of operation s) as -> by congruence. done.
      * intros Hne. by rewrite (StoreExpiry.thins_stays _ _ _ _ Hthin Hm Hne) in E.
    + destruct (m2 !! op_pk operation) eqn:E; [|done]. destruct Hthin as [Hs _]. pose proof (lookup_weaken _ _ _ _ E Hs). congruence.
  - etrans; [by apply (a_other _ _ _ _ Happ)|by apply thins_kept].
Qed.

(** The sequences the batch notes once its operations are applied. *)
Definition sequences_of self previous : gmap bytes (option Z) :=
  map_imap (fun key _ => Some (record_sequence key (store self))) previous.

Lemma sequences_lookup self previous key old : previous !! key = Some old ->
  sequences_of self previous !! key = Some (Store.rec_sequence <$> Store.records (store self) !! key).
Proof. intros Hk. unfold sequences_of. by rewrite map_lookup_imap, Hk. Qed.

Lemma undo_batch_ok n io m0 (prepared : list Op) previous s1 s2 :
  db_ok (n + Z.of_nat (size previous)) s2 -> 0 <= n -> quiet s1 s2 -> Store.expired (store s1) = [] ->
  applied m0 (Store.records (store s1)) prepared previous ->
  runs (restore_all codec read_value io 0 (sequences_of s1 previous) (map_to_list previous)) s2 (fun r s3 =>
    r = Ok tt /\ db_ok n s3 /\ closed s3 = closed s2 /\ (Forall never_expires prepared -> unchanged m0 (Store.records (store s3)))).
Proof.
  intros Hok Hn [Hthin Hqueue _] Hx1 Happ. set (m1 := Store.records (store s1)) in *. set (l := map_to_list previous).
  assert (forall key old, (key, old) ∈ l -> previous !! key = Some old) as Hl by (intros key old; apply elem_of_map_to_list).
  eapply runs_mono; [apply (restore_all_ok n io m0 m1 (sequences_of s1 previous) l 0 s2)|].
  - eapply quiet_db_mono; [exact Hok|].
    assert (zlen l = Z.of_nat (size previous)) as -> by (unfold zlen, l; by rewrite length_map_to_list). lia.
  - done.
  - apply NoDup_fst_map_to_list.
  - constructor.
    + intros key old Hin. by apply (a_touched _ _ _ _ Happ), Hl.
    + intros key p Hin. by eapply (a_readable _ _ _ _ Happ), Hl.
    + intros key old Hin. by eapply sequences_lookup, Hl.
    + intros key old Hin Hnone Hx. destruct (Hqueue key Hx) as [Hx'|[r Hr]]; [rewrite Hx1 in Hx'; by apply elem_of_nil in Hx'|].
      fold m1 in Hr. congruence.
    + intros key old Hin Hnone. destruct (Store.records (store s2) !! key) eqn:E; [|done]. destruct Hthin as [Hs _].
      pose proof (lookup_weaken _ _ _ _ E Hs). congruence.
    + intros key old r Hin Hm He. by eapply StoreExpiry.thins_stays.
  - intros r s3 (-> & Hok3 & Hc3 & Hother & Hkeys). split; [done|]. split; [done|]. split; [done|]. intros Hall key.
    destruct (previous !! key) as [old|] eqn:Ep.
    + apply Hkeys; [|apply list_elem_of_fmap; exists (key, old); split; [done|by apply elem_of_map_to_list]].
      intros k r ([k' old'] & -> & Hin)%list_elem_of_fmap. apply (a_never _ _ _ _ Happ Hall). cbn [fst]. rewrite (Hl _ _ Hin). by eexists.
    + rewrite Hother by (intros ([k' old'] & -> & Hin)%list_elem_of_fmap; cbn [fst] in Ep; rewrite (Hl _ _ Hin) in Ep; done).
      etrans; [by apply (a_other _ _ _ _ Happ)|by apply thins_kept].
Qed.

Lemma publish_batch_ok n (io : DbIo) m0 (prepared : list Op) previous s1 s2 body frame offset :
  db_ok n s2 -> 0 <= n -> quiet s1 s2 -> applied m0 (Store.records (store s1)) prepared previous ->
  value_mode options = Recovery.OnDisk -> publishable io prepared -> batch_result prepared m0 (Store.records (store s2)) ->
  Codec.encode_batch_ops (map to_batch_op prepared) = Ok body ->
  Codec.encode_frame (Codec.mk_Frame Codec.TYPE_BATCH [] body None 0) = Ok frame ->
  append io frame = Ok offset -> (done io s1).1 = Ok () ->
  exists references, Codec.scan_batch_op_refs body 0 = Ok references /\
    runs (publish_all offset (sequences_of s1 previous) (map_to_list (last_sets prepared references))) s2 (fun r s3 =>
      r = Ok tt /\ db_ok n s3 /\ closed s3 = closed s2 /\ batch_result prepared m0 (Store.records (store s3))).
Proof.
  intros Hok Hn [Hthin _ _] Happ Hmode Hpub Hres Hbody Hframe Happend Hdone. set (m1 := Store.records (store s1)) in *.
  destruct (Hpub Hmode) as (Hreads & Hwf & Hlen). specialize (Hlen body Hbody).
  destruct (batch_references prepared body Hwf Hbody Hlen) as (references & Hrefs & Hrlen & Hval).
  exists references. split; [done|].
  assert (forall key operation r, last_set key prepared = Some operation -> Store.records (store s2) !! key = Some r ->
    m1 !! key = Some r /\ exists s, r = record_of operation s) as Hlast.
  { intros key operation r Hls Hr. destruct Hthin as [Hs _]. pose proof (lookup_weaken _ _ _ _ Hr Hs). split; [done|].
    by eapply (a_last _ _ _ _ Happ). }
  eapply runs_mono; [apply (publish_all_ok n offset (sequences_of s1 previous) (map_to_list (last_sets prepared references)) s2 Hok Hn)|].
  - apply NoDup_fst_map_to_list.
  - intros key operation reference Hin%elem_of_map_to_list.
    destruct (last_sets_spec prepared references key operation reference Hrlen Hin) as (Hls & Hzip & Hpk & _).
    split; [done|]. split; [|split].
    + destruct (a_pks _ _ _ _ Happ operation) as [old Hold]; [by apply elem_of_zip_l in Hzip|]. rewrite Hpk in Hold.
      rewrite (sequences_lookup s1 previous key old Hold). by eexists.
    + destruct (Hval operation reference Hzip) as (Ha & Hl & Hle & Hslice). rewrite <- Hslice.
      destruct (batch_frame_slice body frame _ _ Hframe Ha Hl Hle) as [Hs Hend]. rewrite <- Hs.
      rewrite <- (Hreads frame offset s1 (Codec.HEADER_SIZE + Codec.opref_value_offset reference)) by (done || unfold Codec.HEADER_SIZE in *; lia).
      by rewrite Z.add_assoc.
    + intros r Hr. by apply (Hlast key operation r Hls Hr).
  - intros r s3 (-> & Hok3 & Hc3 & Hall). split; [done|]. split; [done|]. split; [done|].
    intros key. specialize (Hres key). destruct (Hall key) as [->|(operation & reference & r & Hin%elem_of_map_to_list & [r2 Hr2] & -> & He & Hd & Hm)]; [done|].
    destruct (last_sets_spec prepared references key operation reference Hrlen Hin) as (Hls & Hzip & Hpk & _).
    destruct (Hlast key operation r2 Hls Hr2) as (Hm1 & s' & ->).
    pose proof (a_final _ _ _ _ Happ key) as Hf. destruct (last_op key prepared) as [o|] eqn:El.
    + destruct (bool_decide _); [|congruence]. destruct Hf as [s Hf]. assert (record_of o s = record_of operation s') as Ho by congruence.
      unfold answers. by destruct (record_of_answers o operation s s' Ho) as (<- & <- & <-).
    + exfalso. apply last_op_None in El. apply El. rewrite <- Hpk.
      apply list_elem_of_In, in_map, list_elem_of_In. by apply elem_of_zip_l in Hzip.
Qed.

Lemma write_batch_ok n io self (prepared : list Op) :
  db_ok (n + 2 * zlen prepared) self -> 0 <= n -> io_ok io -> prepared <> [] -> Forall (fun operation => op_ok operation) prepared -> publishable io prepared ->
  runs (write_batch codec options read_value io prepared) self (fun r self' =>
    db_ok n self' /\ closed self' = closed self /\
    match r with
    | Ok _ => batch_result prepared (Store.records (store self)) (Store.records (store self'))
    | Err (WalFailed e) => Forall never_expires prepared -> unchanged (Store.records (store self)) (Store.records (store self'))
    | Err _ => True
    end).
Proof.
  intros Hok Hn Hio Hne Hops Hpub. unfold write_batch. assert (0 <= zlen prepared) as Hz by apply zlen_nonneg.
  assert (db_ok n self) as Hok0 by (eapply quiet_db_mono; [exact Hok|lia]).
  apply runs_bind, runs_of_result. destruct (Codec.encode_batch_ops (map to_batch_op prepared)) as [body|e] eqn:Hbody; cbn [lift]; [|by split].
  apply runs_bind, runs_of_result. destruct (Codec.encode_frame _) as [frame|e] eqn:Hframe; cbn [lift]; [|by split].
  apply runs_bind, runs_of_result. destruct (append io frame) as [offset|e] eqn:Happend; cbn [lift]; [|by split].
  apply runs_bind. replace (n + 2 * zlen prepared) with (n + zlen prepared + zlen prepared) in Hok by lia.
  set (m0 := Store.records (store self)).
  eapply runs_mono; [apply (apply_all_ok (n + zlen prepared) io m0 prepared 0 self [] ∅ Hok ltac:(lia) Hops (applied_start m0)); by right|].
  intros r s1 (Hok1 & Hc1 & Hr). destruct r as [previous|e].
  2:{ split; [by eapply quiet_db_mono; [exact Hok1|lia]|]. split; [done|]. by destruct Hr as [x ->]. }
  destruct Hr as (Happ & Hx1 & Hsz). cbn [app] in Happ. rewrite map_size_empty in Hsz.
  apply runs_bind. eexists _, s1. split; [reflexivity|]. cbn beta iota. fold (sequences_of s1 previous).
  apply runs_bind. eapply runs_mono; [apply (wait_ok krepr nrepr orepr trepr codec read_value (n + zlen prepared) io s1 ltac:(lia) Hio Hok1)|].
  intros r s2 (-> & Hok2 & Hq). pose proof Hq as [Hthin _ Hcl]. destruct ((done io s1).1) as [[]|e] eqn:Hdone.
  2:{ apply runs_bind. eapply runs_mono; [apply (undo_batch_ok n io m0 prepared previous s1 s2); try done|].
      { eapply quiet_db_mono; [exact Hok2|lia]. }
      intros r s3 (-> & Hok3 & Hc3 & Hun). apply runs_of_result. split; [done|]. split; [congruence|done]. }
  assert (batch_result prepared m0 (Store.records (store s2))) as Hres by by eapply applied_result.
  assert (db_ok n s2) as Hok2' by (eapply quiet_db_mono; [exact Hok2|lia]).
  destruct (value_mode options) eqn:Hmode; [apply runs_ret; split; [done|split; [congruence|exact Hres]]|].
  destruct (publish_batch_ok n io m0 prepared previous s1 s2 body frame offset) as (references & Hrefs & Hruns); try done.
  apply runs_bind, runs_of_result. rewrite Hrefs. cbn [lift].
  eapply runs_mono; [exact Hruns|]. intros r s3 (-> & Hok3 & Hc3 & Hres3). split; [done|]. split; [congruence|done].
Qed.
End facts.
End BatchFacts.
