(* ===== verification/FacadeFacts.v ===== *)
(** * The database: its operations

    The claims about the operations of the database: the derived state stands for the
    store through every history of reads, expiry and writes, whatever the log does; a
    write whose log fails is undone, an acknowledged one is read back; the memory
    limit holds; a lookup through an index returns the records that match. *)

From Corelib Require Import SpecFloat.
From S2P Require Import Prelude.
From S2P Require Import Crc.
From S2P Require Import Codec.
From S2P Require Import OrdIndex.
From S2P Require Import Store.
From S2P Require Import StoreFacts.
From S2P Require Import StoreExpiry.
From S2P Require Import Recovery.
From S2P Require Import Wal.
From S2P Require Import DtIndex.
From S2P Require Import Query.
From S2P Require Import Float.
From S2P Require Import IndexManager.
From S2P Require Import IndexManagerFacts.
From S2P Require Import CompoundIndex.
From S2P Require Import TextIndex.
From S2P Require Import TextIndexFacts.
From S2P Require Import Snapshot.
From S2P Require Import SnapshotFacts.
From S2P Require Import MiniDb.
From S2P Require Import MiniDbRead.
From S2P Require Import MiniDbFacts.
From S2P Require Import WriteFacts.
From S2P Require Import ReadFacts.
From S2P Require Import UpdateFacts.
From S2P Require Import BatchFacts.
Import OrdIndex Float StoreExpiry MiniDb MiniDbRead MiniDbFacts WriteFacts ReadFacts UpdateFacts BatchFacts.

Module FacadeFacts.

Section facts.
Context {Number V : Type} `{!Platform Number} `{Crc32fastOk} `{!InUse}.
Context {KT NT OT TT : Type}.
Context `{!OrderedIndex KT bytes bytes} `{!OrderedIndex NT f64 bytes}.
Context `{!OrderedIndex OT CompoundIndex.OrderValue bytes} `{!OrderedIndex TT Z bytes}.
Context (krepr : KT -> list (bytes * bytes) -> Prop) `{!OrderedIndexLaws bytes_cmp bytes_cmp krepr}.
Context (nrepr : NT -> list (f64 * bytes) -> Prop) `{!OrderedIndexLaws compare_number bytes_cmp nrepr}.
Context (orepr : OT -> list (CompoundIndex.OrderValue * bytes) -> Prop)
  `{!OrderedIndexLaws CompoundIndex.compare_order bytes_cmp orepr}.
Context (trepr : TT -> list (Z * bytes) -> Prop) `{!OrderedIndexLaws Z.compare bytes_cmp trepr}.
Context (codec : ValueCodec Number V) (options : OpenOptions).
Context (read_value : option (Store.ValueLoc -> result Store.StoreError bytes)).
Abbreviation Value := (@Query.Value Number).
Abbreviation Db := (@MiniDb.MiniDb KT NT OT TT).
Abbreviation Derived := (@DerivedState NT OT TT).
Abbreviation M := (@MiniDb.M KT NT OT TT).
Abbreviation Op := (@PreparedOp Number).
#[local] Existing Instance MiniDb.M_ret.
#[local] Existing Instance MiniDb.M_bind.
Abbreviation pair_ok := (MiniDbFacts.pair_ok krepr nrepr orepr trepr codec read_value).
Abbreviation db_ok := (MiniDbFacts.db_ok krepr nrepr orepr trepr codec read_value).
Abbreviation value_of := (MiniDbFacts.value_of read_value).
Abbreviation doc_of := (MiniDbFacts.doc_of codec read_value).
Abbreviation readable := (WriteFacts.readable codec read_value).
Abbreviation op_ok := (WriteFacts.op_ok codec).
Abbreviation DbIo := (@MiniDb.Io KT NT OT TT).
Abbreviation io_ok := (UpdateFacts.io_ok codec read_value).
Abbreviation log_reads := (UpdateFacts.log_reads read_value).
Abbreviation storable := (UpdateFacts.storable codec).
Abbreviation published := (UpdateFacts.published options read_value).
Abbreviation publishable := (BatchFacts.publishable options read_value).
Abbreviation batch_result := (BatchFacts.batch_result read_value).
Implicit Types (self : Db) (operation : Op) (derived : Derived).





(** ** The writes *)

Lemma ensure_runs self (c : M ()) : 
  (c = ensure_open \/ c = ensure_writable options) ->
  runs c self (fun _ self' => self' = self).
Proof.
  intros [-> | ->]; [unfold ensure_open, runs; by eexists _, self|apply runs_of_result; done].
Qed.

(** What a set leaves. *)
Definition set_result key (value : V) (set_options : SetOptions) self s0 (r : result MiniDbError ()) self' : Prop :=
  match r with
  | Ok _ => exists (operation : Op) encoded,
      op_pk operation = key /\ op_key operation = key /\ op_type operation = Codec.TYPE_SET /\
      op_value operation = Some encoded /\ op_datetimes operation = opt_datetimes set_options /\ decode codec encoded = Ok value /\
      (default 0 (ttl_millis set_options) = 0 -> never_expires operation) /\
      acknowledged options read_value operation encoded (Store.records (store self') !! key) /\
      StoreExpiry.thins (delete key (Store.records (store s0))) (delete key (Store.records (store self'))) /\
      match max_memory_bytes options with
      | Some maximum => db_ok 0 s0 /\ exists projected, project options (store s0) [operation] = Some projected /\ projected <= maximum
      | None => s0 = self
      end
  | Err _ => max_memory_bytes options = None -> default 0 (ttl_millis set_options) = 0 ->
      unchanged (Store.records (store self)) (Store.records (store self'))
  end.

Lemma set_ok n io ios self key value set_options :
  db_ok (n + 3) self -> 0 <= n -> io_ok io -> (forall j, io_ok (ios j)) -> storable value ->
  (forall encoded, encode codec value = Ok encoded -> published io encoded) ->
  runs (set codec options read_value io ios key value set_options) self (fun r self' =>
    db_ok n self' /\ closed self' = closed self /\ exists s0, set_result key value set_options self s0 r self').
Proof.
  intros Hok Hn Hio Hios Hst Hpub. unfold set. assert (db_ok n self) as Hok0 by (eapply quiet_db_mono; [exact Hok|lia]).
  assert (forall e, db_ok n self /\ closed self = closed self /\ exists s0, set_result key value set_options self s0 (Err e) self) as Herr
    by (intros e; split; [done|]; split; [done|]; exists self; intros _ _; reflexivity).
  apply runs_bind. eapply runs_mono; [apply ensure_runs; by left|]. intros r s -> . destruct r as [[]|e]; [|apply Herr].
  apply runs_bind. eapply runs_mono; [apply ensure_runs; by right|]. intros r s -> . destruct r as [[]|e]; [|apply Herr].
  apply runs_bind, runs_of_result. destruct (prepare_set codec key value set_options (prepare_now io 0)) as [operation|e] eqn:Hprep; [|apply Herr].
  destruct (prepare_set_ok codec key value set_options _ operation Hst Hprep) as (Hop & Ht & Hpk & Hdt & Hnever & encoded & Hv & Henc & Hdec).
  apply runs_bind. replace (n + 3) with (n + 2 + 1) in Hok by lia.
  eapply runs_mono; [apply (ensure_memory_for_ok krepr nrepr orepr trepr codec options read_value (n + 2) ios [operation] self Hok);
    [lia|done|by constructor]|].
  intros r s0 (Hok1 & Hc1 & Hr). destruct r as [[]|e].
  2:{ split; [by eapply quiet_db_mono; [exact Hok1|lia]|]. split; [done|]. exists self. intros Hnone. by rewrite Hnone in Hr; destruct Hr. }
  destruct Hr as [_ Hmem]. apply runs_bind. eapply runs_mono; [by eapply check_unique_ok|]. intros r s -> .
  assert (max_memory_bytes options = None -> s0 = self) as Hsame by (intros E; by rewrite E in Hmem).
  destruct r as [[]|e].
  2:{ split; [by eapply quiet_db_mono; [exact Hok1|lia]|]. split; [done|]. exists self. intros Hnone _. by rewrite (Hsame Hnone). }
  eapply runs_mono; [apply (write_set_ok krepr nrepr orepr trepr codec options read_value n io s0 operation encoded Hok1 Hn Hio Hop Ht Hv); by apply Hpub|].
  intros r s2 (Hok2 & Hc2 & Hr). split; [done|]. split; [congruence|]. exists s0. rewrite Hpk in Hr. destruct r as [[]|e].
  - destruct Hr as [Hack Hthin]. exists operation, encoded. destruct Hop as [Hopk _].
    split_and!; try done; [congruence|]. destruct (max_memory_bytes options); [|done]. split; [by eapply quiet_db_mono; [exact Hok1|lia]|done].
  - intros Hnone Hzero. rewrite <- (Hsame Hnone). by apply Hr, Hnever.
Qed.

(** The result of a deletion. *)
Definition del_result key self (r : result MiniDbError bool) self' : Prop :=
  match r with
  | Ok true => StoreExpiry.thins (delete key (Store.records (store self))) (Store.records (store self'))
  | _ => unchanged (Store.records (store self)) (Store.records (store self'))
  end.

Lemma del_request_ok n io self now key :
  db_ok (n + 1) self -> 0 <= n -> io_ok io ->
  runs (del codec options read_value io now key) self (fun r self' =>
    db_ok n self' /\ closed self' = closed self /\ del_result key self r self').
Proof.
  intros Hok Hn Hio. unfold del. assert (db_ok n self) as Hok0 by (eapply quiet_db_mono; [exact Hok|lia]).
  apply runs_bind. eapply runs_mono; [apply ensure_runs; by left|]. intros r s -> . destruct r as [[]|e]; [|split; [done|split; [done|cbn; reflexivity]]].
  apply runs_bind. eapply runs_mono; [apply ensure_runs; by right|]. intros r s -> . destruct r as [[]|e]; [|split; [done|split; [done|cbn; reflexivity]]].
  pose proof Hok as (_ & _ & Hw & _).
  destruct (StoreExpiry.has_leaves krepr dt_json (store self) key now Hw) as (s1 & E & Hl & Hcut).
  pose proof (db_leaves krepr nrepr orepr trepr codec read_value _ _ _ Hok Hl) as Hok1.
  apply runs_bind. eapply runs_store; [exact E|]. cbn beta iota.
  assert (unchanged (Store.records (store self)) (Store.records s1)) as Hun by (apply thins_unchanged, Hl).
  case_bool_decide as Hfound; cbn [negb].
  2:{ apply runs_ret. split; [by eapply quiet_db_mono; [exact Hok1|lia]|]. by split. }
  apply runs_bind, runs_of_result. destruct (prepare_del key) as [operation|e] eqn:Hprep.
  2:{ split; [by eapply quiet_db_mono; [exact Hok1|lia]|]. by split. }
  destruct (prepare_del_ok codec key operation Hprep) as (Hop & Ht & Hpk). apply runs_bind.
  eapply runs_mono; [by apply (delete_applied_ok krepr nrepr orepr trepr codec read_value n io _ operation Hok1 Hn Hio Hop Ht)|].
  intros r s2 (Hok2 & Hc2 & Hr). destruct r as [[]|e].
  - apply runs_ret. split; [done|]. split; [done|]. cbn [del_result store] in Hr |- *. destruct Hr as [_ Hthin]. rewrite Hpk, Hcut in Hthin.
    unfold StoreExpiry.cut in Hthin. destruct (StoreExpiry.live_at _ _ _); [done|by rewrite delete_delete_eq in Hthin].
  - split; [done|]. split; [done|]. cbn [del_result store] in Hr |- *. by etrans.
Qed.

Definition storable_op (operation : BatchInputOp V) : Prop :=
  match operation with InputSet _ value _ => storable value | InputDel _ => True end.
Definition lasting_op (operation : BatchInputOp V) : Prop :=
  match operation with InputSet _ _ set_options => default 0 (ttl_millis set_options) = 0 | InputDel _ => True end.

Lemma prepare_all_ok (now : nat -> Z) operations : forall i prepared,
  Forall storable_op operations -> prepare_all codec now i operations = Ok prepared ->
  Forall (fun operation => op_ok operation) prepared /\ length prepared = length operations /\
  (Forall lasting_op operations -> Forall never_expires prepared).
Proof.
  induction operations as [|operation operations IH]; intros i prepared Hst; cbn [prepare_all]; [by intros [= <-]|].
  apply Forall_cons in Hst as [Hst Hsts].
  destruct (match operation with InputSet _ _ _ => _ | InputDel _ => _ end) as [p|] eqn:Hp; [|done]. simpl_bind.
  destruct (prepare_all codec now (S i) operations) as [ps|] eqn:Hps; [|done]. simpl_bind. intros [= <-].
  destruct (IH (S i) ps Hsts Hps) as (Hops & Hlen & Hlast).
  assert (op_ok p /\ (lasting_op operation -> never_expires p)) as [Hop Hl].
  { destruct operation as [key value set_options|key].
    - destruct (prepare_set_ok codec key value set_options _ p Hst Hp) as (? & _ & _ & _ & ? & _). by split.
    - destruct (prepare_del_ok codec key p Hp) as (? & _). split; [done|]. intros _. unfold prepare_del in Hp.
      destruct (check_key key); [|done]. by injection Hp as <-. }
  split; [by constructor|]. split; [by cbn [length]; f_equal|]. intros [? ?]%Forall_cons. constructor; auto.
Qed.

Definition batch_outcome (io : DbIo) (operations : list (BatchInputOp V)) self (r : result MiniDbError ()) self' : Prop :=
  max_memory_bytes options = None ->
  match r with
  | Ok _ => exists prepared, prepare_all codec (prepare_now io) 0 operations = Ok prepared /\
      batch_result prepared (Store.records (store self)) (Store.records (store self'))
  | Err (WalFailed _) => Forall lasting_op operations -> unchanged (Store.records (store self)) (Store.records (store self'))
  | Err _ => True
  end.

Lemma batch_request_ok n (io : DbIo) ios self operations :
  db_ok (n + (2 * zlen operations + 1)) self -> 0 <= n -> io_ok io -> (forall j, io_ok (ios j)) -> Forall storable_op operations ->
  (forall prepared, prepare_all codec (prepare_now io) 0 operations = Ok prepared -> publishable io prepared) ->
  runs (batch codec options read_value io ios operations) self (fun r self' =>
    db_ok n self' /\ closed self' = closed self /\ batch_outcome io operations self r self').
Proof.
  intros Hok Hn Hio Hios Hst Hpub. unfold batch. assert (0 <= zlen operations) as Hz by apply zlen_nonneg.
  assert (db_ok n self) as Hok0 by (eapply quiet_db_mono; [exact Hok|lia]).
  assert (forall e, db_ok n self /\ closed self = closed self /\ batch_outcome io operations self (Err e) self) as Herr.
  { intros e. split; [done|]. split; [done|]. intros _. by destruct e. }
  apply runs_bind. eapply runs_mono; [apply ensure_runs; by left|]. intros r s -> . destruct r as [[]|e]; [|apply Herr].
  apply runs_bind. eapply runs_mono; [apply ensure_runs; by right|]. intros r s -> . destruct r as [[]|e]; [|apply Herr].
  case_decide as Hlen.
  { apply runs_ret. split; [done|]. split; [done|]. intros _. destruct operations; [|done]. exists []. split; [done|]. intros key. cbn. reflexivity. }
  apply runs_bind, runs_of_result. destruct (prepare_all codec (prepare_now io) 0 operations) as [prepared|e] eqn:Hprep; [|apply Herr].
  destruct (prepare_all_ok _ _ _ _ Hst Hprep) as (Hops & Hplen & Hlast).
  assert (zlen prepared = zlen operations) as Hpz by (unfold zlen; by rewrite Hplen).
  apply runs_bind. replace (n + (2 * zlen operations + 1)) with (n + 2 * zlen operations + 1) in Hok by lia.
  eapply runs_mono; [apply (ensure_memory_for_ok krepr nrepr orepr trepr codec options read_value (n + 2 * zlen operations) ios prepared self Hok);
    [lia|done|done]|].
  intros r s0 (Hok1 & Hc1 & Hr). destruct r as [[]|e].
  2:{ split; [by eapply quiet_db_mono; [exact Hok1|lia]|]. split; [done|]. intros Hnone. by rewrite Hnone in Hr; destruct Hr. }
  destruct Hr as [_ Hmem]. apply runs_bind. unfold check_unique_batch. eexists _, s0. split; [reflexivity|]. cbn beta iota.
  assert (max_memory_bytes options = None -> s0 = self) as Hsame by (intros E; by rewrite E in Hmem).
  destruct (IndexManager.check_unique_batch _ _ _ _ _) as [[]|e]; cbn [lift].
  2:{ split; [by eapply quiet_db_mono; [exact Hok1|lia]|]. split; [done|]. by intros _. }
  rewrite <- Hpz in Hok1.
  eapply runs_mono; [apply (write_batch_ok krepr nrepr orepr trepr codec options read_value n io s0 prepared Hok1 Hn Hio); [|done|by apply Hpub]|].
  { intros ->. by destruct operations. }
  intros r s2 (Hok2 & Hc2 & Hr). split; [done|]. split; [congruence|]. intros Hnone. rewrite <- (Hsame Hnone).
  destruct r as [[]|e]; [exists prepared; by split|]. destruct e; auto.
Qed.

(** ** Requests and histories *)

Inductive request :=
| RequestSet (key : bytes) (value : V) (set_options : SetOptions)
| RequestDel (now : Z) (key : bytes)
| RequestBatch (operations : list (BatchInputOp V)).

Definition perform (io : DbIo) (ios : nat -> DbIo) (q : request) : M () :=
  match q with
  | RequestSet key value set_options => set codec options read_value io ios key value set_options
  | RequestDel now key => _ ← del codec options read_value io now key; mret tt
  | RequestBatch operations => batch codec options read_value io ios operations
  end.

(** The room a request may take up. *)
Definition cost (q : request) : Z :=
  match q with RequestSet _ _ _ => 3 | RequestDel _ _ => 1 | RequestBatch operations => 2 * zlen operations + 1 end.

Lemma cost_nonneg q : 0 <= cost q.
Proof. destruct q as [| |operations]; cbn [cost]; [lia..|]. pose proof (zlen_nonneg operations). lia. Qed.

(** Its values decode to themselves and have documents that can be indexed; the log
    answers for what it acknowledges. *)
Definition request_ok (io : DbIo) (q : request) : Prop :=
  match q with
  | RequestSet key value _ => storable value /\ forall encoded, encode codec value = Ok encoded -> published io encoded
  | RequestDel _ _ => True
  | RequestBatch operations => Forall storable_op operations /\
      forall prepared, prepare_all codec (prepare_now io) 0 operations = Ok prepared -> publishable io prepared
  end.

(** No value has a time to live. *)
Definition lasting (q : request) : Prop :=
  match q with
  | RequestSet _ _ set_options => default 0 (ttl_millis set_options) = 0
  | RequestDel _ _ => True
  | RequestBatch operations => Forall lasting_op operations
  end.

Lemma perform_ok n io ios q self :
  db_ok (n + cost q) self -> 0 <= n -> io_ok io -> (forall j, io_ok (ios j)) -> request_ok io q ->
  runs (perform io ios q) self (fun r self' => db_ok n self' /\ closed self' = closed self /\
    forall e, r = Err (WalFailed e) -> max_memory_bytes options = None -> lasting q ->
      unchanged (Store.records (store self)) (Store.records (store self'))).
Proof.
  intros Hok Hn Hio Hios Hq. destruct q as [key value set_options|now key|operations]; cbn [perform cost request_ok lasting] in *.
  - destruct Hq as [Hst Hpub]. eapply runs_mono; [by apply (set_ok n io ios self key value set_options)|].
    intros r s (? & ? & s0 & Hr). split; [done|]. split; [done|]. intros e ->. exact Hr.
  - apply runs_bind. eapply runs_mono; [by apply (del_request_ok n io self now key)|].
    intros r s (Hok' & Hc & Hr). destruct r as [found|e]; [by apply runs_ret|]. split; [done|]. split; [done|]. by intros e' [= ->].
  - destruct Hq as [Hst Hpub]. eapply runs_mono; [by apply (batch_request_ok n io ios self operations)|].
    intros r s (? & ? & Hr). split; [done|]. split; [done|]. intros e -> Hnone. by apply Hr.
Qed.

(** A run of the database: readers and the expiry cycle, and writes, each with its log;
    the first argument is the room they may take up. *)
Inductive history : Z -> Db -> Db -> Prop :=
| HistoryStart self : history 0 self self
| HistoryOther c self s1 s2 : history c self s1 -> other_step codec read_value s1 s2 -> history c self s2
| HistoryWrite c self s1 s2 io ios q r : history c self s1 ->
    io_ok io -> (forall j, io_ok (ios j)) -> request_ok io q -> perform io ios q s1 = Some (r, s2) ->
    history (c + cost q) self s2.

Lemma history_nonneg c self self' : history c self self' -> 0 <= c.
Proof. induction 1 as [|c|c ? ? ? ? ? q ? ? IH]; [lia|lia|]. pose proof (cost_nonneg q). lia. Qed.

Lemma history_ok n c self self' : history c self self' -> db_ok (n + c) self -> 0 <= n -> db_ok n self'.
Proof.
  intros Hh. revert n. induction Hh as [self|c self s1 s2 Hh IH Hs|c self s1 s2 io ios q r Hh IH Hio Hios Hq Hrun]; intros n Hok Hn.
  - by rewrite Z.add_0_r in Hok.
  - apply (other_step_ok krepr nrepr orepr trepr codec read_value n s1 s2 Hn Hs). by apply IH.
  - pose proof (cost_nonneg q). assert (db_ok (n + cost q) s1) as Hok1 by (apply IH; [by replace (n + cost q + c) with (n + (c + cost q)) by lia|lia]).
    by apply (runs_inv _ _ _ _ _ (perform_ok n io ios q s1 Hok1 Hn Hio Hios Hq) Hrun).
Qed.

(** ** Reading back *)







(** ** The memory limit *)

Lemma bytes_sum n self : db_ok n self -> Store.bytes_used (store self) = msum (Store.record_size dt_json) (Store.records (store self)).
Proof. intros (_ & _ & [ks Hok] & _). apply (StoreFacts.ok_bytes _ _ _ _ Hok). Qed.

Lemma sum_split (m : gmap bytes Store.StoreRecord) key :
  msum (Store.record_size dt_json) m =
    match m !! key with Some r => Store.record_size dt_json key r | None => 0 end + msum (Store.record_size dt_json) (delete key m).
Proof. destruct (m !! key) as [r|] eqn:E; [by apply msum_delete|]. by rewrite delete_id. Qed.

Lemma set_bytes n s0 self' (operation : Op) encoded projected :
  db_ok 0 s0 -> db_ok n self' -> op_type operation = Codec.TYPE_SET -> op_key operation = op_pk operation ->
  op_value operation = Some encoded -> project options (store s0) [operation] = Some projected ->
  acknowledged options read_value operation encoded (Store.records (store self') !! op_pk operation) ->
  StoreExpiry.thins (delete (op_pk operation) (Store.records (store s0))) (delete (op_pk operation) (Store.records (store self'))) ->
  Store.bytes_used (store self') <= projected.
Proof.
  intros Hok0 Hok Ht Hkey Hv Hproj Hack [Hsub _]. set (key := op_pk operation) in *.
  apply (msum_subseteq (Store.record_size dt_json)) in Hsub; [|apply StoreFacts.record_size_nonneg].
  unfold project in Hproj. cbn [foldM] in Hproj. unfold project_one in Hproj. rewrite lookup_empty, bool_decide_true, Hv in Hproj by done.
  simpl_bind. injection Hproj as <-. fold key. cbn [default]. rewrite (bytes_sum _ _ Hok), (bytes_sum _ _ Hok0).
  rewrite (sum_split (Store.records (store self')) key), (sum_split (Store.records (store s0)) key). unfold Store.record_bytes.
  set (rest := msum _ (delete key (Store.records (store s0)))) in *.
  assert (0 <= rest) by (apply msum_nonneg, StoreFacts.record_size_nonneg).
  assert (match Store.records (store self') !! key with Some r => Store.record_size dt_json key r | None => 0 end <=
    Store.estimate_set_bytes dt_json (op_key operation) encoded (op_datetimes operation)
      match value_mode options with Recovery.InMemory => true | Recovery.OnDisk => false end) as Hone.
  { rewrite Hkey. fold key. unfold acknowledged in Hack. destruct (Store.records (store self') !! key) as [r|].
    - destruct Hack as (_ & Hd & _ & Hm). unfold Store.record_size, Store.estimate_set_bytes. rewrite Hd.
      destruct (value_mode options); [by rewrite Hm|]. by destruct Hm as [location ->].
    - unfold Store.estimate_set_bytes, Store.metadata_bytes, Store.DISK_REF_BYTES.
      destruct (value_mode options), (op_datetimes operation) as [d|]; try destruct (dt_json d); zlen_pos; lia. }
  unfold saturating_sub. destruct (Store.records (store s0) !! key) as [r0|]; [pose proof (StoreFacts.record_size_nonneg dt_json key r0)|]; lia.
Qed.

(** ** Reading through an index *)

(** The value a read at [now] returns. *)
Definition value_at (now : Z) (key : bytes) (m : gmap bytes Store.StoreRecord) : option V :=
  r ← StoreExpiry.live_at now key m; value ← value_of r;
  match decode codec value with Ok v => Some v | Err _ => None end.

(** The records of keys, each as it is read, those that are gone left out. *)
Fixpoint records_at (clock : nat -> Z) (i : nat) (keys : list bytes) (m : gmap bytes Store.StoreRecord) : list (DocumentRecord V) :=
  match keys with
  | [] => []
  | key :: keys =>
      match value_at (clock i) key m with
      | Some value => mk_DocumentRecord (display_key key) value None :: records_at clock (S i) keys m
      | None => records_at clock (S i) keys m
      end
  end.

Lemma cut_other now key m k : k <> key -> StoreExpiry.cut now key m !! k = m !! k.
Proof. intros Hne. unfold StoreExpiry.cut. destruct (StoreExpiry.live_at _ _ _); [done|by rewrite lookup_delete_ne]. Qed.

Lemma records_at_cut clock i keys now key m : key ∉ keys ->
  records_at clock i keys (StoreExpiry.cut now key m) = records_at clock i keys m.
Proof.
  revert i. induction keys as [|k keys IH]; intros i Hk; [done|]. apply not_elem_of_cons in Hk as [Hne Hk]. cbn [records_at].
  unfold value_at, StoreExpiry.live_at. rewrite cut_other by done. by rewrite !IH.
Qed.

Lemma fetch_ok n (clock : nat -> Z) rows : forall i self,
  db_ok n self -> 0 <= n -> closed self = false -> NoDup (map key_bytes rows) ->
  (forall row r, row ∈ rows -> Store.records (store self) !! key_bytes row = Some r -> exists v, decoded codec (Store.materialize read_value (Store.value_ref r)) = Ok (Some v)) ->
  runs (fetch codec read_value (fun key => key) (fun key value _ => mk_DocumentRecord key value None) clock i rows) self (fun r self' =>
    db_ok n self' /\ r = Ok (records_at clock i (map key_bytes rows) (Store.records (store self)))).
Proof.
  induction rows as [|row rows IH]; intros i self Hok Hn Hc Hnd Hrows; cbn [fetch map records_at]; [by apply runs_ret|].
  cbn [map] in Hnd. apply NoDup_cons in Hnd as [Hrow Hnd]. set (key := key_bytes row) in *.
  apply runs_bind. eapply runs_mono; [by apply (get_ok krepr nrepr orepr trepr codec read_value n self key (clock i))|].
  intros r s1 (Hok1 & [_ _ Hc1] & Hr). destruct (Hr Hc) as [Hcut Hres].
  assert (r = Ok (value_at (clock i) key (Store.records (store self)))) as ->.
  { rewrite Hres. unfold value_at, StoreExpiry.live_at. destruct (Store.records (store self) !! key) as [rec|] eqn:E; [|done].
    cbn [mbind option_bind]. destruct (Store.is_live (clock i) rec); [|done].
    destruct (Hrows row rec ltac:(by left) E) as [v Hv]. rewrite Hv. unfold decoded in Hv. cbn [mbind option_bind]. unfold MiniDbFacts.value_of.
    destruct (Store.materialize _ _) as [b|]; [|done]. cbn [mbind option_bind]. destruct (decode codec b); [|done]. by injection Hv as ->. }
  apply runs_bind. eapply runs_mono; [apply (IH (S i) s1 Hok1 Hn)|].
  - congruence.
  - done.
  - intros row' rec Hin. rewrite Hcut, cut_other; [by apply Hrows; right|]. intros E. apply Hrow. rewrite <- E.
    by apply list_elem_of_In, in_map, list_elem_of_In.
  - intros r s2 (Hok2 & ->). apply runs_ret. split; [done|]. rewrite Hcut, records_at_cut by done.
    by destruct (value_at (clock i) key (Store.records (store self))).
Qed.

(** What an equality index knows: the keys of the documents of the store. *)
Lemma index_keys docs dts idocs (st : Store.Store KT) (l : list bytes) (P : Value -> Prop) :
  follows codec read_value st docs dts -> indexed_docs idocs docs ->
  (forall pk, pk ∈ l <-> exists d, idocs !! pk = Some d /\ P d) -> NoDup l ->
  NoDup (map key_bytes l) /\
  (forall key r, key ∈ map key_bytes l -> Store.records st !! key = Some r -> exists d, document_of codec (value_of r) = Some d /\ P d) /\
  (forall key r d, Store.records st !! key = Some r -> document_of codec (value_of r) = Some d -> P d ->
     IndexManager.is_object d = true \/ ~ forgotten (key_string key) -> key ∈ map key_bytes l).
Proof.
  intros Hf Hidx Hin Hnd.
  assert (forall pk d, idocs !! pk = Some d -> exists key dt, pk = key_string key /\ docs !! pk = Some (d, dt)) as Hdoc.
  { intros pk d Hd. destruct (Hidx pk) as [E|[E _]]; [|congruence]. rewrite Hd in E. symmetry in E.
    apply fmap_Some in E as ([d' dt] & E & ->). destruct (f_keys _ _ _ _ _ Hf pk) as [key ->]; [left; by eexists|]. by exists key, dt. }
  assert (forall pk, pk ∈ l -> exists key, pk = key_string key) as Hkeys.
  { intros pk (d & Hd & _)%Hin. destruct (Hdoc pk d Hd) as (key & _ & -> & _). by exists key. }
  assert (forall key r, Store.records st !! key = Some r -> docs !! key_string key = doc_of (Some r)) as Hrec.
  { intros key r Hr. rewrite (f_docs _ _ _ _ _ Hf), Hr; [done|]. intros Hx%(f_expired _ _ _ _ _ Hf). congruence. }
  split_and!.
  - apply NoDup_fmap_2_strong; [|done]. intros x y Hx Hy E. destruct (Hkeys x Hx) as [a ->], (Hkeys y Hy) as [b ->].
    rewrite !key_bytes_string in E. by subst.
  - intros key r Hk Hr. apply list_elem_of_In, in_map_iff in Hk as (pk & <- & Hpk%list_elem_of_In).
    destruct (proj1 (Hin pk) Hpk) as (d & Hd & HP). destruct (Hdoc pk d Hd) as (key & dt & -> & Hd').
    rewrite key_bytes_string in Hr. rewrite (Hrec key r Hr) in Hd'. unfold MiniDbFacts.doc_of in Hd'. cbn [mbind option_bind] in Hd'.
    destruct (document_of codec (value_of r)) as [d'|]; [|done]. injection Hd' as -> _. by exists d.
  - intros key r d Hr Hd HP Hobj. rewrite <- (key_bytes_string key). apply list_elem_of_In, in_map, list_elem_of_In, Hin.
    exists d. split; [|done]. pose proof (Hrec key r Hr) as E. unfold MiniDbFacts.doc_of in E. cbn [mbind option_bind] in E. rewrite Hd in E.
    cbn [mbind option_bind] in E. destruct (Hidx (key_string key)) as [->|(_ & Hforg & d' & Hd' & Hno)]; [by rewrite E|].
    destruct Hobj as [Hobj|?]; [|done].
    rewrite E in Hd'. injection Hd' as <-. cbn [fst] in Hno. congruence.
Qed.

(** ** The claims *)

(** C1: The derived state stands for the store in every history of reads, scans, searches,
    expiry and writes, whatever the log answers; while a write waits for it others read
    and expire records.  The compound and text indexes and the datetimes hold exactly
    what the records that are there hold, and so do the secondary indexes, where
    documents that are not objects may only be missing if they were before the history
    ([forgotten] keys, which a rebuild leaves behind and a write of the key ends); and
    no write for which there is room panics.  Creating an index, dropping one, closing
    and the rebuild that follows a compaction are no part of a history. *)
Theorem history_keeps_the_derived_state n c self self' :
  history c self self' -> db_ok (n + c) self -> 0 <= n ->
  (exists docs dts, follows codec read_value (store self') docs dts /\ derived_ok nrepr orepr trepr docs dts (derived self')) /\
  forall io ios q, io_ok io -> (forall j, io_ok (ios j)) -> request_ok io q -> cost q <= n ->
    exists r s, perform io ios q self' = Some (r, s) /\ db_ok (n - cost q) s.
Proof.
  intros Hh Hok Hn. pose proof (history_ok n c self self' Hh Hok Hn) as Hok'. split.
  - destruct Hok' as (docs & dts & _ & Hf & Hd & _). by exists docs, dts.
  - intros io ios q Hio Hios Hq Hcost.
    destruct (perform_ok (n - cost q) io ios q self') as (r & s & E & Hs & _); [by replace (n - cost q + cost q) with n by lia|lia|done..|].
    by exists r, s.
Qed.

(** C3: In a database without a memory limit a set, a deletion or a batch whose log fails
    is undone when its values have no time to live: every key holds what it held, or
    has expired meanwhile, even though the write was applied before the log answered
    and others read and expired records while it waited; and the derived state stands
    for the store. *)
Theorem failed_writes_are_undone io ios q self e self' :
  db_ok (cost q) self -> io_ok io -> (forall j, io_ok (ios j)) -> request_ok io q -> lasting q ->
  max_memory_bytes options = None -> perform io ios q self = Some (Err (WalFailed e), self') ->
  unchanged (Store.records (store self)) (Store.records (store self')) /\
  exists docs dts, follows codec read_value (store self') docs dts /\ derived_ok nrepr orepr trepr docs dts (derived self').
Proof.
  intros Hok Hio Hios Hq Hlast Hnone Hrun.
  destruct (runs_inv _ _ _ _ _ (perform_ok 0 io ios q self Hok ltac:(lia) Hio Hios Hq) Hrun) as (Hok' & _ & Hun).
  split; [by eapply Hun|]. destruct Hok' as (docs & dts & _ & Hf & Hd & _). by exists docs, dts.
Qed.


(** C5: The memory limit holds: after a set that succeeds the bytes in use are at most the
    maximum, in memory and on disk; and the eviction loop ends, at the latest when
    every other record has been evicted. *)
Theorem sets_respect_the_memory_limit io ios self key value set_options maximum :
  db_ok 3 self -> io_ok io -> (forall j, io_ok (ios j)) -> request_ok io (RequestSet key value set_options) ->
  max_memory_bytes options = Some maximum ->
  exists r self', set codec options read_value io ios key value set_options self = Some (r, self') /\
    (r = Ok tt -> Store.bytes_used (store self') <= maximum).
Proof.
  intros Hok Hio Hios [Hst Hpub] Hmax.
  destruct (set_ok 0 io ios self key value set_options Hok ltac:(lia) Hio Hios Hst Hpub) as (r & self' & E & Hok' & _ & s0 & Hr).
  exists r, self'. split; [done|]. intros ->. destruct Hr as (operation & encoded & Hpk & Hk & Ht & Hv & _ & _ & _ & Hack & Hthin & Hmem).
  rewrite Hmax in Hmem. destruct Hmem as (Hok0 & projected & Hproj & Hle). rewrite <- Hpk in Hack, Hthin.
  etrans; [|exact Hle]. eapply set_bytes; [exact Hok0|exact Hok'|exact Ht|congruence|exact Hv|exact Hproj|exact Hack|exact Hthin].
Qed.

(** C4: A lookup through an equality index returns exactly the records whose documents
    have the value, each once and as a read of its key returns it; only a document that
    is not an object and was left out by a rebuild ([forgotten]) may be missing.  Every
    record can be read ([db_ok]) and the database is open. *)
Theorem find_eq_returns_the_matching_records n self clock name value ix :
  db_ok n self -> 0 <= n -> closed self = false ->
  IndexManager.indexes (indexes (derived self)) !! name = Some (IndexManager.Equality ix) ->
  let matching d := IndexManager.scalar_key json_text number_text value ∈
    IndexManagerFacts.doc_keys json_text number_text (IndexManager.eq_info ix) d in
  exists keys self', find_eq codec read_value clock name value self =
      Some (Ok (records_at clock 0 keys (Store.records (store self))), self') /\ db_ok n self' /\ NoDup keys /\
    (forall key r, key ∈ keys -> Store.records (store self) !! key = Some r ->
       exists d, document_of codec (value_of r) = Some d /\ matching d) /\
    (forall key r d, Store.records (store self) !! key = Some r -> document_of codec (value_of r) = Some d -> matching d ->
       IndexManager.is_object d = true \/ ~ forgotten (key_string key) -> key ∈ keys).
Proof.
  intros Hok Hn Hc Hix matching. pose proof Hok as (docs & dts & Hw & Hf & [(idocs & Hidx & Him) _ _ _ _ _ _] & _).
  destruct (Him _ _ Hix) as [_ [Hmap _]].
  destruct (Hmap (IndexManager.scalar_key json_text number_text value)) as (Hnd & _ & Hin). set (l := default [] _) in *.
  destruct (index_keys docs dts idocs (store self) l matching Hf Hidx Hin Hnd) as (Hkeys & Hsound & Hcomplete).
  destruct (fetch_ok n clock l 0 self Hok Hn Hc Hkeys) as (r & self' & E & Hok' & ->).
  { intros row r Hrow Hr. destruct (Hsound (key_bytes row) r) as (d & Hd & _); [by apply list_elem_of_In, in_map, list_elem_of_In|done|].
    unfold document_of, MiniDbFacts.value_of in Hd. unfold decoded. destruct (Store.materialize _ _) as [b|]; [|done].
    cbn [mbind option_bind] in Hd. destruct (decode codec b) as [v|]; [by exists v|done]. }
  exists (map key_bytes l), self'. split; [|by split_and!]. unfold find_eq, mbind, M_bind, asks, of_result. simpl_bind.
  unfold IndexManager.find_eq. rewrite Hix. cbn [ok_or]. simpl_bind. cbn [lift]. exact E.
Qed.
End facts.
End FacadeFacts.
