(* ===== verification/FacadeExamples.v ===== *)
(** * The database: an example

    A database over the skip list with an equality index and a text index, the
    platform's libraries replaced by functions that can be computed; the claims
    about the database hold of its runs. *)

From Corelib Require Import SpecFloat.
From S2P Require Import Prelude.
From S2P Require Import Crc.
From S2P Require Import Codec.
From S2P Require Import OrdIndex.
From S2P Require Import SkipList.
From S2P Require Import SkipListFacts.
From S2P Require Import Store.
From S2P Require Import StoreFacts.
From S2P Require Import StoreExpiry.
From S2P Require Import Recovery.
From S2P Require Import Wal.
From S2P Require Import DtIndex.
From S2P Require Import Query.
From S2P Require Import Float.
From S2P Require Import IndexManager.
From S2P Require Import IndexManagerFacts.
From S2P Require Import CompoundIndex.
From S2P Require Import CompoundIndexFacts.
From S2P Require Import TextIndex.
From S2P Require Import TextIndexFacts.
From S2P Require Import MiniDb.
From S2P Require Import MiniDbRead.
From S2P Require Import MiniDbFacts.
From S2P Require Import WriteFacts.
From S2P Require Import ReadFacts.
From S2P Require Import UpdateFacts.
From S2P Require Import BatchFacts.
From S2P Require Import FacadeFacts.
Import OrdIndex Float MiniDb MiniDbRead MiniDbFacts WriteFacts ReadFacts UpdateFacts BatchFacts FacadeFacts.
Import Crc.Additive StoreFacts IndexManagerFacts CompoundIndexFacts.

Module FacadeExamples.

(** ** The platform and the components *)

Definition as_text (v : @Query.Value spec_float) : string := match v with Query.Str s => s | _ => "null" end.

#[local] Instance platform : Platform spec_float := {|
  number_as_f64 := Some; json_text := as_text; number_text := fun _ => "1"%string; number_eqb := fun _ _ => false;
  dt_json := fun _ => Some (String.list_byte_of_string "{}"); to_lowercase := fun s => s; find_latin := TextIndexFacts.example_latin;
  find_cjk := TextIndexFacts.example_cjk; ln := fun x => x; regex_is_match := fun _ _ _ _ _ => None;
|}.

#[local] Instance time_index : OrderedIndex DtIndex.TimeIndex Z bytes := SkipListFacts.skiplist_index Z.compare bytes_cmp.
Definition time_repr : DtIndex.TimeIndex -> list (Z * bytes) -> Prop := SkipListFacts.repr Z.compare bytes_cmp.
#[local] Instance time_index_laws : OrderedIndexLaws Z.compare bytes_cmp time_repr :=
  SkipListFacts.skiplist_index_laws Z.compare bytes_cmp.

Abbreviation Db := (@MiniDb.MiniDb StoreFacts.KeyIndex NumberIndex OrderIndex DtIndex.TimeIndex).
Abbreviation Io := (@MiniDb.Io StoreFacts.KeyIndex NumberIndex OrderIndex DtIndex.TimeIndex).

(** A value is the text of a document's only field. *)
Definition codec : ValueCodec spec_float bytes :=
  mk_ValueCodec (fun value => Ok value) (fun bytes => Ok bytes)
    (fun value => Some (Query.Object [("s"%string, Query.Str (String.string_of_list_byte value))])) CustomName.

Definition by_s : IndexManager.IndexInfo := IndexManager.mk_IndexInfo "by_s" "s" IndexManager.TypeEquality false false.
Definition words : TextIndex.TextIndex := TextIndex.new (TextIndex.mk_TextIndexOptions None None None).

#[local] Instance in_use : InUse := {| text_fields := fun f => f = None; index_infos := fun i => i = by_s; forgotten := fun _ => False |}.

Definition empty : Db := mk_MiniDb Store.new
  (mk_DerivedState
    (IndexManager.mk_IndexManager {[ "by_s"%string := IndexManager.Equality (IndexManager.mk_EqualityIndex by_s ∅ ∅) ]})
    (DtIndex.mk_DateTimeIndex ∅ ∅) (CompoundIndex.mk_CompoundIndexManager ∅) {[ "words"%string := words ]}
    [mk_TextIndexDefinition "words" None] [])
  false (mk_MiniDbStats 0 0 0).

Abbreviation ok := (db_ok StoreFacts.key_index_repr number_repr order_repr time_repr codec None).

Lemma one_value {A} (k name : string) (x y : A) : ({[k := x]} : gmap string A) !! name = Some y -> y = x.
Proof. by intros [_ <-]%lookup_singleton_Some. Qed.

Lemma one_index name index : IndexManager.indexes (indexes (derived empty)) !! name = Some index ->
  index = IndexManager.Equality (IndexManager.mk_EqualityIndex by_s ∅ ∅).
Proof. exact (one_value _ _ _ _). Qed.

Lemma one_text name index : text (derived empty) !! name = Some index -> index = words.
Proof. exact (one_value _ _ _ _). Qed.

Lemma empty_database_ok read_value n : n <= 2 ^ 32 ->
  db_ok StoreFacts.key_index_repr number_repr order_repr time_repr codec read_value n empty.
Proof.
  intros Hn. exists ∅, ∅. split_and!.
  - exists []. apply StoreFacts.new_ok. apply _.
  - constructor.
    + intros key _. by rewrite !lookup_empty.
    + intros key _. by rewrite !lookup_empty.
    + intros pk [[x Hx]|[x Hx]]; by rewrite lookup_empty in Hx.
    + intros key Hin. by apply elem_of_nil in Hin.
  - constructor.
    + exists ∅. split; [intros pk; left; by rewrite !lookup_empty|].
      assert (IndexManagerFacts.manager_ok number_as_f64 json_text number_text number_repr ∅
        (IndexManager.mk_IndexManager (T := NumberIndex) ∅)) as Hnew.
      { intros name index Hi. cbn [IndexManager.indexes] in Hi. by rewrite lookup_empty in Hi. }
      apply (IndexManagerFacts.manager_create_ok number_as_f64 json_text number_text number_repr "by_s"
        (IndexManager.mk_IndexDef "s" IndexManager.TypeEquality false false) _ _ Hnew). reflexivity.
    + intros name index Hi. apply one_index in Hi as ->. reflexivity.
    + intros name entry Hi. cbn in Hi. by rewrite lookup_empty in Hi.
    + intros name index Hi. apply one_text in Hi as ->. split; [|reflexivity].
      rewrite fmap_empty. apply TextIndexFacts.text_new_ok. apply _.
    + constructor.
      * intros c. cbn [empty derived datetimes DtIndex.columns DtIndex.by_key]. rewrite lookup_empty. intros k.
        unfold DtIndex.view. by rewrite lookup_empty.
      * intros k ds Hk. cbn in Hk. by rewrite lookup_empty in Hk.
    + reflexivity.
    + intros pk d Hd. by rewrite lookup_empty in Hd.
  - constructor; [rewrite map_size_empty; lia..|]. intros name index Hi. apply one_text in Hi as ->. exact Hn.
  - cbn. rewrite map_size_empty. lia.
Qed.

(** ** Runs *)

Definition key (s : string) : bytes := String.list_byte_of_string s.
Definition in_memory : OpenOptions := mk_OpenOptions false Recovery.InMemory None Reject.

(** A log that takes every frame, and one whose writes fail once others have read. *)
Definition good : Io := mk_Io 0 (fun _ => 0) (fun _ => 0) (fun _ => Ok 0) (fun self => (Ok tt, self)) (fun _ => 0).
Definition others (self : Db) : Db :=
  match has (key "a") 10 self with Some (_, self) => self | None => self end.
Definition failing : Io :=
  mk_Io 0 (fun _ => 0) (fun _ => 0) (fun _ => Ok 0) (fun self => (Err Wal.Closed, others self)) (fun _ => 0).

Lemma good_ok : io_ok codec None good.
Proof. intros self. apply rtc_refl. Qed.

Lemma failing_ok : io_ok codec None failing.
Proof.
  intros self. cbn [failing done snd]. unfold others. destruct (has _ _ _) as [[r s]|] eqn:E; [|apply rtc_refl].
  apply rtc_once. eapply OtherHas. exact E.
Qed.

Definition red : request (V := bytes) := RequestSet (key "a") (key "red") SetOptions_default.
Definition blue : request (V := bytes) := RequestSet (key "a") (key "blue") SetOptions_default.
Definition both : request (V := bytes) :=
  RequestBatch [InputDel (key "a"); InputSet (key "b") (key "red") SetOptions_default].

Lemma storable_value value : small (Query.Object [("s"%string, Query.Str (String.string_of_list_byte value))]) ->
  storable codec value.
Proof. intros Hs. split; [by intros encoded [= <-]|]. by intros d [= <-]. Qed.

Lemma small_value value :
  zlen (TextIndexFacts.tokens_of (Number := spec_float) (fun s => s) TextIndexFacts.example_latin TextIndexFacts.example_cjk None
    (Query.Object [("s"%string, Query.Str (String.string_of_list_byte value))])) < 2 ^ 32 ->
  storable codec value.
Proof. intros Ht. apply storable_value. split; [by intros fields ->|]. intros i ->. vm_compute. discriminate. Qed.

Definition run (options : OpenOptions) (io : Io) (q : request) (self : Db) :=
  perform codec options None io (fun _ => good) q self.
Definition left_by (o : option (result MiniDbError () * Db)) : Db := match o with Some (_, self) => self | None => empty end.
Definition coloured : Db := left_by (run in_memory good red empty).

Definition bounded : OpenOptions := mk_OpenOptions false Recovery.InMemory (Some 5) EvictLru.

Abbreviation history := (FacadeFacts.history codec in_memory None).

Lemma in_memory_published options (io : Io) value : value_mode options = Recovery.InMemory -> published options None io value.
Proof. intros E ?. congruence. Qed.

Lemma set_request_ok options (io : Io) k value set_options : value_mode options = Recovery.InMemory -> storable codec value ->
  request_ok codec options None io (RequestSet k value set_options).
Proof. intros E Hs. split; [done|]. intros encoded _. by apply in_memory_published. Qed.

Lemma both_ok : request_ok codec in_memory None good both.
Proof.
  split.
  - constructor; [exact I|]. constructor; [|constructor]. apply small_value. vm_compute. reflexivity.
  - intros prepared _ Hd. discriminate Hd.
Qed.

Lemma red_run : run in_memory good red empty = Some (Ok tt, coloured).
Proof. vm_compute. reflexivity. Qed.

Lemma red_ok : request_ok codec in_memory None good red.
Proof. apply set_request_ok; [reflexivity|]. apply small_value. vm_compute. reflexivity. Qed.

Lemma coloured_ok n : 0 <= n -> n + 3 <= 2 ^ 32 -> ok n coloured.
Proof.
  intros Hn Hr.
  apply (runs_inv _ _ _ _ _ (perform_ok key_index_repr number_repr order_repr time_repr codec in_memory None n good (fun _ => good) red
    empty (empty_database_ok _ _ Hr) Hn good_ok (fun _ => good_ok) red_ok) red_run).
Qed.

Lemma history_keeps_the_derived_state_witness :
  history 3 empty (others coloured) /\ exists r s, run in_memory good both (others coloured) = Some (r, s) /\ ok 0 s.
Proof.
  assert (history 3 empty (others coloured)) as Hh.
  { apply (HistoryOther _ _ _ 3 empty coloured).
    - apply (HistoryWrite _ _ _ 0 empty empty coloured good (fun _ => good) red (Ok tt)); [apply HistoryStart|exact good_ok|intros _; exact good_ok|exact red_ok|exact red_run].
    - eapply (OtherHas _ _ _ (key "a") 10 (Ok true)). vm_compute. reflexivity. }
  split; [exact Hh|].
  destruct (history_keeps_the_derived_state key_index_repr number_repr order_repr time_repr codec in_memory None 5 3 empty (others coloured) Hh)
    as [_ Hp]; [apply empty_database_ok; lia|lia|].
  exact (Hp good (fun _ => good) both good_ok (fun _ => good_ok) both_ok ltac:(vm_compute; discriminate)).
Defined.

Lemma failed_writes_are_undone_witness :
  exists self', run in_memory failing blue coloured = Some (Err (WalFailed Wal.Closed), self') /\
    unchanged (Store.records (store coloured)) (Store.records (store self')).
Proof.
  exists (left_by (run in_memory failing blue coloured)). assert (run in_memory failing blue coloured =
    Some (Err (WalFailed Wal.Closed), left_by (run in_memory failing blue coloured))) as E by (vm_compute; reflexivity).
  split; [exact E|].
  apply (failed_writes_are_undone key_index_repr number_repr order_repr time_repr codec in_memory None failing (fun _ => good) blue
    coloured Wal.Closed _); [apply coloured_ok; vm_compute; discriminate|exact failing_ok|intros _; exact good_ok| |reflexivity|reflexivity|exact E].
  apply set_request_ok; [reflexivity|]. apply small_value. vm_compute. reflexivity.
Defined.



(** The set evicts the record that is there. *)
Lemma sets_respect_the_memory_limit_witness :
  exists self', set codec bounded None good (fun _ => good) (key "b") (key "red") SetOptions_default coloured = Some (Ok tt, self') /\
    Store.bytes_used (store self') <= 5 /\ evictions (stats self') = 1.
Proof.
  destruct (sets_respect_the_memory_limit key_index_repr number_repr order_repr time_repr codec bounded None good (fun _ => good)
    coloured (key "b") (key "red") SetOptions_default 5) as (r & self' & E & Hr);
    [apply coloured_ok; lia|exact good_ok|intros _; exact good_ok| |reflexivity|].
  { apply set_request_ok; [reflexivity|]. apply small_value. vm_compute. reflexivity. }
  assert (match set codec bounded None good (fun _ => good) (key "b") (key "red") SetOptions_default coloured with
    | Some (Ok tt, s) => evictions (stats s) =? 1 | _ => false end = true) as C by (vm_compute; reflexivity).
  rewrite E in C. destruct r as [[]|e]; [|discriminate C].
  exists self'. split; [exact E|]. split; [apply Hr; reflexivity|]. by apply Z.eqb_eq.
Defined.

Lemma find_eq_returns_the_matching_records_witness :
  exists keys self', find_eq codec None (fun _ => 0) "by_s" (Query.Str "red") coloured =
    Some (Ok (records_at codec None (fun _ => 0) 0 keys (Store.records (store coloured))), self') /\ NoDup keys /\ key "a" ∈ keys.
Proof.
  destruct (find_eq_returns_the_matching_records key_index_repr number_repr order_repr time_repr codec None 1 coloured (fun _ => 0) "by_s"
    (Query.Str "red") (IndexManager.mk_EqualityIndex by_s {[ "string:red"%string := [key "a"] ]} {[ key "a" := ["string:red"%string] ]}))
    as (keys & self' & E & _ & Hnd & _ & Hin); [apply coloured_ok; lia|lia|reflexivity|vm_compute; reflexivity|].
  exists keys, self'. split; [exact E|]. split; [exact Hnd|].
  apply (Hin (key "a") (Store.mk_StoreRecord (Store.Memory (key "red")) 0 1 None) (Query.Object [("s"%string, Query.Str "red")]));
    [vm_compute; reflexivity..| |left; reflexivity].
  apply list_elem_of_In. vm_compute. by left.
Defined.

(** ** Further runs *)

Definition held (k : bytes) (self : Db) : option bytes :=
  r ← Store.records (store self) !! k; match Store.value_ref r with Store.Memory value => Some value | Store.Disk _ => None end.

(** A write with a short time to live that fails once it has expired: what the key held
    before is not put back, although it never expires. *)
Example short_lived_write_loses_the_value_before :
  let self := left_by (run in_memory failing (RequestSet (key "a") (key "blue") (mk_SetOptions (Some 5) None)) coloured) in
  run in_memory failing (RequestSet (key "a") (key "blue") (mk_SetOptions (Some 5) None)) coloured = Some (Err (WalFailed Wal.Closed), self) /\
  held (key "a") coloured = Some (key "red") /\ held (key "a") self = None.
Proof. split_and!; vm_compute; reflexivity. Qed.

Definition looked_up (o : option (result MiniDbError (list (DocumentRecord bytes)) * Db)) : option (list bytes) :=
  match o with Some (Ok documents, _) => Some (map doc_value documents) | _ => None end.
Definition after {A} (c : MiniDb.M (KT := StoreFacts.KeyIndex) (NT := NumberIndex) (OT := OrderIndex) (TT := DtIndex.TimeIndex) A)
    (self : Db) : Db := match c self with Some (_, self) => self | None => empty end.

(** A follower replays a write of a key that has expired and has not been drained: the
    key is taken for expired at the next drain, and no index finds the new value. *)
Example follower_loses_a_rewritten_key :
  let short := left_by (run in_memory good (RequestSet (key "a") (key "red") (mk_SetOptions (Some 5) None)) empty) in
  let followed := after (apply_recovered codec None (Recovery.OpSet (key "a") (Store.Memory (key "blue")) 0 None) (fun _ => 10)) short in
  let drained := after (has (key "z") 10) followed in
  looked_up (find_eq codec None (fun _ => 10) "by_s" (Query.Str "blue") drained) = Some [] /\
  held (key "a") drained = Some (key "blue").
Proof. split; vm_compute; reflexivity. Qed.

Definition due : QueryOptions spec_float :=
  mk_QueryOptions None [("due"%string, RangeOptions_default)] None None None [] 0 None.
Definition dated (k : bytes) : Db :=
  left_by (run in_memory good (RequestSet k (key "red") (mk_SetOptions None (Some {[ "due"%string := 7 ]}))) empty).

(** A query by a datetime misses the keys that are not ASCII; the index itself has them. *)
Example datetime_queries_miss_other_keys :
  looked_up (query codec None (fun _ => 0) (fun _ => 0) due (dated (key "a"))) = Some [key "red"] /\
  looked_up (query codec None (fun _ => 0) (fun _ => 0) due (dated [byte_of 255])) = Some [] /\
  match datetime_range codec None (fun _ => 0) "due" RangeOptions_default (dated [byte_of 255]) with
  | Some (Ok rows, _) => map datetime_value rows = [7]
  | _ => False
  end.
Proof. split_and!; vm_compute; reflexivity. Qed.
End FacadeExamples.
