(* ===== verification/Lockfile.v ===== *)
(** * The lock file ([crates/minidb/src/lockfile.rs])

    Processes that want to write one database exclude each other through a file.  The
    functions of the code are cut where they await the operating system: a [Phase]
    is the call about to be made and the local variables that are still needed,
    and [advance] is what the code does with the answer, up to the next call.  The
    system is the lock file, the watch files beside it, the processes that run and
    the counter behind the names of sidecar files; a lock file is known by the pid
    that is read in it, [Some None] when no record is.  A sidecar other than a watch
    is not in the state, since its name is used by its writer alone, and so is not
    the time of a record, which nothing reads.  The rename loop is that of POSIX,
    where it runs once; a sleep is a delay before the next call.

    A directory listing is a set of names fetched from the system and not yet
    handed out.  What is in the directory from the opening to the end of a listing
    is fetched, other entries may be or not. *)

From S2P Require Import Prelude.

Module Lockfile.

Inductive LockError := Locked | Io | Json.

(** The name of a watch file. *)
Record Watch := mk_Watch { watch_pid : Z; watch_sequence : Z }.

#[export] Instance watch_eq_dec : EqDecision Watch.
Proof. solve_decision. Defined.
#[export] Program Instance watch_countable : Countable Watch :=
  inj_countable' (fun q => (watch_pid q, watch_sequence q)) (fun p => mk_Watch p.1 p.2) _.
Next Obligation. by intros []. Qed.

Record Inspection := mk_Inspection { is_alive : bool; mine : bool }.

Record System := mk_System {
  lock_file : option (option Z);
  watches : gset Watch;
  running : gset Z;
  sequences : gmap Z Z;
}.

Definition set_lock_file (lock_file : option (option Z)) (s : System) : System :=
  mk_System lock_file (watches s) (running s) (sequences s).
Definition set_watches (watches : gset Watch) (s : System) : System :=
  mk_System (lock_file s) watches (running s) (sequences s).

(** The calls of [acquire], then those of [renew] and [release]. *)
Inductive Phase :=
| Idle
| Watching (watch : Watch)
| Reaping (watch : Watch)
| Unwatching (watch dead : Watch)
| Creating (watch : Watch)
| Inspecting (watch : Watch)
| Bidding (watch : Watch)
| Gating (watch : Watch)
| Renaming (watch : Watch)
| Settling (watch : Watch)
| Opening (watch : Watch)
| Listing (watch : Watch) (unlisted fetched : gset Watch)
| Removing (watch : Watch) (unlisted fetched : gset Watch) (dead : Watch)
| Leaving (watch : Watch) (r : result LockError bool)
| Renewing
| Releasing
| Unlinking.

Record LockFile := mk_LockFile { pid : Z; held : bool; phase : Phase; returned : option (result LockError bool) }.

Definition go (phase : Phase) (l : LockFile) : LockFile := mk_LockFile (pid l) (held l) phase (returned l).
Definition set_held (held : bool) (l : LockFile) : LockFile := mk_LockFile (pid l) held (phase l) (returned l).
Definition finish (r : result LockError bool) (l : LockFile) : LockFile := mk_LockFile (pid l) (held l) Idle (Some r).

(** What the operating system answers.  [Denied] is a refusal, [Failed] another failure;
    for a write, [Denied] is a failure after the file has been created. *)
Inductive Answer :=
| Done
| Denied
| Failed
| Fetch (q : Watch)
| Entry (q : Watch)
| NoMore.

(** The part of a pid that fits [pid_t], and whether a process has it. *)
Definition pid_alive (s : System) (pid : Z) : bool := (0 <? pid) && (pid <=? 2 ^ 31 - 1) && bool_decide (pid ∈ running s).

(** The next name of a sidecar. *)
Definition sidecar (pid : Z) (s : System) : Watch * System :=
  let sequence := default 0 (sequences s !! pid) + 1 in
  (mk_Watch pid sequence, mk_System (lock_file s) (watches s) (running s) (<[pid := sequence]> (sequences s))).

Definition inspect (l : LockFile) (s : System) : option Inspection :=
  content ← lock_file s;
  Some (mk_Inspection (match content with Some pid => pid_alive s pid | None => false end)
          (bool_decide (content = Some (pid l)))).

(** ** Acquiring *)

Definition acquire (l : LockFile) (s : System) : LockFile * System :=
  let '(watch, s) := sidecar (pid l) s in (go (Watching watch) l, s).

Definition reap_dead_watches (answer : Answer) (watch : Watch) (l : LockFile) (s : System) : option (LockFile * System) :=
  match answer with
  | Entry q =>
      if decide (q ∈ watches s) then
        if negb (watch_pid q =? pid l) && negb (pid_alive s (watch_pid q)) then Some (go (Unwatching watch q) l, s)
        else Some (l, s)
      else None
  | NoMore => let '(_, s) := sidecar (pid l) s in Some (go (Creating watch) l, s)
  | Failed => Some (go (Leaving watch (Err Io)) l, s)
  | _ => None
  end.

(** The hard link is there or it is not. *)
Definition try_create (answer : Answer) (watch : Watch) (l : LockFile) (s : System) : option (LockFile * System) :=
  match answer with
  | Done =>
      match lock_file s with
      | None => Some (go (Leaving watch (Ok true)) (set_held true l), set_lock_file (Some (Some (pid l))) s)
      | Some _ => Some (go (Inspecting watch) l, s)
      end
  | Failed => Some (go (Leaving watch (Err Io)) l, s)
  | _ => None
  end.

Definition has_live_foreign_watch (answer : Answer) (watch : Watch) (unlisted fetched : gset Watch) (l : LockFile) (s : System)
    : option (LockFile * System) :=
  match answer with
  | Fetch q =>
      if decide (q ∈ watches s) then Some (go (Listing watch (unlisted ∖ {[q]}) ({[q]} ∪ fetched)) l, s) else None
  | Entry q =>
      if decide (q ∈ fetched) then
        let fetched := fetched ∖ {[q]} in
        if watch_pid q =? pid l then Some (go (Listing watch unlisted fetched) l, s)
        else if pid_alive s (watch_pid q) then Some (go (Settling watch) l, s)
        else Some (go (Removing watch unlisted fetched q) l, s)
      else None
  | NoMore =>
      if decide (fetched = ∅ /\ unlisted ∩ watches s = ∅) then Some (go (Leaving watch (Ok true)) (set_held true l), s) else None
  | Failed => Some (go (Leaving watch (Err Io)) l, s)
  | _ => None
  end.

(** The takeover of a lock whose owner is dead. *)
Definition take_over (answer : Answer) (l : LockFile) (s : System) : option (LockFile * System) :=
  match phase l, answer with
  | Inspecting watch, Done =>
      match inspect l s with
      | None => Some (go (Leaving watch (Ok false)) l, s)
      | Some seen =>
          if is_alive seen then Some (go (Leaving watch (Ok false)) l, s)
          else let '(_, s) := sidecar (pid l) s in Some (go (Bidding watch) l, s)
      end
  | Bidding watch, Done => Some (go (Gating watch) l, s)
  | Gating watch, Done =>
      match inspect l s with
      | None => Some (go (Leaving watch (Ok false)) l, s)
      | Some gate =>
          if is_alive gate || mine gate then Some (go (Leaving watch (Ok false)) l, s) else Some (go (Renaming watch) l, s)
      end
  | Renaming watch, Done => Some (go (Settling watch) l, set_lock_file (Some (Some (pid l))) s)
  | Renaming watch, Denied => Some (go (Leaving watch (Ok false)) l, s)
  | Settling watch, Done =>
      if match inspect l s with Some owner => mine owner | None => false end then Some (go (Opening watch) l, s)
      else Some (go (Leaving watch (Ok false)) l, s)
  | Opening watch, Done => Some (go (Listing watch (watches s) ∅) l, s)
  | (Inspecting watch | Bidding watch | Gating watch | Renaming watch | Settling watch | Opening watch), Failed =>
      Some (go (Leaving watch (Err Io)) l, s)
  | _, _ => None
  end.

(** ** Renewing and releasing *)

Definition renew (l : LockFile) (s : System) : LockFile * System :=
  if held l then let '(_, s) := sidecar (pid l) s in (go Renewing l, s) else (l, s).

Definition release (l : LockFile) (s : System) : LockFile * System :=
  if held l then (go Releasing l, s) else (l, s).

(** [renew] once its temporary file is written, and [release]. *)
Definition renew_or_release (answer : Answer) (l : LockFile) (s : System) : option (LockFile * System) :=
  match phase l, answer with
  | Renewing, Done => Some (finish (Ok true) l, set_lock_file (Some (Some (pid l))) s)
  | Releasing, Done =>
      if match inspect l s with Some owner => mine owner | None => false end then Some (go Unlinking l, s)
      else Some (finish (Ok true) (set_held false l), s)
  | Unlinking, Done => Some (finish (Ok true) (set_held false l), set_lock_file None s)
  | (Renewing | Releasing | Unlinking), Failed => Some (finish (Err Io) l, s)
  | _, _ => None
  end.

(** ** Steps *)

(** What the code does with an answer; [None] when it did not ask for one like it. *)
Definition advance (answer : Answer) (l : LockFile) (s : System) : option (LockFile * System) :=
  match phase l with
  | Idle => None
  | Watching watch =>
      match answer with
      | Done => Some (go (Reaping watch) l, set_watches ({[watch]} ∪ watches s) s)
      | Denied => Some (finish (Err Io) l, set_watches ({[watch]} ∪ watches s) s)
      | Failed => Some (finish (Err Io) l, s)
      | _ => None
      end
  | Reaping watch => reap_dead_watches answer watch l s
  | Unwatching watch dead =>
      match answer with
      | Done => Some (go (Reaping watch) l, set_watches (watches s ∖ {[dead]}) s)
      | Failed => Some (go (Reaping watch) l, s)
      | _ => None
      end
  | Creating watch => try_create answer watch l s
  | Listing watch unlisted fetched => has_live_foreign_watch answer watch unlisted fetched l s
  | Removing watch unlisted fetched dead =>
      match answer with
      | Done => Some (go (Listing watch unlisted fetched) l, set_watches (watches s ∖ {[dead]}) s)
      | Failed => Some (go (Listing watch unlisted fetched) l, s)
      | _ => None
      end
  | Leaving watch r =>
      match answer with
      | Done => Some (finish r l, set_watches (watches s ∖ {[watch]}) s)
      | Failed => Some (finish r l, s)
      | _ => None
      end
  | Renewing | Releasing | Unlinking => renew_or_release answer l s
  | _ => take_over answer l s
  end.

(** The lock is won and not yet certain. *)
Definition settling (p : Phase) : bool :=
  match p with Settling _ | Opening _ | Listing _ _ _ | Removing _ _ _ _ => true | _ => false end.

Record World := mk_World { system : System; locks : gmap Z LockFile }.

Definition live (w : World) (l : LockFile) : bool := pid_alive (system w) (pid l).

Definition update (i : Z) (ls : LockFile * System) (w : World) : World := mk_World ls.2 (<[i := ls.1]> (locks w)).

Definition die (pid : Z) (w : World) : World :=
  mk_World (mk_System (lock_file (system w)) (watches (system w)) (running (system w) ∖ {[pid]}) (sequences (system w))) (locks w).

(** A call that fails before the lock is certain; a watch that cannot be removed does not count. *)
Definition fault (p : Phase) (answer : Answer) : bool :=
  match p, answer with (Settling _ | Opening _ | Listing _ _ _), Failed => true | _, _ => false end.

Section steps.
(** Whether a process may die, or a call fail, between the takeover and its end. *)
Context (faults : bool).

Inductive step : World -> World -> Prop :=
| StepAcquire i l w : locks w !! i = Some l -> live w l = true -> phase l = Idle ->
    step w (update i (acquire l (system w)) w)
| StepRenew i l w : locks w !! i = Some l -> live w l = true -> phase l = Idle ->
    step w (update i (renew l (system w)) w)
| StepRelease i l w : locks w !! i = Some l -> live w l = true -> phase l = Idle ->
    step w (update i (release l (system w)) w)
| StepAdvance i l w answer ls : locks w !! i = Some l -> live w l = true ->
    (faults = false -> fault (phase l) answer = false) ->
    advance answer l (system w) = Some ls -> step w (update i ls w)
| StepDie p w : (faults = false -> forall i l, locks w !! i = Some l -> pid l = p -> settling (phase l) = false) ->
    step w (die p w).

(** The locks of processes that run, none of them in use, over any files. *)
Definition initial (w : World) : Prop :=
  forall i l, locks w !! i = Some l -> held l = false /\ phase l = Idle.

Definition reachable (w : World) : Prop := exists w0, initial w0 /\ rtc step w0 w.
End steps.
End Lockfile.
