(* ===== verification/LockfileFacts.v ===== *)
(** * The lock file: who holds it

    Over the definitions of [Lockfile]: among processes that run, with one lock each,
    at most one holds the lock, and the lock file names it, as long as none dies or
    fails between taking a lock over and being certain of it; a dead owner's lock
    can be taken. *)

From S2P Require Import Prelude.
From S2P Require Import Lockfile.
Import Lockfile.

Module LockfileFacts.

Definition watch_in (p : Phase) : option Watch :=
  match p with
  | Watching q | Reaping q | Unwatching q _ | Creating q | Inspecting q | Bidding q | Gating q | Renaming q | Settling q
  | Opening q | Listing q _ _ | Removing q _ _ _ | Leaving q _ => Some q
  | Idle | Renewing | Releasing | Unlinking => None
  end.

(** The phases with the watch file in place. *)
Definition watched (p : Phase) : option Watch := match p with Watching _ => None | p => watch_in p end.

Definition contender (p : Phase) : bool := match p with Renaming _ => true | p => settling p end.
Definition claims (l : LockFile) : bool := held l || settling (phase l).

(** The watches a listing has still to tell of. *)
Definition blocking (p : Phase) : option (gset Watch) :=
  match p with Listing _ unlisted fetched | Removing _ unlisted fetched _ => Some (unlisted ∪ fetched) | _ => None end.

Definition removing (p : Phase) : option Watch :=
  match p with Unwatching _ q | Removing _ _ _ q => Some q | _ => None end.

(** The calls of a lock that is held. *)
Definition busy (p : Phase) : bool := match p with Renewing | Releasing | Unlinking => true | _ => false end.

Definition one_lock_per_process (w : World) : Prop :=
  forall i j li lj, locks w !! i = Some li -> locks w !! j = Some lj -> pid li = pid lj -> i = j.

Record inv (w : World) : Prop := {
  i_pids : one_lock_per_process w;
  i_own i l q : locks w !! i = Some l -> watch_in (phase l) = Some q -> watch_pid q = pid l;
  i_watched i l q : locks w !! i = Some l -> live w l = true -> watched (phase l) = Some q -> q ∈ watches (system w);
  i_busy i l : locks w !! i = Some l -> busy (phase l) = true -> held l = true;
  i_dead i l q : locks w !! i = Some l -> removing (phase l) = Some q -> pid_alive (system w) (watch_pid q) = false;
  (** The last one to take the lock over is still at it. *)
  i_claim i l : locks w !! i = Some l -> live w l = true -> claims l = true ->
    exists j l', locks w !! j = Some l' /\ live w l' = true /\ claims l' = true /\ lock_file (system w) = Some (Some (pid l'));
  i_held i l : locks w !! i = Some l -> live w l = true -> held l = true -> lock_file (system w) = Some (Some (pid l)) /\
    forall j l', locks w !! j = Some l' -> live w l' = true -> contender (phase l') = false /\ (held l' = true -> j = i);
  i_rename i l q : locks w !! i = Some l -> live w l = true -> phase l = Renaming q -> lock_file (system w) <> None;
  (** A listing has still to tell of everyone who may take the lock over. *)
  i_list i l b : locks w !! i = Some l -> live w l = true -> blocking (phase l) = Some b ->
    forall j l' q, j <> i -> locks w !! j = Some l' -> live w l' = true -> contender (phase l') = true ->
      watched (phase l') = Some q -> q ∈ b;
}.

Lemma update_lookup i l' s' w j lj : locks (update i (l', s') w) !! j = Some lj ->
  (j = i /\ lj = l') \/ (j <> i /\ locks w !! j = Some lj).
Proof. cbn [update locks fst]. intros [[<- <-]|[? ?]]%lookup_insert_Some; [by left|by right]. Qed.

Lemma update_live i l' s' w l : running s' = running (system w) -> live (update i (l', s') w) l = live w l.
Proof. intros E. unfold live, pid_alive. cbn [update system snd]. by rewrite E. Qed.

Lemma settling_contender p : settling p = true -> contender p = true.
Proof. by destruct p. Qed.

(** A step of one lock keeps the invariant if it is right about its own part and does
    not disturb the others. *)
Lemma inv_update i l l' s' w :
  inv w -> locks w !! i = Some l -> live w l = true -> pid l' = pid l -> running s' = running (system w) ->
  (forall q, q ∈ watches (system w) -> pid_alive (system w) (watch_pid q) = true -> watch_pid q <> pid l -> q ∈ watches s') ->
  (forall q, watch_in (phase l') = Some q -> watch_pid q = pid l) ->
  (forall q, watched (phase l') = Some q -> q ∈ watches s') -> (busy (phase l') = true -> held l' = true) ->
  (forall q, removing (phase l') = Some q -> pid_alive (system w) (watch_pid q) = false) ->
  (forall j lj, j <> i -> locks w !! j = Some lj -> live w lj = true -> claims lj = true ->
     (lock_file s' = lock_file (system w) /\ (lock_file (system w) = Some (Some (pid l)) -> claims l' = true)) \/
     (lock_file s' = Some (Some (pid l)) /\ claims l' = true)) ->
  (claims l' = true -> lock_file s' = Some (Some (pid l)) \/ (lock_file s' = lock_file (system w) /\ claims l = true)) ->
  (held l' = true -> lock_file s' = Some (Some (pid l)) /\ contender (phase l') = false /\
     forall j lj, j <> i -> locks w !! j = Some lj -> live w lj = true -> contender (phase lj) = false /\ held lj = false) ->
  (forall j lj, j <> i -> locks w !! j = Some lj -> live w lj = true -> held lj = true ->
     lock_file s' = lock_file (system w) /\ contender (phase l') = false /\ held l' = false) ->
  (forall q, phase l' = Renaming q -> lock_file s' <> None) ->
  (forall j lj q, j <> i -> locks w !! j = Some lj -> live w lj = true -> phase lj = Renaming q -> lock_file s' <> None) ->
  (forall b, blocking (phase l') = Some b -> forall j lj q, j <> i -> locks w !! j = Some lj -> live w lj = true ->
     contender (phase lj) = true -> watched (phase lj) = Some q -> q ∈ b) ->
  (contender (phase l') = true -> (contender (phase l) = true /\ watched (phase l') = watched (phase l)) \/
     forall j lj, j <> i -> locks w !! j = Some lj -> live w lj = true -> blocking (phase lj) = None) ->
  inv (update i (l', s') w).
Proof.
  intros I Hi Hl Hpid Hrun Hothers Hown Hwatched Hbusy Hdead Hc1 Hc2 Hh1 Hh2 Hr1 Hr2 Hb1 Hb2.
  assert (forall lj, live (update i (l', s') w) lj = live w lj) as Hlive by (intros; by apply update_live).
  assert (live w l' = true) as Hl' by (unfold live; by rewrite Hpid).
  constructor.
  - intros j k lj lk [[-> ->]|[Hj Hlj]]%update_lookup [[-> ->]|[Hk Hlk]]%update_lookup E; [done|..].
    + eapply (i_pids _ I); [exact Hi|exact Hlk|congruence].
    + eapply (i_pids _ I); [exact Hlj|exact Hi|congruence].
    + by eapply (i_pids _ I).
  - intros j lj q [[-> ->]|[Hj Hlj]]%update_lookup Hq; [rewrite Hpid; by apply Hown|by eapply (i_own _ I)].
  - intros j lj q [[-> ->]|[Hj Hlj]]%update_lookup Hv Hq; [by apply Hwatched|]. rewrite Hlive in Hv. cbn [update system snd].
    assert (watch_pid q = pid lj) as E by (eapply (i_own _ I); [exact Hlj|by destruct (phase lj)]).
    apply Hothers; [by eapply (i_watched _ I)|by rewrite E|]. rewrite E. intros E'. apply Hj. by eapply (i_pids _ I).
  - intros j lj [[-> ->]|[Hj Hlj]]%update_lookup Hb; [by apply Hbusy|by eapply (i_busy _ I)].
  - intros j lj q Hj Hq. unfold pid_alive. cbn [update system snd]. rewrite Hrun. fold (pid_alive (system w) (watch_pid q)).
    apply update_lookup in Hj as [[-> ->]|[Hj Hlj]]; [by apply Hdead|by eapply (i_dead _ I)].
  - assert (claims l' = true -> lock_file s' = Some (Some (pid l)) ->
      exists j lj, locks (update i (l', s') w) !! j = Some lj /\ live (update i (l', s') w) lj = true /\ claims lj = true /\
        lock_file (system (update i (l', s') w)) = Some (Some (pid lj))) as Hme.
    { intros Hc E. exists i, l'. cbn [update locks system fst snd]. rewrite lookup_insert_eq, Hpid, Hlive. by split_and!. }
    assert (forall j lj, locks w !! j = Some lj -> live w lj = true -> claims lj = true ->
      lock_file s' = lock_file (system w) -> (lock_file (system w) = Some (Some (pid l)) -> claims l' = true) ->
      exists j lj, locks (update i (l', s') w) !! j = Some lj /\ live (update i (l', s') w) lj = true /\ claims lj = true /\
        lock_file (system (update i (l', s') w)) = Some (Some (pid lj))) as Hsame.
    { intros j lj Hlj Hv Hc E Hback. destruct (i_claim _ I j lj Hlj Hv Hc) as (k & lk & Hk & Hvk & Hck & Ek).
      destruct (decide (k = i)) as [->|Hne].
      - assert (lk = l) as -> by congruence. apply Hme; [by apply Hback|congruence].
      - exists k, lk. cbn [update locks system fst snd]. rewrite lookup_insert_ne, Hlive by done. split_and!; [done..|congruence]. }
    intros j lj [[-> ->]|[Hj Hlj]]%update_lookup Hv Hc.
    + destruct (Hc2 Hc) as [E|[E Hc']]; [by apply Hme|]. by eapply (Hsame i l).
    + rewrite Hlive in Hv. destruct (Hc1 j lj Hj Hlj Hv Hc) as [[E Hback]|[E Hc']]; [by eapply (Hsame j lj)|by apply Hme].
  - intros j lj [[-> ->]|[Hj Hlj]]%update_lookup Hv Hh; cbn [update system snd].
    + destruct (Hh1 Hh) as (E & Hcon & Hoth). rewrite Hpid. split; [done|].
      intros k lk [[-> ->]|[Hk Hlk]]%update_lookup Hvk; [done|]. rewrite Hlive in Hvk. destruct (Hoth k lk Hk Hlk Hvk). split; congruence.
    + rewrite Hlive in Hv. destruct (Hh2 j lj Hj Hlj Hv Hh) as (E & Hcon & Hno). destruct (i_held _ I j lj Hlj Hv Hh) as (E' & Hoth).
      split; [congruence|]. intros k lk [[-> ->]|[Hk Hlk]]%update_lookup Hvk; [split; congruence|]. rewrite Hlive in Hvk. by apply Hoth.
  - intros j lj q [[-> ->]|[Hj Hlj]]%update_lookup Hv Hq; [by eapply Hr1|]. rewrite Hlive in Hv. by eapply Hr2.
  - intros j lj b [[-> ->]|[Hj Hlj]]%update_lookup Hv Hb k lk q Hk.
    + intros [[-> ->]|[_ Hlk]]%update_lookup Hvk; [done|]. rewrite Hlive in Hvk. by eapply Hb1.
    + rewrite Hlive in Hv. intros [[-> ->]|[Hk' Hlk]]%update_lookup Hvk Hcon Hq.
      * destruct (Hb2 Hcon) as [[Hcon' E]|Hnone]; [|by rewrite (Hnone j lj Hj Hlj Hv) in Hb].
        eapply (i_list _ I j lj b Hlj Hv Hb i l); [congruence|done..|congruence].
      * rewrite Hlive in Hvk. by eapply (i_list _ I j lj b Hlj Hv Hb k lk).
Qed.

(** Nobody holds the lock while another contends for it. *)
Lemma contender_not_held w i l j lj : inv w -> locks w !! i = Some l -> live w l = true -> contender (phase l) = true ->
  locks w !! j = Some lj -> live w lj = true -> held lj = false.
Proof.
  intros I Hi Hl Hc Hj Hv. destruct (held lj) eqn:E; [|done]. destruct (i_held _ I j lj Hj Hv E) as [_ Hoth].
  destruct (Hoth i l Hi Hl). congruence.
Qed.

(** Who is named by the lock file while somebody claims it, claims it. *)
Lemma named_claims w i l j lj : inv w -> locks w !! i = Some l -> locks w !! j = Some lj -> live w lj = true -> claims lj = true ->
  lock_file (system w) = Some (Some (pid l)) -> claims l = true.
Proof.
  intros I Hi Hj Hv Hc E. destruct (i_claim _ I j lj Hj Hv Hc) as (k & lk & Hk & _ & Hck & Ek).
  assert (k = i) as -> by (eapply (i_pids _ I); [exact Hk|exact Hi|congruence]). congruence.
Qed.

(** Without a live name in the lock file nobody claims it. *)
Lemma no_claims w j lj : inv w -> match lock_file (system w) with Some (Some pid) => pid_alive (system w) pid = false | _ => True end ->
  locks w !! j = Some lj -> live w lj = true -> claims lj = false.
Proof.
  intros I Hd Hj Hv. destruct (claims lj) eqn:Hc; [|done]. destruct (i_claim _ I j lj Hj Hv Hc) as (k & lk & Hk & Hvk & _ & Ek).
  rewrite Ek in Hd. unfold live in Hvk. congruence.
Qed.

Lemma claims_false l : claims l = false -> held l = false /\ settling (phase l) = false.
Proof. apply orb_false_iff. Qed.

(** Steps that do not contend for the lock. *)
Lemma inv_quiet i l l' s' w :
  inv w -> locks w !! i = Some l -> live w l = true -> pid l' = pid l -> running s' = running (system w) ->
  lock_file s' = lock_file (system w) -> held l' = held l -> contender (phase l') = false ->
  (settling (phase l) = true -> lock_file (system w) <> Some (Some (pid l))) ->
  (forall q, q ∈ watches (system w) -> pid_alive (system w) (watch_pid q) = true -> watch_pid q <> pid l -> q ∈ watches s') ->
  (forall q, watch_in (phase l') = Some q -> watch_pid q = pid l) ->
  (forall q, watched (phase l') = Some q -> q ∈ watches s') -> (busy (phase l') = true -> held l' = true) ->
  (forall q, removing (phase l') = Some q -> pid_alive (system w) (watch_pid q) = false) ->
  inv (update i (l', s') w).
Proof.
  intros I Hi Hl Hpid Hrun Hlock Hheld Hcon Hgone Hothers Hown Hwatched Hbusy Hdead.
  assert (settling (phase l') = false) as Hset by (destruct (settling (phase l')) eqn:E; [apply settling_contender in E; congruence|done]).
  assert (claims l' = held l) as Hcl by (unfold claims; rewrite Hset, Hheld; by destruct (held l)).
  assert (blocking (phase l') = None) as Hbl by by destruct (phase l').
  eapply inv_update; try eassumption.
  - intros j lj _ Hj Hv Hc. left. split; [done|]. intros E. rewrite Hcl. pose proof (named_claims w i l j lj I Hi Hj Hv Hc E) as Hc'.
    unfold claims in Hc'. destruct (settling (phase l)) eqn:Hs; [by destruct (Hgone eq_refl)|]. by destruct (held l).
  - intros Hc. right. split; [done|]. unfold claims. rewrite <- Hcl, Hc. done.
  - rewrite Hheld. intros Hh. destruct (i_held _ I i l Hi Hl Hh) as [E Hoth]. split; [congruence|]. split; [done|].
    intros j lj Hne Hj Hv. destruct (Hoth j lj Hj Hv) as [Hc Hno]. split; [done|]. destruct (held lj); [|done]. by destruct (Hne (Hno eq_refl)).
  - intros j lj Hne Hj Hv Hh. split; [done|]. split; [done|]. rewrite Hheld. destruct (held l) eqn:E; [|done].
    destruct (i_held _ I j lj Hj Hv Hh) as [_ Hoth]. destruct (Hoth i l Hi Hl) as [_ Hno]. by destruct (Hne (eq_sym (Hno E))).
  - intros q Hq. by rewrite Hq in Hcon.
  - intros j lj q _ Hj Hv Hq. rewrite Hlock. by eapply (i_rename _ I).
  - intros b Hb. congruence.
  - congruence.
Qed.

(** Steps between the takeover and its end. *)
Lemma inv_settling i l l' s' w :
  inv w -> locks w !! i = Some l -> live w l = true -> pid l' = pid l -> running s' = running (system w) ->
  lock_file s' = lock_file (system w) -> held l' = held l -> settling (phase l) = true -> settling (phase l') = true ->
  (forall q, q ∈ watches (system w) -> pid_alive (system w) (watch_pid q) = true -> q ∈ watches s') ->
  watched (phase l') = watched (phase l) -> (forall q, watched (phase l) = Some q -> watch_in (phase l') = Some q) ->
  (forall q, removing (phase l') = Some q -> pid_alive (system w) (watch_pid q) = false) ->
  (forall b, blocking (phase l') = Some b -> forall j lj q, j <> i -> locks w !! j = Some lj -> live w lj = true ->
     contender (phase lj) = true -> watched (phase lj) = Some q -> q ∈ b) ->
  inv (update i (l', s') w).
Proof.
  intros I Hi Hl Hpid Hrun Hlock Hheld Hset Hset' Hothers Hw Hwin Hdead Hb.
  pose proof (settling_contender _ Hset) as Hcon. pose proof (settling_contender _ Hset') as Hcon'.
  assert (forall j lj, locks w !! j = Some lj -> live w lj = true -> held lj = false) as Hno by (intros; by eapply (contender_not_held w i l)).
  assert (claims l' = true) as Hcl by (unfold claims; by rewrite Hset', orb_true_r).
  assert (claims l = true) as Hcl0 by (unfold claims; by rewrite Hset, orb_true_r).
  assert (forall q, watched (phase l) = Some q -> watch_pid q = pid l /\ q ∈ watches (system w)) as Hmine.
  { intros q Hq. split; [eapply (i_own _ I); [exact Hi|]|by eapply (i_watched _ I)]. by destruct (phase l). }
  eapply inv_update; try eassumption; auto.
  - intros q Hq. rewrite <- (proj1 (Hmine q ltac:(rewrite <- Hw; by destruct (phase l')))). done.
  - intros q Hq. rewrite Hw in Hq. destruct (Hmine q Hq) as [E ?]. apply Hothers; [done|]. by rewrite E.
  - intros Hbusy. by destruct (phase l').
  - intros Hh. rewrite Hheld, (Hno i l Hi Hl) in Hh. done.
  - intros j lj _ Hj Hv Hh. by rewrite (Hno j lj Hj Hv) in Hh.
  - intros q Hq. by rewrite Hq in Hset'.
  - intros j lj q _ Hj Hv Hq. rewrite Hlock. by eapply (i_rename _ I).
Qed.

(** ** The steps that matter *)

Lemma inv_gated i l q s' w :
  inv w -> locks w !! i = Some l -> live w l = true -> phase l = Gating q -> s' = system w ->
  match inspect l (system w) with Some gate => is_alive gate || mine gate | None => true end = false ->
  inv (update i (go (Renaming q) l, s') w).
Proof.
  intros I Hi Hl Hp -> Hgate. unfold inspect in Hgate. destruct (lock_file (system w)) as [content|] eqn:Hlock; [|done].
  cbn [mbind option_bind is_alive mine] in Hgate. apply orb_false_iff in Hgate as [Hdead _].
  assert (forall j lj, locks w !! j = Some lj -> live w lj = true -> claims lj = false) as Hno.
  { intros j lj. apply no_claims; [done|]. rewrite Hlock. by destruct content. }
  destruct (claims_false l (Hno i l Hi Hl)) as [Hh _].
  eapply inv_update; try done; cbn [go held phase].
  - intros q' [= <-]. eapply (i_own _ I); [done|by rewrite Hp].
  - intros q' [= <-]. eapply (i_watched _ I); [done..|by rewrite Hp].
  - intros j lj _ Hj Hv. by rewrite (Hno j lj Hj Hv).
  - intros Hc. unfold claims in Hc. cbn [go held phase settling] in Hc. by rewrite Hh in Hc.
  - by rewrite Hh.
  - intros j lj _ Hj Hv Hh'. destruct (claims_false lj (Hno j lj Hj Hv)). congruence.
  - intros _ _. congruence.
  - intros _ _ _ _ _ _ _. congruence.
  - intros _. right. intros j lj Hne Hj Hv. destruct (claims_false lj (Hno j lj Hj Hv)) as [_ Hs]. by destruct (phase lj).
Qed.

Lemma inv_renamed i l q w :
  inv w -> locks w !! i = Some l -> live w l = true -> phase l = Renaming q ->
  inv (update i (go (Settling q) l, set_lock_file (Some (Some (pid l))) (system w)) w).
Proof.
  intros I Hi Hl Hp.
  assert (forall j lj, locks w !! j = Some lj -> live w lj = true -> held lj = false) as Hno
    by (intros; eapply (contender_not_held w i l); try done; by rewrite Hp).
  assert (claims (go (Settling q) l) = true) as Hcl by (unfold claims; cbn [go phase settling]; by rewrite orb_true_r).
  eapply inv_update; try done; cbn [go held phase].
  - intros q' [= <-]. eapply (i_own _ I); [done|by rewrite Hp].
  - intros q' [= <-]. eapply (i_watched _ I); [done..|by rewrite Hp].
  - intros j lj _ Hj Hv _. by right.
  - intros _. by left.
  - by rewrite (Hno i l).
  - intros j lj _ Hj Hv Hh. by rewrite (Hno j lj) in Hh.
  - intros _. left. by rewrite Hp.
Qed.

(** A listing that has told of everything leaves no other contender. *)
Lemma inv_won i l q unlisted w :
  inv w -> locks w !! i = Some l -> live w l = true -> phase l = Listing q unlisted ∅ -> unlisted ∩ watches (system w) = ∅ ->
  inv (update i (go (Leaving q (Ok true)) (set_held true l), system w) w).
Proof.
  intros I Hi Hl Hp Hgone.
  assert (forall j lj, j <> i -> locks w !! j = Some lj -> live w lj = true -> contender (phase lj) = false /\ held lj = false) as Halone.
  { intros j lj Hne Hj Hv. split; [|eapply (contender_not_held w i l); try done; by rewrite Hp].
    destruct (contender (phase lj)) eqn:Hc; [|done]. exfalso. destruct (watched (phase lj)) as [q'|] eqn:Hq; [|by destruct (phase lj)].
    pose proof (i_watched _ I j lj q' Hj Hv Hq). pose proof (i_list _ I i l (unlisted ∪ ∅) Hi Hl ltac:(by rewrite Hp) j lj q' Hne Hj Hv Hc Hq).
    set_solver. }
  assert (forall j lj, j <> i -> locks w !! j = Some lj -> live w lj = true -> claims lj = false) as Hnc.
  { intros j lj Hne Hj Hv. destruct (Halone j lj Hne Hj Hv) as [Hc Hh]. unfold claims. rewrite Hh. by destruct (phase lj). }
  assert (lock_file (system w) = Some (Some (pid l))) as Hlock.
  { destruct (i_claim _ I i l Hi Hl) as (j & lj & Hj & Hv & Hc & E); [unfold claims; rewrite Hp; by rewrite orb_true_r|].
    destruct (decide (j = i)) as [->|Hne]; [congruence|]. by rewrite (Hnc j lj) in Hc. }
  eapply inv_update; try done; cbn [go set_held held phase].
  - intros q' [= <-]. eapply (i_own _ I); [done|by rewrite Hp].
  - intros q' [= <-]. eapply (i_watched _ I); [done..|by rewrite Hp].
  - intros j lj Hne Hj Hv Hc. by rewrite (Hnc j lj) in Hc.
  - intros _. by left.
  - intros j lj Hne Hj Hv Hh. destruct (Halone j lj Hne Hj Hv). congruence.
  - intros j lj q' Hne Hj Hv Hq. destruct (Halone j lj Hne Hj Hv) as [Hc _]. by rewrite Hq in Hc.
Qed.

Lemma inv_created i l q w :
  inv w -> locks w !! i = Some l -> live w l = true -> phase l = Creating q -> lock_file (system w) = None ->
  inv (update i (go (Leaving q (Ok true)) (set_held true l), set_lock_file (Some (Some (pid l))) (system w)) w).
Proof.
  intros I Hi Hl Hp Hlock.
  assert (forall j lj, locks w !! j = Some lj -> live w lj = true -> claims lj = false) as Hnc
    by (intros j lj; apply no_claims; [done|by rewrite Hlock]).
  assert (forall j lj, locks w !! j = Some lj -> live w lj = true -> contender (phase lj) = false /\ held lj = false) as Halone.
  { intros j lj Hj Hv. destruct (claims_false lj (Hnc j lj Hj Hv)) as [Hh Hs]. split; [|done].
    destruct (phase lj) eqn:E; try done. by destruct (i_rename _ I j lj _ Hj Hv E). }
  eapply inv_update; try done; cbn [go set_held held phase].
  - intros q' [= <-]. eapply (i_own _ I); [done|by rewrite Hp].
  - intros q' [= <-]. eapply (i_watched _ I); [done..|by rewrite Hp].
  - intros j lj _ Hj Hv Hc. by rewrite (Hnc j lj) in Hc.
  - intros _. by left.
  - intros _. split; [done|]. split; [done|]. intros j lj _. apply Halone.
  - intros j lj _ Hj Hv Hh. destruct (Halone j lj Hj Hv). congruence.
Qed.

Lemma inv_released i l r w :
  inv w -> locks w !! i = Some l -> live w l = true -> held l = true ->
  inv (update i (finish r (set_held false l), set_lock_file None (system w)) w).
Proof.
  intros I Hi Hl Hh. destruct (i_held _ I i l Hi Hl Hh) as [Hlock Hoth].
  assert (forall j lj, j <> i -> locks w !! j = Some lj -> live w lj = true -> contender (phase lj) = false /\ held lj = false) as Halone.
  { intros j lj Hne Hj Hv. destruct (Hoth j lj Hj Hv) as [Hc Hn]. split; [done|]. destruct (held lj); [by destruct (Hne (Hn eq_refl))|done]. }
  eapply inv_update; try done; cbn [finish set_held held phase].
  - intros j lj Hne Hj Hv Hc. destruct (Halone j lj Hne Hj Hv) as [Hc' Hh']. unfold claims in Hc. rewrite Hh' in Hc.
    apply settling_contender in Hc. congruence.
  - intros j lj Hne Hj Hv Hh'. destruct (Halone j lj Hne Hj Hv). congruence.
  - intros j lj q Hne Hj Hv Hq. destruct (Halone j lj Hne Hj Hv) as [Hc _]. by rewrite Hq in Hc.
Qed.

Lemma pid_alive_die p w q : pid_alive (system (die p w)) q = pid_alive (system w) q && negb (q =? p).
Proof.
  unfold pid_alive. cbn [die system running]. destruct ((0 <? q) && (q <=? 2 ^ 31 - 1)); cbn [andb]; [|done].
  destruct (Z.eqb_spec q p) as [->|Hne]; cbn [negb].
  - rewrite andb_false_r. apply bool_decide_eq_false. set_solver.
  - rewrite andb_true_r. apply bool_decide_ext. set_solver.
Qed.

Lemma die_live p w l : live (die p w) l = true <-> live w l = true /\ pid l <> p.
Proof. unfold live. rewrite pid_alive_die, andb_true_iff, negb_true_iff, Z.eqb_neq. done. Qed.

Lemma inv_die p w : inv w -> (forall i l, locks w !! i = Some l -> pid l = p -> settling (phase l) = false) -> inv (die p w).
Proof.
  intros I Hp. constructor; cbn [die locks system lock_file watches].
  - intros i j li lj. apply (i_pids _ I).
  - intros i l q. apply (i_own _ I).
  - intros i l q Hi [Hv _]%die_live. by apply (i_watched _ I i l).
  - intros i l. apply (i_busy _ I).
  - intros i l q Hi Hq. pose proof (i_dead _ I i l q Hi Hq) as Hd. 
    pose proof (pid_alive_die p w (watch_pid q)) as E. cbn [die system] in E. by rewrite E, Hd.
  - intros i l Hi [Hv Hne]%die_live Hc. destruct (i_claim _ I i l Hi Hv Hc) as (j & lj & Hj & Hvj & Hcj & E).
    destruct (decide (pid lj = p)) as [Hd|Hd].
    + exfalso. unfold claims in Hcj. rewrite (Hp j lj Hj Hd), orb_false_r in Hcj. destruct (i_held _ I j lj Hj Hvj Hcj) as [_ Hoth].
      destruct (Hoth i l Hi Hv) as [Hcon Hn]. unfold claims in Hc. apply orb_true_iff in Hc as [Hh|Hs%settling_contender]; [|congruence].
      rewrite <- (Hn Hh) in Hj. congruence.
    + exists j, lj. split_and!; try done. by apply die_live.
  - intros i l Hi [Hv _]%die_live Hh. destruct (i_held _ I i l Hi Hv Hh) as [E Hoth]. split; [done|].
    intros j lj Hj [Hvj _]%die_live. by apply Hoth.
  - intros i l q Hi [Hv _]%die_live. by apply (i_rename _ I i l).
  - intros i l b Hi [Hv _]%die_live Hb j lj q Hne Hj [Hvj _]%die_live. by apply (i_list _ I i l b Hi Hv Hb j lj).
Qed.

(** ** Every step *)

Section advance.
Context (i : Z) (l : LockFile) (w : World).
Context (I : inv w) (Hi : locks w !! i = Some l) (Hl : live w l = true).

Lemma own_watch q : watch_in (phase l) = Some q -> watch_pid q = pid l.
Proof. by apply (i_own _ I i). Qed.

Lemma own_watched q : watched (phase l) = Some q -> q ∈ watches (system w).
Proof. by apply (i_watched _ I i). Qed.

Lemma not_settled : contender (phase l) = false -> settling (phase l) = true -> lock_file (system w) <> Some (Some (pid l)).
Proof. intros Hc Hs%settling_contender. congruence. Qed.

(** A call that leads nowhere near the lock, in the phase [p0]. *)
Lemma go_quiet p0 p s' :
  phase l = p0 -> running s' = running (system w) -> lock_file s' = lock_file (system w) -> watches s' = watches (system w) ->
  contender p = false -> (settling p0 = true -> lock_file (system w) <> Some (Some (pid l))) ->
  watch_in p = watch_in p0 -> watched p = watched p0 -> busy p = false -> (forall q, removing p = Some q -> pid_alive (system w) (watch_pid q) = false) ->
  inv (update i (go p l, s') w).
Proof.
  intros <- Hr Hlock Hw Hc Hs Hin Hwd Hb Hd. eapply inv_quiet; try done; cbn [go phase].
  - by rewrite Hw.
  - intros q Hq. apply own_watch. congruence.
  - intros q Hq. rewrite Hw. apply own_watched. congruence.
  - congruence.
Qed.

Lemma finish_quiet r s' :
  running s' = running (system w) -> lock_file s' = lock_file (system w) ->
  (forall q, q ∈ watches (system w) -> watch_pid q <> pid l -> q ∈ watches s') -> contender (phase l) = false ->
  inv (update i (finish r l, s') w).
Proof. intros. eapply inv_quiet; try done; [|by auto]. by apply not_settled. Qed.

Lemma reap_inv answer q ls : phase l = Reaping q -> reap_dead_watches answer q l (system w) = Some ls -> inv (update i ls w).
Proof.
  intros Hp. unfold reap_dead_watches. destruct answer as [| | |q'|q'|]; try done.
  - intros [= <-]. by eapply go_quiet.
  - destruct (decide _); [|done]. destruct (negb _ && negb _) eqn:E; intros [= <-].
    + eapply go_quiet; try done. intros q0 [= <-]. apply andb_true_iff in E as [_ E]. by apply negb_true_iff.
    + eapply inv_quiet; try done; rewrite ?Hp; try done; [intros q0 Hq; apply own_watch|intros q0 Hq; apply own_watched]; by rewrite Hp.
  - intros [= <-]. by eapply go_quiet.
Qed.

Lemma create_inv answer q ls : phase l = Creating q -> try_create answer q l (system w) = Some ls -> inv (update i ls w).
Proof.
  intros Hp. unfold try_create. destruct answer; try done.
  - destruct (lock_file (system w)) eqn:E; intros [= <-]; [by eapply go_quiet|by apply inv_created].
  - intros [= <-]. by eapply go_quiet.
Qed.

Lemma removed_watch q q' : q ∈ watches (system w) -> pid_alive (system w) (watch_pid q) = true ->
  pid_alive (system w) (watch_pid q') = false -> q ∈ watches (system w) ∖ {[q']}.
Proof. intros Hq Ha Hd. apply elem_of_difference. split; [done|]. intros ->%elem_of_singleton. congruence. Qed.

Lemma listing_inv answer q unlisted fetched ls : phase l = Listing q unlisted fetched -> fault (phase l) answer = false ->
  has_live_foreign_watch answer q unlisted fetched l (system w) = Some ls -> inv (update i ls w).
Proof.
  intros Hp Hf. rewrite Hp in Hf. pose proof (i_list _ I i l (unlisted ∪ fetched) Hi Hl ltac:(by rewrite Hp)) as Hb.
  unfold has_live_foreign_watch. destruct answer as [| | |q'|q'|]; try done.
  - destruct (decide _); [|done]. intros [= <-]. eapply inv_settling; try done; cbn [go phase]; rewrite ?Hp; try done.
    intros b [= <-] j lj q0 Hne Hj Hv Hc Hq. specialize (Hb j lj q0 Hne Hj Hv Hc Hq). destruct (decide (q0 = q')); set_solver.
  - destruct (decide _); [|done]. destruct (Z.eqb_spec (watch_pid q') (pid l)) as [Hmine|Hmine].
    + intros [= <-]. eapply inv_settling; try done; cbn [go phase]; rewrite ?Hp; try done.
      intros b [= <-] j lj q0 Hne Hj Hv Hc Hq. specialize (Hb j lj q0 Hne Hj Hv Hc Hq).
      assert (q0 <> q'); [|set_solver]. intros ->. apply Hne. eapply (i_pids _ I); [exact Hj|exact Hi|].
      rewrite <- Hmine. symmetry. eapply (i_own _ I); [exact Hj|by destruct (phase lj)].
    + destruct (pid_alive _ _) eqn:Ha; intros [= <-]; eapply inv_settling; try done; cbn [go phase]; rewrite ?Hp; try done.
      * by intros q0 [= <-].
      * intros b [= <-] j lj q0 Hne Hj Hv Hc Hq. specialize (Hb j lj q0 Hne Hj Hv Hc Hq).
        assert (q0 <> q'); [|set_solver]. intros ->. assert (watch_pid q' = pid lj) as E
          by (eapply (i_own _ I); [exact Hj|by destruct (phase lj)]). unfold live in Hv. congruence.
  - destruct (decide _) as [[-> Hn]|]; [|done]. intros [= <-]. by eapply inv_won.
Qed.

Lemma take_over_inv answer ls : fault (phase l) answer = false -> take_over answer l (system w) = Some ls -> inv (update i ls w).
Proof.
  intros Hf. unfold take_over. destruct (phase l) as [|q|q|q d|q|q|q|q|q|q|q|q u f|q u f d|q r| | |] eqn:Hp; destruct answer; try done.
  - destruct (inspect l (system w)) as [seen|]; [destruct (is_alive seen)|]; intros [= <-]; by eapply go_quiet.
  - intros [= <-]. by eapply go_quiet.
  - intros [= <-]. by eapply go_quiet.
  - intros [= <-]. by eapply go_quiet.
  - destruct (inspect l (system w)) as [gate|] eqn:E; [destruct (is_alive gate || mine gate) eqn:Hg|]; intros [= <-];
      try by eapply go_quiet. eapply inv_gated; try done. by rewrite E.
  - intros [= <-]. by eapply go_quiet.
  - intros [= <-]. by apply inv_renamed.
  - intros [= <-]. by eapply go_quiet.
  - intros [= <-]. by eapply go_quiet.
  - unfold inspect. destruct (lock_file (system w)) as [content|] eqn:E; cbn [mbind option_bind mine].
    + case_bool_decide as Hm; intros [= <-].
      * eapply inv_settling; try done; cbn [go phase]; by rewrite ?Hp.
      * eapply go_quiet; try done. intros _. congruence.
    + intros [= <-]. eapply go_quiet; try done. intros _. congruence.
  - intros [= <-]. eapply inv_settling; try done; cbn [go phase]; rewrite ?Hp; try done.
    intros b [= <-] j lj q0 Hne Hj Hv Hc Hq. apply elem_of_union_l. by eapply (i_watched _ I).
Qed.

Lemma renew_or_release_inv answer ls : renew_or_release answer l (system w) = Some ls -> inv (update i ls w).
Proof.
  pose proof (i_busy _ I i l Hi) as Hh. unfold renew_or_release. destruct (phase l) eqn:Hp; destruct answer; try done; specialize (Hh eq_refl);
    destruct (i_held _ I i l Hi Hl Hh) as [Hlock _].
  - intros [= <-]. apply finish_quiet; try done. by rewrite Hp.
  - intros [= <-]. apply finish_quiet; try done. by rewrite Hp.
  - unfold inspect. rewrite Hlock. cbn [mbind option_bind mine]. rewrite bool_decide_true by done. intros [= <-].
    eapply inv_quiet; try done. by rewrite Hp.
  - intros [= <-]. apply finish_quiet; try done. by rewrite Hp.
  - intros [= <-]. by apply inv_released.
  - intros [= <-]. apply finish_quiet; try done. by rewrite Hp.
Qed.

Lemma advance_inv answer ls : fault (phase l) answer = false -> advance answer l (system w) = Some ls -> inv (update i ls w).
Proof.
  intros Hf Ha. unfold advance in Ha. destruct (phase l) as [|q|q|q d|q|q|q|q|q|q|q|q u f|q u f d|q r| | |] eqn:Hp;
    try (rewrite <- Hp in Hf; by eapply take_over_inv); try by eapply renew_or_release_inv.
  - assert (watch_pid q = pid l) as Hq by (apply own_watch; by rewrite Hp).
    destruct answer; try done; injection Ha as <-.
    + eapply inv_quiet; try done; cbn [go phase set_watches watches]; rewrite ?Hp; try done; [set_solver|by intros q' [= <-]|].
      intros q' [= <-]. set_solver.
    + apply finish_quiet; try done; [set_solver|by rewrite Hp].
    + apply finish_quiet; try done. by rewrite Hp.
  - by eapply reap_inv.
  - pose proof (i_dead _ I i l d Hi ltac:(by rewrite Hp)) as Hd.
    assert (q ∈ watches (system w)) by (apply own_watched; by rewrite Hp). assert (watch_pid q = pid l) as Hq by (apply own_watch; by rewrite Hp).
    assert (pid_alive (system w) (watch_pid q) = true) as Hqa by (by rewrite Hq).
    destruct answer; try done; injection Ha as <-; [|by eapply go_quiet].
    eapply inv_quiet; try done; cbn [go phase set_watches watches]; rewrite ?Hp; try done.
    + intros q' Hq' Ha _. by apply removed_watch.
    + by intros q' [= <-].
    + intros q' [= <-]. by apply removed_watch.
  - by eapply create_inv.
  - eapply listing_inv; try done. by rewrite Hp.
  - pose proof (i_dead _ I i l d Hi ltac:(by rewrite Hp)) as Hd. pose proof (i_list _ I i l _ Hi Hl ltac:(by rewrite Hp)) as Hb.
    destruct answer; try done; injection Ha as <-; eapply inv_settling; try done; cbn [go phase set_watches watches]; rewrite ?Hp; try done.
    + intros q' Hq' Ha. by apply removed_watch.
    + by intros b [= <-].
    + by intros b [= <-].
  - assert (watch_pid q = pid l) as Hq by (apply own_watch; by rewrite Hp).
    destruct answer; try done; injection Ha as <-; (apply finish_quiet; try done; [..|by rewrite Hp]).
    intros q' Hq' Hne. cbn [set_watches watches]. apply elem_of_difference. split; [done|]. intros ->%elem_of_singleton. congruence.
Qed.
End advance.

Lemma start_inv i l w ls : inv w -> locks w !! i = Some l -> live w l = true -> phase l = Idle ->
  ls = acquire l (system w) \/ ls = renew l (system w) \/ ls = release l (system w) -> inv (update i ls w).
Proof.
  intros I Hi Hl Hp [->|[->| ->]].
  - unfold acquire, sidecar. cbn [go]. eapply inv_quiet; try done; rewrite ?Hp; try done. by intros q [= <-].
  - unfold renew, sidecar. destruct (held l) eqn:Hh; eapply inv_quiet; try done; by rewrite ?Hp.
  - unfold release. destruct (held l) eqn:Hh; eapply inv_quiet; try done; by rewrite ?Hp.
Qed.

Lemma lock_step_inv w w' : step false w w' -> inv w -> inv w'.
Proof.
  intros Hs I. destruct Hs as [i l w Hi Hl Hp|i l w Hi Hl Hp|i l w Hi Hl Hp|i l w answer ls Hi Hl Hf Ha|p w Hp].
  - eapply start_inv; eauto.
  - eapply start_inv; eauto.
  - eapply start_inv; eauto.
  - eapply advance_inv; try done. by apply Hf.
  - apply inv_die; [done|]. by apply Hp.
Qed.

Lemma initial_inv w : one_lock_per_process w -> initial w -> inv w.
Proof.
  intros Hone Hinit.
  assert (forall i l, locks w !! i = Some l -> phase l = Idle /\ claims l = false) as Hidle.
  { intros i l Hi. destruct (Hinit i l Hi) as [Hh Hp]. unfold claims. by rewrite Hh, Hp. }
  constructor; [done|intros i l q Hi|intros i l q Hi|intros i l Hi|intros i l q Hi|intros i l Hi|intros i l Hi|intros i l q Hi|intros i l b Hi];
    destruct (Hidle i l Hi) as [Hp Hc]; rewrite ?Hp; try done.
  - congruence.
  - intros _ Hh. unfold claims in Hc. by rewrite Hh in Hc.
Qed.

Lemma lock_steps_inv w w' : rtc (step false) w w' -> inv w -> inv w'.
Proof. induction 1; [done|]. intros. by apply IHrtc, (lock_step_inv x). Qed.

(** ** A lock alone *)

Definition alone (x y : LockFile * System) : Prop :=
  exists answer, fault (phase x.1) answer = false /\ advance answer x.1 x.2 = Some y.

Lemma advance_keeps answer l s ls : advance answer l s = Some ls -> pid ls.1 = pid l /\ running ls.2 = running s.
Proof.
  unfold advance, reap_dead_watches, try_create, take_over, has_live_foreign_watch, renew_or_release, sidecar.
  destruct (phase l), answer; intros; simplify_option_eq; repeat case_match; simplify_eq; done.
Qed.

Lemma alone_steps i x y w : rtc alone x y -> locks w !! i = Some x.1 -> system w = x.2 -> live w x.1 = true ->
  exists w', rtc (step false) w w' /\ locks w' !! i = Some y.1 /\ system w' = y.2.
Proof.
  intros Hr. revert w. induction Hr as [x|x y z (answer & Hf & Ha) _ IH]; intros w Hi Hs Hl; [by exists w|].
  rewrite <- Hs in Ha. destruct (advance_keeps _ _ _ _ Ha) as [Hp Hrun].
  destruct (IH (update i y w)) as (w' & Hw' & ? & ?).
  - cbn [update locks fst]. by rewrite lookup_insert_eq.
  - done.
  - unfold live, pid_alive in *. cbn [update system snd]. by rewrite Hp, Hrun.
  - exists w'. split; [|done]. eapply rtc_l; [|exact Hw']. by eapply StepAdvance.
Qed.

Lemma alone_step answer x y : fault (phase x.1) answer = false -> advance answer x.1 x.2 = Some y -> alone x y.
Proof. intros. by exists answer. Qed.

(** The watches that are there are the own one or those of dead processes. *)
Definition no_rivals (l : LockFile) (s : System) : Prop :=
  forall q, q ∈ watches s -> watch_pid q = pid l \/ pid_alive s (watch_pid q) = false.

Lemma listing_ends q l n : forall unlisted s, phase l = Listing q unlisted ∅ -> no_rivals l s -> (size (unlisted ∩ watches s) <= n)%nat ->
  exists s', rtc alone (l, s) (go (Leaving q (Ok true)) (set_held true l), s') /\ running s' = running s /\ lock_file s' = lock_file s.
Proof.
  revert l. induction n as [|n IH]; intros l unlisted s Hp Hno Hn.
  { assert (unlisted ∩ watches s = ∅) as E by (apply leibniz_equiv, size_empty_inv; lia). exists s. split; [|done].
    apply rtc_once, (alone_step NoMore); cbn [fst snd]; unfold advance; rewrite Hp; [done|].
    unfold has_live_foreign_watch. by rewrite decide_True. }
  destruct (decide (unlisted ∩ watches s = ∅)) as [E|Hne].
  { apply (IH l unlisted s Hp Hno). rewrite E, size_empty. lia. }
  apply set_choose_L in Hne as [e He]. pose proof He as [Heu Hes]%elem_of_intersection.
  assert (forall s', watches s' ⊆ watches s -> (size ((unlisted ∖ {[e]}) ∩ watches s') <= n)%nat) as Hless.
  { intros s' Hsub. assert (size ((unlisted ∖ {[e]}) ∩ watches s') < size (unlisted ∩ watches s))%nat; [|lia].
    apply subset_size. split; [set_solver|]. intros Hx. specialize (Hx e He). set_solver. }
  set (l1 := go (Listing q (unlisted ∖ {[e]}) ({[e]} ∪ ∅)) l). set (l2 := go (Listing q (unlisted ∖ {[e]}) ∅) l).
  assert (alone (l, s) (l1, s)) as H1.
  { apply (alone_step (Fetch e)); cbn [fst snd]; unfold advance; rewrite Hp; [done|]. unfold has_live_foreign_watch. by rewrite decide_True. }
  assert (({[e]} ∪ ∅) ∖ {[e]} = (∅ : gset Watch)) as Hempty by set_solver.
  assert (exists s2, rtc alone (l1, s) (l2, s2) /\ watches s2 ⊆ watches s /\ running s2 = running s /\ lock_file s2 = lock_file s)
    as (s2 & H2 & Hw & Hr & Hlf).
  { destruct (Z.eqb_spec (watch_pid e) (pid l)) as [Hm|Hm].
    - exists s. split; [|done]. apply rtc_once, (alone_step (Entry e)); [done|]. unfold l1, go, advance, has_live_foreign_watch. cbn [fst snd phase].
      rewrite decide_True by set_solver. cbn [pid]. rewrite Hempty, (proj2 (Z.eqb_eq _ _) Hm). done.
    - exists (set_watches (watches s ∖ {[e]}) s). split; [|split; [cbn; set_solver|done]].
      apply rtc_l with (go (Removing q (unlisted ∖ {[e]}) ∅ e) l, s).
      + apply (alone_step (Entry e)); [done|]. unfold l1, go, advance, has_live_foreign_watch. cbn [fst snd phase].
        rewrite decide_True by set_solver. cbn [pid]. rewrite Hempty, (proj2 (Z.eqb_neq _ _) Hm).
        destruct (Hno e Hes) as [|Hd]; [done|]. by rewrite Hd.
      + apply rtc_once. by apply (alone_step Done). }
  destruct (IH l2 (unlisted ∖ {[e]}) s2 eq_refl) as (s' & Hrun & ? & ?).
  - intros e' He'. unfold pid_alive. rewrite Hr. fold (pid_alive s (watch_pid e')). apply Hno. set_solver.
  - by apply Hless.
  - exists s'. split; [|split; congruence]. eapply rtc_l; [exact H1|]. etrans; [exact H2|]. exact Hrun.
Qed.

(** The answers to a lock alone, none of them a failure. *)
Definition play (answers : list Answer) (x : LockFile * System) : option (LockFile * System) :=
  foldM (fun (x : LockFile * System) answer => advance answer x.1 x.2) x answers.

Lemma play_alone answers x y : Forall (fun a => a <> Failed) answers -> play answers x = Some y -> rtc alone x y.
Proof.
  unfold play. intros Ha. revert x. induction Ha as [|a answers Hne _ IH]; intros x; cbn [foldM]; [by intros [= ->]|].
  destruct (advance a x.1 x.2) as [x1|] eqn:E; [|done]. simpl_bind. intros Hr. eapply rtc_l; [|by apply IH].
  apply (alone_step a); [|done]. by destruct (phase x.1), a.
Qed.

Definition owner_dead (s : System) : Prop :=
  match lock_file s with Some (Some pid) => pid_alive s pid = false | _ => True end.

Lemma acquire_alone l s : phase l = Idle -> pid_alive s (pid l) = true -> no_rivals l s -> owner_dead s ->
  exists q s1, play [Done; NoMore; Done] (acquire l s) =
      Some (match lock_file s with None => go (Leaving q (Ok true)) (set_held true l) | Some _ => go (Inspecting q) l end, s1) /\
    running s1 = running s /\ no_rivals l s1 /\
    lock_file s1 = match lock_file s with None => Some (Some (pid l)) | Some _ => lock_file s end.
Proof.
  intros Hp Hl Hno Hd. unfold acquire, sidecar, play.
  set (q := mk_Watch _ _). exists q. cbn [foldM advance go phase fst snd]. simpl_bind. cbn [advance go phase fst snd reap_dead_watches].
  simpl_bind. unfold try_create, sidecar. cbn [advance go phase fst snd pid lock_file set_watches].
  assert (forall q', q' ∈ {[q]} ∪ watches s -> watch_pid q' = pid l \/ pid_alive s (watch_pid q') = false) as Hno'.
  { intros q' [->%elem_of_singleton|Hq']%elem_of_union; [by left|by apply Hno]. }
  destruct (lock_file s) as [content|] eqn:Hlock; simpl_bind; eexists; (split; [reflexivity|]); by split_and!.
Qed.

Lemma take_over_alone q l s content : pid_alive s (pid l) = true -> lock_file s = Some content -> owner_dead s ->
  exists s1, play [Done; Done; Done; Done; Done; Done] (go (Inspecting q) l, s) = Some (go (Listing q (watches s1) ∅) l, s1) /\
    running s1 = running s /\ watches s1 = watches s /\ lock_file s1 = Some (Some (pid l)).
Proof.
  intros Hl Hlock Hd. unfold owner_dead in Hd. rewrite Hlock in Hd.
  assert (match content with Some p => pid_alive s p | None => false end = false) as Hdead by by destruct content.
  assert (bool_decide (content = Some (pid l)) = false) as Hmine.
  { apply bool_decide_eq_false. intros ->. congruence. }
  assert (forall sequences content', pid_alive (mk_System content' (watches s) (running s) sequences) = pid_alive s) as Ha by done.
  unfold play. cbn [foldM advance go phase fst snd take_over]. unfold inspect at 1. rewrite Hlock. cbn [mbind option_bind is_alive pid].
  rewrite Hdead. unfold sidecar. simpl_bind. cbn [advance go phase fst snd take_over]. simpl_bind. cbn [advance go phase fst snd take_over].
  unfold inspect at 1. cbn [lock_file pid]. rewrite Hlock. cbn [mbind option_bind is_alive mine go pid]. rewrite Ha, Hdead, Hmine. cbn [orb]. simpl_bind.
  cbn [advance go phase fst snd take_over]. simpl_bind. cbn [advance go phase fst snd take_over pid]. unfold inspect at 1.
  cbn [set_lock_file lock_file go pid mbind option_bind mine]. rewrite bool_decide_true by done. simpl_bind.
  cbn [advance go phase fst snd take_over]. simpl_bind. eexists. split; [reflexivity|]. by split_and!.
Qed.

(** ** The claims *)

(** C23: At most one process holds the lock, the lock file names it, and nobody else is on
    the way to take it over, whatever processes acquire, renew, release, fail and die
    at any point, over any files left behind; except that one which has put its name
    in place of a dead owner's neither dies nor fails before it is certain, and every
    process has one lock. *)
Theorem at_most_one_holder w0 w : initial w0 -> one_lock_per_process w0 -> rtc (step false) w0 w ->
  forall i l, locks w !! i = Some l -> live w l = true -> held l = true ->
    lock_file (system w) = Some (Some (pid l)) /\
    forall j l', locks w !! j = Some l' -> live w l' = true -> contender (phase l') = false /\ (held l' = true -> j = i).
Proof. intros Hinit Hone Hsteps. exact (i_held _ (lock_steps_inv _ _ Hsteps (initial_inv _ Hone Hinit))). Qed.

(** C24: The lock of a dead owner can be taken: a process that acquires alone, beside the
    files of dead processes, gets the lock, whether the lock file is missing, names a
    dead process or cannot be read. *)
Theorem dead_owner_is_replaced i l w : locks w !! i = Some l -> live w l = true -> phase l = Idle ->
  no_rivals l (system w) -> owner_dead (system w) ->
  exists w' l', rtc (step false) w w' /\ locks w' !! i = Some l' /\ held l' = true /\ phase l' = Idle /\
    returned l' = Some (Ok true) /\ lock_file (system w') = Some (Some (pid l)).
Proof.
  intros Hi Hl Hp Hno Hd. destruct (acquire_alone l (system w) Hp Hl Hno Hd) as (q & s1 & Hplay & Hrun & Hno1 & Hlock).
  apply play_alone in Hplay; [|by repeat constructor].
  assert (exists s2, rtc alone (acquire l (system w)) (go (Leaving q (Ok true)) (set_held true l), s2) /\ lock_file s2 = Some (Some (pid l)))
    as (s2 & Hto & Hown).
  { destruct (lock_file (system w)) as [content|] eqn:E; [|by exists s1].
    destruct (take_over_alone q l s1 content) as (s2 & Hplay2 & Hrun2 & Hw2 & Hown).
    - unfold live, pid_alive in *. by rewrite Hrun.
    - by rewrite Hlock.
    - unfold owner_dead, pid_alive in *. rewrite Hlock, Hrun. by rewrite E in Hd.
    - apply play_alone in Hplay2; [|by repeat constructor].
      destruct (listing_ends q (go (Listing q (watches s2) ∅) l) (size (watches s2 ∩ watches s2)) (watches s2) s2 eq_refl) as (s3 & Hend & _ & Hl3); [|done|].
      + intros e. rewrite Hw2. unfold pid_alive. rewrite Hrun2. apply Hno1.
      + exists s3. split; [|congruence]. etrans; [exact Hplay|]. etrans; [exact Hplay2|]. exact Hend. }
  assert (rtc alone (acquire l (system w)) (finish (Ok true) (set_held true l), set_watches (watches s2 ∖ {[q]}) s2)) as Hall.
  { eapply rtc_r; [exact Hto|]. by apply (alone_step Done). }
  destruct (alone_steps i _ _ (update i (acquire l (system w)) w) Hall) as (w' & Hsteps & Hi' & Hs').
  - cbn [update locks]. by rewrite lookup_insert_eq.
  - done.
  - done.
  - exists w', (finish (Ok true) (set_held true l)). split.
    + eapply rtc_l; [|exact Hsteps]. by apply StepAcquire.
    + rewrite Hs'. by split_and!.
Qed.

(** ** Runs *)

Inductive Action := Acquire (i : Z) | Renew (i : Z) | Release (i : Z) | Receive (i : Z) (answer : Answer) | Die (pid : Z).

Definition perform (faults : bool) (w : World) (action : Action) : option World :=
  match action with
  | Die p =>
      if faults || bool_decide (map_Forall (fun _ l => pid l = p -> settling (phase l) = false) (locks w)) then Some (die p w) else None
  | Acquire i | Renew i | Release i | Receive i _ =>
      l ← locks w !! i;
      if negb (live w l) then None
      else
        match action with
        | Receive _ answer =>
            if negb faults && fault (phase l) answer then None
            else ls ← advance answer l (system w); Some (update i ls w)
        | _ =>
            match phase l, action with
            | Idle, Acquire _ => Some (update i (acquire l (system w)) w)
            | Idle, Renew _ => Some (update i (renew l (system w)) w)
            | Idle, Release _ => Some (update i (release l (system w)) w)
            | _, _ => None
            end
        end
  end.

Lemma perform_step faults w action w' : perform faults w action = Some w' -> step faults w w'.
Proof.
  unfold perform. destruct action as [i|i|i|i answer|p].
  1-4: destruct (locks w !! i) as [l|] eqn:Hi; [|done]; simpl_bind; destruct (live w l) eqn:Hl; [|done]; cbn [negb].
  1-3: destruct (phase l) eqn:Hp; try done; intros [= <-].
  - by apply StepAcquire.
  - by apply StepRenew.
  - by apply StepRelease.
  - destruct (negb faults && fault (phase l) answer) eqn:Hf; [done|]. destruct (advance answer l (system w)) as [ls|] eqn:Ha; [|done].
    simpl_bind. intros [= <-]. eapply StepAdvance; try done. intros ->. exact Hf.
  - destruct (faults || _) eqn:Hf; [|done]. intros [= <-]. apply StepDie. intros -> i l Hi. cbn [orb] in Hf.
    apply bool_decide_eq_true in Hf. by apply (Hf i l).
Qed.

Definition perform_all (faults : bool) (actions : list Action) (w : World) : option World := foldM (perform faults) w actions.

Lemma perform_all_steps faults actions w w' : perform_all faults actions w = Some w' -> rtc (step faults) w w'.
Proof.
  unfold perform_all. revert w. induction actions as [|a actions IH]; intros w; cbn [foldM]; [by intros [= ->]|].
  destruct (perform faults w a) as [w1|] eqn:E; [|done]. simpl_bind. intros Hr. eapply rtc_l; [by eapply perform_step|by apply IH].
Qed.

(** Locks of the processes in [pids], beside the lock file of the dead process 9. *)
Definition unused (pids : list Z) : World :=
  mk_World (mk_System (Some (Some 9)) ∅ (list_to_set pids) ∅)
    (list_to_map (imap (fun i p => (Z.of_nat i, mk_LockFile p false Idle None)) pids)).

Definition receive (i : Z) (answers : list Answer) : list Action := map (Receive i) answers.
Definition up_to_rename (i : Z) : list Action := Acquire i :: receive i [Done; NoMore; Done; Done; Done; Done].
Definition holders (w : World) : list Z := (map_to_list (filter (fun il => held il.2 = true /\ live w il.2 = true) (locks w))).*1.

(** Two processes take over at once: the one whose name stays waits for the other. *)
Definition both_take_over : list Action :=
  up_to_rename 0 ++ up_to_rename 1 ++
  receive 0 [Done; Done; Done; Fetch (mk_Watch 2 1)] ++ receive 1 [Done] ++
  receive 0 [Entry (mk_Watch 2 1); Done; Done] ++
  receive 1 [Done; Done; Fetch (mk_Watch 2 1); Entry (mk_Watch 2 1); NoMore; Done].
Definition one_wins : World := default (unused []) (perform_all false both_take_over (unused [1; 2])).

Lemma at_most_one_holder_witness :
  holders one_wins = [1] /\ lock_file (system one_wins) = Some (Some 2) /\
  forall j l', locks one_wins !! j = Some l' -> live one_wins l' = true -> held l' = true -> j = 1.
Proof.
  split; [vm_compute; reflexivity|].
  destruct (at_most_one_holder (unused [1; 2]) one_wins) with (i := 1) (l := mk_LockFile 2 true Idle (Some (Ok true))) as [Hlock Hoth].
  - intros i l Hi. apply elem_of_list_to_map_2 in Hi. cbn in Hi. set_solver.
  - intros i j li lj Hi%elem_of_list_to_map_2 Hj%elem_of_list_to_map_2. cbn in Hi, Hj. set_solver.
  - apply (perform_all_steps false both_take_over). vm_compute. reflexivity.
  - vm_compute. reflexivity.
  - vm_compute. reflexivity.
  - reflexivity.
  - split; [exact Hlock|]. intros j l' Hj Hv. exact (proj2 (Hoth j l' Hj Hv)).
Defined.

Lemma dead_owner_is_replaced_witness :
  exists w' l', rtc (step false) (unused [1]) w' /\ locks w' !! 0 = Some l' /\ held l' = true /\ lock_file (system w') = Some (Some 1).
Proof.
  destruct (dead_owner_is_replaced 0 (mk_LockFile 1 false Idle None) (unused [1])) as (w' & l' & Hs & Hi & Hh & _ & _ & Hlock);
    [reflexivity..| | |].
  - intros q Hq. cbn in Hq. set_solver.
  - vm_compute. reflexivity.
  - exists w', l'. by split_and!.
Defined.

Definition listed (q : Watch) : list Answer := [Fetch q; Entry q].

(** A process that dies right after the takeover: another one, which has seen its own name
    before, is certain of the lock although the file names the dead one, and a third
    takes it over. *)
Definition death_after_takeover : list Action :=
  up_to_rename 0 ++ up_to_rename 1 ++ receive 0 [Done; Done] ++ receive 1 [Done] ++ [Die 2] ++
  receive 0 (Done :: listed (mk_Watch 1 1) ++ listed (mk_Watch 2 1) ++ [Done; NoMore; Done]) ++
  up_to_rename 2 ++ receive 2 (Done :: Done :: Done :: listed (mk_Watch 3 1) ++ [NoMore; Done]).

Example death_after_takeover_breaks_exclusion :
  exists w, rtc (step true) (unused [1; 2; 3]) w /\ holders w = [2; 0].
Proof.
  exists (default (unused []) (perform_all true death_after_takeover (unused [1; 2; 3]))).
  split; [apply (perform_all_steps true death_after_takeover)|]; vm_compute; reflexivity.
Qed.

(** Two locks of one process do not see each other's watches. *)
Definition twice_in_one_process : list Action :=
  up_to_rename 0 ++ up_to_rename 1 ++ receive 0 [Done] ++ receive 1 [Done] ++
  receive 0 (Done :: Done :: listed (mk_Watch 1 1) ++ listed (mk_Watch 1 4) ++ [NoMore]) ++
  receive 1 (Done :: Done :: listed (mk_Watch 1 1) ++ listed (mk_Watch 1 4) ++ [NoMore]).

Example one_process_takes_the_lock_twice :
  exists w, rtc (step false) (unused [1; 1]) w /\ holders w = [1; 0].
Proof.
  exists (default (unused []) (perform_all false twice_in_one_process (unused [1; 1]))).
  split; [apply (perform_all_steps false twice_in_one_process)|]; vm_compute; reflexivity.
Qed.
End LockfileFacts.
