(* ===== verification/Router.v ===== *)
(** * Routing ([crates/minidb/src/cluster]: [utils.rs], [router.rs], [coordinator.rs], [topology.rs])

    Which shard a key belongs to, the grouping of the operations of a batch by
    shard, and the file that fixes the number of shards when a cluster is created.
    Theorems: a group holds exactly the operations of its shard, in order; and all
    who open a cluster agree on it. *)

From stdpp Require Import pretty.
From S2P Require Import Prelude.
From S2P Require Import Wal.
From S2P Require Import MiniDb.
Import MiniDb.

Module Router.

(** ** Hashing ([utils.rs]) *)

Definition wrapping_mul (a b : Z) : Z := (a * b) `mod` 2 ^ 32.
Definition wrapping_add (a b : Z) : Z := (a + b) `mod` 2 ^ 32.
Definition rotate_left (x n : Z) : Z := Z.lor (Z.shiftl x n `mod` 2 ^ 32) (Z.shiftr x (32 - n)).

Definition C1 : Z := 0xcc9e2d51.
Definition C2 : Z := 0x1b873593.
Definition mix (value : Z) : Z := wrapping_mul (rotate_left (wrapping_mul value C1) 15) C2.

(** The whole chunks of four bytes, and what remains. *)
Fixpoint hash_chunks (hash : Z) (data : bytes) : Z * bytes :=
  match data with
  | a :: b :: c :: d :: data =>
      let hash := Z.lxor hash (mix (from_le_bytes [a; b; c; d])) in
      hash_chunks (wrapping_add (wrapping_mul (rotate_left hash 13) 5) 0xe6546b64) data
  | _ => (hash, data)
  end.

Definition hash_tail (remainder : bytes) : Z :=
  let tail := match remainder with [_; _; c] => Z.shiftl (byte_val c) 16 | _ => 0 end in
  let tail := match remainder with _ :: b :: _ => Z.lxor tail (Z.shiftl (byte_val b) 8) | _ => tail end in
  match remainder with a :: _ => mix (Z.lxor tail (byte_val a)) | [] => 0 end.

Definition stable_hash32 (key : bytes) (seed : Z) : Z :=
  let '(hash, remainder) := hash_chunks seed key in
  let hash := match remainder with [] => hash | _ => Z.lxor hash (hash_tail remainder) end in
  let hash := Z.lxor hash (zlen key `mod` 2 ^ 32) in
  let hash := wrapping_mul (Z.lxor hash (Z.shiftr hash 16)) 0x85ebca6b in
  let hash := wrapping_mul (Z.lxor hash (Z.shiftr hash 13)) 0xc2b2ae35 in
  Z.lxor hash (Z.shiftr hash 16).

Definition InvalidShardCount : Type := Z.

Definition shard_for (key : bytes) (shard_count : Z) : result InvalidShardCount Z :=
  if shard_count =? 0 then Err shard_count else Ok (stable_hash32 key 0 `mod` shard_count).

Fixpoint zeros (n : nat) : string := match n with O => "" | S n => "0" +:+ zeros n end.

(** [{shard_id:0width$}] *)
Definition shard_dir_name (shard_id shard_count : Z) : string :=
  let width := Nat.max 2 (String.length (pretty (saturating_sub shard_count 1))) in
  let digits := pretty shard_id in
  "shard-" +:+ zeros (width - String.length digits) +:+ digits.

(** The checks of the code's own test. *)
Example utils_test :
  shard_dir_name 3 100 = "shard-03"%string /\ shard_dir_name 3 1001 = "shard-0003"%string /\
  stable_hash32 [] 0 = 0 /\ stable_hash32 (String.list_byte_of_string "hello") 0 = 613153351 /\
  shard_for (String.list_byte_of_string "key") 0 = Err 0.
Proof. split_and!; vm_compute; reflexivity. Qed.

(** ** Grouping ([coordinator.rs]) *)

Inductive CrossShardMode := BestEffort | TwoPhaseCommit | NoCrossShard.

Definition check_mode (mode : CrossShardMode) (shard_count : Z) : result string () :=
  if shard_count <=? 1 then Ok ()
  else
    match mode with
    | BestEffort => Ok ()
    | NoCrossShard => Err ("operation spans " +:+ pretty shard_count +:+ " shards but cross_shard mode is 'none'")%string
    | TwoPhaseCommit => Err "cross_shard mode '2pc' is reserved but not implemented yet"%string
    end.

(** [BTreeMap::entry(shard).or_default().push(x)]; a map is its entries by key. *)
Fixpoint push_group {A} (shard : Z) (x : A) (groups : list (Z * list A)) : list (Z * list A) :=
  match groups with
  | [] => [(shard, [x])]
  | (s, l) :: groups =>
      if shard <? s then (shard, [x]) :: (s, l) :: groups
      else if shard =? s then (s, l ++ [x]) :: groups
      else (s, l) :: push_group shard x groups
  end.

Definition group_one {A} (key : A -> bytes) (shard_count : Z) (groups : list (Z * list A)) (x : A)
    : result InvalidShardCount (list (Z * list A)) :=
  shard ← shard_for (key x) shard_count; Ok (push_group shard x groups).

Definition foldR {E A B} (f : B -> A -> result E B) : B -> list A -> result E B :=
  fix go b l := match l with [] => Ok b | x :: l => b ← f b x; go b l end.

Lemma foldR_cons {E A B} (f : B -> A -> result E B) b x l : foldR f b (x :: l) = b ← f b x; foldR f b l.
Proof. done. Qed.

Definition group_by {A} (key : A -> bytes) (shard_count : Z) (l : list A) : result InvalidShardCount (list (Z * list A)) :=
  foldR (group_one key shard_count) [] l.

Definition operation_key {V} (operation : BatchInputOp V) : bytes :=
  match operation with InputSet key _ _ => key | InputDel key => key end.

Definition group_entries {V} (shard_count : Z) (entries : list (bytes * V)) := group_by fst shard_count entries.
Definition group_keys (shard_count : Z) (keys : list bytes) := group_by (fun key => key) shard_count keys.
Definition group_operations {V} (shard_count : Z) (operations : list (BatchInputOp V)) := group_by operation_key shard_count operations.

(** ** The topology ([topology.rs], [types.rs]) *)

Definition META_VERSION : Z := 1.
Definition DEFAULT_SHARD_COUNT : Z := 16.

Record ClusterMeta := mk_ClusterMeta {
  version : Z; shard_count : Z; created_at : string; value_codec : CodecName; fsync_policy : Wal.FsyncPolicy;
}.

(** [EmptyCluster] is the code's [InvalidShardCount]. *)
Inductive TopologyError :=
| EmptyCluster
| UnsupportedVersion (version : Z)
| ShardCountMismatch (actual requested : Z)
| CodecMismatch (actual requested : CodecName)
| FsyncMismatch (actual requested : Wal.FsyncPolicy)
| TopologyIo
| TopologyJson.

#[export] Instance codec_name_eq_dec : EqDecision CodecName.
Proof. solve_decision. Defined.
#[export] Instance fsync_policy_eq_dec : EqDecision Wal.FsyncPolicy.
Proof. solve_decision. Defined.

(** Whether a cluster that exists is the one asked for. *)
Definition check_meta (requested_count : option Z) (codec : CodecName) (fsync : Wal.FsyncPolicy) (loaded : ClusterMeta)
    : result TopologyError ClusterMeta :=
  if negb (version loaded =? META_VERSION) then Err (UnsupportedVersion (version loaded))
  else if shard_count loaded =? 0 then Err EmptyCluster
  else
    match requested_count ≫= fun requested => if requested =? shard_count loaded then None else Some requested with
    | Some requested => Err (ShardCountMismatch (shard_count loaded) requested)
    | None =>
        if decide (value_codec loaded = codec) then
          if decide (fsync_policy loaded = fsync) then Ok loaded else Err (FsyncMismatch (fsync_policy loaded) fsync)
        else Err (CodecMismatch (value_codec loaded) codec)
    end.

(** The file of the topology is [None] when there is none and [Some None] when what it
    holds is not a topology; a hard link puts it there at once, or fails when it exists.
    [prepared] is what making the directory and writing the file to link gives, and
    [reading] what reading the file gives. *)
Definition open (requested_count : option Z) (codec : CodecName) (fsync : Wal.FsyncPolicy) (now : string)
    (prepared reading : result TopologyError ()) (file : option (option ClusterMeta))
    : result TopologyError ClusterMeta * option (option ClusterMeta) :=
  if decide (requested_count = Some 0) then (Err EmptyCluster, file)
  else
    let requested := mk_ClusterMeta META_VERSION (default DEFAULT_SHARD_COUNT requested_count) now codec fsync in
    match prepared, file with
    | Err e, _ => (Err e, file)
    | Ok _, None => (Ok requested, Some (Some requested))
    | Ok _, Some loaded =>
        (_ ← reading; loaded ← (match loaded with Some loaded => Ok loaded | None => Err TopologyJson end);
         check_meta requested_count codec fsync loaded, file)
    end.

Definition shard_ids (meta : ClusterMeta) : list Z := map Z.of_nat (seq 0 (Z.to_nat (shard_count meta))).
Definition all_shard_directories (meta : ClusterMeta) : list string :=
  map (fun id => shard_dir_name id (shard_count meta)) (shard_ids meta).

(** ** What grouping does *)

(** What a group holds. *)
Definition group_at {A} (shard : Z) (groups : list (Z * list A)) : list A :=
  default [] (snd <$> head (filter (fun g => g.1 = shard) groups)).

Definition shards_ascend {A} (groups : list (Z * list A)) : Prop := StronglySorted Z.lt groups.*1.

Lemma push_group_keys {A} shard (x : A) groups s :
  s ∈ (push_group shard x groups).*1 <-> s = shard \/ s ∈ groups.*1.
Proof.
  induction groups as [|[s0 l] groups IH]; cbn [push_group]; [set_solver|].
  destruct (Z.ltb_spec shard s0); [set_solver|]. destruct (Z.eqb_spec shard s0) as [->|]; [set_solver|].
  cbn [fmap list_fmap fst]. rewrite !elem_of_cons. rewrite IH. naive_solver.
Qed.

Lemma push_group_ascend {A} shard (x : A) groups : shards_ascend groups -> shards_ascend (push_group shard x groups).
Proof.
  unfold shards_ascend. induction groups as [|[s0 l] groups IH]; cbn [push_group fmap list_fmap fst]; [by repeat constructor|].
  intros Hs. apply StronglySorted_inv in Hs as [Hs Hall]. destruct (Z.ltb_spec shard s0).
  - cbn [fmap list_fmap fst]. constructor; [by constructor|]. constructor; [done|]. eapply Forall_impl; [exact Hall|]. cbn. lia.
  - destruct (Z.eqb_spec shard s0) as [->|]; [by constructor|]. cbn [fmap list_fmap fst]. constructor; [by apply IH|].
    apply Forall_forall. intros s [->|Hin]%push_group_keys; [lia|]. by eapply Forall_forall in Hall.
Qed.

Lemma group_at_below {A} shard (groups : list (Z * list A)) :
  Forall (fun s => shard < s) groups.*1 -> group_at shard groups = [].
Proof.
  unfold group_at. intros Hall. assert (filter (fun g : Z * list A => g.1 = shard) groups = []) as ->; [|done].
  induction groups as [|[s l] groups IH]; [done|]. cbn [fmap list_fmap fst] in Hall. apply Forall_cons in Hall as [Hs Hall].
  rewrite filter_cons_False by (cbn; lia). by apply IH.
Qed.

Lemma group_at_cons {A} shard s (l : list A) groups :
  group_at shard ((s, l) :: groups) = if decide (s = shard) then l else group_at shard groups.
Proof. unfold group_at. rewrite filter_cons. cbn [fst]. destruct (decide (s = shard)); done. Qed.

Lemma push_group_at {A} shard (x : A) groups s : shards_ascend groups ->
  group_at s (push_group shard x groups) = group_at s groups ++ (if decide (shard = s) then [x] else []).
Proof.
  unfold shards_ascend. induction groups as [|[s0 l] groups IH]; cbn [push_group fmap list_fmap fst]; intros Hs.
  - rewrite group_at_cons. change (group_at s []) with (@nil A). cbn [app]. done.
  - apply StronglySorted_inv in Hs as [Hs Hall]. destruct (Z.ltb_spec shard s0); [|destruct (Z.eqb_spec shard s0) as [->|]].
    + rewrite !group_at_cons. destruct (decide (shard = s)) as [->|]; [|by rewrite app_nil_r].
      rewrite (decide_False (P := s0 = s)) by lia. rewrite group_at_below; [done|]. eapply Forall_impl; [exact Hall|]. cbn. lia.
    + rewrite !group_at_cons. destruct (decide (s0 = s)) as [->|]; [done|]. by rewrite app_nil_r.
    + rewrite !group_at_cons. destruct (decide (s0 = s)) as [->|]; [|by apply IH]. rewrite decide_False by done. by rewrite app_nil_r.
Qed.

Lemma shard_for_ok key count : 0 < count -> exists s, shard_for key count = Ok s /\ 0 <= s < count.
Proof.
  intros Hc. unfold shard_for. destruct (Z.eqb_spec count 0); [lia|]. eexists. split; [done|]. by apply Z.mod_pos_bound.
Qed.

Definition in_shard (count : Z) (s : Z) (key : bytes) : Prop := shard_for key count = Ok s.
#[export] Instance in_shard_dec count s key : Decision (in_shard count s key).
Proof.
  unfold in_shard. destruct (shard_for key count) as [s'|e]; [|by right]. destruct (decide (s' = s)); [left; congruence|right; congruence].
Defined.

(** Every group holds the operations of its shard, in their order; there are no others. *)
Lemma group_by_spec {A} (key : A -> bytes) count (l : list A) : 0 < count ->
  exists groups, group_by key count l = Ok groups /\ shards_ascend groups /\
    (forall s, group_at s groups = filter (fun x => in_shard count s (key x)) l) /\
    (forall s, s ∈ groups.*1 -> exists x, x ∈ l /\ in_shard count s (key x)).
Proof.
  intros Hc. unfold group_by.
  assert (forall l l0 groups, shards_ascend groups -> (forall s, group_at s groups = filter (fun x => in_shard count s (key x)) l0) ->
    (forall s, s ∈ groups.*1 -> exists x, x ∈ l0 /\ in_shard count s (key x)) ->
    exists groups', foldR (group_one key count) groups l = Ok groups' /\ shards_ascend groups' /\
      (forall s, group_at s groups' = filter (fun x => in_shard count s (key x)) (l0 ++ l)) /\
      (forall s, s ∈ groups'.*1 -> exists x, x ∈ l0 ++ l /\ in_shard count s (key x))) as Hgen.
  { clear l. induction l as [|x l IH]; intros l0 groups Hs Hat Hkeys.
    - exists groups. rewrite app_nil_r. by split_and!.
    - rewrite foldR_cons. destruct (shard_for_ok (key x) count Hc) as (s & Hsx & _).
      assert (group_one key count groups x = Ok (push_group s x groups)) as -> by (unfold group_one; by rewrite Hsx). simpl_bind.
      destruct (IH (l0 ++ [x]) (push_group s x groups)) as (groups' & ? & ? & Hat' & Hk').
      + by apply push_group_ascend.
      + intros s'. rewrite push_group_at, Hat, filter_app by done. f_equal. rewrite filter_cons, filter_nil.
        destruct (decide (s = s')) as [->|Hne]; [by rewrite decide_True|rewrite decide_False; [done|]].
        unfold in_shard. congruence.
      + intros s' [->|Hin]%push_group_keys; [exists x; split; [set_solver|done]|]. destruct (Hkeys s' Hin) as (y & Hy & ?).
        exists y. split; [set_solver|done].
      + exists groups'. rewrite <- app_assoc in Hat', Hk'. by split_and!. }
  apply (Hgen l [] []); [constructor|done|]. intros s Hin. by apply elem_of_nil in Hin.
Qed.

Lemma push_group_all {A} shard (x : A) groups : concat (push_group shard x groups).*2 ≡ₚ x :: concat groups.*2.
Proof.
  induction groups as [|[s l] groups IH]; cbn [push_group fmap list_fmap snd concat]; [done|].
  destruct (shard <? s); [done|]. destruct (shard =? s); cbn [fmap list_fmap snd concat].
  - rewrite <- app_assoc. apply (Permutation_sym (Permutation_middle l (concat groups.*2) x)).
  - rewrite IH. apply (Permutation_sym (Permutation_middle l (concat groups.*2) x)).
Qed.

Lemma group_by_all {A} (key : A -> bytes) count (l : list A) groups : group_by key count l = Ok groups -> concat groups.*2 ≡ₚ l.
Proof.
  unfold group_by. enough (forall groups0, foldR (group_one key count) groups0 l = Ok groups -> concat groups.*2 ≡ₚ concat groups0.*2 ++ l) as Hall.
  { intros Hg%Hall. exact Hg. }
  induction l as [|x l IH]; intros groups0; [intros [= ->]; by rewrite app_nil_r|]. rewrite foldR_cons.
  destruct (group_one key count groups0 x) as [groups1|] eqn:E; simpl_bind; [|done]. intros ->%IH.
  unfold group_one in E. destruct (shard_for (key x) count) as [shard|]; [|done]. injection E as <-.
  rewrite push_group_all. apply (Permutation_middle (concat groups0.*2) l x).
Qed.

(** C12: the operations of a batch are split by shard: the shards ascend, each group holds
    exactly the operations on keys of its shard in the order of the batch, so operations
    on one key stay in order, and no operation is lost or repeated. *)
Theorem operations_are_split_by_shard {V} count (operations : list (BatchInputOp V)) : 0 < count ->
  exists groups, group_operations count operations = Ok groups /\ shards_ascend groups /\
    (forall shard, group_at shard groups = filter (fun operation => in_shard count shard (operation_key operation)) operations) /\
    concat groups.*2 ≡ₚ operations.
Proof.
  intros Hc. destruct (group_by_spec operation_key count operations Hc) as (groups & E & Hs & Hat & _).
  exists groups. split_and!; [done..|]. by apply (group_by_all operation_key count).
Qed.

Lemma check_meta_ok count codec fsync loaded meta : check_meta count codec fsync loaded = Ok meta ->
  meta = loaded /\ version meta = META_VERSION /\ shard_count meta <> 0 /\ (forall n, count = Some n -> shard_count meta = n) /\
  value_codec meta = codec /\ fsync_policy meta = fsync.
Proof.
  unfold check_meta. destruct (Z.eqb_spec (version loaded) META_VERSION) as [Hv|]; cbn [negb]; [|done].
  destruct (Z.eqb_spec (shard_count loaded) 0) as [|Hz]; [done|].
  destruct (count ≫= _) as [n|] eqn:Hc; [done|].
  destruct (decide (value_codec loaded = codec)); [|done]. destruct (decide (fsync_policy loaded = fsync)); [|done]. intros [= <-]. split_and!; try done.
  intros n ->. cbn in Hc. by destruct (Z.eqb_spec n (shard_count loaded)).
Qed.

(** An open of a cluster that succeeds leaves the cluster it answers with, which is of
    the version, codec and policy asked for and of the shard count, if one is asked for;
    every later open, whatever it asks for, leaves it alone and fails or answers with the
    same cluster. *)
Theorem open_agrees count codec fsync now prepared reading file meta file' :
  open count codec fsync now prepared reading file = (Ok meta, file') ->
  file' = Some (Some meta) /\ version meta = META_VERSION /\ shard_count meta <> 0 /\
  (forall n, count = Some n -> shard_count meta = n) /\ value_codec meta = codec /\ fsync_policy meta = fsync /\
  forall count2 codec2 fsync2 now2 prepared2 reading2 r file2, open count2 codec2 fsync2 now2 prepared2 reading2 file' = (r, file2) ->
    file2 = file' /\ forall meta2, r = Ok meta2 -> meta2 = meta.
Proof.
  assert (forall count2 codec2 fsync2 now2 prepared2 reading2 r file2,
    open count2 codec2 fsync2 now2 prepared2 reading2 (Some (Some meta)) = (r, file2) ->
    file2 = Some (Some meta) /\ forall meta2, r = Ok meta2 -> meta2 = meta) as Hagain.
  { intros c2 k2 f2 n2 p2 g2 r file2. unfold open. destruct (decide (c2 = Some 0)); [by intros [= <- <-]|].
    destruct p2 as [|e]; [|by intros [= <- <-]]. intros [= <- <-]. split; [done|]. intros meta2. destruct g2; [|done]. simpl_bind.
    by intros [-> _]%check_meta_ok. }
  unfold open at 1. destruct (decide (count = Some 0)) as [|Hz]; [done|]. destruct prepared; [|done]. destruct file as [loaded|].
  - intros [= Hm <-]. destruct reading; [|done]. destruct loaded as [loaded|]; [|done]. cbn [mbind result_bind] in Hm.
    apply check_meta_ok in Hm as (-> & ? & ? & ? & ? & ?). by split_and!.
  - intros [= <- <-]. split_and!; try done; destruct count as [n|]; cbn; try done; congruence.
Qed.
End Router.
