(* ===== verification/Cluster.v ===== *)
(** * A cluster of databases ([crates/minidb/src/cluster/index.rs])

    Several databases behind one router: keys are spread over shards by their hash,
    operations on many keys are grouped by shard, and scans, queries and lookups ask
    every shard and merge the answers.  Definitions of indexes are kept in a registry
    and applied to a shard before it is written.

    A shard is the database of [MiniDb]; that the lock pool hands out a writer or a
    reader for it, and what it answers, is an argument, as are the files of the
    registry, the log of each shard and the clocks.  A reader reads the database as
    it is.  [None] is a panic.  Errors of shards are kept where the code keeps their
    texts. *)

From Corelib Require Import SpecFloat.
From S2P Require Import Prelude.
From S2P Require Import Crc.
From S2P Require Import OrdIndex.
From S2P Require Import Wal.
From S2P Require Import Store.
From S2P Require Import Query.
From S2P Require Import Float.
From S2P Require Import IndexManager.
From S2P Require Import CompoundIndex.
From S2P Require Import Postings.
From S2P Require Import TextIndex.
From S2P Require Import MiniDb.
From S2P Require Import MiniDbRead.
From S2P Require Import Router.
Import OrdIndex Float MiniDb MiniDbRead Router.

Module Cluster.

(** ** Data ([types.rs]) *)

Record ScanOptions := mk_ScanOptions {
  s_gte : option bytes; s_gt : option bytes; s_lte : option bytes; s_lt : option bytes;
  s_prefix : option bytes; s_limit : option Z; s_reverse : bool;
}.

Record ClusterIndexRegistry := mk_ClusterIndexRegistry {
  r_indexes : list (string * IndexManager.IndexDef);
  r_compound_indexes : list (string * CompoundIndex.CompoundIndexDef);
  r_text_indexes : list (string * option (list string));
}.
Definition ClusterIndexRegistry_default : ClusterIndexRegistry := mk_ClusterIndexRegistry [] [] [].

Inductive ClusterError :=
| ClusterClosed
| ClusterReadOnly
| TwoPhaseCommitReserved
| Coordination (message : string)
| PartialWrites (operation : string) (failed total : Z) (errors : list ClusterError)
| RegistryTimeout
| RegistryIo
| Database (e : MiniDbError)
| ShardCount (e : InvalidShardCount)
| Topology (e : TopologyError)
| Pool (locked : bool).

Record CompactResult := mk_CompactResult { compacted : list Z; skipped : list Z }.

#[export] Instance index_type_eq_dec : EqDecision IndexManager.IndexType.
Proof. solve_decision. Defined.
#[export] Instance order_type_eq_dec : EqDecision CompoundIndex.OrderType.
Proof. solve_decision. Defined.
#[export] Instance index_def_eq_dec : EqDecision IndexManager.IndexDef.
Proof. solve_decision. Defined.
#[export] Instance compound_def_eq_dec : EqDecision CompoundIndex.CompoundIndexDef.
Proof. solve_decision. Defined.

Definition named {A} (name : string) (l : list (string * A)) : bool := existsb (fun item => String.eqb item.1 name) l.

Definition quote : string := String (Ascii.ascii_of_nat 34) EmptyString.
Definition index_already (kind name : string) : ClusterError :=
  Coordination (kind +:+ " " +:+ quote +:+ name +:+ quote +:+ " already exists").
Definition index_missing (kind name : string) : ClusterError := Coordination ("no such " +:+ kind +:+ ": " +:+ name).

Definition partial_result (operation : string) (total : Z) (errors : list ClusterError) : result ClusterError () :=
  match errors with [] => Ok () | _ => Err (PartialWrites operation (zlen errors) total errors) end.

(** Opening a cluster; [directories] is what making the directories of the shards
    gives. *)
Definition open_cluster (cross_shard : CrossShardMode) (requested_count : option Z) (codec : CodecName) (fsync : Wal.FsyncPolicy) (now : string)
    (prepared reading : result TopologyError ()) (directories : result ClusterError ()) (file : option (option ClusterMeta)) : result ClusterError ClusterMeta * option (option ClusterMeta) :=
  match cross_shard with
  | TwoPhaseCommit => (Err TwoPhaseCommitReserved, file)
  | _ =>
      let '(meta, file) := Router.open requested_count codec fsync now prepared reading file in
      (match meta with
       | Ok meta => match directories with Ok _ => Ok meta | Err e => Err e end
       | Err e => Err (Topology e)
       end, file)
  end.

Section cluster.
Context {Number V : Type} `{!Platform Number} `{Crc32fast}.
Context {KT NT OT TT : Type}.
Context `{!OrderedIndex KT bytes bytes} `{!OrderedIndex NT f64 bytes}.
Context `{!OrderedIndex OT CompoundIndex.OrderValue bytes} `{!OrderedIndex TT Z bytes}.
Abbreviation Value := (@Query.Value Number).
Abbreviation Db := (@MiniDb.MiniDb KT NT OT TT).
Abbreviation DbIo := (@MiniDb.Io KT NT OT TT).
Abbreviation M := (@MiniDb.M KT NT OT TT).

(** ** State *)

Record Cluster := mk_Cluster { shards : list Db; registry : ClusterIndexRegistry; cluster_closed : bool }.

Definition CM (A : Type) : Type := Cluster -> option (result ClusterError A * Cluster).

#[local] Instance CM_ret : MRet CM := fun A a self => Some (Ok a, self).
#[local] Instance CM_bind : MBind CM := fun A B f m self =>
  '(r, self) ← m self;
  match r with Ok a => f a self | Err e => Some (Err e, self) end.

Definition of_result {A} (r : result ClusterError A) : CM A := fun self => Some (r, self).
Definition attempt {A} (c : CM A) : CM (result ClusterError A) := fun self => '(r, self) ← c self; Some (Ok r, self).

Definition lift_c {E A} (from : E -> ClusterError) (r : result E A) : result ClusterError A :=
  match r with Ok a => Ok a | Err e => Err (from e) end.

(** An operation of the database of a shard. *)
Definition on_shard {A} (shard : Z) (c : M A) : CM A := fun self =>
  db ← shards self !! Z.to_nat shard;
  '(r, db) ← c db;
  Some (lift_c Database r, mk_Cluster (<[Z.to_nat shard := db]> (shards self)) (registry self) (cluster_closed self)).

(** What the pool, the files and the clocks do in one operation. *)
Record ClusterIo := mk_ClusterIo {
  get_writer : Z -> result ClusterError ();
  get_reader : Z -> result ClusterError ();
  invalidated : Z -> result ClusterError ();
  load_registry : result ClusterError ();
  lock_registry : result ClusterError ();
  save_registry : result ClusterError ();
  shard_io : Z -> DbIo;
  shard_ios : Z -> nat -> DbIo;
  clock : Z -> nat -> Z;
  keys_clock : Z -> nat -> Z;
  persisted : Z -> string -> result MiniDbError ();
  text_disk : Z -> string -> option bytes;
  text_outcomes : Z -> string -> Postings.RebuildIo;
  compaction : Z -> result ClusterError ();
}.

Context (codec : ValueCodec Number V) (options : OpenOptions).
(** The reader of values on disk of each shard; numbers as JSON. *)
Context (read_value : Z -> option (Store.ValueLoc -> result Store.StoreError bytes)) (value_of : f64 -> Value).
Context (meta : ClusterMeta) (mode : CrossShardMode) (cluster_read_only : bool).

Definition shard_of (key : bytes) : CM Z := of_result (lift_c ShardCount (shard_for key (shard_count meta))).

Definition ensure_cluster_open : CM () := fun self => Some (if cluster_closed self then Err ClusterClosed else Ok (), self).
Definition ensure_cluster_writable : CM () := of_result (if cluster_read_only then Err ClusterReadOnly else Ok ()).
Definition require_json_codec (kind : string) : CM () :=
  of_result (match value_codec meta with JsonName => Ok () | _ => Err (Database (JsonCodecRequired kind)) end).

Definition registry_of (io : ClusterIo) : CM ClusterIndexRegistry := fun self =>
  Some (match load_registry io with Ok _ => Ok (registry self) | Err e => Err e end, self).

Definition put_registry (registry : ClusterIndexRegistry) : CM () := fun self =>
  Some (Ok (), mk_Cluster (shards self) registry (cluster_closed self)).

Fixpoint each_c {A} (f : A -> CM ()) (l : list A) : CM () :=
  match l with [] => mret tt | x :: l => _ ← f x; each_c f l end.

(** ** Writers and readers *)

Definition has_index (name : string) : M bool := fun self =>
  '(r, self) ← list_indexes self;
  Some (match r with Ok l => Ok (existsb (fun index => String.eqb (IndexManager.name index) name) l) | Err e => Err e end, self).
Definition has_compound_index (name : string) : M bool := fun self =>
  '(r, self) ← list_compound_indexes self;
  Some (match r with Ok l => Ok (existsb (fun index => String.eqb (CompoundIndex.name index) name) l) | Err e => Err e end, self).
Definition has_text_index (name : string) : M bool := fun self =>
  '(r, self) ← list_text_indexes self;
  Some (match r with Ok l => Ok (named name l) | Err e => Err e end, self).

Definition create_index_on (io : ClusterIo) (shard : Z) (name : string) (definition : IndexManager.IndexDef) : CM () :=
  on_shard shard (MiniDbRead.create_index codec options (read_value shard) value_of (clock io shard 0) (persisted io shard name) name definition).
Definition create_compound_index_on (io : ClusterIo) (shard : Z) (name : string) (definition : CompoundIndex.CompoundIndexDef) : CM () :=
  on_shard shard (MiniDbRead.create_compound_index codec options (read_value shard) (clock io shard 0) (persisted io shard name) name definition).
Definition create_text_index_on (io : ClusterIo) (shard : Z) (name : string) (fields : option (list string)) : CM () :=
  on_shard shard (MiniDbRead.create_text_index codec options (read_value shard) (clock io shard 0) (text_disk io shard name)
    (text_outcomes io shard name) (persisted io shard name) name fields).

(** Creates what a shard has not got. *)
Definition create_missing {A} (shard : Z) (has : string -> M bool) (create : string -> A -> CM ()) (item : string * A) : CM () :=
  found ← on_shard shard (has item.1);
  if (found : bool) then mret tt else create item.1 item.2.

Definition apply_registry (io : ClusterIo) (shard : Z) : CM () :=
  registry ← registry_of io;
  _ ← each_c (create_missing shard has_index (create_index_on io shard)) (r_indexes registry);
  _ ← each_c (create_missing shard has_compound_index (create_compound_index_on io shard)) (r_compound_indexes registry);
  each_c (create_missing shard has_text_index (create_text_index_on io shard)) (r_text_indexes registry).

Definition writer (io : ClusterIo) (shard : Z) : CM () :=
  _ ← ensure_cluster_open;
  _ ← ensure_cluster_writable;
  _ ← of_result (get_writer io shard);
  r ← attempt (apply_registry io shard);
  match r with
  | Ok _ => mret tt
  | Err e => _ ← of_result (invalidated io shard); of_result (Err e)
  end.

Definition reader (io : ClusterIo) (shard : Z) : CM () :=
  _ ← ensure_cluster_open;
  of_result (get_reader io shard).

(** ** One key *)

Definition get (io : ClusterIo) (key : bytes) : CM (option V) :=
  shard ← shard_of key;
  _ ← reader io shard;
  on_shard shard (MiniDbRead.get codec (read_value shard) key (clock io shard 0)).

Definition set (io : ClusterIo) (key : bytes) (value : V) (set_options : SetOptions) : CM () :=
  shard ← shard_of key;
  _ ← writer io shard;
  on_shard shard (MiniDb.set codec options (read_value shard) (shard_io io shard) (shard_ios io shard) key value set_options).

Definition del (io : ClusterIo) (key : bytes) : CM bool :=
  shard ← shard_of key;
  _ ← writer io shard;
  on_shard shard (MiniDb.del codec options (read_value shard) (shard_io io shard) (clock io shard 0) key).

Definition has (io : ClusterIo) (key : bytes) : CM bool :=
  shard ← shard_of key;
  _ ← reader io shard;
  on_shard shard (MiniDbRead.has key (clock io shard 0)).

Definition ttl (io : ClusterIo) (key : bytes) : CM Z :=
  shard ← shard_of key;
  _ ← reader io shard;
  on_shard shard (MiniDbRead.ttl key (clock io shard 0)).

Definition expire (io : ClusterIo) (key : bytes) (ttl_millis : Z) : CM bool :=
  shard ← shard_of key;
  _ ← writer io shard;
  on_shard shard (MiniDbRead.expire codec options (read_value shard) (shard_io io shard) (shard_ios io shard) key (clock io shard 0) ttl_millis).

(** ** Many keys *)

Fixpoint get_indexed (io : ClusterIo) (shard : Z) (i : nat) (entries : list (nat * bytes)) (output : list (option V)) : CM (list (option V)) :=
  match entries with
  | [] => mret output
  | (index, key) :: entries =>
      value ← on_shard shard (MiniDbRead.get codec (read_value shard) key (clock io shard i));
      get_indexed io shard (S i) entries (<[index := value]> output)
  end.

Fixpoint get_groups (io : ClusterIo) (groups : list (Z * list (nat * bytes))) (output : list (option V)) : CM (list (option V)) :=
  match groups with
  | [] => mret output
  | (shard, entries) :: groups =>
      _ ← reader io shard;
      output ← get_indexed io shard 0 entries output;
      get_groups io groups output
  end.

Definition mget (io : ClusterIo) (keys : list bytes) : CM (list (option V)) :=
  groups ← of_result (lift_c ShardCount (group_by snd (shard_count meta) (imap pair keys)));
  get_groups io groups (replicate (length keys) None).

(** The errors of the groups that fail; the others are written. *)
Fixpoint write_groups {A} (write : Z -> list A -> CM ()) (groups : list (Z * list A)) : CM (list ClusterError) :=
  match groups with
  | [] => mret []
  | (shard, items) :: groups =>
      r ← attempt (write shard items);
      errors ← write_groups write groups;
      mret (match r with Ok _ => errors | Err e => e :: errors end)
  end.

Definition check_groups {A} (groups : list (Z * list A)) : CM () :=
  of_result (lift_c Coordination (check_mode mode (zlen groups))).

Definition mset (io : ClusterIo) (entries : list (bytes * V)) : CM () :=
  _ ← ensure_cluster_writable;
  groups ← of_result (lift_c ShardCount (group_entries (shard_count meta) entries));
  _ ← check_groups groups;
  errors ← write_groups (fun shard entries =>
    _ ← writer io shard;
    on_shard shard (MiniDb.mset codec options (read_value shard) (shard_io io shard) (shard_ios io shard) entries)) groups;
  of_result (partial_result "mset" (zlen groups) errors).

Definition batch (io : ClusterIo) (operations : list (BatchInputOp V)) : CM () :=
  _ ← ensure_cluster_writable;
  groups ← of_result (lift_c ShardCount (group_operations (shard_count meta) operations));
  _ ← check_groups groups;
  errors ← write_groups (fun shard operations =>
    _ ← writer io shard;
    on_shard shard (MiniDb.batch codec options (read_value shard) (shard_io io shard) (shard_ios io shard) operations)) groups;
  of_result (partial_result "batch" (zlen groups) errors).

Fixpoint present (io : ClusterIo) (shard : Z) (i : nat) (keys : list bytes) : CM (list bytes) :=
  match keys with
  | [] => mret []
  | key :: keys =>
      found ← on_shard shard (MiniDbRead.has key (clock io shard i));
      rest ← present io shard (S i) keys;
      mret (if (found : bool) then key :: rest else rest)
  end.

(** A failure to look for a key ends the deletion; others are counted. *)
Fixpoint delete_groups (io : ClusterIo) (groups : list (Z * list bytes)) : CM (Z * list ClusterError) :=
  match groups with
  | [] => mret (0, [])
  | (shard, keys) :: groups =>
      r ← attempt (writer io shard);
      match r with
      | Err e => '(removed, errors) ← delete_groups io groups; mret (removed, e :: errors)
      | Ok _ =>
          keys ← present io shard 0 keys;
          r ← attempt (on_shard shard (MiniDb.batch codec options (read_value shard) (shard_io io shard) (shard_ios io shard) (map InputDel keys)));
          '(removed, errors) ← delete_groups io groups;
          mret (zlen keys + removed, match r with Ok _ => errors | Err e => e :: errors end)
      end
  end.

Definition mdel (io : ClusterIo) (keys : list bytes) : CM Z :=
  _ ← ensure_cluster_writable;
  groups ← of_result (lift_c ShardCount (group_keys (shard_count meta) keys));
  _ ← check_groups groups;
  '(removed, errors) ← delete_groups io groups;
  _ ← of_result (partial_result "mdel" (zlen groups) errors);
  mret removed.

(** ** Every shard *)

(** The rows of all shards, one shard after another. *)
Fixpoint from_shards {A} (io : ClusterIo) (rows : Z -> M (list A)) (shards : list Z) : CM (list A) :=
  match shards with
  | [] => mret []
  | shard :: shards =>
      _ ← reader io shard;
      here ← on_shard shard (rows shard);
      rest ← from_shards io rows shards;
      mret (here ++ rest)
  end.

Definition by_key {A} (key : A -> bytes) (left right : A) : comparison := bytes_cmp (key left) (key right).

Definition truncate {A} (limit : option Z) (l : list A) : list A :=
  match limit with Some limit => take (Z.to_nat limit) l | None => l end.

Definition scan (io : ClusterIo) (o : ScanOptions) : CM (list (DocumentRecord V)) :=
  let per_shard := if s_reverse o then None else s_limit o in
  all ← from_shards io (fun shard =>
    match s_prefix o with
    | Some prefix => MiniDbRead.prefix codec (read_value shard) (clock io shard) prefix (default U64_MAX per_shard)
    | None =>
        MiniDbRead.scan codec (read_value shard) (clock io shard)
          (mk_RangeOptions (s_gte o) (s_gt o) (s_lte o) (s_lt o) 0 per_shard false)
    end) (shard_ids meta);
  let all := sort_by (by_key doc_key) all in
  mret (truncate (s_limit o) (if s_reverse o then rev all else all)).

Definition prefix (io : ClusterIo) (prefix : bytes) (limit : Z) : CM (list (DocumentRecord V)) :=
  scan io (mk_ScanOptions None None None None (Some prefix) (Some limit) false).

Definition compare_values (left right : option Value) : comparison :=
  match left, right with
  | Some (Query.Num a), Some (Query.Num b) => default Eq (compare_floats (number_as_f64 a) (number_as_f64 b))
  | Some (Query.Str a), Some (Query.Str b) => String.compare a b
  | Some a, Some b => String.compare (json_text a) (json_text b)
  | None, None => Eq
  | None, Some _ => Lt
  | Some _, None => Gt
  end.

Fixpoint compare_sorted (sort : list (string * Z)) (left right : Value) : comparison :=
  match sort with
  | [] => Eq
  | (path, direction) :: sort =>
      match compare_values (Query.get_path left path) (Query.get_path right path) with
      | Eq => compare_sorted sort left right
      | order => if direction <? 0 then CompOpp order else order
      end
  end.

Definition compare_documents (sort : list (string * Z)) (left right : DocumentRecord V) : comparison :=
  compare_sorted sort (document_value codec (doc_value left)) (document_value codec (doc_value right)).

Definition query (io : ClusterIo) (o : QueryOptions Number) : CM (list (DocumentRecord V)) :=
  let needed := (fun limit => saturating_add (q_skip o) limit) <$> q_limit o in
  let local := mk_QueryOptions (q_key o) (q_datetimes o) (q_text o) (q_filter o) (q_project o) (q_sort o) 0 needed in
  all ← from_shards io (fun shard => MiniDbRead.query codec (read_value shard) (keys_clock io shard) (clock io shard) local) (shard_ids meta);
  let all := match q_sort o with [] => sort_by (by_key doc_key) all | sort => sort_by (compare_documents sort) all end in
  mret (page (q_skip o) (q_limit o) all).

(** ** Indexes *)

(** Reads the registry, changes it and writes it, under the lock of its file. *)
Definition mutate_registry (io : ClusterIo) (mutation : ClusterIndexRegistry -> result ClusterError ClusterIndexRegistry) : CM () :=
  _ ← of_result (lock_registry io);
  registry ← registry_of io;
  changed ← of_result (mutation registry);
  _ ← of_result (save_registry io);
  put_registry changed.

(** Takes an index away again from the shards that were given it. *)
Fixpoint undo_created (io : ClusterIo) (drop : Z -> M bool) (created : list Z) : CM () :=
  match created with
  | [] => mret tt
  | shard :: created => _ ← attempt (_ ← writer io shard; on_shard shard (drop shard)); undo_created io drop created
  end.

Fixpoint create_on_shards (io : ClusterIo) (has : M bool) (create : Z -> CM ()) (drop : Z -> M bool) (created shards : list Z) : CM () :=
  match shards with
  | [] => mret tt
  | shard :: shards =>
      _ ← writer io shard;
      found ← on_shard shard has;
      if (found : bool) then create_on_shards io has create drop created shards
      else
        r ← attempt (create shard);
        match r with
        | Ok _ => create_on_shards io has create drop (created ++ [shard]) shards
        | Err e => _ ← undo_created io drop created; of_result (Err e)
        end
  end.

(** An entry of the registry, unless the same one is there. *)
Definition register {A} `{EqDecision A} (kind name : string) (definition : A) (items : list (string * A)) : result ClusterError (list (string * A)) :=
  match head (filter (fun item => item.1 = name) items) with
  | Some existing => if decide (existing.2 = definition) then Ok items else Err (index_already kind name)
  | None => Ok (items ++ [(name, definition)])
  end.

Definition drop_index_on (io : ClusterIo) (name : string) (shard : Z) : M bool := MiniDbRead.drop_index options (persisted io shard name) name.
Definition drop_compound_index_on (io : ClusterIo) (name : string) (shard : Z) : M bool :=
  MiniDbRead.drop_compound_index options (persisted io shard name) name.
Definition drop_text_index_on (io : ClusterIo) (name : string) (shard : Z) : M bool :=
  MiniDbRead.drop_text_index options (persisted io shard name) name.

Definition create_index (io : ClusterIo) (name : string) (definition : IndexManager.IndexDef) : CM () :=
  _ ← require_json_codec "secondary";
  _ ← ensure_cluster_writable;
  registry ← registry_of io;
  if named name (r_indexes registry) then of_result (Err (index_already "index" name))
  else
    _ ← create_on_shards io (has_index name) (fun shard => create_index_on io shard name definition) (drop_index_on io name) [] (shard_ids meta);
    mutate_registry io (fun r =>
      indexes ← register "index" name definition (r_indexes r);
      Ok (mk_ClusterIndexRegistry indexes (r_compound_indexes r) (r_text_indexes r))).

Definition create_compound_index (io : ClusterIo) (name : string) (definition : CompoundIndex.CompoundIndexDef) : CM () :=
  _ ← require_json_codec "compound";
  _ ← ensure_cluster_writable;
  registry ← registry_of io;
  if named name (r_compound_indexes registry) then of_result (Err (index_already "compound index" name))
  else
    _ ← create_on_shards io (has_compound_index name) (fun shard => create_compound_index_on io shard name definition)
          (drop_compound_index_on io name) [] (shard_ids meta);
    mutate_registry io (fun r =>
      indexes ← register "compound index" name definition (r_compound_indexes r);
      Ok (mk_ClusterIndexRegistry (r_indexes r) indexes (r_text_indexes r))).

Definition create_text_index (io : ClusterIo) (name : string) (fields : option (list string)) : CM () :=
  _ ← require_json_codec "text";
  _ ← ensure_cluster_writable;
  registry ← registry_of io;
  if named name (r_text_indexes registry) then of_result (Err (index_already "text index" name))
  else
    _ ← create_on_shards io (has_text_index name) (fun shard => create_text_index_on io shard name fields)
          (drop_text_index_on io name) [] (shard_ids meta);
    mutate_registry io (fun r =>
      indexes ← register "text index" name fields (r_text_indexes r);
      Ok (mk_ClusterIndexRegistry (r_indexes r) (r_compound_indexes r) indexes)).

Fixpoint drop_on_shards (io : ClusterIo) (has : M bool) (drop : Z -> M bool) (shards : list Z) : CM () :=
  match shards with
  | [] => mret tt
  | shard :: shards =>
      _ ← writer io shard;
      found ← on_shard shard has;
      _ ← (if (found : bool) then _ ← on_shard shard (drop shard); mret tt else mret tt);
      drop_on_shards io has drop shards
  end.

Definition unregister {A} (name : string) (items : list (string * A)) : list (string * A) := filter (fun item => item.1 <> name) items.

Definition drop_index (io : ClusterIo) (name : string) : CM bool :=
  _ ← ensure_cluster_writable;
  registry ← registry_of io;
  let existed := named name (r_indexes registry) in
  _ ← drop_on_shards io (has_index name) (drop_index_on io name) (shard_ids meta);
  _ ← (if existed then mutate_registry io (fun r => Ok (mk_ClusterIndexRegistry (unregister name (r_indexes r)) (r_compound_indexes r) (r_text_indexes r)))
       else mret tt);
  mret existed.

Definition drop_compound_index (io : ClusterIo) (name : string) : CM bool :=
  _ ← ensure_cluster_writable;
  registry ← registry_of io;
  let existed := named name (r_compound_indexes registry) in
  _ ← drop_on_shards io (has_compound_index name) (drop_compound_index_on io name) (shard_ids meta);
  _ ← (if existed then mutate_registry io (fun r => Ok (mk_ClusterIndexRegistry (r_indexes r) (unregister name (r_compound_indexes r)) (r_text_indexes r)))
       else mret tt);
  mret existed.

Definition drop_text_index (io : ClusterIo) (name : string) : CM bool :=
  _ ← ensure_cluster_writable;
  registry ← registry_of io;
  let existed := named name (r_text_indexes registry) in
  _ ← drop_on_shards io (has_text_index name) (drop_text_index_on io name) (shard_ids meta);
  _ ← (if existed then mutate_registry io (fun r => Ok (mk_ClusterIndexRegistry (r_indexes r) (r_compound_indexes r) (unregister name (r_text_indexes r))))
       else mret tt);
  mret existed.

Definition list_cluster_indexes (io : ClusterIo) : CM (list IndexManager.IndexInfo) :=
  registry ← registry_of io;
  mret (map (fun item => IndexManager.mk_IndexInfo item.1 (IndexManager.def_field item.2) (IndexManager.def_index_type item.2)
    (IndexManager.def_unique item.2) (IndexManager.def_sparse item.2)) (r_indexes registry)).

Definition list_cluster_compound_indexes (io : ClusterIo) : CM (list CompoundIndex.CompoundIndexInfo) :=
  registry ← registry_of io;
  mret (map (fun item => CompoundIndex.mk_CompoundIndexInfo item.1 (CompoundIndex.def_group_by item.2) (CompoundIndex.def_order_by item.2)
    (CompoundIndex.def_order_type item.2)) (r_compound_indexes registry)).

Definition find_eq (io : ClusterIo) (name : string) (value : Value) : CM (list (DocumentRecord V)) :=
  registry ← registry_of io;
  if named name (r_indexes registry) then
    rows ← from_shards io (fun shard => MiniDbRead.find_eq codec (read_value shard) (clock io shard) name value) (shard_ids meta);
    mret (sort_by (by_key doc_key) rows)
  else of_result (Err (index_missing "index" name)).

Definition by_field (left right : IndexedDocumentRecord V) : comparison :=
  match Float.compare_number (idx_field left) (idx_field right) with
  | Eq => by_key idx_key left right
  | order => order
  end.

Definition find_range (io : ClusterIo) (name : string) (range : IndexManager.NumericRangeOptions) : CM (list (IndexedDocumentRecord V)) :=
  registry ← registry_of io;
  if named name (r_indexes registry) then
    let bounds := IndexManager.mk_NumericRangeOptions (IndexManager.min range) (IndexManager.max range)
      (IndexManager.min_exclusive range) (IndexManager.max_exclusive range) 0 None false in
    rows ← from_shards io (fun shard => MiniDbRead.find_range codec (read_value shard) (clock io shard) name bounds) (shard_ids meta);
    let rows := sort_by by_field rows in
    mret (page (IndexManager.num_offset range) (IndexManager.num_count range) (if IndexManager.num_reverse range then rev rows else rows))
  else of_result (Err (index_missing "index" name)).

Definition by_score (left right : SearchDocumentRecord V) : comparison :=
  match default Eq (SFcompare (hit_score right) (hit_score left)) with
  | Eq => by_key hit_key left right
  | order => order
  end.

Definition search (io : ClusterIo) (name : string) (text : bytes) (search_options : TextIndex.SearchOptions) : CM (list (SearchDocumentRecord V)) :=
  registry ← registry_of io;
  if named name (r_text_indexes registry) then
    rows ← from_shards io (fun shard => MiniDbRead.search codec (read_value shard) (clock io shard) name text search_options) (shard_ids meta);
    mret (take (Z.to_nat (TextIndex.limit search_options)) (sort_by by_score rows))
  else of_result (Err (index_missing "text index" name)).

(** ** Compaction and closing *)

Definition is_locked (e : ClusterError) : bool := match e with Pool locked => locked | _ => false end.

(** What a compaction does to a shard is the subject of [Compaction]. *)
Fixpoint compact_shards (io : ClusterIo) (shards : list Z) (r : CompactResult) : CM CompactResult :=
  match shards with
  | [] => mret r
  | shard :: shards =>
      access ← attempt (writer io shard);
      match access with
      | Ok _ => _ ← of_result (compaction io shard); compact_shards io shards (mk_CompactResult (compacted r ++ [shard]) (skipped r))
      | Err e => if is_locked e then compact_shards io shards (mk_CompactResult (compacted r) (skipped r ++ [shard])) else of_result (Err e)
      end
  end.

Definition compact (io : ClusterIo) : CM CompactResult :=
  _ ← ensure_cluster_writable;
  compact_shards io (shard_ids meta) (mk_CompactResult [] []).

(** [closing] is what closing the pool gives. *)
Definition close (closing : result ClusterError ()) : CM () := fun self =>
  if cluster_closed self then Some (Ok (), self)
  else Some (closing, mk_Cluster (shards self) (registry self) true).
End cluster.
End Cluster.
