(* ===== verification/KeyFacts.v ===== *)
(** * The database: which keys an operation may add

    An operation of the database adds only keys it names ([confined]): reads and the
    expiry cycle none, a write the keys of its operations.  A logic for the monad of
    [MiniDb] with one rule for each of its primitives, and the hint database
    [confined]. *)

From Corelib Require Import SpecFloat.
From S2P Require Import Prelude.
From S2P Require Import Crc.
From S2P Require Import Codec.
From S2P Require Import OrdIndex.
From S2P Require Import Store.
From S2P Require Import Query.
From S2P Require Import Float.
From S2P Require Import IndexManager.
From S2P Require Import CompoundIndex.
From S2P Require Import TextIndex.
From S2P Require Import MiniDb.
From S2P Require Import MiniDbRead.
From S2P Require Import ReadFacts.
From S2P Require Import UpdateFacts.
From S2P Require Import Router.
Import OrdIndex Float MiniDb MiniDbRead ReadFacts.

Module KeyFacts.

Abbreviation records_t := (gmap bytes Store.StoreRecord).

(** The second map has the keys of the first and perhaps those in [K]. *)
Definition adds (K : bytes -> Prop) (m m' : records_t) : Prop := forall k, is_Some (m' !! k) -> is_Some (m !! k) \/ K k.

#[export] Instance adds_preorder K : PreOrder (adds K).
Proof.
  split; [by intros m k; left|]. intros m1 m2 m3 H12 H23 k [?|?]%H23; [by apply H12|by right].
Qed.

Lemma adds_mono (K K' : bytes -> Prop) m m' : (forall k, K k -> K' k) -> adds K m m' -> adds K' m m'.
Proof. intros HK Ha k [?|?]%Ha; [by left|right; auto]. Qed.

Lemma adds_delete K key m : adds K m (delete key m).
Proof. intros k [x [_ Hx]%lookup_delete_Some]. left. by exists x. Qed.

Lemma adds_insert (K : bytes -> Prop) key r m : K key -> adds K m (<[key := r]> m).
Proof. intros HK k [x [[<- _]|[_ Hx]]%lookup_insert_Some]; [by right|left; by exists x]. Qed.

(** ** The store *)

Section store.
Context {T : Type} `{!OrderedIndex T bytes bytes} (dt_json : Store.Datetimes -> option bytes).
Context (read_value : option (Store.ValueLoc -> result Store.StoreError bytes)).
Implicit Types self : Store.Store T.

Lemma remove_adds K key b self r self' : Store.remove dt_json key b self = Some (r, self') -> adds K (Store.records self) (Store.records self').
Proof.
  unfold Store.remove. destruct (Store.records self !! key); [|by intros [= _ <-]].
  destruct (oi_delete _ _ _) as [[order ?]|]; [|done]. intros [= _ <-]. apply adds_delete.
Qed.

Lemma del_adds K key self r self' : Store.del dt_json key self = Some (r, self') -> adds K (Store.records self) (Store.records self').
Proof. unfold Store.del. intros ([? ?] & Hr & [= _ <-])%bind_Some. by eapply remove_adds. Qed.

Lemma set_ref_adds (K : bytes -> Prop) key v e d self self' : K key -> Store.set_ref dt_json key v e d self = Some self' ->
  adds K (Store.records self) (Store.records self').
Proof.
  intros HK. unfold Store.set_ref. intros (order & _ & Hs)%bind_Some. destruct (if negb (e =? 0) then _ else _) as [? ?].
  injection Hs as <-. cbn [Store.records]. etrans; [apply (adds_delete _ key)|by apply adds_insert].
Qed.

Lemma expire_if_needed_adds K key now self r self' : Store.expire_if_needed dt_json key now self = Some (r, self') ->
  adds K (Store.records self) (Store.records self').
Proof.
  unfold Store.expire_if_needed. destruct (match Store.records self !! key with Some _ => _ | None => _ end).
  - intros ([? ?] & Hr & [= _ <-])%bind_Some. by eapply remove_adds.
  - by intros [= _ <-].
Qed.

Lemma get_adds K key now self r self' : Store.get dt_json read_value key now self = Some (r, self') -> adds K (Store.records self) (Store.records self').
Proof.
  unfold Store.get. intros ([b s] & He & Hs)%bind_Some. eapply (expire_if_needed_adds K) in He.
  destruct b; [by injection Hs as _ <-|]. destruct (Store.records s !! key); by injection Hs as _ <-.
Qed.

Lemma has_adds K key now self r self' : Store.has dt_json key now self = Some (r, self') -> adds K (Store.records self) (Store.records self').
Proof. unfold Store.has. intros ([b s] & He & [= _ <-])%bind_Some. by eapply expire_if_needed_adds. Qed.

Lemma reap_loop_adds K fuel max now : forall n self r self', Store.reap_loop dt_json fuel max now n self = Some (r, self') ->
  adds K (Store.records self) (Store.records self').
Proof.
  induction fuel as [|fuel IH]; intros n self r self'; [done|]. cbn [Store.reap_loop].
  destruct (match max with Some _ => _ | None => _ end); [|by intros [= _ <-]].
  destruct (Store.expirations self) as [|[[e q] key] heap]; [by intros [= _ <-]|].
  destruct (now <? e); [by intros [= _ <-]|]. cbn zeta. destruct (match Store.records _ !! key with Some _ => _ | None => _ end).
  - intros ([o s] & Hr & Hs)%bind_Some. apply (remove_adds K) in Hr. apply IH in Hs. by etrans.
  - intros Hs. apply IH in Hs. exact Hs.
Qed.

Lemma scan_loop_adds K clock keys : forall i out self r self', Store.scan_loop dt_json read_value clock i keys out self = Some (r, self') ->
  adds K (Store.records self) (Store.records self').
Proof.
  induction keys as [|key keys IH]; intros i out self r self'; cbn [Store.scan_loop]; [by intros [= _ <-]|].
  intros ([b s] & He & Hs)%bind_Some. apply (expire_if_needed_adds K) in He. etrans; [exact He|].
  destruct b; [by eapply IH|]. destruct (Store.records s !! key); [|by eapply IH].
  destruct (Store.entry_of _ _ _); [by eapply IH|by injection Hs as _ <-].
Qed.

Lemma raw_keys_loop_adds K clock keys : forall i out self r self', Store.raw_keys_loop dt_json clock i keys out self = Some (r, self') ->
  adds K (Store.records self) (Store.records self').
Proof.
  induction keys as [|key keys IH]; intros i out self r self'; cbn [Store.raw_keys_loop]; [by intros [= _ <-]|].
  intros ([b s] & He & Hs)%bind_Some. apply (expire_if_needed_adds K) in He. etrans; [exact He|]. by eapply IH.
Qed.

Lemma scan_adds K clock o self r self' : Store.scan dt_json read_value clock o self = Some (r, self') -> adds K (Store.records self) (Store.records self').
Proof. unfold Store.scan. intros (l & _ & Hs)%bind_Some. by eapply scan_loop_adds. Qed.

Lemma raw_keys_adds K clock o self r self' : Store.raw_keys dt_json clock o self = Some (r, self') -> adds K (Store.records self) (Store.records self').
Proof. unfold Store.raw_keys. intros (l & _ & Hs)%bind_Some. by eapply raw_keys_loop_adds. Qed.
End store.

(** ** The database *)

Create HintDb confined discriminated.

Section confined.
Context {Number V : Type} `{!Platform Number} `{Crc32fast}.
Context {KT NT OT TT : Type}.
Context `{!OrderedIndex KT bytes bytes} `{!OrderedIndex NT f64 bytes}.
Context `{!OrderedIndex OT CompoundIndex.OrderValue bytes} `{!OrderedIndex TT Z bytes}.
Abbreviation Db := (@MiniDb.MiniDb KT NT OT TT).
Abbreviation DbIo := (@MiniDb.Io KT NT OT TT).
Abbreviation M := (@MiniDb.M KT NT OT TT).
Abbreviation Derived := (@DerivedState NT OT TT).
Abbreviation StoreT := (Store.Store KT).
#[local] Existing Instance MiniDb.M_ret.
#[local] Existing Instance MiniDb.M_bind.
Context (codec : ValueCodec Number V) (options : OpenOptions).
Context (read_value : option (Store.ValueLoc -> result Store.StoreError bytes)).
Implicit Types (self : Db) (K : bytes -> Prop).

Definition confined K {A} (c : M A) : Prop :=
  forall self r self', c self = Some (r, self') -> adds K (Store.records (store self)) (Store.records (store self')).

Lemma confined_mono K (K' : bytes -> Prop) {A} (c : M A) : (forall k, K k -> K' k) -> confined K c -> confined K' c.
Proof. intros HK Hc self r self' E. eapply adds_mono; [exact HK|by eapply Hc]. Qed.

Lemma confined_bind K {A B} (c : M A) (f : A -> M B) : confined K c -> (forall a, confined K (f a)) -> confined K (c ≫= f).
Proof.
  intros Hc Hf self r self'. unfold mbind, M_bind. intros ([x s] & Hx & Hs)%bind_Some. etrans; [by eapply Hc|].
  destruct x as [a|e]; [by eapply Hf|by injection Hs as _ <-].
Qed.

Lemma confined_ret K {A} (a : A) : confined K (mret a : M A).
Proof. by intros self r self' [= _ <-]. Qed.

Lemma confined_of_result K {A} (r : result MiniDbError A) : confined K (of_result r : M A).
Proof. by intros self r' self' [= _ <-]. Qed.

(** What follows a result knows it. *)
Lemma confined_result_bind K {A B} (r : result MiniDbError A) (f : A -> M B) :
  (forall a, r = Ok a -> confined K (f a)) -> confined K (of_result r ≫= f).
Proof.
  intros Hf. destruct r as [a|e]; [|by intros self r self' [= _ <-]]. intros self r self' E. by apply (Hf a eq_refl self r self').
Qed.

Lemma confined_or_panic K {A} (o : option A) : confined K (or_panic o : M A).
Proof. intros self r' self'. unfold or_panic. by intros (a & _ & [= _ <-])%bind_Some. Qed.

Lemma confined_asks K {A} (f : Db -> A) : confined K (asks f).
Proof. by intros self r' self' [= _ <-]. Qed.

Lemma confined_panic K {A} : confined K (fun _ => None : option (result MiniDbError A * Db)).
Proof. by intros self r' self'. Qed.

Lemma confined_ensure_open K : confined K (ensure_open : M ()).
Proof. by intros self r' self' [= _ <-]. Qed.

Lemma confined_ensure_writable K : confined K (ensure_writable options : M ()).
Proof. apply confined_of_result. Qed.

Lemma confined_count_stats K f : confined K (count_stats f : M ()).
Proof. by intros self r' self' [= _ <-]. Qed.

Lemma confined_with_store K {A} (f : StoreT -> option (A * StoreT)) :
  (forall s a s', f s = Some (a, s') -> adds K (Store.records s) (Store.records s')) -> confined K (with_store f : M A).
Proof. intros Hf self r self'. unfold with_store. intros ([a s] & Hs & [= _ <-])%bind_Some. by eapply Hf. Qed.

Lemma confined_locked K {A} (f : StoreT -> Derived -> option (result MiniDbError A * StoreT * Derived)) :
  (forall s d r s' d', f s d = Some (r, s', d') -> adds K (Store.records s) (Store.records s')) -> confined K (locked f : M A).
Proof. intros Hf self r self'. unfold locked. intros ([[x s] d] & Hs & [= _ <-])%bind_Some. by eapply Hf. Qed.

(** What leaves the store alone. *)
Lemma confined_derived K {A} (f : StoreT -> Derived -> option (result MiniDbError A * Derived)) :
  confined K (locked (fun store derived => '(r, derived) ← f store derived; Some (r, store, derived)) : M A).
Proof. apply confined_locked. intros s d r s' d'. by intros ([x d1] & _ & [= _ <- _])%bind_Some. Qed.
End confined.

#[export] Hint Resolve confined_bind confined_ret confined_of_result confined_or_panic confined_asks confined_panic confined_ensure_open
  confined_ensure_writable confined_count_stats : confined.

(** Through a program, one primitive after another. *)
Ltac confine :=
  repeat match goal with
  | |- forall _, _ => intro
  | |- confined _ (_ ≫= _) => apply confined_bind
  | |- confined _ (match ?x with _ => _ end) => destruct x
  | |- confined _ _ => solve [eauto with confined nocore]
  end.

Section reads.
Context {Number V : Type} `{!Platform Number} `{Crc32fast}.
Context {KT NT OT TT : Type}.
Context `{!OrderedIndex KT bytes bytes} `{!OrderedIndex NT f64 bytes}.
Context `{!OrderedIndex OT CompoundIndex.OrderValue bytes} `{!OrderedIndex TT Z bytes}.
Abbreviation Db := (@MiniDb.MiniDb KT NT OT TT).
Abbreviation DbIo := (@MiniDb.Io KT NT OT TT).
Abbreviation M := (@MiniDb.M KT NT OT TT).
Context (codec : ValueCodec Number V) (options : OpenOptions).
Context (read_value : option (Store.ValueLoc -> result Store.StoreError bytes)).
Implicit Types (self : Db) (K : bytes -> Prop).

Lemma drain_records (store : Store.Store KT) (derived : @DerivedState NT OT TT) store' derived' :
  drain_expired store derived = Some (store', derived') -> Store.records store' = Store.records store.
Proof. unfold drain_expired. cbn [Store.take_expired]. by intros (d & _ & [= <- _])%bind_Some. Qed.

Lemma confined_drain K : confined K (drain : M ()).
Proof. apply confined_locked. intros s d r s' d' ([x d1] & Hd & [= _ <- _])%bind_Some. apply drain_records in Hd. by rewrite Hd. Qed.

Lemma confined_touch K key : confined K (touch_access key : M ()).
Proof. apply confined_locked. by intros s d r s' d' [= _ <- _]. Qed.

Lemma confined_get K key now : confined K (MiniDbRead.get codec read_value key now : M _).
Proof.
  unfold MiniDbRead.get. apply confined_bind; [apply confined_ensure_open|]. intros _.
  apply confined_bind; [apply confined_with_store; intros; by eapply get_adds|]. intros v. apply confined_bind; [apply confined_of_result|].
  intros b. apply confined_bind; [apply confined_drain|]. intros _. destruct b; [|apply confined_ret].
  apply confined_bind; [apply confined_touch|]. confine.
Qed.

Hint Resolve confined_drain confined_touch confined_get : confined.

Lemma confined_has K key now : confined K (MiniDbRead.has key now : M bool).
Proof.
  unfold MiniDbRead.has. apply confined_bind; [apply confined_ensure_open|]. intros _.
  apply confined_bind; [apply confined_with_store; intros; by eapply has_adds|]. confine.
Qed.

Lemma confined_get_record K key now : confined K (MiniDbRead.get_record codec read_value key now : M _).
Proof. unfold MiniDbRead.get_record. confine. Qed.

Lemma confined_ttl K key now : confined K (MiniDbRead.ttl key now : M Z).
Proof. unfold MiniDbRead.ttl. confine. Qed.

Lemma confined_scan K clock o : confined K (MiniDbRead.scan codec read_value clock o : M _).
Proof.
  unfold MiniDbRead.scan. apply confined_bind; [apply confined_ensure_open|]. intros _.
  apply confined_bind; [apply confined_with_store; intros; by eapply scan_adds|]. confine.
Qed.

Lemma confined_prefix K clock p limit : confined K (MiniDbRead.prefix codec read_value clock p limit : M _).
Proof.
  unfold MiniDbRead.prefix. apply confined_bind; [apply confined_ensure_open|]. intros _.
  apply confined_bind; [apply confined_with_store; intros s a s'; apply scan_adds|]. confine.
Qed.

Lemma confined_expiration_round K now : confined K (MiniDbRead.expiration_round now : M ()).
Proof.
  unfold MiniDbRead.expiration_round. apply confined_bind; [apply confined_with_store; intros s a s'; apply reap_loop_adds|]. confine.
Qed.

Lemma confined_search_text K name query o : confined K (MiniDbRead.search_text name query o : M _).
Proof.
  apply confined_locked. intros s d r s' d'. destruct (text d !! name); [|by intros [= _ <- _]].
  destruct (TextIndex.search _ _ _ _ _ _ _). by intros [= _ <- _].
Qed.

Lemma confined_query_keys K clock key : confined K (MiniDbRead.query_keys clock key : M _).
Proof.
  assert (forall o, confined K (with_store (Store.raw_keys dt_json clock o) : M _)) as Hr
    by (intros o; apply confined_with_store; intros s a s'; apply raw_keys_adds).
  unfold MiniDbRead.query_keys. destruct key as [key|]; [|done]. destruct (exact key); [apply confined_ret|]. by destruct (key_prefix key).
Qed.

Hint Resolve confined_has confined_get_record confined_ttl confined_scan confined_prefix confined_search_text confined_query_keys : confined.

Lemma confined_fetch K {R A} (row_key : R -> bytes) (make : bytes -> V -> R -> A) clock rows : forall i,
  confined K (MiniDbRead.fetch codec read_value row_key make clock i rows : M _).
Proof. induction rows as [|row rows IH]; intros i; cbn [fetch]; confine. Qed.

Lemma confined_find_eq K clock name value : confined K (MiniDbRead.find_eq codec read_value clock name value : M _).
Proof. unfold MiniDbRead.find_eq. confine. apply confined_fetch. Qed.

Lemma confined_find_range K clock name range : confined K (MiniDbRead.find_range codec read_value clock name range : M _).
Proof. unfold MiniDbRead.find_range. confine. apply confined_fetch. Qed.

Lemma confined_search K clock name text o : confined K (MiniDbRead.search codec read_value clock name text o : M _).
Proof. unfold MiniDbRead.search. confine. apply confined_fetch. Qed.

Lemma confined_retain K ranges : forall keys, confined K (MiniDbRead.retain_datetimes ranges keys : M _).
Proof. induction ranges as [|[column range] ranges IH]; intros keys; cbn [retain_datetimes]; confine. Qed.

Lemma confined_collect K clock query keys : forall i, confined K (MiniDbRead.collect codec read_value clock i query keys : M _).
Proof.
  induction keys as [|key keys IH]; intros i; cbn [collect]; confine; try apply IH. unfold projected. confine.
Qed.

Lemma confined_query K keys_clock clock query : confined K (MiniDbRead.query codec read_value keys_clock clock query : M _).
Proof. unfold MiniDbRead.query. confine; [apply confined_retain|apply confined_collect]. Qed.

(** *** Index definitions *)

Lemma confined_on_derived K {A} (f : @DerivedState NT OT TT -> option (result MiniDbError A * DerivedState)) : confined K (on_derived f : M A).
Proof. apply confined_derived. Qed.

Lemma confined_live_documents K now : confined K (MiniDbRead.live_json_documents_with_datetimes codec read_value now : M _).
Proof. by intros self r self' [= _ <-]. Qed.

Hint Resolve confined_on_derived confined_live_documents : confined.

Lemma confined_create_index K value_of now persisted name definition :
  confined K (MiniDbRead.create_index codec options read_value value_of now persisted name definition : M ()).
Proof. unfold MiniDbRead.create_index, ensure_json_codec, live_json_documents, install_index. confine. Qed.

Lemma confined_create_compound_index K now persisted name definition :
  confined K (MiniDbRead.create_compound_index codec options read_value now persisted name definition : M ()).
Proof. unfold MiniDbRead.create_compound_index, ensure_json_codec, install_compound_index. confine. Qed.

Lemma confined_create_text_index K now disk outcomes persisted name fields :
  confined K (MiniDbRead.create_text_index codec options read_value now disk outcomes persisted name fields : M ()).
Proof. unfold MiniDbRead.create_text_index, ensure_json_codec, live_json_documents. confine. Qed.

Lemma confined_drop_index K persisted name : confined K (MiniDbRead.drop_index options persisted name : M bool).
Proof. unfold MiniDbRead.drop_index. confine. Qed.

Lemma confined_drop_compound_index K persisted name : confined K (MiniDbRead.drop_compound_index options persisted name : M bool).
Proof. unfold MiniDbRead.drop_compound_index. confine. Qed.

Lemma confined_drop_text_index K persisted name : confined K (MiniDbRead.drop_text_index options persisted name : M bool).
Proof. unfold MiniDbRead.drop_text_index. confine. Qed.
End reads.

#[export] Hint Resolve confined_drain confined_touch confined_get confined_has confined_get_record confined_ttl confined_scan confined_prefix
  confined_search_text confined_query_keys confined_on_derived confined_live_documents : confined.

(** ** Writes *)

Section writes.
Context {Number V : Type} `{!Platform Number} `{Crc32fast}.
Context {KT NT OT TT : Type}.
Context `{!OrderedIndex KT bytes bytes} `{!OrderedIndex NT f64 bytes}.
Context `{!OrderedIndex OT CompoundIndex.OrderValue bytes} `{!OrderedIndex TT Z bytes}.
Abbreviation Db := (@MiniDb.MiniDb KT NT OT TT).
Abbreviation DbIo := (@MiniDb.Io KT NT OT TT).
Abbreviation M := (@MiniDb.M KT NT OT TT).
Abbreviation Op := (@PreparedOp Number).
#[local] Existing Instance MiniDb.M_ret.
#[local] Existing Instance MiniDb.M_bind.
Context (codec : ValueCodec Number V) (options : OpenOptions).
Context (read_value : option (Store.ValueLoc -> result Store.StoreError bytes)).
Implicit Types (self : Db) (K : bytes -> Prop) (io : DbIo) (operation : Op).

(** While a write waits, nobody adds a key. *)
Definition io_adds_none io : Prop := forall self, adds (fun _ => False) (Store.records (store self)) (Store.records (store (done io self).2)).

Lemma other_adds_none self self' : rtc (other_step codec read_value) self self' -> adds (fun _ => False) (Store.records (store self)) (Store.records (store self')).
Proof.
  induction 1 as [|s s1 s2 Hs _ IH]; [done|]. etrans; [|exact IH]. destruct Hs as [key now r s1 E|key now r s1 E|clock range r s1 E|clock key r s1 E|name q o r s1 E|now r s1 E].
  - exact (confined_get codec read_value _ key now _ _ _ E).
  - exact (confined_has _ key now _ _ _ E).
  - exact (confined_scan codec read_value _ clock range _ _ _ E).
  - exact (confined_query_keys _ clock key _ _ _ E).
  - exact (confined_search_text _ name q o _ _ _ E).
  - exact (confined_expiration_round _ now _ _ _ E).
Qed.

Lemma confined_wait K io : io_adds_none io -> confined K (wait io : M _).
Proof.
  intros Hio self r self'. unfold wait. specialize (Hio self). destruct (done io self) as [x s]. cbn [snd] in Hio. intros [= _ <-].
  eapply adds_mono; [|exact Hio]. done.
Qed.

Lemma confined_append_and_wait K io frame : io_adds_none io -> confined K (append_and_wait io frame : M _).
Proof. intros Hio. unfold append_and_wait. destruct (append io frame); [by apply confined_wait|apply confined_ret]. Qed.

Lemma confined_apply K operation now : K (op_key operation) -> confined K (apply_operation codec read_value operation now : M _).
Proof.
  intros HK. apply confined_locked. intros s d r s' d' ([s1 d1] & H1%drain_records & Hs)%bind_Some. rewrite <- H1.
  apply bind_Some in Hs as ([old s2] & H2 & Hs). apply (get_adds _ _ K) in H2. etrans; [exact H2|].
  destruct old as [old|e]; [|by injection Hs as _ <- _]. apply bind_Some in Hs as ([s3 d3] & H3%drain_records & Hs). rewrite <- H3.
  apply bind_Some in Hs as ([s4 d4] & Hs & [= _ <- _]). destruct (bool_decide _).
  - apply bind_Some in Hs as (value & _ & (s5 & H5 & (d5 & _ & [= <- _])%bind_Some)%bind_Some). by eapply set_ref_adds.
  - apply bind_Some in Hs as ([deleted s5] & H5 & Hs). apply (del_adds _ K) in H5. etrans; [exact H5|].
    destruct deleted; [|by injection Hs as <- _]. by apply bind_Some in Hs as (d5 & _ & [= <- _]).
Qed.

Lemma confined_restore K key previous sequence now : K key -> confined K (restore_key codec read_value key previous sequence now : M ()).
Proof.
  intros HK. apply confined_locked. intros s d r s' d' Hs. destruct (superseded _ _); [by injection Hs as _ <- _|].
  apply bind_Some in Hs as (d1 & _ & Hs). destruct previous as [previous|].
  - apply bind_Some in Hs as (s1 & H1 & Hs). apply (set_ref_adds _ K) in H1; [|done]. etrans; [exact H1|].
    apply bind_Some in Hs as ([b s2] & H2 & Hs). apply (get_adds _ _ K) in H2. etrans; [exact H2|].
    destruct b; [|by injection Hs as _ <- _]. by apply bind_Some in Hs as (d2 & _ & [= _ <- _]).
  - apply bind_Some in Hs as ([b s1] & H1 & [= _ <- _]). by eapply del_adds.
Qed.

Lemma confined_publish K operation sequence location : K (op_pk operation) -> confined K (publish_wal_ref operation sequence location : M ()).
Proof.
  intros HK. apply confined_locked. intros s d r s' d'. destruct (_ && _); [|by intros [= _ <- _]].
  intros (s1 & H1 & [= _ <- _])%bind_Some. by eapply set_ref_adds.
Qed.

Lemma confined_check_unique K operation : confined K (check_unique operation : M ()).
Proof.
  intros self r self'. unfold check_unique. destruct (op_index_value operation); [|by intros [= _ <-]].
  by intros (x & _ & [= _ <-])%bind_Some.
Qed.

Hint Resolve confined_wait confined_append_and_wait confined_apply confined_restore confined_publish confined_check_unique : confined.

Lemma confined_delete K io operation : io_adds_none io -> K (op_key operation) -> K (op_pk operation) ->
  confined K (delete_applied codec read_value io operation : M ()).
Proof. intros Hio Hk Hp. unfold delete_applied. confine. Qed.

Lemma find_victim_there (operations : list Op) (s : Store.Store KT) l victim : find_victim operations s l = Some victim -> is_Some (Store.records s !! victim).
Proof.
  unfold find_victim. intros Hh. apply head_Some_elem_of in Hh. by apply list_elem_of_filter in Hh as [[_ ?] _].
Qed.

Lemma prepare_del_key key operation : prepare_del key = Ok operation -> op_key operation = key /\ op_pk operation = key.
Proof. unfold prepare_del. destruct (check_key key); [|done]. by intros [= <-]. Qed.

Lemma prepare_set_key key value set_options now operation : prepare_set codec key value set_options now = Ok operation ->
  op_key operation = key /\ op_pk operation = key.
Proof.
  unfold prepare_set. destruct (check_key key); [|done]. simpl_bind. destruct (lift _ _); [|done]. simpl_bind.
  destruct (match opt_datetimes set_options with Some _ => _ | None => _ end); [|done]. simpl_bind. by intros [= <-].
Qed.

Lemma asks_bind {A B} (f : Db -> A) (g : A -> M B) self : (asks f ≫= g) self = g (f self) self.
Proof. done. Qed.

Lemma or_panic_bind {A B} (o : option A) (g : A -> M B) self : (or_panic o ≫= g) self = a ← o; g a self.
Proof. by destruct o. Qed.

(** Eviction may put back the record it could not delete, which was there. *)
Lemma confined_ensure_loop K fuel ios maximum operations : (forall j, io_adds_none (ios j)) ->
  forall i, confined K (ensure_memory_loop codec options read_value fuel ios i maximum operations : M ()).
Proof.
  intros Hios. induction fuel as [|fuel IH]; intros i; [apply confined_panic|]. cbn [ensure_memory_loop].
  apply confined_bind; [apply confined_with_store; intros s a s'; apply reap_loop_adds|]. intros _ self r self' Hs.
  rewrite asks_bind in Hs. cbn beta iota in Hs. rewrite or_panic_bind in Hs. apply bind_Some in Hs as (projected & _ & Hs).
  destruct (projected <=? maximum); [by injection Hs as _ <-|].
  assert (forall f e, confined K (_ ← count_stats f; of_result (Err e) : M ())) as Hrej by (intros; confine).
  destruct (max_memory_policy options); [by eapply Hrej|]. destruct (find_victim _ _ _) as [victim|] eqn:Hv; [|by eapply Hrej].
  assert (confined (fun k => K k \/ k = victim) (_ ← evict codec read_value (ios i) victim;
    ensure_memory_loop codec options read_value fuel ios (S i) maximum operations : M ())) as He.
  { apply confined_bind; [|intros _; eapply confined_mono; [|apply IH]; by left]. unfold evict.
    apply confined_result_bind. intros operation Hp. apply prepare_del_key in Hp as [Hk Hpk].
    apply confined_bind; [apply confined_delete; [done|rewrite ?Hk, ?Hpk; by right..]|]. confine. }
  intros k Hk. destruct (He self r self' Hs k Hk) as [?|[?| ->]]; [by left|by right|left]. by eapply find_victim_there.
Qed.

Lemma confined_ensure_memory K ios operations : (forall j, io_adds_none (ios j)) -> confined K (ensure_memory_for codec options read_value ios operations : M ()).
Proof.
  intros Hios. unfold ensure_memory_for. destruct (max_memory_bytes options); [|apply confined_ret].
  intros self r self' E. by eapply confined_ensure_loop.
Qed.

Lemma confined_write_set K io operation : io_adds_none io -> K (op_key operation) -> K (op_pk operation) ->
  confined K (write_set codec options read_value io operation : M ()).
Proof. intros Hio Hk Hp. unfold write_set. confine. Qed.

Lemma confined_set io ios key value set_options : io_adds_none io -> (forall j, io_adds_none (ios j)) ->
  confined (eq key) (set codec options read_value io ios key value set_options : M ()).
Proof.
  intros Hio Hios. unfold set. do 2 (apply confined_bind; [confine|intros _]).
  apply confined_result_bind. intros operation [Hk Hp]%prepare_set_key. apply confined_bind; [by apply confined_ensure_memory|]. intros _.
  apply confined_bind; [confine|]. intros _. by apply confined_write_set.
Qed.

Lemma confined_del io now key : io_adds_none io -> confined (eq key) (del codec options read_value io now key : M bool).
Proof.
  intros Hio. unfold del. do 2 (apply confined_bind; [confine|intros _]).
  apply confined_bind; [apply confined_with_store; intros s a s'; apply has_adds|]. intros found. destruct (negb found); [confine|].
  apply confined_result_bind. intros operation [Hk Hp]%prepare_del_key. apply confined_bind; [by apply confined_delete|]. confine.
Qed.

Lemma confined_expire io ios key now ttl_millis : io_adds_none io -> (forall j, io_adds_none (ios j)) ->
  confined (eq key) (expire codec options read_value io ios key now ttl_millis : M bool).
Proof.
  intros Hio Hios. unfold expire. apply confined_bind; [confine|]. intros [record|]; [|confine].
  apply confined_bind; [by apply confined_set|]. confine.
Qed.

Lemma prepare_all_keys now operations : forall i prepared, prepare_all codec now i operations = Ok prepared ->
  Forall (fun operation => op_key operation ∈ map Router.operation_key operations /\ op_pk operation ∈ map Router.operation_key operations) prepared.
Proof.
  induction operations as [|operation operations IH]; intros i prepared; cbn [prepare_all]; [by intros [= <-]|].
  destruct (match operation with InputSet _ _ _ => _ | InputDel _ => _ end) as [p|] eqn:Hp; [|done]. simpl_bind.
  destruct (prepare_all codec now (S i) operations) as [rest|] eqn:Hr; [|done]. simpl_bind. intros [= <-]. cbn [map].
  constructor.
  - assert (op_key p = Router.operation_key operation /\ op_pk p = Router.operation_key operation) as [-> ->]; [|by split; left].
    destruct operation; [by eapply prepare_set_key|by apply prepare_del_key].
  - eapply Forall_impl; [by eapply IH|]. intros q [? ?]. by split; right.
Qed.

Lemma confined_apply_all K io operations : Forall (fun operation => K (op_key operation)) operations -> forall i previous,
  confined K (apply_all codec read_value io i operations previous : M _).
Proof.
  induction 1 as [|operation operations Hk _ IH]; intros i previous; cbn [apply_all]; [confine|].
  apply confined_bind; [by apply confined_apply|]. intros [record ?]. apply IH.
Qed.

(** A batch remembers the records of the keys it names. *)
Lemma apply_all_keys K io operations : Forall (fun operation => K (op_pk operation)) operations -> forall i previous self result self',
  map_Forall (fun key _ => K key) previous -> apply_all codec read_value io i operations previous self = Some (Ok result, self') ->
  map_Forall (fun key _ => K key) result.
Proof.
  induction 1 as [|operation operations Hk _ IH]; intros i previous self result self' Hp; cbn [apply_all]; [by intros [= <- _]|].
  unfold mbind, M_bind. intros ([[[record x]|e] s] & _ & Hs)%bind_Some; [|done]. eapply IH; [|exact Hs].
  destruct (previous !! op_pk operation); [done|]. by apply map_Forall_insert_2.
Qed.

Lemma confined_bind_post K {A B} (P : A -> Prop) (c : M A) (f : A -> M B) : confined K c ->
  (forall self a self', c self = Some (Ok a, self') -> P a) -> (forall a, P a -> confined K (f a)) -> confined K (c ≫= f).
Proof.
  intros Hc HP Hf self r self'. unfold mbind, M_bind. intros ([x s] & Hx & Hs)%bind_Some. etrans; [by eapply Hc|].
  destruct x as [a|e]; [|by injection Hs as _ <-]. eapply Hf; [by eapply HP|exact Hs].
Qed.

Lemma last_sets_keys K (operations : list Op) references : Forall (fun operation => K (op_pk operation)) operations ->
  map_Forall (fun _ (x : Op * Codec.BatchOpRef) => K (op_pk x.1)) (last_sets operations references).
Proof.
  intros Hops. unfold last_sets.
  assert (Forall (fun x : Op * Codec.BatchOpRef => K (op_pk x.1)) (zip operations references)) as Hz.
  { apply Forall_forall. intros [o r] Hin. apply elem_of_zip_l in Hin. by eapply Forall_forall in Hops. }
  assert (map_Forall (fun _ (x : Op * Codec.BatchOpRef) => K (op_pk x.1)) (∅ : gmap bytes _)) as He by apply map_Forall_empty.
  revert He. generalize (∅ : gmap bytes (Op * Codec.BatchOpRef)). induction Hz as [|x l Hx _ IH]; intros last Hl; cbn [fold_left]; [done|].
  apply IH. destruct (bool_decide _); [by apply map_Forall_insert_2|done].
Qed.

Lemma map_entries {A} (P : bytes -> A -> Prop) (m : gmap bytes A) : map_Forall P m -> Forall (fun kx => P kx.1 kx.2) (map_to_list m).
Proof. intros Hm. apply Forall_forall. intros [k x] Hin%elem_of_map_to_list. by apply Hm. Qed.

Lemma confined_restore_all K io sequences previous : Forall (fun kr => K kr.1) previous -> forall i,
  confined K (restore_all codec read_value io i sequences previous : M ()).
Proof.
  induction 1 as [|[key record] previous Hk _ IH]; intros i; cbn [restore_all]; [confine|].
  apply confined_bind; [confine|]. intros sequence. apply confined_bind; [by apply confined_restore|]. intros _. apply IH.
Qed.

Lemma confined_publish_all K frame_offset sequences last : Forall (fun kx => K (op_pk kx.2.1)) last ->
  confined K (publish_all (Number := Number) frame_offset sequences last : M ()).
Proof.
  induction 1 as [|[key [operation reference]] last Hk _ IH]; cbn [publish_all]; [confine|].
  apply confined_bind; [confine|]. intros sequence. apply confined_bind; [by apply confined_publish|]. intros _. apply IH.
Qed.

Lemma confined_write_batch K io (prepared : list Op) : io_adds_none io ->
  Forall (fun operation => K (op_key operation) /\ K (op_pk operation)) prepared ->
  confined K (write_batch codec options read_value io prepared : M ()).
Proof.
  intros Hio [Hk Hp]%Forall_and. unfold write_batch. do 3 (apply confined_bind; [confine|intros ?]).
  eapply (confined_bind_post K (map_Forall (fun key _ => K key))); [by apply confined_apply_all| |].
  { intros self previous self'. by apply apply_all_keys, map_Forall_empty. }
  intros previous Hprev. apply confined_bind; [confine|]. intros sequences. apply confined_bind; [by apply confined_wait|]. intros [[]|e].
  - destruct (value_mode options); [apply confined_ret|]. apply confined_bind; [confine|]. intros references.
    apply confined_publish_all. by apply (map_entries _ _ (last_sets_keys K prepared references Hp)).
  - apply confined_bind; [|confine]. apply confined_restore_all. by apply map_entries in Hprev.
Qed.

(** A batch adds only keys it names. *)
Lemma confined_batch io ios operations : io_adds_none io -> (forall j, io_adds_none (ios j)) ->
  confined (fun key => key ∈ map Router.operation_key operations) (batch codec options read_value io ios operations : M ()).
Proof.
  intros Hio Hios. unfold batch. do 2 (apply confined_bind; [confine|intros _]). destruct (decide _); [confine|].
  apply confined_result_bind. intros prepared Hprep%prepare_all_keys. apply confined_bind; [by apply confined_ensure_memory|]. intros _.
  apply confined_bind; [|intros _; by apply confined_write_batch]. by intros self r self' [= _ <-].
Qed.

Lemma confined_mset io ios (entries : list (bytes * V)) : io_adds_none io -> (forall j, io_adds_none (ios j)) ->
  confined (fun key => key ∈ entries.*1) (mset codec options read_value io ios entries : M ()).
Proof.
  intros Hio Hios. eapply confined_mono; [|by apply confined_batch]. intros key. rewrite map_map.
  by rewrite (map_ext _ fst (fun kv => eq_refl)).
Qed.

(** What other calls may do while a write waits. *)
Lemma io_ok_adds_none io : UpdateFacts.io_ok codec read_value io -> io_adds_none io.
Proof. intros Hio self. apply other_adds_none, Hio. Qed.
End writes.
End KeyFacts.
