(* ===== verification/ClusterFacts.v ===== *)
(** * The cluster: keys stay in their shard

    Every operation of the cluster writes a key only to the shard the router names for
    it ([operation_keeps_routing]), whatever fails on the way; hence no key is ever in
    two shards.  A logic for the monad of [Cluster] with one rule for each of its
    primitives, over the logic of [KeyFacts]. *)

From Corelib Require Import SpecFloat.
From S2P Require Import Prelude.
From S2P Require Import Crc.
From S2P Require Import OrdIndex.
From S2P Require Import Store.
From S2P Require Import Query.
From S2P Require Import Float.
From S2P Require Import IndexManager.
From S2P Require Import CompoundIndex.
From S2P Require Import TextIndex.
From S2P Require Import MiniDb.
From S2P Require Import MiniDbRead.
From S2P Require Import UpdateFacts.
From S2P Require Import Router.
From S2P Require Import Cluster.
From S2P Require Import KeyFacts.
Import OrdIndex Float MiniDb MiniDbRead Router Cluster KeyFacts.

Module ClusterFacts.

Create HintDb routes discriminated.

(** ** Groups *)

Lemma group_at_in {A} (groups : list (Z * list A)) shard items : shards_ascend groups -> (shard, items) ∈ groups ->
  group_at shard groups = items.
Proof.
  unfold shards_ascend. induction groups as [|[s l] groups IH]; [by intros _ ?%elem_of_nil|].
  cbn [fmap list_fmap fst]. intros [Hs Hall]%StronglySorted_inv Hin. rewrite group_at_cons.
  apply elem_of_cons in Hin as [[= -> ->]|Hin]; [by rewrite decide_True|]. rewrite decide_False; [by apply IH|].
  intros ->. rewrite Forall_forall in Hall. specialize (Hall shard). apply (list_elem_of_fmap_2 fst) in Hin. specialize (Hall Hin). lia.
Qed.

(** What a group holds belongs to its shard. *)
Lemma group_members {A} (key : A -> bytes) count (l : list A) groups : 0 < count -> group_by key count l = Ok groups ->
  Forall (fun group => Forall (fun x => shard_for (key x) count = Ok group.1) group.2) groups.
Proof.
  intros Hc Hg. destruct (group_by_spec key count l Hc) as (groups' & Hg' & Hs & Hat & _). assert (groups' = groups) as -> by congruence.
  apply Forall_forall. intros [shard items] Hin. rewrite <- (group_at_in groups shard items Hs Hin), Hat. cbn [fst snd].
  apply Forall_forall. by intros x [? _]%list_elem_of_filter.
Qed.

Section cluster.
Context {Number V : Type} `{!Platform Number} `{Crc32fast}.
Context {KT NT OT TT : Type}.
Context `{!OrderedIndex KT bytes bytes} `{!OrderedIndex NT f64 bytes}.
Context `{!OrderedIndex OT CompoundIndex.OrderValue bytes} `{!OrderedIndex TT Z bytes}.
Abbreviation Value := (@Query.Value Number).
Abbreviation Db := (@MiniDb.MiniDb KT NT OT TT).
Abbreviation M := (@MiniDb.M KT NT OT TT).
Abbreviation Cluster := (@Cluster.Cluster KT NT OT TT).
Abbreviation CM := (@Cluster.CM KT NT OT TT).
Abbreviation ClusterIo := (@Cluster.ClusterIo KT NT OT TT).
#[local] Existing Instance Cluster.CM_ret.
#[local] Existing Instance Cluster.CM_bind.
Context (codec : ValueCodec Number V) (options : OpenOptions).
Context (read_value : Z -> option (Store.ValueLoc -> result Store.StoreError bytes)) (value_of : f64 -> Value).
Context (meta : ClusterMeta) (mode : CrossShardMode) (cluster_read_only : bool).
Implicit Types (self : Cluster) (io : ClusterIo) (shard : Z).

(** ** Routing *)

(** The records of every shard are those of its keys. *)
Definition routed self : Prop :=
  length (shards self) = Z.to_nat (shard_count meta) /\
  forall (i : nat) db key, shards self !! i = Some db -> is_Some (Store.records (store db) !! key) ->
    shard_for key (shard_count meta) = Ok (Z.of_nat i).

Definition routes {A} (c : CM A) : Prop := forall self r self', c self = Some (r, self') -> routed self -> routed self'.

Definition belongs shard (key : bytes) : Prop := shard_for key (shard_count meta) = Ok shard.

Lemma routes_ret {A} (a : A) : routes (mret a : CM A).
Proof. by intros self r self' [= _ <-]. Qed.

Lemma routes_of_result {A} (r : result ClusterError A) : routes (of_result r : CM A).
Proof. by intros self r' self' [= _ <-]. Qed.

Lemma routes_bind_post {A B} (P : A -> Prop) (c : CM A) (f : A -> CM B) : routes c ->
  (forall self a self', c self = Some (Ok a, self') -> P a) -> (forall a, P a -> routes (f a)) -> routes (c ≫= f).
Proof.
  intros Hc HP Hf self r self'. unfold mbind, CM_bind. intros ([x s] & Hx & Hs)%bind_Some Hr.
  pose proof (Hc _ _ _ Hx Hr). destruct x as [a|e]; [|by injection Hs as _ <-]. eapply Hf; [by eapply HP|exact Hs|done].
Qed.

Lemma routes_bind {A B} (c : CM A) (f : A -> CM B) : routes c -> (forall a, routes (f a)) -> routes (c ≫= f).
Proof. intros Hc Hf. by eapply (routes_bind_post (fun _ => True)). Qed.

Lemma routes_result_bind {A B} (r : result ClusterError A) (f : A -> CM B) :
  (forall a, r = Ok a -> routes (f a)) -> routes (of_result r ≫= f).
Proof.
  intros Hf. eapply (routes_bind_post (fun a => r = Ok a)); [apply routes_of_result| |done]. by intros self a self' [= -> _].
Qed.

Lemma routes_attempt {A} (c : CM A) : routes c -> routes (attempt c).
Proof. intros Hc self r self'. unfold attempt. intros ([x s] & Hx & [= _ <-])%bind_Some. by eapply Hc. Qed.

Lemma routes_open : routes (ensure_cluster_open : CM ()).
Proof. by intros self r self' [= _ <-]. Qed.

Lemma routes_registry_of io : routes (registry_of io).
Proof. by intros self r self' [= _ <-]. Qed.

Lemma routes_put_registry registry : routes (put_registry registry : CM ()).
Proof. by intros self r self' [= _ <-]. Qed.

Lemma shard_for_nonneg key s : shard_for key (shard_count meta) = Ok s -> 0 < shard_count meta -> Z.of_nat (Z.to_nat s) = s.
Proof. intros Hs Hc. destruct (shard_for_ok key _ Hc) as (s' & Hs' & ?). assert (s' = s) as -> by congruence. lia. Qed.

(** An operation on a shard that adds keys of the shard only. *)
Lemma routes_on_shard {A} shard (c : M A) : 0 < shard_count meta -> confined (belongs shard) c -> routes (on_shard shard c).
Proof.
  intros Hc Hk self r self'. unfold on_shard. intros (db & Hdb & ([x db'] & Hx & [= _ <-])%bind_Some)%bind_Some [Hl Hr].
  split; cbn [shards]; [by rewrite length_insert|]. intros i db1 key Hi Hin.
  apply list_lookup_insert_Some in Hi as [(<- & -> & _)|[_ Hi]]; [|by eapply Hr].
  destruct (Hk _ _ _ Hx key Hin) as [Hold|Hnew]; [by eapply Hr|]. by rewrite (shard_for_nonneg key shard Hnew Hc).
Qed.

(** ** Every operation *)

Hypothesis some_shard : 0 < shard_count meta.

(** While a write to a shard waits, nobody adds a key to it. *)
Definition io_adds_none io : Prop := forall shard, KeyFacts.io_adds_none (shard_io io shard) /\ forall j, KeyFacts.io_adds_none (shard_ios io shard j).

Lemma routes_read {A} shard (c : M A) : (forall K, confined K c) -> routes (on_shard shard c).
Proof. intros Hc. by apply routes_on_shard. Qed.

Ltac route :=
  repeat match goal with
  | |- forall _, _ => intro
  | |- routes (of_result _ ≫= _) => apply routes_bind; [apply routes_of_result|]
  | |- routes (_ ≫= _) => apply routes_bind
  | |- routes (match ?x with _ => _ end) => destruct x
  | |- routes (attempt _) => apply routes_attempt
  | |- routes (mret _) => apply routes_ret
  | |- routes (of_result _) => apply routes_of_result
  | |- routes ensure_cluster_open => apply routes_open
  | |- routes (ensure_cluster_writable _) => apply routes_of_result
  | |- routes (require_json_codec _ _) => apply routes_of_result
  | |- routes (check_groups _ _) => apply routes_of_result
  | |- routes (registry_of _) => apply routes_registry_of
  | |- routes (put_registry _) => apply routes_put_registry
  | |- routes (on_shard _ _) => apply routes_read; intro; solve [eauto with confined nocore]
  end.

Lemma confined_has_index K name : confined K (has_index name : M bool).
Proof. unfold has_index. intros self r self' ([x s] & Hx & [= _ <-])%bind_Some. by injection Hx as _ <-. Qed.

Lemma confined_has_compound_index K name : confined K (has_compound_index name : M bool).
Proof. unfold has_compound_index. intros self r self' ([x s] & Hx & [= _ <-])%bind_Some. by injection Hx as _ <-. Qed.

Lemma confined_has_text_index K name : confined K (has_text_index name : M bool).
Proof. unfold has_text_index. intros self r self' ([x s] & Hx & [= _ <-])%bind_Some. by injection Hx as _ <-. Qed.

Hint Resolve confined_has_index confined_has_compound_index confined_has_text_index confined_create_index confined_create_compound_index
  confined_create_text_index confined_drop_index confined_drop_compound_index confined_drop_text_index confined_find_eq confined_find_range
  confined_search confined_query : confined.

Lemma routes_each {A} (f : A -> CM ()) l : (forall x, routes (f x)) -> routes (each_c f l).
Proof. intros Hf. induction l as [|x l IH]; cbn [each_c]; route; [apply Hf|exact IH]. Qed.

Lemma routes_apply_registry io shard : routes (apply_registry codec options read_value value_of io shard).
Proof.
  unfold apply_registry. route; apply routes_each; intros x; unfold create_missing, create_index_on, create_compound_index_on, create_text_index_on; route.
Qed.

Lemma routes_writer io shard : routes (writer codec options read_value value_of cluster_read_only io shard).
Proof. unfold writer. route. apply routes_apply_registry. Qed.

Lemma routes_reader io shard : routes (reader io shard).
Proof. unfold reader. route. Qed.

Hint Resolve routes_apply_registry routes_writer routes_reader routes_each : routes.

Ltac rd := repeat (route; try solve [eauto with routes nocore]).

Lemma routes_shard_of {A} key (f : Z -> CM A) : (forall shard, belongs shard key -> routes (f shard)) -> routes (shard_of meta key ≫= f).
Proof.
  intros Hf. apply routes_result_bind. intros shard Hs. apply Hf. unfold belongs. destruct (shard_for _ _); [|done]. by injection Hs as ->.
Qed.

(** A write of one key to the shard it belongs to. *)
Lemma routes_write_key {A} io shard key (c : M A) : belongs shard key -> confined (eq key) c ->
  routes (_ ← writer codec options read_value value_of cluster_read_only io shard; on_shard shard c).
Proof.
  intros Hb Hc. apply routes_bind; [apply routes_writer|]. intros _. apply routes_on_shard; [done|].
  eapply confined_mono; [|exact Hc]. by intros k <-.
Qed.

Lemma routes_read_groups io (groups : list (Z * list (nat * bytes))) : forall output, routes (get_groups codec read_value io groups output).
Proof.
  assert (forall shard entries i output, routes (get_indexed codec read_value io shard i entries output)) as Hg.
  { intros shard entries. induction entries as [|[index key] entries IH]; intros i output; cbn [get_indexed]; rd. }
  induction groups as [|[shard entries] groups IH]; intros output; cbn [get_groups]; rd.
Qed.

Lemma routes_write_groups {A} (write : Z -> list A -> CM ()) (groups : list (Z * list A)) :
  Forall (fun group => routes (write group.1 group.2)) groups -> routes (write_groups write groups).
Proof. induction 1 as [|[shard items] groups Hw _ IH]; cbn [write_groups]; rd; assumption. Qed.

(** The groups of a call, each with the keys of its shard. *)
Lemma routes_groups {A B} (key : A -> bytes) (l : list A) (f : list (Z * list A) -> CM B) :
  (forall groups, Forall (fun group => Forall (fun x => belongs group.1 (key x)) group.2) groups -> routes (f groups)) ->
  routes (of_result (lift_c ShardCount (group_by key (shard_count meta) l)) ≫= f).
Proof.
  intros Hf. apply routes_result_bind. intros groups Hg. apply Hf. destruct (group_by _ _ _) as [g|] eqn:E; [|done].
  injection Hg as ->. by eapply group_members.
Qed.

Lemma routes_mset io entries : io_adds_none io -> routes (mset codec options read_value value_of meta mode cluster_read_only io entries).
Proof.
  intros Hio. unfold mset. apply routes_bind; [route|]. intros _. apply (routes_groups fst). intros groups Hg.
  apply routes_bind; [route|]. intros _. apply routes_bind; [|route]. apply routes_write_groups. eapply Forall_impl; [exact Hg|].
  intros [shard l] Hl. cbn [fst snd] in *. apply routes_bind; [apply routes_writer|]. intros _. apply routes_on_shard; [done|].
  eapply confined_mono; [|apply confined_mset; apply Hio]. intros k Hin. by apply (list_elem_of_fmap_1) in Hin as ([? ?] & -> & Hx); eapply Forall_forall in Hl.
Qed.

Lemma routes_write_operations io shard (operations : list (BatchInputOp V)) : io_adds_none io ->
  Forall (fun operation => belongs shard (operation_key operation)) operations ->
  routes (on_shard shard (MiniDb.batch codec options (read_value shard) (shard_io io shard) (shard_ios io shard) operations)).
Proof.
  intros Hio Hl. apply routes_on_shard; [done|]. eapply confined_mono; [|apply confined_batch; apply Hio].
  intros k Hin. apply list_elem_of_fmap_1 in Hin as (operation & -> & Hx). by eapply Forall_forall in Hl.
Qed.

Lemma routes_batch io operations : io_adds_none io -> routes (batch codec options read_value value_of meta mode cluster_read_only io operations).
Proof.
  intros Hio. unfold batch. apply routes_bind; [route|]. intros _. apply (routes_groups operation_key). intros groups Hg.
  apply routes_bind; [route|]. intros _. apply routes_bind; [|route]. apply routes_write_groups. eapply Forall_impl; [exact Hg|].
  intros [shard l] Hl. cbn [fst snd] in *. apply routes_bind; [apply routes_writer|]. intros _. by apply routes_write_operations.
Qed.

Lemma present_keys io shard (P : bytes -> Prop) keys : Forall P keys -> forall i self found self',
  present io shard i keys self = Some (Ok found, self') -> Forall P found.
Proof.
  induction 1 as [|key keys Hk _ IH]; intros i self found self'; cbn [present]; [by intros [= <- _]|].
  unfold mbind, CM_bind. intros ([[b|e] s] & _ & Hs)%bind_Some; [|done]. apply bind_Some in Hs as ([[rest|e] s2] & Hr & Hs); [|done].
  injection Hs as <- <-. apply IH in Hr. destruct b; [by constructor|done].
Qed.

Lemma routes_delete_groups io groups : io_adds_none io -> Forall (fun group => Forall (belongs group.1) group.2) groups ->
  routes (delete_groups codec options read_value value_of cluster_read_only io groups).
Proof.
  intros Hio. induction 1 as [|[shard keys] groups Hk _ IH]; cbn [delete_groups]; [route|]. cbn [fst snd] in Hk.
  apply routes_bind; [apply routes_attempt, routes_writer|]. intros [|]; [|rd]. apply (routes_bind_post (Forall (belongs shard))).
  - generalize 0%nat. clear Hk. induction keys as [|key keys IHk]; intros i; cbn [present]; rd.
  - intros self found self'. by apply present_keys.
  - intros found Hf. apply routes_bind; [|rd]. apply routes_attempt, routes_write_operations; [done|].
    apply Forall_fmap. exact Hf.
Qed.

Lemma routes_mdel io keys : io_adds_none io -> routes (mdel codec options read_value value_of meta mode cluster_read_only io keys).
Proof.
  intros Hio. unfold mdel. apply routes_bind; [route|]. intros _. apply (routes_groups (fun key => key)). intros groups Hg.
  apply routes_bind; [route|]. intros _. apply routes_bind; [by apply routes_delete_groups|]. rd.
Qed.

Lemma routes_from_shards {A} io (rows : Z -> M (list A)) l : (forall K shard, confined K (rows shard)) -> routes (from_shards io rows l).
Proof.
  intros Hr. induction l as [|shard l IH]; cbn [from_shards]; [route|]. apply routes_bind; [apply routes_reader|]. intros _.
  apply routes_bind; [apply routes_read; intro; apply Hr|]. rd.
Qed.

Lemma routes_mutate io mutation : routes (mutate_registry io mutation).
Proof. unfold mutate_registry. route. Qed.

Lemma confined_drop_index_on K io name shard : confined K (drop_index_on options io name shard : M bool).
Proof. apply confined_drop_index. Qed.

Lemma confined_drop_compound_index_on K io name shard : confined K (drop_compound_index_on options io name shard : M bool).
Proof. apply confined_drop_compound_index. Qed.

Lemma confined_drop_text_index_on K io name shard : confined K (drop_text_index_on options io name shard : M bool).
Proof. apply confined_drop_text_index. Qed.

Hint Resolve confined_drop_index_on confined_drop_compound_index_on confined_drop_text_index_on : confined.

Lemma routes_create_on_shards io has create (drop : Z -> M bool) l : (forall K, confined K has) -> (forall shard, routes (create shard)) ->
  (forall shard, routes (on_shard shard (drop shard))) -> forall created,
  routes (create_on_shards codec options read_value value_of cluster_read_only io has create drop created l).
Proof.
  intros Hh Hc Hd.
  assert (forall created, routes (undo_created codec options read_value value_of cluster_read_only io drop created)) as Hu.
  { induction created; cbn [undo_created]; rd. }
  induction l as [|shard l IH]; intros created; cbn [create_on_shards]; rd; apply routes_read, Hh.
Qed.

Lemma routes_drop_on_shards io has (drop : Z -> M bool) l : (forall K, confined K has) ->
  (forall shard, routes (on_shard shard (drop shard))) -> routes (drop_on_shards codec options read_value value_of cluster_read_only io has drop l).
Proof.
  intros Hh Hd. induction l as [|shard l IH]; cbn [drop_on_shards]; rd; apply routes_read, Hh.
Qed.

(** ** The operations of a cluster *)

Inductive operation io : forall A : Type, CM A -> Prop :=
| OpGet key : operation io _ (get codec read_value meta io key)
| OpSet key value set_options : operation io _ (set codec options read_value value_of meta cluster_read_only io key value set_options)
| OpDel key : operation io _ (del codec options read_value value_of meta cluster_read_only io key)
| OpHas key : operation io _ (has meta io key)
| OpTtl key : operation io _ (ttl meta io key)
| OpExpire key ttl_millis : operation io _ (expire codec options read_value value_of meta cluster_read_only io key ttl_millis)
| OpMget keys : operation io _ (mget codec read_value meta io keys)
| OpMset entries : operation io _ (mset codec options read_value value_of meta mode cluster_read_only io entries)
| OpBatch operations : operation io _ (batch codec options read_value value_of meta mode cluster_read_only io operations)
| OpMdel keys : operation io _ (mdel codec options read_value value_of meta mode cluster_read_only io keys)
| OpScan o : operation io _ (scan codec read_value meta io o)
| OpPrefix p limit : operation io _ (prefix codec read_value meta io p limit)
| OpQuery o : operation io _ (query codec read_value meta io o)
| OpCreateIndex name definition : operation io _ (create_index codec options read_value value_of meta cluster_read_only io name definition)
| OpCreateCompound name definition :
    operation io _ (create_compound_index codec options read_value value_of meta cluster_read_only io name definition)
| OpCreateText name fields : operation io _ (create_text_index codec options read_value value_of meta cluster_read_only io name fields)
| OpDropIndex name : operation io _ (drop_index codec options read_value value_of meta cluster_read_only io name)
| OpDropCompound name : operation io _ (drop_compound_index codec options read_value value_of meta cluster_read_only io name)
| OpDropText name : operation io _ (drop_text_index codec options read_value value_of meta cluster_read_only io name)
| OpListIndexes : operation io _ (list_cluster_indexes io)
| OpListCompound : operation io _ (list_cluster_compound_indexes io)
| OpFindEq name value : operation io _ (find_eq codec read_value meta io name value)
| OpFindRange name range : operation io _ (find_range codec read_value meta io name range)
| OpSearch name text search_options : operation io _ (search codec read_value meta io name text search_options)
| OpCompact : operation io _ (compact codec options read_value value_of meta cluster_read_only io)
| OpClose closing : operation io _ (close closing).

Lemma routes_scan io o : routes (scan codec read_value meta io o).
Proof.
  unfold scan. apply routes_bind; [|route]. apply routes_from_shards. intros K shard.
  destruct (s_prefix o); eauto with confined nocore.
Qed.

Lemma routes_compact_shards io l : forall r, routes (compact_shards codec options read_value value_of cluster_read_only io l r).
Proof. induction l as [|shard l IH]; intros r; cbn [compact_shards]; rd. Qed.

Hint Resolve routes_scan routes_mutate routes_compact_shards routes_mset routes_batch routes_mdel routes_read_groups : routes.

Lemma operation_routes {A} io (c : CM A) : io_adds_none io -> operation io A c -> routes c.
Proof.
  intros Hio Hop. destruct Hop.
  - apply routes_shard_of. rd.
  - apply routes_shard_of. intros shard Hb. apply routes_write_key with key; [done|]. apply confined_set; apply Hio.
  - apply routes_shard_of. intros shard Hb. apply routes_write_key with key; [done|]. apply confined_del; apply Hio.
  - apply routes_shard_of. rd.
  - apply routes_shard_of. rd.
  - apply routes_shard_of. intros shard Hb. apply routes_write_key with key; [done|]. apply confined_expire; apply Hio.
  - unfold mget. rd.
  - by apply routes_mset.
  - by apply routes_batch.
  - by apply routes_mdel.
  - apply routes_scan.
  - apply routes_scan.
  - unfold query. apply routes_bind; [|route]. apply routes_from_shards. eauto with confined nocore.
  - unfold create_index. rd. apply routes_create_on_shards; intros; unfold create_index_on; rd; eauto with confined nocore.
  - unfold create_compound_index. rd. apply routes_create_on_shards; intros; unfold create_compound_index_on; rd; eauto with confined nocore.
  - unfold create_text_index. rd. apply routes_create_on_shards; intros; unfold create_text_index_on; rd; eauto with confined nocore.
  - unfold drop_index. rd; apply routes_drop_on_shards; intros; rd; eauto with confined nocore.
  - unfold drop_compound_index. rd; apply routes_drop_on_shards; intros; rd; eauto with confined nocore.
  - unfold drop_text_index. rd; apply routes_drop_on_shards; intros; rd; eauto with confined nocore.
  - unfold list_cluster_indexes. route.
  - unfold list_cluster_compound_indexes. route.
  - unfold find_eq. rd. apply routes_from_shards. eauto with confined nocore.
  - unfold find_range. rd. apply routes_from_shards. eauto with confined nocore.
  - unfold search. rd. apply routes_from_shards. eauto with confined nocore.
  - unfold compact. rd.
  - intros self r self'. unfold close. destruct (cluster_closed self); by intros [= _ <-].
Qed.
(** A call of the cluster, whatever it answers. *)
Inductive cluster_step self self' : Prop :=
| Step io A (c : CM A) r : io_adds_none io -> operation io A c -> c self = Some (r, self') -> cluster_step self self'.

Lemma steps_keep_routing self self' : rtc cluster_step self self' -> routed self -> routed self'.
Proof. induction 1 as [|s s1 s2 [io A c r Hio Hop Hs] _ IH]; [done|]. intros Hr. apply IH. by eapply operation_routes. Qed.

(** C9: whatever calls of the cluster are made and whatever fails on the way, a key that
    a shard holds is a key the router gives to that shard; so a key is in one shard at
    most, and a read of it asks the shard that has it. *)
Theorem keys_stay_in_their_shard self self' i db key :
  routed self -> rtc cluster_step self self' -> shards self' !! i = Some db -> is_Some (Store.records (store db) !! key) ->
  shard_for key (shard_count meta) = Ok (Z.of_nat i) /\
  forall j db', shards self' !! j = Some db' -> is_Some (Store.records (store db') !! key) -> j = i.
Proof.
  intros Hr Hs Hi Hk. destruct (steps_keep_routing self self' Hs Hr) as [_ Hall]. pose proof (Hall i db key Hi Hk) as E. split; [done|].
  intros j db' Hj Hk'. pose proof (Hall j db' key Hj Hk') as E'. rewrite E in E'. injection E'. lia.
Qed.
End cluster.
End ClusterFacts.
