(* ===== verification/ClusterScan.v ===== *)
(** * The cluster: a scan of the cluster is a scan of one database

    The cluster asks every shard for the first rows of a range, sorts what they answer
    and keeps the first: the rows one database holding all the records would answer
    ([cluster_scan_is_one_scan]).  The first sections are about sorting and about
    merging the beginnings of sorted lists. *)

From Corelib Require Import SpecFloat.
From stdpp Require Import sorting.
From S2P Require Import Prelude.
From S2P Require Import Crc.
From S2P Require Import OrdIndex.
From S2P Require Import Store.
From S2P Require Import StoreFacts.
From S2P Require Import StoreExpiry.
From S2P Require Import Query.
From S2P Require Import Utf8.
From S2P Require Import Float.
From S2P Require Import CompoundIndex.
From S2P Require Import MiniDb.
From S2P Require Import MiniDbRead.
From S2P Require Import MiniDbFacts.
From S2P Require Import WriteFacts.
From S2P Require Import ReadFacts.
From S2P Require Import Router.
From S2P Require Import Cluster.
From S2P Require Import ClusterFacts.
Import OrdIndex Float MiniDb MiniDbRead MiniDbFacts WriteFacts ReadFacts Router Cluster ClusterFacts.

Module ClusterScan.

(** ** Sorting *)

Section sorting.
Context {A : Type} (cmp : A -> A -> comparison) `{!TotalCompare cmp}.

Lemma insert_by_perm x l : insert_by cmp x l ≡ₚ x :: l.
Proof.
  induction l as [|y l IH]; [done|]. cbn [insert_by]. destruct (cmp x y); [done..|]. rewrite IH. apply Permutation_swap.
Qed.

Lemma sort_by_perm l : sort_by cmp l ≡ₚ l.
Proof. induction l as [|x l IH]; [done|]. unfold sort_by in *. cbn [foldr]. by rewrite insert_by_perm, IH. Qed.

Lemma insert_by_sorted x l : sorted cmp l -> sorted cmp (insert_by cmp x l).
Proof.
  unfold sorted. induction 1 as [|y l Hs IH Hy]; cbn [insert_by]; [by repeat constructor|].
  destruct (cmp x y) eqn:E.
  1, 2: constructor; [by constructor|]; constructor; [by rewrite E|]; eapply Forall_impl; [exact Hy|]; intros z Hz;
    apply (cmp_trans (cmp := cmp) x y z); [by rewrite E|done].
  constructor; [done|]. apply Forall_forall. intros z [->|Hz]%(elem_of_Permutation_proper _ _ _ (insert_by_perm x l))%elem_of_cons.
  - by rewrite (cmp_flip x y), E.
  - by eapply Forall_forall in Hy.
Qed.

Lemma sort_by_sorted l : sorted cmp (sort_by cmp l).
Proof. induction l as [|x l IH]; [constructor|]. unfold sort_by in *. cbn [foldr]. by apply insert_by_sorted. Qed.
End sorting.

(** ** Sorted lists of keys *)

Lemma bytes_cmp_antisym x y : bytes_cmp x y <> Gt -> bytes_cmp y x <> Gt -> x = y.
Proof. intros Hxy Hyx. rewrite (cmp_flip x y) in Hyx. apply bytes_cmp_eq. by destruct (bytes_cmp x y). Qed.

(** A sorted list of keys is determined by its keys. *)
Lemma sorted_keys_unique (l1 l2 : list bytes) : sorted bytes_cmp l1 -> sorted bytes_cmp l2 -> l1 ≡ₚ l2 -> l1 = l2.
Proof. intros H1 H2 Hp. eapply (StronglySorted_unique_strong); [|exact H1|exact H2|exact Hp]. intros x y _ _. apply bytes_cmp_antisym. Qed.

Lemma sorted_keys_ext (l1 l2 : list bytes) : sorted bytes_cmp l1 -> sorted bytes_cmp l2 -> NoDup l1 -> NoDup l2 ->
  (forall x, x ∈ l1 <-> x ∈ l2) -> l1 = l2.
Proof. intros. apply sorted_keys_unique; [done..|]. by apply NoDup_Permutation. Qed.

Lemma sorted_filter_keys (P : bytes -> Prop) `{!forall x, Decision (P x)} l : sorted bytes_cmp l -> sorted bytes_cmp (filter P l).
Proof.
  unfold sorted. induction 1 as [|x l Hs IH Hx]; [constructor|]. rewrite filter_cons. destruct (decide (P x)); [|done].
  constructor; [done|]. apply Forall_forall. intros y [_ Hy]%list_elem_of_filter. by eapply Forall_forall in Hx.
Qed.

Lemma filter_all {A} (P : A -> Prop) `{!forall x, Decision (P x)} l : Forall P l -> filter P l = l.
Proof. induction 1 as [|x l Hx _ IH]; [done|]. by rewrite filter_cons_True, IH. Qed.

Lemma elem_of_concat {A} (x : A) parts : x ∈ concat parts <-> exists l, l ∈ parts /\ x ∈ l.
Proof.
  rewrite list_elem_of_In, in_concat. split; intros (l & ? & ?); exists l; by rewrite ?list_elem_of_In in *.
Qed.

(** A sorted part of a sorted list, cut where the list is cut. *)
Lemma sorted_part (whole part : list bytes) n : sorted bytes_cmp whole -> NoDup whole -> sorted bytes_cmp part -> NoDup part ->
  (forall x, x ∈ part -> x ∈ whole) ->
  part = filter (fun x => x ∈ part) (take n whole) ++ filter (fun x => x ∈ part) (drop n whole).
Proof.
  intros Hw Hnw Hp Hnp Hin. rewrite <- filter_app, take_drop. apply sorted_keys_ext; [done|by apply sorted_filter_keys|done|by apply NoDup_filter|].
  intros x. rewrite list_elem_of_filter. naive_solver.
Qed.

Lemma take_part (whole part : list bytes) n x : sorted bytes_cmp whole -> NoDup whole -> sorted bytes_cmp part -> NoDup part ->
  (forall x, x ∈ part -> x ∈ whole) -> x ∈ take n whole -> x ∈ part -> x ∈ take n part.
Proof.
  intros Hw Hnw Hp Hnp Hin Hx Hxp. rewrite (sorted_part whole part n) by done. rewrite take_app, elem_of_app. left.
  rewrite take_ge; [by apply list_elem_of_filter|]. etrans; [apply length_filter|]. rewrite length_take. lia.
Qed.

(** A part that has the first elements of the whole begins with them. *)
Lemma part_begins (whole part : list bytes) n : sorted bytes_cmp whole -> NoDup whole -> sorted bytes_cmp part -> NoDup part ->
  (forall x, x ∈ part -> x ∈ whole) -> (forall x, x ∈ take n whole -> x ∈ part) -> take n part = take n whole.
Proof.
  intros Hw Hnw Hp Hnp Hin Hfirst. rewrite (sorted_part whole part n) by done.
  assert (filter (fun x => x ∈ part) (take n whole) = take n whole) as ->.
  { apply filter_all. by apply Forall_forall. }
  destruct (decide (n <= length whole)%nat).
  - rewrite take_app_le; [by rewrite take_take, Nat.min_id|]. rewrite length_take. lia.
  - rewrite (drop_ge whole n), filter_nil, app_nil_r, take_take, Nat.min_id by lia. done.
Qed.

Lemma NoDup_concat_map {A B} (f : A -> list B) (l : list A) : NoDup l -> (forall a, NoDup (f a)) ->
  (forall a a' x, a ∈ l -> a' ∈ l -> x ∈ f a -> x ∈ f a' -> a = a') -> NoDup (concat (map f l)).
Proof.
  intros Hl Hf. induction Hl as [|a l Ha _ IH]; intros Hd; [constructor|]. cbn [map concat]. apply NoDup_app. split_and!; [done| |].
  - intros x Hx (l' & Hl' & Hx')%elem_of_concat. apply list_elem_of_In, in_map_iff in Hl' as (a' & <- & Ha'%list_elem_of_In).
    apply Ha. rewrite (Hd a a' x); [done|by left|by right|done|done].
  - apply IH. intros a1 a2 x H1 H2. apply Hd; by right.
Qed.

(** Merging the first [n] of each of some lists gives the first [n] of their union. *)
Lemma merge_takes (whole : list bytes) (parts : list (list bytes)) n : sorted bytes_cmp whole -> NoDup whole ->
  Forall (sorted bytes_cmp) parts -> NoDup (concat parts) -> (forall x, x ∈ whole <-> x ∈ concat parts) ->
  take n (sort_by bytes_cmp (concat (map (take n) parts))) = take n whole.
Proof.
  intros Hw Hnw Hs Hnd Hin. pose proof (sort_by_perm bytes_cmp (concat (map (take n) parts))) as Hp.
  assert (sublist (concat (map (take n) parts)) (concat parts)) as Hsub.
  { clear. induction parts as [|l parts IH]; [done|]. cbn [map concat]. apply sublist_app; [apply sublist_take|exact IH]. }
  apply part_begins; [done|done|by apply sort_by_sorted, _| | |].
  - rewrite Hp. by eapply sublist_NoDup.
  - intros x Hx. rewrite Hp in Hx. apply Hin. by eapply elem_of_sublist.
  - intros x Hx. rewrite Hp. pose proof (elem_of_sublist _ _ _ Hx (sublist_take _ n)) as Hxw. apply Hin, elem_of_concat in Hxw as (l & Hl & Hxl).
    apply elem_of_concat. exists (take n l). split; [by apply list_elem_of_In, in_map, list_elem_of_In|].
    apply (take_part whole l n x); [done|done|by eapply Forall_forall in Hs| | |done|done].
    + apply list_elem_of_split in Hl as (l1 & l2 & ->). rewrite concat_app in Hnd. cbn [concat] in Hnd.
      by apply NoDup_app in Hnd as (_ & _ & (? & _)%NoDup_app).
    + intros y Hy. apply Hin, elem_of_concat. by exists l.
Qed.

(** The keys of a map, in order. *)
Definition sorted_keys {A} (m : gmap bytes A) : list bytes := sort_by bytes_cmp (map_to_list m).*1.

Lemma sorted_keys_of {A} (m : gmap bytes A) ks : StoreFacts.keys_of m ks -> ks = sorted_keys m.
Proof.
  intros [Hs Hn Hd]. apply sorted_keys_unique; [done|apply sort_by_sorted, _|]. unfold sorted_keys. rewrite (sort_by_perm bytes_cmp).
  apply NoDup_Permutation; [done|apply NoDup_fst_map_to_list|]. intros k. rewrite Hd, list_elem_of_fmap. split.
  - intros [a Ha]. exists (k, a). split; [done|by apply elem_of_map_to_list].
  - intros ([k' a] & -> & Ha%elem_of_map_to_list). by exists a.
Qed.

Lemma page_keys_in o ks key : key ∈ StoreFacts.page_keys o ks -> key ∈ ks /\ in_bounds bytes_cmp o key = true.
Proof.
  unfold StoreFacts.page_keys, OrdIndex.page. intros Hin.
  pose proof (elem_of_sublist _ _ _ (elem_of_sublist _ _ _ Hin (sublist_take _ _)) (sublist_drop _ _)) as Hin2.
  destruct (reverse o); [rewrite <- Permutation_rev in Hin2|];
    by apply list_elem_of_filter in Hin2 as [??].
Qed.

(** ** Rows of keys that all have one *)

Section rows.
Context {A : Type} (row : bytes -> option A).

Lemma take_rows n keys : (forall k, k ∈ keys -> is_Some (row k)) -> take n (omap row keys) = omap row (take n keys).
Proof.
  revert n. induction keys as [|k keys IH]; intros n Hk; [by destruct n|]. destruct n as [|n]; [done|].
  destruct (Hk k ltac:(by left)) as [d Hd]. cbn [take omap list_omap]. rewrite Hd. cbn [take]. f_equal. apply IH. intros k' ?. apply Hk. by right.
Qed.

Lemma rev_rows keys : rev (omap row keys) = omap row (rev keys).
Proof.
  induction keys as [|k keys IH]; [done|]. cbn [rev]. rewrite omap_app, <- IH. cbn [omap list_omap]. destruct (row k); [done|by rewrite app_nil_r].
Qed.

Lemma sort_rows (key : A -> bytes) keys : (forall k, k ∈ keys -> exists d, row k = Some d /\ key d = k) ->
  sort_by (by_key key) (omap row keys) = omap row (sort_by bytes_cmp keys).
Proof.
  induction keys as [|k keys IH]; intros Hk; [done|]. destruct (Hk k ltac:(by left)) as (d & Hd & Hdk).
  assert (forall l, (forall k', k' ∈ l -> exists d', row k' = Some d' /\ key d' = k') ->
    insert_by (by_key key) d (omap row l) = omap row (insert_by bytes_cmp k l)) as Hins.
  { induction l as [|k' l IHl]; intros Hl; [cbn [insert_by omap list_omap]; by rewrite Hd|].
    destruct (Hl k' ltac:(by left)) as (d' & Hd' & Hdk'). cbn [insert_by omap list_omap]. rewrite Hd'. cbn [insert_by].
    unfold by_key at 1. rewrite Hdk, Hdk'. destruct (bytes_cmp k k'); cbn [omap list_omap]; rewrite Hd', ?Hd; [done..|].
    f_equal. apply IHl. intros ? ?. apply Hl. by right. }
  cbn [omap list_omap]. rewrite Hd. unfold sort_by in *. cbn [foldr]. rewrite IH by (intros ? ?; apply Hk; by right). apply Hins.
  intros k' Hk'. apply Hk. right. by rewrite <- (sort_by_perm bytes_cmp keys).
Qed.
End rows.

Lemma omap_concat {A B} (f : A -> option B) (parts : list (list A)) : omap f (concat parts) = concat (map (omap f) parts).
Proof. induction parts as [|l parts IH]; [done|]. cbn [concat map]. by rewrite omap_app, IH. Qed.

Lemma omap_agree {A B} (f g : A -> option B) (l : list A) : (forall x, x ∈ l -> f x = g x) -> omap f l = omap g l.
Proof.
  induction l as [|x l IH]; intros Hfg; [done|]. cbn [omap list_omap]. rewrite (Hfg x) by by left. rewrite IH; [done|].
  intros y Hy. apply Hfg. by right.
Qed.

(** ** A scan of one database whose records last *)

Section scans.
Context {Number V : Type} `{!Platform Number} `{Crc32fast} `{!InUse}.
Context {KT NT OT TT : Type}.
Context `{!OrderedIndex KT bytes bytes} `{!OrderedIndex NT f64 bytes}.
Context `{!OrderedIndex OT CompoundIndex.OrderValue bytes} `{!OrderedIndex TT Z bytes}.
Context (krepr : KT -> list (bytes * bytes) -> Prop) `{!OrderedIndexLaws bytes_cmp bytes_cmp krepr}.
Context (nrepr : NT -> list (f64 * bytes) -> Prop) `{!OrderedIndexLaws compare_number bytes_cmp nrepr}.
Context (orepr : OT -> list (CompoundIndex.OrderValue * bytes) -> Prop)
  `{!OrderedIndexLaws CompoundIndex.compare_order bytes_cmp orepr}.
Context (trepr : TT -> list (Z * bytes) -> Prop) `{!OrderedIndexLaws Z.compare bytes_cmp trepr}.
Context (codec : ValueCodec Number V).
Abbreviation Db := (@MiniDb.MiniDb KT NT OT TT).
Abbreviation M := (@MiniDb.M KT NT OT TT).
Abbreviation Cluster := (@Cluster.Cluster KT NT OT TT).
Abbreviation ClusterIo := (@Cluster.ClusterIo KT NT OT TT).
Abbreviation Reader := (option (Store.ValueLoc -> result Store.StoreError bytes)).
Abbreviation db_ok := (MiniDbFacts.db_ok krepr nrepr orepr trepr codec).
#[local] Existing Instance MiniDb.M_ret.
#[local] Existing Instance MiniDb.M_bind.
#[local] Existing Instance Cluster.CM_ret.
#[local] Existing Instance Cluster.CM_bind.
Implicit Types (db one : Db) (self : Cluster) (io : ClusterIo) (read : Reader).

(** The document of a record, if its value is read and decoded. *)
Definition row read (key : bytes) (r : Store.StoreRecord) : option (DocumentRecord V) :=
  match Store.entry_of read key r with
  | Ok entry =>
      match decode codec (Store.entry_value entry) with
      | Ok value => Some (mk_DocumentRecord (display_key key) value (Store.entry_datetimes entry))
      | Err _ => None
      end
  | Err _ => None
  end.

Definition document read db (key : bytes) : option (DocumentRecord V) := Store.records (store db) !! key ≫= row read key.

(** No record expires, and every record can be read. *)
Definition lasting read db : Prop := forall key r, Store.records (store db) !! key = Some r ->
  Store.expire_at r = 0 /\ is_Some (row read key r).

Lemma scan_documents read db (clock : nat -> Z) keys : lasting read db -> (forall key, key ∈ keys -> is_Some (Store.records (store db) !! key)) ->
  forall i, exists entries, Store.collect read (StoreFacts.scan_hits clock i keys (Store.records (store db))) = Ok entries /\
    decode_entries codec entries = Ok (omap (document read db) keys).
Proof.
  intros Hl. induction keys as [|key keys IH]; intros Hk i; [by exists []|].
  destruct (Hk key ltac:(by left)) as [r Hr]. destruct (Hl key r Hr) as (He & d & Hd).
  destruct (IH ltac:(intros; apply Hk; by right) (S i)) as (entries & Hc & Hdec).
  cbn [StoreFacts.scan_hits]. rewrite Hr. assert (Store.is_live (clock i) r = true) as -> by (unfold Store.is_live; by rewrite He).
  cbn [Store.collect omap list_omap]. unfold document at 1. rewrite Hr. cbn [mbind option_bind]. rewrite Hd. unfold row in Hd.
  destruct (Store.entry_of read key r) as [entry|] eqn:Ee; [|done]. simpl_bind. rewrite Hc. simpl_bind. eexists. split; [done|].
  cbn [decode_entries]. destruct (decode codec (Store.entry_value entry)) as [value|]; [|done]. cbn [lift]. simpl_bind. rewrite Hdec. simpl_bind.
  unfold Store.entry_of in Ee. destruct (Store.materialize _ _); [|done]. cbn [mbind result_bind] in Ee. injection Ee as <-. by injection Hd as <-.
Qed.

Lemma scan_rows n read db (clock : nat -> Z) range : db_ok read n db -> 0 <= n -> closed db = false -> lasting read db ->
  runs (MiniDbRead.scan codec read clock range) db (fun r _ =>
    r = Ok (omap (document read db) (StoreFacts.page_keys range (sorted_keys (Store.records (store db)))))).
Proof.
  intros Hok Hn Hc Hl. pose proof Hok as (_ & _ & Hw & _). unfold MiniDbRead.scan. apply runs_bind. unfold ensure_open, runs at 1. rewrite Hc.
  eexists _, db. split; [done|]. cbn beta iota.
  destruct (StoreExpiry.scan_leaves krepr dt_json read clock range (store db) Hw) as (r & s1 & E & Hleaves).
  apply runs_bind. eapply runs_store; [exact E|]. cbn beta iota. destruct Hw as [ks Hs].
  destruct (StoreFacts.scan_spec krepr dt_json read (store db) ks clock range Hs) as (s2 & _ & E2 & _).
  rewrite E in E2. injection E2 as -> <-. pose proof (StoreFacts.ok_keys _ _ _ _ Hs) as Hks.
  destruct (scan_documents read db clock (StoreFacts.page_keys range ks) Hl) with (i := 0%nat) as (entries & Hcol & Hdec).
  { intros key [Hin _]%page_keys_in. by apply (StoreFacts.keys_dom _ _ Hks). }
  rewrite Hcol. apply runs_bind, runs_of_result. cbn [lift].
  apply runs_bind. apply (drain_runs krepr nrepr orepr trepr codec read n); [|done|].
  { apply (db_leaves krepr nrepr orepr trepr codec read n db); [done|exact Hleaves]. }
  intros d2 _. apply runs_of_result. by rewrite Hdec, (sorted_keys_of _ _ Hks).
Qed.

(** ** Asking every shard *)

Context (read_value : Z -> Reader) (meta : ClusterMeta).

Lemma from_shards_ok {A} io (rows : Z -> M (list A)) (out : Z -> list A) l : NoDup l -> Forall (fun s => 0 <= s) l -> forall self,
  cluster_closed self = false ->
  Forall (fun s => get_reader io s = Ok tt /\ exists db, shards self !! Z.to_nat s = Some db /\ runs (rows s) db (fun r _ => r = Ok (out s))) l ->
  exists self', from_shards io rows l self = Some (Ok (concat (map out l)), self').
Proof.
  induction 1 as [|s l Hs Hn IH]; intros Hpos self Hc Hall; [by eexists|]. apply Forall_cons in Hpos as [Hpos Hpos'].
  apply Forall_cons in Hall as [(Hr & db & Hdb & r & db' & Hrun & ->) Hall].
  set (self1 := mk_Cluster (<[Z.to_nat s := db']> (shards self)) (registry self) (cluster_closed self)).
  assert (on_shard s (rows s) self = Some (Ok (out s), self1)) as Hon.
  { unfold on_shard. rewrite Hdb. simpl_bind. by rewrite Hrun. }
  destruct (IH Hpos' self1 Hc) as (self' & Hrest).
  { apply Forall_forall. intros s' Hs'. rewrite Forall_forall in Hall, Hpos'. destruct (Hall s' Hs') as (? & db2 & Hdb2 & ?).
    split; [done|]. exists db2. split; [|done]. cbn [self1 shards]. rewrite list_lookup_insert_ne; [done|].
    specialize (Hpos' s' Hs'). intros E. apply Hs. by replace s with s' by lia. }
  exists self'. cbn [from_shards]. unfold reader, ensure_cluster_open, Cluster.of_result. unfold mbind, CM_bind, mbind, option_bind.
  rewrite Hc, Hr, Hon, Hrest. done.
Qed.

(** ** The shards of one database *)

(** Clusters and a database with the same documents: each in the shard of its key. *)
Definition same_documents self read_one one : Prop := forall key s, shard_for key (shard_count meta) = Ok s ->
  document read_one one key = db ← shards self !! Z.to_nat s; document (read_value s) db key.

(** A cluster whose shards are sound, open and can be read. *)
Definition sound self io : Prop :=
  0 < shard_count meta /\ routed meta self /\ cluster_closed self = false /\
  forall (i : nat) db, shards self !! i = Some db ->
    db_ok (read_value (Z.of_nat i)) 0 db /\ closed db = false /\ lasting (read_value (Z.of_nat i)) db /\ get_reader io (Z.of_nat i) = Ok tt.

(** What the cluster asks of a shard, as a range. *)
Definition shard_range (o : ScanOptions) : RangeOptions bytes :=
  let per_shard := if s_reverse o then None else s_limit o in
  match s_prefix o with
  | Some prefix => mk_RangeOptions (Some prefix) None None (Some (prefix ++ Store.UFFFF)) 0 (Some (default U64_MAX per_shard)) false
  | None => mk_RangeOptions (s_gte o) (s_gt o) (s_lte o) (s_lt o) 0 per_shard false
  end.

(** The same scan of one database. *)
Definition one_scan read_one (clock : nat -> Z) (o : ScanOptions) : M (list (DocumentRecord V)) :=
  match s_prefix o with
  | Some prefix => MiniDbRead.prefix codec read_one clock prefix (default U64_MAX (s_limit o))
  | None => MiniDbRead.scan codec read_one clock (mk_RangeOptions (s_gte o) (s_gt o) (s_lte o) (s_lt o) 0 (s_limit o) (s_reverse o))
  end.

Definition shard_keys self (s : Z) : list bytes := default [] ((fun db => sorted_keys (Store.records (store db))) <$> shards self !! Z.to_nat s).

Lemma shard_ids_spec self s : routed meta self -> s ∈ shard_ids meta <-> 0 <= s /\ is_Some (shards self !! Z.to_nat s).
Proof.
  intros [Hl _]. unfold shard_ids. rewrite lookup_lt_is_Some, Hl. rewrite list_elem_of_In, in_map_iff. split.
  - intros (x & <- & Hx%in_seq). lia.
  - intros [? ?]. exists (Z.to_nat s). rewrite in_seq. lia.
Qed.

Lemma shard_ids_NoDup : NoDup (shard_ids meta).
Proof. unfold shard_ids. apply (NoDup_fmap_2 Z.of_nat). apply NoDup_seq. Qed.

Lemma sorted_keys_spec {A} (m : gmap bytes A) :
  sorted bytes_cmp (sorted_keys m) /\ NoDup (sorted_keys m) /\ forall key, key ∈ sorted_keys m <-> is_Some (m !! key).
Proof.
  unfold sorted_keys. split; [apply sort_by_sorted, _|]. split.
  - rewrite (sort_by_perm bytes_cmp). apply NoDup_fst_map_to_list.
  - intros key. rewrite (sort_by_perm bytes_cmp), list_elem_of_fmap. split.
    + intros ([k a] & -> & Ha%elem_of_map_to_list). by exists a.
    + intros [a Ha]. exists (key, a). split; [done|by apply elem_of_map_to_list].
Qed.

Lemma shard_keys_spec self s key : key ∈ shard_keys self s <-> exists db, shards self !! Z.to_nat s = Some db /\ is_Some (Store.records (store db) !! key).
Proof.
  unfold shard_keys. destruct (shards self !! Z.to_nat s) as [db|]; cbn [fmap option_fmap option_map default].
  - destruct (sorted_keys_spec (Store.records (store db))) as (_ & _ & ->). naive_solver.
  - split; [by intros ?%elem_of_nil|naive_solver].
Qed.

Section merged.
Context (self : Cluster) (io : ClusterIo) (read_one : Reader) (one : Db).
Hypothesis Hsound : sound self io.
Hypothesis Hlast : lasting read_one one.
Hypothesis Hsame : same_documents self read_one one.

(** The keys of one database are those of the shards. *)
Lemma keys_of_shards key : is_Some (Store.records (store one) !! key) <-> exists s, s ∈ shard_ids meta /\ key ∈ shard_keys self s.
Proof.
  destruct Hsound as (Hpos & Hr & _ & Hall). destruct (shard_for_ok key _ Hpos) as (s & Hs & Hrange). pose proof (Hsame key s Hs) as Hdoc.
  assert (forall db, shards self !! Z.to_nat s = Some db -> lasting (read_value s) db) as Hl.
  { intros db Hdb. destruct (Hall _ _ Hdb) as (_ & _ & Hl & _). by rewrite Z2Nat.id in Hl by lia. }
  split.
  - intros [r Hrec]. destruct (Hlast key r Hrec) as (_ & d & Hd). unfold document at 1 in Hdoc. rewrite Hrec in Hdoc. cbn [mbind option_bind] in Hdoc.
    rewrite Hd in Hdoc. destruct (shards self !! Z.to_nat s) as [db|] eqn:Hdb; [|done]. cbn [mbind option_bind] in Hdoc. unfold document in Hdoc.
    exists s. split; [apply (shard_ids_spec self); [done|]; split; [lia|by eexists]|]. apply shard_keys_spec. exists db. split; [done|].
    destruct (Store.records (store db) !! key); [done|]. by cbn in Hdoc.
  - intros (s' & [Hpos' _]%(shard_ids_spec self) & (db & Hdb & r & Hrec)%shard_keys_spec); [|done].
    pose proof (proj2 Hr _ _ key Hdb (ex_intro _ r Hrec)) as Hs'. rewrite Z2Nat.id in Hs' by lia. assert (s' = s) as -> by congruence.
    destruct (Hl db Hdb key r Hrec) as (_ & d & Hd). rewrite Hdb in Hdoc. cbn [mbind option_bind] in Hdoc. unfold document in Hdoc. rewrite Hrec in Hdoc.
    cbn [mbind option_bind] in Hdoc. rewrite Hd in Hdoc. destruct (Store.records (store one) !! key); [by eexists|]. by cbn in Hdoc.
Qed.

Lemma shard_key_doc s key : 0 <= s -> key ∈ shard_keys self s ->
  document read_one one key = db ← shards self !! Z.to_nat s; document (read_value s) db key.
Proof.
  intros Hs (db & Hdb & Hrec)%shard_keys_spec. apply Hsame. destruct Hsound as (_ & Hr & _).
  pose proof (proj2 Hr _ _ key Hdb Hrec) as E. by rewrite Z2Nat.id in E by lia.
Qed.

(** The keys in a range, merged from the shards. *)
Lemma merged_keys (sel : bytes -> Prop) `{!forall x, Decision (sel x)} n :
  let whole := filter sel (sorted_keys (Store.records (store one))) in
  let merged := sort_by bytes_cmp (concat (map (fun s => take n (filter sel (shard_keys self s))) (shard_ids meta))) in
  take n merged = take n whole /\ ((length whole <= n)%nat -> merged = whole).
Proof.
  intros whole merged. destruct (sorted_keys_spec (Store.records (store one))) as (Hs & Hnd & Hin).
  set (parts := map (fun s => filter sel (shard_keys self s)) (shard_ids meta)).
  assert (merged = sort_by bytes_cmp (concat (map (take n) parts))) as Em by (unfold merged, parts; by rewrite map_map).
  assert (forall s, sorted bytes_cmp (shard_keys self s) /\ NoDup (shard_keys self s)) as Hpart.
  { intros s. unfold shard_keys. destruct (shards self !! Z.to_nat s); [|by split; constructor]. cbn.
    by destruct (sorted_keys_spec (Store.records (store m))) as (? & ? & _). }
  assert (NoDup (concat parts)) as Hndp.
  { apply NoDup_concat_map; [apply shard_ids_NoDup|intros s; apply NoDup_filter, Hpart|].
    intros s s' x Hi1 Hi2 [_ (db & Hdb & Hx)%shard_keys_spec]%list_elem_of_filter [_ (db' & Hdb' & Hx')%shard_keys_spec]%list_elem_of_filter.
    destruct Hsound as (_ & Hr & _). apply (shard_ids_spec self) in Hi1 as [? _], Hi2 as [? _]; [|done..].
    pose proof (proj2 Hr _ _ x Hdb Hx). pose proof (proj2 Hr _ _ x Hdb' Hx'). rewrite !Z2Nat.id in * by lia. congruence. }
  assert (forall x, x ∈ whole <-> x ∈ concat parts) as Hmem.
  { intros x. unfold whole, parts. rewrite list_elem_of_filter, Hin, keys_of_shards, elem_of_concat. split.
    - intros (Hsel & s & Hids & Hk). exists (filter sel (shard_keys self s)). split; [|by apply list_elem_of_filter].
      apply list_elem_of_In, in_map_iff. exists s. by rewrite <- list_elem_of_In.
    - intros (l & Hl%list_elem_of_In & Hx). apply in_map_iff in Hl as (s & <- & Hids%list_elem_of_In).
      apply list_elem_of_filter in Hx as [Hsel Hk]. split; [done|]. by exists s. }
  assert (take n merged = take n whole) as Ht.
  { rewrite Em. apply merge_takes; [by apply sorted_filter_keys|by apply NoDup_filter| |done|done].
    apply Forall_forall. intros l (s & <- & _)%list_elem_of_In%in_map_iff. by apply sorted_filter_keys, Hpart. }
  split; [done|]. intros Hlen. rewrite <- (take_ge whole n Hlen), <- Ht, take_ge; [done|].
  rewrite Em, (Permutation_length (sort_by_perm bytes_cmp _)). etrans; [|exact Hlen].
  rewrite (Permutation_length (NoDup_Permutation whole (concat parts) (NoDup_filter _ _ Hnd) Hndp Hmem)). 
  apply sublist_length. clear. induction parts as [|l parts IH]; [done|]. cbn [map concat]. apply sublist_app; [apply sublist_take|exact IH].
Qed.

Context (o : ScanOptions).
Definition selected (key : bytes) : Prop := in_bounds bytes_cmp (shard_range o) key = true.
Definition bound : nat := Z.to_nat (default U64_MAX (if s_reverse o then None else s_limit o)).
#[local] Instance selected_dec key : Decision (selected key) := decide (in_bounds bytes_cmp (shard_range o) key = true).

Lemma shard_page keys : StoreFacts.page_keys (shard_range o) keys = take bound (filter selected keys).
Proof.
  assert (reverse (shard_range o) = false /\ OrdIndex.offset (shard_range o) = 0 /\
    default U64_MAX (OrdIndex.count (shard_range o)) = default U64_MAX (if s_reverse o then None else s_limit o)) as (Hr & Ho & Hc).
  { unfold shard_range. by destruct (s_prefix o). }
  unfold StoreFacts.page_keys, OrdIndex.page. rewrite Hr, Ho, Hc. change (Z.to_nat 0) with 0%nat. rewrite drop_0. done.
Qed.

(** What the shards answer, one after another. *)
Lemma asked : exists self', from_shards io (fun s =>
    match s_prefix o with
    | Some prefix => MiniDbRead.prefix codec (read_value s) (clock io s) prefix (default U64_MAX (if s_reverse o then None else s_limit o))
    | None =>
        MiniDbRead.scan codec (read_value s) (clock io s)
          (mk_RangeOptions (s_gte o) (s_gt o) (s_lte o) (s_lt o) 0 (if s_reverse o then None else s_limit o) false)
    end) (shard_ids meta) self =
  Some (Ok (omap (document read_one one) (concat (map (fun s => take bound (filter selected (shard_keys self s))) (shard_ids meta)))), self').
Proof.
  destruct Hsound as (Hpos & Hr & Hc & Hall).
  destruct (from_shards_ok io (fun s => MiniDbRead.scan codec (read_value s) (clock io s) (shard_range o))
    (fun s => omap (document read_one one) (take bound (filter selected (shard_keys self s)))) (shard_ids meta) shard_ids_NoDup) with (self := self)
    as (self' & E); [|done| |].
  - apply Forall_forall. by intros s [? _]%(shard_ids_spec self).
  - apply Forall_forall. intros s [Hs [db Hdb]]%(shard_ids_spec self); [|done]. destruct (Hall _ db Hdb) as (Hok & Hcl & Hl & Hread).
    rewrite Z2Nat.id in * by done. split; [done|]. exists db. split; [done|].
    eapply runs_mono; [by apply (scan_rows 0)|]. intros r db' ->. f_equal. rewrite shard_page. assert (shard_keys self s = sorted_keys (Store.records (store db))) as ->
      by (unfold shard_keys; by rewrite Hdb).
    apply omap_agree. intros key Hk. rewrite (shard_key_doc s key Hs), Hdb; [done|]. unfold shard_keys. rewrite Hdb. cbn.
    by apply elem_of_sublist with (2 := sublist_take _ _), list_elem_of_filter in Hk as [_ ?].
  - exists self'. rewrite omap_concat, map_map. rewrite <- E. unfold shard_range. by destruct (s_prefix o).
Qed.

Hypothesis Hutf8 : forall key, is_Some (Store.records (store one) !! key) -> Utf8.is_utf8 key = true.

Lemma document_key key : is_Some (Store.records (store one) !! key) -> exists d, document read_one one key = Some d /\ doc_key d = key.
Proof.
  intros [r Hr]. destruct (Hlast key r Hr) as (_ & d & Hd). exists d. unfold document. rewrite Hr. split; [exact Hd|].
  unfold row in Hd. destruct (Store.entry_of _ _ _) as [entry|]; [|done]. destruct (decode _ _); [|done]. injection Hd as <-.
  cbn [doc_key]. apply Utf8.from_utf8_lossy_id, Hutf8. by eexists.
Qed.

(** What the cluster makes of them. *)
Lemma sorted_answers (whole := filter selected (sorted_keys (Store.records (store one)))) : (length whole <= Z.to_nat U64_MAX)%nat ->
  let all := sort_by (by_key doc_key) (omap (document read_one one)
    (concat (map (fun s => take bound (filter selected (shard_keys self s))) (shard_ids meta)))) in
  truncate (s_limit o) (if s_reverse o then rev all else all) =
  omap (document read_one one) (take (Z.to_nat (default U64_MAX (s_limit o))) (if s_reverse o then rev whole else whole)).
Proof.
  intros Hlen. set (keys := concat _).
  assert (forall key, key ∈ keys -> is_Some (Store.records (store one) !! key)) as Hk.
  { intros key (l & (s & <- & Hs%list_elem_of_In)%list_elem_of_In%in_map_iff & Hin)%elem_of_concat. apply keys_of_shards. exists s.
    split; [done|]. by apply elem_of_sublist with (2 := sublist_take _ _), list_elem_of_filter in Hin as [_ ?]. }
  rewrite sort_rows by (intros key Hin; by apply document_key, Hk).
  destruct (merged_keys selected bound) as [Ht Hw]. fold whole in Ht, Hw. fold keys in Ht, Hw. cbn zeta.
  assert (forall key, key ∈ sort_by bytes_cmp keys -> is_Some (document read_one one key)) as Hdoc.
  { intros key Hin. rewrite (sort_by_perm bytes_cmp) in Hin. destruct (document_key key (Hk key Hin)) as (d & -> & _). by eexists. }
  unfold bound in Ht, Hw. destruct (s_reverse o).
  - rewrite rev_rows, Hw by done. unfold truncate. destruct (s_limit o) as [limit|]; cbn [default].
    + apply take_rows. intros key Hin. apply Hdoc. rewrite Hw by done. by apply list_elem_of_In, in_rev, list_elem_of_In.
    + rewrite take_ge; [done|]. by rewrite length_rev.
  - unfold truncate. destruct (s_limit o) as [limit|]; cbn [default from_option id] in *.
    + rewrite take_rows by done. by rewrite Ht.
    + rewrite Hw by done. by rewrite take_ge.
Qed.

(** A range asked in reverse: with one bound on each side it is the same range. *)
Definition reversible : Prop := s_reverse o = true ->
  s_prefix o = None /\ (s_gte o = None \/ s_gt o = None) /\ (s_lte o = None \/ s_lt o = None).

Lemma one_page keys : reversible ->
  exists range, (forall clock, one_scan read_one clock o = MiniDbRead.scan codec read_one clock range) /\
    StoreFacts.page_keys range keys = take (Z.to_nat (default U64_MAX (s_limit o)))
      (if s_reverse o then rev (filter selected keys) else filter selected keys).
Proof.
  unfold reversible. intros Hrev. unfold one_scan. destruct (s_prefix o) as [prefix|] eqn:Hp.
  - exists (mk_RangeOptions (Some prefix) None None (Some (prefix ++ Store.UFFFF)) 0 (Some (default U64_MAX (s_limit o))) false).
    split; [done|]. unfold StoreFacts.page_keys, OrdIndex.page. cbn [reverse OrdIndex.offset OrdIndex.count default].
    change (Z.to_nat 0) with 0%nat. rewrite drop_0. destruct (s_reverse o); [destruct (Hrev eq_refl); congruence|].
    f_equal. apply list_filter_iff. intros key. unfold selected, shard_range. by rewrite Hp.
  - eexists. split; [done|]. unfold StoreFacts.page_keys, OrdIndex.page. cbn [reverse OrdIndex.offset OrdIndex.count].
    change (Z.to_nat 0) with 0%nat. rewrite drop_0. f_equal.
    assert (forall key, in_bounds bytes_cmp (mk_RangeOptions (s_gte o) (s_gt o) (s_lte o) (s_lt o) 0 (s_limit o) (s_reverse o)) key = true <-> selected key) as Hsel.
    { intros key. unfold selected, shard_range. rewrite Hp. destruct (s_reverse o); [|done]. destruct (Hrev eq_refl) as (_ & Hg & Hl).
      unfold in_bounds, from_start, from_end, in_upper, in_lower. cbn [reverse gte gt lte lt].
      destruct Hg as [-> | ->], Hl as [-> | ->]; cbn [bounded]; rewrite ?andb_true_r, ?andb_true_l; try done.
      all: destruct (s_gt o), (s_gte o), (s_lt o), (s_lte o); cbn [bounded]; rewrite ?andb_true_r, ?andb_true_l; try done; by rewrite andb_comm. }
    destruct (s_reverse o); [f_equal|]; by apply list_filter_iff.
Qed.
End merged.

(** C8: A scan of a cluster, by bounds or by prefix, with a limit or in reverse, answers
    what the same scan of one database with all its documents answers: the shards are
    asked for no more than the limit, and no row is missing or out of order.  The
    records do not expire and can all be read and decoded, the keys are text, a reverse
    range has at most one bound on each side, and no call to a shard fails
    ([sound]). *)
Theorem cluster_scan_is_one_scan self io read_one one (clock : nat -> Z) o :
  sound self io -> db_ok read_one 0 one -> closed one = false -> lasting read_one one -> same_documents self read_one one ->
  (forall key, is_Some (Store.records (store one) !! key) -> Utf8.is_utf8 key = true) -> reversible o ->
  exists rows self' one', Cluster.scan codec read_value meta io o self = Some (Ok rows, self') /\
    one_scan read_one clock o one = Some (Ok rows, one').
Proof.
  intros Hsound Hok Hc Hlast Hsame Hutf8 Hrev. destruct (asked self io read_one one Hsound Hsame o) as (self' & Hasked).
  destruct (one_page read_one o (sorted_keys (Store.records (store one))) Hrev) as (range & Hone & Hpage).
  destruct (scan_rows 0 read_one one clock range Hok ltac:(done) Hc Hlast) as (r & one' & Hrun & ->). rewrite Hpage in Hrun.
  eexists _, self', one'. split; [|by rewrite Hone]. unfold Cluster.scan. unfold mbind at 1, CM_bind. rewrite Hasked. simpl_bind.
  unfold mret, CM_ret. do 3 f_equal. apply (sorted_answers self io); try done.
  etrans; [apply length_filter|]. unfold sorted_keys. rewrite (Permutation_length (sort_by_perm bytes_cmp _)), length_fmap, length_map_to_list.
  destruct Hok as (docs & dts & _ & _ & _ & _ & Hsize). unfold U64_MAX. lia.
Qed.
End scans.
End ClusterScan.
