(* ===== verification/ClusterExamples.v ===== *)
(** * The cluster: an example

    Two shards, each a database as in [FacadeExamples]; the claims about routing and
    about the cluster hold of their runs. *)

From Corelib Require Import SpecFloat.
From S2P Require Import Prelude.
From S2P Require Import Crc.
From S2P Require Import OrdIndex.
From S2P Require Import Store.
From S2P Require Import StoreFacts.
From S2P Require Import Wal.
From S2P Require Import Recovery.
From S2P Require Import Query.
From S2P Require Import DtIndex.
From S2P Require Import Float.
From S2P Require Import IndexManagerFacts.
From S2P Require Import CompoundIndexFacts.
From S2P Require Import MiniDb.
From S2P Require Import MiniDbRead.
From S2P Require Import ReadFacts.
From S2P Require Import UpdateFacts.
From S2P Require Import FacadeFacts.
From S2P Require Import FacadeExamples.
From S2P Require Import Router.
From S2P Require Import Cluster.
From S2P Require Import KeyFacts.
From S2P Require Import ClusterFacts.
From S2P Require Import ClusterScan.
From S2P Require Import Postings.
Import OrdIndex MiniDb MiniDbRead FacadeFacts FacadeExamples Router Cluster ClusterFacts ClusterScan.
Import Crc.Additive StoreFacts IndexManagerFacts CompoundIndexFacts.

Module ClusterExamples.

#[local] Existing Instance FacadeExamples.platform.
#[local] Existing Instance FacadeExamples.time_index.
#[local] Existing Instance FacadeExamples.time_index_laws.
#[local] Existing Instance FacadeExamples.in_use.

(** ** Routing *)

Lemma operations_are_split_by_shard_witness : exists groups,
  group_operations 2 [InputDel (key "b"); InputDel (key "a"); InputSet (key "b") (key "red") SetOptions_default] = Ok groups /\
  group_at 1 groups = [InputDel (key "b"); InputSet (key "b") (key "red") SetOptions_default].
Proof.
  destruct (Router.operations_are_split_by_shard 2 [InputDel (key "b"); InputDel (key "a"); InputSet (key "b") (key "red") SetOptions_default])
    as (groups & E & _ & Hat & _); [reflexivity|].
  exists groups. split; [exact E|]. rewrite Hat. vm_compute. reflexivity.
Defined.

Definition two_shards : ClusterMeta := mk_ClusterMeta META_VERSION 2 "now" CustomName Wal.EverySecond.

Lemma open_agrees_witness : exists file, Router.open (Some 2) CustomName Wal.EverySecond "now" (Ok tt) (Ok tt) None = (Ok two_shards, file) /\
  forall now, Router.open None CustomName Wal.EverySecond now (Ok tt) (Ok tt) file = (Ok two_shards, file).
Proof.
  exists (Some (Some two_shards)). split; [reflexivity|]. intros now.
  destruct (Router.open_agrees (Some 2) CustomName Wal.EverySecond "now" (Ok tt) (Ok tt) None two_shards _ eq_refl) as (_ & _ & _ & _ & _ & _ & Hagain).
  destruct (Hagain None CustomName Wal.EverySecond now (Ok tt) (Ok tt) (Ok two_shards) (Some (Some two_shards))) as [-> _]; reflexivity.
Defined.

(** ** A cluster *)

Abbreviation ClusterT := (@Cluster.Cluster StoreFacts.KeyIndex NumberIndex OrderIndex DtIndex.TimeIndex).
Abbreviation IoT := (@Cluster.ClusterIo StoreFacts.KeyIndex NumberIndex OrderIndex DtIndex.TimeIndex).

Definition nothing : ClusterT := mk_Cluster [empty; empty] ClusterIndexRegistry_default false.
Definition reachable : IoT := {|
  get_writer := fun _ => Ok tt; get_reader := fun _ => Ok tt; invalidated := fun _ => Ok tt; load_registry := Ok tt; lock_registry := Ok tt;
  save_registry := Ok tt; shard_io := fun _ => good; shard_ios := fun _ _ => good; clock := fun _ _ => 0; keys_clock := fun _ _ => 0;
  persisted := fun _ _ => Ok tt; text_disk := fun _ _ => None; text_outcomes := fun _ _ => Postings.no_failures; compaction := fun _ => Ok tt;
|}.
Definition no_reader : Z -> option (Store.ValueLoc -> result Store.StoreError bytes) := fun _ => None.
Definition no_numbers : Float.f64 -> @Query.Value spec_float := fun _ => Query.Null.

Definition three : list (bytes * bytes) := [(key "a", key "red"); (key "b", key "blue"); (key "c", key "red")].
Definition filled : ClusterT :=
  match Cluster.mset codec in_memory no_reader no_numbers two_shards BestEffort false reachable three nothing with
  | Some (_, self) => self
  | None => nothing
  end.

Lemma reachable_ok : ClusterFacts.io_adds_none reachable.
Proof. intros shard. split; [|intros j]; intros self k Hk; left; exact Hk. Qed.

Lemma nothing_routed : routed two_shards nothing.
Proof.
  split; [reflexivity|]. intros [|[|i]] db k; cbn [nothing shards lookup list_lookup]; [intros [= <-]|intros [= <-]|done]; by intros [? ?].
Qed.

Lemma filled_step : cluster_step codec in_memory no_reader no_numbers two_shards BestEffort false nothing filled.
Proof. eapply (Step _ _ _ _ _ _ _ _ _ reachable _ _ (Ok tt)); [exact reachable_ok|apply (OpMset _ _ _ _ _ _ _ _ three)|vm_compute; reflexivity]. Qed.

Lemma keys_stay_in_their_shard_witness :
  exists db, shards filled !! 1%nat = Some db /\ held (key "b") db = Some (key "blue") /\ shard_for (key "b") 2 = Ok 1.
Proof.
  destruct (shards filled !! 1%nat) as [db|] eqn:E; [|vm_compute in E; discriminate]. exists db. split; [reflexivity|].
  assert (held (key "b") db = Some (key "blue")) as Hb.
  { assert ((db ← shards filled !! 1%nat; held (key "b") db) = Some (key "blue")) as C by (vm_compute; reflexivity). by rewrite E in C. }
  split; [exact Hb|].
  apply (keys_stay_in_their_shard codec in_memory no_reader no_numbers two_shards BestEffort false eq_refl nothing filled 1 db (key "b"));
    [exact nothing_routed|apply rtc_once, filled_step|exact E|].
  unfold held in Hb. destruct (Store.records (store db) !! key "b"); [by eexists|discriminate].
Defined.

(** ** A scan *)

Definition sets (entries : list (bytes * bytes)) : request (V := bytes) :=
  RequestBatch (map (fun kv => InputSet kv.1 kv.2 SetOptions_default) entries).
Definition one_with (entries : list (bytes * bytes)) : Db := left_by (run in_memory good (sets entries) empty).

(** What [sets] leaves is sound. *)
Lemma one_with_ok entries :
  Forall (fun kv => UpdateFacts.storable codec kv.2) entries -> Z.of_nat (length entries) < 2 ^ 16 ->
  run in_memory good (sets entries) empty = Some (Ok tt, one_with entries) -> ok 0 (one_with entries).
Proof.
  intros Hs Hl E. assert (request_ok codec in_memory None good (sets entries)) as Hq.
  { split; [|intros prepared _ Hd; discriminate Hd]. by apply Forall_fmap. }
  assert (cost (sets entries) <= 2 ^ 32) as Hc by (cbn [sets cost]; unfold zlen; rewrite length_map; lia).
  apply (ReadFacts.runs_inv _ _ _ _ _ (perform_ok key_index_repr number_repr order_repr time_repr codec in_memory None 0 good (fun _ => good)
    (sets entries) empty (empty_database_ok _ _ Hc) ltac:(done) good_ok (fun _ => good_ok) Hq) E).
Qed.

Definition first_half : Db := one_with [(key "a", key "red")].
Definition second_half : Db := one_with [(key "b", key "blue"); (key "c", key "red")].
Definition whole : Db := one_with three.

Lemma filled_shards : shards filled = [first_half; second_half] /\ cluster_closed filled = false.
Proof. split; vm_compute; reflexivity. Qed.

Lemma red_blue : Forall (fun kv : bytes * bytes => UpdateFacts.storable codec kv.2) three.
Proof.
  constructor; [|constructor; [|constructor; [|constructor]]]; apply small_value; vm_compute; reflexivity.
Qed.

(** A property of all records is checked on the list of them. *)
Lemma every_record (db : Db) (P : bytes -> Store.StoreRecord -> Prop) :
  Forall (fun kr => P kr.1 kr.2) (map_to_list (Store.records (store db))) -> forall k r, Store.records (store db) !! k = Some r -> P k r.
Proof. intros Hall k r Hr%elem_of_map_to_list. rewrite Forall_forall in Hall. exact (Hall (k, r) Hr). Qed.

Definition lasts (kr : bytes * Store.StoreRecord) : Prop := Store.expire_at kr.2 = 0 /\ is_Some (row codec None kr.1 kr.2).

(** Computes a list and looks at its elements one by one. *)
Ltac each_record :=
  match goal with |- Forall ?P ?l => let x := eval vm_compute in l in change (Forall P x) end;
  repeat (apply Forall_cons; split); try apply Forall_nil_2.

Lemma all_last db : db = first_half \/ db = second_half \/ db = whole -> ClusterScan.lasting codec None db.
Proof.
  intros Hdb. assert (Forall lasts (map_to_list (Store.records (store db)))) as Hall.
  { destruct Hdb as [->|[->| ->]]; each_record; (split; [reflexivity|eexists; vm_compute; reflexivity]). }
  intros k r. apply (every_record db (fun k r => lasts (k, r))). eapply Forall_impl; [exact Hall|]. by intros [].
Qed.

Lemma key_among (db : Db) (l : list bytes) k r : Forall (fun kr : bytes * Store.StoreRecord => kr.1 ∈ l) (map_to_list (Store.records (store db))) ->
  Store.records (store db) !! k = Some r -> k ∈ l.
Proof. intros Hall. apply (every_record db (fun k _ => k ∈ l)), Hall. Qed.

Ltac among := each_record; cbn [fst]; repeat first [by left | right].

Lemma filled_routed : routed two_shards filled.
Proof. eapply steps_keep_routing; [reflexivity|apply rtc_once, filled_step|exact nothing_routed]. Qed.

Lemma one_of_two {A} (x y z : A) i : [x; y] !! i = Some z -> (i = 0%nat /\ z = x) \/ (i = 1%nat /\ z = y).
Proof. destruct i as [|[|i]]; [intros [= <-]; by left|intros [= <-]; by right|done]. Qed.

Lemma filled_sound : sound key_index_repr number_repr order_repr time_repr codec no_reader two_shards filled reachable.
Proof.
  destruct filled_shards as [Es Ec]. split; [reflexivity|]. split; [exact filled_routed|]. split; [exact Ec|].
  pose proof red_blue as Hrb. apply Forall_cons in Hrb as [Ha Hrest].
  rewrite Es. intros i db [[-> ->]|[-> ->]]%one_of_two; (split; [|split; [vm_compute; reflexivity|split; [apply all_last; tauto|reflexivity]]]).
  - apply one_with_ok; [by constructor|reflexivity|vm_compute; reflexivity].
  - apply one_with_ok; [exact Hrest|reflexivity|vm_compute; reflexivity].
Qed.

Lemma no_document (db : Db) (l : list bytes) k : Forall (fun kr : bytes * Store.StoreRecord => kr.1 ∈ l) (map_to_list (Store.records (store db))) -> k ∉ l ->
  document codec None db k = None.
Proof.
  intros Hall Hk. unfold document. destruct (Store.records (store db) !! k) as [r|] eqn:Hr; [|reflexivity].
  by destruct (Hk (key_among db l k r Hall Hr)).
Qed.

Lemma among_three (P : bytes -> Prop) k : k ∈ three.*1 -> P (key "a") -> P (key "b") -> P (key "c") -> P k.
Proof. intros [<-|[<-|[<-|[]]]]%list_elem_of_In; done. Qed.

Lemma filled_same : same_documents codec no_reader two_shards filled None whole.
Proof.
  destruct filled_shards as [Es _]. intros k s Hs. rewrite Es.
  destruct (decide (k ∈ three.*1)) as [Hin|Hout].
  - revert Hs. pattern k. apply (among_three _ k Hin); (intros Hs; vm_compute in Hs; injection Hs as <-; vm_compute; reflexivity).
  - rewrite (no_document whole three.*1 k ltac:(among) Hout).
    pose proof (no_document first_half three.*1 k ltac:(among) Hout) as H1. pose proof (no_document second_half three.*1 k ltac:(among) Hout) as H2.
    destruct ([first_half; second_half] !! Z.to_nat s) as [db|] eqn:E; [|reflexivity].
    apply one_of_two in E as [[_ ->]|[_ ->]]; symmetry; [exact H1|exact H2].
Qed.

Definition limit_two : ScanOptions := mk_ScanOptions None None None None None (Some 2) false.

Lemma cluster_scan_is_one_scan_witness :
  exists rows self' one', Cluster.scan codec no_reader two_shards reachable limit_two filled = Some (Ok rows, self') /\
    MiniDbRead.scan codec None (fun _ => 0) (mk_RangeOptions None None None None 0 (Some 2) false) whole = Some (Ok rows, one') /\
    map doc_key rows = [key "a"; key "b"].
Proof.
  destruct (cluster_scan_is_one_scan key_index_repr number_repr order_repr time_repr codec no_reader two_shards filled reachable None whole
    (fun _ => 0) limit_two) as (rows & self' & one' & Ec & Eo); [exact filled_sound| |vm_compute; reflexivity| |exact filled_same| |discriminate|].
  - apply one_with_ok; [exact red_blue|reflexivity|vm_compute; reflexivity].
  - apply all_last. by right; right.
  - intros k [r Hr]. pose proof (key_among whole three.*1 k r ltac:(among) Hr) as Hin.
    pattern k. apply (among_three _ k Hin); reflexivity.
  - exists rows, self', one'. split; [exact Ec|]. split; [exact Eo|].
    assert (match Cluster.scan codec no_reader two_shards reachable limit_two filled with
      | Some (Ok rows, _) => map doc_key rows | _ => [] end = [key "a"; key "b"]) as C by (vm_compute; reflexivity).
    rewrite Ec in C. exact C.
Defined.

(** ** The order of documents without the field *)

(** A shard sorts a document that lacks the field as null, the cluster before all others:
    a shard may cut off a row that the merge would have put first. *)
Example missing_fields_sort_differently :
  let with_field : @Query.Value spec_float := Query.Object [("s"%string, Query.Str "a")] in
  compare_sorted [("s"%string, 1)] (Query.Object []) with_field = Lt /\
  compare_paths [("s"%string, 1)] (Query.Object []) with_field = Gt.
Proof. split; vm_compute; reflexivity. Qed.
End ClusterExamples.
