(* ===== verification/Server.v ===== *)
(** * The server ([crates/minidb/src/server.rs])

    A database of strings behind the RESP protocol: the parser that is fed what the
    network delivers and gives whole commands, the commands, the replies, and the loop
    of a connection.  [None] is a panic of the task of the connection.

    What the network delivers is a list of chunks; whether a reply is written, what the
    log of the database answers, the clock and what a compaction gives are arguments,
    as are the texts of the errors of the database. *)

From Corelib Require Import SpecFloat.
From stdpp Require Import pretty.
From S2P Require Import Prelude.
From S2P Require Import Crc.
From S2P Require Import OrdIndex.
From S2P Require Import Store.
From S2P Require Import Query.
From S2P Require Import Utf8.
From S2P Require Import Float.
From S2P Require Import CompoundIndex.
From S2P Require Import MiniDb.
From S2P Require Import MiniDbRead.
Import OrdIndex Float MiniDb MiniDbRead.

Module Server.

(** ** Bytes and numbers *)

Definition text (s : string) : bytes := String.list_byte_of_string s.
Definition CRLF : bytes := [byte_of 13; byte_of 10].
Definition decimal (n : Z) : bytes := text (pretty n).

Definition digit (acc : option Z) (c : byte) : option Z :=
  n ← acc;
  if (48 <=? byte_val c) && (byte_val c <=? 57) then
    let n := n * 10 + (byte_val c - 48) in if n <=? U64_MAX then Some n else None
  else None.

(** [str::parse] for a number of 64 bits. *)
Definition parse_u64 (bytes : bytes) : option Z :=
  let digits := match bytes with c :: rest => if byte_val c =? 43 then rest else bytes | [] => [] end in
  match digits with [] => None | _ => fold_left digit digits (Some 0) end.

Definition to_upper (c : byte) : byte := if (97 <=? byte_val c) && (byte_val c <=? 122) then byte_of (byte_val c - 32) else c.
Definition whitespace (c : byte) : bool := existsb (Z.eqb (byte_val c)) [32; 9; 10; 12; 13].

(** [split] at white space, the empty parts left out. *)
Fixpoint words (word : bytes) (l : bytes) : list bytes :=
  match l with
  | [] => match word with [] => [] | _ => [word] end
  | c :: l => if whitespace c then match word with [] => words [] l | _ => word :: words [] l end else words (word ++ [c]) l
  end.

Fixpoint crlf_from (i : Z) (l : bytes) : option Z :=
  match l with
  | a :: (b :: _) as rest => if (byte_val a =? 13) && (byte_val b =? 10) then Some i else crlf_from (i + 1) rest
  | _ => None
  end.

Definition find_crlf (bytes : bytes) (start : Z) : option Z :=
  if start <=? zlen bytes then crlf_from start (drop (Z.to_nat start) bytes) else None.

(** ** The parser *)

Definition RespCommand : Type := list bytes.

Inductive ServerError := RequestTooLarge (maximum : Z) | InvalidRequest (message : string).

Record RespParser := mk_RespParser { buffer : bytes; max_buffer : Z }.
Definition RespParser_default : RespParser := mk_RespParser [] (64 * 1024 * 1024).

Definition parse_usize (bytes : bytes) (name : string) : result ServerError Z :=
  match parse_u64 bytes with Some n => Ok n | None => Err (InvalidRequest ("invalid " +:+ name)) end.

(** The bulk strings of a command; every one takes bytes, so as many rounds as there
    are bytes are enough. *)
Fixpoint parse_items (fuel : nat) (count : Z) (bytes : bytes) (position : Z) (command : RespCommand)
    : option (result ServerError (option (RespCommand * Z))) :=
  if count <=? 0 then Some (Ok (Some (command, position)))
  else
    match fuel with
    | O => None
    | S fuel =>
        match bytes !! Z.to_nat position with
        | None => Some (Ok None)
        | Some c =>
            if negb (byte_val c =? 36) then Some (Ok None)
            else
              match find_crlf bytes (position + 1) with
              | None => Some (Ok None)
              | Some stop =>
                  match parse_usize (slice bytes (position + 1) stop) "bulk length" with
                  | Err e => Some (Err e)
                  | Ok length =>
                      let position := stop + 2 in
                      match checked_add position length with
                      | None => Some (Err (InvalidRequest "bulk length overflow"))
                      | Some payload_end =>
                          if U64_MAX <? payload_end + 2 then None
                          else if zlen bytes <? payload_end + 2 then Some (Ok None)
                          else if decide (slice bytes payload_end (payload_end + 2) = CRLF) then
                            parse_items fuel (count - 1) bytes (payload_end + 2) (command ++ [slice bytes position payload_end])
                          else Some (Err (InvalidRequest "bulk value lacks CRLF"))
                      end
                  end
              end
        end
    end.

(** A vector of more than [isize::MAX] bytes cannot be allocated; a part takes 24. *)
Definition MAX_PARTS : Z := (2 ^ 63 - 1) / 24.

Definition parse_one (bytes : bytes) : option (result ServerError (option (RespCommand * Z))) :=
  match bytes with
  | [] => Some (Ok None)
  | first :: _ =>
      if negb (byte_val first =? 42) then
        match find_crlf bytes 0 with
        | None => Some (Ok None)
        | Some stop => Some (Ok (Some (words [] (take (Z.to_nat stop) bytes), stop + 2)))
        end
      else
        match find_crlf bytes 1 with
        | None => Some (Ok None)
        | Some stop =>
            match parse_usize (slice bytes 1 stop) "array length" with
            | Err e => Some (Err e)
            | Ok count => if MAX_PARTS <? count then None else parse_items (S (length bytes)) count bytes (stop + 2) []
            end
        end
  end.

(** Every command takes bytes; a failure keeps them, and loses the commands before it. *)
Fixpoint feed_loop (fuel : nat) (commands : list RespCommand) (buffer : bytes) : option (result ServerError (list RespCommand) * bytes) :=
  match fuel with
  | O => None
  | S fuel =>
      parsed ← parse_one buffer;
      match parsed with
      | Err e => Some (Err e, buffer)
      | Ok None => Some (Ok commands, buffer)
      | Ok (Some (command, consumed)) => feed_loop fuel (commands ++ [command]) (drop (Z.to_nat consumed) buffer)
      end
  end.

Definition feed (self : RespParser) (chunk : bytes) : option (result ServerError (list RespCommand) * RespParser) :=
  let extended := buffer self ++ chunk in
  if max_buffer self <? zlen extended then Some (Err (RequestTooLarge (max_buffer self)), mk_RespParser [] (max_buffer self))
  else
    '(r, rest) ← feed_loop (S (length extended)) [] extended;
    Some (r, mk_RespParser rest (max_buffer self)).

(** ** Replies *)

Definition simple (value : bytes) : bytes := text "+" ++ value ++ CRLF.
Definition integer (value : Z) : bytes := text ":" ++ decimal value ++ CRLF.
Definition error (value : bytes) : bytes := text "-ERR " ++ value ++ CRLF.
Definition bulk (value : option bytes) : bytes :=
  match value with
  | None => text "$-1" ++ CRLF
  | Some value => text "$" ++ decimal (zlen value) ++ CRLF ++ value ++ CRLF
  end.
Definition array (values : list (option bytes)) : bytes := text "*" ++ decimal (zlen values) ++ CRLF ++ concat (map bulk values).

Definition server_error_text (e : ServerError) : bytes :=
  match e with
  | RequestTooLarge maximum => text ("RESP request too large (>" +:+ pretty maximum +:+ " bytes)")
  | InvalidRequest message => text ("invalid RESP request: " +:+ message)
  end.

(** ** Commands *)

Inductive CommandResult := Reply (bytes : bytes) | Quit.

Section server.
Context {Number : Type} `{!Platform Number} `{Crc32fast}.
Context {KT NT OT TT : Type}.
Context `{!OrderedIndex KT bytes bytes} `{!OrderedIndex NT f64 bytes}.
Context `{!OrderedIndex OT CompoundIndex.OrderValue bytes} `{!OrderedIndex TT Z bytes}.
Abbreviation Db := (@MiniDb.MiniDb KT NT OT TT).
Abbreviation DbIo := (@MiniDb.Io KT NT OT TT).
Abbreviation M := (@MiniDb.M KT NT OT TT).
#[local] Existing Instance MiniDb.M_ret.
#[local] Existing Instance MiniDb.M_bind.
Context (codec : ValueCodec Number bytes) (options : OpenOptions).
Context (read_value : option (Store.ValueLoc -> result Store.StoreError bytes)).
Context (error_text : MiniDbError -> bytes).

(** What the log, the clock and a compaction do in one command. *)
Record CommandIo := mk_CommandIo {
  log : nat -> DbIo;
  logs : nat -> nat -> DbIo;
  now : nat -> Z;
  compaction : result MiniDbError ();
  compactions : result MiniDbError Z;
}.

Definition argument (arguments : RespCommand) (i : nat) : bytes := default [] (arguments !! i).
Definition lossy (argument : bytes) : bytes := Utf8.from_utf8_lossy argument.

(** The options of a SET, from its fourth argument on. *)
Fixpoint set_ttl (ttl : option Z) (arguments : list bytes) : result MiniDbError (option Z) :=
  match arguments with
  | [] => Ok ttl
  | option :: rest =>
      let option := String.string_of_list_byte (map to_upper (lossy option)) in
      if String.eqb option "EX" || String.eqb option "PX" then
        match rest with
        | [] => Err InvalidTtl
        | value :: rest =>
            match parse_u64 (lossy value) with
            | None => Err InvalidTtl
            | Some value => set_ttl (Some (if String.eqb option "EX" then Z.min U64_MAX (value * 1000) else value)) rest
            end
        end
      else set_ttl ttl rest
  end.

Fixpoint del_all (io : CommandIo) (i : nat) (deleted : Z) (keys : list bytes) : M Z :=
  match keys with
  | [] => mret deleted
  | key :: keys =>
      found ← MiniDb.del codec options read_value (log io i) (now io i) key;
      del_all io (S i) (if (found : bool) then deleted + 1 else deleted) keys
  end.

(** [chunks_exact(2)] *)
Fixpoint pairs (l : list bytes) : list (bytes * bytes) :=
  match l with key :: value :: l => (lossy key, lossy value) :: pairs l | _ => [] end.

Definition info (compactions keys : Z) : bytes :=
  text "minidb_version:0.0.1" ++ CRLF ++ text "keys:" ++ decimal keys ++ CRLF ++ text "compactions:" ++ decimal compactions ++ CRLF.

Definition command_name (arguments : RespCommand) : string :=
  String.string_of_list_byte (map to_upper (lossy (argument arguments 0))).

Definition reply (r : bytes) : M CommandResult := mret (Reply r).

Definition handle_set (io : CommandIo) (arguments : RespCommand) : M CommandResult :=
  ttl ← of_result (set_ttl None (drop 3 arguments));
  _ ← MiniDb.set codec options read_value (log io 0) (logs io 0) (argument arguments 1) (lossy (argument arguments 2)) (mk_SetOptions ttl None);
  reply (simple (text "OK")).

Definition handle (io : CommandIo) (arguments : RespCommand) : M CommandResult :=
  let command := command_name arguments in
  let key := argument arguments 1 in
  if String.eqb command "PING" then
    reply (match arguments !! 1%nat with Some value => bulk (Some value) | None => simple (text "PONG") end)
  else if String.eqb command "ECHO" then reply (bulk (arguments !! 1%nat))
  else if String.eqb command "GET" then value ← MiniDbRead.get codec read_value key (now io 0); reply (bulk value)
  else if String.eqb command "SET" then handle_set io arguments
  else if String.eqb command "DEL" then deleted ← del_all io 0 0 (drop 1 arguments); reply (integer deleted)
  else if String.eqb command "EXISTS" then found ← MiniDbRead.has key (now io 0); reply (integer (if (found : bool) then 1 else 0))
  else if String.eqb command "MGET" then values ← MiniDbRead.mget codec read_value (now io) 0 (drop 1 arguments); reply (array values)
  else if String.eqb command "MSET" then
    _ ← MiniDb.mset codec options read_value (log io 0) (logs io 0) (pairs (drop 1 arguments)); reply (simple (text "OK"))
  else if String.eqb command "TTL" then remaining ← MiniDbRead.ttl key (now io 0); reply (integer (Z.quot remaining 1000))
  else if String.eqb command "DBSIZE" then keys ← MiniDbRead.len (now io 0); reply (integer keys)
  else if String.eqb command "COMPACT" then _ ← of_result (compaction io); reply (simple (text "OK"))
  else if String.eqb command "INFO" then
    compactions ← of_result (compactions io); keys ← MiniDbRead.len (now io 0); reply (bulk (Some (info compactions keys)))
  else if String.eqb command "QUIT" then mret Quit
  else reply (error (text ("unknown command '" +:+ command +:+ "'"))).

(** ** A connection

    [writes i] tells whether the [i]-th reply is written; the connection ends when one
    is not, and when the client quits. *)
Context (io : nat -> CommandIo) (writes : nat -> bool).

Definition answer (r : result MiniDbError CommandResult) : CommandResult :=
  match r with Ok r => r | Err e => Reply (error (error_text e)) end.

(** The commands of a chunk; with whether the connection goes on, and the number of
    commands so far. *)
Fixpoint serve_commands (commands : list RespCommand) (i : nat) (written : list bytes) (self : Db) : option (bool * nat * list bytes * Db) :=
  match commands with
  | [] => Some (true, i, written, self)
  | arguments :: commands =>
      '(r, self) ← handle (io i) arguments self;
      match answer r with
      | Quit => Some (false, S i, written, self)
      | Reply bytes =>
          if writes (length written) then serve_commands commands (S i) (written ++ [bytes]) self else Some (false, S i, written, self)
      end
  end.

Fixpoint serve_connection (chunks : list bytes) (parser : RespParser) (i : nat) (written : list bytes) (self : Db) : option (list bytes * Db) :=
  match chunks with
  | [] => Some (written, self)
  | chunk :: chunks =>
      if decide (length chunk = 0%nat) then Some (written, self)
      else
        '(r, parser) ← feed parser chunk;
        match r with
        | Err e =>
            if writes (length written) then serve_connection chunks parser i (written ++ [error (server_error_text e)]) self
            else Some (written, self)
        | Ok commands =>
            '(going, i, written, self) ← serve_commands commands i written self;
            if (going : bool) then serve_connection chunks parser i written self else Some (written, self)
        end
  end.
End server.
End Server.
