(* ===== verification/ServerFacts.v ===== *)
(** * The server: however the network cuts a stream of commands, they are executed in order

    Numbers print and parse back ([parse_decimal]); a command that has not arrived
    completely is not parsed, and one that has is parsed to its parts and its length,
    whatever follows ([parse_request_part], [parse_request_whole]); hence a connection executes exactly
    the commands sent, in order, and writes their replies in order. *)

From Corelib Require Import SpecFloat.
From stdpp Require Import pretty.
From S2P Require Import Prelude.
From S2P Require Import Crc.
From S2P Require Import OrdIndex.
From S2P Require Import Store.
From S2P Require Import Query.
From S2P Require Import Float.
From S2P Require Import CompoundIndex.
From S2P Require Import MiniDb.
From S2P Require Import MiniDbRead.
From S2P Require Import Server.
Import OrdIndex Float MiniDb MiniDbRead Server.

Module ServerFacts.

(** ** Numbers *)

Definition is_digit (c : byte) : bool := (48 <=? byte_val c) && (byte_val c <=? 57).

Lemma pretty_N_char_digit x : (x < 10)%N -> byte_val (Ascii.byte_of_ascii (pretty_N_char x)) = 48 + Z.of_N x.
Proof. intros Hx. destruct x as [|p]; [reflexivity|]. do 4 (try destruct p as [p|p|]); try reflexivity; lia. Qed.

(** Parsing what is printed before [s] and then [s]. *)
Lemma parse_pretty (x : N) : forall s, Z.of_N x <= U64_MAX ->
  fold_left digit (text (pretty_N_go x s)) (Some 0) = fold_left digit (text s) (Some (Z.of_N x)) /\
  (Forall (fun c => is_digit c = true) (text s) -> Forall (fun c => is_digit c = true) (text (pretty_N_go x s))).
Proof.
  induction x as [x IH] using (well_founded_induction N.lt_wf_0). intros s Hx. destruct (decide (x = 0)%N) as [->|Hz]; [by rewrite pretty_N_go_0|].
  rewrite pretty_N_go_step by lia. assert (x / 10 < x)%N as Hlt by (apply N.div_lt; lia).
  assert (x mod 10 < 10)%N as Hm by (apply N.mod_lt; done). pose proof (N.div_mod x 10 ltac:(done)) as Hdm.
  remember (x `div` 10)%N as q. remember (x `mod` 10)%N as r. clear Heqq Heqr. pose proof (pretty_N_char_digit r Hm) as Hc.
  destruct (IH q Hlt (String (pretty_N_char r) s)) as [Hp Hd]; [lia|]. rewrite Hp.
  change (text (String (pretty_N_char r) s)) with (Ascii.byte_of_ascii (pretty_N_char r) :: text s) in *.
  assert (is_digit (Ascii.byte_of_ascii (pretty_N_char r)) = true) as Hdig by (unfold is_digit; rewrite Hc; apply andb_true_iff; lia).
  split; [|intros Hs; apply Hd; by constructor]. cbn [fold_left]. f_equal. unfold digit at 1. simpl_bind. unfold is_digit in Hdig. rewrite Hdig, Hc.
  destruct (Z.leb_spec (Z.of_N q * 10 + (48 + Z.of_N r - 48)) U64_MAX); [f_equal|]; lia.
Qed.

Lemma decimal_spec n : 0 <= n <= U64_MAX ->
  decimal n <> [] /\ Forall (fun c => is_digit c = true) (decimal n) /\ fold_left digit (decimal n) (Some 0) = Some n.
Proof.
  intros Hn. unfold decimal. destruct n as [|p|p]; [by split_and!; repeat constructor| |lia].
  change (pretty (Z.pos p)) with (pretty_N_go (N.pos p) ""). destruct (parse_pretty (N.pos p) "") as [Hp Hd]; [lia|]. split_and!; [|by apply Hd|exact Hp].
  intros E. rewrite E in Hp. cbn in Hp. injection Hp. lia.
Qed.

Lemma parse_decimal n : 0 <= n <= U64_MAX -> parse_u64 (decimal n) = Some n.
Proof.
  intros Hn. destruct (decimal_spec n Hn) as (Hne & Hd & Hp). unfold parse_u64. destruct (decimal n) as [|c l] eqn:E; [done|].
  apply Forall_cons in Hd as [Hc _]. destruct (Z.eqb_spec (byte_val c) 43) as [Heq|]; [|done]. unfold is_digit in Hc. apply andb_true_iff in Hc. lia.
Qed.

(** ** Ends of lines *)

Definition no_return (c : byte) : Prop := byte_val c <> 13.

Lemma digits_no_return l : Forall (fun c => is_digit c = true) l -> Forall no_return l.
Proof. intros Hl. eapply Forall_impl; [exact Hl|]. unfold is_digit, no_return. intros c [? ?]%andb_true_iff. lia. Qed.

Lemma crlf_from_spec i l rest : Forall no_return l -> crlf_from i (l ++ CRLF ++ rest) = Some (i + zlen l).
Proof.
  intros Hl. revert i. induction Hl as [|c l Hc _ IH]; intros i; [by change (zlen []) with 0; rewrite Z.add_0_r|].
  assert (crlf_from i ((c :: l) ++ CRLF ++ rest) = crlf_from (i + 1) (l ++ CRLF ++ rest)) as ->.
  { cbn [app crlf_from]. destruct (l ++ CRLF ++ rest) as [|b l'] eqn:E; [by destruct l|].
    destruct (Z.eqb_spec (byte_val c) 13); done. }
  rewrite IH. unfold zlen. f_equal. cbn [length]. lia.
Qed.

Lemma crlf_from_part i part l more : Forall no_return l -> part ++ more = l ++ CRLF -> more <> [] -> crlf_from i part = None.
Proof.
  intros Hl. revert i part. induction Hl as [|c l Hc _ IH]; intros i part E Hm.
  - destruct part as [|a [|b part]]; [done..|]. exfalso. apply (f_equal length) in E. rewrite length_app in E. cbn in E.
    assert (length more <> 0%nat) by (by destruct more). lia.
  - destruct part as [|a part]; [done|]. injection E as -> E. cbn [crlf_from]. destruct part as [|b part']; [done|].
    destruct (Z.eqb_spec (byte_val c) 13); [done|]. by eapply IH.
Qed.

Lemma find_crlf_spec pre l rest : Forall no_return l -> find_crlf (pre ++ l ++ CRLF ++ rest) (zlen pre) = Some (zlen pre + zlen l).
Proof.
  intros Hl. unfold find_crlf. rewrite zlen_app. pose proof (zlen_nonneg (l ++ CRLF ++ rest)).
  destruct (Z.leb_spec (zlen pre) (zlen pre + zlen (l ++ CRLF ++ rest))); [|lia].
  unfold zlen at 2. rewrite Nat2Z.id, drop_app_length. by apply crlf_from_spec.
Qed.

Lemma find_crlf_part pre part l more : Forall no_return l -> part ++ more = l ++ CRLF -> more <> [] -> find_crlf (pre ++ part) (zlen pre) = None.
Proof.
  intros Hl E Hm. unfold find_crlf. destruct (_ <=? _); [|done]. unfold zlen at 2. rewrite Nat2Z.id, drop_app_length. by eapply crlf_from_part.
Qed.

(** ** Bulk strings *)

Definition part (a : bytes) : bytes := bulk (Some a).

Lemma part_eq a : part a = [byte_of 36] ++ decimal (zlen a) ++ CRLF ++ a ++ CRLF.
Proof. reflexivity. Qed.

Lemma CRLF_length : zlen CRLF = 2.
Proof. reflexivity. Qed.

Lemma zlen_part a : zlen (part a) = 1 + zlen (decimal (zlen a)) + 2 + zlen a + 2.
Proof. rewrite part_eq, !zlen_app, CRLF_length. change (zlen [byte_of 36]) with 1. lia. Qed.

Lemma decimal_length (a : bytes) : zlen a <= U64_MAX -> Forall no_return (decimal (zlen a)) /\ parse_u64 (decimal (zlen a)) = Some (zlen a).
Proof.
  intros Ha. pose proof (zlen_nonneg a). destruct (decimal_spec (zlen a)) as (_ & Hd & _); [lia|]. split; [by apply digits_no_return|].
  apply parse_decimal. lia.
Qed.

(** A part that is there is taken. *)
Lemma parse_item fuel count pre a rest command : 0 < count -> zlen (pre ++ part a) <= 2 ^ 62 ->
  parse_items (S fuel) count (pre ++ part a ++ rest) (zlen pre) command =
  parse_items fuel (count - 1) (pre ++ part a ++ rest) (zlen (pre ++ part a)) (command ++ [a]).
Proof.
  intros Hcount Hlen. rewrite zlen_app, zlen_part in Hlen. pose proof (zlen_nonneg pre). pose proof (zlen_nonneg a).
  pose proof (zlen_nonneg (decimal (zlen a))) as Hd. destruct (decimal_length a) as [Hdec Hparse]; [unfold U64_MAX; lia|].
  set (all := pre ++ part a ++ rest). cbn [parse_items]. destruct (Z.leb_spec count 0); [lia|].
  assert (all !! Z.to_nat (zlen pre) = Some (byte_of 36)) as ->.
  { unfold all, zlen. rewrite Nat2Z.id, lookup_app_r, Nat.sub_diag by lia. reflexivity. }
  change (negb (byte_val (byte_of 36) =? 36)) with false. cbn iota.
  assert (find_crlf all (zlen pre + 1) = Some (zlen pre + 1 + zlen (decimal (zlen a)))) as ->.
  { replace (zlen pre + 1) with (zlen (pre ++ [byte_of 36])) by (by rewrite zlen_app). rewrite <- (find_crlf_spec _ _ (a ++ CRLF ++ rest) Hdec).
    f_equal. unfold all. by rewrite part_eq, <- !app_assoc. }
  assert (slice all (zlen pre + 1) (zlen pre + 1 + zlen (decimal (zlen a))) = decimal (zlen a)) as ->.
  { replace all with ((pre ++ [byte_of 36]) ++ decimal (zlen a) ++ CRLF ++ a ++ CRLF ++ rest) by (unfold all; by rewrite part_eq, <- !app_assoc).
    apply slice_mid; rewrite ?zlen_app; change (zlen [byte_of 36]) with 1; lia. }
  unfold parse_usize. rewrite Hparse. cbn zeta. rewrite checked_add_Some by (unfold U64_MAX; lia).
  set (position := zlen pre + 1 + zlen (decimal (zlen a)) + 2).
  destruct (Z.ltb_spec U64_MAX (position + zlen a + 2)) as [Hbad|]; [unfold U64_MAX in Hbad; lia|].
  assert (all = (pre ++ [byte_of 36] ++ decimal (zlen a) ++ CRLF) ++ a ++ CRLF ++ rest) as E by (unfold all; by rewrite part_eq, <- !app_assoc).
  assert (zlen (pre ++ [byte_of 36] ++ decimal (zlen a) ++ CRLF) = position) as Hpos.
  { rewrite !zlen_app, CRLF_length. change (zlen [byte_of 36]) with 1. unfold position. lia. }
  destruct (Z.ltb_spec (zlen all) (position + zlen a + 2)) as [Hbad|].
  { rewrite E, zlen_app, Hpos, !zlen_app, CRLF_length in Hbad. pose proof (zlen_nonneg rest). lia. }
  assert (slice all (position + zlen a) (position + zlen a + 2) = CRLF) as ->.
  { rewrite E, app_assoc. apply slice_mid; [rewrite zlen_app, Hpos|rewrite CRLF_length]; lia. }
  rewrite decide_True by done. assert (slice all position (position + zlen a) = a) as ->.
  { rewrite E. apply slice_mid; rewrite ?Hpos; lia. }
  f_equal. rewrite zlen_app, zlen_part. unfold position. lia.
Qed.

Definition parts (l : list bytes) : bytes := concat (map part l).

Lemma parse_items_whole l : forall fuel pre rest command, (length l <= fuel)%nat -> zlen (pre ++ parts l) <= 2 ^ 62 ->
  parse_items fuel (zlen l) (pre ++ parts l ++ rest) (zlen pre) command = Some (Ok (Some (command ++ l, zlen (pre ++ parts l)))).
Proof.
  induction l as [|a l IH]; intros fuel pre rest command Hf Hlen.
  - cbn. rewrite !app_nil_r. by destruct fuel.
  - destruct fuel as [|fuel]; [cbn in Hf; lia|]. change (parts (a :: l)) with (part a ++ parts l) in *. rewrite <- !app_assoc, (parse_item fuel).
    + replace (zlen (a :: l) - 1) with (zlen l) by (unfold zlen; cbn [length]; lia). rewrite !app_assoc, <- (app_assoc _ (parts l)).
      rewrite IH; [|cbn in Hf; lia|by rewrite <- app_assoc]. by rewrite <- !app_assoc.
    + unfold zlen. cbn [length]. lia.
    + rewrite !zlen_app in *. pose proof (zlen_nonneg (parts l)). lia.
Qed.

(** Where a sequence of two pieces is cut: after the first, or within it. *)
Lemma cut_app {A} (l1 l2 m1 m2 : list A) : l1 ++ l2 = m1 ++ m2 ->
  (exists l, l1 = m1 ++ l /\ l ++ l2 = m2) \/ (exists l, l <> [] /\ l1 ++ l = m1).
Proof.
  intros (l & [[-> ->]|[-> ->]])%app_eq_app; [by left; exists l|]. destruct (decide (length l = 0%nat)) as [->%length_zero_iff_nil|Hl].
  - left. exists []. by rewrite !app_nil_r.
  - right. exists l. split; [by intros ->|done].
Qed.

Lemma cons_app_inv {A} (c x : A) p more l : (c :: p) ++ more = [x] ++ l -> c = x /\ p ++ more = l.
Proof. by intros [= -> ->]. Qed.

(** A part that is not there completely is waited for. *)
Lemma parse_item_part fuel count pre p more a command : 0 < count -> zlen (pre ++ part a) <= 2 ^ 62 ->
  p ++ more = part a -> more <> [] -> parse_items (S fuel) count (pre ++ p) (zlen pre) command = Some (Ok None).
Proof.
  intros Hcount Hlen Hp Hm. rewrite zlen_app, zlen_part in Hlen. pose proof (zlen_nonneg pre). pose proof (zlen_nonneg a).
  pose proof (zlen_nonneg (decimal (zlen a))) as Hd. destruct (decimal_length a) as [Hdec Hparse]; [unfold U64_MAX; lia|].
  rewrite part_eq in Hp. cbn [parse_items]. destruct (Z.leb_spec count 0); [lia|].
  unfold zlen at 1. rewrite Nat2Z.id, lookup_app_r, Nat.sub_diag by lia. destruct p as [|c p]; [done|]. cbn [lookup list_lookup].
  apply cons_app_inv in Hp as [-> Hp]. change (negb (byte_val (byte_of 36) =? 36)) with false. cbn iota.
  replace (zlen pre + 1) with (zlen (pre ++ [byte_of 36])) by (by rewrite zlen_app).
  replace (pre ++ byte_of 36 :: p) with ((pre ++ [byte_of 36]) ++ p) by (by rewrite <- app_assoc).
  rewrite app_assoc in Hp.
  apply cut_app in Hp as [(l & -> & Hl)|(l & Hne & Hl)].
  - rewrite <- (app_assoc _ CRLF l), (find_crlf_spec _ _ _ Hdec).
    assert (slice ((pre ++ [byte_of 36]) ++ decimal (zlen a) ++ CRLF ++ l) (zlen (pre ++ [byte_of 36]))
      (zlen (pre ++ [byte_of 36]) + zlen (decimal (zlen a))) = decimal (zlen a)) as -> by apply slice_app_mid.
    unfold parse_usize. rewrite Hparse. cbn zeta. rewrite !zlen_app, CRLF_length in *. change (zlen [byte_of 36]) with 1 in *.
    rewrite checked_add_Some by (unfold U64_MAX; lia). destruct (Z.ltb_spec U64_MAX (zlen pre + 1 + zlen (decimal (zlen a)) + 2 + zlen a + 2)) as [Hbad|];
      [unfold U64_MAX in Hbad; lia|]. destruct (Z.ltb_spec (zlen pre + 1 + (zlen (decimal (zlen a)) + (2 + zlen l))) (zlen pre + 1 + zlen (decimal (zlen a)) + 2 + zlen a + 2)); [done|].
    apply (f_equal zlen) in Hl. rewrite !zlen_app, CRLF_length in Hl. destruct more; [done|]. unfold zlen in *. cbn [length] in *. lia.
  - by rewrite (find_crlf_part _ p _ l Hdec).
Qed.

Lemma parse_items_part l : forall fuel pre p more command, (length p < fuel)%nat -> zlen (pre ++ parts l) <= 2 ^ 62 ->
  p ++ more = parts l -> more <> [] -> parse_items fuel (zlen l) (pre ++ p) (zlen pre) command = Some (Ok None).
Proof.
  induction l as [|a l IH]; intros fuel pre p more command Hf Hlen Hp Hm; [by apply app_nil in Hp as [_ ->]|].
  destruct fuel as [|fuel]; [lia|]. change (parts (a :: l)) with (part a ++ parts l) in *.
  assert (0 < zlen (a :: l)) as Hpos by (unfold zlen; cbn [length]; lia). pose proof (zlen_nonneg (parts l)).
  apply cut_app in Hp as [(q & -> & Hq)|(q & Hne & Hq)].
  - rewrite (parse_item fuel); [|done|rewrite !zlen_app in *; lia]. replace (zlen (a :: l) - 1) with (zlen l) by (unfold zlen; cbn [length]; lia).
    rewrite app_assoc. apply (IH fuel _ _ more); [rewrite length_app in Hf; cbn in Hf; lia|by rewrite <- app_assoc|done|done].
  - apply (parse_item_part fuel _ pre p q a); [done| |done|done]. rewrite !zlen_app in *. lia.
Qed.

(** ** Commands *)

(** What a client sends for a command: an array of bulk strings, or words on a line that
    does not begin with a star. *)
Inductive encodes : RespCommand -> bytes -> Prop :=
| EncodeArray command : zlen (array (map Some command)) <= 2 ^ 58 -> encodes command (array (map Some command))
| EncodeLine line : Forall no_return line -> (forall c, head line = Some c -> byte_val c <> 42) -> encodes (words [] line) (line ++ CRLF).

Lemma array_eq command : array (map Some command) = [byte_of 42] ++ decimal (zlen command) ++ CRLF ++ parts command.
Proof. unfold array, parts. rewrite map_map. unfold zlen. by rewrite length_map. Qed.

Lemma parts_length l : zlen l <= zlen (parts l).
Proof.
  induction l as [|a l IH]; [done|]. change (parts (a :: l)) with (part a ++ parts l). rewrite zlen_app, zlen_part.
  pose proof (zlen_nonneg a). pose proof (zlen_nonneg (decimal (zlen a))). unfold zlen in *. cbn [length]. lia.
Qed.

Lemma count_parsed command : zlen (array (map Some command)) <= 2 ^ 58 ->
  Forall no_return (decimal (zlen command)) /\ parse_u64 (decimal (zlen command)) = Some (zlen command) /\ zlen command <= MAX_PARTS.
Proof.
  rewrite array_eq, !zlen_app, CRLF_length. change (zlen [byte_of 42]) with 1. pose proof (parts_length command). pose proof (zlen_nonneg command).
  pose proof (zlen_nonneg (decimal (zlen command))). intros Hl. destruct (decimal_spec (zlen command)) as (_ & Hd & _); [unfold U64_MAX; lia|].
  split_and!; [by apply digits_no_return|apply parse_decimal; unfold U64_MAX; lia|]. change MAX_PARTS with 384307168202282325. lia.
Qed.

Lemma parse_array l : parse_one ([byte_of 42] ++ l) =
  match find_crlf ([byte_of 42] ++ l) 1 with
  | None => Some (Ok None)
  | Some stop =>
      match parse_usize (slice ([byte_of 42] ++ l) 1 stop) "array length" with
      | Err e => Some (Err e)
      | Ok count =>
          if MAX_PARTS <? count then None
          else parse_items (S (length ([byte_of 42] ++ l))) count ([byte_of 42] ++ l) (stop + 2) []
      end
  end.
Proof. reflexivity. Qed.

Lemma parse_line l : (forall c, head l = Some c -> byte_val c <> 42) -> parse_one l =
  match find_crlf l 0 with None => Some (Ok None) | Some stop => Some (Ok (Some (words [] (take (Z.to_nat stop) l), stop + 2))) end.
Proof. intros Hl. destruct l as [|c l]; [done|]. specialize (Hl c eq_refl). unfold parse_one. by destruct (Z.eqb_spec (byte_val c) 42). Qed.

(** The number of parts, once its line is there. *)
Lemma parse_counted command l : zlen (array (map Some command)) <= 2 ^ 58 ->
  let pre := [byte_of 42] ++ decimal (zlen command) ++ CRLF in
  parse_one (pre ++ l) = parse_items (S (length (pre ++ l))) (zlen command) (pre ++ l) (zlen pre) [].
Proof.
  intros Hl pre. destruct (count_parsed command Hl) as (Hd & Hp & Hm). unfold pre. rewrite <- !app_assoc. rewrite parse_array.
  change 1 with (zlen [byte_of 42]). rewrite (find_crlf_spec [byte_of 42] _ l Hd), slice_app_mid. unfold parse_usize. rewrite Hp.
  destruct (Z.ltb_spec MAX_PARTS (zlen command)); [lia|]. f_equal. rewrite !zlen_app, CRLF_length. lia.
Qed.

Lemma head_app {A} (l m : list A) c : l <> [] -> head (l ++ m) = Some c -> head l = Some c.
Proof. by destruct l. Qed.

(** A command that is there is parsed, whatever follows. *)
Lemma parse_request_whole command e rest : encodes command e -> parse_one (e ++ rest) = Some (Ok (Some (command, zlen e))).
Proof.
  intros [c Hl|line Hline Hhead].
  - pose proof (parse_counted c (parts c ++ rest) Hl) as Hc. cbn zeta in Hc. rewrite array_eq in *.
    replace (([byte_of 42] ++ decimal (zlen c) ++ CRLF ++ parts c) ++ rest) with (([byte_of 42] ++ decimal (zlen c) ++ CRLF) ++ parts c ++ rest)
      by (by rewrite <- !app_assoc).
    rewrite Hc, parse_items_whole; [by rewrite <- !app_assoc| |rewrite <- !app_assoc; lia].
    pose proof (parts_length c). rewrite !length_app. unfold zlen in *. lia.
  - rewrite <- app_assoc, parse_line.
    + rewrite <- (app_nil_l (line ++ CRLF ++ rest)) at 1. change 0 with (zlen (@nil byte)). rewrite (find_crlf_spec [] line rest Hline).
      change (zlen []) with 0. rewrite Z.add_0_l. unfold zlen at 1. rewrite Nat2Z.id, take_app_length, zlen_app, CRLF_length. done.
    + intros c. destruct line as [|a line]; [intros [= <-]; discriminate|]. intros [= <-]. by apply Hhead.
Qed.

(** And one that is not is waited for. *)
Lemma parse_request_part command e p more : encodes command e -> p ++ more = e -> more <> [] -> parse_one p = Some (Ok None).
Proof.
  intros [c Hl|line Hline Hhead] Hp Hm.
  - pose proof (parse_counted c) as Hc. specialize (fun l => Hc l Hl). cbn zeta in Hc. rewrite array_eq in *.
    destruct p as [|b p]; [done|]. apply cons_app_inv in Hp as [-> Hp]. rewrite app_assoc in Hp. apply cut_app in Hp as [(l & -> & Hq)|(l & Hne & Hq)].
    + replace (byte_of 42 :: (decimal (zlen c) ++ CRLF) ++ l) with (([byte_of 42] ++ decimal (zlen c) ++ CRLF) ++ l) by (by rewrite <- !app_assoc).
      rewrite Hc. apply (parse_items_part c _ _ _ more); [rewrite !length_app; lia|rewrite <- !app_assoc; lia|done|done].
    + change (byte_of 42 :: p) with ([byte_of 42] ++ p). rewrite parse_array. change 1 with (zlen [byte_of 42]).
      destruct (count_parsed c) as (Hd & _); [by rewrite array_eq|]. by rewrite (find_crlf_part _ p _ l Hd).
  - rewrite parse_line.
    + change p with ([] ++ p). change 0 with (zlen (@nil byte)). by rewrite (find_crlf_part [] p line more Hline).
    + intros c Hc. destruct p as [|x p]; [done|]. injection Hc as ->. destruct line as [|y line]; injection Hp as -> _; [done|by apply Hhead].
Qed.

(** ** Streams *)

Abbreviation encode_all := (Forall2 encodes).

Lemma encodes_nonempty command e : encodes command e -> (0 < length e)%nat.
Proof. intros [c ?|line ? ?]; [rewrite array_eq|]; rewrite length_app; cbn; lia. Qed.

(** What has been received of a stream and not parsed: less than a command. *)
Definition unfinished (received : bytes) (es : list bytes) : Prop :=
  match es with [] => received = [] | e :: _ => zlen received < zlen e end.

Lemma feed_requests cs es : encode_all cs es -> forall fuel commands received future, (length received < fuel)%nat ->
  received ++ future = concat es ->
  exists cs1 cs2 es2 rest, feed_loop fuel commands received = Some (Ok (commands ++ cs1), rest) /\ cs = cs1 ++ cs2 /\ encode_all cs2 es2 /\
    rest ++ future = concat es2 /\ unfinished rest es2 /\ (forall e, e ∈ es2 -> e ∈ es).
Proof.
  induction 1 as [|c e cs es He Hes IH]; intros fuel commands received future Hf Hs.
  - apply app_nil in Hs as [-> ->]. destruct fuel as [|fuel]; [cbn in Hf; lia|]. exists [], [], [], []. cbn. rewrite app_nil_r.
    by split_and!; try constructor.
  - destruct fuel as [|fuel]; [lia|]. cbn [concat] in Hs. cbn [feed_loop]. pose proof (encodes_nonempty c e He) as Hlen.
    pose proof Hs as Hall. apply cut_app in Hs as [(l & -> & Hl)|(l & Hne & Hl)].
    + rewrite (parse_request_whole c e l He). simpl_bind. unfold zlen at 1. rewrite Nat2Z.id, drop_app_length.
      destruct (IH fuel (commands ++ [c]) l future) as (cs1 & cs2 & es2 & rest & E & -> & H2 & Hr & Hu & Hin); [rewrite length_app in Hf; lia|done|].
      exists (c :: cs1), cs2, es2, rest. rewrite E, <- app_assoc. split_and!; try done. intros e' ?. right. by apply Hin.
    + rewrite (parse_request_part c e received l He Hl Hne). simpl_bind. exists [], (c :: cs), (e :: es), received. rewrite app_nil_r.
      split_and!; try done; [by constructor|].
      cbn [unfinished]. rewrite <- Hl, zlen_app. destruct l; [done|]. unfold zlen. cbn [length]. lia.
Qed.

Section server.
Context {Number : Type} `{!Platform Number} `{Crc32fast}.
Context {KT NT OT TT : Type}.
Context `{!OrderedIndex KT bytes bytes} `{!OrderedIndex NT f64 bytes}.
Context `{!OrderedIndex OT CompoundIndex.OrderValue bytes} `{!OrderedIndex TT Z bytes}.
Abbreviation Db := (@MiniDb.MiniDb KT NT OT TT).
Context (codec : ValueCodec Number bytes) (options : OpenOptions).
Context (read_value : option (Store.ValueLoc -> result Store.StoreError bytes)).
Context (error_text : MiniDbError -> bytes) (io : nat -> @CommandIo KT NT OT TT) (writes : nat -> bool).
Abbreviation serve_commands := (serve_commands codec options read_value error_text io writes).
Abbreviation serve_connection := (serve_connection codec options read_value error_text io writes).
Implicit Types (self : Db) (written : list bytes).

Lemma serve_commands_app cs1 cs2 : forall i written self,
  serve_commands (cs1 ++ cs2) i written self =
  '(going, i, written, self) ← serve_commands cs1 i written self;
  if (going : bool) then serve_commands cs2 i written self else Some (false, i, written, self).
Proof.
  induction cs1 as [|c cs1 IH]; intros i written self; [done|]. cbn [app Server.serve_commands].
  destruct (handle _ _ _ _ _ self) as [[r s]|]; [|done]. cbn [mbind option_bind]. destruct (answer _ r); [|done].
  destruct (writes (length written)); [apply IH|done].
Qed.

(** What is left of a stream when its last chunk has come is nothing. *)
Lemma serve_stream maximum chunks : maximum <= 2 ^ 58 -> forall cs es received i written self,
  encode_all cs es -> received ++ concat chunks = concat es -> unfinished received es ->
  Forall (fun chunk => chunk <> []) chunks -> (forall e chunk, e ∈ es -> chunk ∈ chunks -> zlen e + zlen chunk <= maximum) ->
  serve_connection chunks (mk_RespParser received maximum) i written self =
  '(_, _, written, self) ← serve_commands cs i written self; Some (written, self).
Proof.
  intros Hmax. induction chunks as [|chunk chunks IH]; intros cs es received i written self Hes Hs Hu Hne Hsize.
  - cbn [concat] in Hs. rewrite app_nil_r in Hs. destruct Hes as [|c e cs es He Hes]; [done|]. cbn [unfinished] in Hu. exfalso.
    rewrite Hs in Hu. cbn [concat] in Hu. rewrite zlen_app in Hu. pose proof (zlen_nonneg (concat es)). lia.
  - apply Forall_cons in Hne as [Hc Hne]. cbn [Server.serve_connection]. rewrite decide_False by (by intros ->%length_zero_iff_nil).
    unfold feed. cbn [buffer max_buffer]. destruct (Z.ltb_spec maximum (zlen (received ++ chunk))) as [Hbad|_].
    { exfalso. rewrite zlen_app in Hbad. destruct es as [|e es]; cbn [unfinished] in Hu.
      - rewrite Hu in Hs. cbn [concat app] in Hs. by apply app_nil in Hs as [-> _].
      - specialize (Hsize e chunk ltac:(by left) ltac:(by left)). lia. }
    cbn [concat] in Hs. rewrite app_assoc in Hs.
    destruct (feed_requests cs es Hes (S (length (received ++ chunk))) [] (received ++ chunk) (concat chunks) ltac:(lia) Hs)
      as (cs1 & cs2 & es2 & rest & E & -> & Hes2 & Hrest & Hu2 & Hin).
    rewrite E. cbn [mbind option_bind app]. rewrite serve_commands_app. destruct (serve_commands cs1 i written self) as [[[[going i'] w'] s']|]; [|done].
    cbn [mbind option_bind]. destruct going; [|done]. apply (IH cs2 es2); try done. intros e c He Hin2. apply Hsize; [by apply Hin|by right].
Qed.

(** C10: however the network cuts what a client sends, arrays of bulk strings and lines of
    words in any order, a connection executes exactly the commands sent, in order, and
    writes their replies in order, up to the one that quits or whose reply is not
    written, as long as no command with a chunk is larger than the buffer may be. *)
Theorem connection_executes_the_commands maximum chunks cs es self :
  maximum <= 2 ^ 58 -> encode_all cs es -> concat chunks = concat es -> Forall (fun chunk => chunk <> []) chunks ->
  (forall e chunk, e ∈ es -> chunk ∈ chunks -> zlen e + zlen chunk <= maximum) ->
  serve_connection chunks (mk_RespParser [] maximum) 0 [] self =
  '(_, _, written, self) ← serve_commands cs 0 [] self; Some (written, self).
Proof.
  intros Hmax Hes Hs Hne Hsize. apply (serve_stream maximum chunks Hmax cs es); try done.
  destruct Hes as [|c e cs es He _]; [done|]. cbn [unfinished]. pose proof (encodes_nonempty c e He). unfold zlen. cbn [length]. lia.
Qed.
End server.
End ServerFacts.
