(* ===== verification/ServerExamples.v ===== *)
(** * The server: examples

    A connection to the database of [FacadeExamples], and requests on which the parser
    and the commands go wrong. *)

From Corelib Require Import SpecFloat.
From S2P Require Import Prelude.
From S2P Require Import Crc.
From S2P Require Import OrdIndex.
From S2P Require Import Store.
From S2P Require Import StoreFacts.
From S2P Require Import Query.
From S2P Require Import DtIndex.
From S2P Require Import IndexManagerFacts.
From S2P Require Import CompoundIndexFacts.
From S2P Require Import MiniDb.
From S2P Require Import MiniDbRead.
From S2P Require Import FacadeExamples.
From S2P Require Import Server.
From S2P Require Import ServerFacts.
Import OrdIndex MiniDb MiniDbRead FacadeExamples Server ServerFacts.
Import Crc.Additive StoreFacts IndexManagerFacts CompoundIndexFacts.

Module ServerExamples.

#[local] Existing Instance FacadeExamples.platform.
#[local] Existing Instance FacadeExamples.time_index.

Definition calm : nat -> @CommandIo StoreFacts.KeyIndex NumberIndex OrderIndex DtIndex.TimeIndex :=
  fun _ => mk_CommandIo (fun _ => good) (fun _ _ => good) (fun _ => 0) (Ok tt) (Ok 0).
Definition no_text : MiniDbError -> bytes := fun _ => text "failed".

Definition session : list RespCommand := [[text "SET"; text "a"; text "red"]; [text "get"; text "a"]; [text "PING"]].
Definition encoded : list bytes :=
  [array (map Some [text "SET"; text "a"; text "red"]); text "get  a" ++ CRLF; array (map Some [text "PING"])].
Definition cut : list bytes :=
  [take 9 (concat encoded); take 30 (drop 9 (concat encoded)); drop 39 (concat encoded)].

Lemma session_encoded : encode_all session encoded.
Proof.
  constructor; [apply EncodeArray; vm_compute; discriminate|]. constructor; [|constructor; [apply EncodeArray; vm_compute; discriminate|constructor]].
  apply (EncodeLine (text "get  a")).
  - repeat (apply Forall_cons; split; [vm_compute; discriminate|]). apply Forall_nil_2.
  - intros c [= <-]. vm_compute. discriminate.
Qed.

Lemma connection_executes_the_commands_witness : exists self',
  serve_connection codec in_memory None no_text calm (fun _ => true) cut (mk_RespParser [] 1024) 0 [] empty =
  Some ([text "+OK" ++ CRLF; text "$3" ++ CRLF ++ text "red" ++ CRLF; text "+PONG" ++ CRLF], self').
Proof.
  rewrite (connection_executes_the_commands codec in_memory None no_text calm (fun _ => true) 1024 cut session encoded empty).
  - eexists. vm_compute. reflexivity.
  - vm_compute. discriminate.
  - exact session_encoded.
  - vm_compute. reflexivity.
  - repeat (apply Forall_cons; split; [vm_compute; discriminate|]). apply Forall_nil_2.
  - intros e chunk He Hc. apply list_elem_of_In in He, Hc. vm_compute in He, Hc.
    repeat destruct He as [<-|He]; try destruct He; repeat destruct Hc as [<-|Hc]; try destruct Hc; vm_compute; discriminate.
Defined.

(** ** Requests on which the parser goes wrong *)

Definition fed (s : string) (parser : RespParser) := feed parser (text s).
Definition line (s : string) : bytes := text s ++ CRLF.

(** A request that is not one takes the commands before it along, and stays: the
    connection answers with the same error from then on. *)
Example malformed_requests_poison_the_connection :
  let bad := mk_RespParser (line "*x") 1024 in
  let failure := Err (InvalidRequest "invalid array length") in
  feed (mk_RespParser [] 1024) (line "DEL a" ++ line "*x") = Some (failure, bad) /\
  forall s, 4 + zlen (text s) <= 1024 ->
    exists rest, feed bad (text s) = Some (failure, mk_RespParser rest 1024) /\ take 4 rest = line "*x".
Proof.
  split; [vm_compute; reflexivity|]. intros s Hs. exists (line "*x" ++ text s). split; [|reflexivity].
  unfold feed. cbn [buffer max_buffer]. rewrite zlen_app. change (zlen (line "*x")) with 4.
  destruct (Z.ltb_spec 1024 (4 + zlen (text s))); [lia|].
  change (line "*x" ++ text s) with ([byte_of 42] ++ text "x" ++ CRLF ++ text s). cbn [feed_loop]. rewrite parse_array.
  change 1 with (zlen [byte_of 42]). rewrite (find_crlf_spec [byte_of 42] (text "x") (text s)), slice_app_mid; [reflexivity|].
  by repeat constructor.
Qed.

(** An element of an array that is not a bulk string is waited for whatever follows. *)
Example other_elements_are_never_answered l : parse_one (line "*1" ++ text ":1" ++ l) = Some (Ok None).
Proof.
  change (line "*1" ++ text ":1" ++ l) with ([byte_of 42] ++ text "1" ++ CRLF ++ text ":1" ++ l). rewrite parse_array.
  change 1 with (zlen [byte_of 42]). rewrite (find_crlf_spec [byte_of 42] (text "1") (text ":1" ++ l)), slice_app_mid; [reflexivity|].
  by repeat constructor.
Qed.

(** Lengths near the width of a machine word, and counts of parts above what a vector
    can hold, end the task of the connection. *)
Example huge_lengths_panic :
  parse_one (line "*1" ++ line "$18446744073709551588") = None /\ parse_one (line "*999999999999999999") = None.
Proof. split; vm_compute; reflexivity. Qed.

Definition replied (o : option (result MiniDbError CommandResult * Db)) : option bytes :=
  match o with Some (Ok (Reply bytes), _) => Some bytes | _ => None end.
Definition ask (arguments : list bytes) (self : Db) : option bytes :=
  replied (handle codec in_memory None (calm 0) arguments self).

(** A key that is missing and one that never expires have the same time to live, 0. *)
Example time_to_live_rounds_to_zero :
  ask [text "TTL"; text "a"] empty = Some (line ":0") /\ ask [text "TTL"; key "a"] coloured = Some (line ":0").
Proof. split; vm_compute; reflexivity. Qed.

(** The name of an unknown command is repeated with its ends of lines: one command, two
    replies. *)
Example unknown_commands_answer_twice :
  ask [text "A'" ++ CRLF ++ line "+PONG"] empty = Some (line "-ERR unknown command 'A'" ++ line "+PONG" ++ line "'").
Proof. vm_compute. reflexivity. Qed.
End ServerExamples.
