(* ===== verification/LockPool.v ===== *)
(** * The handles of shards ([crates/minidb/src/cluster]: [lock_pool.rs], [shard.rs])

    The cache of open shards: a writer of a shard holds its lock and is shared by the
    callers of one process; a reader reads the files of a shard, and is used again as
    long as the files look as they did, catches up when only the log has grown, and is
    opened again otherwise.

    The directory of a shard is the number of changes made to it, and a handle has seen
    so many of them; the metadata of its files is a function of that number.  What opening a
    database, catching up and closing give, the clock, and what other tasks do while a
    call sleeps are arguments.  A handle lives as long as callers use it; the number of
    users counts the callers and the task of a lease, not the entry of the pool. *)

From stdpp Require Import pretty.
From S2P Require Import Prelude.

Module LockPool.

(** ** Data *)

Record LockPoolStats := mk_LockPoolStats {
  writer_opens : Z; reader_opens : Z; reader_reopens : Z; incremental_catchups : Z; catchup_frames_applied : Z; lock_waits : Z; evictions : Z;
}.
Definition LockPoolStats_default : LockPoolStats := mk_LockPoolStats 0 0 0 0 0 0 0.

Record LockPoolOptions := mk_LockPoolOptions {
  lock_acquire_timeout_millis : Z; lock_hold_millis : Z; max_writers : Z; max_readers : Z; read_only : bool;
}.

Inductive LockPoolError := ReadOnly | Closed | Locked | Failed.

Record ShardHandle := mk_ShardHandle { shard_id : Z; writer_handle : bool; seen : Z; users : nat; is_open : bool }.

(** How the files of a shard look: the modification time, as it is printed, and the
    length of each one that is there. *)
Definition Fingerprint : Type := list string.
Definition shard_fingerprint (metadata : string -> option (string * Z)) : Fingerprint :=
  map (fun name => match metadata name with Some (modified, len) => (modified +:+ ":" +:+ pretty len)%string | None => "-"%string end)
    ["db.wal"; "db.snapshot"; "db.indexes.json"; "db.textindexes.json"]%string.

Record WriterEntry := mk_WriterEntry { w_handle : nat; w_last_used : Z; w_opened : Z }.
Record ReaderEntry := mk_ReaderEntry { r_handle : nat; r_fingerprint : Fingerprint; r_wal_mark : option Z; r_last_used : Z }.

(** The pool, and all handles ever opened. *)
Record Pool := mk_Pool {
  handles : list ShardHandle; writers : gmap Z WriterEntry; readers : gmap Z ReaderEntry; pool_closed : bool; stats : LockPoolStats;
}.

Definition set_handles (h : list ShardHandle) (p : Pool) : Pool := mk_Pool h (writers p) (readers p) (pool_closed p) (stats p).
Definition set_writers (w : gmap Z WriterEntry) (p : Pool) : Pool := mk_Pool (handles p) w (readers p) (pool_closed p) (stats p).
Definition set_readers (r : gmap Z ReaderEntry) (p : Pool) : Pool := mk_Pool (handles p) (writers p) r (pool_closed p) (stats p).
Definition count (f : LockPoolStats -> LockPoolStats) (p : Pool) : Pool :=
  mk_Pool (handles p) (writers p) (readers p) (pool_closed p) (f (stats p)).

Definition update_handle (f : ShardHandle -> ShardHandle) (id : nat) (p : Pool) : Pool := set_handles (alter f id (handles p)) p.
Definition use_handle : nat -> Pool -> Pool := update_handle (fun h => mk_ShardHandle (shard_id h) (writer_handle h) (seen h) (S (users h)) (is_open h)).
Definition release_handle : nat -> Pool -> Pool :=
  update_handle (fun h => mk_ShardHandle (shard_id h) (writer_handle h) (seen h) (pred (users h)) (is_open h)).
Definition close_handle : nat -> Pool -> Pool := update_handle (fun h => mk_ShardHandle (shard_id h) (writer_handle h) (seen h) (users h) false).
Definition see_changes (now_seen : Z) : nat -> Pool -> Pool :=
  update_handle (fun h => mk_ShardHandle (shard_id h) (writer_handle h) now_seen (users h) (is_open h)).

(** [Arc::strong_count] of the handle of an entry. *)
Definition strong_count (id : nat) (p : Pool) : nat := S (default 0%nat (users <$> handles p !! id)).

(** What happens around one call: the clock, the directory of the shard at each look,
    what opening, catching up and closing give, and what other tasks do while it
    sleeps. *)
Record PoolIo := mk_PoolIo {
  now : nat -> Z;
  directory : nat -> Z;
  open_writer : nat -> result LockPoolError ();
  open_reader : nat -> result LockPoolError (option Z);
  catch_up : result LockPoolError (option (Z * Z));
  closing : result LockPoolError ();
  between : nat -> Pool -> Pool;
}.

Section pool.
Context (metadata : Z -> string -> option (string * Z)) (options : LockPoolOptions).

(** ** Eviction *)

(** The entry no caller uses that was used the longest time ago. *)
Definition victim {E} (id : E -> nat) (last_used : E -> Z) (entries : gmap Z E) (p : Pool) : option (Z * E) :=
  fold_left (fun best (entry : Z * E) =>
    if Nat.eqb (strong_count (id entry.2) p) 1 then
      match best with
      | Some chosen => if last_used entry.2 <? last_used chosen.2 then Some entry else best
      | None => Some entry
      end
    else best) (map_to_list entries) None.

Definition evicted (s : LockPoolStats) : LockPoolStats :=
  mk_LockPoolStats (writer_opens s) (reader_opens s) (reader_reopens s) (incremental_catchups s) (catchup_frames_applied s) (lock_waits s) (evictions s + 1).

(** One round for each entry is enough. *)
Fixpoint evict_writers_loop (fuel : nat) (p : Pool) : Pool :=
  match fuel with
  | O => p
  | S fuel =>
      if Z.of_nat (size (writers p)) <=? max_writers options then p
      else
        match victim w_handle w_last_used (writers p) p with
        | None => p
        | Some (shard, entry) => evict_writers_loop fuel (close_handle (w_handle entry) (count evicted (set_writers (delete shard (writers p)) p)))
        end
  end.
Definition evict_writers (p : Pool) : Pool := evict_writers_loop (size (writers p)) p.

Fixpoint evict_readers_loop (fuel : nat) (p : Pool) : Pool :=
  match fuel with
  | O => p
  | S fuel =>
      if Z.of_nat (size (readers p)) <=? max_readers options then p
      else
        match victim r_handle r_last_used (readers p) p with
        | None => p
        | Some (shard, entry) => evict_readers_loop fuel (close_handle (r_handle entry) (count evicted (set_readers (delete shard (readers p)) p)))
        end
  end.
Definition evict_readers (p : Pool) : Pool := evict_readers_loop (size (readers p)) p.

(** ** Writers *)

Definition touch_writer (shard : Z) (entry : WriterEntry) (time : Z) (p : Pool) : Pool :=
  set_writers (<[shard := mk_WriterEntry (w_handle entry) time (w_opened entry)]> (writers p)) p.

Definition waited (s : LockPoolStats) : LockPoolStats :=
  mk_LockPoolStats (writer_opens s) (reader_opens s) (reader_reopens s) (incremental_catchups s) (catchup_frames_applied s) (lock_waits s + 1) (evictions s).
Definition writer_opened (s : LockPoolStats) : LockPoolStats :=
  mk_LockPoolStats (writer_opens s + 1) (reader_opens s) (reader_reopens s) (incremental_catchups s) (catchup_frames_applied s) (lock_waits s) (evictions s).

(** Opens the shard, sleeping as long as another process holds its lock and there is
    time; [None] when the fuel is used up first. *)
Fixpoint acquire_writer (io : PoolIo) (deadline : Z) (fuel i : nat) (delay : Z) (p : Pool) : option (result LockPoolError () * Pool) :=
  match fuel with
  | O => None
  | S fuel =>
      match open_writer io i with
      | Ok _ => Some (Ok (), p)
      | Err Locked =>
          if now io (S i) + delay <=? deadline then
            acquire_writer io deadline fuel (S i) (Z.min (delay * 2) 250) (between io i (count waited p))
          else Some (Err Locked, p)
      | Err e => Some (Err e, p)
      end
  end.

(** The new handle has its caller as user, and the task of its lease. *)
Definition install_writer (io : PoolIo) (shard : Z) (p : Pool) : nat * Pool :=
  let id := length (handles p) in
  let handle := mk_ShardHandle shard true (directory io 0) (if 0 <? lock_hold_millis options then 2 else 1) true in
  let p := count writer_opened (set_handles (handles p ++ [handle]) p) in
  let p := set_writers (<[shard := mk_WriterEntry id (now io 0) (now io 0)]> (writers p)) p in
  (id, evict_writers p).

Definition writer (io : PoolIo) (fuel : nat) (shard : Z) (p : Pool) : option (result LockPoolError nat * Pool) :=
  if read_only options then Some (Err ReadOnly, p)
  else if pool_closed p then Some (Err Closed, p)
  else
    let open_new p :=
      '(r, p) ← acquire_writer io (now io 0 + lock_acquire_timeout_millis options) fuel 0 10 p;
      match r with Err e => Some (Err e, p) | Ok _ => let '(id, p) := install_writer io shard p in Some (Ok id, p) end in
    match writers p !! shard with
    | None => open_new p
    | Some entry =>
        if (lock_hold_millis options =? 0) || (now io 0 - w_opened entry <? lock_hold_millis options) || (1 <? strong_count (w_handle entry) p)%nat
        then Some (Ok (w_handle entry), use_handle (w_handle entry) (touch_writer shard entry (now io 0) p))
        else
          let p := close_handle (w_handle entry) (set_writers (delete shard (writers p)) p) in
          match closing io with Err e => Some (Err e, p) | Ok _ => open_new p end
    end.

(** A look of the task of a lease whose time is over: with whether it is finished.  It
    gives its use of the handle up when it is. *)
Definition retire_writer (shard : Z) (leased : nat) (p : Pool) : bool * Pool :=
  match writers p !! shard with
  | None => (true, release_handle leased p)
  | Some entry =>
      if negb (Nat.eqb (w_handle entry) leased) then (true, release_handle leased p)
      else if (strong_count leased p <=? 2)%nat then (true, release_handle leased (close_handle leased (set_writers (delete shard (writers p)) p)))
      else (false, p)
  end.

Definition invalidate_writer (io : PoolIo) (shard : Z) (p : Pool) : result LockPoolError () * Pool :=
  match writers p !! shard with
  | None => (Ok (), p)
  | Some entry => (closing io, close_handle (w_handle entry) (set_writers (delete shard (writers p)) p))
  end.

(** ** Readers *)

Definition touch_reader (shard : Z) (entry : ReaderEntry) (time : Z) (p : Pool) : Pool :=
  set_readers (<[shard := mk_ReaderEntry (r_handle entry) (r_fingerprint entry) (r_wal_mark entry) time]> (readers p)) p.

Definition reader_reopened (s : LockPoolStats) : LockPoolStats :=
  mk_LockPoolStats (writer_opens s) (reader_opens s) (reader_reopens s + 1) (incremental_catchups s) (catchup_frames_applied s) (lock_waits s) (evictions s).
Definition reader_opened (s : LockPoolStats) : LockPoolStats :=
  mk_LockPoolStats (writer_opens s) (reader_opens s + 1) (reader_reopens s) (incremental_catchups s) (catchup_frames_applied s) (lock_waits s) (evictions s).
Definition caught_up (frames : Z) (s : LockPoolStats) : LockPoolStats :=
  mk_LockPoolStats (writer_opens s) (reader_opens s) (reader_reopens s) (incremental_catchups s + 1) (catchup_frames_applied s + frames)
    (lock_waits s) (evictions s).

(** Waits while a reader that must change is in use.  The writer of the shard, when this
    process has it, is the best reader. *)
Inductive Waited := Answer (r : result LockPoolError nat) | Ready (i : nat) (fingerprint : Fingerprint).

Fixpoint wait_reader (io : PoolIo) (fuel i : nat) (shard : Z) (p : Pool) : option (Waited * Pool) :=
  match fuel with
  | O => None
  | S fuel =>
      if pool_closed p then Some (Answer (Err Closed), p)
      else
        match (if read_only options then None else writers p !! shard) with
        | Some entry => Some (Answer (Ok (w_handle entry)), use_handle (w_handle entry) (touch_writer shard entry (now io i) p))
        | None =>
            let fingerprint := shard_fingerprint (metadata (directory io i)) in
            let busy :=
              match readers p !! shard with
              | Some reader => negb (bool_decide (r_fingerprint reader = fingerprint)) && (1 <? strong_count (r_handle reader) p)%nat
              | None => false
              end in
            if busy then wait_reader io fuel (S i) shard (between io i p) else Some (Ready i fingerprint, p)
        end
  end.

(** What a reader that is there answers; [None] when it must be opened again. *)
Definition refresh_reader (io : PoolIo) (i : nat) (fingerprint : Fingerprint) (shard : Z) (p : Pool) : option (nat * Pool) :=
  entry ← readers p !! shard;
  if decide (r_fingerprint entry = fingerprint) then Some (r_handle entry, use_handle (r_handle entry) (touch_reader shard entry (now io i) p))
  else if decide (tail (r_fingerprint entry) = tail fingerprint) then
    match r_wal_mark entry, catch_up io with
    | Some _, Ok (Some (offset, frames)) =>
        let entry := mk_ReaderEntry (r_handle entry) fingerprint (Some offset) (now io i) in
        Some (r_handle entry,
          use_handle (r_handle entry) (see_changes (directory io (S i)) (r_handle entry)
            (count (caught_up frames) (set_readers (<[shard := entry]> (readers p)) p))))
    | _, _ => None
    end
  else None.

(** Drops a reader; it is closed when nobody uses it. *)
Definition drop_reader (io : PoolIo) (shard : Z) (p : Pool) : result LockPoolError () * Pool :=
  match readers p !! shard with
  | None => (Ok (), p)
  | Some entry =>
      let p := count reader_reopened (set_readers (delete shard (readers p)) p) in
      if Nat.eqb (strong_count (r_handle entry) p) 1 then (closing io, close_handle (r_handle entry) p) else (Ok (), p)
  end.

(** Up to three attempts; with the number of the one that succeeded. *)
Fixpoint open_attempts (io : PoolIo) (attempts i : nat) (p : Pool) : result LockPoolError (nat * option Z) * Pool :=
  match open_reader io i with
  | Ok mark => (Ok (i, mark), p)
  | Err e => match attempts with O => (Err e, p) | S attempts => open_attempts io attempts (S i) (between io i p) end
  end.

Definition install_reader (io : PoolIo) (i : nat) (mark : option Z) (shard : Z) (p : Pool) : nat * Pool :=
  let id := length (handles p) in
  let p := count reader_opened (set_handles (handles p ++ [mk_ShardHandle shard false (directory io i) 1 true]) p) in
  let entry := mk_ReaderEntry id (shard_fingerprint (metadata (directory io (S i)))) mark (now io i) in
  (id, evict_readers (set_readers (<[shard := entry]> (readers p)) p)).

Definition reader (io : PoolIo) (fuel : nat) (shard : Z) (p : Pool) : option (result LockPoolError nat * Pool) :=
  '(w, p) ← wait_reader io fuel 0 shard p;
  match w with
  | Answer r => Some (r, p)
  | Ready i fingerprint =>
      match refresh_reader io i fingerprint shard p with
      | Some (id, p) => Some (Ok id, p)
      | None =>
          let '(r, p) := drop_reader io shard p in
          match r with
          | Err e => Some (Err e, p)
          | Ok _ =>
              let '(r, p) := open_attempts io 2 (S i) p in
              match r with
              | Err e => Some (Err e, p)
              | Ok (i, mark) => let '(id, p) := install_reader io i mark shard p in Some (Ok id, p)
              end
          end
      end
  end.

(** ** The whole pool *)

Definition cached_counts (p : Pool) : Z * Z := (Z.of_nat (size (writers p)), Z.of_nat (size (readers p))).

(** Closes the handles of all entries; the first failure ends the call, which no later
    one repeats. *)
Fixpoint close_each (closings : nat -> result LockPoolError ()) (i : nat) (ids : list nat) (p : Pool) : result LockPoolError () * Pool :=
  match ids with
  | [] => (Ok (), p)
  | id :: ids =>
      let p := close_handle id p in
      match closings i with Ok _ => close_each closings (S i) ids p | Err e => (Err e, p) end
  end.

Definition close_all (closings : nat -> result LockPoolError ()) (p : Pool) : result LockPoolError () * Pool :=
  if pool_closed p then (Ok (), p)
  else
    let ids := map (fun entry => w_handle entry.2) (map_to_list (writers p)) ++ map (fun entry => r_handle entry.2) (map_to_list (readers p)) in
    close_each closings 0 ids (mk_Pool (handles p) ∅ ∅ true (stats p)).
End pool.
End LockPool.
