(* ===== verification/LockPoolFacts.v ===== *)
(** * The handles of shards: readers are fresh and what is in use is open

    The invariant [pool_ok]: the entries of the pool are open handles of their shards, a
    reader has seen the changes its fingerprint stands for, and a handle somebody uses is
    open.  Every call keeps it ([steps_ok]) as long as nobody writes to a shard between
    the opening of a reader and the look at its files that follows. *)

From S2P Require Import Prelude.
From S2P Require Import LockPool.
Import LockPool.

Module LockPoolFacts.

Section pool.
Context (metadata : Z -> string -> option (string * Z)) (options : LockPoolOptions).
Implicit Types (p q : Pool) (io : PoolIo) (shard : Z).

Definition handle_of p (id : nat) shard (writer : bool) (h : ShardHandle) : Prop :=
  handles p !! id = Some h /\ is_open h = true /\ writer_handle h = writer /\ shard_id h = shard.

Definition writer_ok p shard (entry : WriterEntry) : Prop := exists h, handle_of p (w_handle entry) shard true h.
Definition reader_ok p shard (entry : ReaderEntry) : Prop :=
  exists h v, handle_of p (r_handle entry) shard false h /\ r_fingerprint entry = shard_fingerprint (metadata v) /\ v <= seen h.

Record pool_ok p : Prop := {
  ok_writers : map_Forall (writer_ok p) (writers p);
  ok_readers : map_Forall (reader_ok p) (readers p);
  ok_used : forall id h, handles p !! id = Some h -> (0 < users h)%nat -> is_open h = true;
}.

(** The handles of one pool in another. *)
Definition keeps p q : Prop := forall id h, handles p !! id = Some h -> is_open h = true ->
  exists h', handles q !! id = Some h' /\ is_open h' = true /\ writer_handle h' = writer_handle h /\ shard_id h' = shard_id h /\ seen h <= seen h'.

Lemma writer_ok_keeps p q shard entry : keeps p q -> writer_ok p shard entry -> writer_ok q shard entry.
Proof. intros Hk (h & Hh & Ho & Hw & Hs). destruct (Hk _ _ Hh Ho) as (h' & ? & ? & ? & ? & _). exists h'. split_and!; congruence. Qed.

Lemma reader_ok_keeps p q shard entry : keeps p q -> reader_ok p shard entry -> reader_ok q shard entry.
Proof.
  intros Hk (h & v & (Hh & Ho & Hw & Hs) & Hf & Hv). destruct (Hk _ _ Hh Ho) as (h' & ? & ? & ? & ? & ?). exists h', v.
  split; [split_and!; congruence|]. split; [done|lia].
Qed.

(** A pool with the same entries, whose handles were kept. *)
Lemma pool_ok_keeps p q : keeps p q -> writers q = writers p -> readers q = readers p ->
  (forall id h, handles q !! id = Some h -> (0 < users h)%nat -> is_open h = true) -> pool_ok p -> pool_ok q.
Proof.
  intros Hk Hw Hr Hu [H1 H2 _]. split; [rewrite Hw|rewrite Hr|done].
  - intros shard entry E. by eapply writer_ok_keeps, H1.
  - intros shard entry E. by eapply reader_ok_keeps, H2.
Qed.

Lemma lookup_update f id p id' : handles (update_handle f id p) !! id' = (if decide (id' = id) then f <$> handles p !! id' else handles p !! id').
Proof.
  cbn [update_handle set_handles handles]. destruct (decide (id' = id)) as [->|]; [by rewrite list_lookup_alter_eq|by rewrite list_lookup_alter_ne].
Qed.

(** Changes of a handle that leave it open and of its shard. *)
Lemma pool_ok_update f id p : (forall h, handles p !! id = Some h -> is_open (f h) = is_open h /\ writer_handle (f h) = writer_handle h /\
    shard_id (f h) = shard_id h /\ seen h <= seen (f h) /\ ((0 < users (f h))%nat -> is_open h = true)) ->
  pool_ok p -> pool_ok (update_handle f id p).
Proof.
  intros Hf Hok. apply (pool_ok_keeps p); [|done|done| |done].
  - intros id' h Hh Ho. rewrite lookup_update. destruct (decide (id' = id)) as [->|].
    + destruct (Hf h Hh) as (? & ? & ? & ? & _). rewrite Hh. exists (f h). split_and!; [done|congruence..|lia].
    + exists h. split_and!; [done..|lia].
  - intros id' h. rewrite lookup_update. destruct (decide (id' = id)) as [->|]; [|apply (ok_used p Hok)].
    intros (h0 & Hh & ->)%fmap_Some Hu. destruct (Hf h0 Hh) as (-> & _ & _ & _ & Ho). by apply Ho.
Qed.

Lemma use_ok id p : (forall h, handles p !! id = Some h -> is_open h = true) -> pool_ok p -> pool_ok (use_handle id p).
Proof. intros Ho. apply pool_ok_update. intros h Hh. cbn. split_and!; try done. by intros _; apply Ho. Qed.

Lemma release_ok id p : pool_ok p -> pool_ok (release_handle id p).
Proof.
  intros Hok. apply pool_ok_update; [|done]. intros h Hh. cbn. split_and!; try done. intros Hu. apply (ok_used p Hok id h Hh). lia.
Qed.

Lemma see_ok v id p : (forall h, handles p !! id = Some h -> seen h <= v) -> pool_ok p -> pool_ok (see_changes v id p).
Proof. intros Hv Hok. apply pool_ok_update; [|done]. intros h Hh. cbn. split_and!; try done; [by apply Hv|by apply (ok_used p Hok id)]. Qed.

Lemma count_ok f p : pool_ok p -> pool_ok (count f p).
Proof. by intros [? ? ?]. Qed.

Lemma set_writers_ok w p : map_Forall (writer_ok p) w -> pool_ok p -> pool_ok (set_writers w p).
Proof. by intros ? [? ? ?]. Qed.

Lemma set_readers_ok r p : map_Forall (reader_ok p) r -> pool_ok p -> pool_ok (set_readers r p).
Proof. by intros ? [? ? ?]. Qed.

(** A new handle. *)
Lemma add_handle_ok h p : is_open h = true -> pool_ok p -> pool_ok (set_handles (handles p ++ [h]) p).
Proof.
  intros Ho Hok. apply (pool_ok_keeps p); [|done|done| |done].
  - intros id h' Hh ?. exists h'. cbn. rewrite lookup_app_l by (by eapply lookup_lt_Some). split_and!; [done..|lia].
  - intros id h' Hh Hu. cbn in Hh. apply lookup_app_Some in Hh as [Hh|[_ Hh]]; [by apply (ok_used p Hok id)|].
    apply list_lookup_singleton_Some in Hh as [_ <-]. done.
Qed.

(** Closing a handle nobody uses and no entry has. *)
Lemma close_ok id p h : handles p !! id = Some h -> users h = 0%nat ->
  (forall shard entry, writers p !! shard = Some entry -> w_handle entry <> id) ->
  (forall shard entry, readers p !! shard = Some entry -> r_handle entry <> id) -> pool_ok p -> pool_ok (close_handle id p).
Proof.
  intros Hh Hu Hw Hr [H1 H2 H3]. split.
  - intros shard entry E. destruct (H1 shard entry E) as (h' & Hh' & ?). exists h'. split; [|done].
    unfold close_handle. rewrite lookup_update. rewrite decide_False; [done|by eapply Hw].
  - intros shard entry E. destruct (H2 shard entry E) as (h' & v & (Hh' & Hrest) & ?). exists h', v. split; [|done]. split; [|done].
    unfold close_handle. rewrite lookup_update. rewrite decide_False; [done|by eapply Hr].
  - intros id' h' Hh' Hu'. unfold close_handle in Hh'. rewrite lookup_update in Hh'. destruct (decide (id' = id)) as [->|]; [|by eapply H3].
    rewrite Hh in Hh'. injection Hh' as <-. cbn in Hu'. lia.
Qed.

Lemma strong_one id p h : handles p !! id = Some h -> strong_count id p = S (users h).
Proof. unfold strong_count. by intros ->. Qed.

(** Taking the writer of a shard out and closing it. *)
Lemma close_writer_ok shard entry p : writers p !! shard = Some entry -> strong_count (w_handle entry) p = 1%nat -> pool_ok p ->
  pool_ok (close_handle (w_handle entry) (set_writers (delete shard (writers p)) p)).
Proof.
  intros E Hc Hok. destruct (ok_writers p Hok shard entry E) as (h & Hh & Ho & Hw & Hs). rewrite (strong_one _ _ h Hh) in Hc.
  apply (close_ok _ _ h); [done|lia| | |apply set_writers_ok; [|done]; apply map_Forall_delete, Hok].
  - intros shard' entry' Hd Heq. cbn in Hd. apply lookup_delete_Some in Hd as [Hne E']. destruct (ok_writers p Hok shard' entry' E') as (h' & Hh' & _ & _ & Hs').
    rewrite Heq, Hh in Hh'. congruence.
  - intros shard' entry' E' Heq. destruct (ok_readers p Hok shard' entry' E') as (h' & v & (Hh' & _ & Hw' & _) & _). rewrite Heq, Hh in Hh'. congruence.
Qed.

Lemma close_reader_ok shard entry p : readers p !! shard = Some entry -> strong_count (r_handle entry) p = 1%nat -> pool_ok p ->
  pool_ok (close_handle (r_handle entry) (set_readers (delete shard (readers p)) p)).
Proof.
  intros E Hc Hok. destruct (ok_readers p Hok shard entry E) as (h & v & (Hh & Ho & Hw & Hs) & _). rewrite (strong_one _ _ h Hh) in Hc.
  apply (close_ok _ _ h); [done|lia| | |apply set_readers_ok; [|done]; apply map_Forall_delete, Hok].
  - intros shard' entry' E' Heq. destruct (ok_writers p Hok shard' entry' E') as (h' & Hh' & _ & Hw' & _). rewrite Heq, Hh in Hh'. congruence.
  - intros shard' entry' Hd Heq. cbn in Hd. apply lookup_delete_Some in Hd as [Hne E']. destruct (ok_readers p Hok shard' entry' E') as (h' & v' & (Hh' & _ & _ & Hs') & _).
    rewrite Heq, Hh in Hh'. congruence.
Qed.

(** ** Eviction *)

(** What is in use stays as it is. *)
Definition users_kept p q : Prop := forall id h, handles p !! id = Some h -> (0 < users h)%nat -> handles q !! id = Some h.

#[local] Instance users_kept_preorder : PreOrder users_kept.
Proof. split; [by intros p id h|]. intros p q r Hpq Hqr id h Hh Hu. apply Hqr; [by apply Hpq|done]. Qed.

Lemma close_kept id p : strong_count id p = 1%nat -> users_kept p (close_handle id p).
Proof.
  intros Hc id' h Hh Hu. unfold close_handle. rewrite lookup_update, decide_False; [done|]. intros ->.
  rewrite (strong_one _ _ h Hh) in Hc. lia.
Qed.

Lemma victim_spec {E} (id : E -> nat) (last_used : E -> Z) (entries : gmap Z E) p shard entry :
  victim id last_used entries p = Some (shard, entry) -> entries !! shard = Some entry /\ strong_count (id entry) p = 1%nat.
Proof.
  unfold victim. rewrite <- elem_of_map_to_list.
  assert (forall l best, (forall x, best = Some x -> x ∈ map_to_list entries /\ strong_count (id x.2) p = 1%nat) ->
    (forall x, x ∈ l -> x ∈ map_to_list entries) ->
    forall x, fold_left (fun best (entry : Z * E) => if Nat.eqb (strong_count (id entry.2) p) 1 then
      match best with Some chosen => if last_used entry.2 <? last_used chosen.2 then Some entry else best | None => Some entry end
      else best) l best = Some x -> x ∈ map_to_list entries /\ strong_count (id x.2) p = 1%nat) as Hgen.
  { induction l as [|y l IH]; intros best Hb Hl x; cbn [fold_left]; [apply Hb|]. apply IH; [|by intros z Hz; apply Hl; right].
    destruct (Nat.eqb_spec (strong_count (id y.2) p) 1) as [Hy|]; [|done].
    assert (y ∈ map_to_list entries) by (apply Hl; by left).
    destruct best as [chosen|]; [destruct (_ <? _)|]; intros z [= <-]; try done. by apply Hb. }
  intros Hv. by apply (Hgen (map_to_list entries) None ltac:(done) ltac:(done)) in Hv.
Qed.

Lemma evict_writers_ok p : pool_ok p -> pool_ok (evict_writers options p) /\ users_kept p (evict_writers options p) /\
  readers (evict_writers options p) = readers p.
Proof.
  unfold evict_writers. generalize (size (writers p)) as fuel. intros fuel. revert p. induction fuel as [|fuel IH]; intros p Hok; cbn [evict_writers_loop];
    [by split_and!|]. destruct (_ <=? _); [by split_and!|]. destruct (victim _ _ _ _) as [[shard entry]|] eqn:E; [|by split_and!].
  apply victim_spec in E as [E Hc]. destruct (IH (close_handle (w_handle entry) (count evicted (set_writers (delete shard (writers p)) p)))) as (H1 & H2 & H3).
  - apply (count_ok evicted) in Hok. exact (close_writer_ok shard entry (count evicted p) E Hc Hok).
  - split_and!; [done| |done]. etrans; [|exact H2]. intros id h Hh Hu. by apply (close_kept (w_handle entry) p Hc).
Qed.

Lemma evict_readers_ok p : pool_ok p -> pool_ok (evict_readers options p) /\ users_kept p (evict_readers options p).
Proof.
  unfold evict_readers. generalize (size (readers p)) as fuel. intros fuel. revert p. induction fuel as [|fuel IH]; intros p Hok; cbn [evict_readers_loop];
    [by split|]. destruct (_ <=? _); [by split|]. destruct (victim _ _ _ _) as [[shard entry]|] eqn:E; [|by split].
  apply victim_spec in E as [E Hc]. destruct (IH (close_handle (r_handle entry) (count evicted (set_readers (delete shard (readers p)) p)))) as (H1 & H2).
  - apply (count_ok evicted) in Hok. exact (close_reader_ok shard entry (count evicted p) E Hc Hok).
  - split; [done|]. etrans; [|exact H2]. intros id h Hh Hu. by apply (close_kept (r_handle entry) p Hc).
Qed.

(** ** The surroundings of a call *)

(** Changes are never undone, and nobody writes between the opening of a reader and the
    look at its files that follows. *)
Record undisturbed io : Prop := {
  directory_grows : forall i, directory io i <= directory io (S i);
  settled : forall i mark, open_reader io i = Ok mark -> directory io (S i) = directory io i;
}.

Record surroundings io : Prop := {
  calm :> undisturbed io;
  others_ok : forall i p, pool_ok p -> pool_ok (between io i p);
}.

Lemma grows io i j : surroundings io -> (i <= j)%nat -> directory io i <= directory io j.
Proof. intros Hio. induction 1 as [|j _ IH]; [lia|]. pose proof (directory_grows io Hio j). lia. Qed.

(** The answer of a call: an open handle of the shard in use, with all changes made
    before the call. *)
Definition fresh io shard (id : nat) p : Prop :=
  exists h, handles p !! id = Some h /\ is_open h = true /\ (0 < users h)%nat /\ shard_id h = shard /\
    (writer_handle h = true \/ directory io 0 <= seen h).

Lemma lookup_use id p h : handles p !! id = Some h ->
  handles (use_handle id p) !! id = Some (mk_ShardHandle (shard_id h) (writer_handle h) (seen h) (S (users h)) (is_open h)).
Proof. intros Hh. unfold use_handle. by rewrite lookup_update, decide_True, Hh. Qed.

(** ** Writers *)

Lemma acquire_ok io deadline fuel : surroundings io -> forall i delay p r p', pool_ok p ->
  acquire_writer io deadline fuel i delay p = Some (r, p') -> pool_ok p'.
Proof.
  intros Hio. induction fuel as [|fuel IH]; intros i delay p r p' Hok; [done|]. cbn [acquire_writer].
  destruct (open_writer io i) as [|[]]; try (by intros [= _ <-]). destruct (_ <=? _); [|by intros [= _ <-]].
  apply IH, Hio. by apply count_ok.
Qed.

Lemma install_writer_ok io shard p id p' : pool_ok p -> install_writer options io shard p = (id, p') -> pool_ok p' /\ fresh io shard id p'.
Proof.
  intros Hok. unfold install_writer. cbv zeta. set (h := mk_ShardHandle _ _ _ _ _). intros [= <- <-].
  set (q := set_writers _ _). assert (handles q !! length (handles p) = Some h) as Hh by (cbn; by rewrite lookup_app_r, Nat.sub_diag).
  assert (pool_ok q) as Hq.
  { pose proof (add_handle_ok h p eq_refl Hok) as Hadd. apply (count_ok writer_opened) in Hadd. apply set_writers_ok; [|exact Hadd].
    apply map_Forall_insert_2; [|apply Hadd]. by exists h. }
  destruct (evict_writers_ok q Hq) as (Hev & Hkept & _). split; [exact Hev|]. exists h. assert (0 < users h)%nat by (cbn; destruct (0 <? _); lia).
  split; [by apply Hkept|]. split_and!; [done..|by left].
Qed.

Lemma writer_ok_call io fuel shard p r p' : surroundings io -> pool_ok p -> writer options io fuel shard p = Some (r, p') ->
  pool_ok p' /\ (forall id, r = Ok id -> fresh io shard id p').
Proof.
  intros Hio Hok. unfold writer. destruct (read_only options); [by intros [= <- <-]|]. destruct (pool_closed p); [by intros [= <- <-]|].
  assert (forall q, pool_ok q -> ('(r, q) ← acquire_writer io (now io 0 + lock_acquire_timeout_millis options) fuel 0 10 q;
    match r with Err e => Some (Err e, q) | Ok _ => let '(id, q) := install_writer options io shard q in Some (Ok id, q) end) = Some (r, p') ->
    pool_ok p' /\ (forall id, r = Ok id -> fresh io shard id p')) as Hnew.
  { intros q Hq ([x q'] & Ha & Hr)%bind_Some. pose proof (acquire_ok io _ fuel Hio _ _ _ _ _ Hq Ha) as Hq'. destruct x; [|by injection Hr as <- <-].
    destruct (install_writer _ _ _ _) as [id q2] eqn:Ei. apply install_writer_ok in Ei as []; [|done]. injection Hr as <- <-. split; [done|]. by intros ? [= <-]. }
  destruct (writers p !! shard) as [entry|] eqn:E; [|by apply Hnew]. pose proof (ok_writers p Hok shard entry E) as (h & Hh & Ho & Hw & Hs).
  destruct (_ || _ || _) eqn:Hreuse.
  - intros [= <- <-]. split.
    + apply use_ok; [intros h'; cbn; intros Hh'; congruence|]. apply set_writers_ok; [|done]. apply map_Forall_insert_2; [by exists h|apply Hok].
    + intros ? [= <-]. eexists. split; [by apply lookup_use; cbn|]. cbn. split_and!; [done|lia|done|by left].
  - apply orb_false_iff in Hreuse as [_ Hc%Nat.ltb_ge]. assert (strong_count (w_handle entry) p = 1%nat) as Hc1 by (rewrite (strong_one _ _ h Hh) in *; lia).
    pose proof (close_writer_ok shard entry p E Hc1 Hok) as Hclosed. destruct (closing io); [by apply Hnew|by intros [= <- <-]].
Qed.

Lemma close_release id w p : release_handle id (close_handle id (set_writers w p)) = close_handle id (set_writers w (release_handle id p)).
Proof.
  unfold release_handle, close_handle, update_handle, set_handles, set_writers. cbn [handles]. f_equal.
  apply list_eq. intros j. by destruct (decide (j = id)) as [->|]; rewrite ?list_lookup_alter_eq, ?list_lookup_alter_ne by done; [destruct (_ !! _)|].
Qed.

Lemma retire_ok shard leased p : pool_ok p -> pool_ok (retire_writer shard leased p).2.
Proof.
  intros Hok. unfold retire_writer. destruct (writers p !! shard) as [entry|] eqn:E; [|by apply release_ok].
  destruct (Nat.eqb_spec (w_handle entry) leased) as [<-|]; cbn [negb]; [|by apply release_ok].
  destruct (Nat.leb_spec (strong_count (w_handle entry) p) 2) as [Hc|]; [|done]. cbn [snd].
  destruct (ok_writers p Hok shard entry E) as (h & Hh & _). rewrite (strong_one _ _ h Hh) in Hc.
  rewrite close_release. apply (close_writer_ok shard entry (release_handle (w_handle entry) p)); [exact E| |by apply release_ok].
  unfold release_handle. rewrite (strong_one _ _ (mk_ShardHandle (shard_id h) (writer_handle h) (seen h) (pred (users h)) (is_open h))); [cbn; lia|].
  by rewrite lookup_update, decide_True, Hh.
Qed.

(** ** Readers *)

(** The look at the files that a reader still open goes by, and the entries then. *)
Lemma wait_reader_ok io fuel : surroundings io -> forall i shard p w p', pool_ok p -> wait_reader metadata options io fuel i shard p = Some (w, p') ->
  pool_ok p' /\
  match w with
  | Answer (Ok id) => exists h, handle_of p' id shard true h /\ (0 < users h)%nat
  | Answer (Err _) => True
  | Ready j fingerprint => (i <= j)%nat /\ fingerprint = shard_fingerprint (metadata (directory io j)) /\
      forall entry, readers p' !! shard = Some entry -> r_fingerprint entry <> fingerprint -> strong_count (r_handle entry) p' = 1%nat
  end.
Proof.
  intros Hio. induction fuel as [|fuel IH]; intros i shard p w p' Hok; [done|]. cbn [wait_reader].
  destruct (pool_closed p); [by intros [= <- <-]|]. destruct (if read_only options then None else writers p !! shard) as [entry|] eqn:E.
  - assert (writers p !! shard = Some entry) as E' by (by destruct (read_only options)). destruct (ok_writers p Hok shard entry E') as (h & Hh & Ho & Hw & Hs).
    intros [= <- <-]. split.
    + apply use_ok; [intros h'; cbn; intros Hh'; congruence|]. apply set_writers_ok; [|done]. apply map_Forall_insert_2; [by exists h|apply Hok].
    + exists (mk_ShardHandle (shard_id h) (writer_handle h) (seen h) (S (users h)) (is_open h)). split; [|cbn; lia]. unfold handle_of.
      split; [|done]. unfold use_handle. rewrite lookup_update, decide_True by done. cbn. by rewrite Hh.
  - destruct (match readers p !! shard with Some _ => _ | None => _ end) eqn:Hbusy.
    + intros Hw. apply IH in Hw as [? Hw]; [|by apply others_ok]. split; [done|]. destruct w as [[]|]; try done. destruct Hw as (? & ? & ?). split_and!; [lia|done..].
    + intros [= <- <-]. split_and!; [done..|]. intros entry' Er Hne. rewrite Er in Hbusy. rewrite bool_decide_eq_false_2 in Hbusy by done.
      cbn [negb andb] in Hbusy. apply Nat.ltb_ge in Hbusy. unfold strong_count in *. lia.
Qed.

Definition distinct_looks : Prop := forall v v', shard_fingerprint (metadata v) = shard_fingerprint (metadata v') -> v = v'.

(** A reader that caught up: its entry is the only one of its handle. *)
Lemma caught_up_ok shard entry v now_seen mark time p h : readers p !! shard = Some entry -> handle_of p (r_handle entry) shard false h -> v <= now_seen ->
  pool_ok p -> pool_ok (see_changes now_seen (r_handle entry)
    (set_readers (<[shard := mk_ReaderEntry (r_handle entry) (shard_fingerprint (metadata v)) mark time]> (readers p)) p)).
Proof.
  intros E (Hh & Ho & Hw & Hs) Hv Hok. split.
  - intros shard' e E'. cbn in E'. destruct (ok_writers p Hok shard' e E') as (h' & Hh' & Ho' & Hw' & Hs'). exists h'. split; [|done].
    unfold see_changes. rewrite lookup_update, decide_False; [done|]. intros Heq. rewrite Heq, Hh in Hh'. congruence.
  - intros shard' e E'. cbn in E'. apply lookup_insert_Some in E' as [[<- <-]|[Hne E']].
    + exists (mk_ShardHandle (shard_id h) (writer_handle h) now_seen (users h) (is_open h)), v. split; [|done]. split; [|done].
      unfold see_changes. rewrite lookup_update, decide_True by done. cbn. by rewrite Hh.
    + destruct (ok_readers p Hok shard' e E') as (h' & v' & (Hh' & ? & ? & Hs') & ?). exists h', v'. split; [|done]. split; [|done].
      unfold see_changes. rewrite lookup_update, decide_False; [done|]. intros Heq. rewrite Heq, Hh in Hh'. congruence.
  - intros id h' Hh' Hu. unfold see_changes in Hh'. rewrite lookup_update in Hh'. cbn [set_readers handles] in Hh'.
    destruct (decide (id = r_handle entry)) as [->|]; [|by eapply (ok_used p Hok)]. rewrite Hh in Hh'. by injection Hh' as <-.
Qed.

Lemma refresh_ok io i shard p id p' : surroundings io -> distinct_looks -> pool_ok p ->
  refresh_reader io i (shard_fingerprint (metadata (directory io i))) shard p = Some (id, p') -> pool_ok p' /\ fresh io shard id p'.
Proof.
  intros Hio Hd Hok Hr. apply bind_Some in Hr as (entry & E & Hr). destruct (ok_readers p Hok shard entry E) as (h & v & (Hh & Ho & Hw & Hs) & Hf & Hv).
  pose proof (grows io 0 i Hio ltac:(lia)) as Hi. pose proof (grows io 0 (S i) Hio ltac:(lia)) as Hsi. destruct (decide (r_fingerprint entry = _)) as [Heq|Hne].
  - injection Hr as <- <-. rewrite Hf in Heq. apply Hd in Heq. subst v. split.
    + apply use_ok; [intros h'; cbn; intros Hh'; congruence|]. apply set_readers_ok; [|done]. apply map_Forall_insert_2; [|apply Hok].
      exists h, (directory io i). done.
    + eexists. split; [by apply lookup_use; cbn|]. cbn. split_and!; [done|lia|done|right; lia].
  - destruct (decide (tail _ = tail _)); [|done]. destruct (r_wal_mark entry); [|done]. destruct (catch_up io) as [[[offset frames]|]|]; [|done..].
    injection Hr as <- <-. split.
    + apply use_ok; [|apply (count_ok (caught_up frames)) in Hok; apply (caught_up_ok shard entry _ _ _ _ (count (caught_up frames) p) h E); [done|exact (directory_grows io Hio i)|done]].
      intros h' Hh'. unfold see_changes in Hh'. rewrite lookup_update, decide_True in Hh' by done. cbn in Hh'. rewrite Hh in Hh'. by injection Hh' as <-.
    + eexists. split; [apply lookup_use; unfold see_changes; rewrite lookup_update, decide_True by done; cbn; by rewrite Hh|]. cbn. split_and!; [done|lia|done|right; lia].
Qed.

Lemma drop_ok io shard p : pool_ok p -> pool_ok (drop_reader io shard p).2.
Proof.
  intros Hok. unfold drop_reader. destruct (readers p !! shard) as [entry|] eqn:E; [|done]. cbv zeta.
  apply (count_ok reader_reopened) in Hok. destruct (Nat.eqb_spec (strong_count (r_handle entry)
    (count reader_reopened (set_readers (delete shard (readers p)) p))) 1) as [Hc|]; cbn [snd].
  - exact (close_reader_ok shard entry (count reader_reopened p) E Hc Hok).
  - apply (set_readers_ok (delete shard (readers p)) (count reader_reopened p)); [|done]. apply map_Forall_delete, Hok.
Qed.

Lemma attempts_ok io attempts : surroundings io -> forall i p r p', pool_ok p -> open_attempts io attempts i p = (r, p') ->
  pool_ok p' /\ (forall j mark, r = Ok (j, mark) -> (i <= j)%nat /\ open_reader io j = Ok mark).
Proof.
  intros Hio. induction attempts as [|attempts IH]; intros i p r p' Hok; cbn [open_attempts]; destruct (open_reader io i) as [mark|e] eqn:E.
  1, 3: intros [= <- <-]; split; [done|]; intros j m [= <- <-]; done.
  - intros [= <- <-]. by split.
  - intros Ha. apply IH in Ha as [? Ha]; [|by apply others_ok]. split; [done|]. intros j m Hj. apply Ha in Hj as []. split; [lia|done].
Qed.

Lemma install_reader_ok io i mark shard p id p' : surroundings io -> open_reader io i = Ok mark -> pool_ok p ->
  install_reader metadata options io i mark shard p = (id, p') -> pool_ok p' /\ fresh io shard id p'.
Proof.
  intros Hio Hopen Hok. unfold install_reader. cbv zeta. set (h := mk_ShardHandle _ _ _ _ _). intros [= <- <-].
  set (q := set_readers _ _). assert (handles q !! length (handles p) = Some h) as Hh by (cbn; by rewrite lookup_app_r, Nat.sub_diag).
  assert (pool_ok q) as Hq.
  { pose proof (add_handle_ok h p eq_refl Hok) as Hadd. apply (count_ok reader_opened) in Hadd. apply set_readers_ok; [|exact Hadd].
    apply map_Forall_insert_2; [|apply Hadd]. exists h, (directory io (S i)). split; [by split|]. split; [done|].
    cbn. pose proof (settled io Hio i mark Hopen). lia. }
  destruct (evict_readers_ok q Hq) as [Hev Hkept]. split; [exact Hev|]. exists h. pose proof (grows io 0 i Hio ltac:(lia)).
  split; [apply Hkept; [done|cbn; lia]|]. cbn. split_and!; [done|lia|done|right; lia].
Qed.

Lemma reader_ok_call io fuel shard p r p' : surroundings io -> distinct_looks -> pool_ok p -> reader metadata options io fuel shard p = Some (r, p') ->
  pool_ok p' /\ (forall id, r = Ok id -> fresh io shard id p').
Proof.
  intros Hio Hd Hok ([w q] & Hw & Hr)%bind_Some. apply wait_reader_ok in Hw as [Hq Hw]; [|done..]. destruct w as [a|i fingerprint].
  - injection Hr as <- <-. split; [done|]. intros id ->. destruct Hw as (h & (Hh & Ho & Hwh & Hs) & Hu). exists h. split_and!; [done..|by left].
  - destruct Hw as (_ & -> & _). destruct (refresh_reader _ _ _ _ _) as [[id q']|] eqn:Er.
    + apply refresh_ok in Er as []; [|done..]. injection Hr as <- <-. split; [done|]. by intros ? [= <-].
    + pose proof (drop_ok io shard q Hq) as Hdrop. destruct (drop_reader io shard q) as [[[]|e] q1]; cbn [snd] in Hdrop; [|by injection Hr as <- <-].
      destruct (open_attempts io 2 (S i) q1) as [x q2] eqn:Ea. apply attempts_ok in Ea as [Hq2 Ha]; [|done..].
      destruct x as [[j mark]|e]; [|by injection Hr as <- <-]. destruct (Ha j mark eq_refl) as [_ Hopen].
      destruct (install_reader _ _ _ _ _ _ _) as [id q3] eqn:Ei. apply install_reader_ok in Ei as []; [|done..].
      injection Hr as <- <-. split; [done|]. by intros ? [= <-].
Qed.

(** ** Closing *)

Definition unused p : Prop := Forall (fun h => users h = 0%nat) (handles p).

Lemma close_each_unused closings ids : forall i p, unused p -> unused (close_each closings i ids p).2 /\
  writers (close_each closings i ids p).2 = writers p /\ readers (close_each closings i ids p).2 = readers p.
Proof.
  induction ids as [|id ids IH]; intros i p Hp; [done|]. cbn [close_each].
  assert (unused (close_handle id p)) as Hc by (apply Forall_alter; [done|by intros]).
  destruct (closings i); [|done]. destruct (IH (S i) (close_handle id p) Hc) as (? & ? & ?). by split_and!.
Qed.

Lemma unused_ok p : unused p -> writers p = ∅ -> readers p = ∅ -> pool_ok p.
Proof.
  intros Hu Hw Hr. split; [rewrite Hw; apply map_Forall_empty|rewrite Hr; apply map_Forall_empty|]. intros id h Hh Hpos.
  pose proof (Forall_lookup_1 _ _ _ _ Hu Hh) as H0. cbn in H0. lia.
Qed.

Lemma close_all_ok closings p : unused p -> pool_ok p -> pool_ok (close_all closings p).2.
Proof.
  intros Hu Hok. unfold close_all. destruct (pool_closed p); [done|]. cbv zeta.
  set (ids := map _ _ ++ map _ _). destruct (close_each_unused closings ids 0 (mk_Pool (handles p) ∅ ∅ true (stats p)) Hu) as (? & ? & ?). by apply unused_ok.
Qed.

Lemma invalidate_ok io shard p : (forall entry, writers p !! shard = Some entry -> strong_count (w_handle entry) p = 1%nat) -> pool_ok p ->
  pool_ok (invalidate_writer io shard p).2.
Proof. intros Hu Hok. unfold invalidate_writer. destruct (writers p !! shard) as [entry|] eqn:E; [|done]. by apply close_writer_ok, Hok; [|apply Hu]. Qed.

(** ** Runs *)

(** The calls of the tasks that share the pool, each of them with whatever calls others
    make while it sleeps, and the end of the use of a handle.  Nobody invalidates a writer
    or closes the pool under the callers that use its handles. *)
Inductive call : Pool -> Pool -> Prop :=
  | call_writer io fuel shard p r q : undisturbed io -> (forall i p, calls p (between io i p)) -> writer options io fuel shard p = Some (r, q) -> call p q
  | call_reader io fuel shard p r q : undisturbed io -> (forall i p, calls p (between io i p)) ->
      reader metadata options io fuel shard p = Some (r, q) -> call p q
  | call_retire shard leased p : call p (retire_writer shard leased p).2
  | call_release id p : call p (release_handle id p)
  | call_invalidate io shard p : (forall entry, writers p !! shard = Some entry -> strong_count (w_handle entry) p = 1%nat) -> call p (invalidate_writer io shard p).2
  | call_close_all closings p : unused p -> call p (close_all closings p).2
with calls : Pool -> Pool -> Prop :=
  | calls_none p : calls p p
  | calls_more p q r : call p q -> calls q r -> calls p r.

Scheme call_mut := Induction for call Sort Prop
  with calls_mut := Induction for calls Sort Prop.

Lemma calls_ok p q : distinct_looks -> calls p q -> pool_ok p -> pool_ok q.
Proof.
  intros Hd Hc. induction Hc using calls_mut with (P := fun p q _ => pool_ok p -> pool_ok q); try (intros Hok).
  - eapply writer_ok_call in e as []; [done| |done]. split; [done|]. intros j p0. exact (H j p0).
  - eapply reader_ok_call in e as []; [done| |done..]. split; [done|]. intros j p0. exact (H j p0).
  - by apply retire_ok.
  - by apply release_ok.
  - by apply invalidate_ok.
  - by apply close_all_ok.
  - done.
  - by apply IHHc0, IHHc.
Qed.

Definition new_pool : Pool := mk_Pool [] ∅ ∅ false LockPoolStats_default.

(** ** Calls return *)

(** The pool after a call has slept [n] times. *)
Fixpoint slept io (i n : nat) p : Pool := match n with O => p | S n => slept io (S i) n (between io i p) end.

Lemma wait_returns io shard n : forall fuel i p, (n < fuel)%nat ->
  (forall entry, readers (slept io i n p) !! shard = Some entry -> strong_count (r_handle entry) (slept io i n p) = 1%nat) ->
  is_Some (wait_reader metadata options io fuel i shard p).
Proof.
  induction n as [|n IH]; intros [|fuel] i p Hf Hn; [lia| |lia|]; cbn [wait_reader]; destruct (pool_closed p); try done;
    (destruct (if read_only options then None else _); [done|]); destruct (match readers p !! shard with Some _ => _ | None => _ end) eqn:Hb; try done.
  - exfalso. cbn [slept] in Hn. destruct (readers p !! shard) as [entry|] eqn:E; [|done]. rewrite (Hn entry eq_refl), andb_false_r in Hb. done.
  - apply IH; [lia|exact Hn].
Qed.

(** A reader returns as soon as nobody uses the handle that must change. *)
Lemma reader_returns io shard n fuel p : (n < fuel)%nat ->
  (forall entry, readers (slept io 0 n p) !! shard = Some entry -> strong_count (r_handle entry) (slept io 0 n p) = 1%nat) ->
  is_Some (reader metadata options io fuel shard p).
Proof.
  intros Hf Hn. destruct (wait_returns io shard n fuel 0 p Hf Hn) as [[w q] Hw]. unfold reader. rewrite Hw. cbn. destruct w as [|i fp]; [done|].
  repeat first [done | case_match].
Qed.

(** A writer returns: the clock passes the deadline. *)
Lemma acquire_returns io deadline fuel : (forall i, now io i + 10 <= now io (S i)) -> forall i delay p, 10 <= delay ->
  deadline < now io (S i) + 10 * Z.of_nat fuel -> is_Some (acquire_writer io deadline (S fuel) i delay p).
Proof.
  intros Hnow. induction fuel as [|fuel IH]; intros i delay p Hdelay Hf; cbn [acquire_writer]; destruct (open_writer io i) as [|[]]; try done.
  - destruct (Z.leb_spec (now io (S i) + delay) deadline); [lia|done].
  - destruct (_ <=? _); [|done]. apply IH; [lia|]. pose proof (Hnow (S i)). lia.
Qed.

Lemma writer_returns io fuel shard p : (forall i, now io i + 10 <= now io (S i)) -> lock_acquire_timeout_millis options < 10 * Z.of_nat (S fuel) ->
  is_Some (writer options io (S fuel) shard p).
Proof.
  intros Hnow Hf. unfold writer. destruct (read_only options); [done|]. destruct (pool_closed p); [done|].
  assert (forall q, is_Some ('(r, q) ← acquire_writer io (now io 0 + lock_acquire_timeout_millis options) (S fuel) 0 10 q;
    match r with Err e => Some (Err e, q) | Ok _ => let '(id, q) := install_writer options io shard q in Some (Ok id, q) end)) as Hnew.
  { intros q. destruct (acquire_returns io (now io 0 + lock_acquire_timeout_millis options) fuel Hnow 0 10 q) as [[x q'] Ha]; [lia|pose proof (Hnow 0%nat); lia|].
    rewrite Ha. cbn [mbind option_bind]. destruct x; [|done]. by destruct (install_writer _ _ _ _). }
  destruct (writers p !! shard); [|apply Hnew]. destruct (_ || _ || _); [done|]. cbv zeta. destruct (closing io); [apply Hnew|done].
Qed.

(** C11: In every run of the pool in which no handle is closed or invalidated while it is
    in use, with any calls of other tasks while one sleeps, a handle somebody uses is
    open, and what [writer] and [reader] answer is an open handle of the shard asked for,
    in use by the caller, that is the writer of the shard or has seen every change made
    to the directory before the call; as long as files that differ look different
    ([distinct_looks]) and nobody writes to the shard between the opening of a reader
    and the look at its files that follows ([undisturbed]). *)
Theorem handles_are_fresh io fuel shard p r q (Hd : distinct_looks) (Hp : calls new_pool p) (Hio : undisturbed io)
    (Hothers : forall i p, calls p (between io i p))
    (Hcall : writer options io fuel shard p = Some (r, q) \/ reader metadata options io fuel shard p = Some (r, q)) :
  (forall id h, handles q !! id = Some h -> (0 < users h)%nat -> is_open h = true) /\
  (forall id, r = Ok id -> exists h, handles q !! id = Some h /\ is_open h = true /\ (0 < users h)%nat /\ shard_id h = shard /\
    (writer_handle h = true \/ directory io 0 <= seen h)).
Proof.
  assert (surroundings io) as Hs by (split; [done|]; intros i p0; exact (calls_ok _ _ Hd (Hothers i p0))).
  assert (pool_ok p) as Hok by (apply (calls_ok new_pool p); [done..|by apply unused_ok; [apply Forall_nil_2|..]]).
  destruct Hcall as [Hc|Hc]; [eapply writer_ok_call in Hc|eapply reader_ok_call in Hc]; try done; destruct Hc as [Hq Hf]; (split; [apply Hq|exact Hf]).
Qed.

End pool.
End LockPoolFacts.
