(* ===== verification/LockPoolExamples.v ===== *)
(** * The handles of shards: examples

    A run in which a reader is opened, given up and caught up, and the situations outside
    the hypotheses of [handles_are_fresh]: a write between the opening of a reader and the
    look at its files, a pool closed under a writer that waits, and writers whose leases
    keep them from being evicted. *)

From stdpp Require Import pretty.
From S2P Require Import Prelude.
From S2P Require Import LockPool.
From S2P Require Import LockPoolFacts.
Import LockPool LockPoolFacts.

Module LockPoolExamples.

(** Only the log changes, by one byte each time. *)
Definition log_grows (v : Z) (name : string) : option (string * Z) := if decide (name = "db.wal"%string) then Some ("t"%string, v) else None.

Lemma log_grows_distinct : distinct_looks log_grows.
Proof. intros v v' E. apply (f_equal head) in E. cbn in E. injection E as E. apply (inj pretty). exact E. Qed.

Definition two_of_each : LockPoolOptions := mk_LockPoolOptions 100 0 2 2 false.

(** Nothing fails, nobody else does anything, and the directory holds [v] at all looks. *)
Definition quiet (v : Z) : PoolIo :=
  mk_PoolIo (fun i => 10 * Z.of_nat i) (fun _ => v) (fun _ => Ok tt) (fun _ => Ok (Some 40)) (Ok (Some (60, 2))) (Ok tt) (fun _ p => p).

Lemma quiet_undisturbed v : undisturbed (quiet v).
Proof. split; [by intros; cbn; lia|done]. Qed.

Lemma quiet_others metadata options v i p : calls metadata options p (between (quiet v) i p).
Proof. apply calls_none. Qed.

Definition result_pool (r : option (result LockPoolError nat * Pool)) : Pool := match r with Some (_, p) => p | None => new_pool end.

(** A reader is opened and given up. *)
Definition opened_once : Pool := release_handle 0 (result_pool (reader log_grows two_of_each (quiet 5) 1 3 new_pool)).
Definition second_call : option (result LockPoolError nat * Pool) := reader log_grows two_of_each (quiet 7) 1 3 opened_once.

Lemma opened_once_reached : calls log_grows two_of_each new_pool opened_once.
Proof.
  eapply calls_more; [|eapply calls_more; [apply call_release|apply calls_none]].
  eapply (call_reader _ _ (quiet 5) 1 3); [apply quiet_undisturbed|apply quiet_others|]. vm_compute. reflexivity.
Qed.

(** The second call answers the same handle, which has caught up. *)
Lemma handles_are_fresh_witness : second_call = Some (Ok 0%nat, result_pool second_call) /\
  (exists h, handles (result_pool second_call) !! 0%nat = Some h /\ is_open h = true /\ (0 < users h)%nat /\ shard_id h = 3 /\
    (writer_handle h = true \/ 7 <= seen h)).
Proof.
  assert (second_call = Some (Ok 0%nat, result_pool second_call)) as E by (vm_compute; reflexivity). split; [exact E|].
  apply (handles_are_fresh log_grows two_of_each (quiet 7) 1 3 opened_once (Ok 0%nat) (result_pool second_call)
    log_grows_distinct opened_once_reached (quiet_undisturbed 7) (quiet_others _ _ 7) (or_intror E)). reflexivity.
Defined.

Example second_call_catches_up : incremental_catchups (stats (result_pool second_call)) = 1 /\ reader_opens (stats (result_pool second_call)) = 1.
Proof. split; vm_compute; reflexivity. Qed.

(** A write between the opening of a reader and the look at its files that follows: the
    pool takes the reader to be up to date, and answers it to later calls. *)
Definition write_in_between : PoolIo :=
  mk_PoolIo (fun i => 10 * Z.of_nat i) (fun i => if (i <=? 1)%nat then 5 else 6) (fun _ => Ok tt) (fun _ => Ok (Some 40)) (Ok None) (Ok tt) (fun _ p => p).
Definition stale_call : option (result LockPoolError nat * Pool) :=
  reader log_grows two_of_each (quiet 6) 1 3 (release_handle 0 (result_pool (reader log_grows two_of_each write_in_between 1 3 new_pool))).

Example reader_is_stale : match stale_call with Some (Ok id, p) => seen <$> handles p !! id | _ => None end = Some 5.
Proof. vm_compute. reflexivity. Qed.

(** A pool closed while a writer waits for the lock of its shard: the writer is opened
    all the same, and no later call closes it. *)
Definition closed_meanwhile : PoolIo :=
  mk_PoolIo (fun i => 10 * Z.of_nat i) (fun _ => 5) (fun i => match i with O => Err Locked | _ => Ok tt end) (fun _ => Ok None) (Ok None) (Ok tt)
    (fun _ p => (close_all (fun _ => Ok tt) p).2).

Example writer_in_a_closed_pool :
  match writer two_of_each closed_meanwhile 5 3 new_pool with
  | Some (Ok id, p) => pool_closed p && (match handles (close_all (fun _ => Ok tt) p).2 !! id with Some h => is_open h | None => false end)
  | _ => false
  end = true.
Proof. vm_compute. reflexivity. Qed.

(** With leases a pool for one writer keeps both writers nobody uses. *)
Definition one_writer_leased : LockPoolOptions := mk_LockPoolOptions 100 1000 1 1 false.
Definition first_writer : Pool := release_handle 0 (result_pool (writer one_writer_leased (quiet 5) 5 3 new_pool)).

Example leases_exceed_the_maximum :
  cached_counts (result_pool (writer one_writer_leased (quiet 5) 5 4 first_writer)) = (2, 0).
Proof. vm_compute. reflexivity. Qed.

(** Without leases the writer nobody uses is evicted and closed. *)
Definition one_writer : LockPoolOptions := mk_LockPoolOptions 100 0 1 1 false.
Definition first_unleased : Pool := release_handle 0 (result_pool (writer one_writer (quiet 5) 5 3 new_pool)).

Example unused_writer_is_evicted :
  let p := result_pool (writer one_writer (quiet 5) 5 4 first_unleased) in cached_counts p = (1, 0) /\ (is_open <$> handles p !! 0%nat) = Some false.
Proof. split; vm_compute; reflexivity. Qed.

(** The first handle that cannot be closed leaves the others open, and a second call does
    nothing. *)
Example close_all_stops_at_a_failure :
  let p := result_pool (writer two_of_each (quiet 5) 5 4 (result_pool (writer two_of_each (quiet 5) 5 3 new_pool))) in
  let '(r, p1) := close_all (fun _ => Err Failed) p in let '(r2, p2) := close_all (fun _ => Ok tt) p1 in
  r = Err Failed /\ r2 = Ok tt /\ map is_open (handles p2) = [false; true].
Proof. vm_compute. split_and!; reflexivity. Qed.
End LockPoolExamples.
