(* ===== verification/Open.v ===== *)
(** * Opening and closing, backup and restore ([crates/minidb/src/minidb.rs])

    A directory is the contents of its files by name, without the lock file and what
    belongs to it ([Lockfile] models these).  [open] takes the lock, removes what writes
    that were cut short have left, recovers the store, reads the definitions of the
    indexes and builds them; [open_or_rebuild] drops what keeps a database from opening;
    [backup] and [restore] copy the files that last.

    Which calls of the operating system fail, what taking the lock gives, the clock and
    the compaction at the end of opening are arguments, and so are the JSON texts of the
    files of definitions.  [None] is a panic. *)

From Corelib Require Import SpecFloat.
From S2P Require Import Prelude.
From S2P Require Import Crc.
From S2P Require Import Codec.
From S2P Require Import OrdIndex.
From S2P Require Import Store.
From S2P Require Import Recovery.
From S2P Require Import Wal.
From S2P Require Import ValueReader.
From S2P Require Import DtIndex.
From S2P Require Import Query.
From S2P Require Import Float.
From S2P Require Import IndexManager.
From S2P Require Import CompoundIndex.
From S2P Require Import Postings.
From S2P Require Import TextIndex.
From S2P Require Import MiniDb.
From S2P Require Import MiniDbRead.
Import OrdIndex Float MiniDb MiniDbRead.

Module Open.

(** ** Data *)

Inductive ValueModeSetting := AlwaysMemory | AlwaysDisk | Auto.

(** [OpenOptions] as the caller gives them; the intervals of the background tasks and
    the policy of synchronization are left out. *)
Record Settings := mk_Settings {
  want_read_only : bool; readonly_on_lock_fail : bool; want_value_mode : ValueModeSetting;
  want_max_memory : option Z; want_policy : MemoryPolicy;
  recovery_mode : Codec.CorruptionMode; compact_threshold_bytes : Z; auto_compact : bool;
}.

(** [OpenOptions::new]. *)
Definition Settings_new : Settings := mk_Settings false false AlwaysMemory None Reject Codec.Resync (64 * 1024 * 1024) true.

Abbreviation Files := (gmap string bytes).

(** The calls of the operating system that may fail. *)
Inductive FsCall :=
| CreateDir | ReadDir | ReadSource | OpenLog | LogSize | OpenReader
| SizeOf (name : string) | Read (name : string) | Write (name : string) | Rename (name : string) | Remove (name : string) | Copy (name : string).

(** [serde_json], for the files of definitions. *)
Class DefinitionJson := {
  indexes_of_json : bytes -> option (list IndexManager.IndexInfo);
  json_of_indexes : list IndexManager.IndexInfo -> bytes;
  compound_of_json : bytes -> option (list CompoundIndex.CompoundIndexInfo);
  json_of_compound : list CompoundIndex.CompoundIndexInfo -> bytes;
  text_of_json : bytes -> option (list TextIndexDefinition);
  json_of_text : list TextIndexDefinition -> bytes;
  (** [Metadata] of a frame, and the manifest of a backup. *)
  metadata_of_json : bytes -> option Recovery.MetadataJson;
  manifest : Z -> list string -> bytes;
}.

(** ** Names *)

Definition starts_with (prefix name : string) : bool := String.prefix prefix name.
Definition ends_with (suffix name : string) : bool :=
  (String.length suffix <=? String.length name)%nat &&
  String.eqb (String.substring (String.length name - String.length suffix) (String.length suffix) name) suffix.

Definition definition_names : list string := ["db.indexes.json"; "db.textindexes.json"; "db.compound-indexes.json"]%string.

Definition temporary_names : list string :=
  ["db.snapshot.tmp"; "db.wal.tmp"; "db.indexes.json.tmp"; "db.textindexes.json.tmp"; "db.compound-indexes.json.tmp"]%string.
Definition temporary_postings (name : string) : bool := starts_with "db.text-" name && ends_with ".postings.tmp" name.

Definition persistent_name (name : string) : bool :=
  bool_decide (name ∈ ["db.snapshot"; "db.wal"; "db.indexes.json"; "db.compound-indexes.json"; "db.textindexes.json"]%string) ||
  (starts_with "db.text-" name && ends_with ".postings" name).

(** ** Files

    A step on a directory: it may panic, fail or return, and leaves its files. *)
Definition F (A : Type) : Type := Files -> option (result MiniDbError A * Files).

#[export] Instance F_ret : MRet F := fun A a files => Some (Ok a, files).
#[export] Instance F_bind : MBind F := fun A B f m files =>
  '(r, files) ← m files;
  match r with Ok a => f a files | Err e => Some (Err e, files) end.

Definition of_result {A} (r : result MiniDbError A) : F A := fun files => Some (r, files).
Definition or_panic {A} (o : option A) : F A := fun files => a ← o; Some (Ok a, files).
Definition the_files : F Files := fun files => Some (Ok files, files).
Definition change (f : Files -> Files) : F () := fun files => Some (Ok tt, f files).

Section fs.
Context (fails : FsCall -> bool).

Definition fs (call : FsCall) : F () := of_result (if fails call then Err IoFailed else Ok ()).

(** [remove_file], the failures of which are ignored. *)
Definition try_remove (name : string) (files : Files) : Files := if fails (Remove name) then files else delete name files.
Definition try_remove_all (names : list string) (files : Files) : Files := fold_left (fun files name => try_remove name files) names files.

Definition cleanup_temporary_files : F () :=
  _ ← change (try_remove_all temporary_names);
  _ ← fs ReadDir;
  change (fun files => filter (fun entry => negb (temporary_postings entry.1 && negb (fails (Remove entry.1)))) files).

(** [tokio::fs::metadata], of a file that may be missing. *)
Definition size_of (name : string) : F Z :=
  files ← the_files;
  match files !! name with
  | None => mret 0
  | Some contents => _ ← fs (SizeOf name); mret (zlen contents)
  end.

Definition resolve_value_mode (setting : ValueModeSetting) (maximum : option Z) : F Recovery.ValueMode :=
  match setting with
  | AlwaysMemory => mret Recovery.InMemory
  | AlwaysDisk => mret Recovery.OnDisk
  | Auto =>
      match maximum with
      | None => mret Recovery.InMemory
      | Some maximum =>
          snapshot ← size_of "db.snapshot";
          wal ← size_of "db.wal";
          mret (if maximum <? snapshot + wal then Recovery.OnDisk else Recovery.InMemory)
      end
  end.

Definition read_json {T} (parse : bytes -> option T) (name : string) : F (option T) :=
  files ← the_files;
  match files !! name with
  | None => mret None
  | Some contents =>
      _ ← fs (Read name);
      match parse contents with Some t => mret (Some t) | None => of_result (Err Json) end
  end.

(** The part of a temporary file that a failed write leaves is left out. *)
Definition write_atomic (name : string) (data : bytes) : F () :=
  _ ← fs (Write name);
  _ ← change (<[(name +:+ ".tmp")%string := data]>);
  _ ← fs (Rename name);
  change (fun files => <[name := data]> (delete (name +:+ ".tmp")%string files)).
End fs.

Section open.
Context {Number V : Type} `{!Platform Number} `{Crc32fast} `{!DefinitionJson}.
Context {KT NT OT TT : Type}.
Context `{!OrderedIndex KT bytes bytes} `{!OrderedIndex NT f64 bytes}.
Context `{!OrderedIndex OT CompoundIndex.OrderValue bytes} `{!OrderedIndex TT Z bytes}.
Abbreviation Value := (@Query.Value Number).
Abbreviation Db := (@MiniDb.MiniDb KT NT OT TT).
Abbreviation Derived := (@DerivedState NT OT TT).
(** The text of an error of the value reader. *)
Context (codec : ValueCodec Number V) (read_message : Store.ValueLoc -> string).

(** ** Definitions of indexes *)

Definition DerivedState_default : Derived :=
  mk_DerivedState (IndexManager.mk_IndexManager ∅) (DtIndex.mk_DateTimeIndex ∅ ∅) (CompoundIndex.mk_CompoundIndexManager ∅) ∅ [] [].

Definition load_index (indexes : IndexManager.IndexManager NT) (info : IndexManager.IndexInfo) : result MiniDbError (IndexManager.IndexManager NT) :=
  lift IndexFailed (IndexManager.create (IndexManager.name info)
    (IndexManager.mk_IndexDef (IndexManager.field info) (IndexManager.index_type info) (IndexManager.unique info) (IndexManager.sparse info)) indexes).
Definition load_compound_index (compound : CompoundIndex.CompoundIndexManager OT) (info : CompoundIndex.CompoundIndexInfo)
    : result MiniDbError (CompoundIndex.CompoundIndexManager OT) :=
  lift CompoundFailed (CompoundIndex.create (CompoundIndex.name info)
    (CompoundIndex.mk_CompoundIndexDef (CompoundIndex.group_by info) (CompoundIndex.order_by info) (CompoundIndex.order_type info)) compound).
Definition load_text_index (read_only : bool) (text : gmap string TextIndex.TextIndex) (definition : TextIndexDefinition)
    : gmap string TextIndex.TextIndex :=
  <[def_name definition := TextIndex.new (TextIndex.mk_TextIndexOptions (def_fields definition)
      (if read_only then None else Some (text_postings_path (def_name definition))) None)]> text.

(** [?] in a loop. *)
Fixpoint try_fold {A B} (f : A -> B -> result MiniDbError A) (a : A) (l : list B) : result MiniDbError A :=
  match l with [] => Ok a | b :: l => a ← f a b; try_fold f a l end.

Definition load_definitions (fails : FsCall -> bool) (read_only : bool) : F Derived :=
  let d := DerivedState_default in
  infos ← read_json fails indexes_of_json "db.indexes.json";
  indexes ← of_result (try_fold load_index (indexes d) (default [] infos));
  infos ← read_json fails compound_of_json "db.compound-indexes.json";
  compound ← of_result (try_fold load_compound_index (compound d) (default [] infos));
  definitions ← read_json fails text_of_json "db.textindexes.json";
  let definitions := default [] definitions in
  mret (mk_DerivedState indexes (datetimes d) compound (fold_left (load_text_index read_only) definitions (text d)) definitions (access d)).

(** [persist_indexes] and the like. *)
Definition persist_indexes (fails : FsCall -> bool) (self : Db) : F () :=
  write_atomic fails "db.indexes.json" (json_of_indexes (IndexManager.list_indexes (indexes (derived self)))).
Definition persist_compound_indexes (fails : FsCall -> bool) (self : Db) : F () :=
  write_atomic fails "db.compound-indexes.json" (json_of_compound (CompoundIndex.list_indexes (compound (derived self)))).
Definition persist_text_indexes (fails : FsCall -> bool) (self : Db) : F () :=
  write_atomic fails "db.textindexes.json" (json_of_text (text_definitions (derived self))).

(** ** Opening *)

Record Opened := mk_Opened {
  database : Db; settings : OpenOptions; value_reader : option ValueReader.PositionedValueReader;
  recovery_info : Recovery.RecoveryInfo; has_lock : bool; log_open : bool; wal_tail : option (Recovery.WalAnchor * Z);
}.

(** What happens around one call: which calls of the operating system fail, what
    [acquire] of the lock gives, the files' anchors, the clock, how writing the postings
    of a text index goes, and a compaction and a flush of the log. *)
Record OpenIo := mk_OpenIo {
  fails : FsCall -> bool;
  acquired : result MiniDbError bool;
  anchor : string -> Recovery.WalAnchor;
  recovery_now : Store.ValueFile -> Z -> Z;
  rebuild_now : Z;
  outcomes : string -> Postings.RebuildIo;
  compaction : Opened -> Files -> result MiniDbError () * Opened * Files;
  flushed : Files -> result MiniDbError () * Files;
}.

(** How values on disk are read. *)
Definition read_value (reader : option ValueReader.PositionedValueReader) : option (Store.ValueLoc -> result Store.StoreError bytes) :=
  (fun reader location => match ValueReader.read location reader with Ok value => Ok value | Err _ => Err (Store.Read (read_message location)) end) <$> reader.

(** With whether the database is read-only and whether it holds the lock. *)
Definition take_lock (io : OpenIo) (o : Settings) : F (bool * bool) :=
  if want_read_only o then mret (true, false)
  else
    acquired ← of_result (acquired io);
    if acquired : bool then mret (false, true)
    else if readonly_on_lock_fail o then mret (true, false)
    else of_result (Err Locked).

Definition open_log (io : OpenIo) : F () :=
  _ ← of_result (if fails io OpenLog then Err (WalFailed (Wal.Io "open")) else Ok ());
  change (fun files => <["db.wal"%string := default [] (files !! "db.wal"%string)]> files).

Definition file_named (io : OpenIo) (name : string) (files : Files) : option Recovery.File :=
  (fun contents => Recovery.mk_File contents (anchor io name)) <$> files !! name.
Definition unreadable (io : OpenIo) (name : string) (files : Files) : bool := bool_decide (is_Some (files !! name)) && fails io (Read name).

Definition recover_files (io : OpenIo) (o : Settings) (truncate : bool) (mode : Recovery.ValueMode) : F (Store.Store KT * Recovery.RecoveryInfo) :=
  fun files =>
    if unreadable io "db.snapshot" files || unreadable io "db.wal" files then Some (Err (RecoveryFailed Recovery.IoError), files)
    else
      '(r, store, wal) ← Recovery.recover metadata_of_json (recovery_now io) dt_json Store.new (file_named io "db.snapshot" files) (file_named io "db.wal" files)
        (recovery_mode o) truncate mode;
      let files := match wal with Some file => <["db.wal"%string := Recovery.contents file]> files | None => files end in
      Some (match r with Ok info => Ok (store, info) | Err e => Err (RecoveryFailed e) end, files).

Definition open_reader (io : OpenIo) (mode : Recovery.ValueMode) : F (option ValueReader.PositionedValueReader) :=
  match mode with
  | Recovery.InMemory => mret None
  | Recovery.OnDisk =>
      _ ← fs (fails io) OpenReader;
      files ← the_files;
      mret (Some (ValueReader.open (files !! "db.snapshot"%string) (files !! "db.wal"%string) ValueReader.new))
  end.

(** [rebuild_derived], with the keys in no order but that of the map. *)
Definition rebuild (io : OpenIo) (reader : option ValueReader.PositionedValueReader) (store : Store.Store KT) (derived : Derived) : F Derived :=
  fun files =>
    '(r, derived, files) ← rebuild_derived codec (read_value reader) (rebuild_now io) (outcomes io) store derived files;
    Some (match r with Ok _ => Ok (set_access (map_to_list (Store.records store)).*1 derived) | Err e => Err e end, files).

(** [open] before the compaction at its end. *)
Definition open_database (io : OpenIo) (o : Settings) : F Opened :=
  _ ← of_result (if decide (want_max_memory o = Some 0) then Err (MaxMemory 0 0) else Ok ());
  _ ← fs (fails io) CreateDir;
  '(read_only, has_lock) ← take_lock io o;
  _ ← (if read_only : bool then mret tt else cleanup_temporary_files (fails io));
  _ ← (if read_only then mret tt else open_log io);
  mode ← resolve_value_mode (fails io) (want_value_mode o) (want_max_memory o);
  '(store, info) ← recover_files io o (negb read_only) mode;
  _ ← (if Recovery.truncated_wal info && negb read_only then of_result (if fails io LogSize then Err (WalFailed (Wal.Io "metadata")) else Ok ()) else mret tt);
  reader ← open_reader io mode;
  derived ← load_definitions (fails io) read_only;
  derived ← rebuild io reader store derived;
  mret (mk_Opened (mk_MiniDb store derived false (mk_MiniDbStats 0 0 0)) (mk_OpenOptions read_only mode (want_max_memory o) (want_policy o))
    reader info has_lock (negb read_only) None).

Definition compact_opened (io : OpenIo) (opened : Opened) : F Opened := fun files =>
  let '(r, opened, files) := compaction io opened files in Some (match r with Ok _ => Ok opened | Err e => Err e end, files).

Definition should_compact (o : Settings) (files : Files) : bool := compact_threshold_bytes o <=? zlen (default [] (files !! "db.wal"%string)).

Definition open (io : OpenIo) (o : Settings) : F Opened :=
  opened ← open_database io o;
  files ← the_files;
  if negb (read_only (settings opened)) && auto_compact o && should_compact o files then compact_opened io opened else mret opened.

(** ** Opening whatever is there *)

Definition is_json_open_error (error : MiniDbError) : bool :=
  match error with Json | RecoveryFailed Recovery.Metadata => true | _ => false end.
Definition is_rebuildable_open_error (error : MiniDbError) : bool :=
  is_json_open_error error ||
  match error with
  | FrameCodec (Codec.CorruptFrame _) | RecoveryFailed (Recovery.CodecFailure (Codec.CorruptFrame _)) => true
  | _ => false
  end.

Definition attempt {A} (m : F A) : F (result MiniDbError A) := fun files => '(r, files) ← m files; Some (Ok r, files).

(** [remove_dir_all]: what cannot be removed stays. *)
Definition remove_dir_all (fails : FsCall -> bool) : F () := change (filter (fun entry => fails (Remove entry.1) = true)).

Definition drop_definitions (fails : FsCall -> bool) : F () :=
  change (try_remove_all fails (definition_names ≫= fun name => [name; (name +:+ ".tmp")%string])).

Definition reopen_empty (io : OpenIo) (o : Settings) : F Opened := _ ← remove_dir_all (fails io); open io o.

(** Each opening has its own surroundings. *)
Definition open_or_rebuild (io : nat -> OpenIo) (o : Settings) : F Opened :=
  first ← attempt (open (io 0%nat) o);
  match first with
  | Ok opened => mret opened
  | Err error =>
      if negb (is_rebuildable_open_error error) then of_result (Err error)
      else if is_json_open_error error then
        _ ← drop_definitions (fails (io 1%nat));
        second ← attempt (open (io 1%nat) o);
        match second with Ok opened => mret opened | Err _ => reopen_empty (io 2%nat) o end
      else reopen_empty (io 2%nat) o
  end.

(** ** Following the log of a writer *)

(** The operations of a frame applied to the database; a panic ends them. *)
Definition apply_frame (now : nat -> nat -> Z) (io : OpenIo) (self : Opened) (frame : Codec.FrameRef) (file : bytes) (state : nat * option Db)
    : result Recovery.RecoveryError () * (nat * option Db) :=
  let '(i, db) := state in
  match db with
  | None => (Ok tt, state)
  | Some db =>
      match Recovery.frame_to_ops metadata_of_json (recovery_now io) frame Store.Wal file (value_mode (settings self)) with
      | Err e => (Err e, state)
      | Ok operations =>
          match apply_recovered_all codec (read_value (value_reader self)) now i operations db with
          | None => (Ok tt, (i, None))
          | Some (Ok _, db) => (Ok tt, ((i + length operations)%nat, Some db))
          | Some (Err _, db) => (Err Recovery.IoError, (i, Some db))
          end
      end
  end.

Definition set_database (db : Db) (self : Opened) : Opened :=
  mk_Opened db (settings self) (value_reader self) (recovery_info self) (has_lock self) (log_open self) (wal_tail self).
Definition set_wal_tail (tail : option (Recovery.WalAnchor * Z)) (self : Opened) : Opened :=
  mk_Opened (database self) (settings self) (value_reader self) (recovery_info self) (has_lock self) (log_open self) tail.

(** Where the last catching up ended, or else recovery. *)
Definition followed (self : Opened) : option (Recovery.WalAnchor * Z) :=
  match wal_tail self with
  | Some tail => Some tail
  | None =>
      let info := recovery_info self in
      if Recovery.wal_inode info =? 0 then None
      else Some (Recovery.mk_WalAnchor (Recovery.wal_device info) (Recovery.wal_inode info), Recovery.wal_scan_end info)
  end.

Definition catch_up_from_wal (now : nat -> nat -> Z) (io : OpenIo) (offset : Z) (files : Files) (self : Opened)
    : option (result MiniDbError (option Recovery.CatchUpResult) * Opened) :=
  if closed (database self) then Some (Err Closed, self)
  else
    match followed self with
    | None => Some (Ok None, self)
    | Some (anchor, expected) =>
        if negb (offset =? expected) then Some (Ok None, self)
        else
          let '(r, (_, db)) := Recovery.catch_up_wal (file_named io "db.wal" files) offset anchor (apply_frame now io self) (0%nat, Some (database self)) in
          db ← db;
          let self := set_database db self in
          match r with
          | Err e => Some (Err (RecoveryFailed e), self)
          | Ok None => Some (Ok None, self)
          | Ok (Some caught_up) => Some (Ok (Some caught_up), set_wal_tail (Some (anchor, Recovery.catch_up_offset caught_up)) self)
          end
    end.

(** ** Closing *)

Record CloseIo := mk_CloseIo { compacting : option (Db -> Db); reader_closed : result MiniDbError (); log_closed : result MiniDbError (); lock_released : result MiniDbError () }.

Definition close_database (self : Db) : Db := mk_MiniDb (store self) (derived self) true (stats self).

(** A compaction that is under way is waited for, whatever becomes of it.  The first
    failure ends the call; what closes the postings files is left out. *)
Definition close (io : CloseIo) (self : Opened) : result MiniDbError () * Opened :=
  if closed (database self) then (Ok tt, self)
  else
    let db := close_database (database self) in
    let db := match compacting io with Some f => f db | None => db end in
    let self := set_database db self in
    match (match value_reader self with Some _ => reader_closed io | None => Ok tt end) with
    | Err e => (Err e, self)
    | Ok _ =>
        let self := mk_Opened db (settings self) (ValueReader.close <$> value_reader self) (recovery_info self) (has_lock self) (log_open self) (wal_tail self) in
        match (if log_open self then log_closed io else Ok tt) with
        | Err e => (Err e, self)
        | Ok _ =>
            let self := mk_Opened db (settings self) (value_reader self) (recovery_info self) (has_lock self) false (wal_tail self) in
            match (if has_lock self then lock_released io else Ok tt) with
            | Err e => (Err e, self)
            | Ok _ => (Ok tt, mk_Opened db (settings self) (value_reader self) (recovery_info self) false false (wal_tail self))
            end
        end
    end.

(** ** Backup and restore *)

(** Copies the files that are to be kept, in the order the directory is read; with the
    names of the files copied. *)
Fixpoint copy_files (fails : FsCall -> bool) (keep : string -> bool) (entries : list (string * bytes)) (copied : list string) : F (list string) :=
  match entries with
  | [] => mret copied
  | (name, contents) :: entries =>
      if keep name then
        _ ← fs fails (Copy name);
        _ ← change (<[name := contents]>);
        copy_files fails keep entries (copied ++ [name])
      else copy_files fails keep entries copied
  end.

(** What is written to the destination. *)
Definition backup_files (fails : FsCall -> bool) (now : Z) (source : Files) : F () :=
  _ ← fs fails CreateDir;
  _ ← fs fails ReadSource;
  copied ← copy_files fails persistent_name (map_to_list source) [];
  _ ← fs fails (Write "backup.manifest.json");
  change (<["backup.manifest.json"%string := manifest now copied]>).

(** The database, its directory and the destination afterwards. *)
Definition backup (io : OpenIo) (now : Z) (compact_first : bool) (self : Opened) (source destination : Files)
    : option (result MiniDbError () * Opened * Files * Files) :=
  if closed (database self) then Some (Err Closed, self, source, destination)
  else
    let '(r, self, source) := if compact_first && negb (read_only (settings self)) then compaction io self source else (Ok tt, self, source) in
    match r with
    | Err e => Some (Err e, self, source, destination)
    | Ok _ =>
        let '(r, source) := if negb (read_only (settings self)) then flushed io source else (Ok tt, source) in
        match r with
        | Err e => Some (Err e, self, source, destination)
        | Ok _ => '(r, destination) ← backup_files (fails io) now source destination; Some (r, self, source, destination)
        end
    end.

(** On the destination.  A destination that cannot be read counts as empty. *)
Definition restore (io : OpenIo) (force : bool) (o : Settings) (source : Files) : F Opened :=
  _ ← (if force : bool then remove_dir_all (fails io)
       else files ← the_files;
            of_result (if negb (fails io ReadDir) && negb (bool_decide (files = ∅)) then Err IoFailed else Ok ()));
  _ ← fs (fails io) CreateDir;
  _ ← fs (fails io) ReadSource;
  _ ← copy_files (fails io) (fun name => persistent_name name || String.eqb name "backup.manifest.json") (map_to_list source) [];
  open io o.
End open.
End Open.
