(* ===== verification/OpenFacts.v ===== *)
(** * Opening: what an opened database stands for

    Opening recovers the store from the files, whatever else the directory holds, and
    builds the derived state of what was recovered: the state from which the histories of
    [FacadeFacts] start. *)

From Corelib Require Import SpecFloat.
From S2P Require Import Prelude.
From S2P Require Import Crc.
From S2P Require Import Codec.
From S2P Require Import Scan.
From S2P Require Import OrdIndex.
From S2P Require Import Store.
From S2P Require Import StoreFacts.
From S2P Require Import StoreExpiry.
From S2P Require Import Recovery.
From S2P Require Import RecoveryFacts.
From S2P Require Import Wal.
From S2P Require Import ValueReader.
From S2P Require Import DtIndex.
From S2P Require Import Query.
From S2P Require Import Float.
From S2P Require Import IndexManager.
From S2P Require Import IndexManagerFacts.
From S2P Require Import CompoundIndex.
From S2P Require Import CompoundIndexFacts.
From S2P Require Import Postings.
From S2P Require Import TextIndex.
From S2P Require Import TextIndexFacts.
From S2P Require Import MiniDb.
From S2P Require Import MiniDbRead.
From S2P Require Import MiniDbFacts.
From S2P Require Import UpdateFacts.
From S2P Require Import FacadeFacts.
From S2P Require Import Open.
Import OrdIndex Codec Recovery RecoveryFacts Float MiniDb MiniDbRead MiniDbFacts Open.

Module OpenFacts.

(** ** Steps on a directory *)

(** The step returns, with a result and files of which [Q] holds. *)
Definition leads {A} (m : F A) (files : Files) (Q : result MiniDbError A -> Files -> Prop) : Prop :=
  exists r files', m files = Some (r, files') /\ Q r files'.

Section steps.
Implicit Types files : Files.

Lemma leads_mono {A} (m : F A) files (P Q : result MiniDbError A -> Files -> Prop) :
  leads m files P -> (forall r files', P r files' -> Q r files') -> leads m files Q.
Proof. intros (r & files' & E & HP) HQ. exists r, files'. auto. Qed.

Lemma leads_ret {A} (a : A) files (Q : result MiniDbError A -> Files -> Prop) : Q (Ok a) files -> leads (mret a) files Q.
Proof. intros HQ. by eexists _, _. Qed.

Lemma leads_bind {A B} (m : F A) (f : A -> F B) files (Q : result MiniDbError B -> Files -> Prop) :
  leads m files (fun r files' => match r with Ok a => leads (f a) files' Q | Err e => Q (Err e) files' end) -> leads (m ≫= f) files Q.
Proof.
  intros (r & files' & E & HQ). unfold leads, mbind, F_bind. rewrite E. cbn [mbind option_bind]. destruct r as [a|e]; [exact HQ|by eexists _, _].
Qed.

Lemma leads_of_result {A} (r : result MiniDbError A) files (Q : result MiniDbError A -> Files -> Prop) : Q r files -> leads (Open.of_result r) files Q.
Proof. intros HQ. by eexists _, _. Qed.

Lemma leads_the_files files (Q : result MiniDbError Files -> Files -> Prop) : Q (Ok files) files -> leads the_files files Q.
Proof. intros HQ. by eexists _, _. Qed.

Lemma leads_change f files (Q : result MiniDbError () -> Files -> Prop) : Q (Ok tt) (f files) -> leads (change f) files Q.
Proof. intros HQ. by eexists _, _. Qed.

Lemma leads_fs fails call files (Q : result MiniDbError () -> Files -> Prop) : (forall r, Q r files) -> leads (fs fails call) files Q.
Proof. intros HQ. by apply leads_of_result. Qed.

(** ** The files of the data *)

Definition data_name (kind : Store.ValueFile) : string := match kind with Store.Snapshot => "db.snapshot" | Store.Wal => "db.wal" end.

(** A missing file counts as an empty one. *)
Definition data files (kind : Store.ValueFile) : bytes := default [] (files !! data_name kind).

(** The files of the data and the definitions are as they were, but that the log may
    have been made. *)
Definition kept files files' : Prop :=
  (forall kind, data files' kind = data files kind) /\ forall name, name ∈ definition_names -> files' !! name = files !! name.
#[export] Instance kept_preorder : PreOrder kept.
Proof.
  split; [by intros files|]. intros f1 f2 f3 [D12 N12] [D23 N23]. split; [intros kind; by rewrite D23|]. intros name Hin. by rewrite N23, N12.
Qed.

(** The names that cleaning up leaves alone. *)
Definition untouched (name : string) : Prop := name ∉ temporary_names /\ temporary_postings name = false.

Lemma kept_lookups files files' : (forall name, untouched name -> files' !! name = files !! name) -> kept files files'.
Proof.
  intros Hf. assert (forall name, name ∈ data_name Store.Wal :: data_name Store.Snapshot :: definition_names -> files' !! name = files !! name) as Hn.
  { intros name Hin. apply Hf. revert name Hin. apply Forall_forall. apply (bool_decide_unpack _). vm_compute. exact I. }
  split; [|intros name Hin; apply Hn; set_solver]. intros []; unfold data; rewrite Hn; [done|set_solver|done|set_solver].
Qed.

Lemma try_remove_all_other fails names files name : name ∉ names -> try_remove_all fails names files !! name = files !! name.
Proof.
  unfold try_remove_all. revert files. induction names as [|x names IH]; intros files Hn; [done|]. cbn [fold_left].
  apply not_elem_of_cons in Hn as [Hx Hn]. rewrite IH by done. unfold try_remove. destruct (fails _); [done|]. by rewrite lookup_delete_ne.
Qed.

Lemma cleanup_kept fails files (Q : result MiniDbError () -> Files -> Prop) :
  (forall r files', (forall name, untouched name -> files' !! name = files !! name) -> Q r files') -> leads (cleanup_temporary_files fails) files Q.
Proof.
  intros HQ. unfold cleanup_temporary_files. apply leads_bind, leads_change.
  assert (forall name, untouched name -> try_remove_all fails temporary_names files !! name = files !! name) as Hr
    by (intros name [Hn _]; by apply try_remove_all_other).
  apply leads_bind, leads_fs. intros [[]|e]; [|by apply HQ]. apply leads_change, HQ. intros name Hn. rewrite <- (Hr name Hn).
  destruct Hn as [_ Hn]. apply option_eq. intros contents. rewrite map_lookup_filter_Some. cbn. rewrite Hn. naive_solver.
Qed.

Lemma open_log_kept {KT NT OT TT} (io : @OpenIo KT NT OT TT) files (Q : result MiniDbError () -> Files -> Prop) :
  (forall r files', kept files files' -> (forall name, name <> "db.wal"%string -> files' !! name = files !! name) -> Q r files') -> leads (open_log io) files Q.
Proof.
  intros HQ. unfold open_log. apply leads_bind, leads_of_result. destruct (fails io OpenLog); [by apply HQ|]. apply leads_change, HQ.
  - split; [intros []; unfold data; cbn [data_name]|intros name Hin].
    + by rewrite lookup_insert_ne.
    + by rewrite lookup_insert_eq.
    + rewrite lookup_insert_ne; [done|]. intros <-. revert Hin. apply (bool_decide_unpack _). vm_compute. exact I.
  - intros name Hn. by rewrite lookup_insert_ne.
Qed.

Lemma size_of_leads fails name files (Q : result MiniDbError Z -> Files -> Prop) : (forall r, Q r files) -> leads (size_of fails name) files Q.
Proof.
  intros HQ. unfold size_of. apply leads_bind, leads_the_files. destruct (files !! name); [|by apply leads_ret].
  apply leads_bind, leads_fs. intros [[]|]; [by apply leads_ret|done].
Qed.

Lemma resolve_value_mode_leads fails setting maximum files (Q : result MiniDbError Recovery.ValueMode -> Files -> Prop) :
  (forall r, (setting = AlwaysMemory -> r = Ok Recovery.InMemory) -> Q r files) -> leads (resolve_value_mode fails setting maximum) files Q.
Proof.
  intros HQ. unfold resolve_value_mode. destruct setting; [by apply leads_ret, HQ..|]. destruct maximum as [maximum|]; [|by apply leads_ret, HQ].
  apply leads_bind, size_of_leads. intros [z|]; [|by apply HQ]. apply leads_bind, size_of_leads. intros [z'|]; [|by apply HQ]. by apply leads_ret, HQ.
Qed.

Lemma read_json_leads {T} fails (parse : bytes -> option T) name files (Q : result MiniDbError (option T) -> Files -> Prop) :
  (forall r, (forall t, r = Ok (Some t) -> exists contents, files !! name = Some contents /\ parse contents = Some t) -> Q r files) ->
  leads (read_json fails parse name) files Q.
Proof.
  intros HQ. unfold read_json. apply leads_bind, leads_the_files. destruct (files !! name) as [contents|]; [|by apply leads_ret, HQ].
  apply leads_bind, leads_fs. intros [[]|e]; [|by apply HQ]. destruct (parse contents) as [t|] eqn:E; [|by apply leads_of_result, HQ].
  apply leads_ret, HQ. intros t' [= <-]. eauto.
Qed.
End steps.

(** ** Reading values *)

Lemma read_loop_short fuel file name offset len : 0 <= offset -> 0 < len -> zlen file < offset + len -> (1 < fuel)%nat ->
  exists e, ValueReader.read_loop fuel file name offset len [] = Err e.
Proof.
  intros Ho Hl Hs Hf. destruct fuel as [|[|fuel]]; [lia..|]. cbn [ValueReader.read_loop]. rewrite zlen_nil, Z.add_0_r, Z.sub_0_r.
  destruct (Z.ltb_spec 0 len); [|lia]. cbv zeta. cbn [app]. set (chunk := ValueReader.file_read file offset len).
  destruct (decide (chunk = [])) as [|Hne]; [by eexists|]. assert (zlen chunk = zlen file - offset) as Hz.
  { revert Hne. unfold chunk, ValueReader.file_read. destruct (Z.leb_spec (zlen file) offset); [done|]. intros _. rewrite zlen_slice by lia. lia. }
  rewrite Hz. destruct (Z.ltb_spec (zlen file - offset) len); [|lia].
  assert (ValueReader.file_read file (offset + (zlen file - offset)) (len - (zlen file - offset)) = []) as ->
    by (unfold ValueReader.file_read; by destruct (Z.leb_spec (zlen file) (offset + (zlen file - offset))); [|lia]).
  rewrite decide_True by done. by eexists.
Qed.

(** The reader's files are beginnings of the files that were recovered from. *)
Definition begins (slot : option bytes) (file : bytes) : Prop := exists rest, file = default [] slot ++ rest.
Definition reads_from (files : Store.ValueFile -> bytes) (reader : ValueReader.PositionedValueReader) : Prop :=
  begins (ValueReader.snapshot reader) (files Store.Snapshot) /\ begins (ValueReader.wal reader) (files Store.Wal).

Lemma read_located files reader location v v' :
  reads_from files reader -> resolves files (Store.Disk location) v -> ValueReader.read location reader = Ok v' -> v' = v.
Proof.
  intros [Hs Hw] [Hlen Hv]. unfold ValueReader.read. rewrite Hlen. destruct (Z.eqb_spec (zlen v) 0) as [Hz|Hz].
  { intros [= <-]. symmetry. by apply zlen_0. }
  destruct Hv as [->|Hv]; [done|]. rewrite Hlen in Hv.
  assert (forall slot name, begins slot (files (Store.loc_file location)) ->
    (file ← ok_or (ValueReader.NotOpen name) slot; ValueReader.read_loop (S (S (Z.to_nat (zlen v)))) file name (Store.loc_offset location) (zlen v) []) = Ok v' ->
    v' = v) as Hread.
  { intros [file|] name [rest Hfile]; [|done]. cbn [ok_or default] in *. simpl_bind. intros Hr. apply slice_get_Some in Hv as (? & ? & Hv). pose proof (zlen_nonneg v).
    destruct (Z.leb_spec (Store.loc_offset location + zlen v) (zlen file)) as [Hle|Hgt].
    - rewrite ValueReader.read_loop_whole in Hr by (lia || done). injection Hr as <-. etrans; [|symmetry; exact Hv]. rewrite Hfile. symmetry. apply slice_app_l; lia.
    - destruct (read_loop_short (S (S (Z.to_nat (zlen v)))) file name (Store.loc_offset location) (zlen v)) as [e He]; [lia..|congruence]. }
  destruct (Store.loc_file location); apply Hread; done.
Qed.

(** ** What recovery leaves is live *)

Definition live_op (t : Z) (o : LogOp) : Prop := match o with LSet _ _ e _ => e = 0 \/ t < e | LDel _ => True end.

Lemma concat_results_Forall {A B E} (P : B -> Prop) (f : A -> result E (list B)) (l : list A) bs :
  (forall a bs, f a = Ok bs -> Forall P bs) -> concat_results f l = Ok bs -> Forall P bs.
Proof.
  intros Hf. revert bs. induction l as [|a l IH]; intros bs; cbn [concat_results]; [by intros [= <-]|].
  destruct (f a) as [x|] eqn:Ex; [|done]. simpl_bind. destruct (concat_results f l) as [y|]; [|done]. simpl_bind. intros [= <-].
  apply Forall_app. split; [by apply Hf in Ex|by apply IH].
Qed.

Lemma set_log_ops_live `{!DefinitionJson} t key value meta e ops : set_log_ops metadata_of_json t key value meta e = Ok ops -> Forall (live_op t) ops.
Proof.
  unfold set_log_ops. destruct (Z.eqb_spec e 0) as [->|He]; cbn [negb andb].
  - destruct (parse_meta _ _); [|done]. simpl_bind. intros [= <-]. repeat constructor.
  - destruct (Z.leb_spec e t); [intros [= <-]; repeat constructor|]. destruct (parse_meta _ _); [|done]. simpl_bind. intros [= <-].
    constructor; [by right|constructor].
Qed.

Lemma log_ops_live `{!Crc32fast, !DefinitionJson} t frames ops : log_ops metadata_of_json t frames = Ok ops -> Forall (live_op t) ops.
Proof.
  apply concat_results_Forall. intros frame bs. unfold frame_log_ops. repeat case_decide; [apply set_log_ops_live|by intros [= <-]; repeat constructor| |by intros [= <-]].
  destruct (decode_batch_ops _) as [batch|]; [|by intros [= <-]]. apply concat_results_Forall. intros b bs'. unfold batch_op_log_ops.
  repeat case_decide; [apply set_log_ops_live|by intros [= <-]; repeat constructor|by intros [= <-]].
Qed.

Lemma replay_live t ops lm : Forall (live_op t) ops -> map_Forall (fun _ l => log_expire_at l = 0 \/ t < log_expire_at l) lm ->
  map_Forall (fun _ l => log_expire_at l = 0 \/ t < log_expire_at l) (replay lm ops).
Proof.
  unfold replay. intros Ho. revert lm. induction Ho as [|o ops Ho _ IH]; intros lm Hlm; [done|]. cbn [fold_left]. apply IH.
  destruct o as [key value e dts|key]; cbn [replay_op]; [by apply map_Forall_insert_2|by apply map_Forall_delete].
Qed.
(** ** The derived state of what was recovered *)

Section facts.
Context {Number V : Type} `{!Platform Number} `{Crc32fastOk} `{!InUse} `{!DefinitionJson}.
Context {KT NT OT TT : Type}.
Context `{!OrderedIndex KT bytes bytes} `{!OrderedIndex NT f64 bytes}.
Context `{!OrderedIndex OT CompoundIndex.OrderValue bytes} `{!OrderedIndex TT Z bytes}.
Context (krepr : KT -> list (bytes * bytes) -> Prop) `{!OrderedIndexLaws bytes_cmp bytes_cmp krepr}.
Context (nrepr : NT -> list (f64 * bytes) -> Prop) `{!OrderedIndexLaws compare_number bytes_cmp nrepr}.
Context (orepr : OT -> list (CompoundIndex.OrderValue * bytes) -> Prop)
  `{!OrderedIndexLaws CompoundIndex.compare_order bytes_cmp orepr}.
Context (trepr : TT -> list (Z * bytes) -> Prop) `{!OrderedIndexLaws Z.compare bytes_cmp trepr}.
Context (codec : ValueCodec Number V) (read_message : Store.ValueLoc -> string).
(** Opening rebuilds the secondary indexes, which leaves out documents that are not objects. *)
Context (Hforgotten : forall pk, forgotten pk).
Abbreviation Value := (@Query.Value Number).
Abbreviation Doc := (Value * option Store.Datetimes)%type.
Abbreviation Db := (@MiniDb.MiniDb KT NT OT TT).
Abbreviation Derived := (@DerivedState NT OT TT).
Abbreviation Opened := (@Open.Opened KT NT OT TT).
Abbreviation OpenIo := (@Open.OpenIo KT NT OT TT).
Implicit Types (files : Files) (derived : Derived) (io : OpenIo) (o : Settings).

(** The documents of records, by their keys as the indexes know them. *)
Definition recorded (read : option (Store.ValueLoc -> result Store.StoreError bytes)) (l : list (bytes * Store.StoreRecord)) : list (bytes * Doc) :=
  omap (fun kr => d ← MiniDbFacts.doc_of codec read (Some kr.2); Some (key_string kr.1, d)) l.

Section read.
Context (read : option (Store.ValueLoc -> result Store.StoreError bytes)).
Abbreviation doc_of := (MiniDbFacts.doc_of codec read).

Definition entry_means (kr : bytes * Store.StoreRecord) (e : Store.StoreEntry) : Prop :=
  exists v, Store.materialize read (Store.value_ref kr.2) = Ok v /\ e = Store.mk_StoreEntry kr.1 v (Store.expire_at kr.2) (Store.datetimes kr.2).

Lemma collect_means l es : Store.collect read l = Ok es -> Forall2 entry_means l es.
Proof.
  revert es. induction l as [|[key r] l IH]; intros es; cbn [Store.collect]; [by intros [= <-]|]. unfold Store.entry_of.
  destruct (Store.materialize read (Store.value_ref r)) as [v|] eqn:Ev; [|done]. simpl_bind. destruct (Store.collect read l) as [es'|]; [|done]. simpl_bind.
  intros [= <-]. constructor; [by exists v|by apply IH].
Qed.

Lemma live_records l es : Forall2 entry_means l es -> omap (live_record codec) es = recorded read l.
Proof.
  induction 1 as [|[key r] e l es (v & Hv & ->) _ IH]; [done|]. unfold recorded in *. cbn [omap list_omap]. cbn [fst snd].
  assert (live_record codec (Store.mk_StoreEntry key v (Store.expire_at r) (Store.datetimes r)) = (d ← doc_of (Some r); Some (key_string key, d))) as ->.
  { unfold live_record, MiniDbFacts.doc_of, value_of. cbn [Store.entry_value Store.entry_key Store.entry_datetimes mbind option_bind].
    cbn [snd] in Hv. rewrite Hv. by destruct (document_of _ _). }
  cbn [fst snd]. by rewrite IH.
Qed.

Lemma recorded_keys l : sublist (recorded read l).*1 (key_string <$> l.*1).
Proof.
  unfold recorded. induction l as [|[key r] l IH]; [done|]. cbn [omap list_omap fst snd fmap list_fmap].
  destruct (d ← doc_of (Some r); Some (key_string key, d)) as [kd|] eqn:E; [|by apply sublist_cons].
  apply bind_Some in E as (d & _ & [= <-]). cbn [fmap list_fmap fst]. by apply sublist_skip.
Qed.

Lemma recorded_NoDup l : NoDup l.*1 -> NoDup (recorded read l).*1.
Proof. intros Hl. eapply sublist_NoDup; [|apply recorded_keys]. by apply NoDup_fmap_2; [apply _|]. Qed.

Definition docs_of (m : gmap bytes Store.StoreRecord) : gmap bytes Doc := list_to_map (recorded read (map_to_list m)).

Lemma docs_of_lookup m key : docs_of m !! key_string key = doc_of (m !! key).
Proof.
  pose proof (recorded_NoDup (map_to_list m) (NoDup_fst_map_to_list m)) as Hnd. unfold docs_of. apply option_eq. intros d.
  rewrite <- elem_of_list_to_map by done. unfold recorded. rewrite list_elem_of_omap. split.
  - intros ([key' r] & Hin%elem_of_map_to_list & (d' & Hd & [= ?%(inj key_string) <-])%bind_Some). cbn [fst snd] in *. subst. by rewrite Hin.
  - intros Hd. destruct (m !! key) as [r|] eqn:Er; [|done]. exists (key, r). split; [by apply elem_of_map_to_list|]. cbn [fst snd]. by rewrite Hd.
Qed.

Lemma docs_of_key m pk d : docs_of m !! pk = Some d -> exists key r, pk = key_string key /\ m !! key = Some r /\ doc_of (Some r) = Some d.
Proof.
  intros Hd%elem_of_list_to_map_2. unfold recorded in Hd. apply list_elem_of_omap in Hd as ([key r] & Hin%elem_of_map_to_list & (d' & Hd & [= <- <-])%bind_Some).
  by exists key, r.
Qed.

Lemma length_recorded l : (length (recorded read l) <= length l)%nat.
Proof. rewrite <- (length_fmap fst (recorded read l)). etrans; [apply sublist_length, recorded_keys|]. by rewrite !length_fmap. Qed.

Lemma map_size_insert_le {A} (k : bytes) (a : A) (m : gmap bytes A) : (size (<[k := a]> m) <= S (size m))%nat.
Proof. rewrite map_size_insert. destruct (m !! k); cbn; lia. Qed.

Lemma docs_of_size m : (size (docs_of m) <= size m)%nat.
Proof.
  unfold docs_of. rewrite <- (length_map_to_list m). etrans; [|apply length_recorded].
  generalize (recorded read (map_to_list m)) as l. induction l as [|[k d] l IH]; [done|]. cbn [length]. etrans; [|apply le_n_S, IH].
  apply (map_size_insert_le k d (list_to_map l)).
Qed.

End read.
Abbreviation rebuild_indexes := (IndexManager.rebuild number_as_f64 json_text number_text).
Abbreviation manager_ok := (IndexManagerFacts.manager_ok number_as_f64 json_text number_text nrepr).
Abbreviation compound_ok := (CompoundIndexFacts.compound_ok number_as_f64 json_text orepr).
Abbreviation text_ok := (TextIndexFacts.text_ok (Number := Number) to_lowercase find_latin find_cjk).

(** *** Datetimes *)

Lemma fold_dts l : forall m key, NoDup l.*1 ->
  fold_left (fun m (e : bytes * option Store.Datetimes) => DtIndex.with_datetimes e.1 e.2 m) l m !! key =
    match (list_to_map l : gmap bytes (option Store.Datetimes)) !! key with
    | Some dts => if decide (default ∅ dts = ∅) then None else dts
    | None => m !! key
    end.
Proof.
  induction l as [|[k dts] l IH]; intros m key Hnd; [done|]. apply NoDup_cons in Hnd as [Hk Hnd]. cbn [fold_left fst snd list_to_map foldr uncurry].
  rewrite IH by done. destruct (decide (k = key)) as [->|Hne].
  - rewrite lookup_insert_eq. cbn [fst] in Hk. rewrite (not_elem_of_list_to_map_1 l key Hk). unfold DtIndex.with_datetimes.
    destruct (decide (default ∅ dts = ∅)); [by rewrite lookup_delete_eq|]. rewrite lookup_insert_eq. by destruct dts.
  - rewrite lookup_insert_ne by done. destruct (list_to_map l !! key); [done|]. unfold DtIndex.with_datetimes.
    destruct (decide _); [by rewrite lookup_delete_ne|by rewrite lookup_insert_ne].
Qed.

Definition dts_of (m : gmap bytes Store.StoreRecord) : gmap bytes Store.Datetimes :=
  fold_left (fun m (e : bytes * option Store.Datetimes) => DtIndex.with_datetimes e.1 e.2 m)
    (map (fun kr : bytes * Store.StoreRecord => (key_string kr.1, Store.datetimes kr.2)) (map_to_list m)) ∅.

Lemma dts_of_lookup m pk :
  dts_of m !! pk = match (kmap key_string m : gmap bytes Store.StoreRecord) !! pk with Some r => datetimes_of (Some r) | None => None end.
Proof.
  unfold dts_of. set (l := map _ _). assert (l.*1 = key_string <$> (map_to_list m).*1) as Hl
    by (unfold l; rewrite <- !list_fmap_compose; by apply list_fmap_ext).
  rewrite fold_dts by (rewrite Hl; apply NoDup_fmap_2; [apply _|apply NoDup_fst_map_to_list]).
  assert ((list_to_map l : gmap bytes (option Store.Datetimes)) = Store.datetimes <$> (kmap key_string m : gmap bytes Store.StoreRecord)) as ->.
  { unfold l, kmap. rewrite <- list_to_map_fmap. f_equal. rewrite <- list_fmap_compose. apply list_fmap_ext. by intros ? []. }
  rewrite lookup_fmap. destruct (_ !! pk) as [r|]; [done|]. by rewrite lookup_empty.
Qed.

Lemma dts_of_size m : (size (dts_of m) <= size m)%nat.
Proof.
  unfold dts_of. rewrite <- (length_map_to_list m). rewrite <- (length_map (fun kr : bytes * Store.StoreRecord => (key_string kr.1, Store.datetimes kr.2))).
  generalize (map (fun kr : bytes * Store.StoreRecord => (key_string kr.1, Store.datetimes kr.2)) (map_to_list m)) as l.
  assert (forall l (m : gmap bytes Store.Datetimes),
    (size (fold_left (fun m (e : bytes * option Store.Datetimes) => DtIndex.with_datetimes e.1 e.2 m) l m) <= size m + length l)%nat) as Hl.
  { induction l as [|e l IH]; intros m0; cbn [fold_left length]; [lia|]. pose proof (with_datetimes_size e.1 e.2 m0). specialize (IH (DtIndex.with_datetimes e.1 e.2 m0)). lia. }
  intros l. specialize (Hl l ∅). by rewrite map_size_empty in Hl.
Qed.

(** *** Texts *)

(** A new text index that keeps its postings where they belong. *)
Definition fresh_text (index : TextIndex.TextIndex) : Prop :=
  text_ok ∅ index /\ TextIndex.postings_file index = None /\ text_fields (TextIndex.fields index) /\
  forall path, TextIndex.path index = Some path -> starts_with "db.text-" path = true.

Definition built_text (entries : list (bytes * Value)) (index : TextIndex.TextIndex) : Prop :=
  text_ok (list_to_map entries) index /\ text_fields (TextIndex.fields index) /\ zlen (TextIndex.keys index) = zlen entries.

(** Only postings files change. *)
Definition postings_only files files' : Prop := forall name, starts_with "db.text-" name = false -> files' !! name = files !! name.

#[export] Instance postings_only_preorder : PreOrder postings_only.
Proof. split; [by intros f name|]. intros f1 f2 f3 H12 H23 name Hn. by rewrite H23, H12. Qed.

Lemma put_file_only path contents files : (forall p, path = Some p -> starts_with "db.text-" p = true) -> postings_only files (put_file path contents files).
Proof.
  intros Hp name Hn. destruct path as [p|]; [|done]. specialize (Hp p eq_refl). assert (p <> name) by congruence.
  destruct contents; cbn [put_file]; [by rewrite lookup_insert_ne|by rewrite lookup_delete_ne].
Qed.

Lemma build_texts_ok entries outcomes texts : TextIndexFacts.chars_short find_cjk -> NoDup entries.*1 -> zlen entries <= TextIndexFacts.MAX_DOCUMENTS ->
  (forall e, e ∈ entries -> small e.2) -> forall text files r text' files',
  (forall name index, (name, index) ∈ texts -> fresh_text index) ->
  (forall name index, text !! name = Some index -> name ∈ texts.*1 \/ built_text entries index) ->
  build_texts (Number := Number) entries outcomes texts text files = (r, text', files') ->
  postings_only files files' /\
  match r with
  | Ok _ => forall name index, text' !! name = Some index -> built_text entries index
  | Err e => exists e', e = TextFailed e'
  end.
Proof.
  intros Hshort Hnd Hz Hsmall. induction texts as [|[name index] texts IH]; intros text files r text' files' Hfresh Hbuilt; cbn [build_texts].
  - intros [= <- <- <-]. split; [reflexivity|]. intros name index Hi. destruct (Hbuilt name index Hi) as [Hin|]; [by apply elem_of_nil in Hin|done].
  - destruct (Hfresh name index (list_elem_of_here _ _)) as (Hok & Hfile & Hfields & Hpath).
    set (disk := path ← TextIndex.path index; files !! path).
    pose proof (TextIndexFacts.text_build_ok to_lowercase find_latin find_cjk entries (outcomes name) disk index Hshort (TextIndexFacts.text_placed _ _ _ _ _ Hok)) as Hb.
    destruct (TextIndex.build _ _ _ _ _ _ _) as [[disk' built] index'] eqn:E. set (files1 := put_file (TextIndex.path index') disk' files).
    assert (TextIndex.path index' = TextIndex.path index /\ TextIndex.fields index' = TextIndex.fields index /\ forall u, built = Ok u -> text_ok (list_to_map entries) index' /\ zlen (TextIndex.keys index') = zlen entries)
      as (Hp & Hf & Hok').
    { assert (TextIndexFacts.file_matches disk index) as Hm by (intros f Hff; congruence). specialize (Hb Hm Hnd Hz).
      assert (Forall (fun e => TextIndexFacts.countable to_lowercase find_latin find_cjk (TextIndex.fields index) e.2) entries) as Hc
        by (apply Forall_forall; intros e He; by apply (Hsmall e He)). specialize (Hb Hc).
      destruct built as [u|]; [destruct Hb as (? & _ & ? & Hf & Hp); by split_and!|].
      destruct Hb as (_ & _ & [[_ ->]|[_ ->]]); by split_and!. }
    assert (postings_only files files1) as Hfiles1.
    { apply put_file_only. by rewrite Hp. }
    destruct built as [u|e].
    + intros Hrest. apply IH in Hrest as [Hpo Hr]; [split; [by etrans|done]|by intros n i Hin; apply (Hfresh n i); right|].
      intros n i [[<- <-]|[Hne Hi]]%lookup_insert_Some.
      * right. destruct (Hok' u eq_refl) as [Htext Hkeys]. split; [done|]. split; [congruence|done].
      * destruct (Hbuilt n i Hi) as [[?|?]%elem_of_cons|?]; [done|by left|by right].
    + intros [= <- <- <-]. split; [done|]. by eexists.
Qed.
(** *** All of it *)

Record defined derived : Prop := {
  new_indexes : manager_ok ∅ (indexes derived);
  new_infos name index : IndexManager.indexes (indexes derived) !! name = Some index -> index_infos (IndexManager.info index);
  new_compound : compound_ok ∅ (compound derived);
  new_text name index : text derived !! name = Some index -> fresh_text index;
}.

Definition all_readable (read : option (Store.ValueLoc -> result Store.StoreError bytes)) (m : gmap bytes Store.StoreRecord) : Prop :=
  map_Forall (fun _ r => exists v, Store.materialize read (Store.value_ref r) = Ok v) m.

Lemma told_map (entries : list (bytes * Doc)) : forall docs : gmap bytes Doc, NoDup entries.*1 -> (forall pk, pk ∈ entries.*1 -> docs !! pk = None) ->
  CompoundIndexFacts.told entries docs = list_to_map entries ∪ docs.
Proof.
  induction entries as [|[pk d] entries IH]; intros docs Hnd Hfresh; [cbn [list_to_map foldr]; by rewrite map_empty_union|]. apply NoDup_cons in Hnd as [Hpk Hnd].
  unfold CompoundIndexFacts.told in *. cbn [fold_left fst snd list_to_map foldr uncurry]. rewrite IH; [|done|].
  - rewrite <- insert_union_l, insert_union_r; [done|]. by apply not_elem_of_list_to_map_1.
  - intros pk' Hin. rewrite lookup_insert_ne; [apply Hfresh; by right|]. by intros ->.
Qed.

Lemma plain_lookup (l : list (bytes * Doc)) pk : (list_to_map (map (fun e => (e.1, e.2.1)) l) : gmap bytes Value) !! pk = fst <$> (list_to_map l : gmap bytes Doc) !! pk.
Proof. change (map (fun e : bytes * Doc => (e.1, e.2.1)) l) with (prod_map id fst <$> l). by rewrite list_to_map_fmap, lookup_fmap. Qed.

Lemma plain_keys (l : list (bytes * Doc)) : (map (fun e => (e.1, e.2.1)) l).*1 = l.*1.
Proof. induction l as [|e l IH]; [done|]. cbn [map fmap list_fmap]. by f_equal. Qed.

Lemma object_docs_indexed (l : list (bytes * Doc)) : NoDup l.*1 ->
  indexed_docs (IndexManagerFacts.object_docs (map (fun e : bytes * Doc => (e.1, e.2.1)) l)) (list_to_map l).
Proof.
  intros Hnd pk. unfold IndexManagerFacts.object_docs. set (plain := map _ l). assert (NoDup plain.*1) as Hp
    by (unfold plain; by rewrite plain_keys).
  assert ((list_to_map (filter (fun kv => IndexManager.is_object kv.2 = true) plain) : gmap bytes Value) =
    filter (fun kv => IndexManager.is_object kv.2 = true) (list_to_map plain)) as ->.
  { apply map_eq. intros k. apply option_eq. intros v. rewrite map_lookup_filter_Some, <- !elem_of_list_to_map, list_elem_of_filter; [set_solver|done|].
    eapply sublist_NoDup; [exact Hp|]. apply fmap_sublist, sublist_filter. }
  unfold plain at 1 2. destruct ((list_to_map l : gmap bytes Doc) !! pk) as [d|] eqn:E.
  - destruct (IndexManager.is_object d.1) eqn:Eo.
    + left. cbn [fmap option_fmap option_map]. apply map_lookup_filter_Some. rewrite plain_lookup, E. done.
    + right. split; [|split; [apply Hforgotten|by exists d]]. apply map_lookup_filter_None. right. intros v Hv. rewrite plain_lookup, E in Hv. injection Hv as <-. cbn. congruence.
  - left. cbn. apply map_lookup_filter_None. left. by rewrite plain_lookup, E.
Qed.

(** So many documents have at most so many numbers. *)
Lemma numbers_bound (i : IndexManager.IndexInfo) (plain : list (bytes * Value)) : index_infos i -> (forall e, e ∈ plain -> small e.2) ->
  zlen (plain ≫= fun kv => IndexManagerFacts.doc_numbers number_as_f64 i kv.2) <= 2 ^ 31 * zlen plain.
Proof.
  intros Hi Hs. induction plain as [|e plain IH]; [done|]. cbn [mbind list_bind]. rewrite zlen_app, zlen_cons.
  destruct (Hs e (list_elem_of_here _ _)) as [_ He]. specialize (He i Hi). specialize (IH (fun e' Hin => Hs e' (list_elem_of_further _ _ _ Hin))).
  cbn [mbind list_bind] in IH. lia.
Qed.
Lemma collect_readable read l : (forall kr, kr ∈ l -> exists v, Store.materialize read (Store.value_ref kr.2) = Ok v) -> exists es, Store.collect read l = Ok es.
Proof.
  induction l as [|[key r] l IH]; intros Hl; [by exists []|]. cbn [Store.collect]. unfold Store.entry_of.
  destruct (Hl (key, r) (list_elem_of_here _ _)) as [v Hv]. cbn [snd] in Hv. rewrite Hv. simpl_bind.
  destruct IH as [es ->]; [by intros kr Hin; apply Hl; right|]. simpl_bind. by eexists.
Qed.

Lemma readable_collected (read : option (Store.ValueLoc -> result Store.StoreError bytes)) (m : gmap bytes Store.StoreRecord) es : Forall2 (entry_means read) (map_to_list m) es -> all_readable read m.
Proof.
  intros Hes key r Hr. apply elem_of_map_to_list in Hr. apply list_elem_of_lookup in Hr as [i Hi].
  destruct (Forall2_lookup_l _ _ _ _ _ Hes Hi) as (e & _ & v & Hv & _). by exists v.
Qed.

(** A text index was there when building one failed. *)
Lemma failing_text entries outcomes texts : forall text files e text' files',
  build_texts (Number := Number) entries outcomes texts text files = (Err e, text', files') -> exists name index, (name, index) ∈ texts.
Proof. destruct texts as [|[name index] texts]; intros text files e text' files' E; [done|]. exists name, index. by left. Qed.

Section rebuild.
Context (read : option (Store.ValueLoc -> result Store.StoreError bytes)) (store : Store.Store KT).
Abbreviation docs := (docs_of read (Store.records store)).
Abbreviation dts := (dts_of (Store.records store)).

Lemma follows_new : Store.expired store = [] -> follows codec read store docs dts.
Proof.
  intros He. constructor.
  - intros key _. apply docs_of_lookup.
  - intros key _. rewrite dts_of_lookup, lookup_kmap by apply _. by destruct (Store.records store !! key).
  - intros pk [[d Hd]|[d Hd]].
    + apply docs_of_key in Hd as (key & r & -> & _). by exists key.
    + rewrite dts_of_lookup in Hd. destruct (kmap key_string (Store.records store) !! pk) as [r|] eqn:E; [|done].
      apply lookup_kmap_Some in E as (key & -> & _); [by exists key|apply _].
  - intros key. rewrite He. intros Hin. by apply elem_of_nil in Hin.
Qed.

Lemma recorded_small (l : list (bytes * Store.StoreRecord)) : (forall key r d, (key, r) ∈ l -> MiniDbFacts.doc_of codec read (Some r) = Some d -> small d.1) ->
  forall e, e ∈ map (fun e : bytes * Doc => (e.1, e.2.1)) (recorded read l) -> small e.2.
Proof.
  intros Hs e ([pk d] & -> & Hin)%list_elem_of_fmap. unfold recorded in Hin.
  apply list_elem_of_omap in Hin as ([key r] & Hin & (d' & Hd & [= _ <-])%bind_Some). by apply (Hs key r).
Qed.

Lemma rebuild_derived_ok n now outcomes derived files :
  TextIndexFacts.chars_short find_cjk -> StoreExpiry.well_formed krepr dt_json store -> Store.expired store = [] ->
  map_Forall (fun _ r => Store.is_live now r = true) (Store.records store) -> defined derived ->
  (forall key r d, Store.records store !! key = Some r -> MiniDbFacts.doc_of codec read (Some r) = Some d -> small d.1) ->
  Z.of_nat (size (Store.records store)) <= TextIndexFacts.MAX_DOCUMENTS -> n <= 2 ^ 31 ->
  exists r derived' files', rebuild_derived codec read now outcomes store derived files = Some (r, derived', files') /\ postings_only files files' /\
  match r with
  | Ok _ => pair_ok krepr nrepr orepr trepr codec read n store derived' /\ all_readable read (Store.records store)
  | Err e => (exists e', e = StoreFailed e' /\ ~ all_readable read (Store.records store)) \/
      exists e', e = TextFailed e' /\ exists name index, text derived !! name = Some index
  end.
Proof.
  intros Hshort Hw He Hlive [Hi Hinfo Hc Ht] Hsmall Hsize Hn. unfold rebuild_derived, Store.entries. rewrite map_filter_id by (intros k r Hr; by apply (Hlive k)).
  unfold TextIndexFacts.MAX_DOCUMENTS in *. assert (zlen (map_to_list (Store.records store)) = Z.of_nat (size (Store.records store))) as Hlen
    by (unfold zlen; by rewrite length_map_to_list).
  destruct (Store.collect read _) as [es|e] eqn:Ees.
  2:{ eexists _, _, _. split; [reflexivity|]. split; [reflexivity|]. left. exists e. split; [done|]. intros Hr.
      destruct (collect_readable read (map_to_list (Store.records store))) as [es Hes]; [|congruence].
      intros [key r] Hin%elem_of_map_to_list. by apply (Hr key r). }
  apply collect_means in Ees. rewrite (live_records read _ _ Ees). cbv zeta. set (l := recorded read _).
  set (plain := map (fun e : bytes * Doc => (e.1, e.2.1)) l). change (map (fun r : LiveJsonRecord => (r.1, r.2.1)) l) with plain.
  assert (map (fun e => (key_string (Store.entry_key e), Store.entry_datetimes e)) es =
    map (fun kr : bytes * Store.StoreRecord => (key_string kr.1, Store.datetimes kr.2)) (map_to_list (Store.records store))) as ->.
  { clear -Ees. induction Ees as [|kr e l es (v & _ & ->) _ IH]; [done|]. cbn [map]. by rewrite IH. }
  assert (NoDup l.*1) as Hnd by apply recorded_NoDup, NoDup_fst_map_to_list.
  assert (NoDup plain.*1) as Hndp by (unfold plain; by rewrite plain_keys).
  assert (zlen l <= Z.of_nat (size (Store.records store))) as Hl
    by (rewrite <- Hlen; unfold zlen; pose proof (length_recorded read (map_to_list (Store.records store))); unfold l; lia).
  assert (zlen plain = zlen l) as Hpl by (unfold plain, zlen; by rewrite length_map).
  assert (forall e, e ∈ plain -> small e.2) as Hsm
    by (apply recorded_small; intros key r d Hin%elem_of_map_to_list; by apply (Hsmall key)).
  destruct (IndexManagerFacts.manager_rebuild_kept number_as_f64 json_text number_text nrepr plain ∅ (indexes derived) Hi Hndp) as (im & Him & Hmok & Hkept).
  { intros name index Hix. pose proof (numbers_bound _ plain (Hinfo name index Hix) Hsm). unfold U64_MAX. lia. }
  rewrite Him. simpl_bind.
  destruct (DtIndex.rebuild_ok trepr (map (fun kr : bytes * Store.StoreRecord => (key_string kr.1, Store.datetimes kr.2)) (map_to_list (Store.records store))) (datetimes derived))
    as (dt & -> & Hdt & Hby); [unfold zlen in *; rewrite length_map; unfold U64_MAX; lia|]. simpl_bind.
  destruct (CompoundIndexFacts.compound_rebuild_ok number_as_f64 json_text orepr l ∅ (compound derived) Hc) as (co & -> & Hco); [unfold U64_MAX; lia|].
  simpl_bind. rewrite told_map, map_union_empty in Hco by (done || intros; apply lookup_empty).
  destruct (build_texts plain outcomes (map_to_list (text derived)) (text derived) files) as [[r ts] files'] eqn:Eb.
  assert (forall e, r = Err e -> exists name index, (name, index) ∈ map_to_list (text derived)) as Hsome by (intros e ->; by eapply failing_text).
  apply (build_texts_ok plain outcomes _ Hshort Hndp) in Eb as [Hpo Hr]; [|unfold TextIndexFacts.MAX_DOCUMENTS; lia|done|by intros name index Hin%elem_of_map_to_list; apply (Ht name)|].
  2:{ intros name index Hix. left. apply list_elem_of_fmap. exists (name, index). split; [done|]. by apply elem_of_map_to_list. }
  eexists _, _, _. split; [reflexivity|]. split; [done|]. destruct r as [u|e].
  - split; [|by apply (readable_collected read _ _ Ees)]. exists docs, dts. split; [done|]. split; [by apply follows_new|]. pose proof (docs_of_size read (Store.records store)).
    pose proof (dts_of_size (Store.records store)). split_and!; [constructor|constructor|lia]; cbn [indexes compound text datetimes].
    + exists (IndexManagerFacts.object_docs plain). split; [by apply object_docs_indexed|done].
    + by apply (infos_kept (indexes derived)).
    + done.
    + intros name index Hix. destruct (Hr name index Hix) as (Htok & Hf & _). split; [|done]. replace (fst <$> docs) with (list_to_map plain : gmap bytes Value); [done|].
      apply map_eq. intros pk. rewrite lookup_fmap. apply plain_lookup.
    + done.
    + exact Hby.
    + intros pk d Hd. apply docs_of_key in Hd as (key & r & _ & Hk & Hd). by apply (Hsmall key r).
    + lia.
    + lia.
    + intros name index Hix. destruct (Hr name index Hix) as (_ & _ & ->). lia.
  - right. destruct Hr as [e' ->]. destruct (Hsome _ eq_refl) as (name & index & Hin). exists e'. split; [done|]. exists name, index. by apply elem_of_map_to_list.
Qed.
End rebuild.
(** ** Definitions *)

(** The definitions in the files are those the indexes in use have. *)
Definition definitions_in_use files : Prop :=
  (forall contents infos, files !! "db.indexes.json"%string = Some contents -> indexes_of_json contents = Some infos -> forall info, info ∈ infos -> index_infos info) /\
  (forall contents definitions, files !! "db.textindexes.json"%string = Some contents -> text_of_json contents = Some definitions ->
     forall definition, definition ∈ definitions -> text_fields (def_fields definition)).

Lemma try_fold_ok {A B} (P : A -> Prop) (f : A -> B -> result MiniDbError A) (l : list B) : forall a a',
  (forall a b a', P a -> b ∈ l -> f a b = Ok a' -> P a') -> P a -> try_fold f a l = Ok a' -> P a'.
Proof.
  induction l as [|b l IH]; intros a a' Hf Ha; cbn [try_fold]; [by intros [= <-]|]. destruct (f a b) as [a1|] eqn:E; [|done]. simpl_bind.
  apply IH; [|by apply (Hf a b); [|left|]]. intros a2 b2 a3 Ha2 Hb2. apply Hf; [done|by right].
Qed.

Definition known (infos : gmap string (IndexManager.AnyIndex NT)) : Prop := forall name index, infos !! name = Some index -> index_infos (IndexManager.info index).

Lemma load_index_ok im info im' : index_infos info -> manager_ok ∅ im /\ known (IndexManager.indexes im) -> load_index im info = Ok im' ->
  manager_ok ∅ im' /\ known (IndexManager.indexes im').
Proof.
  intros Hin [Hm Hk]. unfold load_index. destruct (IndexManager.create _ _ im) as [im1|] eqn:E; [|done]. cbn [lift]. intros [= <-].
  split; [by eapply IndexManagerFacts.manager_create_ok|]. revert E. unfold IndexManager.create. destruct (decide _); [done|]. destruct (decide _); [done|].
  intros [= <-] name index. cbn [IndexManager.indexes]. intros [[<- <-]|[_ Hi]]%lookup_insert_Some; [|by apply (Hk name)].
  destruct info as [name field type unique sparse]; cbn in *. by destruct type.
Qed.

Lemma starts_with_app prefix name : starts_with prefix (prefix +:+ name)%string = true.
Proof.
  unfold starts_with. induction prefix as [|c prefix IH]; [by destruct name|].
  change (String c prefix +:+ name)%string with (String c (prefix +:+ name)). cbn [String.prefix]. by destruct (Ascii.ascii_dec c c).
Qed.

Lemma load_text_ok read_only (definitions : list TextIndexDefinition) : forall ts : gmap string TextIndex.TextIndex,
  (forall definition, definition ∈ definitions -> text_fields (def_fields definition)) -> (forall name index, ts !! name = Some index -> fresh_text index) ->
  forall name index, fold_left (load_text_index read_only) definitions ts !! name = Some index -> fresh_text index.
Proof.
  induction definitions as [|definition definitions IH]; intros ts Hd Hts; [done|]. cbn [fold_left]. apply IH; [by intros d Hin; apply Hd; right|].
  intros name index. unfold load_text_index. intros [[<- <-]|[_ Hi]]%lookup_insert_Some; [|by apply (Hts name)].
  unfold fresh_text. split; [apply TextIndexFacts.text_new_ok; apply _|]. split; [done|]. split; [apply Hd; by left|].
  intros path Hp. destruct read_only; [done|]. assert (path = text_postings_path (def_name definition)) as -> by (cbn in Hp; congruence). apply starts_with_app.
Qed.

Lemma load_definitions_ok fails read_only files (Q : result MiniDbError Derived -> Files -> Prop) : definitions_in_use files ->
  (forall r, (forall derived, r = Ok derived -> defined derived) -> Q r files) -> leads (load_definitions fails read_only) files Q.
Proof.
  intros [Hinfos Htexts] HQ. unfold load_definitions. cbv zeta. assert (forall e, Q (Err e) files) as Herr by (intros e; by apply HQ).
  apply leads_bind, read_json_leads. intros [infos|e] Hread; [|done]. apply leads_bind, leads_of_result.
  destruct (try_fold load_index _ _) as [im|] eqn:Eim; [|done]. assert (manager_ok ∅ im /\ known (IndexManager.indexes im)) as [Him Hknown].
  { eapply (try_fold_ok (fun im => manager_ok ∅ im /\ known (IndexManager.indexes im))); [| |exact Eim].
    - intros im1 info im2 Hok Hin. apply load_index_ok; [|done]. destruct infos as [infos|]; [|by apply elem_of_nil in Hin].
      destruct (Hread infos eq_refl) as (contents & Hc & Hj). exact (Hinfos contents infos Hc Hj info Hin).
    - split; intros name index Hi; cbn in Hi; by rewrite lookup_empty in Hi. }
  apply leads_bind, read_json_leads. intros [cinfos|e] _; [|done]. apply leads_bind, leads_of_result.
  destruct (try_fold load_compound_index _ _) as [co|] eqn:Eco; [|done]. assert (compound_ok ∅ co) as Hco.
  { eapply (try_fold_ok (compound_ok ∅)); [| |exact Eco].
    - intros c1 info c2 Hok _. unfold load_compound_index. destruct (CompoundIndex.create _ _ c1) eqn:E; [|done]. intros [= <-]. by eapply CompoundIndexFacts.compound_create_ok.
    - intros name entry Hi. cbn in Hi; by rewrite lookup_empty in Hi. }
  apply leads_bind, read_json_leads. intros [definitions|e] Hdefs; [|done]. apply leads_ret, HQ. intros derived [= <-]. constructor; cbn [indexes compound text]; try done.
  apply load_text_ok; [|by intros name index Hi; rewrite lookup_empty in Hi]. intros definition Hin. destruct definitions as [definitions|]; [|by apply elem_of_nil in Hin].
  destruct (Hdefs definitions eq_refl) as (contents & Hc & Hj). exact (Htexts contents definitions Hc Hj definition Hin).
Qed.
(** ** Recovery *)

Lemma apply_operations_expired operations : forall (store store' : Store.Store KT), apply_operations dt_json store operations = Some store' ->
  Store.expired store' = Store.expired store.
Proof.
  unfold apply_operations. induction operations as [|operation operations IH]; intros store store'; cbn [foldM]; [by intros [= <-]|].
  intros (s & Hs & Hrest)%bind_Some. rewrite (IH s store' Hrest). clear -Hs. destruct operation as [key ref e dts|key]; cbn [apply_operation] in Hs.
  - unfold Store.set_ref in Hs. cbv zeta in Hs. apply bind_Some in Hs as (order & _ & Hs). destruct (negb (e =? 0)); by injection Hs as <-.
  - apply bind_Some in Hs as ([] & Hd & [= ->]). unfold Store.del, Store.remove in Hd. apply bind_Some in Hd as ([] & Hr & [= _ <-]).
    destruct (Store.records store !! key); [|by injection Hr as _ <-]. apply bind_Some in Hr as ([] & _ & [= _ <-]). done.
Qed.

Lemma recover_expired now (store : Store.Store KT) snapshot wal mode truncate value_mode r store' wal' :
  recover metadata_of_json now dt_json store snapshot wal mode truncate value_mode = Some (r, store', wal') -> Store.expired store' = Store.expired store.
Proof.
  unfold recover. destruct (snapshot ← _; _) as [[s w]|e]; [|by intros [= _ <- _]]. intros (s1 & Ho1 & (s2 & Ho2 & [= _ <- _])%bind_Some)%bind_Some.
  etrans; [destruct w as [w|]; [exact (apply_operations_expired _ _ _ Ho2)|by injection Ho2 as <-]|].
  destruct s as [s|]; [exact (apply_operations_expired _ _ _ Ho1)|by injection Ho1 as <-].
Qed.

Lemma replay_size ops : forall lm, (size (replay lm ops) <= size lm + length ops)%nat.
Proof.
  unfold replay. induction ops as [|op ops IH]; intros lm; cbn [fold_left length]; [lia|]. specialize (IH (replay_op lm op)).
  destruct op as [key value e dts|key]; cbn [replay_op] in *; [pose proof (map_size_insert_le key (mk_LogRecord value e dts) lm); lia|].
  pose proof (map_subseteq_size _ _ (delete_subseteq lm key)). lia.
Qed.

Lemma represents_size (contents_of : Store.ValueFile -> bytes) (m : gmap bytes Store.StoreRecord) lm : represents contents_of m lm -> size m = size lm.
Proof.
  intros Hr. rewrite <- !size_dom. f_equal. apply set_eq. intros k. rewrite !elem_of_dom. specialize (Hr k). destruct Hr; [by split; eexists|by split; intros []].
Qed.

(** What the files hold, by the frames that scanning finds. *)
Definition data_ops (t : Z) (mode : Codec.CorruptionMode) files : result Recovery.RecoveryError (list LogOp) :=
  ops1 ← file_log_ops metadata_of_json t (data files) Store.Snapshot mode; ops2 ← file_log_ops metadata_of_json t (data files) Store.Wal mode; Ok (ops1 ++ ops2).

Definition others_same files files' : Prop := forall name, name <> "db.wal"%string -> files' !! name = files !! name.

Lemma recover_files_ok io o truncate mode t files (Q : result MiniDbError (Store.Store KT * Recovery.RecoveryInfo) -> Files -> Prop) :
  recovery_now io = (fun _ _ => t) -> (forall ops, data_ops t (recovery_mode o) files = Ok ops -> zlen ops < U64_MAX) ->
  (forall r files', others_same files files' -> begins (files' !! "db.wal"%string) (data files Store.Wal) ->
     (forall store info, r = Ok (store, info) -> exists ops, data_ops t (recovery_mode o) files = Ok ops /\
        StoreExpiry.well_formed krepr dt_json store /\ Store.expired store = [] /\ represents (data files) (Store.records store) (replay ∅ ops)) ->
     (forall e, r = Err e -> e = RecoveryFailed Recovery.IoError \/ exists e', data_ops t (recovery_mode o) files = Err e') -> Q r files') ->
  leads (recover_files io o truncate mode) files Q.
Proof.
  intros Hnow Hsmall HQ. unfold recover_files, leads.
  assert (begins (files !! "db.wal"%string) (data files Store.Wal)) as Hbegins by (exists []; by rewrite app_nil_r).
  destruct (_ || _); [eexists _, _; split; [reflexivity|]; apply HQ; try done; by intros e [= <-]; left|]. rewrite Hnow.
  pose proof (recover_spec metadata_of_json t (data files) krepr dt_json Store.new [] ∅ (file_named io "db.snapshot" files) (file_named io "db.wal" files)
    (recovery_mode o) truncate mode (StoreFacts.new_ok krepr dt_json) (represents_empty _)) as Hr. unfold data_ops in *.
  assert (holds (data files) (file_named io "db.snapshot" files) Store.Snapshot) as Hh1
    by (unfold holds, data, file_named; cbn [data_name]; by destruct (files !! "db.snapshot"%string)).
  assert (holds (data files) (file_named io "db.wal" files) Store.Wal) as Hh2
    by (unfold holds, data, file_named; cbn [data_name]; by destruct (files !! "db.wal"%string)).
  specialize (Hr Hh1 Hh2).
  assert (forall file, file_named io "db.wal" files = Some file -> files !! "db.wal"%string = Some (contents file)) as Hfile
    by (intros file; unfold file_named; destruct (files !! "db.wal"%string); [by intros [= <-]|done]).
  assert (forall wal, wal = file_named io "db.wal" files -> others_same files (match wal with Some file => <["db.wal"%string := contents file]> files | None => files end) /\
    begins (match wal with Some file => <["db.wal"%string := contents file]> files | None => files end !! "db.wal"%string) (data files Store.Wal)) as Hsame.
  { intros wal ->. destruct (file_named io "db.wal" files) as [file|] eqn:E; [|split; [by intros name|exact Hbegins]]. split; [intros name Hn; by rewrite lookup_insert_ne|].
    rewrite lookup_insert_eq. rewrite (Hfile file eq_refl) in Hbegins. exact Hbegins. }
  destruct (Hsame _ eq_refl) as [Hs Hb].
  destruct (file_log_ops _ _ _ Store.Snapshot _) as [ops1|e1]; [destruct (file_log_ops _ _ _ Store.Wal _) as [ops2|e2]|]; simpl_bind.
  2,3: rewrite Hr; cbn [mbind option_bind]; eexists _, _; split; [reflexivity|]; apply HQ; [done|done|done|by intros e [= <-]; right; eexists].
  destruct Hr as (store & ks & Hrec & Hok & Hrep); 
    [change (Store.records (Store.new (T := KT))) with (∅ : gmap bytes Store.StoreRecord); rewrite map_size_empty; by apply Hsmall|].
  rewrite Hrec. cbn [mbind option_bind].
  eexists _, _. split; [reflexivity|]. apply HQ; [| | |done].
  - destruct (cut_wal _ _ _ _), (file_named io "db.wal" files) eqn:E; try done; intros name Hn; by rewrite lookup_insert_ne.
  - destruct (cut_wal _ _ _ _) as [len|], (file_named io "db.wal" files) as [file|] eqn:E; try done. rewrite lookup_insert_eq. cbn [contents default].
    exists (drop (Z.to_nat len) (contents file)). unfold data. cbn [data_name]. rewrite (Hfile file eq_refl). symmetry. apply (take_drop (Z.to_nat len) (contents file)).
  - intros store' info' [= <- <-]. exists (ops1 ++ ops2). split; [done|]. split; [by exists ks|]. split; [|done]. by apply recover_expired in Hrec.
Qed.
(** ** Opening *)

(** What is read from the records is the replay of the files. *)
Definition holds_data (read : option (Store.ValueLoc -> result Store.StoreError bytes)) (m : gmap bytes Store.StoreRecord) (lm : gmap bytes LogRecord) : Prop :=
  forall key, option_Forall2 (fun r l => Store.materialize read (Store.value_ref r) = Ok (log_value l) /\
    Store.expire_at r = log_expire_at l /\ Store.datetimes r = log_datetimes l) (m !! key) (lm !! key).

Lemma opened_value_materializes contents_of reader ref v v' : (forall pr, reader = Some pr -> reads_from contents_of pr) -> resolves contents_of ref v ->
  Store.materialize (read_value read_message reader) ref = Ok v' -> v' = v.
Proof.
  intros Hfrom Hv. destruct ref as [w|location]; cbn [Store.materialize]; [cbn in Hv; congruence|]. destruct reader as [pr|]; [|done].
  cbn [read_value fmap option_fmap option_map ok_or]. simpl_bind. destruct (ValueReader.read location pr) as [w|] eqn:Ev; [|done].
  intros [= <-]. by eapply read_located; [apply Hfrom| |].
Qed.

Lemma readable_holds contents_of reader m lm : represents contents_of m lm -> all_readable (read_value read_message reader) m ->
  (forall pr, reader = Some pr -> reads_from contents_of pr) -> holds_data (read_value read_message reader) m lm.
Proof.
  intros Hrep Hread Hfrom key. specialize (Hrep key). destruct (m !! key) as [r|] eqn:Er; inversion Hrep as [? l (Hv & He & Hd) E1 E2|]; constructor.
  subst. split; [|done]. destruct (Hread key r Er) as [v' Hm]. rewrite Hm. f_equal. by eapply opened_value_materializes.
Qed.

Lemma data_ops_kept t mode files files' : (forall kind, data files' kind = data files kind) -> data_ops t mode files' = data_ops t mode files.
Proof. intros Hk. unfold data_ops, file_log_ops. by rewrite !Hk. Qed.

Lemma represents_kept (f f' : Store.ValueFile -> bytes) (m : gmap bytes Store.StoreRecord) lm : (forall kind, f' kind = f kind) -> represents f' m lm -> represents f m lm.
Proof.
  intros Hk Hr key. specialize (Hr key). destruct Hr as [r l (Hv & ? & ?)|]; constructor. split; [|done].
  destruct (Store.value_ref r) as [v|location]; [done|]. cbn in *. by rewrite <- Hk.
Qed.

Lemma definitions_kept files files' : (forall name, name ∈ definition_names -> files' !! name = files !! name) -> definitions_in_use files -> definitions_in_use files'.
Proof. intros Hk [Hi Ht]. split; intros contents; rewrite Hk by (unfold definition_names; set_solver); [apply Hi|apply Ht]. Qed.

(** An opened database stands for the files, with room for [n] more records. *)
Definition opened_from n t mode files (opened : Opened) : Prop :=
  exists ops, data_ops t mode files = Ok ops /\ closed (database opened) = false /\
    db_ok krepr nrepr orepr trepr codec (read_value read_message (value_reader opened)) n (database opened) /\
    holds_data (read_value read_message (value_reader opened)) (Store.records (store (database opened))) (replay ∅ ops).

(** The records are few enough and their documents small enough for the indexes. *)
Definition room_for t mode files : Prop := forall ops, data_ops t mode files = Ok ops ->
  zlen ops <= TextIndexFacts.MAX_DOCUMENTS /\
  forall key l d, replay ∅ ops !! key = Some l -> document_of codec (Some (log_value l)) = Some d -> small d.

Lemma data_ops_live t mode files ops : data_ops t mode files = Ok ops -> Forall (live_op t) ops.
Proof.
  unfold data_ops, file_log_ops. destruct (log_ops _ _ (frames (parse_buffer (data files Store.Snapshot) mode))) as [ops1|] eqn:E1; [|done]. simpl_bind.
  destruct (log_ops _ _ (frames (parse_buffer (data files Store.Wal) mode))) as [ops2|] eqn:E2; [|done]. simpl_bind. intros [= <-].
  apply Forall_app. split; by eapply log_ops_live.
Qed.

(** The last part of opening, from a store recovered from [files]. *)
Lemma rebuild_opened n io mode files files' reader store0 derived ops (Q : result MiniDbError Derived -> Files -> Prop) :
  TextIndexFacts.chars_short find_cjk -> n <= 2 ^ 31 -> data_ops (rebuild_now io) mode files = Ok ops -> room_for (rebuild_now io) mode files ->
  StoreExpiry.well_formed krepr dt_json store0 -> Store.expired store0 = [] -> represents (data files) (Store.records store0) (replay ∅ ops) ->
  (forall pr, reader = Some pr -> reads_from (data files) pr) -> defined derived ->
  (forall r files'', postings_only files' files'' -> (forall derived', r = Ok derived' -> pair_ok krepr nrepr orepr trepr codec (read_value read_message reader) n store0 derived' /\
     holds_data (read_value read_message reader) (Store.records store0) (replay ∅ ops)) -> Q r files'') ->
  leads (rebuild codec read_message io reader store0 derived) files' Q.
Proof.
  intros Hshort Hn Hops Hroom Hw He Hrep Hfrom Hdef HQ. destruct (Hroom ops Hops) as [Hlen Hsmall]. unfold rebuild.
  pose proof (represents_size _ _ _ Hrep) as Hsize. pose proof (replay_size ops ∅) as Hrs. rewrite map_size_empty in Hrs.
  destruct (rebuild_derived_ok (read_value read_message reader) store0 n (rebuild_now io) (outcomes io) derived files' Hshort Hw He) as (r & derived' & files'' & E & Hpo & Hr).
  - intros key r Hr. specialize (Hrep key). rewrite Hr in Hrep. inversion Hrep as [? l (_ & Hexp & _) E1 E2|]; subst.
    pose proof (replay_live (rebuild_now io) ops ∅ (data_ops_live _ _ _ _ Hops) (map_Forall_empty _) key l (eq_sym E2)) as Hl. cbn in Hl.
    unfold Store.is_live. rewrite Hexp. destruct Hl as [->|Hl]; [done|]. by apply orb_true_iff; right; apply Z.ltb_lt.
  - done.
  - intros key r d Hr Hd. specialize (Hrep key). rewrite Hr in Hrep. inversion Hrep as [? l (Hv & _) E1 E2|]; subst.
    unfold MiniDbFacts.doc_of in Hd. cbn [mbind option_bind] in Hd. apply bind_Some in Hd as (d' & Hd & [= <-]). cbn [fst].
    apply (Hsmall key l); [done|]. unfold value_of in Hd. destruct (Store.materialize _ (Store.value_ref r)) as [v|] eqn:Em; [|done].
    enough (v = log_value l) as <- by done. by eapply opened_value_materializes.
  - unfold zlen in *. lia.
  - done.
  - unfold leads. rewrite E. cbn [mbind option_bind]. eexists _, _. split; [reflexivity|]. apply HQ; [done|]. destruct r as [u|e]; [|done].
    intros d [= <-]. destruct Hr as [(docs & dts & H1' & H2' & H3' & H4' & H5') Hread]. split; [|by apply (readable_holds (data files))].
    exists docs, dts. split_and!; try done; [by apply derived_ok_access|by apply roomy_access].
Qed.
Lemma others_same_definitions files files' : others_same files files' -> forall name, name ∈ definition_names -> files' !! name = files !! name.
Proof. intros Ho name Hin. apply Ho. revert name Hin. apply Forall_forall. apply (bool_decide_unpack _). vm_compute. exact I. Qed.

Lemma take_lock_leads io o files : leads (take_lock io o) files (fun _ files' => files' = files).
Proof.
  unfold take_lock. destruct (want_read_only o); [by apply leads_ret|]. apply leads_bind, leads_of_result. destruct (acquired io) as [[]|]; [by apply leads_ret| |done].
  destruct (readonly_on_lock_fail o); [by apply leads_ret|by apply leads_of_result].
Qed.

Lemma refresh_leads io (cut : bool) files :
  leads (if cut then Open.of_result (if fails io LogSize then Err (WalFailed (Wal.Io "metadata")) else Ok tt) else mret tt) files (fun _ files' => files' = files).
Proof. destruct cut; [by apply leads_of_result|by apply leads_ret]. Qed.

Lemma leads_assoc {A B C} (m1 : F A) (m2 : F B) (f : F C) files (Q : result MiniDbError C -> Files -> Prop) :
  leads ((m1 ≫= fun _ => m2) ≫= fun _ => f) files Q -> leads (m1 ≫= fun _ => m2 ≫= fun _ => f) files Q.
Proof.
  unfold leads, mbind, F_bind. destruct (m1 files) as [[[a|e] files1]|]; cbn [mbind option_bind]; done.
Qed.

Lemma small_data_ops t mode files : room_for t mode files -> forall ops, data_ops t mode files = Ok ops -> zlen ops < U64_MAX.
Proof. intros Hroom ops Hops. destruct (Hroom ops Hops) as [Hlen _]. unfold TextIndexFacts.MAX_DOCUMENTS, U64_MAX in *. lia. Qed.

Lemma prepare_directory io (read_only : bool) files (Q : result MiniDbError () -> Files -> Prop) : (forall r files', kept files files' -> Q r files') ->
  leads ((if read_only : bool then mret tt : F () else cleanup_temporary_files (fails io)) ≫= fun _ : () => (if read_only then mret tt : F () else open_log io)) files Q.
Proof.
  intros HQ. destruct read_only; [apply leads_bind, leads_ret, leads_ret; by apply HQ|]. apply leads_bind, cleanup_kept. intros r files1 Hf.
  apply kept_lookups in Hf. destruct r as [[]|e]; [|by apply HQ]. apply open_log_kept. intros r files2 Hk _. apply HQ. by etrans.
Qed.

Lemma open_reader_from io mode files files0 (Q : result MiniDbError (option ValueReader.PositionedValueReader) -> Files -> Prop) :
  files !! "db.snapshot"%string = files0 !! "db.snapshot"%string -> begins (files !! "db.wal"%string) (data files0 Store.Wal) ->
  (forall r, (forall reader pr, r = Ok reader -> reader = Some pr -> reads_from (data files0) pr) -> Q r files) -> leads (open_reader io mode) files Q.
Proof.
  intros Hs Hw HQ. unfold open_reader. destruct mode; [by apply leads_ret, HQ; intros reader pr [= <-]|].
  apply leads_bind, leads_fs. intros [[]|e]; [|by apply HQ]. apply leads_bind, leads_the_files, leads_ret, HQ. intros reader pr [= <-] [= <-].
  split; cbn [ValueReader.open ValueReader.snapshot ValueReader.wal]; [|done]. rewrite Hs. exists []. by rewrite app_nil_r.
Qed.

Lemma open_database_ok n io o files : TextIndexFacts.chars_short find_cjk -> n <= 2 ^ 31 -> recovery_now io = (fun _ _ => rebuild_now io) ->
  definitions_in_use files -> room_for (rebuild_now io) (recovery_mode o) files ->
  leads (open_database codec read_message io o) files (fun r files' => forall opened, r = Ok opened ->
    opened_from n (rebuild_now io) (recovery_mode o) files opened /\ begins (files' !! "db.wal"%string) (data files Store.Wal)).
Proof.
  intros Hshort Hn Hnow Hdefs Hroom. set (t := rebuild_now io). set (mode := recovery_mode o). unfold open_database.
  apply leads_bind, leads_of_result. destruct (decide _); [done|]. apply leads_bind, leads_fs. intros [[]|e]; [|done].
  apply leads_bind. eapply leads_mono; [apply (take_lock_leads io o files)|]. intros [[read_only has_lock]|e] f ->; [|done].
  apply leads_assoc, leads_bind, prepare_directory. intros [[]|e] f1 [Hdata Hnames]; [|done].
  apply leads_bind, resolve_value_mode_leads. intros [vmode|e] _; [|done].
  apply leads_bind, (recover_files_ok io o _ vmode t f1); [exact Hnow|by intros ops; rewrite (data_ops_kept _ _ _ _ Hdata); apply small_data_ops|].
  intros r f2 Hother Hbegins Hrec _. destruct r as [[store0 info]|e]; [|done]. destruct (Hrec store0 info eq_refl) as (ops & Hops & Hw & He & Hrep).
  rewrite (data_ops_kept _ _ _ _ Hdata) in Hops. apply (represents_kept _ _ _ _ Hdata) in Hrep. rewrite Hdata in Hbegins.
  apply leads_bind. eapply leads_mono; [apply (refresh_leads io (Recovery.truncated_wal info && negb read_only) f2)|]. intros [[]|e] f ->; [|done].
  apply leads_bind, (open_reader_from io vmode f2 f1); [by apply Hother|by rewrite Hdata|]. intros [reader|e] Hfrom; [|done].
  apply leads_bind, load_definitions_ok; [eapply definitions_kept; [|exact Hdefs]; intros name Hin; rewrite (others_same_definitions _ _ Hother name Hin); by apply Hnames|].
  intros [derived|e] Hdef; [|done].
  apply leads_bind, (rebuild_opened n io mode files f2 reader store0 derived ops _ Hshort Hn Hops Hroom Hw He Hrep).
  - intros pr ->. destruct (Hfrom _ pr eq_refl eq_refl) as [Hsn Hwl]. split; by rewrite <- Hdata.
  - by apply Hdef.
  - intros [derived'|e] f3 Hpo Hpair; [|done]. destruct (Hpair derived' eq_refl) as [Hp Hh]. apply leads_ret. intros opened [= <-].
    split; [exists ops; by split_and!|]. by rewrite (Hpo "db.wal"%string).
Qed.
(** C6: Opening any directory returns, whatever calls of the operating system fail.  When
    it gives a database, then unless automatic compaction is on and the log has reached
    its threshold this is one that is open, whose records read as the replay of the
    operations that the frames found in the snapshot and then in the log stand for,
    without the values that have expired, and whose indexes and datetimes hold exactly
    what these records hold (but for documents that are not objects, which a rebuild
    leaves out of the secondary indexes); this stays so in every history for which
    there is room.  Otherwise such a database is what the compaction was given, whose
    result is that of [CompactionFacts].  In [Strict] mode the frames found are those before
    the first corrupt one.  The clock does not pass a time of expiry while the
    database is opened, the definitions in the directory are of indexes as the other
    theorems take them, and the log has at most [2^28] operations on small
    documents. *)
Theorem open_gives_a_sound_database n io o files : TextIndexFacts.chars_short find_cjk -> n <= 2 ^ 31 -> recovery_now io = (fun _ _ => rebuild_now io) ->
  definitions_in_use files -> room_for (rebuild_now io) (recovery_mode o) files ->
  exists r files', open codec read_message io o files = Some (r, files') /\ forall opened, r = Ok opened ->
    exists before, opened_from n (rebuild_now io) (recovery_mode o) files before /\
      (forall c self', FacadeFacts.history codec (settings before) (read_value read_message (value_reader before)) c (database before) self' -> c <= n ->
         db_ok krepr nrepr orepr trepr codec (read_value read_message (value_reader before)) 0 self') /\
      (before = opened \/
       auto_compact o = true /\ should_compact o files = true /\ read_only (settings before) = false /\
       exists files1, compaction io before files1 = (Ok tt, opened, files')).
Proof.
  intros Hshort Hn Hnow Hdefs Hroom. unfold open.
  apply leads_bind. eapply leads_mono; [by apply (open_database_ok n io o files)|]. intros [before|e] files1 Hopened; [|done].
  destruct (Hopened before eq_refl) as [Hfrom [rest Hlog]]. clear Hopened. rename Hfrom into Hopened. assert (forall c self', FacadeFacts.history codec (settings before) (read_value read_message (value_reader before)) c (database before) self' -> c <= n ->
    db_ok krepr nrepr orepr trepr codec (read_value read_message (value_reader before)) 0 self') as Hhist.
  { intros c self' Hh Hc. destruct Hopened as (_ & _ & _ & Hok & _). eapply (FacadeFacts.history_ok krepr nrepr orepr trepr); [exact Hh| |done].
    eapply (UpdateFacts.quiet_db_mono krepr nrepr orepr trepr); [exact Hok|lia]. }
  apply leads_bind, leads_the_files. destruct (_ && _ && _) eqn:Hc.
  - apply andb_true_iff in Hc as [[Hro Hc]%andb_true_iff Hsize]. apply negb_true_iff in Hro.
    assert (should_compact o files = true) as Hdue.
    { unfold should_compact, data in *. cbn [data_name] in Hlog. rewrite Z.leb_le in *. rewrite Hlog, zlen_app. zlen_pos. lia. }
    unfold compact_opened, leads. destruct (compaction io before files1) as [[r opened] files2] eqn:E.
    eexists _, _. split; [reflexivity|]. intros opened' Hr. destruct r as [[]|e]; [|done]. injection Hr as <-. exists before. split_and!; [done..|]. right. split_and!; [done..|]. by exists files1.
  - apply leads_ret. intros opened [= <-]. exists before. by split_and!; [..|left].
Qed.
End facts.
End OpenFacts.
