(* ===== verification/BackupFacts.v ===== *)
(** * Backup and restore: a restored directory opens as the one backed up

    Opening looks at no file but those a backup copies, so that two directories which
    agree on these open in the same way ([open_database_agrees]). *)

From Corelib Require Import SpecFloat.
From S2P Require Import Prelude.
From S2P Require Import Crc.
From S2P Require Import OrdIndex.
From S2P Require Import Store.
From S2P Require Import Recovery.
From S2P Require Import ValueReader.
From S2P Require Import DtIndex.
From S2P Require Import Query.
From S2P Require Import Float.
From S2P Require Import IndexManager.
From S2P Require Import CompoundIndex.
From S2P Require Import Postings.
From S2P Require Import TextIndex.
From S2P Require Import MiniDb.
From S2P Require Import MiniDbRead.
From S2P Require Import Open.
Import OrdIndex Float MiniDb MiniDbRead Open.

Module BackupFacts.

(** The files that last are the same. *)
Definition same_files (files files' : Files) : Prop := forall name, persistent_name name = true -> files !! name = files' !! name.

#[export] Instance same_files_equivalence : Equivalence same_files.
Proof.
  split; [by intros f name|by intros f g Hfg name Hn; symmetry; apply Hfg|]. intros f g h Hfg Hgh name Hn. by rewrite Hfg, Hgh.
Qed.

(** A step gives the same result on both directories, which agree afterwards too. *)
Definition agrees {A} (m : F A) (files files' : Files) (P : A -> Prop) : Prop :=
  match m files, m files' with
  | Some (r, g), Some (r', g') => r = r' /\ same_files g g' /\ forall a, r = Ok a -> P a
  | None, None => True
  | _, _ => False
  end.

Section steps.
Implicit Types files g : Files.

Lemma agrees_bind {A B} (m : F A) (k : A -> F B) files files' (P : A -> Prop) (Q : B -> Prop) :
  agrees m files files' P -> (forall a g g', P a -> same_files g g' -> agrees (k a) g g' Q) -> agrees (m ≫= k) files files' Q.
Proof.
  unfold agrees at 1 3, mbind, F_bind. destruct (m files) as [[r g]|], (m files') as [[r' g']|]; try done. intros (<- & Hg & Hp) Hk.
  cbn [mbind option_bind]. destruct r as [a|e]; [by apply (Hk a g g' (Hp a eq_refl))|]. by split_and!.
Qed.

Lemma agrees_result {A} (r : result MiniDbError A) files files' (P : A -> Prop) : same_files files files' -> (forall a, r = Ok a -> P a) -> agrees (Open.of_result r) files files' P.
Proof. intros Hs HP. by split_and!. Qed.

Lemma agrees_ret {A} (a : A) files files' (P : A -> Prop) : same_files files files' -> P a -> agrees (mret a) files files' P.
Proof. intros Hs HP. split_and!; [done..|]. by intros a' [= <-]. Qed.

Lemma agrees_fs fails call files files' : same_files files files' -> agrees (fs fails call) files files' (fun _ => True).
Proof. intros Hs. by apply agrees_result. Qed.

Lemma agrees_change f files files' : same_files (f files) (f files') -> agrees (change f) files files' (fun _ => True).
Proof. intros Hs. by split_and!. Qed.

Lemma agrees_mono {A} (m : F A) files files' (P Q : A -> Prop) : agrees m files files' P -> (forall a, P a -> Q a) -> agrees m files files' Q.
Proof. unfold agrees. intros Hm HPQ. repeat case_match; try done. destruct Hm as (? & ? & HP). split_and!; [done..|]. auto. Qed.

(** ** Changes of files by name *)

Lemma insert_same name contents files files' : same_files files files' -> same_files (<[name := contents]> files) (<[name := contents]> files').
Proof. intros Hs n Hn. destruct (decide (name = n)) as [->|]; [by rewrite !lookup_insert_eq|rewrite !lookup_insert_ne by done; by apply Hs]. Qed.

Lemma delete_same name files files' : same_files files files' -> same_files (delete name files) (delete name files').
Proof. intros Hs n Hn. destruct (decide (name = n)) as [->|]; [by rewrite !lookup_delete_eq|rewrite !lookup_delete_ne by done; by apply Hs]. Qed.

Lemma try_remove_all_same fails names files files' : same_files files files' -> same_files (try_remove_all fails names files) (try_remove_all fails names files').
Proof.
  unfold try_remove_all. revert files files'. induction names as [|name names IH]; intros files files' Hs; [done|]. cbn [fold_left]. apply IH.
  unfold try_remove. destruct (fails _); [done|by apply delete_same].
Qed.

Lemma filter_same (P : string * bytes -> Prop) `{!forall entry, Decision (P entry)} files files' : same_files files files' -> same_files (filter P files) (filter P files').
Proof. intros Hs n Hn. apply option_eq. intros c. rewrite !map_lookup_filter_Some. by rewrite (Hs n Hn). Qed.

Lemma put_file_same path contents files files' : same_files files files' -> same_files (put_file path contents files) (put_file path contents files').
Proof. intros Hs. destruct path, contents; cbn [put_file]; [by apply insert_same|by apply delete_same|done..]. Qed.

(** ** Steps of opening *)

Lemma cleanup_agrees fails files files' : same_files files files' -> agrees (cleanup_temporary_files fails) files files' (fun _ => True).
Proof.
  intros Hs. unfold cleanup_temporary_files. eapply agrees_bind; [by apply agrees_change, try_remove_all_same|]. intros _ g g' _ Hg.
  eapply agrees_bind; [by apply agrees_fs|]. intros _ h h' _ Hh. apply agrees_change.
  by apply filter_same.
Qed.

Lemma size_of_agrees fails name files files' : persistent_name name = true -> same_files files files' -> agrees (size_of fails name) files files' (fun _ => True).
Proof.
  intros Hn Hs. unfold agrees, size_of, mbind, F_bind, the_files. cbn [mbind option_bind]. rewrite <- (Hs name Hn). destruct (files !! name); [|done].
  unfold fs, Open.of_result. cbn [mbind option_bind]. by destruct (fails _).
Qed.

Lemma read_json_agrees {T} fails (parse : bytes -> option T) name files files' : persistent_name name = true -> same_files files files' ->
  agrees (read_json fails parse name) files files' (fun _ => True).
Proof.
  intros Hn Hs. unfold agrees, read_json, mbind, F_bind, the_files. cbn [mbind option_bind]. rewrite <- (Hs name Hn). destruct (files !! name) as [c|]; [|done].
  unfold fs, Open.of_result. cbn [mbind option_bind]. destruct (fails _); [done|]. by destruct (parse c).
Qed.

Lemma resolve_agrees fails setting maximum files files' : same_files files files' -> agrees (resolve_value_mode fails setting maximum) files files' (fun _ => True).
Proof.
  intros Hs. destruct setting; cbn [resolve_value_mode]; [by apply agrees_ret..|]. destruct maximum as [maximum|]; [|by apply agrees_ret].
  eapply agrees_bind; [by apply size_of_agrees|]. intros z1 g g' _ Hg. eapply agrees_bind; [by apply size_of_agrees|]. intros z2 h h' _ Hh. by apply agrees_ret.
Qed.

(** ** The names of postings *)

Lemma length_append (x y : string) : String.length (x +:+ y) = (String.length x + String.length y)%nat.
Proof. induction x as [|c x IH]; [done|]. change (String c x +:+ y)%string with (String c (x +:+ y)). cbn [String.length]. by rewrite IH. Qed.

Lemma substring_append (x y : string) : String.substring (String.length x) (String.length y) (x +:+ y) = y.
Proof.
  induction x as [|c x IH]; [|exact IH]. change ((EmptyString +:+ y)%string) with y. cbn [String.length].
  induction y as [|c y IH]; [done|]. cbn [String.length String.substring]. by rewrite IH.
Qed.

Lemma ends_with_app (suffix name : string) : ends_with suffix (name +:+ suffix)%string = true.
Proof.
  unfold ends_with. rewrite length_append. replace (String.length name + String.length suffix - String.length suffix)%nat with (String.length name) by lia.
  rewrite substring_append, String.eqb_refl, andb_true_r. apply Nat.leb_le. lia.
Qed.

Lemma starts_with_db (name : string) : starts_with "db.text-" ("db.text-" +:+ name)%string = true.
Proof. by destruct name. Qed.

Lemma name_app_assoc (x y z : string) : ((x +:+ y) +:+ z = x +:+ (y +:+ z))%string.
Proof. induction x as [|c x IH]; [done|]. change ((String c x +:+ y) +:+ z)%string with (String c ((x +:+ y) +:+ z)). by rewrite IH. Qed.

Lemma postings_persistent name : persistent_name (text_postings_path name) = true.
Proof.
  unfold persistent_name. apply orb_true_iff. right. unfold text_postings_path. rewrite starts_with_db. cbn [andb].
  rewrite <- name_app_assoc. apply ends_with_app.
Qed.
(** ** Copying *)

(** What a directory has of the entries that are kept. *)
Lemma copy_files_ok fails keep entries : forall copied files names files', NoDup entries.*1 ->
  copy_files fails keep entries copied files = Some (Ok names, files') ->
  forall name, files' !! name = match (list_to_map entries : Files) !! name with
                                | Some contents => if keep name then Some contents else files !! name
                                | None => files !! name
                                end.
Proof.
  induction entries as [|[n contents] entries IH]; intros copied files names files' Hnd; cbn [copy_files]; [by intros [= _ <-] name|].
  apply NoDup_cons in Hnd as [Hn Hnd]. cbn [fst] in Hn. intros E name. cbn [list_to_map foldr uncurry fst snd].
  assert (exists copied' files1, copy_files fails keep entries copied' files1 = Some (Ok names, files') /\
    files1 = if keep n then <[n := contents]> files else files) as (copied' & files1 & E1 & Hf).
  { destruct (keep n); [|by eauto]. unfold fs, change, Open.of_result, mbind, F_bind in E. cbn [mbind option_bind] in E. destruct (fails _); [done|]. eauto. }
  rewrite (IH _ _ _ _ Hnd E1 name), Hf. destruct (decide (n = name)) as [->|Hne].
  - rewrite lookup_insert_eq, (not_elem_of_list_to_map_1 entries name Hn). destruct (keep name); [by rewrite lookup_insert_eq|done].
  - rewrite lookup_insert_ne by done. destruct (keep n); [|done]. by rewrite lookup_insert_ne.
Qed.

Lemma copy_files_runs fails keep entries : (forall name, fails (Copy name) = false) -> forall copied files, exists names files',
  copy_files fails keep entries copied files = Some (Ok names, files').
Proof.
  intros Hc. induction entries as [|[n contents] entries IH]; intros copied files; cbn [copy_files]; [by eexists _, _|].
  destruct (keep n); [|apply IH]. unfold fs, change, Open.of_result, mbind, F_bind. cbn [mbind option_bind]. rewrite Hc. apply IH.
Qed.

Lemma copied_same fails keep source files files' copied names : (forall name, persistent_name name = true -> keep name = true) ->
  (forall name, persistent_name name = true -> files !! name = None) ->
  copy_files fails keep (map_to_list source) copied files = Some (Ok names, files') -> same_files files' source.
Proof.
  intros Hk Hf E name Hn. rewrite (copy_files_ok _ _ _ _ _ _ _ (NoDup_fst_map_to_list source) E name), list_to_map_to_list.
  rewrite (Hk name Hn), (Hf name Hn). by destruct (source !! name).
Qed.

Lemma backup_files_same `{!DefinitionJson} fails now source destination files' : (forall name, persistent_name name = true -> destination !! name = None) ->
  backup_files fails now source destination = Some (Ok tt, files') -> same_files files' source.
Proof.
  intros Hd. unfold backup_files, fs, Open.of_result, change, mbind, F_bind. cbn [mbind option_bind]. destruct (fails CreateDir); [done|]. destruct (fails ReadSource); [done|].
  destruct (copy_files _ _ _ _ _) as [[[names|e] files1]|] eqn:E; [|done..]. destruct (fails _); [done|]. intros [= <-].
  intros name Hn. rewrite lookup_insert_ne; [|by intros <-]. by apply (copied_same _ _ _ _ _ _ _ (fun _ Hp => Hp) Hd E).
Qed.

End steps.
(** ** Opening *)

Section open.
Context {Number V : Type} `{!Platform Number} `{Crc32fast} `{!DefinitionJson}.
Context {KT NT OT TT : Type}.
Context `{!OrderedIndex KT bytes bytes} `{!OrderedIndex NT f64 bytes}.
Context `{!OrderedIndex OT CompoundIndex.OrderValue bytes} `{!OrderedIndex TT Z bytes}.
Context (codec : ValueCodec Number V) (read_message : Store.ValueLoc -> string).
Abbreviation Value := (@Query.Value Number).
Abbreviation Derived := (@DerivedState NT OT TT).
Abbreviation Opened := (@Open.Opened KT NT OT TT).
Abbreviation OpenIo := (@Open.OpenIo KT NT OT TT).
Implicit Types (files g source : Files) (derived : Derived) (io : OpenIo) (o : Settings).

Lemma take_lock_agrees io o files files' : same_files files files' -> agrees (take_lock io o) files files' (fun _ => True).
Proof.
  intros Hs. unfold take_lock. destruct (want_read_only o); [by apply agrees_ret|]. eapply agrees_bind; [by apply (agrees_result _ _ _ (fun _ => True))|].
  intros [] g g' _ Hg; [by apply agrees_ret|]. destruct (readonly_on_lock_fail o); [by apply agrees_ret|by apply agrees_result].
Qed.

Lemma open_log_agrees io files files' : same_files files files' -> agrees (open_log io) files files' (fun _ => True).
Proof.
  intros Hs. unfold open_log. eapply agrees_bind; [by apply (agrees_result _ _ _ (fun _ => True))|]. intros _ g g' _ Hg. apply agrees_change.
  rewrite (Hg "db.wal"%string eq_refl). by apply insert_same.
Qed.

Lemma recover_files_agrees io o truncate mode files files' : same_files files files' ->
  agrees (recover_files (KT := KT) io o truncate mode) files files' (fun _ => True).
Proof.
  intros Hs. unfold agrees, recover_files, unreadable, file_named. rewrite <- (Hs "db.wal"%string eq_refl), <- (Hs "db.snapshot"%string eq_refl).
  destruct (_ || _); [done|]. destruct (Recovery.recover _ _ _ _ _ _ _ _ _) as [[[r store] wal]|]; [|done]. cbn [mbind option_bind].
  split; [done|]. split; [|done]. destruct wal; [by apply insert_same|done].
Qed.

Lemma open_reader_agrees io mode files files' : same_files files files' -> agrees (open_reader io mode) files files' (fun _ => True).
Proof.
  intros Hs. unfold open_reader. destruct mode; [by apply agrees_ret|]. eapply agrees_bind; [by apply agrees_fs|]. intros _ g g' _ Hg.
  unfold agrees, mbind, F_bind, the_files. cbn [mbind option_bind]. by rewrite (Hg "db.wal"%string eq_refl), (Hg "db.snapshot"%string eq_refl).
Qed.

(** Postings are kept in files that last. *)
Definition paths_last (text : gmap string TextIndex.TextIndex) : Prop :=
  forall name index path, text !! name = Some index -> TextIndex.path index = Some path -> persistent_name path = true.

Lemma load_texts_last read_only (definitions : list TextIndexDefinition) : forall text, paths_last text ->
  paths_last (fold_left (load_text_index read_only) definitions text).
Proof.
  induction definitions as [|definition definitions IH]; intros text Ht; [done|]. cbn [fold_left]. apply IH. intros name index path.
  unfold load_text_index. intros [[<- <-]|[_ Hi]]%lookup_insert_Some Hp; [|by apply (Ht name index)].
  destruct read_only; [done|]. assert (path = text_postings_path (def_name definition)) as -> by (cbn in Hp; congruence). apply postings_persistent.
Qed.

Lemma load_definitions_agrees fails read_only files files' : same_files files files' ->
  agrees (load_definitions fails read_only) files files' (fun derived => paths_last (text derived)).
Proof.
  intros Hs. unfold load_definitions. cbv zeta. eapply agrees_bind; [by apply read_json_agrees|]. intros infos g1 g1' _ H1.
  eapply agrees_bind; [by apply (agrees_result _ _ _ (fun _ => True))|]. intros im g2 g2' _ H2.
  eapply agrees_bind; [by apply read_json_agrees|]. intros cinfos g3 g3' _ H3.
  eapply agrees_bind; [by apply (agrees_result _ _ _ (fun _ => True))|]. intros co g4 g4' _ H4.
  eapply agrees_bind; [by apply read_json_agrees|]. intros definitions g5 g5' _ H5. apply agrees_ret; [done|]. cbn [text].
  apply load_texts_last. intros name index path Hi. cbn in Hi. by rewrite lookup_empty in Hi.
Qed.

Lemma build_path (entries : list (bytes * Value)) outcomes disk index :
  TextIndex.path (TextIndex.build to_lowercase find_latin find_cjk entries outcomes disk index).2 = TextIndex.path index.
Proof. unfold TextIndex.build. repeat case_match; try done; by simplify_eq. Qed.

Lemma build_texts_same (entries : list (bytes * Value)) outcomes texts : forall text files files',
  (forall name index path, (name, index) ∈ texts -> TextIndex.path index = Some path -> persistent_name path = true) -> same_files files files' ->
  (build_texts entries outcomes texts text files).1 = (build_texts entries outcomes texts text files').1 /\
  same_files (build_texts entries outcomes texts text files).2 (build_texts entries outcomes texts text files').2.
Proof.
  induction texts as [|[name index] texts IH]; intros text files files' Hp Hs; [done|]. cbn [build_texts].
  assert ((path ← TextIndex.path index; files !! path) = (path ← TextIndex.path index; files' !! path)) as <-.
  { destruct (TextIndex.path index) as [path|] eqn:E; [|done]. apply Hs, (Hp name index path); [by left|done]. }
  destruct (TextIndex.build _ _ _ _ _ _ _) as [[disk built] index']. destruct built; [|split; [done|by apply put_file_same]].
  apply IH; [|by apply put_file_same]. intros n i p Hin. apply (Hp n i p). by right.
Qed.

Lemma rebuild_agrees io reader (store : Store.Store KT) derived files files' : paths_last (text derived) -> same_files files files' ->
  agrees (rebuild codec read_message io reader store derived) files files' (fun _ => True).
Proof.
  intros Hp Hs. unfold agrees, rebuild, rebuild_derived. destruct (Store.entries _ _ _) as [entries|e]; [|done].
  destruct (IndexManager.rebuild _ _ _ _ _) as [im|]; [|done]. simpl_bind. destruct (DtIndex.rebuild _ _) as [dt|]; [|done]. simpl_bind.
  destruct (CompoundIndex.rebuild _ _ _ _) as [co|]; [|done]. simpl_bind.
  set (plain := map _ _). pose proof (build_texts_same plain (outcomes io) (map_to_list (text derived)) (text derived) files files') as Hb.
  destruct (build_texts plain _ _ _ files) as [[r ts] g], (build_texts plain _ _ _ files') as [[r' ts'] g']. cbn [fst snd] in Hb.
  destruct Hb as [[= <- <-] Hg]; [|done|].
  - intros name index path Hin%elem_of_map_to_list. by apply (Hp name).
  - cbn [mbind option_bind]. by split_and!.
Qed.

Lemma open_database_agrees io o files files' : same_files files files' -> agrees (open_database codec read_message io o) files files' (fun _ => True).
Proof.
  intros Hs. unfold open_database. eapply agrees_bind; [by apply (agrees_result _ _ _ (fun _ => True))|]. intros _ g1 g1' _ H1.
  eapply agrees_bind; [by apply agrees_fs|]. intros _ g2 g2' _ H2. eapply agrees_bind; [by apply take_lock_agrees|]. intros [read_only has_lock] g3 g3' _ H3.
  eapply agrees_bind; [destruct read_only; [by apply (agrees_ret _ _ _ (fun _ => True))|by apply cleanup_agrees]|]. intros _ g4 g4' _ H4.
  eapply agrees_bind; [destruct read_only; [by apply (agrees_ret _ _ _ (fun _ => True))|by apply open_log_agrees]|]. intros _ g5 g5' _ H5.
  eapply agrees_bind; [by apply resolve_agrees|]. intros mode g6 g6' _ H6. eapply agrees_bind; [by apply recover_files_agrees|]. intros [store info] g7 g7' _ H7.
  eapply agrees_bind; [destruct (_ && _); [by apply (agrees_result _ _ _ (fun _ => True))|by apply (agrees_ret _ _ _ (fun _ => True))]|]. intros _ g8 g8' _ H8.
  eapply agrees_bind; [by apply open_reader_agrees|]. intros reader g9 g9' _ H9. eapply agrees_bind; [by apply load_definitions_agrees|]. intros derived ga ga' Hd Ha.
  eapply agrees_bind; [by apply rebuild_agrees|]. intros derived' gb gb' _ Hb. by apply agrees_ret.
Qed.

Lemma open_agrees_on io o files files' : auto_compact o = false -> same_files files files' -> agrees (open codec read_message io o) files files' (fun _ => True).
Proof.
  intros Ha Hs. unfold open. eapply agrees_bind; [by apply open_database_agrees|]. intros opened g g' _ Hg. rewrite Ha, andb_false_r. cbn [andb].
  unfold agrees, mbind, F_bind, the_files. cbn [mbind option_bind]. by split_and!.
Qed.

(** C7: A backup that succeeds into a directory without files of a database, restored
    into an empty directory or one that is cleared, opens with the same result as the
    directory that was backed up: the same database with the same settings and report,
    the same error or the same panic; and leaves the same files that last.  The restore
    neither fails to create the directory or to read its source nor to copy or remove a
    file, and automatic compaction is off; other calls of the opening may fail, as they
    do for the source.  (A destination with files of an older backup is
    [backup_keeps_stale_files] of [OpenExamples].) *)
Theorem restored_backup_opens_the_same io io' o now compact_first force (self self' : Opened) source source' destination copy files r g :
  backup io now compact_first self source destination = Some (Ok tt, self', source', copy) ->
  (forall name, persistent_name name = true -> destination !! name = None) ->
  (forall name, fails io' (Copy name) = false /\ fails io' (Remove name) = false) -> fails io' CreateDir = false -> fails io' ReadSource = false ->
  force = true \/ files = ∅ -> auto_compact o = false ->
  open codec read_message io' o source' = Some (r, g) ->
  exists g', restore codec read_message io' force o copy files = Some (r, g') /\ same_files g g'.
Proof.
  intros Hbackup Hdest Hio Hcreate Hread Hfiles Hauto Hopen. assert (same_files copy source') as Hcopy.
  { unfold backup in Hbackup. destruct (closed _); [done|]. destruct (if compact_first && _ then _ else _) as [[[[]|e] self1] source1]; [|done].
    destruct (if negb _ then _ else _) as [[[]|e] source2]; [|done]. apply bind_Some in Hbackup as ([r1 d1] & Hb & [= -> _ <- <-]).
    by eapply backup_files_same. }
  destruct (copy_files_runs (fails io') (fun name => persistent_name name || String.eqb name "backup.manifest.json") (map_to_list copy)
    (fun name => proj1 (Hio name)) [] ∅) as (names & files1 & E).
  assert (same_files source' files1) as Hsame.
  { rewrite <- Hcopy. symmetry. eapply copied_same; [| |exact E]; [by intros name Hn; cbv beta; rewrite Hn|by intros; rewrite lookup_empty]. }
  pose proof (open_agrees_on io' o source' files1 Hauto Hsame) as Ho. unfold agrees in Ho. rewrite Hopen in Ho.
  destruct (open _ _ _ _ files1) as [[r' g']|] eqn:Eo; [|done]. destruct Ho as (<- & Hg & _). exists g'. split; [|done].
  unfold restore. assert (forall m : F (), m files = Some (Ok tt, ∅) -> (m ≫= fun _ => fs (fails io') CreateDir ≫= fun _ => fs (fails io') ReadSource ≫= fun _ =>
    copy_files (fails io') (fun name => persistent_name name || String.eqb name "backup.manifest.json") (map_to_list copy) [] ≫= fun _ => open codec read_message io' o) files =
    Some (r, g')) as Hrest.
  { intros m Hm. unfold fs, Open.of_result, mbind, F_bind. rewrite Hm. cbn [mbind option_bind]. rewrite Hcreate, Hread, E. exact Eo. }
  apply Hrest. destruct force.
  - unfold remove_dir_all, change. do 2 f_equal. apply map_eq. intros name. rewrite lookup_empty. apply map_lookup_filter_None. right. intros c _. cbn. by rewrite (proj2 (Hio name)).
  - destruct Hfiles as [?| ->]; [done|]. unfold the_files, Open.of_result, mbind, F_bind. cbn [mbind option_bind]. by rewrite bool_decide_eq_true_2, andb_false_r.
Qed.
End open.
End BackupFacts.
