(* ===== verification/OpenExamples.v ===== *)
(** * Opening, backup and restore: examples

    A directory with a torn log, definitions of two indexes and a file that a crash has
    left, opened, backed up and restored; and directories for which opening whatever is
    there, backing up and closing do more or less than one expects. *)

From Corelib Require Import SpecFloat.
From S2P Require Import Prelude.
From S2P Require Import Crc.
From S2P Require Import Codec.
From S2P Require Import OrdIndex.
From S2P Require Import SkipList.
From S2P Require Import SkipListFacts.
From S2P Require Import Store.
From S2P Require Import StoreFacts.
From S2P Require Import Recovery.
From S2P Require Import RecoveryFacts.
From S2P Require Import Wal.
From S2P Require Import ValueReader.
From S2P Require Import DtIndex.
From S2P Require Import Query.
From S2P Require Import Float.
From S2P Require Import IndexManager.
From S2P Require Import IndexManagerFacts.
From S2P Require Import CompoundIndex.
From S2P Require Import CompoundIndexFacts.
From S2P Require Import Postings.
From S2P Require Import TextIndex.
From S2P Require Import TextIndexFacts.
From S2P Require Import MiniDb.
From S2P Require Import MiniDbRead.
From S2P Require Import MiniDbFacts.
From S2P Require Import FacadeExamples.
From S2P Require Import Open.
From S2P Require Import OpenFacts.
From S2P Require Import BackupFacts.
Import OrdIndex Codec Recovery RecoveryFacts Float MiniDb MiniDbRead MiniDbFacts Open OpenFacts BackupFacts.
Import Crc.Additive StoreFacts IndexManagerFacts CompoundIndexFacts.

Module OpenExamples.

#[local] Existing Instance FacadeExamples.platform.
#[local] Existing Instance FacadeExamples.time_index.
#[local] Existing Instance FacadeExamples.time_index_laws.
#[local] Instance in_use : InUse := {| text_fields := fun f => f = None; index_infos := fun i => i = FacadeExamples.by_s; forgotten := fun _ => True |}.

Definition text (s : string) : bytes := String.list_byte_of_string s.

(** Texts of definitions that can be computed; no other text is one. *)
#[local] Instance json : DefinitionJson := {|
  indexes_of_json := fun c => if decide (c = text "[by_s]") then Some [FacadeExamples.by_s] else None;
  json_of_indexes := fun _ => text "[by_s]";
  compound_of_json := fun _ => None; json_of_compound := fun _ => [];
  text_of_json := fun c => if decide (c = text "[words]") then Some [mk_TextIndexDefinition "words" None] else None;
  json_of_text := fun _ => text "[words]";
  metadata_of_json := fun _ => None; manifest := fun _ _ => text "manifest";
|}.

Abbreviation Opened := (@Open.Opened KeyIndex NumberIndex OrderIndex DtIndex.TimeIndex).
Abbreviation OpenIo := (@Open.OpenIo KeyIndex NumberIndex OrderIndex DtIndex.TimeIndex).

Definition read_message (_ : Store.ValueLoc) : string := "unreadable".
Abbreviation open := (Open.open FacadeExamples.codec read_message).

Definition frame (key value : string) (meta : option bytes) : bytes :=
  match encode_frame (mk_Frame TYPE_SET (text key) (text value) meta 0) with Ok enc => enc | Err _ => [] end.

(** Nothing fails. *)
Definition quiet : OpenIo :=
  mk_OpenIo (fun _ => false) (Ok true) (fun _ => mk_WalAnchor 1 1) (fun _ _ => 5) 5 (fun _ => Postings.no_failures) (fun opened files => (Ok tt, opened, files)) (fun files => (Ok tt, files)).

Definition on_disk : Settings := mk_Settings false false AlwaysDisk None Reject Resync 1000 false.

(** A log with a frame and the beginning of another. *)
Definition directory : Files := <["db.wal"%string := frame "a" "red" None ++ take 7 (frame "b" "blue" None)]>
  (<["db.indexes.json"%string := text "[by_s]"]> (<["db.textindexes.json"%string := text "[words]"]> {[ "db.wal.tmp"%string := text "left" ]})).

Definition opened_directory := open quiet on_disk directory.
Definition opened_ok (o : option (result MiniDbError Opened * Files)) : bool := match o with Some (Ok _, _) => true | _ => false end.

Lemma directory_ops : data_ops 5 Resync directory = Ok [LSet (text "a") (text "red") 0 None].
Proof. vm_compute. reflexivity. Qed.

Lemma directory_in_use : definitions_in_use directory.
Proof.
  split; intros contents infos _; cbn [indexes_of_json text_of_json json]; (destruct (decide _); [|done]); intros [= <-] x ->%list_elem_of_singleton; reflexivity.
Qed.

Lemma red_small d : document_of FacadeExamples.codec (Some (text "red")) = Some d -> small d.
Proof. intros [= <-]. split; [intros fields ->; vm_compute; reflexivity|]. intros i ->. vm_compute. discriminate. Qed.

Lemma directory_room : room_for FacadeExamples.codec 5 Resync directory.
Proof.
  intros ops Hops. rewrite directory_ops in Hops. injection Hops as <-. split; [vm_compute; discriminate|]. intros key l d Hl.
  unfold replay in Hl. cbn [fold_left replay_op] in Hl. apply lookup_insert_Some in Hl as [[_ <-]|[_ Hl]]; [|by rewrite lookup_empty in Hl]. apply red_small.
Qed.

Lemma cjk_short : TextIndexFacts.chars_short (find_cjk (Number := spec_float)).
Proof. exact TextIndexFacts.example_cjk_short. Qed.

(** The torn frame and the temporary file are gone, and the database stands for the rest. *)
Lemma open_gives_a_sound_database_witness : exists opened files', opened_directory = Some (Ok opened, files') /\
  opened_from key_index_repr number_repr order_repr FacadeExamples.time_repr FacadeExamples.codec read_message 100 5 Resync directory opened.
Proof.
  destruct (open_gives_a_sound_database key_index_repr number_repr order_repr FacadeExamples.time_repr FacadeExamples.codec read_message ltac:(exact (fun _ => I)) 100 quiet on_disk directory
    cjk_short ltac:(vm_compute; discriminate) eq_refl directory_in_use directory_room) as (r & files' & E & Ho).
  assert (opened_ok opened_directory = true) as Hok by (vm_compute; reflexivity). change (open quiet on_disk directory) with opened_directory in E.
  rewrite E in Hok. destruct r as [opened|e]; [|discriminate Hok]. destruct (Ho opened eq_refl) as (before & Hbefore & _ & [<-|[Hauto _]]); [|discriminate Hauto].
  exists before, files'. split; [exact E|exact Hbefore].
Defined.

Definition file_length (name : string) (o : option (result MiniDbError Opened * Files)) : option Z :=
  match o with Some (_, files) => zlen <$> files !! name | None => None end.

Example torn_frame_is_cut : file_length "db.wal" opened_directory = Some (zlen (frame "a" "red" None)) /\ file_length "db.wal.tmp" opened_directory = None.
Proof. split; vm_compute; reflexivity. Qed.

(** ** Backup and restore *)

Definition no_database : Opened :=
  mk_Opened (mk_MiniDb Store.new DerivedState_default false (mk_MiniDbStats 0 0 0)) (mk_OpenOptions false Recovery.InMemory None Reject) None
    (Recovery.mk_RecoveryInfo 0 0 false [] [] 0 0 0 0) false false None.
Definition the_opened (o : option (result MiniDbError Opened * Files)) : Opened := match o with Some (Ok opened, _) => opened | _ => no_database end.
Definition the_directory {A} (o : option (result MiniDbError A * Files)) : Files := match o with Some (_, files) => files | None => ∅ end.

Definition backed_up := backup quiet 9 true (the_opened opened_directory) (the_directory opened_directory) {[ "notes"%string := text "mine" ]}.
Definition copied : Files := match backed_up with Some (_, _, _, copy) => copy | None => ∅ end.

Definition reopened := open quiet on_disk (the_directory opened_directory).

Lemma restored_backup_opens_the_same_witness : exists opened g g', open quiet on_disk (the_directory opened_directory) = Some (Ok opened, g) /\
  restore FacadeExamples.codec read_message quiet true on_disk copied {[ "db.wal"%string := text "old" ]} = Some (Ok opened, g') /\ same_files g g'.
Proof.
  assert (opened_ok reopened = true) as Hok by (vm_compute; reflexivity). destruct reopened as [[[opened|e] g]|] eqn:E; [|discriminate Hok..]. unfold reopened in E.
  assert (backup quiet 9 true (the_opened opened_directory) (the_directory opened_directory) {[ "notes"%string := text "mine" ]} =
    Some (Ok tt, the_opened opened_directory, the_directory opened_directory, copied)) as Hb by (vm_compute; reflexivity).
  assert (forall name, persistent_name name = true -> ({[ "notes"%string := text "mine" ]} : Files) !! name = None) as Hdest.
  { intros name Hn. destruct (decide (name = "notes"%string)) as [->|Hne]; [discriminate Hn|by apply lookup_singleton_ne]. }
  destruct (restored_backup_opens_the_same FacadeExamples.codec read_message quiet quiet on_disk 9 true true (the_opened opened_directory) (the_opened opened_directory)
    (the_directory opened_directory) (the_directory opened_directory) {[ "notes"%string := text "mine" ]} copied {[ "db.wal"%string := text "old" ]} (Ok opened) g Hb
    Hdest (fun name => conj eq_refl eq_refl) eq_refl eq_refl (or_introl eq_refl) eq_refl E) as (g' & Hr & Hg).
  exists opened, g, g'. exact (conj E (conj Hr Hg)).
Defined.

Definition values (opened : Opened) : list (option bytes) :=
  (fun kr => MiniDbFacts.value_of (read_value read_message (value_reader opened)) kr.2) <$> map_to_list (Store.records (store (database opened))).

(** A backup into a directory that holds an older backup with a snapshot, of a database
    that has none: the old snapshot stays, and its records come back. *)
Definition in_memory : Settings := mk_Settings false false AlwaysMemory None Reject Resync 1000 false.
Definition fresh_directory : Files := {[ "db.wal"%string := frame "a" "red" None ]}.
Definition older_backup : Files := {[ "db.snapshot"%string := frame "b" "blue" None ]}.
Definition mixed : Files :=
  match backup quiet 9 false (the_opened (open quiet in_memory fresh_directory)) fresh_directory older_backup with Some (_, _, _, copy) => copy | None => ∅ end.

Example backup_keeps_stale_files :
  values (the_opened (open quiet in_memory fresh_directory)) = [Some (text "red")] /\
  values (the_opened (restore FacadeExamples.codec read_message quiet true in_memory mixed ∅)) = [Some (text "blue"); Some (text "red")].
Proof. split; vm_compute; reflexivity. Qed.

(** ** Opening whatever is there *)

(** The metadata of one frame of the log cannot be decoded. *)
Definition bad_metadata : Files := <["db.wal"%string := frame "a" "red" None ++ frame "b" "blue" (Some (text "{"))]> {[ "notes"%string := text "mine" ]}.
Definition reader_of_another : Settings := mk_Settings true false AlwaysMemory None Reject Resync 1000 false.

(** A process that only wants to read removes the directory, files of others included,
    without ever having held the lock. *)
Example a_reader_removes_the_directory :
  match open_or_rebuild FacadeExamples.codec read_message (fun _ => quiet) reader_of_another bad_metadata with
  | Some (Ok opened, files) => bool_decide (files = ∅) && read_only (settings opened)
  | _ => false
  end = true.
Proof. vm_compute. reflexivity. Qed.

(** When the definitions cannot be decoded they are dropped, and the data stay. *)
Example definitions_are_dropped_before_data :
  match open_or_rebuild FacadeExamples.codec read_message (fun _ => quiet) in_memory (<["db.indexes.json"%string := text "?"]> directory) with
  | Some (Ok opened, files) => (values opened, bool_decide (is_Some (files !! "db.indexes.json"%string)))
  | _ => ([], true)
  end = ([Some (text "red")], false).
Proof. vm_compute. reflexivity. Qed.

(** A failure of the second opening that has nothing to do with the files, such as that of
    a call, makes it remove the data all the same. *)
Definition cannot_list : OpenIo :=
  mk_OpenIo (fun call => match call with ReadDir => true | _ => false end) (Ok true) (fun _ => mk_WalAnchor 1 1) (fun _ _ => 5) 5 (fun _ => Postings.no_failures)
    (fun opened files => (Ok tt, opened, files)) (fun files => (Ok tt, files)).

Example a_passing_failure_removes_the_data :
  match open_or_rebuild FacadeExamples.codec read_message (fun i => if Nat.eqb i 1 then cannot_list else quiet) in_memory
    (<["db.indexes.json"%string := text "?"]> directory) with
  | Some (Ok opened, _) => values opened
  | _ => [None]
  end = [].
Proof. vm_compute. reflexivity. Qed.

(** ** Names and closing *)

(** Two text indexes whose names differ keep their postings in one file. *)
Example postings_collide : text_postings_path "by author" = text_postings_path "by_author".
Proof. vm_compute. reflexivity. Qed.

(** When closing fails half-way the lock stays held, and closing again answers success. *)
Definition failing_log : CloseIo := @mk_CloseIo KeyIndex NumberIndex OrderIndex DtIndex.TimeIndex None (Ok tt) (Err (WalFailed Wal.Closed)) (Ok tt).
Example failed_close_keeps_the_lock :
  let '(r, self) := close failing_log (the_opened opened_directory) in let '(r2, self2) := close failing_log self in
  r = Err (WalFailed Wal.Closed) /\ r2 = Ok tt /\ has_lock self2 = true.
Proof. vm_compute. split_and!; reflexivity. Qed.
End OpenExamples.
