(* ===== verification/Shard.v ===== *)
(** * One shard of a cluster ([crates/minidb/src/cluster/shard.rs])

    A shard is a database with the options of its cluster: a writer holds the lock of
    the directory and has a task that renews it, a reader only reads the files.  A
    reader changes no file of the shard, whatever becomes of its opening. *)

From Corelib Require Import SpecFloat.
From S2P Require Import Prelude.
From S2P Require Import Crc.
From S2P Require Import Codec.
From S2P Require Import OrdIndex.
From S2P Require Import Store.
From S2P Require Import Recovery.
From S2P Require Import Wal.
From S2P Require Import ValueReader.
From S2P Require Import DtIndex.
From S2P Require Import Query.
From S2P Require Import Float.
From S2P Require Import IndexManager.
From S2P Require Import CompoundIndex.
From S2P Require Import Postings.
From S2P Require Import TextIndex.
From S2P Require Import MiniDb.
From S2P Require Import MiniDbRead.
From S2P Require Import Open.
From S2P Require Import BackupFacts.
Import OrdIndex Float MiniDb MiniDbRead Open.

Module Shard.

(** ** Options *)

Record ShardOpenOptions := mk_ShardOpenOptions {
  fsync_policy : Wal.FsyncPolicy; value_mode : ValueModeSetting; compact_threshold : Z; compacts : bool; active_expire_interval : Z;
  recovers : Codec.CorruptionMode; max_memory_bytes : option Z; max_memory_policy : MemoryPolicy;
}.

(** All of [OpenOptions] but the directory and the codec: [Settings] and the options of
    the log and of the expiry task. *)
Record AllOptions := mk_AllOptions { plain : Settings; synchronized : Wal.FsyncPolicy; interval : Z }.

Definition from_open (options : AllOptions) : ShardOpenOptions :=
  mk_ShardOpenOptions (synchronized options) (want_value_mode (plain options)) (compact_threshold_bytes (plain options)) (auto_compact (plain options))
    (interval options) (recovery_mode (plain options)) (want_max_memory (plain options)) (want_policy (plain options)).

Definition open_options (self : ShardOpenOptions) (read_only : bool) : AllOptions :=
  mk_AllOptions
    (mk_Settings read_only (readonly_on_lock_fail Settings_new) (value_mode self) (max_memory_bytes self) (max_memory_policy self)
      (recovers self) (compact_threshold self) (negb read_only && compacts self))
    (if read_only then Wal.No else fsync_policy self) (active_expire_interval self).

(** ** Handles *)

Section handle.
Context {Number V : Type} `{!Platform Number} `{Crc32fast} `{!DefinitionJson}.
Context {KT NT OT TT : Type}.
Context `{!OrderedIndex KT bytes bytes} `{!OrderedIndex NT f64 bytes}.
Context `{!OrderedIndex OT CompoundIndex.OrderValue bytes} `{!OrderedIndex TT Z bytes}.
Context (codec : ValueCodec Number V) (read_message : Store.ValueLoc -> string).
Abbreviation Opened := (@Open.Opened KT NT OT TT).
Abbreviation OpenIo := (@Open.OpenIo KT NT OT TT).

(** With whether the task that renews the lock runs. *)
Record ShardHandle := mk_ShardHandle { shard_id : Z; opened : Opened; writer : bool; lease_task : bool }.

Definition open_writer (io : OpenIo) (shard_id : Z) (options : ShardOpenOptions) (renew_millis : Z) : F ShardHandle :=
  opened ← open codec read_message io (plain (open_options options false));
  mret (mk_ShardHandle shard_id opened true (0 <? renew_millis)).

Definition open_reader (io : OpenIo) (shard_id : Z) (options : ShardOpenOptions) : F ShardHandle :=
  opened ← open codec read_message io (plain (open_options options true));
  mret (mk_ShardHandle shard_id opened false false).

(** [renew_lock] of the database; the answer is that of [renew] of the lock. *)
Definition renew_lock (renewed : result MiniDbError ()) (self : Opened) : result MiniDbError () :=
  if has_lock self then renewed else Ok tt.

(** A round of the task: it ends with the first failure. *)
Definition lease_round (renewed : result MiniDbError ()) (self : ShardHandle) : ShardHandle :=
  if lease_task self then
    match renew_lock renewed (opened self) with
    | Ok _ => self
    | Err _ => mk_ShardHandle (shard_id self) (opened self) (writer self) false
    end
  else self.

Definition close (io : CloseIo) (self : ShardHandle) : result MiniDbError () * ShardHandle :=
  let '(r, database) := Open.close io (opened self) in
  (r, mk_ShardHandle (shard_id self) database (writer self) false).

(** ** A step that leaves the files as they are *)

Implicit Types (files : Files) (io : OpenIo) (o : Settings).

Definition leaves {A} (P : A -> Prop) (m : F A) : Prop :=
  forall files r files', m files = Some (r, files') -> files' = files /\ forall a, r = Ok a -> P a.

Lemma leaves_bind {A B} P Q (m : F A) (k : A -> F B) : leaves P m -> (forall a, P a -> leaves Q (k a)) -> leaves Q (m ≫= k).
Proof.
  intros Hm Hk files r files' E. unfold mbind, F_bind in E. destruct (m files) as [[r1 g]|] eqn:Em; [|done].
  apply Hm in Em as [-> Ha]. destruct r1 as [a|e]; [by eapply Hk; [apply Ha|]|]. by simplify_eq/=.
Qed.

Lemma leaves_result {A} (P : A -> Prop) (r : result MiniDbError A) : (forall a, r = Ok a -> P a) -> leaves P (Open.of_result r).
Proof. intros HP files r' files' [= <- <-]. done. Qed.

Lemma leaves_ret {A} (P : A -> Prop) (a : A) : P a -> leaves P (mret a : F A).
Proof. intros HP files r' files' [= <- <-]. split; [done|]. by intros a' [= <-]. Qed.

Lemma leaves_fs fails call : leaves (fun _ => True) (fs fails call).
Proof. by apply leaves_result. Qed.

Lemma leaves_files : leaves (fun _ => True) the_files.
Proof. by intros files r files' [= <- <-]. Qed.

(** ** Opening to read *)

Lemma size_of_leaves fails name : leaves (fun _ => True) (size_of fails name).
Proof.
  eapply leaves_bind; [apply leaves_files|]. intros files _. destruct (files !! name); [|by apply leaves_ret].
  eapply leaves_bind; [apply leaves_fs|]. intros _ _. by apply leaves_ret.
Qed.

Lemma resolve_leaves fails setting maximum : leaves (fun _ => True) (resolve_value_mode fails setting maximum).
Proof.
  destruct setting; [by apply leaves_ret..|]. destruct maximum; [|by apply leaves_ret].
  do 2 (eapply leaves_bind; [apply size_of_leaves|]; intros ? _). by apply leaves_ret.
Qed.

Lemma read_json_leaves {T} fails (parse : bytes -> option T) name : leaves (fun _ => True) (read_json fails parse name).
Proof.
  eapply leaves_bind; [apply leaves_files|]. intros files _. destruct (files !! name); [|by apply leaves_ret].
  eapply leaves_bind; [apply leaves_fs|]. intros _ _. destruct (parse _); [by apply leaves_ret|by apply leaves_result].
Qed.

(** Recovery cuts the log only when it is told to. *)
Lemma recover_uncut now (store : Store.Store KT) snapshot wal mode value_mode r store' wal' :
  Recovery.recover metadata_of_json now dt_json store snapshot wal mode false value_mode = Some (r, store', wal') -> wal' = wal.
Proof.
  unfold Recovery.recover. repeat (case_match; try done; simplify_eq); intros E; simpl in E;
    repeat (apply bind_Some in E as (? & _ & E)); by simplify_eq.
Qed.

Lemma recover_files_leaves io o mode : leaves (fun _ => True) (recover_files (KT := KT) io o false mode).
Proof.
  intros files r files'. unfold recover_files. destruct (_ || _); [by intros [= <- <-]|]. intros E.
  apply bind_Some in E as ([[r1 store] wal] & E & [= <- <-]). apply recover_uncut in E as ->. split; [|done].
  unfold file_named. destruct (files !! "db.wal"%string) as [log|] eqn:El; [|done]. cbn. by apply insert_id.
Qed.

(** The text indexes of a reader have no file. *)
Definition in_memory (text : gmap string TextIndex.TextIndex) : Prop := map_Forall (fun _ index => TextIndex.path index = None) text.

Lemma load_texts_in_memory (definitions : list TextIndexDefinition) : forall text, in_memory text -> in_memory (fold_left (load_text_index true) definitions text).
Proof. induction definitions as [|d definitions IH]; intros text Ht; [exact Ht|]. cbn [fold_left]. apply IH. apply map_Forall_insert_2; [done|exact Ht]. Qed.

Lemma load_definitions_leaves fails : leaves (fun derived => in_memory (text derived)) (load_definitions (NT := NT) (OT := OT) (TT := TT) fails true).
Proof.
  unfold load_definitions. cbv zeta. eapply leaves_bind; [apply read_json_leaves|]. intros infos _.
  eapply leaves_bind; [by apply (leaves_result (fun _ => True))|]. intros indexes _. eapply leaves_bind; [apply read_json_leaves|]. intros compound_infos _.
  eapply leaves_bind; [by apply (leaves_result (fun _ => True))|]. intros compound _. eapply leaves_bind; [apply read_json_leaves|]. intros definitions _.
  apply leaves_ret, load_texts_in_memory, map_Forall_empty.
Qed.

Lemma build_texts_in_memory entries outcomes texts : (forall name index, (name, index) ∈ texts -> TextIndex.path index = None) -> forall text files,
  (build_texts (Number := Number) entries outcomes texts text files).2 = files.
Proof.
  induction texts as [|[name index] texts IH]; intros Hp text files; [done|]. cbn [build_texts]. rewrite (Hp name index) by left.
  pose proof (BackupFacts.build_path entries (outcomes name) (path ← None; files !! path) index) as Hb. rewrite (Hp name index) in Hb by left.
  destruct (TextIndex.build _ _ _ _ _ _ _) as [[disk built] index']. cbn [snd] in Hb. rewrite Hb. cbn [put_file].
  destruct built; [|done]. apply IH. intros n i Hin. apply (Hp n). by right.
Qed.

Lemma rebuild_leaves io reader store derived : in_memory (text derived) -> leaves (fun _ => True) (rebuild codec read_message io reader store derived).
Proof.
  intros Ht files r files'. unfold rebuild, rebuild_derived. destruct (Store.entries _ _ _) as [entries|e]; [|by intros [= <- <-]].
  destruct (IndexManager.rebuild _ _ _ _ _); [|done]. simpl_bind. destruct (DtIndex.rebuild _ _); [|done]. simpl_bind.
  destruct (CompoundIndex.rebuild _ _ _ _); [|done]. simpl_bind. set (documents := map _ _).
  pose proof (build_texts_in_memory documents (outcomes io) (map_to_list (text derived))) as Hb.
  specialize (Hb (fun name index Hin => Ht name index (proj1 (elem_of_map_to_list _ _ _) Hin)) (text derived) files).
  destruct (build_texts _ _ _ _ _) as [[r1 ts] g]. cbn in Hb. subst g. by intros [= <- <-].
Qed.

Lemma open_reader_files io mode : leaves (fun _ => True) (Open.open_reader io mode).
Proof.
  destruct mode; [by apply leaves_ret|]. eapply leaves_bind; [apply leaves_fs|]. intros _ _.
  eapply leaves_bind; [apply leaves_files|]. intros files _. by apply leaves_ret.
Qed.

(** ** What the handles promise *)

(** What a reader has. *)
Definition only_reads (self : Opened) : Prop :=
  read_only (settings self) = true /\ has_lock self = false /\ log_open self = false /\ closed (database self) = false.

Lemma open_to_read io o : want_read_only o = true -> auto_compact o = false -> leaves only_reads (open codec read_message io o).
Proof.
  intros Hr Ha. unfold open. eapply (leaves_bind only_reads).
  2: { intros opened Ho. eapply leaves_bind; [apply leaves_files|]. intros files _. rewrite Ha, andb_false_r. by apply leaves_ret. }
  unfold open_database, take_lock. rewrite Hr. eapply leaves_bind; [by apply (leaves_result (fun _ => True))|]. intros _ _.
  eapply leaves_bind; [apply leaves_fs|]. intros _ _.
  eapply (leaves_bind (fun p => p = (true, false))); [by apply leaves_ret|]. intros ? ->.
  do 2 (eapply leaves_bind; [by apply (leaves_ret (fun _ => True))|]; intros _ _). eapply leaves_bind; [apply resolve_leaves|]. intros mode _.
  eapply leaves_bind; [apply recover_files_leaves|]. intros [store info] _. rewrite andb_false_r.
  eapply leaves_bind; [by apply (leaves_ret (fun _ => True))|]. intros _ _. eapply leaves_bind; [apply open_reader_files|]. intros reader _.
  eapply leaves_bind; [apply load_definitions_leaves|]. intros derived Hd. eapply leaves_bind; [by apply rebuild_leaves|]. intros derived' _.
  by apply leaves_ret.
Qed.

(** A reader leaves the directory of its shard as it is, whether its opening succeeds
    or fails, and has neither the lock nor the log. *)
Theorem readers_change_no_file io id options files r files' :
  open_reader io id options files = Some (r, files') ->
  files' = files /\ forall handle, r = Ok handle -> shard_id handle = id /\ writer handle = false /\ lease_task handle = false /\ only_reads (opened handle).
Proof.
  apply (leaves_bind only_reads); [by apply open_to_read|]. intros opened Ho. by apply leaves_ret.
Qed.

(** The options of a cluster are those its writers are opened with; a reader neither
    compacts nor synchronizes. *)
Theorem writers_have_the_options options : from_open (open_options options false) = options.
Proof. by destruct options. Qed.

(** A step that has the property when it returns. *)
Definition gives {A} (P : A -> Prop) (m : F A) : Prop := forall files a files', m files = Some (Ok a, files') -> P a.

Lemma gives_bind {A B} P Q (m : F A) (k : A -> F B) : gives P m -> (forall a, P a -> gives Q (k a)) -> gives Q (m ≫= k).
Proof.
  intros Hm Hk files b files' E. unfold mbind, F_bind in E. destruct (m files) as [[[a|e] g]|] eqn:Em; [|done..].
  eapply Hk; [by eapply Hm|exact E].
Qed.

Lemma gives_any {A} (m : F A) : gives (fun _ => True) m.
Proof. done. Qed.

Lemma gives_ret {A} (P : A -> Prop) (a : A) : P a -> gives P (mret a : F A).
Proof. by intros HP files a' files' [= <- <-]. Qed.

(** A compaction changes neither who holds the lock nor the settings. *)
Definition keeps_the_lock io : Prop :=
  forall self files self' files', compaction io self files = (Ok tt, self', files') -> has_lock self' = has_lock self /\ settings self' = settings self.

Definition writes (self : Opened) : Prop := has_lock self = true /\ read_only (settings self) = false.

Lemma open_to_write io o : want_read_only o = false -> readonly_on_lock_fail o = false -> keeps_the_lock io -> gives writes (open codec read_message io o).
Proof.
  intros Hr Hl Hk. unfold open. apply (gives_bind writes).
  - unfold open_database. do 2 (eapply gives_bind; [apply gives_any|]; intros _ _).
    apply (gives_bind (fun p => p = (false, true))).
    + unfold take_lock. rewrite Hr, Hl. eapply gives_bind; [apply gives_any|]. intros [] _; [by apply gives_ret|]. by intros files a files'.
    + intros ? ->. do 3 (eapply gives_bind; [apply gives_any|]; intros ? _). eapply gives_bind; [apply gives_any|]. intros [store info] _.
      do 4 (eapply gives_bind; [apply gives_any|]; intros ? _). by apply gives_ret.
  - intros self [Hlock Hro]. eapply gives_bind; [apply gives_any|]. intros files _. destruct (_ && _ && _); [|by apply gives_ret].
    intros g self' g'. unfold compact_opened. destruct (compaction io self g) as [[[[]|e] self1] g1] eqn:E; intros [= <- <-].
    apply Hk in E as [Hl' Hs']. unfold writes. by rewrite Hl', Hs'.
Qed.

(** Two writers of a shard exclude each other: a handle that is a writer holds the lock,
    and without the lock there is none. *)
Theorem writers_hold_the_lock io id options renew_millis files handle files' : keeps_the_lock io ->
  open_writer io id options renew_millis files = Some (Ok handle, files') ->
  shard_id handle = id /\ writer handle = true /\ writes (opened handle) /\ (lease_task handle = true <-> 0 < renew_millis).
Proof.
  intros Hk. revert files handle files'.
  enough (gives (fun handle => shard_id handle = id /\ writer handle = true /\ writes (opened handle) /\ (lease_task handle = true <-> 0 < renew_millis))
    (open_writer io id options renew_millis)) as Hg by exact Hg.
  apply (gives_bind writes); [by apply open_to_write|]. intros self Hw. apply gives_ret. cbn. by rewrite Z.ltb_lt.
Qed.

(** A handle that is closed without error has given up the lock, the log and the task
    that renews, even when the task has ended before; a compaction that was under way
    does not open the database again. *)
Theorem closed_handles_hold_nothing (io : CloseIo) self self' : (forall f db, compacting io = Some f -> closed (f db) = closed db) ->
  closed (database (opened self)) = false -> close io self = (Ok tt, self') ->
  lease_task self' = false /\ has_lock (opened self') = false /\ log_open (opened self') = false /\ closed (database (opened self')) = true.
Proof.
  intros Hf Hc. unfold close, Open.close. rewrite Hc. destruct (match value_reader (opened self) with Some _ => _ | None => _ end); [|by intros [= <-]].
  destruct (if log_open (opened self) then _ else _) eqn:El; [|by intros [= <-]]. destruct (if has_lock (opened self) then _ else _); [|by intros [= <-]].
  intros [= <-]. cbn. split_and!; try done. destruct (compacting io) as [f|]; [by rewrite (Hf f)|done].
Qed.

(** The task lives until the first renewal that fails, and never starts again. *)
Theorem leases_end_with_the_first_failure (answers : list (result MiniDbError ())) : forall self, has_lock (opened self) = true -> lease_task self = true ->
  lease_task (fold_left (fun self renewed => lease_round renewed self) answers self) = true <-> Forall (fun answer => answer = Ok tt) answers.
Proof.
  induction answers as [|answer answers IH]; intros self Hl Ht; [by rewrite Forall_nil|]. cbn [fold_left]. rewrite Forall_cons.
  unfold lease_round at 2. rewrite Ht. unfold renew_lock. rewrite Hl. destruct answer as [[]|e]; [rewrite (IH self) by done; naive_solver|].
  set (ended := mk_ShardHandle _ _ _ _). assert (forall l, fold_left (fun self renewed => lease_round renewed self) l ended = ended) as ->.
  { intros l. by induction l. }
  split; [done|]. by intros [? _].
Qed.
End handle.
End Shard.
