(* ===== verification/RenameReplace.v ===== *)
(** * Replacing a file by a rename ([crates/minidb/src/rename_replace.rs])

    A rename replaces a file at once.  On Windows it is refused while another process
    has the file open, and is tried again after a while. *)

From S2P Require Import Prelude.

Module RenameReplace.

(** Times are in milliseconds. *)
Record RenameReplaceOptions := mk_RenameReplaceOptions { retries : nat; base_delay : Z }.
Definition RenameReplaceOptions_default : RenameReplaceOptions := mk_RenameReplaceOptions 100 20.

Inductive IoError := PermissionDenied | Other.

(** What an attempt waits for before the next one; the product wraps. *)
Definition delay (options : RenameReplaceOptions) (attempt : nat) : Z :=
  base_delay options + (Z.of_nat attempt * 17 mod 2 ^ 64) mod 30.

Section rename.
(** What the operating system answers to each attempt. *)
Context (rename : nat -> result IoError ()).

(** On Windows: the attempts from [attempt] on, of which there are [remaining]; with the times
    that it sleeps.  [None] is the [unreachable!] after the loop. *)
Fixpoint attempts (options : RenameReplaceOptions) (attempt remaining : nat) : option (result IoError () * list Z) :=
  match remaining with
  | O => None
  | S remaining =>
      match rename attempt with
      | Ok tt => Some (Ok tt, [])
      | Err PermissionDenied =>
          if bool_decide (attempt < retries options)%nat then
            '(r, sleeps) ← attempts options (S attempt) remaining;
            Some (r, delay options attempt :: sleeps)
          else Some (Err PermissionDenied, [])
      | Err error => Some (Err error, [])
      end
  end.

Definition rename_replace (windows : bool) (options : RenameReplaceOptions) : option (result IoError () * list Z) :=
  if windows then attempts options 0 (S (retries options)) else Some (rename 0%nat, []).

(** The answer that ends the loop. *)
Definition answer_of (options : RenameReplaceOptions) (attempt last : nat) : Prop :=
  (forall i, (attempt <= i < last)%nat -> rename i = Err PermissionDenied) /\
  (attempt <= last <= retries options)%nat /\ (rename last = Err PermissionDenied -> last = retries options).

Lemma attempts_spec options left : forall attempt, (attempt + left = S (retries options))%nat -> (attempt <= retries options)%nat ->
  exists last, answer_of options attempt last /\
    attempts options attempt left = Some (rename last, map (delay options) (seq attempt (last - attempt))).
Proof.
  induction left as [|left IH]; intros attempt Hsum Hle; [lia|]. cbn [attempts]. destruct (rename attempt) as [[]|[]] eqn:E.
  1, 3: exists attempt; rewrite Nat.sub_diag, E; split; [split_and!; [lia..|congruence]|done].
  case_bool_decide as Hlt.
  - destruct (IH (S attempt)) as (last & (Hd & Hl & He) & Ha); [lia..|]. exists last. rewrite Ha. split.
    + split_and!; [|lia..|done]. intros i Hi. destruct (decide (i = attempt)) as [->|]; [done|]. apply Hd. lia.
    + cbn [mbind option_bind]. by replace (last - attempt)%nat with (S (last - S attempt)) by lia.
  - exists attempt. rewrite Nat.sub_diag, E. split; [|done]. split_and!; lia.
Qed.

(** On Windows the loop always returns: with the answer to the first attempt that is not
    refused, or to the last one, after sleeping once for each refusal before it. *)
Theorem rename_replace_returns options : exists last, answer_of options 0 last /\
  rename_replace true options = Some (rename last, map (delay options) (seq 0 last)).
Proof.
  destruct (attempts_spec options (S (retries options)) 0) as (last & Ha & E); [lia..|]. exists last. by rewrite Nat.sub_0_r in E.
Qed.

(** So it succeeds exactly when one of the attempts does before any other failure. *)
Theorem rename_replace_succeeds options :
  (exists sleeps, rename_replace true options = Some (Ok tt, sleeps)) <->
  exists last, (last <= retries options)%nat /\ rename last = Ok tt /\ forall i, (i < last)%nat -> rename i = Err PermissionDenied.
Proof.
  destruct (rename_replace_returns options) as (last & (Hd & Hl & He) & E). rewrite E. split.
  - intros [sleeps [= Hr _]]. exists last. split_and!; [lia|done|]. intros i Hi. apply Hd. lia.
  - intros (first & Hf & Hok & Hden). eexists. do 2 f_equal. destruct (Nat.lt_trichotomy first last) as [Hlt|[->|Hlt]]; [|done|].
    + rewrite Hd in Hok by lia. done.
    + pose proof (Hden last Hlt) as Hr. specialize (He Hr). lia.
Qed.
End rename.

(** A sleep is the base delay and less than 30 ms more. *)
Theorem delay_bounds options attempt : base_delay options <= delay options attempt < base_delay options + 30.
Proof. unfold delay. pose proof (Z.mod_pos_bound (Z.of_nat attempt * 17 mod 2 ^ 64) 30). lia. Qed.

Example refused_twice :
  rename_replace (fun i => if (i <? 2)%nat then Err PermissionDenied else Ok tt) true RenameReplaceOptions_default = Some (Ok tt, [20; 37]).
Proof. reflexivity. Qed.
End RenameReplace.
